(* ===== verification/_CoqProject ===== *)
-Q . S2P
Drasi.v
Prelude.v
Text.v
BTree.v
Floats.v
Hashing.v
Ast.v
Models.v
Errors.v
Values.v
GroupIdentity.v
MatchPath.v
Solver.v
SolverFacts.v
SolverComplete.v
NaiveQuery.v
SolverMatches.v
ElementIndex.v
ElementIndexFacts.v
ResultIndex.v
ChronoOps.v
LazySortedSet.v
Aggregation.v
Contexts.v
AggregateFacts.v
Parts.v
Temporal.v
Operators.v
Expressions.v
ExpressionsFacts.v
PartsFacts.v
FutureQueue.v
Session.v
StateCodec.v
FutureFunctions.v
FutureFunctionsFacts.v
FutureSamples.v
IndexCache.v
GraphStore.v
IndexCacheFacts.v
ContinuousQuery.v
RowQueryFacts.v
Incremental.v
CollapseFacts.v
QuerySafety.v
QuerySamples.v
ShadowFacts.v
CacheSamples.v
IncrementalSamples.v
QueryOutput.v
OutputStores.v
StateStore.v
OutputPipeline.v
QueryOutputFacts.v
OutputBackend.v
Startup.v
OutputRecovery.v
RecoverySamples.v
ComponentGraph.v
ComponentGraphFacts.v
ComponentGraphOrder.v
Lifecycle.v
GraphSamples.v
Json.v
ScalarFunctions.v
ScalarFacts.v
Middleware.v
MappingMiddleware.v
JqMiddleware.v
PipelineFacts.v
MiddlewareSamples.v
ReactionRecovery.v
ReactionMirror.v
PriorityQueue.v
ReactionLoop.v
ReactionLoopFacts.v
ReactionSamples.v
SourceBase.v
SourceBaseFacts.v
SourceSamples.v
