(* ===== verification/Drasi.v ===== *)
(** * Drasi: continuous queries, their output, and the reactions to it

    ** The program

    A continuous query watches a property graph. Sources report the changes of
    elements ([core/src/models]); the query holds the current elements in an
    element index, finds with a path solver the assignments of elements to its
    MATCH pattern that a change gains, loses or alters, evaluates its parts on
    them and emits the changes of its result rows. Aggregating parts keep
    accumulators in a result index; calls that depend on time leave requests in
    a future queue. All the writes of one change run in one session of the
    storage. The server library ([lib/src]) wraps a query in a processor task:
    it deduplicates source events by sequence, numbers each emission, keeps the
    live rows and a bounded outbox, stages both in the session of the change,
    and recovers them after a restart. Reactions subscribe to queries: a
    forwarder per query feeds the reaction, fills holes from the outbox or
    recovers by policy, and the loop of the reaction handles the results and
    writes checkpoints. Before a change reaches a query it goes through the
    middleware of its source ([middleware/src]). The parts of a server (sources,
    queries, reactions and others) are the nodes of one component graph, which
    holds their statuses and tells of every change of them. The base all
    sources share numbers and orders the events they dispatch, holds back what
    a subscriber has seen, replays a log to those that resume and works out what
    may be confirmed upstream.

    ** Which file models what

    The vocabulary: [Prelude] (outcomes [Ok], [Err] and [Panic], the
    state-and-error monad [SM], 64-bit integers, tactics, hints), [Text]
    (std's texts: bytes, characters, slices, splitting, numbers), [BTree]
    (Rust's [BTreeMap] and the class [Ord]), [Floats] ([f64], [OrderedFloat]),
    [Hashing] ([EqHash]; the hashers and the calendar of crate chrono as
    classes), [ChronoOps] (what the engine calls of chrono), [Errors].

    The engine (core/src and query-ast/src):
    - [Ast], [Models], [Values]: the syntax tree, elements and changes, the
      dynamic values with their equality and grouping identity;
      [GroupIdentity] proves the latter.
    - [MatchPath], [Solver] (path_solver/): the slot graph of a pattern and the
      command loop over partial solutions. [SolverFacts], [SolverComplete],
      [NaiveQuery] and [SolverMatches] compare it with the matches of the
      pattern.
    - [ElementIndex], [ResultIndex], [FutureQueue] (in_memory_index/): the
      in-memory indexes, with [ElementIndexFacts]; [Session] holds the
      interfaces of storage (interface/) and the in-memory backend,
      [GraphStore] what the engine relies on of an element index.
    - [IndexCache] (index_cache/): the bounded cache, the cached indexes and
      the shadowed future queue; [IndexCacheFacts], [ShadowFacts].
    - [LazySortedSet], [Aggregation], [AggregateFacts]
      (evaluation/functions/aggregation/): the aggregating functions, how the
      evaluator calls them and what they keep.
    - [Contexts], [Temporal], [Operators], [Expressions] (evaluation/) with
      [ExpressionsFacts]: the evaluator of expressions. [StateCodec] and
      [FutureFunctions] (evaluation/functions/future/, past/) with
      [FutureFunctionsFacts]: the functions over time. [ScalarFunctions]
      (evaluation/functions/text, numeric, trigonometric, cypher_scalar, list,
      drasi, metadata.rs; functions-cypher/src/lib.rs) with [ScalarFacts]: the
      scalar functions and their registration.
    - [Parts] (evaluation/parts/) with [PartsFacts].
    - [ContinuousQuery] (query/continuous_query.rs, middleware/mod.rs) with
      [RowQueryFacts], [CollapseFacts], [QuerySafety] and the
      end-to-end theorem in [Incremental].

    The middleware (middleware/src, core/src/middleware):
    - [Json] (models/element_value.rs, element.rs): elements as JSON values.
    - [Middleware] (the registry, containers and pipelines; relabel, promote,
      decoder, parse_json), [MappingMiddleware] (unwind, map), [JqMiddleware]
      (jq) and, for every pipeline of them, [PipelineFacts]. [ContinuousQuery]
      runs the pipelines.

    The server library (lib/src):
    - [QueryOutput] (queries/output_state.rs), [OutputStores] (the durable
      stores and queries/sequence_dedup.rs), [OutputPipeline]
      (queries/manager.rs: the output stages and the processor task), [Startup]
      (queries/manager.rs, the configuration hash and the resets);
      [QueryOutputFacts], [OutputBackend], [OutputRecovery].
    - [ComponentGraph] (component_graph/: statuses, events and their history,
      the graph) with [ComponentGraphFacts] and [ComponentGraphOrder];
      [Lifecycle] (managers/lifecycle_helpers.rs, lifecycle.rs).
    - [StateStore] (state_store/, reactions/checkpoint.rs).
    - [ReactionRecovery] (reactions/manager.rs, the query's side of it in
      queries/manager.rs) with [ReactionMirror].
    - [PriorityQueue] (channels/priority_queue.rs, queries/priority_queue.rs):
      the queue of events and its waiting tasks.
    - [ReactionLoop] (reactions/common/) with [ReactionLoopFacts].
    - [SourceBase] (sources/base.rs, sources/traits.rs, channels/dispatcher.rs)
      with [SourceBaseFacts]: subscriptions, dispatch, replay, confirmed
      positions.

    A file holds definitions first and then what is proved of them; proofs that
    need more of the development are in a file of their own. The files ending
    in [Samples] instantiate every interface with a concrete implementation and
    run the definitions.

    ** How state and operations correspond

    A struct is a [Record], an enum an [Inductive] with the source's
    constructors. A pure function is a function; one that returns [Result] and
    may panic gives an [outcome]; one that also writes to an index or to
    [self] is an [SM], and an error keeps the writes made before it, as it does
    in Rust. Traits are classes; what the code relies on of an implementation
    is a class of laws over them ([SetStoreLaws], [TransactionalSession],
    [GraphStore], [PeekableQueue], [StateStoreLaws], [Mirror], ...), proved of
    the in-memory implementations. An [await] at which other tasks may run is
    explicit: [ReactionRecovery] takes a schedule of what the queries do before
    each of them, [ReactionLoop] a script of arrivals and turns,
    [PriorityQueue] a list of the tasks that step, [SourceBase] the operations
    in the order in which they take its locks, and [Lifecycle] what the other
    tasks do to the graph while the runtime of a component is called; a lock
    that is free is taken at once.

    ** What the theorems show

    - The answer of a query: [incremental_is_naive_evaluation] composes the
      solver ([solve_complete_on_trees], [solve_terminates_sound]), the index
      ([element_index_refines_store]) and the parts
      ([row_part_maintains_view]) to show that the emitted changes are the
      difference of the query evaluated from scratch before and after.
      [group_row_lifecycle], [extreme_tracks_group], lemma [count_tracks_group] and
      [collapse_first_before_last_after] are the steps of the same argument
      for aggregation.
    - All or nothing: [failed_change_rolls_back].
    - Durable output: [processor_output_durable], [restart_recovers_output],
      [redelivered_changes_take_effect_once], [interrupted_reset_is_finished].
    - Sources: a subscriber that resumes is given each position once
      ([resumed_subscriber_gets_each_once], [replay_then_live_once]), events
      keep their order through the queue ([live_events_keep_their_order]) and
      new numbers ([framework_sequences_fresh]), and upstream is told of
      nothing a subscriber still waits for ([confirmed_position_is_safe]).
    - Readers and reactions: [snapshot_then_outbox_is_current],
      [caught_up_reaction_mirrors_query], [checkpoint_never_passes_unhandled].
    - Storage under the engine: the caches are transparent
      ([cached_elements_transparent], [shadowed_queue_transparent],
      [lru_refines_last_write]), the future queue is a set of requests
      ([future_queue_refines], [future_queue_drains]).
    - Functions over time: [true_for_holds], [previous_value_recalls] and the
      codec of the values they keep ([state_codec_round_trip]).
    - Scalar functions: what they answer without their loops
      ([split_round_trip]), where a cut panics ([left_right_cut]); as lemmas,
      [range_lists_progression], [distinct_keeps_first],
      [integer_text_round_trip], lists as texts ([list_to_text_displays]), extremes
      ([list_extremes_of_integers]) and folds ([reduce_folds]).
    - Middleware: what unwinding and parsing leave ([unwind_tracks_items],
      [parse_json_stores_bounded]); the JSON of a value ([json_round_trip]); as
      lemmas, [pipelines_keep_origin] for every pipeline, what promotion leaves
      ([promote_settles_properties]) and the cache of jq programs
      ([jq_cache_transparent]).
    - Components: the graph is well formed ([graph_stays_well_formed]), is
      changed all or nothing ([registration_all_or_nothing]) and its events and
      their history tell what happened ([events_tell_statuses],
      [history_holds_recent]); commands that fail do not stick
      ([failed_command_does_not_stick]) and a shutdown goes in the order of the
      feeds ([shutdown_order_follows_feeds]).
    - Queues and tasks, as lemmas: [drained_in_order],
      [queue_stays_within_capacity], [one_producer_never_stuck].
    - Where the code does something else than it means to, a theorem on a
      concrete or a general input shows it ([cyclic_pattern_false_match],
      [clock_step_back_loses_result], [two_producers_get_stuck],
      [condition_ending_keeps_children], [substring_beyond_end_panics],
      [replayed_behind_live_are_skipped] and the other lemmas the findings name).

    ** Bounds and fuel

    Integers of the source have their width: 64-bit arithmetic wraps or
    saturates as the source has it ([as_u64], [as_i64], [saturating_add]). The
    solver's command loop takes fuel for the commands it handles;
    [solve_terminates_sound] shows that there is an amount from which on the
    outcome is the same, for every index and pattern. The evaluator of
    expressions takes fuel for the depth of the expression and of the grouping
    expressions of the context; [eval_enough_fuel] gives the bound from which
    on the outcome does not change. Splitting takes the length of the text, and
    a range the distance it covers, each more than the steps there are.
    [dequeue_all] takes the number of events; [drained_in_order] assumes no more
    than the depth of the queue. The numbers of a source are shown fresh as long
    as they stay clear of the last 64-bit number by the operations to come. Loops that serve for ever
    (the processor, the forwarder, the loop of a reaction) are modelled by
    their turns, for any number of them.

    ** What is not modelled

    - The parsers (query-cypher, query-gql): grammars that a macro expands at
      build time; the query builder that wires registries together.
    - The functions that make, parse and cut instants and durations
      (temporal_instant, temporal_duration): regular expressions and crate
      chrono do their work. A registry is a parameter of the evaluator, with
      these functions in their places. Of the scalar functions: the case tables
      of Unicode, the reading of decimal numbers, powers, and the crates for
      rounding, statistics, random numbers and identifiers are parameters.
    - Serialization (serde, bincode, the text of JSON) and the formats of the
      durable stores: classes with the round trip the code relies on. JSON
      paths, decoders, jq and the deserialization of configurations are crates:
      parameters of the middleware. The graph library of the component graph is
      a parameter too.
    - RocksDB and Garnet index backends, source and reaction plugins, the
      plugin host, identity and secret stores: adapters to systems outside the
      repository.
    - Of a source: its tasks, status and configuration, the task that
      bootstraps a query, a full channel making a dispatch wait, and a lagging
      receiver of a broadcast. Marks are advanced together with the dispatch;
      the code does so just after it has given up its place in the order.
    - Of the server library: the managers and the builder above the component
      graph, configuration, log streams, metrics, and the metadata that rides
      along with a result.
    - Real time: clocks are arguments, timeouts are outcomes of a schedule. *)
