(* ===== verification/Prelude.v ===== *)
(** * Shared vocabulary of the development

    This file holds what every component file uses: the result type of
    fallible code, the state-and-error monad of the asynchronous index
    operations, machine-width helpers, the tactics and hint databases of the
    development, and the generic facts on lists and options that are shared
    between components. *)

From Stdlib Require Export ZArith Lia.
From stdpp Require Export base option list strings gmap sets.

#[global] Set Default Goal Selector "!".

Declare Scope drasi_scope.
Delimit Scope drasi_scope with drasi.
#[global] Open Scope Z_scope.
#[global] Open Scope drasi_scope.

(** ** Outcome of a Rust call

    [Ok] and [Err] are the two arms of [Result]; [Panic] is the unwinding of
    an [unwrap], an [assert!], an [unreachable!] or an out of range index. *)

Inductive outcome (E A : Type) : Type :=
| Ok (a : A)
| Err (e : E)
| Panic.
Arguments Ok {E A} a.
Arguments Err {E A} e.
Arguments Panic {E A}.

#[global] Instance outcome_ret {E} : MRet (outcome E) := fun A a => Ok a.
#[global] Instance outcome_bind {E} : MBind (outcome E) := fun A B f m =>
  match m with
  | Ok a => f a
  | Err e => Err e
  | Panic => Panic
  end.
#[global] Instance outcome_fmap {E} : FMap (outcome E) := fun A B f m =>
  match m with
  | Ok a => Ok (f a)
  | Err e => Err e
  | Panic => Panic
  end.

#[global] Instance outcome_eq_dec {E A} `{EqDecision E} `{EqDecision A} :
  EqDecision (outcome E A).
Proof. solve_decision. Defined.

(** [map_err] of [Result]. *)
Definition map_err {E F A} (f : E -> F) (m : outcome E A) : outcome F A :=
  match m with
  | Ok a => Ok a
  | Err e => Err (f e)
  | Panic => Panic
  end.

Definition is_ok {E A} (m : outcome E A) : bool := match m with Ok _ => true | _ => false end.

(** The value of a successful outcome. *)
Definition ok_or {E A} (d : A) (m : outcome E A) : A := match m with Ok a => a | _ => d end.

Lemma is_ok_eq {E A} (d : A) (m : outcome E A) : is_ok m = true -> m = Ok (ok_or d m).
Proof. by destruct m. Qed.

(** ** State and errors

    The indexes are mutated behind [Arc]s while errors travel through [?], so
    an operation returns its outcome together with the state it leaves behind;
    an error does not undo the writes that came before it. *)

Definition SM (S E A : Type) : Type := S -> outcome E A * S.

#[global] Instance SM_ret {S E} : MRet (SM S E) := fun A a s => (Ok a, s).
#[global] Instance SM_bind {S E} : MBind (SM S E) := fun A B f m s =>
  match m s with
  | (Ok a, s') => f a s'
  | (Err e, s') => (Err e, s')
  | (Panic, s') => (Panic, s')
  end.

Definition sm_lift {S E A} (m : outcome E A) : SM S E A := fun s => (m, s).
Definition sm_err {S E A} (e : E) : SM S E A := fun s => (Err e, s).
Definition sm_get {S E} : SM S E S := fun s => (Ok s, s).
Definition sm_put {S E} (s : S) : SM S E unit := fun _ => (Ok tt, s).
Definition sm_map_err {S E F A} (f : E -> F) (m : SM S E A) : SM S F A :=
  fun s => let '(r, s') := m s in (map_err f r, s').

(** The [for] loop of effectful code: stops at the first error. *)
Fixpoint sm_foldl {S E A B} (f : A -> B -> SM S E A) (a : A) (l : list B) : SM S E A :=
  match l with
  | [] => mret a
  | b :: l => a' ← f a b; sm_foldl f a' l
  end.

Fixpoint sm_mapM {S E A B} (f : A -> SM S E B) (l : list A) : SM S E (list B) :=
  match l with
  | [] => mret []
  | a :: l => b ← f a; bs ← sm_mapM f l; mret (b :: bs)
  end.

Fixpoint out_foldl {E A B} (f : A -> B -> outcome E A) (a : A) (l : list B) : outcome E A :=
  match l with
  | [] => Ok a
  | b :: l => a' ← f a b; out_foldl f a' l
  end.

Lemma out_foldl_app {E A B} (f : A -> B -> outcome E A) l1 l2 a :
  out_foldl f a (l1 ++ l2) = (b ← out_foldl f a l1; out_foldl f b l2).
Proof. revert a. induction l1 as [|x l1 IH]; intros a; cbn; [done|]. by destruct (f a x); cbn. Qed.

Lemma out_foldl_inv {E A B} (P : A -> Prop) (f : A -> B -> outcome E A) l a :
  P a -> (forall a b, b ∈ l -> P a -> exists a', f a b = Ok a' /\ P a') ->
  exists a', out_foldl f a l = Ok a' /\ P a'.
Proof.
  revert a. induction l as [|b l IH]; intros a Ha Hf; cbn; [by eauto|].
  destruct (Hf a b) as (a' & -> & Ha'); [set_solver|done|]. cbn.
  apply IH; [done|]. intros. apply Hf; [set_solver|done].
Qed.

(** Every element of the list does its work, and no later one undoes it. *)
Lemma out_foldl_each {E A B} (P : A -> Prop) (Q : B -> A -> Prop) (f : A -> B -> outcome E A) l a :
  P a ->
  (forall a b, b ∈ l -> P a ->
     exists a', f a b = Ok a' /\ P a' /\ Q b a' /\ forall b', Q b' a -> Q b' a') ->
  exists a', out_foldl f a l = Ok a' /\ P a' /\ (forall b, b ∈ l -> Q b a') /\
    (forall b', Q b' a -> Q b' a').
Proof.
  revert a. induction l as [|b l IH]; intros a Ha Hf; cbn.
  { exists a. split_and!; [done|done|set_solver|done]. }
  destruct (Hf a b) as (a1 & -> & H1 & Hb & Hk); [set_solver|done|]. cbn.
  destruct (IH a1) as (a2 & Hl & H2 & Hin & Hk2); [done|intros; apply Hf; [set_solver|done]|].
  exists a2. split_and!; [done|done|intros b' [->|?]%elem_of_cons; auto|auto].
Qed.

Section sm_laws.
Context {S E : Type}.

Lemma sm_bind_ok {A B} (m : SM S E A) (f : A -> SM S E B) s a s' :
  m s = (Ok a, s') -> (m ≫= f) s = f a s'.
Proof. intros H. unfold mbind, SM_bind. by rewrite H. Qed.

Lemma sm_bind_err {A B} (m : SM S E A) (f : A -> SM S E B) s e s' :
  m s = (Err e, s') -> (m ≫= f) s = (Err e, s').
Proof. intros H. unfold mbind, SM_bind. by rewrite H. Qed.

Lemma sm_bind_ret_l {A B} (a : A) (f : A -> SM S E B) s : (mret a ≫= f) s = f a s.
Proof. reflexivity. Qed.

Lemma sm_bind_lift {A B} (m : outcome E A) (f : A -> SM S E B) s :
  (sm_lift m ≫= f) s = match m with Ok a => f a s | Err e => (Err e, s) | Panic => (Panic, s) end.
Proof. by destruct m. Qed.

Lemma out_bind_ok {A B} (a : A) (f : A -> outcome E B) : (Ok a ≫= f) = f a.
Proof. reflexivity. Qed.

Lemma sm_foldl_app {A B} (f : A -> B -> SM S E A) l1 l2 a s :
  sm_foldl f a (l1 ++ l2) s = (a' ← sm_foldl f a l1; sm_foldl f a' l2) s.
Proof.
  revert a s. induction l1 as [|b l1 IH]; intros a s; [reflexivity|].
  cbn. unfold mbind, SM_bind. destruct (f a b s) as [[a'|e|] s']; [|done|done].
  rewrite IH. reflexivity.
Qed.

(** A loop whose every step succeeds with a pure function of its input is
    the pure fold. *)
Lemma sm_foldl_pure {A B} (f : A -> B -> SM S E A) (g : A -> B -> A) l a s :
  (forall a b, b ∈ l -> f a b s = (Ok (g a b), s)) ->
  sm_foldl f a l s = (Ok (fold_left g l a), s).
Proof.
  revert a. induction l as [|b l IH]; intros a Hf; [reflexivity|].
  cbn. erewrite sm_bind_ok by (apply Hf; set_solver). apply IH.
  intros a' b' Hb. apply Hf. set_solver.
Qed.
End sm_laws.

(** ** Machine integers *)

Definition u64_max : Z := 2 ^ 64 - 1.
Definition i64_max : Z := 2 ^ 63 - 1.
Definition i64_min : Z := - 2 ^ 63.

(** [z as u64] and [z as i64] between 64-bit types. *)
Definition as_u64 (z : Z) : Z := z mod 2 ^ 64.
Definition as_i64 (z : Z) : Z :=
  let w := z mod 2 ^ 64 in if w <=? i64_max then w else w - 2 ^ 64.

Definition u64_ok (z : Z) : Prop := 0 <= z <= u64_max.
Definition i64_ok (z : Z) : Prop := i64_min <= z <= i64_max.

Lemma as_u64_ok z : u64_ok (as_u64 z).
Proof.
  unfold u64_ok, as_u64, u64_max. pose proof (Z.mod_pos_bound z (2 ^ 64)). lia.
Qed.

Lemma as_i64_ok z : i64_ok (as_i64 z).
Proof.
  unfold i64_ok, as_i64, i64_min, i64_max.
  pose proof (Z.mod_pos_bound z (2 ^ 64)).
  case_match eqn:Hc; [apply Z.leb_le in Hc | apply Z.leb_gt in Hc]; lia.
Qed.

Lemma as_i64_small z : i64_ok z -> as_i64 z = z.
Proof.
  unfold i64_ok, as_i64, i64_min, i64_max. intros Hz.
  destruct (Z_lt_le_dec z 0) as [Hn|Hp].
  - rewrite <- (Z.mod_add z 1 (2 ^ 64)) by lia.
    rewrite Z.mod_small by lia. case_match eqn:Hc; [apply Z.leb_le in Hc|]; lia.
  - rewrite Z.mod_small by lia. case_match eqn:Hc; [|apply Z.leb_gt in Hc]; lia.
Qed.

Lemma as_u64_small z : u64_ok z -> as_u64 z = z.
Proof. unfold u64_ok, as_u64, u64_max. intros. apply Z.mod_small. lia. Qed.

(** ** Hint databases and tactics *)

Create HintDb drasi.
#[export] Hint Resolve as_u64_ok as_i64_ok : drasi.

(** Splits the [match]es of the goal, keeping the equations. *)
Ltac split_match :=
  repeat (case_match; simplify_eq/=; try done).

(** Discharges an executable side condition. *)
Ltac by_compute := vm_compute; reflexivity.

(** The same for an equation in a type too large to be normalised. *)
Ltac by_vm := match goal with |- ?x = ?y => exact (eq_refl y <: x = y) end.

(** ** Lists and options *)

Lemma fold_left_inv {A B} (P : A -> Prop) (f : A -> B -> A) l a :
  P a -> (forall a b, b ∈ l -> P a -> P (f a b)) -> P (fold_left f l a).
Proof.
  revert a. induction l as [|b l IH]; intros a Ha Hf; [done|].
  cbn. apply IH.
  - apply Hf; set_solver.
  - intros a' b' Hb. apply Hf. set_solver.
Qed.

(** [Vec::contains] and [any] over decidable equality. *)
Definition contains {A} `{EqDecision A} (x : A) (l : list A) : bool :=
  bool_decide (x ∈ l).

Lemma contains_spec {A} `{EqDecision A} (x : A) l : contains x l = true <-> x ∈ l.
Proof. apply bool_decide_eq_true. Qed.

(** [iter().enumerate()]. *)
Definition enumerate {A} (l : list A) : list (nat * A) := zip (seq 0 (length l)) l.

Lemma elem_of_enumerate {A} (l : list A) i x : (i, x) ∈ enumerate l <-> l !! i = Some x.
Proof.
  unfold enumerate. rewrite list_elem_of_lookup. split.
  - intros [j Hj]. apply lookup_zip_Some in Hj as [Hs Hx].
    apply lookup_seq in Hs as [-> _]. done.
  - intros Hx. exists i. apply lookup_zip_Some. split; [|done].
    apply lookup_seq. split; [done|]. by eapply lookup_lt_Some.
Qed.

Lemma fold_left_permutation {A B} (f : A -> B -> A) l1 l2 a :
  (forall a b c, f (f a b) c = f (f a c) b) ->
  Permutation l1 l2 -> fold_left f l1 a = fold_left f l2 a.
Proof.
  intros Hcomm Hp. revert a. induction Hp; intros a; cbn; auto.
  - by rewrite Hcomm.
  - by rewrite IHHp1.
Qed.
