(* ===== verification/Text.v ===== *)
(** * Text (std's [str], as core/src/evaluation/functions/ uses it)

    A text is the sequence of its UTF-8 bytes, as Rust keeps it: lengths and
    the bounds of a slice count bytes, and a slice that starts or ends inside
    a character panics. The characters of a text are the groups of a leading
    byte with its continuation bytes. *)

From stdpp Require Import pretty.
From S2P Require Import Prelude.

(** ** Concatenation *)

Lemma append_cons x (a b : string) : String x a +:+ b = String x (a +:+ b).
Proof. reflexivity. Qed.

Lemma append_nil (b : string) : EmptyString +:+ b = b.
Proof. reflexivity. Qed.

Lemma append_assoc (a b c : string) : (a +:+ b) +:+ c = a +:+ (b +:+ c).
Proof. induction a as [|x a IH]; rewrite ?append_nil, ?append_cons; [done|]. by rewrite IH. Qed.

Lemma append_length (a b : string) : String.length (a +:+ b) = (String.length a + String.length b)%nat.
Proof. induction a as [|x a IH]; rewrite ?append_nil, ?append_cons; cbn; [done|]. by rewrite IH. Qed.

Lemma append_inj_l (a b b' : string) : a +:+ b = a +:+ b' -> b = b'.
Proof. induction a as [|x a IH]; rewrite ?append_nil, ?append_cons; [done|]. intros [= Heq]. by apply IH. Qed.

Lemma append_inj_r (a a' b : string) : a +:+ b = a' +:+ b -> a = a'.
Proof.
  revert a'. induction a as [|x a IH]; intros [|x' a'] Heq; rewrite ?append_nil, ?append_cons in Heq; [done|..].
  - apply (f_equal String.length) in Heq. cbn in Heq. rewrite append_length in Heq. lia.
  - apply (f_equal String.length) in Heq. cbn in Heq. rewrite append_length in Heq. lia.
  - injection Heq as -> Heq. f_equal. by apply IH.
Qed.

Lemma append_nil_r (a : string) : a +:+ EmptyString = a.
Proof. induction a as [|x a IH]; [done|]. by rewrite append_cons, IH. Qed.

(** [collect::<String>()] of pieces *)
Definition concat_text (l : list string) : string := foldr String.append EmptyString l.

Lemma concat_text_app l1 l2 : concat_text (l1 ++ l2) = concat_text l1 +:+ concat_text l2.
Proof. induction l1 as [|a l1 IH]; cbn; [done|]. fold (concat_text (l1 ++ l2)). by rewrite IH, append_assoc. Qed.

(** ** Characters *)

Definition byte (c : Ascii.ascii) : Z := Z.of_N (Ascii.N_of_ascii c).

(** The second and later bytes of a character are those from 128 to 191. *)
Definition continuation (c : Ascii.ascii) : bool := (128 <=? byte c) && (byte c <? 192).

(** [s.chars()], every character as its bytes *)
Fixpoint chars (s : string) : list string :=
  match s with
  | EmptyString => []
  | String c s =>
      match chars s with
      | (String d w as group) :: l => if continuation d then String c group :: l else String c EmptyString :: group :: l
      | _ => [String c EmptyString]
      end
  end.

(** [s.is_char_boundary(i)] *)
Fixpoint is_char_boundary (s : string) (i : nat) : bool :=
  match i, s with
  | O, _ => true
  | Datatypes.S _, EmptyString => false
  | Datatypes.S O, String _ s => match s with String d _ => negb (continuation d) | EmptyString => true end
  | Datatypes.S i, String _ s => is_char_boundary s i
  end.

Fixpoint skip_bytes (i : nat) (s : string) : string :=
  match i, s with
  | Datatypes.S i, String _ s => skip_bytes i s
  | _, _ => s
  end.
Fixpoint first_bytes (i : nat) (s : string) : string :=
  match i, s with
  | Datatypes.S i, String c s => String c (first_bytes i s)
  | _, _ => EmptyString
  end.

(** [&s[from..]] and [&s[from..to]]; [None] is the panic. *)
Definition slice_from (s : string) (from : nat) : option string :=
  if is_char_boundary s from then Some (skip_bytes from s) else None.
Definition slice_text (s : string) (from to : nat) : option string :=
  if (from <=? to)%nat && is_char_boundary s from && is_char_boundary s to
  then Some (skip_bytes from (first_bytes to s)) else None.

(** A text that starts with a character; every valid one does. *)
Definition starts_char (s : string) : bool :=
  match s with String c _ => negb (continuation c) | EmptyString => true end.

(** A leading byte with continuation bytes. *)
Fixpoint all_bytes (p : Ascii.ascii -> bool) (s : string) : bool :=
  match s with String c s => p c && all_bytes p s | EmptyString => true end.
Definition is_group (w : string) : bool :=
  match w with String c w => negb (continuation c) && all_bytes continuation w | EmptyString => false end.

Lemma chars_concat s : concat_text (chars s) = s.
Proof.
  induction s as [|c s IH]; [done|]. cbn [chars]. destruct (chars s) as [|[|d w] l] eqn:Hs.
  - cbn in IH. by subst s.
  - destruct s as [|c' s]; [by cbn in Hs|]. exfalso. cbn [chars] in Hs. by repeat case_match.
  - rewrite <- IH. destruct (continuation d); reflexivity.
Qed.

Lemma chars_nonempty s : EmptyString ∉ chars s.
Proof.
  induction s as [|c s IH]; cbn; [set_solver|]. destruct (chars s) as [|[|d w] l]; [set_solver..|].
  destruct (continuation d); set_solver.
Qed.

(** The first character starts with the first byte. *)
Lemma chars_head c s : exists w l, chars (String c s) = String c w :: l.
Proof. cbn. destruct (chars s) as [|[|d w] l]; [by eauto..|]. destruct (continuation d); eauto. Qed.

Lemma chars_app a b : starts_char b = true -> chars (a +:+ b) = chars a ++ chars b.
Proof.
  intros Hb. induction a as [|c a IH]; [done|]. rewrite append_cons. cbn [chars]. rewrite IH.
  destruct (chars a) as [|[|d w] l] eqn:Ha; cbn.
  - destruct b as [|d b]; [done|]. destruct (chars_head d b) as (w & l & ->). cbn in Hb.
    by destruct (continuation d).
  - exfalso. apply (chars_nonempty a). rewrite Ha. set_solver.
  - by destruct (continuation d).
Qed.

Lemma chars_cons c s : chars (String c s) =
  match chars s with
  | (String d w as group) :: l => if continuation d then String c group :: l else String c EmptyString :: group :: l
  | _ => [String c EmptyString]
  end.
Proof. reflexivity. Qed.

Lemma chars_continuation c w : all_bytes continuation w = true -> chars (String c w) = [String c w].
Proof.
  revert c. induction w as [|d w IH]; intros c Hw; [done|]. cbn in Hw. apply andb_prop in Hw as [Hd Hw].
  by rewrite chars_cons, (IH d Hw), Hd.
Qed.

Lemma chars_group w : is_group w = true -> chars w = [w].
Proof. destruct w as [|c w]; [done|]. cbn [is_group]. intros [_ Hw]%andb_prop. by apply chars_continuation. Qed.

Lemma group_starts w t : is_group w = true -> starts_char (w +:+ t) = true.
Proof. destruct w as [|c w]; [done|]. cbn. by intros [? _]%andb_prop. Qed.

(** Characters put together in any order are read as the same characters. *)
Lemma chars_unique l : Forall (fun w => is_group w = true) l -> chars (concat_text l) = l.
Proof.
  induction 1 as [|w l Hw Hl IH]; [done|]. cbn. fold (concat_text l). rewrite chars_app, IH, chars_group; [done..|].
  destruct Hl as [|w' l Hw' _]; [done|]. by apply group_starts.
Qed.

Lemma chars_groups s : starts_char s = true -> Forall (fun w => is_group w = true) (chars s).
Proof.
  destruct s as [|c s]; [by constructor|]. cbn [starts_char]. intros Hc.
  assert (Forall (fun w => is_group w = true) (tl (chars (String c s))) /\
          exists w, head (chars (String c s)) = Some (String c w) /\ all_bytes continuation w = true) as [Ht (w & Hh & Hw)].
  { clear Hc. revert c. induction s as [|d s IH]; intros c; [by eauto|].
    destruct (IH d) as [Ht (w & Hh & Hw)]. rewrite chars_cons. destruct (chars (String d s)) as [|g l]; [done|].
    cbn in Hh, Ht. injection Hh as ->. destruct (continuation d) eqn:Hd; cbn.
    - split; [done|]. exists (String d w). split; [done|]. cbn. by rewrite Hd, Hw.
    - split; [|by exists EmptyString]. constructor; [|done]. cbn. by rewrite Hd, Hw. }
  destruct (chars (String c s)) as [|g l]; [constructor|]. cbn in Hh, Ht. injection Hh as ->.
  constructor; [|done]. cbn. by rewrite Hc, Hw.
Qed.

(** ** Slices *)

Lemma first_skip i s : first_bytes i s +:+ skip_bytes i s = s.
Proof. revert s. induction i as [|i IH]; intros [|c s]; cbn; try done. by rewrite append_cons, IH. Qed.

Lemma skip_bytes_length i s : String.length (skip_bytes i s) = (String.length s - i)%nat.
Proof. revert s. induction i as [|i IH]; intros [|c s]; cbn; try done. Qed.

Lemma first_bytes_length i s : String.length (first_bytes i s) = Nat.min i (String.length s).
Proof. revert s. induction i as [|i IH]; intros [|c s]; cbn; try done. by rewrite IH. Qed.

Lemma boundary_split a b : starts_char b = true -> is_char_boundary (a +:+ b) (String.length a) = true.
Proof.
  intros Hb. induction a as [|c a IH]; [by destruct b|]. rewrite append_cons. cbn.
  destruct a as [|d a]; [|done]. by destruct b.
Qed.

Lemma boundary_starts s i :
  is_char_boundary s i = true -> (i = 0%nat \/ starts_char (skip_bytes i s) = true) /\ (i <= String.length s)%nat.
Proof.
  revert s. induction i as [|i IH]; intros [|c s]; cbn; [by split; [left|lia]..|by destruct i|].
  destruct i as [|i].
  - intros Hs. split; [right; by destruct s|lia].
  - intros Hs. destruct (IH s Hs) as [[?|H] Hl]; [done|]. split; [by right|lia].
Qed.

(** A slice that does not panic holds whole characters. *)
Lemma slice_from_chars s i r :
  slice_from s i = Some r ->
  chars s = chars (first_bytes i s) ++ chars r /\ String.length r = (String.length s - i)%nat /\ (i <= String.length s)%nat.
Proof.
  unfold slice_from. destruct (is_char_boundary s i) eqn:Hb; [|done]. intros [= <-].
  apply boundary_starts in Hb as [Hs Hi]. rewrite skip_bytes_length. split; [|done].
  destruct Hs as [->|Hs]; [by destruct s|]. rewrite <- (chars_app _ _ Hs). by rewrite first_skip.
Qed.

(** Single-byte texts can be cut anywhere. *)
Definition is_ascii_text (s : string) : bool := all_bytes (fun c => byte c <? 128) s.

Lemma ascii_boundary s i : is_ascii_text s = true -> (i <= String.length s)%nat -> is_char_boundary s i = true.
Proof.
  unfold is_ascii_text. revert i. induction s as [|c s IH]; intros [|i]; cbn; try done; [lia|].
  intros [_ Hs]%andb_prop Hi. destruct i as [|i]; [|apply IH; [done|lia]].
  destruct s as [|d s]; [done|]. cbn in Hs. apply andb_prop in Hs as [Hd _]. unfold continuation. lia.
Qed.

(** ** Searching *)

(** [s.strip_prefix(p)] *)
Fixpoint strip_prefix (p s : string) : option string :=
  match p, s with
  | EmptyString, _ => Some s
  | String c p, String d s => if Ascii.eqb c d then strip_prefix p s else None
  | String _ _, EmptyString => None
  end.

(** The text before and after the first occurrence. *)
Fixpoint split_once (sep s : string) : option (string * string) :=
  match strip_prefix sep s with
  | Some rest => Some (EmptyString, rest)
  | None =>
      match s with
      | EmptyString => None
      | String c s => match split_once sep s with Some (a, b) => Some (String c a, b) | None => None end
      end
  end.

(** [s.split(sep)] for a separator that is not empty: every part is shorter
    than the text it is cut from, so its length is enough fuel. *)
Fixpoint split_text_go (fuel : nat) (sep s : string) : list string :=
  match fuel with
  | O => [s]
  | Datatypes.S fuel =>
      match split_once sep s with
      | Some (a, b) => a :: split_text_go fuel sep b
      | None => [s]
      end
  end.
Definition split_text (sep s : string) : list string := split_text_go (String.length s) sep s.

(** [s.replace(from, to)] *)
Fixpoint replace_go (fuel : nat) (from to s : string) : string :=
  match fuel with
  | O => s
  | Datatypes.S fuel =>
      match split_once from s with
      | Some (a, b) => a +:+ to +:+ replace_go fuel from to b
      | None => s
      end
  end.
Definition replace_text (from to s : string) : string := replace_go (String.length s) from to s.

Definition occurs (p s : string) : Prop := exists a b, s = a +:+ p +:+ b.

Lemma strip_prefix_some p s r : strip_prefix p s = Some r <-> s = p +:+ r.
Proof.
  revert s. induction p as [|c p IH]; intros s; rewrite ?append_nil, ?append_cons; cbn.
  - split; [by intros [= ->]|by intros ->].
  - destruct s as [|d s]; [by split|]. destruct (Ascii.eqb_spec c d) as [->|Hne].
    + rewrite IH. split; [by intros ->|by intros [= ->]].
    + split; [done|]. by intros [= -> _].
Qed.

Lemma split_once_some sep s a b : split_once sep s = Some (a, b) -> s = a +:+ sep +:+ b.
Proof.
  revert a b. induction s as [|c s IH]; intros a b; cbn.
  all: destruct (strip_prefix sep _) as [r|] eqn:Hp; [apply strip_prefix_some in Hp as Hs; by intros [= <- <-]|].
  - done.
  - destruct (split_once sep s) as [[a' b']|]; [|done]. intros [= <- <-]. by rewrite append_cons, (IH a' b').
Qed.

Lemma split_once_occurs sep s : split_once sep s = None -> ~ occurs sep s.
Proof.
  induction s as [|c s IH]; cbn; destruct (strip_prefix sep _) as [r|] eqn:Hp; try done.
  - intros _ ([|] & b & Hs); [|done]. apply (strip_prefix_some sep) in Hs. congruence.
  - destruct (split_once sep s) as [[a b]|]; [done|]. intros _ ([|d a] & b & Hs).
    + apply (strip_prefix_some sep) in Hs. congruence.
    + rewrite append_cons in Hs. injection Hs as -> Hs. apply IH; [done|]. by exists a, b.
Qed.

(** The text before the first occurrence holds none. *)
Lemma split_once_first sep s a b : sep <> EmptyString -> split_once sep s = Some (a, b) -> ~ occurs sep a.
Proof.
  intros Hne. revert a b. induction s as [|c s IH]; intros a b; cbn.
  all: destruct (strip_prefix sep _) as [r|] eqn:Hp.
  1, 3: intros [= <- <-] (x & y & Hs); destruct x; [by destruct sep|done].
  - done.
  - destruct (split_once sep s) as [[a' b']|] eqn:Ho; [|done]. intros [= <- <-] ([|d x] & y & Hs).
    + apply split_once_some in Ho. rewrite Ho in Hp. rewrite append_nil in Hs.
      assert (strip_prefix sep (String c a') = Some y) as Hq by by apply strip_prefix_some.
      apply strip_prefix_some in Hq. rewrite <- append_cons, Hq, append_assoc in Hp.
      assert (strip_prefix sep (sep +:+ (y +:+ (sep +:+ b'))) = Some (y +:+ (sep +:+ b'))) as Hr by by apply strip_prefix_some.
      congruence.
    + rewrite append_cons in Hs. injection Hs as -> Hs. apply (IH a' b'); [done|]. by exists x, y.
Qed.

Lemma split_once_shorter sep s a b :
  sep <> EmptyString -> split_once sep s = Some (a, b) -> (String.length b < String.length s)%nat.
Proof.
  intros Hne ->%split_once_some. rewrite !append_length. destruct sep; [done|]. cbn. lia.
Qed.

(** The texts put together with [sep] between them *)
Fixpoint join_text (sep : string) (l : list string) : string :=
  match l with
  | [] => EmptyString
  | [a] => a
  | a :: l => a +:+ sep +:+ join_text sep l
  end.

Lemma split_text_go_nonempty fuel sep s : split_text_go fuel sep s <> [].
Proof. destruct fuel; cbn; [done|]. by destruct (split_once sep s) as [[]|]. Qed.

Lemma join_cons sep a l : l <> [] -> join_text sep (a :: l) = a +:+ sep +:+ join_text sep l.
Proof. by destruct l. Qed.

Lemma split_text_parts sep s :
  sep <> EmptyString ->
  join_text sep (split_text sep s) = s /\ (forall part, part ∈ split_text sep s -> ~ occurs sep part).
Proof.
  intros Hne. unfold split_text. generalize (Nat.le_refl (String.length s)). generalize (String.length s) at 2 3 4.
  intros n. revert s. induction n as [|n IH]; intros s Hn; cbn.
  - destruct s; [|cbn in Hn; lia]. split; [done|]. intros part ->%list_elem_of_singleton (x & y & Hs).
    destruct x; [by destruct sep|done].
  - destruct (split_once sep s) as [[a b]|] eqn:Ho.
    + pose proof (split_once_shorter _ _ _ _ Hne Ho). destruct (IH b) as [Hj Hp]; [lia|].
      rewrite join_cons by apply split_text_go_nonempty. rewrite Hj. split; [by rewrite (split_once_some _ _ _ _ Ho)|].
      intros part [->|Hin]%elem_of_cons; [by eapply split_once_first|by apply Hp].
    + split; [done|]. intros part ->%list_elem_of_singleton. by apply split_once_occurs.
Qed.

(** Replacing is splitting and putting the parts together with the other text. *)
Lemma replace_is_join from to s : replace_text from to s = join_text to (split_text from s).
Proof.
  unfold replace_text, split_text. generalize (String.length s) as n. intros n. revert s.
  induction n as [|n IH]; intros s; [done|]. cbn. destruct (split_once from s) as [[a b]|]; [|done].
  rewrite join_cons by apply split_text_go_nonempty. by rewrite IH.
Qed.

(** ** White space and letters *)

(** The code point of a character *)
Definition code_point (w : string) : Z :=
  match w with
  | EmptyString => 0
  | String c w =>
      let b := byte c in
      let lead := if b <? 192 then b else if b <? 224 then b - 192 else if b <? 240 then b - 224 else b - 240 in
      fold_left (fun a d => a * 64 + (byte d - 128)) (String.list_ascii_of_string w) lead
  end.

(** [char::is_whitespace] *)
Definition is_whitespace (w : string) : bool :=
  let p := code_point w in
  ((9 <=? p) && (p <=? 13)) || ((8192 <=? p) && (p <=? 8202)) ||
  bool_decide (p ∈ [32; 133; 160; 5760; 8232; 8233; 8239; 8287; 12288]).

Fixpoint drop_spaces (l : list string) : list string :=
  match l with
  | w :: rest => if is_whitespace w then drop_spaces rest else l
  | [] => []
  end.

(** [s.trim_start()], [s.trim_end()], [s.trim()] *)
Definition trim_start (s : string) : string := concat_text (drop_spaces (chars s)).
Definition trim_end (s : string) : string := concat_text (rev (drop_spaces (rev (chars s)))).
Definition trim (s : string) : string := trim_end (trim_start s).

(** The case tables beyond ASCII are not modelled. *)
Class UnicodeCase := { unicode_uppercase : string -> string; unicode_lowercase : string -> string }.

Fixpoint map_bytes (f : Z -> Z) (s : string) : string :=
  match s with
  | String c s => String (Ascii.ascii_of_N (Z.to_N (f (byte c)))) (map_bytes f s)
  | EmptyString => EmptyString
  end.
Definition upper_byte (b : Z) : Z := if (97 <=? b) && (b <=? 122) then b - 32 else b.
Definition lower_byte (b : Z) : Z := if (65 <=? b) && (b <=? 90) then b + 32 else b.

Definition to_uppercase `{UnicodeCase} (s : string) : string :=
  if is_ascii_text s then map_bytes upper_byte s else unicode_uppercase s.
Definition to_lowercase `{UnicodeCase} (s : string) : string :=
  if is_ascii_text s then map_bytes lower_byte s else unicode_lowercase s.

(** ** Whole numbers *)

Fixpoint parse_digits (acc : Z) (s : string) : option Z :=
  match s with
  | EmptyString => Some acc
  | String c s =>
      let d := byte c - 48 in
      if (0 <=? d) && (d <=? 9) then parse_digits (acc * 10 + d) s else None
  end.

Definition in_i64 (o : option Z) : option Z :=
  match o with Some z => if (i64_min <=? z) && (z <=? i64_max) then Some z else None | None => None end.

(** [s.parse::<i64>()]; an overflow is an error. *)
Definition parse_i64 (s : string) : option Z :=
  match s with
  | EmptyString => None
  | String c digits =>
      let plus := byte c =? 43 in
      let minus := byte c =? 45 in
      if (plus || minus) && String.eqb digits EmptyString then None
      else if plus then in_i64 (parse_digits 0 digits)
      else if minus then in_i64 (Z.opp <$> parse_digits 0 digits)
      else in_i64 (parse_digits 0 s)
  end.

Lemma drop_spaces_spec l :
  exists spaces, l = spaces ++ drop_spaces l /\ Forall (fun w => is_whitespace w = true) spaces /\
                 match drop_spaces l with w :: _ => is_whitespace w = false | [] => True end.
Proof.
  induction l as [|w l (spaces & Hl & Hs & Hd)]; [by exists []|]. cbn. destruct (is_whitespace w) eqn:Hw.
  - exists (w :: spaces). cbn. rewrite <- Hl. by split_and!; [|constructor|].
  - exists []. by rewrite Hw.
Qed.

Lemma parse_pretty_go x s : parse_digits 0 (pretty_N_go x s) = parse_digits (Z.of_N x) s.
Proof.
  revert s. induction (N.lt_wf_0 x) as [x _ IH]. intros s. destruct (decide (x = 0)%N) as [->|Hx].
  { by rewrite pretty_N_go_0. }
  rewrite pretty_N_go_step by lia. rewrite IH by (apply N.div_lt; lia). cbn [parse_digits].
  assert (exists d, (x `mod` 10 = d /\ d < 10)%N) as (d & Hd & Hlt).
  { eexists. split; [done|]. by apply N.mod_lt. }
  assert (byte (pretty_N_char (x `mod` 10)) = 48 + Z.of_N (x `mod` 10)) as ->.
  { rewrite Hd. clear -Hlt.
    destruct d as [|p]; [done|]. do 4 (destruct p as [p|p|]; [|..|done]; try done); lia. }
  rewrite Hd. replace ((0 <=? 48 + Z.of_N d - 48) && (48 + Z.of_N d - 48 <=? 9)) with true by lia.
  f_equal. rewrite <- Hd. pose proof (N.div_mod x 10). lia.
Qed.

Lemma parse_pretty_N x : parse_digits 0 (pretty x) = Some (Z.of_N x) /\ pretty x <> EmptyString.
Proof.
  change (pretty x) with (if decide (x = 0)%N then "0" else pretty_N_go x EmptyString)%string.
  case_decide as Hx; [by subst|]. rewrite parse_pretty_go. split; [done|]. intros He.
  pose proof (parse_pretty_go x EmptyString) as Hp. rewrite He in Hp. cbn in Hp. injection Hp as Hp. lia.
Qed.

Lemma in_i64_ok z : i64_ok z -> in_i64 (Some z) = Some z.
Proof. unfold i64_ok, in_i64. intros Hz. by replace ((i64_min <=? z) && (z <=? i64_max)) with true by lia. Qed.

(** What [to_string] writes, [parse] reads. *)
Lemma parse_i64_pretty (z : Z) : i64_ok z -> parse_i64 (pretty z) = Some z.
Proof.
  intros Hz. destruct z as [|p|p]; [done|..].
  - change (pretty (Z.pos p)) with (pretty (N.pos p)). destruct (parse_pretty_N (N.pos p)) as [Hp Hne].
    destruct (pretty (N.pos p)) as [|c s]; [done|]. unfold parse_i64. rewrite Hp. cbn in Hp.
    destruct ((0 <=? byte c - 48) && (byte c - 48 <=? 9)) eqn:Hc; [|done].
    replace (byte c =? 43) with false by lia. replace (byte c =? 45) with false by lia. by apply in_i64_ok.
  - change (pretty (Z.neg p)) with (String (Ascii.Ascii true false true true false true false false) (pretty (N.pos p))).
    destruct (parse_pretty_N (N.pos p)) as [Hp Hne]. unfold parse_i64. apply String.eqb_neq in Hne. rewrite Hne, Hp.
    by apply in_i64_ok.
Qed.
