(* ===== verification/BTree.v ===== *)
(** * [BTreeMap]: ordered maps as sorted association lists

    Rust's [BTreeMap] iterates in key order, answers range queries and keeps
    the key it already holds when a value is overwritten.  The model is a list
    of pairs in strictly increasing key order; the order is a class, so that
    strings, timestamps and [OrderedFloat]s (for which [+0] and [-0] are the
    same key) share the lemmas. *)

From S2P Require Import Prelude.

(** ** Ordered keys *)

Class Ord (K : Type) := {
  cmp : K -> K -> comparison;
  cmp_refl : forall a, cmp a a = Eq;
  cmp_sym : forall a b, cmp b a = CompOpp (cmp a b);
  cmp_lt_trans : forall a b c, cmp a b = Lt -> cmp b c = Lt -> cmp a c = Lt;
  cmp_eq_l : forall a b c, cmp a b = Eq -> cmp a c = cmp b c;
}.

#[global] Arguments cmp : simpl never.

(** Orders whose [Eq] is identity. *)
Class OrdL (K : Type) `{Ord K} := cmp_eq : forall a b : K, cmp a b = Eq -> a = b.

Section ord.
Context `{Ord K}.

Lemma cmp_gt_lt a b : cmp a b = Gt -> cmp b a = Lt.
Proof. intros Hg. by rewrite cmp_sym, Hg. Qed.

Lemma cmp_eq_sym a b : cmp a b = Eq -> cmp b a = Eq.
Proof. intros He. by rewrite cmp_sym, He. Qed.

Lemma cmp_eq_r a b c : cmp a b = Eq -> cmp c a = cmp c b.
Proof. intros He. rewrite (cmp_sym a c), (cmp_sym b c). f_equal. by apply cmp_eq_l. Qed.

Lemma cmp_lt_irrefl a : cmp a a <> Lt.
Proof. by rewrite cmp_refl. Qed.
End ord.

(** ** The map *)

Definition btree (K V : Type) : Type := list (K * V).

Section btree.
Context {K V : Type} `{Ord K}.
Implicit Types (m : btree K V) (k : K).

(** [get] *)
Fixpoint bt_get k m : option V :=
  match m with
  | [] => None
  | (j, v) :: m => match cmp k j with Eq => Some v | Lt => None | Gt => bt_get k m end
  end.

(** [insert]: an occupied entry keeps its key. *)
Fixpoint bt_insert k v m : btree K V :=
  match m with
  | [] => [(k, v)]
  | (j, w) :: m' =>
      match cmp k j with
      | Eq => (j, v) :: m'
      | Lt => (k, v) :: m
      | Gt => (j, w) :: bt_insert k v m'
      end
  end.

(** [remove] *)
Fixpoint bt_remove k m : btree K V :=
  match m with
  | [] => []
  | (j, w) :: m' =>
      match cmp k j with
      | Eq => m'
      | Lt => m
      | Gt => (j, w) :: bt_remove k m'
      end
  end.

Definition bt_contains k m : bool := match bt_get k m with Some _ => true | None => false end.

(** [range((Excluded(k), Unbounded)).next()] and [range(..=k).next_back()]. *)
Definition bt_next_after k m : option (K * V) :=
  find (fun e => match cmp k e.1 with Lt => true | _ => false end) m.

Definition bt_le k m : btree K V :=
  List.filter (fun e => match cmp e.1 k with Gt => false | _ => true end) m.

Definition bt_ge k m : btree K V :=
  List.filter (fun e => match cmp e.1 k with Lt => false | _ => true end) m.

Inductive bt_sorted : btree K V -> Prop :=
| bts_nil : bt_sorted []
| bts_cons k v m :
    Forall (fun e => cmp k e.1 = Lt) m -> bt_sorted m -> bt_sorted ((k, v) :: m).
End btree.

#[export] Hint Constructors bt_sorted : drasi.

Section btree_laws.
Context {K V : Type} `{Ord K}.
Implicit Types (m : btree K V) (k : K).

Lemma bt_sorted_inv k v m :
  bt_sorted ((k, v) :: m) -> Forall (fun e => cmp k e.1 = Lt) m /\ bt_sorted m.
Proof. by inversion 1; subst. Qed.

Lemma bt_get_below k m : Forall (fun e => cmp k e.1 = Lt) m -> bt_get k m = None.
Proof. destruct 1 as [|[j w] m Hj]; cbn; [done|]. cbn in Hj. by rewrite Hj. Qed.

Lemma bt_below_trans j k m :
  cmp j k = Lt -> Forall (fun e => cmp k e.1 = Lt) m -> Forall (fun e => cmp j e.1 = Lt) m.
Proof.
  intros Hjk Hm. eapply Forall_impl; [exact Hm|]. intros [i w]; cbn. by apply cmp_lt_trans.
Qed.

Lemma bt_below_eq j k m :
  cmp j k = Eq -> Forall (fun e => cmp k e.1 = Lt) m -> Forall (fun e => cmp j e.1 = Lt) m.
Proof.
  intros Hjk Hm. eapply Forall_impl; [exact Hm|]. intros [i w]; cbn.
  by rewrite (cmp_eq_l _ _ i Hjk).
Qed.

Lemma bt_insert_Forall (P : K * V -> Prop) k v m :
  P (k, v) -> (forall j w, P (j, w) -> P (j, v)) -> Forall P m -> Forall P (bt_insert k v m).
Proof.
  intros Hk Hv. induction 1 as [|[j w] m Hj Hm IH]; cbn; [by repeat constructor|].
  destruct (cmp k j); eauto.
Qed.

Lemma bt_insert_sorted k v m : bt_sorted m -> bt_sorted (bt_insert k v m).
Proof.
  induction 1 as [|j w m Hj Hm IH]; cbn; [by repeat constructor|].
  destruct (cmp k j) eqn:Hc; constructor; eauto using bt_below_trans with drasi.
  apply bt_insert_Forall; cbn; [by apply cmp_gt_lt | done | done].
Qed.

Lemma bt_remove_Forall (P : K * V -> Prop) k m : Forall P m -> Forall P (bt_remove k m).
Proof. induction 1 as [|[j w] m Hj Hm IH]; cbn; [done|]. destruct (cmp k j); eauto. Qed.

Lemma bt_remove_sorted k m : bt_sorted m -> bt_sorted (bt_remove k m).
Proof.
  induction 1 as [|j w m Hj Hm IH]; cbn; [constructor|].
  destruct (cmp k j) eqn:Hc; [done|by constructor|].
  constructor; [by apply bt_remove_Forall | done].
Qed.

Lemma bt_get_insert j k v m :
  bt_sorted m ->
  bt_get j (bt_insert k v m) = match cmp j k with Eq => Some v | _ => bt_get j m end.
Proof.
  induction 1 as [|i w m Hi Hm IH]; cbn [bt_insert bt_get].
  - destruct (cmp j k) eqn:Hjk; cbn; rewrite ?Hjk; done.
  - destruct (cmp k i) eqn:Hki; cbn [bt_get].
    + destruct (cmp j k) eqn:Hjk.
      * rewrite (cmp_eq_l _ _ i Hjk), Hki. done.
      * by rewrite <- (cmp_eq_r _ _ j Hki), Hjk.
      * by rewrite <- (cmp_eq_r _ _ j Hki), Hjk.
    + destruct (cmp j k) eqn:Hjk; [done| |done].
      by rewrite (cmp_lt_trans _ _ _ Hjk Hki).
    + rewrite IH. destruct (cmp j i) eqn:Hji, (cmp j k) eqn:Hjk; try done.
      * rewrite (cmp_eq_l _ _ k Hji) in Hjk. by rewrite cmp_sym, Hjk in Hki.
      * rewrite <- (cmp_eq_l _ _ i Hjk) in Hki. congruence.
Qed.

Lemma bt_get_insert_eq k v m : bt_sorted m -> bt_get k (bt_insert k v m) = Some v.
Proof. intros Hm. by rewrite bt_get_insert, cmp_refl. Qed.

Lemma bt_get_insert_ne j k v m :
  bt_sorted m -> cmp j k <> Eq -> bt_get j (bt_insert k v m) = bt_get j m.
Proof. intros Hm Hne. rewrite bt_get_insert by done. by destruct (cmp j k). Qed.

Lemma bt_get_remove j k m :
  bt_sorted m ->
  bt_get j (bt_remove k m) = match cmp j k with Eq => None | _ => bt_get j m end.
Proof.
  induction 1 as [|i w m Hi Hm IH]; cbn [bt_remove bt_get]; [by destruct (cmp j k)|].
  destruct (cmp k i) eqn:Hki.
  - destruct (cmp j k) eqn:Hjk.
    + apply bt_get_below. eapply bt_below_eq; [|exact Hi].
      by rewrite (cmp_eq_l _ _ i Hjk).
    + rewrite <- (cmp_eq_r _ _ j Hki), Hjk. apply bt_get_below.
      eapply bt_below_trans; [|exact Hi]. by rewrite <- (cmp_eq_r _ _ j Hki).
    + by rewrite <- (cmp_eq_r _ _ j Hki), Hjk.
  - destruct (cmp j k) eqn:Hjk; cbn [bt_get]; [|done|done].
    by rewrite (cmp_eq_l _ _ i Hjk), Hki.
  - cbn [bt_get]. rewrite IH. destruct (cmp j i) eqn:Hji, (cmp j k) eqn:Hjk; try done.
    rewrite (cmp_eq_l _ _ k Hji) in Hjk. by rewrite cmp_sym, Hjk in Hki.
Qed.

Lemma bt_get_remove_eq k m : bt_sorted m -> bt_get k (bt_remove k m) = None.
Proof. intros Hm. by rewrite bt_get_remove, cmp_refl. Qed.

Lemma bt_get_remove_ne j k m :
  bt_sorted m -> cmp j k <> Eq -> bt_get j (bt_remove k m) = bt_get j m.
Proof. intros Hm Hne. rewrite bt_get_remove by done. by destruct (cmp j k). Qed.

Lemma bt_remove_absent k m : bt_get k m = None -> bt_sorted m -> bt_remove k m = m.
Proof.
  intros Hg. induction 1 as [|j w m Hj Hm IH]; [done|]; cbn in *.
  destruct (cmp k j); [done|done|]. by rewrite IH.
Qed.

Lemma bt_get_Some_elem k v m :
  bt_get k m = Some v -> exists j, cmp k j = Eq /\ (j, v) ∈ m.
Proof.
  induction m as [|[j w] m IH]; cbn; [done|]. destruct (cmp k j) eqn:Hc; [|done|].
  - intros [= ->]. exists j. split; [done|]. set_solver.
  - intros Hg. destruct (IH Hg) as (i & Hi & Hin). exists i. split; [done|]. set_solver.
Qed.

Lemma bt_elem_get k v m : bt_sorted m -> (k, v) ∈ m -> bt_get k m = Some v.
Proof.
  induction 1 as [|j w m Hj Hm IH]; [by intros ?%not_elem_of_nil|].
  intros [[= -> ->]|Hin]%elem_of_cons; cbn; [by rewrite cmp_refl|].
  rewrite Forall_forall in Hj. specialize (Hj _ Hin). cbn in Hj.
  by rewrite cmp_sym, Hj, IH.
Qed.

Lemma bt_filter_sorted (P : K * V -> bool) m : bt_sorted m -> bt_sorted (List.filter P m).
Proof.
  induction 1 as [|k v m Hk Hm IH]; cbn; [constructor|].
  destruct (P (k, v)); [|done]. constructor; [|done].
  rewrite Forall_forall in *. intros e He. apply Hk.
  rewrite list_elem_of_In in *. by apply filter_In in He as [? _].
Qed.

(** The entry that follows [k] is the least one above it. *)
Lemma bt_next_after_Some k m e :
  bt_sorted m -> bt_next_after k m = Some e ->
  e ∈ m /\ cmp k e.1 = Lt /\ (forall e', e' ∈ m -> cmp k e'.1 = Lt -> cmp e'.1 e.1 <> Lt).
Proof.
  unfold bt_next_after. induction 1 as [|j w m Hj Hm IH]; cbn; [done|].
  destruct (cmp k j) eqn:Hc.
  2: { intros [= <-]. cbn. split; [set_solver|]. split; [done|].
       intros e' [->|He]%elem_of_cons _; cbn; [by rewrite cmp_refl|].
       rewrite Forall_forall in Hj. by rewrite cmp_sym, (Hj _ He). }
  all: intros Hf; destruct (IH Hf) as (Hin & Hlt & Hleast);
    split; [set_solver|]; split; [done|];
    intros e' [->|He]%elem_of_cons He'; cbn in *; [congruence | by apply Hleast].
Qed.

Lemma bt_next_after_None k m :
  bt_next_after k m = None -> forall e, e ∈ m -> cmp k e.1 <> Lt.
Proof.
  unfold bt_next_after. intros Hf e He Hlt. rewrite list_elem_of_In in He.
  pose proof (find_none _ _ Hf e He) as Hn. cbn in Hn. by rewrite Hlt in Hn.
Qed.
End btree_laws.

(** ** Extensionality, for orders whose [Eq] is identity *)

Section btree_ext.
Context {K V : Type} `{OrdL K}.

Lemma bt_get_elem k v (m : btree K V) : bt_sorted m -> bt_get k m = Some v <-> (k, v) ∈ m.
Proof.
  intros Hm. split; [|by apply bt_elem_get].
  intros (j & <-%cmp_eq & Hin)%bt_get_Some_elem. done.
Qed.

Lemma bt_get_insert_new `{!EqDecision K} j k v (m : btree K V) :
  bt_sorted m -> bt_get j (bt_insert k v m) = if decide (j = k) then Some v else bt_get j m.
Proof.
  intros Hm. destruct (decide (j = k)) as [->|Hne]; [by apply bt_get_insert_eq|].
  apply bt_get_insert_ne; [done|]. by intros ?%cmp_eq.
Qed.

Lemma bt_sorted_keys (m : btree K V) : bt_sorted m -> NoDup (map fst m).
Proof.
  induction 1 as [|k v m Hk Hm IH]; cbn; constructor; [|done].
  intros ([j w] & -> & Hin)%list_elem_of_fmap. rewrite Forall_forall in Hk.
  by apply (cmp_lt_irrefl j), (Hk _ Hin).
Qed.

Lemma bt_insert_elem k v (m : btree K V) e : e ∈ bt_insert k v m -> e = (k, v) \/ e ∈ m.
Proof.
  induction m as [|[j w] m IH]; cbn; [set_solver|].
  destruct (cmp k j) eqn:Hc; [apply cmp_eq in Hc as <-| |]; set_solver.
Qed.

Lemma bt_ext (m1 m2 : btree K V) :
  bt_sorted m1 -> bt_sorted m2 -> (forall k, bt_get k m1 = bt_get k m2) -> m1 = m2.
Proof.
  intros H1. revert m2. induction H1 as [|k v m1 Hk Hm1 IH]; intros m2 H2 Hget.
  { destruct m2 as [|[j w] m2]; [done|]. specialize (Hget j). cbn in Hget.
    by rewrite cmp_refl in Hget. }
  destruct H2 as [|j w m2 Hj Hm2].
  { specialize (Hget k). cbn in Hget. by rewrite cmp_refl in Hget. }
  assert (Hkj : cmp k j = Eq).
  { destruct (cmp k j) eqn:Hc; [done| |].
    - specialize (Hget k). cbn in Hget. by rewrite cmp_refl, Hc in Hget.
    - specialize (Hget j). cbn in Hget. rewrite cmp_refl in Hget.
      by rewrite cmp_sym, Hc in Hget. }
  pose proof (cmp_eq _ _ Hkj) as <-.
  pose proof (Hget k) as Hkv. cbn in Hkv. rewrite cmp_refl in Hkv. simplify_eq.
  f_equal. apply IH; [done|]. intros i. specialize (Hget i). cbn in Hget.
  destruct (cmp i k) eqn:Hi; [..|done].
  - apply cmp_eq in Hi as ->. by rewrite !bt_get_below.
  - rewrite !bt_get_below; [done|..]; eapply bt_below_trans; eauto.
Qed.
End btree_ext.

(** ** Instances *)

#[global] Program Instance Z_ord : Ord Z := {| cmp := Z.compare |}.
Next Obligation. apply Z.compare_refl. Qed.
Next Obligation. intros. apply Z.compare_antisym. Qed.
Next Obligation. intros a b c. rewrite !Z.compare_lt_iff. lia. Qed.
Next Obligation. intros a b c ->%Z.compare_eq_iff. done. Qed.
#[global] Instance Z_ordL : OrdL Z := fun a b => proj1 (Z.compare_eq_iff a b).

(** Tuples compare by their first component, then by their second. *)
Definition cmp_then (c d : comparison) : comparison := match c with Eq => d | c => c end.

#[global] Program Instance pair_ord {A B} `{Ord A, Ord B} : Ord (A * B) :=
  {| cmp a b := cmp_then (cmp a.1 b.1) (cmp a.2 b.2) |}.
Next Obligation. intros A B OA OB a. cbv beta. by rewrite !cmp_refl. Qed.
Next Obligation. intros A B OA OB a b. cbv beta. rewrite (cmp_sym a.1 b.1), (cmp_sym a.2 b.2). by destruct (cmp a.1 b.1). Qed.
Next Obligation.
  intros A B OA OB a b c. cbv beta. destruct (cmp a.1 b.1) eqn:H1; cbn; [| |done].
  - rewrite (cmp_eq_l _ _ c.1 H1). destruct (cmp b.1 c.1); [by apply cmp_lt_trans|done..].
  - destruct (cmp b.1 c.1) eqn:H2; cbn; [|by rewrite (cmp_lt_trans _ _ _ H1 H2)|done].
    by rewrite <- (cmp_eq_r _ _ a.1 H2), H1.
Qed.
Next Obligation.
  intros A B OA OB a b c. cbv beta. destruct (cmp a.1 b.1) eqn:H1; cbn; [|done|done]. intros H2.
  by rewrite (cmp_eq_l _ _ c.1 H1), (cmp_eq_l _ _ c.2 H2).
Qed.

#[global] Program Instance nat_ord : Ord nat := {| cmp := Nat.compare |}.
Next Obligation. apply Nat.compare_refl. Qed.
Next Obligation. intros. apply Nat.compare_antisym. Qed.
Next Obligation. intros a b c. rewrite !Nat.compare_lt_iff. lia. Qed.
Next Obligation. intros a b c ->%Nat.compare_eq_iff. done. Qed.
#[global] Instance nat_ordL : OrdL nat := fun a b => proj1 (Nat.compare_eq_iff a b).

(** Rust compares strings byte by byte. *)
Lemma ascii_compare_refl a : Ascii.compare a a = Eq.
Proof. unfold Ascii.compare. apply N.compare_refl. Qed.

Lemma ascii_compare_eq a b : Ascii.compare a b = Eq -> a = b.
Proof.
  unfold Ascii.compare. intros Hc%N.compare_eq_iff.
  rewrite <- (Ascii.ascii_N_embedding a), <- (Ascii.ascii_N_embedding b). by rewrite Hc.
Qed.

Lemma string_compare_lt_trans a b c :
  String.compare a b = Lt -> String.compare b c = Lt -> String.compare a c = Lt.
Proof.
  revert b c. induction a as [|x a IH]; intros [|y b] [|z c]; cbn; try done.
  unfold Ascii.compare.
  destruct (N.compare_spec (Ascii.N_of_ascii x) (Ascii.N_of_ascii y)) as [E1|E1|E1];
    destruct (N.compare_spec (Ascii.N_of_ascii y) (Ascii.N_of_ascii z)) as [E2|E2|E2];
    intros H1 H2; try done;
    destruct (N.compare_spec (Ascii.N_of_ascii x) (Ascii.N_of_ascii z)); try lia; try done.
  by eapply IH.
Qed.

Lemma string_compare_refl a : String.compare a a = Eq.
Proof. induction a as [|x a IH]; cbn; [done|]. by rewrite ascii_compare_refl. Qed.

#[global] Program Instance string_ord : Ord string := {| cmp := String.compare |}.
Next Obligation. exact string_compare_refl. Qed.
Next Obligation. intros. apply String.compare_antisym. Qed.
Next Obligation. exact string_compare_lt_trans. Qed.
Next Obligation. intros a b c ->%String.compare_eq_iff. done. Qed.
#[global] Instance string_ordL : OrdL string := String.compare_eq_iff.
