(* ===== verification/Floats.v ===== *)
(** * [f64] and [OrderedFloat<f64>]

    Double precision numbers are the Standard Library's executable
    specification of IEEE 754 binary64 ([SpecFloat]); its single NaN stands
    for every NaN bit pattern.  The casts are Rust's [as] casts: integer to
    float rounds to nearest even, float to integer truncates and saturates. *)

From Stdlib Require Import SpecFloat.
From S2P Require Import Prelude BTree.

Definition f64 : Type := spec_float.

Definition f64_prec : Z := 53.
Definition f64_emax : Z := 1024.

#[global] Instance f64_eq_dec : EqDecision f64.
Proof. unfold f64. solve_decision. Defined.

Definition f64_add : f64 -> f64 -> f64 := SFadd f64_prec f64_emax.
Definition f64_sub : f64 -> f64 -> f64 := SFsub f64_prec f64_emax.
Definition f64_mul : f64 -> f64 -> f64 := SFmul f64_prec f64_emax.
Definition f64_div : f64 -> f64 -> f64 := SFdiv f64_prec f64_emax.
Definition f64_neg : f64 -> f64 := SFopp.
Definition f64_is_nan (x : f64) : bool := match x with S754_nan => true | _ => false end.
Definition f64_eqb : f64 -> f64 -> bool := SFeqb.
Definition f64_ltb : f64 -> f64 -> bool := SFltb.
Definition f64_leb : f64 -> f64 -> bool := SFleb.

Definition f64_zero : f64 := S754_zero false.

(** [z as f64] *)
Definition f64_of_Z (z : Z) : f64 := binary_normalize f64_prec f64_emax z 0 false.

Definition f64_is_finite (x : f64) : bool :=
  match x with S754_infinity _ | S754_nan => false | _ => true end.

(** The integer part of a finite number, rounding towards zero. *)
Definition f64_trunc (x : f64) : Z :=
  match x with
  | S754_finite s m e =>
      let a := if 0 <=? e then Z.pos m * 2 ^ e else Z.pos m / 2 ^ (- e) in
      if s then - a else a
  | _ => 0
  end.

(** [x.fract() == 0.0]; an infinity minus its truncation is NaN. *)
Definition f64_fract_is_zero (x : f64) : bool :=
  match x with
  | S754_finite _ m e => if 0 <=? e then true else Z.pos m mod 2 ^ (- e) =? 0
  | S754_zero _ => true
  | S754_infinity _ | S754_nan => false
  end.

(** [x as i64] and [x as u64] saturate, NaN becomes 0. *)
Definition f64_saturate (lo hi : Z) (x : f64) : Z :=
  match x with
  | S754_nan => 0
  | S754_infinity false => hi
  | S754_infinity true => lo
  | _ => Z.max lo (Z.min hi (f64_trunc x))
  end.
Definition f64_as_i64 : f64 -> Z := f64_saturate i64_min i64_max.
Definition f64_as_u64 : f64 -> Z := f64_saturate 0 u64_max.

(** [to_bits] *)
Definition f64_sign_bit (s : bool) : Z := if s then 2 ^ 63 else 0.
Definition f64_to_bits (x : f64) : Z :=
  match x with
  | S754_zero s => f64_sign_bit s
  | S754_infinity s => f64_sign_bit s + 2047 * 2 ^ 52
  | S754_nan => 2047 * 2 ^ 52 + 2 ^ 51
  | S754_finite s m e =>
      f64_sign_bit s +
      (if Z.pos m <? 2 ^ 52 then Z.pos m else (e + 1075) * 2 ^ 52 + (Z.pos m - 2 ^ 52))
  end.

Lemma f64_saturate_bounds lo hi x : lo <= 0 <= hi -> lo <= f64_saturate lo hi x <= hi.
Proof. intros H. destruct x as [|[]| |]; cbn; lia. Qed.

Lemma f64_as_i64_ok x : i64_ok (f64_as_i64 x).
Proof. apply f64_saturate_bounds. unfold i64_min, i64_max. lia. Qed.

Lemma f64_as_u64_ok x : u64_ok (f64_as_u64 x).
Proof. apply f64_saturate_bounds. unfold u64_max. lia. Qed.

#[export] Hint Resolve f64_as_i64_ok f64_as_u64_ok : drasi.

(** ** The total order of [OrderedFloat]: NaN is the greatest value and equal
    to itself, the two zeros are equal. *)

Definition ordered_cmp (x y : f64) : comparison :=
  match x, y with
  | S754_nan, S754_nan => Eq
  | S754_nan, _ => Gt
  | _, S754_nan => Lt
  | _, _ => match SFcompare x y with Some c => c | None => Eq end
  end.

Definition lex (c d : comparison) : comparison := match c with Eq => d | _ => c end.

Definition ordered_key (x : f64) : Z * Z * Z :=
  match x with
  | S754_infinity true => (0, 0, 0)
  | S754_finite true m e => (1, - e, - Z.pos m)
  | S754_zero _ => (2, 0, 0)
  | S754_finite false m e => (3, e, Z.pos m)
  | S754_infinity false => (4, 0, 0)
  | S754_nan => (5, 0, 0)
  end.

Definition key_cmp (a b : Z * Z * Z) : comparison :=
  lex (a.1.1 ?= b.1.1) (lex (a.1.2 ?= b.1.2) (a.2 ?= b.2)).

Lemma ordered_cmp_key x y : ordered_cmp x y = key_cmp (ordered_key x) (ordered_key y).
Proof.
  destruct x as [s|s| |s m e], y as [t|t| |t n f]; try (by destruct s); try (by destruct t);
    try done; try (by destruct s, t).
  unfold ordered_cmp, key_cmp, ordered_key; destruct s, t; cbn [SFcompare lex fst snd]; try done.
  - rewrite (Z.compare_opp e f), (Z.compare_antisym e f). by destruct (e ?= f).
  - destruct (e ?= f); done.
Qed.

Lemma key_cmp_lt a b :
  key_cmp a b = Lt <->
  a.1.1 < b.1.1 \/ (a.1.1 = b.1.1 /\ (a.1.2 < b.1.2 \/ (a.1.2 = b.1.2 /\ a.2 < b.2))).
Proof.
  unfold key_cmp, lex.
  destruct (Z.compare_spec a.1.1 b.1.1), (Z.compare_spec a.1.2 b.1.2),
    (Z.compare_spec a.2 b.2); split; intros; try done; lia.
Qed.

Lemma key_cmp_eq a b : key_cmp a b = Eq <-> a = b.
Proof.
  destruct a as [[a1 a2] a3], b as [[b1 b2] b3]. unfold key_cmp, lex; cbn.
  destruct (Z.compare_spec a1 b1), (Z.compare_spec a2 b2), (Z.compare_spec a3 b3);
    split; intros; simplify_eq; try done; lia.
Qed.

Lemma key_cmp_sym a b : key_cmp b a = CompOpp (key_cmp a b).
Proof.
  unfold key_cmp, lex.
  rewrite (Z.compare_antisym a.1.1), (Z.compare_antisym a.1.2), (Z.compare_antisym a.2).
  by destruct (a.1.1 ?= b.1.1), (a.1.2 ?= b.1.2), (a.2 ?= b.2).
Qed.

(** A wrapper, so that the order is chosen by the type as it is in Rust. *)
Record OrderedFloat := { of_f64 : f64 }.

#[global] Instance OrderedFloat_eq_dec : EqDecision OrderedFloat.
Proof. solve_decision. Defined.

#[global] Program Instance OrderedFloat_ord : Ord OrderedFloat :=
  {| cmp := fun a b => ordered_cmp (of_f64 a) (of_f64 b) |}.
Next Obligation. intros a; cbn. rewrite ordered_cmp_key. by apply key_cmp_eq. Qed.
Next Obligation. intros a b; cbn. rewrite !ordered_cmp_key. apply key_cmp_sym. Qed.
Next Obligation. intros a b c; cbn. rewrite !ordered_cmp_key, !key_cmp_lt. lia. Qed.
Next Obligation. intros a b c; cbn. rewrite !ordered_cmp_key. by intros ->%key_cmp_eq. Qed.

(** Equal non-NaN numbers are equal for the order too. *)
Lemma f64_eqb_ordered x y : f64_eqb x y = true -> ordered_cmp x y = Eq.
Proof.
  unfold f64_eqb, SFeqb, ordered_cmp.
  destruct (SFcompare x y) as [[]|] eqn:Hc; try done.
  intros _. by destruct x, y.
Qed.

(** ** Canonical representations

    Every value the operations produce is canonical ([valid_binary]): the
    mantissa has 53 bits unless the exponent is the smallest one. *)

Definition f64_valid (x : f64) : Prop := valid_binary f64_prec f64_emax x = true.

Lemma digits2_pos_bounds m :
  0 < Z.pos (digits2_pos m) /\ 2 ^ (Z.pos (digits2_pos m) - 1) <= Z.pos m < 2 ^ Z.pos (digits2_pos m).
Proof.
  induction m as [m IH|m IH|]; cbn [digits2_pos]; [..|by vm_compute].
  all: rewrite Pos2Z.inj_succ; destruct IH as (Hd & Hl & Hu); split; [lia|].
  all: rewrite Z.sub_1_r, Z.pred_succ, Z.pow_succ_r by lia.
  all: replace (Z.pos (digits2_pos m)) with (Z.succ (Z.pos (digits2_pos m) - 1)) at 1 by lia.
  all: rewrite Z.pow_succ_r by lia; lia.
Qed.

Lemma f64_valid_finite s m e :
  f64_valid (S754_finite s m e) ->
  Z.pos m < 2 ^ 53 /\ -1074 <= e <= 971 /\ (Z.pos m < 2 ^ 52 -> e = -1074) /\
  e = Z.max (Z.pos (digits2_pos m) + e - 53) (-1074).
Proof.
  unfold f64_valid, valid_binary, bounded, canonical_mantissa, fexp, emin, f64_prec, f64_emax.
  intros [Hc%Z.eqb_eq He%Zle_bool_imp_le]%andb_prop.
  destruct (digits2_pos_bounds m) as (Hd & Hl & Hu). cbn in *.
  assert (Z.pos (digits2_pos m) <= 53) by lia.
  assert (2 ^ Z.pos (digits2_pos m) <= 2 ^ 53) by (apply Z.pow_le_mono_r; lia).
  split; [lia|]. split; [lia|]. split; [|lia]. intros Hm.
  destruct (Z.eq_dec (Z.pos (digits2_pos m)) 53) as [E|]; [|lia].
  rewrite E in Hl. cbn in *. lia.
Qed.

Lemma f64_to_bits_inj x y :
  f64_valid x -> f64_valid y -> f64_to_bits x = f64_to_bits y -> x = y.
Proof.
  intros Hx Hy. destruct x as [s|s| |s m e], y as [t|t| |t n f]; unfold f64_to_bits, f64_sign_bit;
    repeat match goal with
    | H : f64_valid (S754_finite _ _ _) |- _ => apply f64_valid_finite in H as (? & ? & ? & _)
    end;
    repeat case_match;
    repeat match goal with
    | H : (_ <? _) = true |- _ => apply Z.ltb_lt in H
    | H : (_ <? _) = false |- _ => apply Z.ltb_ge in H
    end; intros Hb; try done; try lia.
  all: assert (e = f /\ m = n) as [-> ->] by lia; done.
Qed.

(** The value of an integral number, without its sign. *)
Lemma f64_integral_value s m e :
  f64_fract_is_zero (S754_finite s m e) = true ->
  (0 <= e -> Z.abs (f64_trunc (S754_finite s m e)) = Z.pos m * 2 ^ e) /\
  (e < 0 -> Z.pos m = Z.abs (f64_trunc (S754_finite s m e)) * 2 ^ (- e)).
Proof.
  cbn. intros Hf. destruct (0 <=? e) eqn:He; [apply Z.leb_le in He|apply Z.leb_gt in He].
  - split; [|lia]. intros _. destruct s; lia.
  - split; [lia|]. intros _. apply Z.eqb_eq in Hf.
    pose proof (Z.pow_pos_nonneg 2 (- e)). pose proof (Z.div_mod (Z.pos m) (2 ^ (- e))).
    pose proof (Z.div_pos (Z.pos m) (2 ^ (- e))).
    replace (Z.abs (if s then - (Z.pos m / 2 ^ (- e)) else Z.pos m / 2 ^ (- e)))
      with (Z.pos m / 2 ^ (- e)) by (destruct s; lia).
    lia.
Qed.

Lemma f64_scaled_value s m e :
  f64_valid (S754_finite s m e) -> f64_fract_is_zero (S754_finite s m e) = true ->
  Z.pos m * 2 ^ (e + 1074) = Z.abs (f64_trunc (S754_finite s m e)) * 2 ^ 1074.
Proof.
  intros (_ & He & _)%f64_valid_finite [H1 H2]%f64_integral_value.
  destruct (Z_lt_le_dec e 0) as [Hn|Hp].
  - rewrite (H2 Hn), <- Z.mul_assoc, <- Z.pow_add_r by lia. f_equal. f_equal. lia.
  - rewrite (H1 Hp), Z.pow_add_r by lia. lia.
Qed.

Lemma pow2_sandwich a b w :
  0 <= a -> 0 <= b -> 2 ^ a <= w < 2 ^ (a + 1) -> 2 ^ b <= w < 2 ^ (b + 1) -> a = b.
Proof.
  intros Ha Hb Hwa Hwb. destruct (Z.lt_trichotomy a b) as [Hlt|[->|Hlt]]; [|done|].
  - assert (2 ^ (a + 1) <= 2 ^ b) by (apply Z.pow_le_mono_r; lia). lia.
  - assert (2 ^ (b + 1) <= 2 ^ a) by (apply Z.pow_le_mono_r; lia). lia.
Qed.

Lemma f64_scaled_digits s m e :
  f64_valid (S754_finite s m e) ->
  2 ^ (Z.pos (digits2_pos m) - 1 + (e + 1074)) <= Z.pos m * 2 ^ (e + 1074)
    < 2 ^ (Z.pos (digits2_pos m) - 1 + (e + 1074) + 1).
Proof.
  intros (_ & He & _)%f64_valid_finite. destruct (digits2_pos_bounds m) as (Hd & Hl & Hu).
  replace (Z.pos (digits2_pos m) - 1 + (e + 1074) + 1)
    with (Z.pos (digits2_pos m) + (e + 1074)) by lia.
  rewrite (Z.pow_add_r 2 (Z.pos (digits2_pos m) - 1)), (Z.pow_add_r 2 (Z.pos (digits2_pos m))) by lia.
  pose proof (Z.pow_pos_nonneg 2 (e + 1074)). split.
  - apply Z.mul_le_mono_nonneg_r; lia.
  - apply Z.mul_lt_mono_pos_r; lia.
Qed.

(** Canonical integral numbers are determined by their value and sign. *)
Lemma f64_integral_unique s m e n f :
  f64_valid (S754_finite s m e) -> f64_valid (S754_finite s n f) ->
  f64_fract_is_zero (S754_finite s m e) = true -> f64_fract_is_zero (S754_finite s n f) = true ->
  f64_trunc (S754_finite s m e) = f64_trunc (S754_finite s n f) ->
  m = n /\ e = f.
Proof.
  intros Hx Hy Fx Fy Ht.
  pose proof (f64_scaled_value _ _ _ Hx Fx) as Vx. pose proof (f64_scaled_value _ _ _ Hy Fy) as Vy.
  rewrite Ht, <- Vy in Vx.
  pose proof (f64_scaled_digits _ _ _ Hx) as Dx. pose proof (f64_scaled_digits _ _ _ Hy) as Dy.
  rewrite Vx in Dx.
  apply f64_valid_finite in Hx as (_ & Hx1 & _ & Hx2).
  apply f64_valid_finite in Hy as (_ & Hy1 & _ & Hy2).
  assert (Hde : Z.pos (digits2_pos m) - 1 + (e + 1074) = Z.pos (digits2_pos n) - 1 + (f + 1074))
    by (eapply pow2_sandwich; [lia|lia|exact Dx|exact Dy]).
  assert (e = f) as -> by lia. split; [|done].
  pose proof (Z.pow_pos_nonneg 2 (f + 1074)).
  enough (Z.pos m = Z.pos n) by congruence.
  apply (Z.mul_reg_r _ _ (2 ^ (f + 1074))); lia.
Qed.

(** The IEEE comparisons agree with the total order. *)
Lemma f64_ltb_key x y :
  f64_ltb x y = true -> key_cmp (ordered_key x) (ordered_key y) = Lt.
Proof.
  rewrite <- ordered_cmp_key. unfold f64_ltb, SFltb, ordered_cmp.
  destruct (SFcompare x y) as [[]|] eqn:Hc; try done. by destruct x, y.
Qed.

Lemma f64_leb_key x y :
  f64_leb x y = true -> ~ key_cmp (ordered_key y) (ordered_key x) = Lt.
Proof.
  rewrite key_cmp_sym, <- ordered_cmp_key. unfold f64_leb, SFleb, ordered_cmp.
  destruct (SFcompare x y) as [[]|] eqn:Hc; try done; by destruct x, y.
Qed.

(** Below [2^(52+k)] the truncation is below it too. *)
Lemma f64_trunc_bound m e k :
  f64_valid (S754_finite false m e) -> 0 <= k ->
  e < k \/ (e = k /\ Z.pos m < 2 ^ 52) ->
  f64_trunc (S754_finite false m e) < 2 ^ (52 + k).
Proof.
  intros (Hm & He & Hs & _)%f64_valid_finite Hk Hlt.
  assert (Hek : e < k) by (destruct Hlt as [?|[-> ?]]; [done|specialize (Hs ltac:(lia)); lia]).
  unfold f64_trunc. destruct (0 <=? e) eqn:E; [apply Z.leb_le in E|apply Z.leb_gt in E].
  - assert (2 ^ (53 + e) <= 2 ^ (52 + k)) by (apply Z.pow_le_mono_r; lia).
    rewrite (Z.pow_add_r 2 53 e) in * by lia.
    assert (Z.pos m * 2 ^ e < 2 ^ 53 * 2 ^ e)
      by (apply Z.mul_lt_mono_pos_r; [apply Z.pow_pos_nonneg|]; lia). lia.
  - assert (2 ^ 52 <= 2 ^ (52 + k)) by (apply Z.pow_le_mono_r; lia).
    assert (Z.pos m / 2 ^ (- e) <= Z.pos m / 2 ^ 1)
      by (apply Z.div_le_compat_l; [lia|]; split; [lia|]; apply Z.pow_le_mono_r; lia).
    assert (Z.pos m / 2 ^ 1 < 2 ^ 52) by (apply Z.div_lt_upper_bound; lia). lia.
Qed.
