(* ===== verification/Hashing.v ===== *)
(** * Equality, hashing and the external crates

    [EqHash] is the pair of a type's [PartialEq] and [Hash] implementations.
    A [Hash] implementation is the sequence of writes it makes to the hasher;
    the hashers themselves (crate [hashers], [std]'s SipHash) and the calendar
    types of the crate [chrono] are not part of the repository and enter as
    the classes [Hashers] and [Chrono]. *)

From S2P Require Import Prelude BTree Floats.

(** One call of [std::hash::Hasher]. Signed writes reinterpret the bits. *)
Inductive hwrite :=
| W8 (b : Z)
| W32 (w : Z)
| W64 (w : Z)
| Wsize (n : Z)
| Wbytes (s : string).

#[global] Instance hwrite_eq_dec : EqDecision hwrite.
Proof. solve_decision. Defined.

Class EqHash (T : Type) := {
  req : T -> T -> bool;
  rhash : T -> list hwrite;
}.

(** The contract of [Eq] and [Hash]. *)
Class EqHashLaws (T : Type) `{EqHash T} := {
  req_refl : forall a : T, req a a = true;
  req_sym : forall a b : T, req a b = true -> req b a = true;
  req_trans : forall a b c : T, req a b = true -> req b c = true -> req a c = true;
  req_hash : forall a b : T, req a b = true -> rhash a = rhash b;
}.

(** ** Writes of the standard types *)

Definition hash_bool (b : bool) : list hwrite := [W8 (if b then 1 else 0)].
Definition hash_u64 (z : Z) : list hwrite := [W64 z].
Definition hash_i32 (z : Z) : list hwrite := [W32 (z mod 2 ^ 32)].
Definition hash_i64 (z : Z) : list hwrite := [W64 (as_u64 z)].
Definition hash_usize (n : nat) : list hwrite := [Wsize (Z.of_nat n)].
Definition hash_discr (n : Z) : list hwrite := [Wsize n].
Definition hash_str (s : string) : list hwrite := [Wbytes s; W8 255].
Definition hash_f64_bits (x : f64) : list hwrite := [W64 (f64_to_bits x)].
Definition hash_option {A} (h : A -> list hwrite) (o : option A) : list hwrite :=
  match o with None => hash_discr 0 | Some a => hash_discr 1 ++ h a end.
Definition hash_seq {A} (h : A -> list hwrite) (l : list A) : list hwrite :=
  hash_usize (length l) ++ concat (map h l).

(** ** Equality of the standard containers *)

Definition list_eqb {A} (eqb : A -> A -> bool) : list A -> list A -> bool :=
  fix go l1 l2 :=
    match l1, l2 with
    | [], [] => true
    | a :: l1, b :: l2 => eqb a b && go l1 l2
    | _, _ => false
    end.

Definition option_eqb {A} (eqb : A -> A -> bool) (o1 o2 : option A) : bool :=
  match o1, o2 with
  | None, None => true
  | Some a, Some b => eqb a b
  | _, _ => false
  end.

Definition pair_eqb {A B} (ea : A -> A -> bool) (eb : B -> B -> bool) (p q : A * B) : bool :=
  ea p.1 q.1 && eb p.2 q.2.

(** An equality and a hash agree on the values [P] selects. *)
Lemma list_eqb_hash {A} (eqb : A -> A -> bool) (h : A -> list hwrite) l1 l2 :
  (forall a b, a ∈ l1 -> eqb a b = true -> h a = h b) ->
  list_eqb eqb l1 l2 = true -> length l1 = length l2 /\ map h l1 = map h l2.
Proof.
  revert l2. induction l1 as [|a l1 IH]; intros [|b l2] Hh; cbn; try done.
  intros [Hab Hl]%andb_prop. destruct (IH l2) as [Hlen Hmap]; [|done|].
  - intros a' b' Ha. apply Hh. set_solver.
  - split; [lia|]. rewrite Hmap. by rewrite (Hh a b) by (done || set_solver).
Qed.

Lemma hash_seq_ext {A} (eqb : A -> A -> bool) (h : A -> list hwrite) l1 l2 :
  (forall a b, a ∈ l1 -> eqb a b = true -> h a = h b) ->
  list_eqb eqb l1 l2 = true -> hash_seq h l1 = hash_seq h l2.
Proof.
  intros Hh Hl. destruct (list_eqb_hash _ h _ _ Hh Hl) as [Hlen Hmap].
  unfold hash_seq. by rewrite Hlen, Hmap.
Qed.

Lemma list_eqb_refl {A} (eqb : A -> A -> bool) l :
  Forall (fun a => eqb a a = true) l -> list_eqb eqb l l = true.
Proof. induction 1 as [|a l Ha _ IH]; cbn; [done|]. by rewrite Ha, IH. Qed.

Lemma list_eqb_sym {A} (eqb : A -> A -> bool) l1 l2 :
  Forall (fun a => forall b, b ∈ l2 -> eqb a b = true -> eqb b a = true) l1 ->
  list_eqb eqb l1 l2 = true -> list_eqb eqb l2 l1 = true.
Proof.
  revert l2. induction l1 as [|a l1 IH]; intros [|b l2] Hs; cbn; try done.
  apply Forall_cons in Hs as [Ha Hs]. intros [Hab Hl]%andb_prop.
  rewrite Ha, IH; [done| |done|set_solver|done].
  eapply Forall_impl; [exact Hs|]. cbn. intros x Hx y Hy. apply Hx. set_solver.
Qed.

Lemma list_eqb_trans {A} (eqb : A -> A -> bool) l1 l2 l3 :
  Forall (fun a => forall b c, b ∈ l2 -> c ∈ l3 ->
    eqb a b = true -> eqb b c = true -> eqb a c = true) l1 ->
  list_eqb eqb l1 l2 = true -> list_eqb eqb l2 l3 = true -> list_eqb eqb l1 l3 = true.
Proof.
  revert l2 l3. induction l1 as [|a l1 IH]; intros [|b l2] [|c l3] Hs; cbn; try done.
  apply Forall_cons in Hs as [Ha Hs]. intros [Hab Hl]%andb_prop [Hbc Hk]%andb_prop.
  rewrite (Ha b c), (IH l2 l3); try done; try set_solver.
  eapply Forall_impl; [exact Hs|]. cbn. intros x Hx y z Hy Hz. apply Hx; set_solver.
Qed.

(** ** Hashers: the digest of a sequence of writes *)

Class Hashers := {
  spooky : list hwrite -> Z;   (* hashers::jenkins::spooky_hash::SpookyHasher *)
  fx : list hwrite -> Z;       (* hashers::fx_hash::FxHasher *)
  sip : list hwrite -> Z;      (* std::collections::hash_map::DefaultHasher *)
  spooky_ok : forall l, u64_ok (spooky l);
  fx_ok : forall l, u64_ok (fx l);
  sip_ok : forall l, u64_ok (sip l);
}.

(** ** The calendar types of [chrono] *)

Class Chrono := {
  NaiveDate : Type;
  NaiveTime : Type;
  NaiveDateTime : Type;
  FixedOffset : Type;
  FixedDateTime : Type;        (* DateTime<FixedOffset> *)
  TimeDelta : Type;            (* chrono::Duration *)
  NaiveDate_eh :: EqHash NaiveDate;
  NaiveTime_eh :: EqHash NaiveTime;
  NaiveDateTime_eh :: EqHash NaiveDateTime;
  FixedOffset_eh :: EqHash FixedOffset;
  FixedDateTime_eh :: EqHash FixedDateTime;
  TimeDelta_eh :: EqHash TimeDelta;
  NaiveDate_laws :: EqHashLaws NaiveDate;
  NaiveTime_laws :: EqHashLaws NaiveTime;
  NaiveDateTime_laws :: EqHashLaws NaiveDateTime;
  FixedOffset_laws :: EqHashLaws FixedOffset;
  FixedDateTime_laws :: EqHashLaws FixedDateTime;
  TimeDelta_laws :: EqHashLaws TimeDelta;
  (* ordered_float::OrderedFloat<f64> *)
  ordered_hash : OrderedFloat -> list hwrite;
  ordered_hash_eq : forall a b, cmp a b = Eq -> ordered_hash a = ordered_hash b;
}.

#[export] Hint Resolve req_hash ordered_hash_eq : drasi.

(** Sample parameters, used to evaluate the model on concrete inputs: the
    calendar types are instants counted in milliseconds and the hashers fold
    the writes into a polynomial digest. *)

Module Sample.
Definition digest (l : list hwrite) : Z :=
  fold_left (fun h w => as_u64 (h * 1099511628211 +
    match w with
    | W8 b => b + 1
    | W32 w => w + 2
    | W64 z => z + 3
    | Wsize n => n + 7
    | Wbytes s => fold_left (fun h c => h * 257 + Z.of_N (Ascii.N_of_ascii c))
                    (String.list_ascii_of_string s) 11
    end)) l 14695981039346656037.

Lemma digest_ok l : u64_ok (digest l).
Proof.
  unfold digest. apply (fold_left_inv u64_ok).
  - split; by vm_compute.
  - intros. apply as_u64_ok.
Qed.

Definition hashers : Hashers := {|
  spooky := digest; fx := digest; sip := digest;
  spooky_ok := digest_ok; fx_ok := digest_ok; sip_ok := digest_ok |}.

#[local] Instance Z_eh : EqHash Z := {| req := Z.eqb; rhash := hash_i64 |}.
#[local] Instance Z_laws : EqHashLaws Z.
Proof.
  split; cbn; intros *; rewrite ?Z.eqb_eq; [done|congruence|congruence|by intros ->].
Qed.

Definition canonical (a : OrderedFloat) : Z * Z * Z := ordered_key (of_f64 a).

#[program] Definition chrono : Chrono := {|
  NaiveDate := Z; NaiveTime := Z; NaiveDateTime := Z;
  FixedOffset := Z; FixedDateTime := Z; TimeDelta := Z;
  ordered_hash := fun a => let '(x, y, z) := canonical a in [W64 x; W64 y; W64 z] |}.
Next Obligation.
  intros a b. unfold cmp, OrderedFloat_ord, canonical.
  rewrite ordered_cmp_key. by intros ->%key_cmp_eq.
Qed.
End Sample.
