(* ===== verification/Ast.v ===== *)
(** * Abstract syntax of queries (query-ast/src/ast.rs)

    The syntax tree the parsers produce and every other component consumes.
    The twenty variants of [BinaryExpression] carry the same two children, so
    the model keeps the variant as a tag of one constructor. *)

From S2P Require Import Prelude BTree Floats Hashing.

#[local] Set Warnings "-register-all".

Inductive Direction := Left | Right | Either.

#[global] Instance Direction_eq_dec : EqDecision Direction.
Proof. solve_decision. Defined.

Inductive BinaryOp :=
| And | Or
| Eq_ | Ne | Lt_ | Le | Gt_ | Ge | In_
| Add | Subtract | Multiply | Divide | Modulo | Exponent
| HasLabel | Index | StartsWith | EndsWith | Contains.

#[global] Instance BinaryOp_eq_dec : EqDecision BinaryOp.
Proof. solve_decision. Defined.

Inductive Literal :=
| LInteger (z : Z)
| LReal (x : f64)
| LBoolean (b : bool)
| LText (s : string)
| LDate (s : string)
| LLocalTime (s : string)
| LZonedTime (s : string)
| LLocalDateTime (s : string)
| LZonedDateTime (s : string)
| LDuration (s : string)
| LObject (fields : list (string * Literal))
| LExpression (e : Expression)
| LNull
with Expression :=
| Unary (u : UnaryExpression)
| Binary (op : BinaryOp) (a b : Expression)
| FunctionExpression (name : string) (args : list Expression) (position_in_query : nat)
| CaseExpression (match_ : option Expression) (when : list (Expression * Expression))
    (else_ : option Expression)
| ListExpression (elements : list Expression)
| ObjectExpression (elements : btree string Expression)
| IteratorExpression (item_identifier : string) (list_expression : Expression)
    (filter map_expression : option Expression)
with UnaryExpression :=
| Not (e : Expression)
| Exists (e : Expression)
| IsNull (e : Expression)
| IsNotNull (e : Expression)
| Lit (l : Literal)
| Property (name key : string)
| ExpressionProperty (exp : Expression) (key : string)
| Parameter_ (name : string)
| Identifier (name : string)
| Variable_ (name : string) (value : Expression)
| Alias (source : Expression) (alias : string)
| UListRange (start_bound end_bound : option Expression).

Record Annotation := { annotation_name : option string }.

Record NodeMatch := {
  node_annotation : Annotation;
  node_labels : list string;
  node_property_predicates : list Expression;
}.

Record VariableLengthMatch := { min_hops : option Z; max_hops : option Z }.

Record RelationMatch := {
  rel_direction : Direction;
  rel_annotation : Annotation;
  rel_variable_length : option VariableLengthMatch;
  rel_labels : list string;
  rel_property_predicates : list Expression;
}.

Record MatchClause := {
  mc_start : NodeMatch;
  mc_path : list (RelationMatch * NodeMatch);
  mc_optional : bool;
}.

Inductive ProjectionClause :=
| Item (expressions : list Expression)
| GroupBy (grouping aggregates : list Expression).

Record QueryPart := {
  match_clauses : list MatchClause;
  where_clauses : list Expression;
  return_clause : ProjectionClause;
}.

Record Query := { parts : list QueryPart }.

(** The derived [PartialEq]; reals compare with the IEEE equality. *)
Fixpoint literal_eqb (a b : Literal) {struct a} : bool :=
  match a, b with
  | LInteger x, LInteger y => x =? y
  | LReal x, LReal y => f64_eqb x y
  | LBoolean x, LBoolean y => Bool.eqb x y
  | LText x, LText y | LDate x, LDate y | LLocalTime x, LLocalTime y
  | LZonedTime x, LZonedTime y | LLocalDateTime x, LLocalDateTime y
  | LZonedDateTime x, LZonedDateTime y | LDuration x, LDuration y => String.eqb x y
  | LObject x, LObject y => list_eqb (fun p q => String.eqb p.1 q.1 && literal_eqb p.2 q.2) x y
  | LExpression x, LExpression y => expr_eqb x y
  | LNull, LNull => true
  | _, _ => false
  end
with expr_eqb (a b : Expression) {struct a} : bool :=
  match a, b with
  | Unary x, Unary y => unary_eqb x y
  | Binary o a1 a2, Binary p b1 b2 => bool_decide (o = p) && expr_eqb a1 b1 && expr_eqb a2 b2
  | FunctionExpression n args i, FunctionExpression m brgs j =>
      String.eqb n m && list_eqb expr_eqb args brgs && Nat.eqb i j
  | CaseExpression m w e, CaseExpression m' w' e' =>
      option_eqb expr_eqb m m' &&
      list_eqb (fun p q => expr_eqb p.1 q.1 && expr_eqb p.2 q.2) w w' &&
      option_eqb expr_eqb e e'
  | ListExpression l, ListExpression k => list_eqb expr_eqb l k
  | ObjectExpression l, ObjectExpression k =>
      list_eqb (fun p q => String.eqb p.1 q.1 && expr_eqb p.2 q.2) l k
  | IteratorExpression i l f m, IteratorExpression i' l' f' m' =>
      String.eqb i i' && expr_eqb l l' && option_eqb expr_eqb f f' && option_eqb expr_eqb m m'
  | _, _ => false
  end
with unary_eqb (a b : UnaryExpression) {struct a} : bool :=
  match a, b with
  | Not x, Not y | Exists x, Exists y | IsNull x, IsNull y | IsNotNull x, IsNotNull y => expr_eqb x y
  | Lit x, Lit y => literal_eqb x y
  | Property n k, Property n' k' => String.eqb n n' && String.eqb k k'
  | ExpressionProperty e k, ExpressionProperty e' k' => expr_eqb e e' && String.eqb k k'
  | Parameter_ n, Parameter_ n' | Identifier n, Identifier n' => String.eqb n n'
  | Variable_ n e, Variable_ n' e' => String.eqb n n' && expr_eqb e e'
  | Alias e n, Alias e' n' => expr_eqb e e' && String.eqb n n'
  | UListRange s t, UListRange s' t' => option_eqb expr_eqb s s' && option_eqb expr_eqb t t'
  | _, _ => false
  end.

Definition binop_discr (op : BinaryOp) : Z :=
  match op with
  | And => 0 | Or => 1 | Eq_ => 2 | Ne => 3 | Lt_ => 4 | Le => 5 | Gt_ => 6 | Ge => 7 | In_ => 8
  | Add => 9 | Subtract => 10 | Multiply => 11 | Divide => 12 | Modulo => 13 | Exponent => 14
  | HasLabel => 15 | Index => 16 | StartsWith => 17 | EndsWith => 18 | Contains => 19
  end.

(** The hand-written [Hash] of [Literal], which hashes the bits of a real and
    no discriminant, and the derived [Hash] of the other types. *)
Fixpoint literal_hash (a : Literal) : list hwrite :=
  match a with
  | LInteger v => hash_i64 v
  | LReal v => hash_f64_bits v
  | LBoolean v => hash_bool v
  | LText v | LDate v | LLocalTime v | LZonedTime v | LLocalDateTime v | LZonedDateTime v
  | LDuration v => hash_str v
  | LObject v => hash_seq (fun p => hash_str p.1 ++ literal_hash p.2) v
  | LExpression v => expr_hash v
  | LNull => [W8 0]
  end
with expr_hash (a : Expression) : list hwrite :=
  match a with
  | Unary u => hash_discr 0 ++ unary_hash u
  | Binary op a b => hash_discr 1 ++ hash_discr (binop_discr op) ++ expr_hash a ++ expr_hash b
  | FunctionExpression n args i =>
      hash_discr 2 ++ hash_str n ++ hash_seq expr_hash args ++ hash_usize i
  | CaseExpression m w e =>
      hash_discr 3 ++ hash_option expr_hash m ++
      hash_seq (fun p => expr_hash p.1 ++ expr_hash p.2) w ++ hash_option expr_hash e
  | ListExpression l => hash_discr 4 ++ hash_seq expr_hash l
  | ObjectExpression l => hash_discr 5 ++ hash_seq (fun p => hash_str p.1 ++ expr_hash p.2) l
  | IteratorExpression i l f m =>
      hash_discr 6 ++ hash_str i ++ expr_hash l ++ hash_option expr_hash f ++ hash_option expr_hash m
  end
with unary_hash (a : UnaryExpression) : list hwrite :=
  match a with
  | Not e => hash_discr 0 ++ expr_hash e
  | Exists e => hash_discr 1 ++ expr_hash e
  | IsNull e => hash_discr 2 ++ expr_hash e
  | IsNotNull e => hash_discr 3 ++ expr_hash e
  | Lit l => hash_discr 4 ++ literal_hash l
  | Property n k => hash_discr 5 ++ hash_str n ++ hash_str k
  | ExpressionProperty e k => hash_discr 6 ++ expr_hash e ++ hash_str k
  | Parameter_ n => hash_discr 7 ++ hash_str n
  | Identifier n => hash_discr 8 ++ hash_str n
  | Variable_ n e => hash_discr 9 ++ hash_str n ++ expr_hash e
  | Alias e n => hash_discr 10 ++ expr_hash e ++ hash_str n
  | UListRange s t => hash_discr 11 ++ hash_option expr_hash s ++ hash_option expr_hash t
  end.

(** [ParentExpression::get_children] *)
Definition unary_get_children (u : UnaryExpression) : list Expression :=
  match u with
  | Not e | Exists e | IsNull e | IsNotNull e => [e]
  | Variable_ _ value => [value]
  | Alias source _ => [source]
  | Lit _ | Property _ _ | Parameter_ _ | Identifier _ | ExpressionProperty _ _
  | UListRange _ _ => []
  end.

(** The map expression of an iterator is not among its children. *)
Definition get_children (e : Expression) : list Expression :=
  match e with
  | Unary u => unary_get_children u
  | Binary _ a b => [a; b]
  | FunctionExpression _ args _ => args
  | CaseExpression m w e =>
      option_list m ++ concat (map (fun p => [p.1; p.2]) w) ++ option_list e
  | ListExpression l => l
  | ObjectExpression l => map snd l
  | IteratorExpression _ l f _ => [l] ++ option_list f
  end.
