(* ===== verification/Models.v ===== *)
(** * Graph elements and source changes (core/src/models)

    Elements of the property graph, the changes a source reports about them,
    and the property maps elements carry.  [Arc]s are transparent: the models
    are immutable once shared. *)

From S2P Require Import Prelude BTree Floats Hashing.

#[local] Set Warnings "-register-all".

(** ** References and metadata (models/element.rs) *)

Record ElementReference := { source_id : string; element_id : string }.

#[global] Instance ElementReference_eq_dec : EqDecision ElementReference.
Proof. solve_decision. Defined.

#[global] Instance ElementReference_countable : Countable ElementReference.
Proof.
  apply (inj_countable' (fun r => (source_id r, element_id r))
           (fun p => {| source_id := p.1; element_id := p.2 |})).
  by intros [].
Defined.

Definition element_reference_hash (r : ElementReference) : list hwrite :=
  hash_str (source_id r) ++ hash_str (element_id r).

(** Milliseconds since the UNIX epoch, a [u64]. *)
Definition ElementTimestamp : Type := Z.

Definition MAX_REASONABLE_MILLIS_TIMESTAMP : Z := 10000000000000.

(** The error carries the offending value, which the message prints. *)
Definition validate_effective_from (value : ElementTimestamp) : outcome Z unit :=
  if value =? 0 then Ok tt
  else if MAX_REASONABLE_MILLIS_TIMESTAMP <? value then Err value
  else Ok tt.

Record ElementMetadata := {
  reference : ElementReference;
  labels : list string;
  effective_from : ElementTimestamp;
}.

#[global] Instance ElementMetadata_eq_dec : EqDecision ElementMetadata.
Proof. solve_decision. Defined.

Definition element_metadata_hash (m : ElementMetadata) : list hwrite :=
  element_reference_hash (reference m) ++ hash_seq hash_str (labels m) ++
  hash_u64 (effective_from m).

(** ** Property values (models/element_value.rs) *)

Section models.
Context {C : Chrono}.

Inductive ElementValue :=
| EV_Null
| EV_Bool (b : bool)
| EV_Float (x : OrderedFloat)
| EV_Integer (i : Z)
| EV_String (s : string)
| EV_List (l : list ElementValue)
| EV_Object (o : list (string * ElementValue))
| EV_LocalDateTime (dt : NaiveDateTime)
| EV_ZonedDateTime (dt : FixedDateTime).

(** [ElementPropertyMap] wraps a [BTreeMap<Arc<str>, ElementValue>]. *)
Definition ElementPropertyMap : Type := btree string ElementValue.

(** Derived [PartialEq] and [Hash]; floats compare as [OrderedFloat]s. *)
Fixpoint element_value_eqb (a b : ElementValue) {struct a} : bool :=
  match a, b with
  | EV_Null, EV_Null => true
  | EV_Bool x, EV_Bool y => Bool.eqb x y
  | EV_Float x, EV_Float y => match cmp x y with Eq => true | _ => false end
  | EV_Integer x, EV_Integer y => x =? y
  | EV_String x, EV_String y => String.eqb x y
  | EV_List x, EV_List y => list_eqb element_value_eqb x y
  | EV_Object x, EV_Object y =>
      list_eqb (fun p q => String.eqb p.1 q.1 && element_value_eqb p.2 q.2) x y
  | EV_LocalDateTime x, EV_LocalDateTime y => req x y
  | EV_ZonedDateTime x, EV_ZonedDateTime y => req x y
  | _, _ => false
  end.

Fixpoint element_value_hash (a : ElementValue) : list hwrite :=
  match a with
  | EV_Null => hash_discr 0
  | EV_Bool b => hash_discr 1 ++ hash_bool b
  | EV_Float x => hash_discr 2 ++ ordered_hash x
  | EV_Integer i => hash_discr 3 ++ hash_i64 i
  | EV_String s => hash_discr 4 ++ hash_str s
  | EV_List l => hash_discr 5 ++ hash_seq element_value_hash l
  | EV_Object o => hash_discr 6 ++ hash_seq (fun p => hash_str p.1 ++ element_value_hash p.2) o
  | EV_LocalDateTime dt => hash_discr 7 ++ rhash dt
  | EV_ZonedDateTime dt => hash_discr 8 ++ rhash dt
  end.

Definition property_map_eqb : ElementPropertyMap -> ElementPropertyMap -> bool :=
  list_eqb (fun p q => String.eqb p.1 q.1 && element_value_eqb p.2 q.2).

(** [Index<&str>]: a missing property reads as null. *)
Definition property_index (m : ElementPropertyMap) (key : string) : ElementValue :=
  default EV_Null (bt_get key m).

(** [merge]: only the missing keys are taken over. *)
Definition property_merge (m other : ElementPropertyMap) : ElementPropertyMap :=
  fold_left (fun acc e =>
    match bt_get e.1 acc with
    | Some _ => acc
    | None => bt_insert e.1 e.2 acc
    end) other m.

(** ** Elements *)

Inductive Element :=
| Node (metadata : ElementMetadata) (properties : ElementPropertyMap)
| Relation (metadata : ElementMetadata) (in_node out_node : ElementReference)
    (properties : ElementPropertyMap).

Definition get_metadata (e : Element) : ElementMetadata :=
  match e with Node m _ => m | Relation m _ _ _ => m end.
Definition get_reference (e : Element) : ElementReference := reference (get_metadata e).
Definition get_effective_from (e : Element) : ElementTimestamp :=
  effective_from (get_metadata e).
Definition get_properties (e : Element) : ElementPropertyMap :=
  match e with Node _ p => p | Relation _ _ _ p => p end.
Definition get_property (e : Element) (name : string) : ElementValue :=
  property_index (get_properties e) name.

(** The [assert_eq!] on the references and the mismatch of kinds panic. *)
Definition merge_missing_properties {E} (self other : Element) : outcome E Element :=
  match self, other with
  | Node m p, Node m' p' =>
      if decide (reference m = reference m') then Ok (Node m (property_merge p p')) else Panic
  | Relation m i o p, Relation m' _ _ p' =>
      if decide (reference m = reference m')
      then Ok (Relation m i o (property_merge p p')) else Panic
  | _, _ => Panic
  end.

Definition update_effective_time (e : Element) (t : ElementTimestamp) : Element :=
  let upd m := {| reference := reference m; labels := labels m; effective_from := t |} in
  match e with
  | Node m p => Node (upd m) p
  | Relation m i o p => Relation (upd m) i o p
  end.

Definition element_eqb (a b : Element) : bool :=
  match a, b with
  | Node m p, Node m' p' => bool_decide (m = m') && property_map_eqb p p'
  | Relation m i o p, Relation m' i' o' p' =>
      bool_decide (m = m') && bool_decide (i = i') && bool_decide (o = o') &&
      property_map_eqb p p'
  | _, _ => false
  end.

Definition element_hash (e : Element) : list hwrite :=
  let props := hash_seq (fun p => hash_str p.1 ++ element_value_hash p.2) in
  match e with
  | Node m p => hash_discr 0 ++ element_metadata_hash m ++ props p
  | Relation m i o p =>
      hash_discr 1 ++ element_metadata_hash m ++ element_reference_hash i ++
      element_reference_hash o ++ props p
  end.

(** ** Source changes (models/source_change.rs, interface/future_queue.rs) *)

Record FutureElementRef := {
  element_ref : ElementReference;
  original_time : ElementTimestamp;
  due_time : ElementTimestamp;
  group_signature : Z;
}.

Inductive SourceChange :=
| Insert (element : Element)
| Update (element : Element)
| Delete (metadata : ElementMetadata)
| Future (future_ref : FutureElementRef).

Definition change_get_reference (c : SourceChange) : ElementReference :=
  match c with
  | Insert e | Update e => get_reference e
  | Delete m => reference m
  | Future f => element_ref f
  end.

Definition get_transaction_time (c : SourceChange) : ElementTimestamp :=
  match c with
  | Insert e | Update e => get_effective_from e
  | Delete m => effective_from m
  | Future f => original_time f
  end.

Definition get_realtime (c : SourceChange) : ElementTimestamp :=
  match c with
  | Insert e | Update e => get_effective_from e
  | Delete m => effective_from m
  | Future f => due_time f
  end.
End models.

#[global] Instance FutureElementRef_eq_dec : EqDecision FutureElementRef.
Proof. solve_decision. Defined.

#[global] Instance FutureElementRef_countable : Countable FutureElementRef.
Proof.
  apply (inj_countable' (fun r => (element_ref r, original_time r, due_time r, group_signature r))
           (fun p => {| element_ref := p.1.1.1; original_time := p.1.1.2;
                        due_time := p.1.2; group_signature := p.2 |})).
  by intros [].
Defined.

(** ** Ranges of versions (models/timestamp_range.rs) *)

Inductive TimestampBound :=
| StartFromPrevious (t : ElementTimestamp)
| Included (t : ElementTimestamp).

Record TimestampRange := { range_from : TimestampBound; range_to : ElementTimestamp }.

(** ** Query joins (models/mod.rs) *)

Record QueryJoinKey := { join_label : string; join_property : string }.
Record QueryJoin := { join_id : string; join_keys : list QueryJoinKey }.

#[global] Instance QueryJoinKey_eq_dec : EqDecision QueryJoinKey.
Proof. solve_decision. Defined.

#[global] Instance QueryJoinKey_countable : Countable QueryJoinKey.
Proof.
  apply (inj_countable' (fun k => (join_label k, join_property k))
           (fun p => {| join_label := p.1; join_property := p.2 |})).
  by intros [].
Defined.

#[global] Instance QueryJoin_eq_dec : EqDecision QueryJoin.
Proof. solve_decision. Defined.

(** ** Facts *)

Section facts.
Context {C : Chrono}.

(** Structural induction through the nested lists and maps. *)
Lemma ElementValue_ind' (P : ElementValue -> Prop) :
  P EV_Null -> (forall b, P (EV_Bool b)) -> (forall x, P (EV_Float x)) ->
  (forall i, P (EV_Integer i)) -> (forall s, P (EV_String s)) ->
  (forall l, Forall P l -> P (EV_List l)) ->
  (forall o, Forall (fun e => P e.2) o -> P (EV_Object o)) ->
  (forall dt, P (EV_LocalDateTime dt)) -> (forall dt, P (EV_ZonedDateTime dt)) ->
  forall v, P v.
Proof.
  intros Hn Hb Hf Hi Hs Hl Ho Hd Hz.
  fix IH 1. intros [|b|x|i|s|l|o|dt|dt];
    [exact Hn|apply Hb|apply Hf|apply Hi|apply Hs| | |apply Hd|apply Hz].
  - apply Hl. induction l as [|v l IHl]; constructor; [apply IH | exact IHl].
  - apply Ho. induction o as [|[k v] o IHo]; constructor; [apply IH | exact IHo].
Qed.

Lemma element_value_eqb_hash a b :
  element_value_eqb a b = true -> element_value_hash a = element_value_hash b.
Proof.
  revert b. induction a as [| | | | |l IH|o IH| |] using ElementValue_ind';
    intros []; cbn; try done.
  - by intros ->%eqb_prop.
  - destruct (cmp x x0) eqn:Hc; try done. intros _. f_equal. by apply ordered_hash_eq.
  - by intros ->%Z.eqb_eq.
  - by intros ->%String.eqb_eq.
  - intros Hl. f_equal. eapply hash_seq_ext; [|exact Hl].
    intros v w Hv. rewrite Forall_forall in IH. by apply IH.
  - intros Hl. f_equal. eapply hash_seq_ext; [|exact Hl].
    intros [k v] [k' w] Hv [->%String.eqb_eq Hvw]%andb_prop; cbn in *.
    rewrite Forall_forall in IH. do 2 f_equal. exact (IH _ Hv w Hvw).
  - intros Hr. f_equal. by apply req_hash.
  - intros Hr. f_equal. by apply req_hash.
Qed.

Lemma element_value_eqb_refl a : element_value_eqb a a = true.
Proof.
  induction a as [| | | | |l IH|o IH| |] using ElementValue_ind'; cbn.
  - done.
  - apply eqb_reflx.
  - by rewrite (cmp_refl x).
  - apply Z.eqb_refl.
  - apply String.eqb_refl.
  - induction IH as [|v l Hv _ IHl]; cbn; [done|]. by rewrite Hv, IHl.
  - induction IH as [|[k v] l Hv _ IHl]; cbn in *; [done|].
    by rewrite String.eqb_refl, Hv, IHl.
  - apply req_refl.
  - apply req_refl.
Qed.

Lemma property_merge_cons m (e : string * ElementValue) other :
  property_merge m (e :: other) =
  property_merge (match bt_get e.1 m with Some _ => m | None => bt_insert e.1 e.2 m end) other.
Proof. reflexivity. Qed.

Lemma property_merge_sorted m other : bt_sorted m -> bt_sorted (property_merge m other).
Proof.
  intros Hm. unfold property_merge. apply (fold_left_inv bt_sorted); [done|].
  intros acc [k v] _ Hacc; cbn. destruct (bt_get k acc); [done|]. by apply bt_insert_sorted.
Qed.

(** Merging keeps the own value of a key and otherwise takes the other's. *)
Lemma property_merge_get m other k :
  bt_sorted m -> bt_sorted other ->
  bt_get k (property_merge m other) =
  match bt_get k m with Some v => Some v | None => bt_get k other end.
Proof.
  intros Hm Hother. revert m Hm.
  induction Hother as [|j w other Hj Hother IH]; intros m Hm.
  { cbn. by destruct (bt_get k m) eqn:E; rewrite ?E. }
  rewrite property_merge_cons. cbn [fst snd].
  destruct (bt_get j m) eqn:Hjm.
  - rewrite IH by done. destruct (bt_get k m) eqn:Hkm; [done|]. cbn.
    destruct (cmp k j) eqn:Hc; [|apply bt_get_below; by eapply bt_below_trans|done].
    apply cmp_eq in Hc as ->. congruence.
  - rewrite IH by by apply bt_insert_sorted. rewrite bt_get_insert by done.
    cbn [bt_get]. destruct (cmp k j) eqn:Hc.
    + apply cmp_eq in Hc as ->. by rewrite Hjm.
    + destruct (bt_get k m); [done|]. apply bt_get_below. by eapply bt_below_trans.
    + done.
Qed.

Lemma merge_missing_reference {E} (a b c : Element) :
  merge_missing_properties (E:=E) a b = Ok c -> get_metadata c = get_metadata a.
Proof. destruct a, b; cbn; try case_decide; intros; simplify_eq; done. Qed.
End facts.

#[export] Hint Resolve element_value_eqb_refl property_merge_sorted : drasi.
