(* ===== verification/Errors.v ===== *)
(** * Error types (core/src/interface/mod.rs, core/src/evaluation/mod.rs)

    The payloads that only feed messages are strings. *)

From S2P Require Import Prelude.

Inductive IndexError :=
| IOError
| NotSupported
| ArchiveNotEnabled
| CorruptedData
| ConnectionFailed (msg : string)
| UnknownStore (name : string)
| OtherIndexError (msg : string).

Inductive MiddlewareError :=
| SourceChangeError (msg : string)
| MiddlewareIndexError (e : IndexError)
| UnknownKind (msg : string).

Inductive OutOfRangeType :=
| IndexOutOfRange
| TemporalDurationOutOfRange
| TemporalInstantOutOfRange.

Inductive FunctionEvaluationError :=
| InvalidArgument (n : nat)
| InvalidArgumentCount
| FunctionIndexError (e : IndexError)
| OverflowError
| OutofRange
| InvalidFormat (expected : string)
| CorruptData
| InvalidType (expected : string)
| FunctionEvaluation (e : EvaluationError)
with EvaluationError :=
| DivideByZero
| EvalInvalidType (expected : string)
| UnknownIdentifier (name : string)
| UnknownFunction (name : string)
| EvalIndexError (e : IndexError)
| EvalMiddlewareError (e : MiddlewareError)
| ParseError
| InvalidContext
| EvalOutOfRange (kind : OutOfRangeType)
| EvalOverflowError
| EvalFunctionError (function_name : string) (error : FunctionEvaluationError)
| EvalCorruptData
| EvalInvalidArgument
| UnknownProperty (property_name : string)
| FormatError (expected : string).

(** [FunctionError] pairs the failing function with its error. *)
Record FunctionError := { function_name : string; error : FunctionEvaluationError }.

Definition from_function_error (e : FunctionError) : EvaluationError :=
  EvalFunctionError (function_name e) (error e).

#[global] Instance IndexError_eq_dec : EqDecision IndexError.
Proof. solve_decision. Defined.
