(* ===== verification/Values.v ===== *)
(** * Variable values (core/src/evaluation/variable_value)

    The dynamically typed values of query variables, the ordinary equality of
    the query language, and the grouping identity ([eq_for_groupby] with its
    hash) that decides which aggregation group a row belongs to. *)

From Stdlib Require Import SpecFloat.
From S2P Require Import Prelude BTree Floats Hashing Ast Models.

#[local] Set Warnings "-register-all".

(** ** Integers (variable_value/integer.rs) *)

Inductive Integer :=
| PosInt (u : Z)
| NegInt (i : Z).

#[global] Instance Integer_eq_dec : EqDecision Integer.
Proof. solve_decision. Defined.

(** The payloads are a [u64] and an [i64]; negative numbers are [NegInt]. *)
Definition integer_ok (n : Integer) : Prop :=
  match n with PosInt u => u64_ok u | NegInt i => i64_min <= i < 0 end.

Definition integer_eqb (a b : Integer) : bool :=
  match a, b with
  | PosInt a, PosInt b => a =? b
  | NegInt a, NegInt b => a =? b
  | _, _ => false
  end.

Definition integer_hash (a : Integer) : list hwrite :=
  match a with PosInt i => hash_u64 i | NegInt i => hash_i64 i end.

Definition integer_hash_for_groupby (a : Integer) : list hwrite :=
  match a with
  | PosInt v => hash_bool false ++ hash_u64 v
  | NegInt v => hash_bool true ++ hash_u64 (Z.abs v)
  end.

Definition integer_as_i64 (a : Integer) : option Z :=
  match a with
  | PosInt n => if n <=? i64_max then Some n else None
  | NegInt n => Some n
  end.

Definition integer_as_u64 (a : Integer) : option Z :=
  match a with PosInt n => Some n | NegInt _ => None end.

Definition integer_from_i64 (i : Z) : Integer := if i <? 0 then NegInt i else PosInt i.
Definition integer_from_u64 (u : Z) : Integer := PosInt u.

(** ** Floats (variable_value/float.rs): an [f64] that may be non-finite *)

Definition Float : Type := f64.

Definition float_as_f64 (x : Float) : option f64 := if f64_is_finite x then Some x else None.
Definition float_from_f64 (x : f64) : option Float := if f64_is_finite x then Some x else None.

Definition float_hash (x : Float) : list hwrite :=
  if f64_eqb x f64_zero then hash_f64_bits f64_zero else hash_f64_bits x.

Definition float_as_integer_exact (x : Float) : option Integer :=
  if negb (f64_fract_is_zero x) then None
  else if f64_leb f64_zero x && f64_ltb x (f64_of_Z u64_max)
  then Some (integer_from_u64 (f64_as_u64 x))
  else if f64_ltb x f64_zero && f64_leb (f64_of_Z i64_min) x
  then Some (integer_from_i64 (f64_as_i64 x))
  else None.

Definition float_eq_for_groupby (a b : Float) : bool :=
  f64_eqb a b || (f64_to_bits a =? f64_to_bits b).

(** ** List ranges *)

Inductive RangeBound := BIndex (i : Z) | Unbounded.
Record ListRange := { lr_start : RangeBound; lr_end : RangeBound }.

#[global] Instance RangeBound_eq_dec : EqDecision RangeBound.
Proof. solve_decision. Defined.
#[global] Instance ListRange_eq_dec : EqDecision ListRange.
Proof. solve_decision. Defined.

Definition range_bound_hash (b : RangeBound) : list hwrite :=
  match b with BIndex i => hash_discr 0 ++ hash_i64 i | Unbounded => hash_discr 1 end.
Definition list_range_hash (r : ListRange) : list hwrite :=
  range_bound_hash (lr_start r) ++ range_bound_hash (lr_end r).

Section values.
Context {C : Chrono}.

(** ** Temporal wrappers (zoned_time.rs, zoned_datetime.rs, duration.rs) *)

Record ZonedTime := { zt_time : NaiveTime; zt_offset : FixedOffset }.
Record ZonedDateTime := { zdt_datetime : FixedDateTime; zdt_timezone_name : option string }.
Record Duration := { d_duration : TimeDelta; d_year : Z; d_month : Z }.

Definition zoned_time_eqb (a b : ZonedTime) : bool :=
  req (zt_time a) (zt_time b) && req (zt_offset a) (zt_offset b).
Definition zoned_time_hash (a : ZonedTime) : list hwrite :=
  rhash (zt_time a) ++ rhash (zt_offset a).
Definition zoned_datetime_eqb (a b : ZonedDateTime) : bool :=
  req (zdt_datetime a) (zdt_datetime b) &&
  bool_decide (zdt_timezone_name a = zdt_timezone_name b).
Definition zoned_datetime_hash (a : ZonedDateTime) : list hwrite :=
  rhash (zdt_datetime a) ++ hash_option hash_str (zdt_timezone_name a).
Definition duration_eqb (a b : Duration) : bool :=
  req (d_duration a) (d_duration b) && (d_year a =? d_year b) && (d_month a =? d_month b).
Definition duration_hash (a : Duration) : list hwrite :=
  rhash (d_duration a) ++ hash_i64 (d_year a) ++ hash_i64 (d_month a).

(** ** Values (variable_value/mod.rs) *)

Inductive VariableValue :=
| VNull
| VBool (b : bool)
| VFloat (x : Float)
| VInteger (n : Integer)
| VString (s : string)
| VList (l : list VariableValue)
| VObject (o : list (string * VariableValue))
| VDate (d : NaiveDate)
| VLocalTime (t : NaiveTime)
| VZonedTime (t : ZonedTime)
| VLocalDateTime (t : NaiveDateTime)
| VZonedDateTime (t : ZonedDateTime)
| VDuration (d : Duration)
| VExpression (e : Expression)
| VListRange (r : ListRange)
| VElement (e : Element)
| VElementMetadata (m : ElementMetadata)
| VElementReference (r : ElementReference)
| VAwaiting.

(** [&&] of partial comparisons: the right operand of a false conjunction is
    not evaluated. *)
Definition and_then (a : option bool) (b : option bool) : option bool :=
  match a with Some true => b | _ => a end.

(** Equality of vectors: lengths first, then element by element. *)
Definition vec_eq {A} (eq : A -> A -> option bool) (l1 l2 : list A) : option bool :=
  if Nat.eqb (length l1) (length l2)
  then (fix go l1 l2 :=
          match l1, l2 with
          | a :: l1, b :: l2 => and_then (eq a b) (go l1 l2)
          | _, _ => Some true
          end) l1 l2
  else Some false.

(** [n.as_i64().is_some_and(|n| n as f64 == match m.as_f64() { Some(m) => m,
    None => unreachable!() })]: [None] is the panic. *)
Definition integer_float_eq (n : Integer) (m : Float) : option bool :=
  match integer_as_i64 n with
  | None => Some false
  | Some n => match float_as_f64 m with
              | Some m => Some (f64_eqb (f64_of_Z n) m)
              | None => None
              end
  end.

(** [PartialEq] (variable_value/partial_eq.rs); [None] is a panic. *)
Fixpoint value_eq (a b : VariableValue) {struct a} : option bool :=
  match a, b with
  | VInteger n, VInteger m => Some (integer_eqb n m)
  | VFloat n, VFloat m => Some (f64_eqb n m)
  | VInteger n, VFloat m => integer_float_eq n m
  | VFloat n, VInteger m => integer_float_eq m n
  | VBool n, VBool m => Some (Bool.eqb n m)
  | VString n, VString m => Some (String.eqb n m)
  | VList l1, VList l2 => vec_eq value_eq l1 l2
  | VNull, VNull => Some true
  | VObject o1, VObject o2 =>
      vec_eq (fun p q => and_then (Some (String.eqb p.1 q.1)) (value_eq p.2 q.2)) o1 o2
  | VDate x, VDate y => Some (req x y)
  | VLocalTime x, VLocalTime y => Some (req x y)
  | VZonedTime x, VZonedTime y => Some (zoned_time_eqb x y)
  | VLocalDateTime x, VLocalDateTime y => Some (req x y)
  | VZonedDateTime x, VZonedDateTime y => Some (zoned_datetime_eqb x y)
  | VDuration x, VDuration y => Some (duration_eqb x y)
  | VElement x, VElement y => Some (element_eqb x y)
  | VElementReference x, VElementReference y => Some (bool_decide (x = y))
  | VElementMetadata x, VElementMetadata y => Some (bool_decide (x = y))
  | VExpression x, VExpression y => Some (expr_eqb x y)
  | VListRange x, VListRange y => Some (bool_decide (x = y))
  | VAwaiting, VAwaiting => Some true
  | _, _ => Some false
  end.

Definition value_discr (v : VariableValue) : Z :=
  match v with
  | VNull => 0 | VBool _ => 1 | VFloat _ => 2 | VInteger _ => 3 | VString _ => 4
  | VList _ => 5 | VObject _ => 6 | VDate _ => 7 | VLocalTime _ => 8 | VZonedTime _ => 9
  | VLocalDateTime _ => 10 | VZonedDateTime _ => 11 | VDuration _ => 12 | VExpression _ => 13
  | VListRange _ => 14 | VElement _ => 15 | VElementMetadata _ => 16
  | VElementReference _ => 17 | VAwaiting => 18
  end.

(** The derived [Hash]. *)
Fixpoint value_hash (v : VariableValue) : list hwrite :=
  hash_discr (value_discr v) ++
  match v with
  | VNull | VAwaiting => []
  | VBool b => hash_bool b
  | VFloat x => float_hash x
  | VInteger n => integer_hash n
  | VString s => hash_str s
  | VList l => hash_seq value_hash l
  | VObject o => hash_seq (fun p => hash_str p.1 ++ value_hash p.2) o
  | VDate d => rhash d
  | VLocalTime t => rhash t
  | VZonedTime t => zoned_time_hash t
  | VLocalDateTime t => rhash t
  | VZonedDateTime t => zoned_datetime_hash t
  | VDuration d => duration_hash d
  | VExpression e => expr_hash e
  | VListRange r => list_range_hash r
  | VElement e => element_hash e
  | VElementMetadata m => element_metadata_hash m
  | VElementReference r => element_reference_hash r
  end.

(** [hash_for_groupby] *)
Fixpoint hash_for_groupby (v : VariableValue) : list hwrite :=
  match v with
  | VElement e => element_reference_hash (get_reference e)
  | VInteger n => hash_discr (value_discr v) ++ integer_hash_for_groupby n
  | VFloat x =>
      match float_as_integer_exact x with
      | Some n => hash_discr (value_discr (VInteger n)) ++ integer_hash_for_groupby n
      | None => value_hash v
      end
  | VList l => hash_discr (value_discr v) ++ hash_seq hash_for_groupby l
  | VObject o =>
      hash_discr (value_discr v) ++ hash_seq (fun p => hash_str p.1 ++ hash_for_groupby p.2) o
  | _ => value_hash v
  end.

(** [eq_for_groupby]; the fallback [self == other] is reached only where the
    ordinary equality cannot panic. *)
Fixpoint eq_for_groupby (a b : VariableValue) {struct a} : bool :=
  match a, b with
  | VElement l, VElement r => bool_decide (get_reference l = get_reference r)
  | VInteger n, VFloat x | VFloat x, VInteger n =>
      option_eqb integer_eqb (float_as_integer_exact x) (Some n)
  | VFloat l, VFloat r => float_eq_for_groupby l r
  | VList l, VList r => list_eqb eq_for_groupby l r
  | VObject l, VObject r =>
      list_eqb (fun p q => String.eqb p.1 q.1 && eq_for_groupby p.2 q.2) l r
  | _, _ => default false (value_eq a b)
  end.

(** ** Conversions (models/element_value.rs) *)

Fixpoint from_element_value (v : ElementValue) : VariableValue :=
  match v with
  | EV_Null => VNull
  | EV_Bool b => VBool b
  | EV_Float f => VFloat (of_f64 f)
  | EV_Integer i => VInteger (integer_from_i64 i)
  | EV_String s => VString s
  | EV_List l => VList (map from_element_value l)
  | EV_Object o => VObject (map (fun e => (e.1, from_element_value e.2)) o)
  | EV_LocalDateTime dt => VLocalDateTime dt
  | EV_ZonedDateTime dt => VZonedDateTime {| zdt_datetime := dt; zdt_timezone_name := None |}
  end.

(** [TryInto<ElementValue>]: an element of a list that does not convert
    becomes null, an entry of an object that does not convert panics. *)
Fixpoint try_into_element_value (v : VariableValue) : outcome unit ElementValue :=
  match v with
  | VNull => Ok EV_Null
  | VBool b => Ok (EV_Bool b)
  | VFloat f => Ok (EV_Float {| of_f64 := default f64_zero (float_as_f64 f) |})
  | VInteger i => Ok (EV_Integer (default 0 (integer_as_i64 i)))
  | VString s => Ok (EV_String s)
  | VList l =>
      (fix go l acc :=
         match l with
         | [] => Ok (EV_List (rev acc))
         | x :: l =>
             match try_into_element_value x with
             | Ok e => go l (e :: acc)
             | Err _ => go l (EV_Null :: acc)
             | Panic => Panic
             end
         end) l []
  | VObject o =>
      (fix go o acc :=
         match o with
         | [] => Ok (EV_Object (rev acc))
         | (k, x) :: o =>
             match try_into_element_value x with
             | Ok e => go o ((k, e) :: acc)
             | _ => Panic
             end
         end) o []
  | VLocalDateTime dt => Ok (EV_LocalDateTime dt)
  | VZonedDateTime zdt => Ok (EV_ZonedDateTime (zdt_datetime zdt))
  | _ => Err tt
  end.
End values.

(** [QueryVariables]: the row flowing through a query. *)
Definition QueryVariables {C : Chrono} : Type := btree string VariableValue.
