(* ===== verification/GroupIdentity.v ===== *)
(** * Grouping identity

    [eq_for_groupby] decides which rows fall into the same aggregation group
    and [hash_for_groupby] addresses the group in the result index.  The
    theorems show that the first is an equivalence relation and that the
    second is a function of its classes, for the values that hold no
    expression tree (the last lemma shows why those are excluded). *)

From Stdlib Require Import SpecFloat.
From S2P Require Import Prelude BTree Floats Hashing Ast Models Values.

(** ** Integral floats *)

Definition integer_value (n : Integer) : Z := match n with PosInt u => u | NegInt i => i end.

Lemma f64_trunc_zero_iff s m e :
  f64_fract_is_zero (S754_finite s m e) = true -> f64_trunc (S754_finite s m e) <> 0.
Proof.
  intros [H1 H2]%f64_integral_value Ht. rewrite Ht in *. cbn in *.
  destruct (Z_lt_le_dec e 0) as [He|He]; [specialize (H2 He); lia|].
  specialize (H1 He). pose proof (Z.pow_pos_nonneg 2 e). lia.
Qed.

Lemma f64_trunc_sign m e s :
  (s = false -> 0 <= f64_trunc (S754_finite s m e)) /\
  (s = true -> f64_trunc (S754_finite s m e) <= 0).
Proof.
  unfold f64_trunc.
  assert (0 <= (if 0 <=? e then Z.pos m * 2 ^ e else Z.pos m / 2 ^ (- e))).
  { destruct (0 <=? e) eqn:E; [apply Z.leb_le in E|apply Z.leb_gt in E].
    - pose proof (Z.pow_pos_nonneg 2 e). lia.
    - apply Z.div_pos; [lia|]. apply Z.pow_pos_nonneg; lia. }
  destruct s; split; intros; try done; lia.
Qed.

(** The shape of a float that converts, and the integer it converts to. *)
Lemma as_integer_exact_pos x n :
  f64_valid x -> f64_leb f64_zero x = true -> f64_ltb x (f64_of_Z u64_max) = true ->
  n = integer_from_u64 (f64_as_u64 x) ->
  n = PosInt (f64_trunc x) /\ (x = S754_zero true \/ x = S754_zero false \/ exists m e, x = S754_finite false m e).
Proof.
  intros Hv Hl%f64_leb_key Hu%f64_ltb_key ->. unfold integer_from_u64.
  replace (ordered_key (f64_of_Z u64_max)) with (3, 12, 4503599627370496) in Hu by by vm_compute.
  apply key_cmp_lt in Hu. rewrite key_cmp_lt in Hl. unfold f64_zero in Hl.
  destruct x as [[]|[]| |[] m e]; cbn in Hu, Hl; try lia; try (split; [done|]; eauto).
  split; [|eauto]. f_equal. unfold f64_as_u64, f64_saturate.
  pose proof (proj1 (f64_trunc_sign m e false) eq_refl).
  assert (f64_trunc (S754_finite false m e) < 2 ^ (52 + 12)) by (apply f64_trunc_bound; [done|lia|lia]).
  unfold u64_max. lia.
Qed.

Lemma as_integer_exact_neg x n :
  f64_valid x -> f64_fract_is_zero x = true ->
  f64_ltb x f64_zero = true -> f64_leb (f64_of_Z i64_min) x = true ->
  n = integer_from_i64 (f64_as_i64 x) ->
  n = NegInt (f64_trunc x) /\ exists m e, x = S754_finite true m e.
Proof.
  intros Hv Hf Hl%f64_ltb_key Hu%f64_leb_key ->.
  replace (ordered_key (f64_of_Z i64_min)) with (1, -11, -4503599627370496) in Hu by by vm_compute.
  apply key_cmp_lt in Hl. unfold f64_zero in Hl.
  destruct x as [[]|[]| |[] m e]; try done; cbn in Hl; try lia. split; [|eauto].
  assert (Hm : e < 11 \/ (e = 11 /\ Z.pos m <= 2 ^ 52)).
  { rewrite key_cmp_lt in Hu. cbn in Hu. lia. }
  assert (Hle : - 2 ^ 63 <= f64_trunc (S754_finite true m e)).
  { change (f64_trunc (S754_finite true m e)) with (- f64_trunc (S754_finite false m e)).
    destruct Hm as [Hm|[-> Hm]].
    - assert (f64_trunc (S754_finite false m e) < 2 ^ (52 + 11)) by (apply f64_trunc_bound; [done|lia|lia]).
      lia.
    - cbn. lia. }
  pose proof (f64_trunc_zero_iff _ _ _ Hf). pose proof (proj2 (f64_trunc_sign m e true) eq_refl).
  unfold integer_from_i64, f64_as_i64, f64_saturate, i64_min, i64_max.
  rewrite Z.min_r, Z.max_r by lia. by rewrite (proj2 (Z.ltb_lt _ _)) by lia.
Qed.

Lemma as_integer_exact_Some x n :
  f64_valid x -> float_as_integer_exact x = Some n ->
  f64_fract_is_zero x = true /\
  ((n = PosInt (f64_trunc x) /\
    (x = S754_zero true \/ x = S754_zero false \/ exists m e, x = S754_finite false m e)) \/
   (n = NegInt (f64_trunc x) /\ exists m e, x = S754_finite true m e)).
Proof.
  unfold float_as_integer_exact. intros Hv.
  destruct (f64_fract_is_zero x) eqn:Hf; [|done]. cbn [negb].
  destruct (f64_leb f64_zero x && _) eqn:Hp.
  { apply andb_prop in Hp as [Hl Hu]. intros [= <-]. split; [done|].
    left. by eapply as_integer_exact_pos. }
  destruct (f64_ltb x f64_zero && _) eqn:Hn; [|done].
  apply andb_prop in Hn as [Hl Hu]. intros [= <-]. split; [done|].
  right. by eapply as_integer_exact_neg.
Qed.

Lemma f64_eqb_finite s m e : f64_eqb (S754_finite s m e) (S754_finite s m e) = true.
Proof.
  unfold f64_eqb, SFeqb, SFcompare. rewrite Z.compare_refl.
  destruct s; by rewrite (Pos.compare_refl m : Pos.compare_cont Eq m m = Eq).
Qed.

(** Exact conversion is injective up to the sign of zero. *)
Lemma as_integer_exact_inj x y n :
  f64_valid x -> f64_valid y ->
  float_as_integer_exact x = Some n -> float_as_integer_exact y = Some n -> f64_eqb x y = true.
Proof.
  intros Hx Hy (Fx & Cx)%as_integer_exact_Some (Fy & Cy)%as_integer_exact_Some; [|done..].
  destruct Cx as [[-> Cx]|[-> (m & e & ->)]], Cy as [[[= Ht] Cy]|[[= Ht] (m' & e' & ->)]].
  - destruct Cx as [->|[->|(m & e & ->)]], Cy as [->|[->|(m' & e' & ->)]]; try done.
    1,2: by pose proof (f64_trunc_zero_iff _ _ _ Fy).
    1,2: by pose proof (f64_trunc_zero_iff _ _ _ Fx).
    destruct (f64_integral_unique _ _ _ _ _ Hx Hy Fx Fy Ht) as [-> ->]. apply f64_eqb_finite.
  - destruct (f64_integral_unique _ _ _ _ _ Hx Hy Fx Fy Ht) as [-> ->]. apply f64_eqb_finite.
Qed.

(** Group-equal floats are the same number, or both zero. *)
Lemma float_eq_for_groupby_cases x y :
  f64_valid x -> f64_valid y -> float_eq_for_groupby x y = true ->
  x = y \/ exists s t, x = S754_zero s /\ y = S754_zero t.
Proof.
  intros Hx Hy. unfold float_eq_for_groupby.
  destruct (f64_eqb x y) eqn:He; cbn [orb].
  - intros _. apply f64_eqb_ordered in He. rewrite ordered_cmp_key in He.
    apply key_cmp_eq in He.
    destruct x as [s|[]| |[] m e], y as [t|[]| |[] n f]; try done; cbn in He; simplify_eq; eauto.
    left. f_equal; lia.
  - intros Hb%Z.eqb_eq. left. by apply f64_to_bits_inj.
Qed.

Lemma float_eq_for_groupby_refl x : float_eq_for_groupby x x = true.
Proof. unfold float_eq_for_groupby. by rewrite Z.eqb_refl, orb_true_r. Qed.

Lemma float_eq_for_groupby_sym x y :
  float_eq_for_groupby x y = true -> float_eq_for_groupby y x = true.
Proof.
  unfold float_eq_for_groupby. rewrite !orb_true_iff, !Z.eqb_eq. intros [He|He]; [left|by right].
  unfold f64_eqb, SFeqb in *. destruct (SFcompare x y) as [[]|] eqn:Hc; try done.
  apply f64_eqb_ordered in He as Ho || assert (Ho : ordered_cmp x y = Eq)
    by (apply f64_eqb_ordered; unfold f64_eqb, SFeqb; by rewrite Hc).
  assert (Ho' : ordered_cmp y x = Eq)
    by (rewrite ordered_cmp_key, key_cmp_sym, <- ordered_cmp_key, Ho; done).
  unfold ordered_cmp in Ho'. destruct x as [s|[]| |[] m e], y as [t|[]| |[] n f]; try done;
    destruct (SFcompare _ _) as [[]|] eqn:Hc' in Ho'; by rewrite ?Hc'.
Qed.

Lemma as_integer_exact_groupby x y :
  f64_valid x -> f64_valid y -> float_eq_for_groupby x y = true ->
  float_as_integer_exact x = float_as_integer_exact y.
Proof.
  intros Hx Hy Heq. destruct (float_eq_for_groupby_cases x y) as [->|(s & t & -> & ->)]; done.
Qed.

(** ** Values *)

Section identity.
Context {C : Chrono}.

Lemma VariableValue_ind' (P : VariableValue -> Prop) :
  (forall l, Forall P l -> P (VList l)) ->
  (forall o, Forall (fun e => P e.2) o -> P (VObject o)) ->
  (forall v, (match v with VList _ | VObject _ => False | _ => True end) -> P v) ->
  forall v, P v.
Proof.
  intros Hl Ho Hv. fix IH 1. intros v.
  destruct v as [| | | | |l|o| | | | | | | | | | | |];
    try (apply Hv; exact I).
  - apply Hl. induction l as [|v l IHl]; constructor; [apply IH | exact IHl].
  - apply Ho. induction o as [|[k v] o IHo]; constructor; [apply IH | exact IHo].
Qed.

(** Floats are canonical and no expression tree occurs. *)
Fixpoint value_ok (v : VariableValue) : Prop :=
  match v with
  | VFloat x => f64_valid x
  | VList l => (fix go l := match l with [] => True | v :: l => value_ok v /\ go l end) l
  | VObject o => (fix go o := match o with [] => True | e :: o => value_ok e.2 /\ go o end) o
  | VExpression _ => False
  | _ => True
  end.

Lemma value_ok_list l : value_ok (VList l) <-> Forall value_ok l.
Proof.
  induction l as [|v l IH]; cbn; [done|]. rewrite Forall_cons. cbn in IH. by rewrite IH.
Qed.

Lemma value_ok_object o : value_ok (VObject o) <-> Forall (fun e => value_ok e.2) o.
Proof.
  induction o as [|e o IH]; cbn; [done|]. rewrite Forall_cons. cbn in IH. by rewrite IH.
Qed.

Lemma zoned_time_eqb_hash a b : zoned_time_eqb a b = true -> zoned_time_hash a = zoned_time_hash b.
Proof.
  intros [H1 H2]%andb_prop. unfold zoned_time_hash.
  by rewrite (req_hash _ _ H1), (req_hash _ _ H2).
Qed.

Lemma zoned_datetime_eqb_hash a b :
  zoned_datetime_eqb a b = true -> zoned_datetime_hash a = zoned_datetime_hash b.
Proof.
  intros [H1 H2%bool_decide_eq_true]%andb_prop. unfold zoned_datetime_hash.
  by rewrite (req_hash _ _ H1), H2.
Qed.

Lemma duration_eqb_hash a b : duration_eqb a b = true -> duration_hash a = duration_hash b.
Proof.
  intros [[H1 H2%Z.eqb_eq]%andb_prop H3%Z.eqb_eq]%andb_prop. unfold duration_hash.
  by rewrite (req_hash _ _ H1), H2, H3.
Qed.

Lemma integer_eqb_eq a b : integer_eqb a b = true <-> a = b.
Proof. destruct a, b; cbn; rewrite ?Z.eqb_eq; split; intros; simplify_eq; done. Qed.

Lemma option_integer_eqb_eq o n : option_eqb integer_eqb o (Some n) = true <-> o = Some n.
Proof.
  destruct o as [m|]; cbn; [|done]. rewrite integer_eqb_eq.
  split; [by intros -> | by intros [= ->]].
Qed.

(** The scalar cases of the contract. *)
Lemma groupby_hash_scalar a b :
  (match a with VList _ | VObject _ => False | _ => True end) ->
  value_ok a -> value_ok b -> eq_for_groupby a b = true ->
  hash_for_groupby a = hash_for_groupby b.
Proof.
  intros Hs Ha Hb. destruct a, b; try done; cbn;
    repeat first
      [ by intros ->%eqb_prop
      | by intros ->%String.eqb_eq
      | by intros ->%bool_decide_eq_true
      | by intros ->%integer_eqb_eq
      | by intros ->%option_integer_eqb_eq
      | by intros Hr%req_hash; rewrite Hr
      | by intros Hr%zoned_time_eqb_hash; rewrite Hr
      | by intros Hr%zoned_datetime_eqb_hash; rewrite Hr
      | by intros Hr%duration_eqb_hash; rewrite Hr ].
  intros Hf. rewrite (as_integer_exact_groupby _ _ Ha Hb Hf).
  by destruct (float_eq_for_groupby_cases _ _ Ha Hb Hf) as [->|([] & [] & -> & ->)].
Qed.

Lemma groupby_hash_all a b :
  value_ok a -> value_ok b -> eq_for_groupby a b = true ->
  hash_for_groupby a = hash_for_groupby b.
Proof.
  revert b. induction a as [l IH|o IH|v Hv] using VariableValue_ind'; intros b Ha Hb.
  - destruct b as [| | | | |k| | | | | | | | | | | | |]; try done. cbn. intros Hl.
    apply value_ok_list in Ha, Hb. f_equal.
    revert k Hb Hl. induction l as [|v l IHl]; intros [|w k] Hb; cbn; try done.
    intros [Hvw Hl]%andb_prop. inversion IH; inversion Ha; inversion Hb; subst.
    unfold hash_seq, hash_usize in *. cbn.
    specialize (IHl ltac:(done) ltac:(done) k ltac:(done) Hl). simplify_eq/=.
    f_equal; [f_equal; lia|]. f_equal; eauto.
  - destruct b as [| | | | | |k| | | | | | | | | | | |]; try done. cbn. intros Hl.
    apply value_ok_object in Ha, Hb. f_equal.
    revert k Hb Hl. induction o as [|[i v] o IHo]; intros [|[j w] k] Hb; cbn; try done.
    intros [[->%String.eqb_eq Hvw]%andb_prop Hl]%andb_prop.
    inversion IH; inversion Ha; inversion Hb; subst. cbn in *.
    unfold hash_seq, hash_usize in *. cbn.
    specialize (IHo ltac:(done) ltac:(done) k ltac:(done) Hl). simplify_eq/=.
    f_equal; [f_equal; lia|]. do 2 f_equal. f_equal; eauto.
  - by apply groupby_hash_scalar.
Qed.

Lemma groupby_refl_all a : value_ok a -> eq_for_groupby a a = true.
Proof.
  induction a as [l IH|o IH|v Hv] using VariableValue_ind'; intros Ha.
  - cbn. apply list_eqb_refl. apply value_ok_list in Ha.
    rewrite Forall_forall in *. eauto.
  - cbn. apply list_eqb_refl. apply value_ok_object in Ha.
    rewrite Forall_forall in *. intros e He. rewrite String.eqb_refl. by apply IH; [|apply Ha].
  - destruct v; try done; cbn;
      rewrite ?eqb_reflx, ?String.eqb_refl, ?bool_decide_eq_true_2 by done; try done.
    + apply float_eq_for_groupby_refl.
    + by apply integer_eqb_eq.
    + apply req_refl.
    + apply req_refl.
    + unfold zoned_time_eqb. by rewrite !req_refl.
    + apply req_refl.
    + unfold zoned_datetime_eqb. by rewrite req_refl, bool_decide_eq_true_2.
    + unfold duration_eqb. by rewrite req_refl, !Z.eqb_refl.
Qed.

Lemma groupby_sym_scalar a b :
  (match a with VList _ | VObject _ => False | _ => True end) ->
  value_ok a -> eq_for_groupby a b = true -> eq_for_groupby b a = true.
Proof.
  intros Hs Ha. destruct a, b; try done; cbn;
    repeat first
      [ by intros ->%eqb_prop; rewrite eqb_reflx
      | by intros ->%String.eqb_eq; rewrite String.eqb_refl
      | by intros ->%bool_decide_eq_true; rewrite bool_decide_eq_true_2
      | by intros ->%integer_eqb_eq; apply integer_eqb_eq
      | by intros Hr%req_sym ].
  - apply float_eq_for_groupby_sym.
  - unfold zoned_time_eqb. intros [H1%req_sym H2%req_sym]%andb_prop. by rewrite H1, H2.
  - unfold zoned_datetime_eqb. intros [H1%req_sym H2%bool_decide_eq_true]%andb_prop.
    by rewrite H1, bool_decide_eq_true_2.
  - unfold duration_eqb.
    intros [[H1%req_sym H2%Z.eqb_eq]%andb_prop H3%Z.eqb_eq]%andb_prop.
    by rewrite H1, H2, H3, !Z.eqb_refl.
Qed.

Lemma groupby_sym_all a b :
  value_ok a -> eq_for_groupby a b = true -> eq_for_groupby b a = true.
Proof.
  revert b. induction a as [l IH|o IH|v Hv] using VariableValue_ind'; intros b Ha.
  - destruct b as [| | | | |k| | | | | | | | | | | | |]; try done. cbn.
    apply list_eqb_sym. apply value_ok_list in Ha.
    rewrite Forall_forall in *. intros v Hv w _. apply IH; auto.
  - destruct b as [| | | | | |k| | | | | | | | | | | |]; try done. cbn.
    apply list_eqb_sym. apply value_ok_object in Ha.
    rewrite Forall_forall in *. intros [i v] Hv [j w] _; cbn.
    intros [->%String.eqb_eq Hvw]%andb_prop. rewrite String.eqb_refl.
    exact (IH (j, v) Hv w (Ha (j, v) Hv) Hvw).
  - by apply groupby_sym_scalar.
Qed.

(** Numbers: transitivity through the exact conversion. *)
Lemma float_groupby_trans x y z :
  f64_valid x -> f64_valid y -> f64_valid z ->
  float_eq_for_groupby x y = true -> float_eq_for_groupby y z = true ->
  float_eq_for_groupby x z = true.
Proof.
  intros Hx Hy Hz Hxy Hyz.
  destruct (float_eq_for_groupby_cases x y) as [->|(s & t & -> & ->)]; try done.
  destruct (float_eq_for_groupby_cases (S754_zero t) z) as [<-|(s' & t' & _ & ->)]; try done.
Qed.

Lemma groupby_trans_scalar a b c :
  (match a with VList _ | VObject _ => False | _ => True end) ->
  value_ok a -> value_ok b -> value_ok c ->
  eq_for_groupby a b = true -> eq_for_groupby b c = true -> eq_for_groupby a c = true.
Proof.
  intros Hs Ha Hb Hc. destruct a, b; try done; destruct c; try done; cbn;
    repeat first
      [ by intros ->%eqb_prop | by intros ->%String.eqb_eq
      | by intros ->%bool_decide_eq_true
      | by intros ->%integer_eqb_eq
      | by intros H1 H2; apply (req_trans _ _ _ H1 H2) ].
  - by apply float_groupby_trans.
  - intros Hf. by rewrite (as_integer_exact_groupby _ _ Ha Hb Hf).
  - intros Hx%option_integer_eqb_eq Hy%option_integer_eqb_eq.
    unfold float_eq_for_groupby. by rewrite (as_integer_exact_inj _ _ _ Ha Hc Hx Hy).
  - intros H1 ->%integer_eqb_eq. done.
  - intros Hn Hf. by rewrite <- (as_integer_exact_groupby _ _ Hb Hc Hf).
  - intros Hn%option_integer_eqb_eq Hm%option_integer_eqb_eq. apply integer_eqb_eq. congruence.
  - unfold zoned_time_eqb. intros [H1 H2]%andb_prop [H3 H4]%andb_prop.
    by rewrite (req_trans _ _ _ H1 H3), (req_trans _ _ _ H2 H4).
  - unfold zoned_datetime_eqb.
    intros [H1 H2%bool_decide_eq_true]%andb_prop [H3 H4%bool_decide_eq_true]%andb_prop.
    rewrite (req_trans _ _ _ H1 H3). by rewrite bool_decide_eq_true_2 by congruence.
  - unfold duration_eqb.
    intros [[H1 H2%Z.eqb_eq]%andb_prop H3%Z.eqb_eq]%andb_prop
           [[H4 H5%Z.eqb_eq]%andb_prop H6%Z.eqb_eq]%andb_prop.
    rewrite (req_trans _ _ _ H1 H4), H2, H3, H5, H6. by rewrite !Z.eqb_refl.
Qed.

Lemma groupby_trans_all a b c :
  value_ok a -> value_ok b -> value_ok c ->
  eq_for_groupby a b = true -> eq_for_groupby b c = true -> eq_for_groupby a c = true.
Proof.
  revert b c. induction a as [l IH|o IH|v Hv] using VariableValue_ind'; intros b c Ha Hb Hc.
  - destruct b as [| | | | |l2| | | | | | | | | | | | |]; try done.
    destruct c as [| | | | |l3| | | | | | | | | | | | |]; try done. cbn.
    apply value_ok_list in Ha, Hb, Hc. apply list_eqb_trans.
    rewrite Forall_forall in *. intros v Hv w x Hw Hx. eapply IH; eauto.
  - destruct b as [| | | | | |l2| | | | | | | | | | | |]; try done.
    destruct c as [| | | | | |l3| | | | | | | | | | | |]; try done. cbn.
    apply value_ok_object in Ha, Hb, Hc. apply list_eqb_trans.
    rewrite Forall_forall in *. intros v Hv w x Hw Hx.
    intros [->%String.eqb_eq H1]%andb_prop [->%String.eqb_eq H2]%andb_prop.
    rewrite String.eqb_refl. cbn. eapply (IH v Hv (w.2) (x.2)); eauto.
  - by apply groupby_trans_scalar.
Qed.
End identity.

(** ** The properties *)

(** Grouping identity is an equivalence relation on values whose floats
    are canonical and that hold no expression tree: mixing integers and exactly
    integral floats, signed zeros, NaN and nested lists and objects never makes
    group membership depend on the order in which rows are compared. *)
Theorem eq_for_groupby_equivalence {C : Chrono} (a b c : VariableValue) :
  value_ok a -> value_ok b -> value_ok c ->
  eq_for_groupby a a = true /\
  (eq_for_groupby a b = true -> eq_for_groupby b a = true) /\
  (eq_for_groupby a b = true -> eq_for_groupby b c = true -> eq_for_groupby a c = true).
Proof.
  intros Ha Hb Hc. split; [by apply groupby_refl_all|].
  split; [by apply groupby_sym_all | by apply groupby_trans_all].
Qed.

Example eq_for_groupby_equivalence_witness :
  eq_for_groupby (C := Sample.chrono) (VFloat (f64_of_Z 3)) (VInteger (PosInt 3)) = true /\
  eq_for_groupby (C := Sample.chrono) (VFloat (f64_of_Z 3)) (VFloat (f64_of_Z 3)) = true.
Proof.
  split; [by vm_compute|].
  apply (eq_for_groupby_equivalence (C := Sample.chrono)
           (VFloat (f64_of_Z 3)) (VInteger (PosInt 3)) (VFloat (f64_of_Z 3)));
    by vm_compute.
Defined.

(** Group-equal values make the same sequence of writes to any hasher, so
    they address the same group in the result index, in the sorted-set store and
    in the row signatures. *)
Theorem hash_for_groupby_contract {C : Chrono} (a b : VariableValue) :
  value_ok a -> value_ok b ->
  eq_for_groupby a b = true -> hash_for_groupby a = hash_for_groupby b.
Proof. apply groupby_hash_all. Qed.

Example hash_for_groupby_contract_witness :
  hash_for_groupby (C := Sample.chrono) (VList [VFloat (f64_of_Z (-7)); VString "x"])
  = hash_for_groupby (C := Sample.chrono) (VList [VInteger (NegInt (-7)); VString "x"]).
Proof.
  apply (hash_for_groupby_contract (C := Sample.chrono)); by vm_compute.
Defined.

(** The contract fails for expression trees: the literals [0.0] and [-0.0]
    compare equal, so the values holding them are group-equal, while the
    hand-written [Hash] of [Literal] hashes their different bits. *)
Theorem literal_zero_hash_divergence {C : Chrono} :
  let pos := VExpression (Unary (Lit (LReal (S754_zero false)))) in
  let neg := VExpression (Unary (Lit (LReal (S754_zero true)))) in
  eq_for_groupby pos neg = true /\ hash_for_groupby pos <> hash_for_groupby neg.
Proof. split; [done|]. cbn. intros [= Hb]. Qed.

(** Comparing an integer property with a non-finite float property panics:
    both values come straight from element properties and the arm that claims to
    be unreachable is reached. *)
Theorem value_eq_non_finite_panics {C : Chrono} (i : Z) (x : f64) :
  i64_ok i -> f64_is_finite x = false ->
  value_eq (from_element_value (EV_Integer i))
           (from_element_value (EV_Float {| of_f64 := x |})) = None.
Proof.
  intros Hi Hx. cbn. unfold integer_float_eq, float_as_f64, integer_from_i64. rewrite Hx.
  destruct (i <? 0) eqn:Hn; cbn; [done|]. apply Z.ltb_ge in Hn.
  unfold i64_ok in Hi. by rewrite (proj2 (Z.leb_le i i64_max)) by lia.
Qed.

Example value_eq_non_finite_panics_witness :
  value_eq (C := Sample.chrono) (from_element_value (EV_Integer 1))
           (from_element_value (EV_Float {| of_f64 := S754_nan |})) = None.
Proof. apply (value_eq_non_finite_panics (C := Sample.chrono) 1 S754_nan); by vm_compute. Defined.
