(* ===== verification/MatchPath.v ===== *)
(** * Match paths (core/src/path_solver/match_path.rs and path_solver/mod.rs)

    The MATCH clauses of a query part are merged into a graph of slots: one
    slot per pattern node or relation, patterns with the same alias sharing a
    slot, and edges recording which slot precedes or follows which. *)

From S2P Require Import Prelude BTree Floats Hashing Ast Models.

Record SlotElementSpec := {
  annotation : option string;
  spec_labels : list string;
  predicates : list Expression;
}.

Record MatchPathSlot := {
  spec : SlotElementSpec;
  in_slots : list nat;
  out_slots : list nat;
  paths : gset nat;
  optional : bool;
}.

Record MatchPath := {
  slots : list MatchPathSlot;
  optional_paths : gset nat;
}.

Definition from_node_match (m : NodeMatch) : SlotElementSpec :=
  {| annotation := annotation_name (node_annotation m);
     spec_labels := node_labels m;
     predicates := node_property_predicates m |}.

Definition from_relation_match (m : RelationMatch) : SlotElementSpec :=
  {| annotation := annotation_name (rel_annotation m);
     spec_labels := rel_labels m;
     predicates := rel_property_predicates m |}.

(** [v[i] = f(v[i])], which panics out of range. *)
Definition vec_alter {E A} (i : nat) (f : A -> A) (l : list A) : outcome E (list A) :=
  match l !! i with Some x => Ok (<[i := f x]> l) | None => Panic end.

Definition new_slot (sp : SlotElementSpec) (path_index : nat) (opt : bool) : MatchPathSlot :=
  {| spec := sp; in_slots := []; out_slots := []; paths := {[path_index]}; optional := opt |}.

Definition join_path (path_index : nat) (opt : bool) (s : MatchPathSlot) : MatchPathSlot :=
  {| spec := spec s; in_slots := in_slots s; out_slots := out_slots s;
     paths := {[path_index]} ∪ paths s; optional := opt && optional s |}.

(** The state threaded through [from_query]. *)
Record Builder := { b_slots : list MatchPathSlot; alias_map : gmap string nat }.

(** [merge_node_match] and [merge_relation_match] differ only in the
    specification they put into a fresh slot. *)
Definition merge_match {E} (sp : SlotElementSpec) (path_index : nat) (opt : bool) (b : Builder) :
    outcome E (nat * Builder) :=
  match annotation sp with
  | Some alias =>
      match alias_map b !! alias with
      | Some slot_num =>
          s' ← vec_alter slot_num (join_path path_index opt) (b_slots b);
          Ok (slot_num, {| b_slots := s'; alias_map := alias_map b |})
      | None =>
          let n := length (b_slots b) in
          Ok (n, {| b_slots := b_slots b ++ [new_slot sp path_index opt];
                    alias_map := <[alias := n]> (alias_map b) |})
      end
  | None =>
      Ok (length (b_slots b), {| b_slots := b_slots b ++ [new_slot sp path_index opt];
                                 alias_map := alias_map b |})
  end.

Definition merge_node_match {E} (m : NodeMatch) path_index opt b : outcome E (nat * Builder) :=
  merge_match (from_node_match m) path_index opt b.
Definition merge_relation_match {E} (m : RelationMatch) path_index opt b : outcome E (nat * Builder) :=
  merge_match (from_relation_match m) path_index opt b.

Definition push_in (j : nat) (s : MatchPathSlot) : MatchPathSlot :=
  {| spec := spec s; in_slots := in_slots s ++ [j]; out_slots := out_slots s;
     paths := paths s; optional := optional s |}.
Definition push_out (j : nat) (s : MatchPathSlot) : MatchPathSlot :=
  {| spec := spec s; in_slots := in_slots s; out_slots := out_slots s ++ [j];
     paths := paths s; optional := optional s |}.

(** [slots[from].out_slots.push(to); slots[to].in_slots.push(from)] *)
Definition add_edge {E} (from to : nat) (l : list MatchPathSlot) : outcome E (list MatchPathSlot) :=
  l ← vec_alter from (push_out to) l;
  vec_alter to (push_in from) l.

(** The edges one hop of a path adds; an undirected hop is linked both ways. *)
Definition link_hop {E} (d : Direction) (prev rel node : nat) (l : list MatchPathSlot) :
    outcome E (list MatchPathSlot) :=
  match d with
  | Right => l ← add_edge prev rel l; add_edge rel node l
  | Left => l ← add_edge rel prev l; add_edge node rel l
  | Either =>
      l ← add_edge rel prev l; l ← add_edge prev rel l;
      l ← add_edge rel node l; add_edge node rel l
  end.

Definition add_hop {E} (path_index : nat) (opt : bool) (st : nat * Builder)
    (p : RelationMatch * NodeMatch) : outcome E (nat * Builder) :=
  let '(prev, b) := st in
  '(rel, b) ← merge_relation_match p.1 path_index opt b;
  '(node, b) ← merge_node_match p.2 path_index opt b;
  l ← link_hop (rel_direction p.1) prev rel node (b_slots b);
  Ok (node, {| b_slots := l; alias_map := alias_map b |}).

Definition add_clause {E} (b : Builder * gset nat) (c : nat * MatchClause) :
    outcome E (Builder * gset nat) :=
  let '(path_index, mc) := c in
  let opts := if mc_optional mc then {[path_index]} ∪ b.2 else b.2 in
  '(n, b) ← merge_node_match (mc_start mc) path_index (mc_optional mc) b.1;
  '(_, b) ← out_foldl (add_hop path_index (mc_optional mc)) (n, b) (mc_path mc);
  Ok (b, opts).

(** [MatchPath::from_query] *)
Definition from_query {E} (query_part : QueryPart) : outcome E MatchPath :=
  '(b, opts) ← out_foldl add_clause ({| b_slots := []; alias_map := ∅ |}, ∅)
                 (enumerate (match_clauses query_part));
  Ok {| slots := b_slots b; optional_paths := opts |}.

(** The slots one path contributes to the "optional match not found" row, or
    [None] when the path has an empty slot (the loop breaks). *)
Fixpoint path_optional_slots (anchor path : nat) (empty_slots : gset nat)
    (l : list (nat * MatchPathSlot)) (acc : gset nat) : option (gset nat) :=
  match l with
  | [] => Some acc
  | (n, s) :: l =>
      if optional s && bool_decide (path ∈ paths s) then
        if bool_decide (n ∈ empty_slots) then None
        else if negb (Nat.eqb n anchor) && Nat.ltb 1 (size (paths s))
        then path_optional_slots anchor path empty_slots l acc
        else path_optional_slots anchor path empty_slots l ({[n]} ∪ acc)
      else path_optional_slots anchor path empty_slots l acc
  end.

Definition get_optional_slots_on_common_paths {E} (mp : MatchPath) (anchor : nat)
    (empty_slots : gset nat) : outcome E (gset nat) :=
  match slots mp !! anchor with
  | None => Panic
  | Some s =>
      Ok (fold_left (fun acc path =>
            acc ∪ default ∅ (path_optional_slots anchor path empty_slots (enumerate (slots mp)) ∅))
            (elements (paths s)) ∅)
  end.

(** ** Well-formed slot graphs *)

Definition out_of (l : list MatchPathSlot) (i j : nat) : Prop :=
  exists s, l !! i = Some s /\ j ∈ out_slots s.
Definition in_of (l : list MatchPathSlot) (j i : nat) : Prop :=
  exists s, l !! j = Some s /\ i ∈ in_slots s.

(** Every outgoing edge is recorded at its target, and conversely. *)
Definition edges_ok (l : list MatchPathSlot) : Prop := forall i j, out_of l i j <-> in_of l j i.

(** A slot is optional exactly when every path through it is. *)
Definition flags_ok (opts : gset nat) (l : list MatchPathSlot) : Prop :=
  Forall (fun s => optional s = true <-> forall p, p ∈ paths s -> p ∈ opts) l.

Definition paths_below (k : nat) (l : list MatchPathSlot) : Prop :=
  Forall (fun s => forall p, p ∈ paths s -> (p < k)%nat) l.

Definition alias_ok (b : Builder) : Prop :=
  forall a n, alias_map b !! a = Some n -> (n < length (b_slots b))%nat.

Record builder_ok (opts : gset nat) (k : nat) (b : Builder) : Prop := {
  bo_edges : edges_ok (b_slots b);
  bo_flags : flags_ok opts (b_slots b);
  bo_paths : paths_below k (b_slots b);
  bo_alias : alias_ok b;
}.

Lemma vec_alter_Ok {E A} i (f : A -> A) l :
  (i < length l)%nat -> exists x, l !! i = Some x /\ vec_alter (E:=E) i f l = Ok (<[i := f x]> l).
Proof.
  intros Hi. destruct (lookup_lt_is_Some_2 l i Hi) as [x Hx]. exists x.
  unfold vec_alter. by rewrite Hx.
Qed.

(** Overwriting a slot changes what is seen there only. *)
Lemma lookup_alter_slot {A} (l : list A) i s (f : A -> A) j t :
  l !! i = Some s ->
  <[i := f s]> l !! j = Some t <-> (j = i /\ t = f s) \/ (j <> i /\ l !! j = Some t).
Proof.
  intros Hs. pose proof (lookup_lt_Some _ _ _ Hs). destruct (decide (j = i)) as [->|Hne].
  - rewrite list_lookup_insert_eq by done. naive_solver.
  - rewrite list_lookup_insert_ne by done. naive_solver.
Qed.

Lemma Forall_alter_slot {A} (P : A -> Prop) (l : list A) i s f :
  l !! i = Some s -> (P s -> P (f s)) -> Forall P l -> Forall P (<[i := f s]> l).
Proof. intros Hs Hf Hl. apply Forall_insert; [done|]. by apply Hf, (Forall_lookup_1 _ _ _ _ Hl Hs). Qed.

(** [f] changes neither the flag nor the paths of a slot. *)
Definition keeps_flags (f : MatchPathSlot -> MatchPathSlot) : Prop :=
  forall s, optional (f s) = optional s /\ paths (f s) = paths s.

Lemma keeps_flags_alter f l i s :
  keeps_flags f -> l !! i = Some s ->
  (forall opts, flags_ok opts l -> flags_ok opts (<[i := f s]> l)) /\
  (forall k, paths_below k l -> paths_below k (<[i := f s]> l)).
Proof.
  intros Hf Hs. destruct (Hf s) as [E1 E2].
  split; intros ?; apply Forall_alter_slot; try done; by rewrite ?E1, ?E2.
Qed.

Lemma push_out_edges l i s j :
  l !! i = Some s ->
  (forall a b, out_of (<[i := push_out j s]> l) a b <-> out_of l a b \/ (a = i /\ b = j)) /\
  (forall a b, in_of (<[i := push_out j s]> l) a b <-> in_of l a b).
Proof.
  intros Hs. unfold out_of, in_of. split; intros a b;
    setoid_rewrite (lookup_alter_slot l i s (push_out j)); try done; cbn.
  - split.
    + intros (t & [[-> ->]|[Hne Ht]] & Hb); cbn in *; [set_solver|eauto].
    + intros [(t & Ht & Hb)|[-> ->]].
      * destruct (decide (a = i)) as [->|]; [|eauto].
        exists (push_out j t). simplify_eq. cbn. set_solver.
      * exists (push_out j s). cbn. set_solver.
  - split.
    + intros (t & [[-> ->]|[Hne Ht]] & Hb); cbn in *; eauto.
    + intros (t & Ht & Hb). destruct (decide (a = i)) as [->|]; [|eauto].
      exists (push_out j t). simplify_eq. cbn. set_solver.
Qed.

Lemma push_in_edges l i s j :
  l !! i = Some s ->
  (forall a b, in_of (<[i := push_in j s]> l) a b <-> in_of l a b \/ (a = i /\ b = j)) /\
  (forall a b, out_of (<[i := push_in j s]> l) a b <-> out_of l a b).
Proof.
  intros Hs. unfold out_of, in_of. split; intros a b;
    setoid_rewrite (lookup_alter_slot l i s (push_in j)); try done; cbn.
  - split.
    + intros (t & [[-> ->]|[Hne Ht]] & Hb); cbn in *; [set_solver|eauto].
    + intros [(t & Ht & Hb)|[-> ->]].
      * destruct (decide (a = i)) as [->|]; [|eauto].
        exists (push_in j t). simplify_eq. cbn. set_solver.
      * exists (push_in j s). cbn. set_solver.
  - split.
    + intros (t & [[-> ->]|[Hne Ht]] & Hb); cbn in *; eauto.
    + intros (t & Ht & Hb). destruct (decide (a = i)) as [->|]; [|eauto].
      exists (push_in j t). simplify_eq. cbn. set_solver.
Qed.

(** What an operation on the slots may rely on and must keep. *)
Definition slots_step (l l' : list MatchPathSlot) : Prop :=
  length l' = length l /\ (edges_ok l -> edges_ok l') /\
  (forall opts, flags_ok opts l -> flags_ok opts l') /\
  (forall k, paths_below k l -> paths_below k l').

#[export] Instance slots_step_trans : Transitive slots_step.
Proof. intros l1 l2 l3 (? & ? & ? & ?) (? & ? & ? & ?). split; [congruence|]. naive_solver. Qed.

Lemma add_edge_ok {E} from to l :
  (from < length l)%nat -> (to < length l)%nat ->
  exists l', add_edge (E:=E) from to l = Ok l' /\ slots_step l l'.
Proof.
  intros Hf Ht. unfold add_edge.
  destruct (vec_alter_Ok (E:=E) from (push_out to) l Hf) as (s & Hs & ->). cbn.
  destruct (vec_alter_Ok (E:=E) to (push_in from) (<[from := push_out to s]> l)) as (t & Hs' & ->).
  { by rewrite length_insert. }
  eexists. split; [done|]. unfold slots_step. rewrite !length_insert. split; [done|].
  destruct (push_out_edges l from s to Hs) as [O1 I1].
  destruct (push_in_edges _ to t from Hs') as [I2 O2].
  destruct (keeps_flags_alter (push_out to) l from s) as [F1 P1]; [done..|].
  destruct (keeps_flags_alter (push_in from) (<[from := push_out to s]> l) to t) as [F2 P2]; [done..|].
  split; [|by split; auto].
  intros He i j. rewrite O2, I2, O1, I1, (He i j). naive_solver.
Qed.

Lemma link_hop_ok {E} d prev rel node l :
  (prev < length l)%nat -> (rel < length l)%nat -> (node < length l)%nat ->
  exists l', link_hop (E:=E) d prev rel node l = Ok l' /\ slots_step l l'.
Proof.
  intros Hp Hr Hn.
  assert (Hstep : forall a b k, slots_step l k -> (a < length l)%nat -> (b < length l)%nat ->
    exists k', add_edge (E:=E) a b k = Ok k' /\ slots_step l k').
  { intros a b k Hk Ha Hb. pose proof Hk as [Hlen _].
    destruct (add_edge_ok (E:=E) a b k) as (k' & -> & Hk'); [lia..|]. exists k'. split; [done|].
    by transitivity k. }
  assert (Hl : slots_step l l) by done.
  destruct d; cbn [link_hop];
    repeat match goal with
    | H : slots_step l ?k |- context [add_edge ?a ?b ?k] =>
        destruct (Hstep a b k H ltac:(lia) ltac:(lia)) as (? & -> & ?); cbn; clear H
    end; eauto.
Qed.

Lemma Forall_snoc_slot {A} (P : A -> Prop) l x : Forall P l -> P x -> Forall P (l ++ [x]).
Proof. intros. apply Forall_app. by repeat constructor. Qed.

Lemma snoc_edges l sp p o :
  edges_ok l -> edges_ok (l ++ [new_slot sp p o]).
Proof.
  intros He i j.
  assert (Hout : out_of (l ++ [new_slot sp p o]) i j <-> out_of l i j).
  { unfold out_of. split; intros (s & Hs & Hj); [|exists s; split; [by apply lookup_app_l_Some|done]].
    apply lookup_app_Some in Hs as [Hs|[_ Hs]]; [eauto|].
    apply list_lookup_singleton_Some in Hs as [_ <-]. cbn in Hj. set_solver. }
  assert (Hin : in_of (l ++ [new_slot sp p o]) j i <-> in_of l j i).
  { unfold in_of. split; intros (s & Hs & Hj); [|exists s; split; [by apply lookup_app_l_Some|done]].
    apply lookup_app_Some in Hs as [Hs|[_ Hs]]; [eauto|].
    apply list_lookup_singleton_Some in Hs as [_ <-]. cbn in Hj. set_solver. }
  rewrite Hout, Hin. apply He.
Qed.

(** The invariant while path [p], of kind [o], is being added. *)
Definition adding_ok (opts : gset nat) (p : nat) (o : bool) (b : Builder) : Prop :=
  builder_ok opts (S p) b /\ (o = true <-> p ∈ opts).

Lemma merge_match_ok {E} sp p o opts b :
  adding_ok opts p o b ->
  exists n b', merge_match (E:=E) sp p o b = Ok (n, b') /\ adding_ok opts p o b' /\
    (n < length (b_slots b'))%nat /\ (length (b_slots b) <= length (b_slots b'))%nat.
Proof.
  intros [[He Hf Hp Ha] Ho].
  assert (Hfresh : forall am, (forall a n, am !! a = Some n -> (n < S (length (b_slots b)))%nat) ->
    adding_ok opts p o {| b_slots := b_slots b ++ [new_slot sp p o]; alias_map := am |}).
  { intros am Ham. split; [|done]. split; cbn.
    - by apply snoc_edges.
    - apply Forall_snoc_slot; [done|]. cbn. rewrite Ho. set_solver.
    - apply Forall_snoc_slot; [done|]. cbn. intros q ->%elem_of_singleton. lia.
    - intros a n Hn. cbn. rewrite length_app. cbn. specialize (Ham _ _ Hn). lia. }
  unfold merge_match. destruct (annotation sp) as [alias|].
  2: { eexists _, _. split; [done|]. split; [|cbn; rewrite length_app; cbn; lia].
       apply Hfresh. intros a n Hn. specialize (Ha _ _ Hn). lia. }
  destruct (alias_map b !! alias) as [n|] eqn:Hal.
  2: { eexists _, _. split; [done|]. split; [|cbn; rewrite length_app; cbn; lia].
       apply Hfresh. intros a n. rewrite lookup_insert. case_decide; [naive_solver lia|].
       intros Hn. specialize (Ha _ _ Hn). lia. }
  destruct (vec_alter_Ok (E:=E) n (join_path p o) (b_slots b) (Ha _ _ Hal)) as (s & Hs & ->).
  cbn. eexists _, _. split; [done|]. cbn. rewrite length_insert.
  split; [|by split; [eapply Ha|lia]]. split; [|done].
  assert (Hlk : forall (f : MatchPathSlot -> list nat) i j,
    f (join_path p o s) = f s ->
    (exists t, <[n := join_path p o s]> (b_slots b) !! i = Some t /\ j ∈ f t) <->
    (exists t, b_slots b !! i = Some t /\ j ∈ f t)).
  { intros f i j Hfs. setoid_rewrite (lookup_alter_slot (b_slots b) n s (join_path p o)); [|done].
    split; [intros (t & [[-> ->]|[_ Ht]] & Hj); [rewrite Hfs in Hj|]; eauto|].
    intros (t & Ht & Hj). destruct (decide (i = n)) as [->|]; [|eauto].
    rewrite Hs in Ht. injection Ht as <-. exists (join_path p o s). rewrite Hfs. eauto. }
  split; cbn.
  - intros i j. unfold out_of, in_of. rewrite (Hlk out_slots), (Hlk in_slots) by done. apply He.
  - apply (Forall_alter_slot _ _ _ s (join_path p o)); [done| |done]. cbn.
    intros IH. rewrite andb_true_iff, IH, Ho. set_solver.
  - apply (Forall_alter_slot _ _ _ s (join_path p o)); [done| |done]. cbn.
    intros IH q [->%elem_of_singleton|Hq]%elem_of_union; [lia|by apply IH].
  - intros a m. cbn. rewrite length_insert. apply Ha.
Qed.

Lemma add_hop_ok {E} opts p o prev b hop :
  adding_ok opts p o b -> (prev < length (b_slots b))%nat ->
  exists n b', add_hop (E:=E) p o (prev, b) hop = Ok (n, b') /\ adding_ok opts p o b' /\
    (n < length (b_slots b'))%nat.
Proof.
  intros Hb Hprev. unfold add_hop, merge_relation_match, merge_node_match.
  destruct (merge_match_ok (E:=E) (from_relation_match hop.1) p o opts b Hb)
    as (r & b1 & -> & Hb1 & Hr & L1). cbn.
  destruct (merge_match_ok (E:=E) (from_node_match hop.2) p o opts b1 Hb1)
    as (n & b2 & -> & [[He Hf Hp Ha] Ho] & Hn & L2). cbn.
  destruct (link_hop_ok (E:=E) (rel_direction hop.1) prev r n (b_slots b2))
    as (l & -> & Hlen & Se & Sf & Sp); [lia..|]. cbn.
  eexists _, _. split; [done|]. cbn. split; [|lia]. split; [|done]. split; cbn; auto.
  intros a m Hm. cbn. rewrite Hlen. by eapply Ha.
Qed.

Lemma add_hops_ok {E} opts p o hops prev b :
  adding_ok opts p o b -> (prev < length (b_slots b))%nat ->
  exists n b', out_foldl (add_hop (E:=E) p o) (prev, b) hops = Ok (n, b') /\ adding_ok opts p o b'.
Proof.
  revert prev b. induction hops as [|h hops IH]; intros prev b Hb Hprev; cbn [out_foldl]; [eauto|].
  destruct (add_hop_ok (E:=E) opts p o prev b h Hb Hprev) as (n & b' & -> & Hb' & Hn). cbn. eauto.
Qed.

(** The invariant between two clauses. *)
Definition between_ok (opts : gset nat) (k : nat) (b : Builder) : Prop :=
  builder_ok opts k b /\ (forall q, q ∈ opts -> (q < k)%nat).

Lemma add_clause_ok {E} opts k b mc :
  between_ok opts k b ->
  exists b' opts', add_clause (E:=E) (b, opts) (k, mc) = Ok (b', opts') /\
    between_ok opts' (S k) b' /\
    (forall q, q ∈ opts' <-> q ∈ opts \/ (q = k /\ mc_optional mc = true)).
Proof.
  intros [[He Hf Hp Ha] Hk]. unfold add_clause, merge_node_match. cbn [fst snd].
  set (opts' := if mc_optional mc then {[k]} ∪ opts else opts).
  assert (Hopts : forall q, q ∈ opts' <-> q ∈ opts \/ (q = k /\ mc_optional mc = true))
    by (intros q; unfold opts'; destruct (mc_optional mc); set_solver).
  assert (Hnew : adding_ok opts' k (mc_optional mc) b).
  { split; [|rewrite Hopts; split; [by right|]; intros [?%Hk|[_ ?]]; [lia|done]].
    unfold flags_ok, paths_below in *. rewrite Forall_forall in Hf, Hp.
    split; [done| |..|done]; apply Forall_forall; intros s Hs.
    - rewrite (Hf s Hs). specialize (Hp s Hs). setoid_rewrite Hopts.
      split; [eauto|]. intros Hq q Hqs. specialize (Hp q Hqs).
      destruct (Hq q Hqs) as [?|[? _]]; [done|lia].
    - intros q Hq. specialize (Hp s Hs q Hq). lia. }
  destruct (merge_match_ok (E:=E) (from_node_match (mc_start mc)) _ _ _ b Hnew)
    as (n & b1 & -> & Hb1 & Hn & _). cbn.
  destruct (add_hops_ok (E:=E) _ _ _ (mc_path mc) n b1 Hb1 Hn) as (n' & b2 & -> & [Hb2 _]). cbn.
  eexists _, _. split; [done|]. split; [|done]. split; [done|].
  intros q [?%Hk|[-> _]]%Hopts; lia.
Qed.

Lemma add_clauses_ok {E} l k b opts :
  between_ok opts k b ->
  exists b' opts',
    out_foldl (add_clause (E:=E)) (b, opts) (zip (seq k (length l)) l) = Ok (b', opts') /\
    between_ok opts' (k + length l) b' /\
    (forall q, q ∈ opts' <-> q ∈ opts \/ (k <= q)%nat /\ exists mc, l !! (q - k)%nat = Some mc /\ mc_optional mc = true).
Proof.
  revert k b opts. induction l as [|mc l IH]; intros k b opts Hb;
    cbn [length seq zip_with out_foldl].
  { exists b, opts. rewrite Nat.add_0_r. split; [done|]. split; [done|]. naive_solver. }
  destruct (add_clause_ok (E:=E) opts k b mc Hb) as (b1 & o1 & -> & Hb1 & Hq1). cbn.
  destruct (IH (S k) b1 o1 Hb1) as (b2 & o2 & -> & Hb2 & Hq2).
  exists b2, o2. split; [done|]. split; [by replace (k + S (length l))%nat with (S k + length l)%nat by lia|].
  intros q. rewrite Hq2, Hq1. split.
  - intros [[?|[-> Ho]]|[Hle (m & Hm & Ho)]]; [by left|right..].
    + split; [lia|]. exists mc. by rewrite Nat.sub_diag.
    + split; [lia|]. exists m. by replace (q - k)%nat with (S (q - S k)) by lia.
  - intros [?|[Hle (m & Hm & Ho)]]; [by left; left|].
    destruct (decide (q = k)) as [->|]; [left; right|right].
    + rewrite Nat.sub_diag in Hm. cbn in Hm. naive_solver.
    + split; [lia|]. exists m. by replace (q - k)%nat with (S (q - S k)) in Hm by lia.
Qed.

(** ** The property *)


(** ** Rows for an optional match that is not found *)

Definition on_path (p : nat) (s : MatchPathSlot) : bool := optional s && bool_decide (p ∈ paths s).
Definition blanked (anchor p : nat) (e : nat * MatchPathSlot) : Prop :=
  on_path p e.2 = true /\ (e.1 = anchor \/ (size (paths e.2) <= 1)%nat).

Lemma path_optional_slots_spec anchor p empty l acc :
  match path_optional_slots anchor p empty l acc with
  | None => exists e, e ∈ l /\ on_path p e.2 = true /\ e.1 ∈ empty
  | Some r =>
      (forall e, e ∈ l -> on_path p e.2 = true -> e.1 ∉ empty) /\
      (forall n, n ∈ r <-> n ∈ acc \/ exists e, e ∈ l /\ e.1 = n /\ blanked anchor p e)
  end.
Proof.
  revert acc. induction l as [|[n s] l IH]; intros acc; cbn [path_optional_slots].
  { split; [set_solver|]. intros n. split; [by left|]. intros [?|(e & He & _)]; [done|set_solver]. }
  fold (on_path p s). destruct (on_path p s) eqn:Hon.
  2: { specialize (IH acc). destruct (path_optional_slots _ _ _ _ _) as [r|].
       - destruct IH as [H1 H2]. split.
         + intros e [->|He]%elem_of_cons; [cbn; congruence|by apply H1].
         + intros m. rewrite H2. apply or_iff_compat_l. split; intros (e & He & Hm & Hb).
           * exists e. set_solver.
           * apply elem_of_cons in He as [->|He]; [|eauto]. destruct Hb as [Hb _]. cbn in Hb. congruence.
       - destruct IH as (e & He & ?). exists e. split; [by right|done]. }
  destruct (bool_decide (n ∈ empty)) eqn:Hem.
  { apply bool_decide_eq_true in Hem. exists (n, s). set_solver. }
  apply bool_decide_eq_false in Hem.
  destruct (negb (Nat.eqb n anchor) && Nat.ltb 1 (size (paths s))) eqn:Hskip.
  - apply andb_prop in Hskip as [Hn%negb_true_iff%Nat.eqb_neq Hsz%Nat.ltb_lt].
    specialize (IH acc). destruct (path_optional_slots _ _ _ _ _) as [r|];
      [|destruct IH as (e & He & ?); exists e; split; [by right|done]].
    destruct IH as [H1 H2]. split; [intros e [->|He]%elem_of_cons; [done|by apply H1]|].
    intros m. rewrite H2. apply or_iff_compat_l. split; intros (e & He & Hm & Hb).
    + exists e. set_solver.
    + apply elem_of_cons in He as [->|He]; [|eauto]. destruct Hb as [_ Hb]; cbn in Hb. lia.
  - assert (Hsel : n = anchor \/ (size (paths s) <= 1)%nat).
    { apply andb_false_iff in Hskip as [Hn%negb_false_iff%Nat.eqb_eq|Hsz%Nat.ltb_ge]; [by left|by right]. }
    specialize (IH ({[n]} ∪ acc)). destruct (path_optional_slots _ _ _ _ _) as [r|];
      [|destruct IH as (e & He & ?); exists e; split; [by right|done]].
    destruct IH as [H1 H2]. split; [intros e [->|He]%elem_of_cons; [done|by apply H1]|].
    intros m. rewrite H2, elem_of_union, elem_of_singleton. split.
    + intros [[->|Hm]|(e & He & Hm & Hb)]; [right; exists (n, s)|by left|right; exists e].
      * split; [by left|]. done.
      * split; [by right|]. done.
    + intros [Hm|(e & [->|He]%elem_of_cons & Hm & Hb)]; [by left; right|by left; left|by right; eauto].
Qed.

Lemma elem_of_fold_union {A} (f : A -> gset nat) l acc n :
  n ∈ fold_left (fun acc a => acc ∪ f a) l acc <-> n ∈ acc \/ exists a, a ∈ l /\ n ∈ f a.
Proof.
  revert acc. induction l as [|a l IH]; intros acc; cbn.
  { split; [by left|]. intros [?|(a & Ha & _)]; [done|set_solver]. }
  rewrite IH, elem_of_union. split.
  - intros [[?|?]|(b & Hb & ?)]; [by left|right; exists a; set_solver|right; exists b; set_solver].
  - intros [?|(b & [->|Hb]%elem_of_cons & ?)]; [by left; left|by left; right|right; eauto].
Qed.

(** The slots blanked when an optional pattern loses its match are exactly
    the optional slots of those paths of the anchor that have no empty slot yet,
    keeping the slots shared with other paths (other than the anchor itself). *)
Theorem get_optional_slots_spec {E} mp anchor s empty :
  slots mp !! anchor = Some s ->
  exists r, get_optional_slots_on_common_paths (E:=E) mp anchor empty = Ok r /\
  forall n, n ∈ r <->
    exists t p, slots mp !! n = Some t /\ p ∈ paths s /\
      optional t = true /\ p ∈ paths t /\ (n = anchor \/ (size (paths t) <= 1)%nat) /\
      (forall m u, slots mp !! m = Some u -> optional u = true -> p ∈ paths u -> m ∉ empty).
Proof.
  intros Hs. unfold get_optional_slots_on_common_paths. rewrite Hs. eexists. split; [done|].
  intros n. rewrite elem_of_fold_union.
  assert (Hon : forall p t, on_path p t = true <-> optional t = true /\ p ∈ paths t)
    by (intros; unfold on_path; by rewrite andb_true_iff, bool_decide_eq_true).
  split.
  - intros [?|(p & Hp%elem_of_elements & Hn)]; [set_solver|].
    pose proof (path_optional_slots_spec anchor p empty (enumerate (slots mp)) ∅) as Hspec.
    destruct (path_optional_slots _ _ _ _ _) as [r|]; cbn in Hn; [|set_solver].
    destruct Hspec as [H1 H2].
    apply H2 in Hn as [?|([m t] & Ht%elem_of_enumerate & <- & [Hop Hsz])]; [set_solver|].
    cbn in *. apply Hon in Hop as [Ho Hpt]. exists t, p. repeat split; try done.
    intros k u Hu Hou Hpu. apply (H1 (k, u)); [by apply elem_of_enumerate|]. by apply Hon.
  - intros (t & p & Ht & Hp & Ho & Hpt & Hsz & Hall). right. exists p.
    split; [by apply elem_of_elements|].
    pose proof (path_optional_slots_spec anchor p empty (enumerate (slots mp)) ∅) as Hspec.
    destruct (path_optional_slots _ _ _ _ _) as [r|]; cbn.
    + destruct Hspec as [H1 H2]. apply H2. right. exists (n, t).
      split; [by apply elem_of_enumerate|]. split; [done|]. split; [by apply Hon|done].
    + destruct Hspec as ([m u] & Hu%elem_of_enumerate & [Hou Hpu]%Hon & Hem). by eapply Hall in Hem.
Qed.

Definition sample_slot (i o : list nat) (p : nat) (opt : bool) : MatchPathSlot :=
  {| spec := {| annotation := None; spec_labels := []; predicates := [] |};
     in_slots := i; out_slots := o; paths := {[p]}; optional := opt |}.

Definition sample_path : MatchPath :=
  {| slots := [sample_slot [] [1%nat] 0 false; sample_slot [0%nat] [2%nat] 1 true;
               sample_slot [1%nat] [] 1 true];
     optional_paths := {[1%nat]} |}.

Example get_optional_slots_spec_witness :
  exists r, get_optional_slots_on_common_paths (E:=unit) sample_path 1 ∅ = Ok r /\ 2%nat ∈ r.
Proof.
  destruct (get_optional_slots_spec (E:=unit) sample_path 1 (sample_slot [0%nat] [2%nat] 1 true) ∅ eq_refl)
    as (r & Hr & Hspec).
  exists r. split; [exact Hr|]. apply Hspec.
  exists (sample_slot [1%nat] [] 1 true), 1%nat. cbn. rewrite size_singleton. set_solver.
Defined.
