(* ===== verification/Solver.v ===== *)
(** * Path solver (core/src/path_solver/solution.rs and path_solver/mod.rs)

    Starting from the element that changed, pinned to one slot, the solver
    walks the slot graph through the element index and produces every
    assignment of elements to slots it can reach.  The stream of partial
    solutions that the asynchronous code drives over a channel is the explicit
    queue of commands of [run]. *)

From S2P Require Import Prelude BTree Floats Hashing Ast Models Errors Values MatchPath.

(** The elements each adjacent slot may hold. *)
Notation alternatives := (gmap nat (list (option Element))).

Section solver.
Context {C : Chrono} {H : Hashers}.

(** ** Partial solutions (solution.rs) *)

Record MatchPathSolution := {
  solved_slots : btree nat (option Element);
  total_slots : nat;
  queued_slots : list bool;
  slot_cursors : list (nat * option Element);
  solution_signature : option Z;
  anchor_slot : nat;
}.

Definition new_solution (total anchor : nat) : MatchPathSolution :=
  {| solved_slots := []; total_slots := total; queued_slots := replicate total false;
     slot_cursors := []; solution_signature := None; anchor_slot := anchor |}.

Definition solved_hash (m : btree nat (option Element)) : list hwrite :=
  concat (map (fun e => hash_usize e.1 ++
                 match e.2 with
                 | Some v => hash_str (source_id (get_reference v)) ++
                             hash_str (element_id (get_reference v))
                 | None => hash_i32 0
                 end) m).

Definition mark_slot_solved (slot_num : nat) (value : option Element) (s : MatchPathSolution) :
    MatchPathSolution :=
  let solved := bt_insert slot_num value (solved_slots s) in
  {| solved_slots := solved; total_slots := total_slots s;
     queued_slots := queued_slots s; slot_cursors := slot_cursors s;
     solution_signature :=
       if Nat.eqb (length solved) (total_slots s) then Some (spooky (solved_hash solved))
       else solution_signature s;
     anchor_slot := anchor_slot s |}.

Definition enqueue_slot {E} (slot_num : nat) (value : option Element) (s : MatchPathSolution) :
    outcome E MatchPathSolution :=
  match queued_slots s !! slot_num with
  | None => Panic
  | Some true => Ok s
  | Some false =>
      Ok {| solved_slots := solved_slots s; total_slots := total_slots s;
            queued_slots := <[slot_num := true]> (queued_slots s);
            slot_cursors := slot_cursors s ++ [(slot_num, value)];
            solution_signature := solution_signature s; anchor_slot := anchor_slot s |}
  end.

Definition is_slot_solved (s : MatchPathSolution) (slot_num : nat) : bool :=
  bt_contains slot_num (solved_slots s).

(** [slot_cursors.pop_front()] *)
Definition pop_cursor (s : MatchPathSolution) (rest : list (nat * option Element)) :
    MatchPathSolution :=
  {| solved_slots := solved_slots s; total_slots := total_slots s;
     queued_slots := queued_slots s; slot_cursors := rest;
     solution_signature := solution_signature s; anchor_slot := anchor_slot s |}.

(** The row that stands for "the optional match disappeared". *)
Definition get_empty_optional_solution {E} (mp : MatchPath) (s : MatchPathSolution) :
    outcome E (option MatchPathSolution) :=
  match slots mp !! anchor_slot s with
  | None => Panic
  | Some slot =>
      if negb (optional slot) then Ok None
      else if negb (Nat.eqb (length (solved_slots s)) (total_slots s)) then Ok None
      else
        let empty_slots : gset nat :=
          list_to_set (map fst (List.filter (fun e => match e.2 with None => true | _ => false end)
                                  (solved_slots s))) in
        opt_slots ← get_optional_slots_on_common_paths mp (anchor_slot s) empty_slots;
        let removed := fold_left (fun m n => bt_remove n m) (elements opt_slots) (solved_slots s) in
        let base := {| solved_slots := removed; total_slots := total_slots s;
                       queued_slots := queued_slots s; slot_cursors := slot_cursors s;
                       solution_signature := None; anchor_slot := anchor_slot s |} in
        Ok (Some (fold_left (fun r n => mark_slot_solved n None r) (elements opt_slots) base))
  end.

Definition into_query_variables (mp : MatchPath) (s : MatchPathSolution)
    (base : QueryVariables) : QueryVariables :=
  fold_left (fun acc e =>
    match bt_get e.1 (solved_slots s), annotation (spec e.2) with
    | Some element, Some name =>
        bt_insert name (match element with Some v => VElement v | None => VNull end) acc
    | _, _ => acc
    end) (enumerate (slots mp)) base.

(** ** What the solver reads of the element index *)

Class SlotIndex := {
  get_slot_element_by_ref : nat -> ElementReference -> outcome IndexError (option Element);
  get_slot_elements_by_inbound : nat -> ElementReference -> outcome IndexError (list Element);
  get_slot_elements_by_outbound : nat -> ElementReference -> outcome IndexError (list Element);
}.

Inductive SolveDirection := Outward | Inward.

Definition get_adjacent_elements (idx : SlotIndex) (e : Element) (target_slot : nat)
    (d : SolveDirection) : outcome IndexError (list Element) :=
  match e with
  | Node m _ =>
      match d with
      | Outward => get_slot_elements_by_inbound target_slot (reference m)
      | Inward => get_slot_elements_by_outbound target_slot (reference m)
      end
  | Relation _ in_node out_node _ =>
      let adjacent_ref := match d with Outward => out_node | Inward => in_node end in
      o ← get_slot_element_by_ref target_slot adjacent_ref;
      Ok (option_list o)
  end.

(** ** Extending a partial solution (mod.rs, try_complete_solution) *)

Definition collect_slot (idx : SlotIndex) (mp : MatchPath) (sol : MatchPathSolution)
    (element : option Element) (d : SolveDirection) (alt : alternatives) (n : nat) :
    outcome EvaluationError alternatives :=
  if is_slot_solved sol n then Ok alt
  else
    found ← match element with
            | Some e => map_err EvalIndexError (get_adjacent_elements idx e n d)
            | None => Ok []
            end;
    match slots mp !! n with
    | None => Panic
    | Some s =>
        let v := default [] (alt !! n) ++ map Some found in
        Ok (<[n := if optional s && Nat.eqb (length found) 0 then v ++ [None] else v]> alt)
    end.

Definition collect_alternatives (idx : SlotIndex) (mp : MatchPath) (sol : MatchPathSolution)
    (slot : MatchPathSlot) (element : option Element) : outcome EvaluationError alternatives :=
  alt ← out_foldl (collect_slot idx mp sol element Outward) ∅ (out_slots slot);
  out_foldl (collect_slot idx mp sol element Inward) alt (in_slots slot).

(** A slot with one candidate is queued, one with several gets a pointer. *)
Definition enqueue_single (sol : MatchPathSolution) (e : nat * list (option Element)) :
    outcome EvaluationError MatchPathSolution :=
  match e.2 with
  | [x] => enqueue_slot e.1 x sol
  | _ => Ok sol
  end.

Definition open_slots (alt : alternatives) : btree nat (list (option Element)) :=
  fold_left (fun m e => if Nat.ltb 1 (length e.2) then bt_insert e.1 e.2 m else m)
    (map_to_list alt) [].

(** The pointers form an odometer over the candidate lists. *)
Fixpoint bump (p : list (nat * nat * list (option Element))) :
    option (list (nat * nat * list (option Element))) :=
  match p with
  | [] => None
  | (n, i, l) :: p =>
      if Nat.ltb i (length l - 1) then Some ((n, S i, l) :: p)
      else match bump p with
           | Some p' => Some ((n, O, l) :: p')
           | None => None
           end
  end.

Definition choose (sol : MatchPathSolution) (p : list (nat * nat * list (option Element))) :
    outcome EvaluationError MatchPathSolution :=
  out_foldl (fun s e => match e.2 !! e.1.2 with
                        | Some x => enqueue_slot e.1.1 x s
                        | None => Ok s
                        end) sol p.

Fixpoint choices (fuel : nat) (sol : MatchPathSolution)
    (p : list (nat * nat * list (option Element))) :
    outcome EvaluationError (list MatchPathSolution) :=
  match fuel with
  | O => Panic
  | S fuel =>
      a ← choose sol p;
      match bump p with
      | None => Ok [a]
      | Some p' => rest ← choices fuel sol p'; Ok (a :: rest)
      end
  end.

(** As many choices as there are combinations of candidates. *)
Definition combinations (l : list (nat * list (option Element))) : nat :=
  fold_right (fun e n => (length e.2 * n)%nat) 1%nat l.

Inductive Command :=
| Partial (s : MatchPathSolution)
| Complete (hash : Z) (s : MatchPathSolution)
| SolveError (e : EvaluationError)
| Unsolvable.

(** The commands one call of [try_complete_solution] sends. *)
Fixpoint try_complete (fuel : nat) (idx : SlotIndex) (mp : MatchPath) (sol : MatchPathSolution) :
    outcome EvaluationError (list Command) :=
  match fuel with
  | O => Panic
  | S fuel =>
      match slot_cursors sol with
      | [] => Ok [Unsolvable]
      | (slot_num, element) :: rest =>
          let sol := mark_slot_solved slot_num element (pop_cursor sol rest) in
          match solution_signature sol with
          | Some hash => Ok [Complete hash sol]
          | None =>
              match slots mp !! slot_num with
              | None => Panic
              | Some slot =>
                  match collect_alternatives idx mp sol slot element with
                  | Panic => Panic
                  | Err e => Ok [SolveError e]
                  | Ok alt =>
                      sol ← out_foldl enqueue_single sol (map_to_list alt);
                      match open_slots alt with
                      | [] => try_complete fuel idx mp sol
                      | open =>
                          alts ← choices (combinations open) sol
                                   (map (fun e => (e.1, O, e.2)) open);
                          more ← try_complete fuel idx mp sol;
                          Ok (map Partial alts ++ more)
                      end
                  end
              end
          end
      end
  end.

(** ** The command loop (create_solution_stream) and [solve] *)

Fixpoint run (fuel : nat) (idx : SlotIndex) (mp : MatchPath) (queue : list Command)
    (inflight : Z) (result : gmap Z MatchPathSolution) : outcome EvaluationError (gmap Z MatchPathSolution) :=
  match fuel with
  | O => Panic
  | S fuel =>
      match queue with
      | [] => Ok result
      | cmd :: queue =>
          '(queue, inflight, result) ←
            match cmd with
            | Partial s =>
                sent ← try_complete (S (length (slots mp))) idx mp s;
                Ok (queue ++ sent, inflight + 1, result)
            | Complete hash s => Ok (queue, inflight - 1, <[hash := s]> result)
            | SolveError e => Err e
            | Unsolvable => Ok (queue, inflight - 1, result)
            end;
          if inflight =? 0 then Ok result else run fuel idx mp queue inflight result
      end
  end.

Definition solve (fuel : nat) (idx : SlotIndex) (mp : MatchPath) (anchor_element : Element)
    (anchor : nat) : outcome EvaluationError (gmap Z MatchPathSolution) :=
  start ← enqueue_slot anchor (Some anchor_element) (new_solution (length (slots mp)) anchor);
  run fuel idx mp [Partial start] 0 ∅.
End solver.

(** ** A cyclic pattern *)

Section cycle.
#[local] Existing Instance Sample.chrono.
#[local] Existing Instance Sample.hashers.

Definition ref (i : string) : ElementReference := {| source_id := "s"; element_id := i |}.
Definition meta (i : string) : ElementMetadata :=
  {| reference := ref i; labels := []; effective_from := 0 |}.
Definition node (i : string) : Element := Node (meta i) [].
Definition rel (i a b : string) : Element := Relation (meta i) (ref a) (ref b) [].

(** An index over a list of elements with the slots they have affinity to. *)
Definition ref_eqb (a b : ElementReference) : bool := bool_decide (a = b).
Definition select (l : list (nat * Element)) (p : nat -> Element -> bool) : list Element :=
  map snd (List.filter (fun e => p e.1 e.2) l).

Definition list_index (l : list (nat * Element)) : SlotIndex := {|
  get_slot_element_by_ref slot r :=
    Ok (head (select l (fun s e => Nat.eqb s slot && ref_eqb (get_reference e) r)));
  get_slot_elements_by_inbound slot r :=
    Ok (select l (fun s e => Nat.eqb s slot &&
          match e with Relation _ i _ _ => ref_eqb i r | _ => false end));
  get_slot_elements_by_outbound slot r :=
    Ok (select l (fun s e => Nat.eqb s slot &&
          match e with Relation _ _ o _ => ref_eqb o r | _ => false end)) |}.

(** [MATCH (a)-[r]->(b), (b)-[s]->(c), (c)-[t]->(a)] *)
Definition triangle : MatchPath :=
  let slot name i o := {| spec := {| annotation := Some name; spec_labels := []; predicates := [] |};
                          in_slots := [i]; out_slots := [o]; paths := {[0%nat]}; optional := false |} in
  {| slots := [slot "a" 5 1; slot "r" 0 2; slot "b" 1 3; slot "s" 2 4; slot "c" 3 5; slot "t" 4 0]%nat;
     optional_paths := ∅ |}.

(** a1 -r1-> b1 -s1-> c2 and c1 -t1-> a1: the ends [c1] and [c2] differ. *)
Definition open_graph : SlotIndex := list_index
  [(0, node "a1"); (2, node "b1"); (4, node "c1"); (4, node "c2");
   (1, rel "r1" "a1" "b1"); (3, rel "s1" "b1" "c2"); (5, rel "t1" "c1" "a1")]%nat.
End cycle.
