(* ===== verification/SolverFacts.v ===== *)
(** * Correctness of the path solver

    The invariant of a partial solution, the termination of the command loop
    and the soundness of the solutions it yields, and what happens on a cyclic
    pattern. *)

From S2P Require Import Prelude BTree Floats Hashing Ast Models Errors Values MatchPath Solver.

(** Slots only point inside the graph: [from_query] builds such graphs. *)
Definition slots_closed (mp : MatchPath) : Prop :=
  forall i s j, slots mp !! i = Some s -> j ∈ out_slots s \/ j ∈ in_slots s ->
    (j < length (slots mp))%nat.

Section facts.
Context {C : Chrono} {H : Hashers}.

Definition index_total (idx : SlotIndex) : Prop :=
  (forall n r, get_slot_element_by_ref n r <> Panic) /\
  (forall n r, get_slot_elements_by_inbound n r <> Panic) /\
  (forall n r, get_slot_elements_by_outbound n r <> Panic).

Definition neighbours (d : SolveDirection) (s : MatchPathSlot) : list nat :=
  match d with Outward => out_slots s | Inward => in_slots s end.

(** What the index offers for slot [n] next to slot [p] holding [pv]: an
    adjacent element, or nothing when [n] is optional and there is none. *)
Definition offers (idx : SlotIndex) (mp : MatchPath) (p : nat) (pv : option Element)
    (n : nat) (v : option Element) : Prop :=
  exists d sp sn found,
    slots mp !! p = Some sp /\ n ∈ neighbours d sp /\ slots mp !! n = Some sn /\
    match pv with
    | Some e => get_adjacent_elements idx e n d = Ok found
    | None => found = []
    end /\
    match v with
    | Some e => e ∈ found
    | None => found = [] /\ optional sn = true
    end.

(** [reached m n v]: the value of slot [n] is derived from the anchor along
    slots that hold the values of [m]. *)
Inductive reached (idx : SlotIndex) (mp : MatchPath) (anchor : nat) (e : Element)
    (m : btree nat (option Element)) : nat -> option Element -> Prop :=
| reached_anchor : reached idx mp anchor e m anchor (Some e)
| reached_step p pv n v :
    bt_get p m = Some pv -> reached idx mp anchor e m p pv ->
    offers idx mp p pv n v -> reached idx mp anchor e m n v.

Lemma reached_mono idx mp a e m m' n v :
  (forall p pv, bt_get p m = Some pv -> bt_get p m' = Some pv) ->
  reached idx mp a e m n v -> reached idx mp a e m' n v.
Proof. intros Hm. induction 1; [constructor|econstructor; eauto]. Qed.

Definition unqueued (l : list bool) : nat := length (List.filter negb l).
(** Slots still to be solved on this branch; the loop's measure. *)
Definition pending (s : MatchPathSolution) : nat :=
  (length (slot_cursors s) + unqueued (queued_slots s))%nat.

Record sol_ok (idx : SlotIndex) (mp : MatchPath) (e : Element) (s : MatchPathSolution) : Prop := {
  so_total : total_slots s = length (slots mp);
  so_queued : length (queued_slots s) = length (slots mp);
  so_sorted : bt_sorted (solved_slots s);
  so_nodup : NoDup (map fst (slot_cursors s));
  so_open : forall n, n ∈ map fst (slot_cursors s) -> bt_get n (solved_slots s) = None;
  so_flag : forall n, n ∈ map fst (slot_cursors s) \/ bt_contains n (solved_slots s) = true <->
                      queued_slots s !! n = Some true;
  so_reached : forall n v, (n, v) ∈ slot_cursors s \/ bt_get n (solved_slots s) = Some v ->
                 reached idx mp (anchor_slot s) e (solved_slots s) n v;
  so_anchor : queued_slots s !! anchor_slot s = Some true /\
              forall v, (anchor_slot s, v) ∈ slot_cursors s \/
                        bt_get (anchor_slot s) (solved_slots s) = Some v -> v = Some e;
}.

Lemma sol_ok_below idx mp e s n v :
  sol_ok idx mp e s -> bt_get n (solved_slots s) = Some v -> (n < length (slots mp))%nat.
Proof.
  intros Hs Hn. rewrite <- (so_queued _ _ _ _ Hs). apply (lookup_lt_Some _ _ true).
  apply (so_flag _ _ _ _ Hs). right. unfold bt_contains. by rewrite Hn.
Qed.

(** A solution with as many entries as slots has one for every slot. *)
Lemma full_solution idx mp e s :
  sol_ok idx mp e s -> length (solved_slots s) = total_slots s ->
  forall n, (n < length (slots mp))%nat -> exists v, bt_get n (solved_slots s) = Some v.
Proof.
  intros Hs Hl n Hn. pose proof (so_sorted _ _ _ _ Hs) as Hb.
  assert (Hsub : map fst (solved_slots s) ⊆+ seq 0 (length (slots mp))).
  { apply NoDup_submseteq; [by apply bt_sorted_keys|].
    intros x ([y v] & -> & Hin)%list_elem_of_fmap. apply bt_get_elem in Hin; [|done].
    apply elem_of_seq. cbn. pose proof (sol_ok_below _ _ _ _ _ _ Hs Hin). lia. }
  apply submseteq_length_Permutation in Hsub.
  2: { rewrite length_seq, length_map. rewrite Hl. by rewrite (so_total _ _ _ _ Hs). }
  assert (Hin : n ∈ map fst (solved_slots s)) by (rewrite Hsub; apply elem_of_seq; lia).
  apply list_elem_of_fmap in Hin as ([x v] & -> & Hin). exists v. by apply bt_get_elem.
Qed.

Lemma unqueued_insert l n :
  l !! n = Some false -> unqueued l = S (unqueued (<[n := true]> l)).
Proof.
  unfold unqueued. revert n. induction l as [|b l IH]; intros [|n] Hn; [done|done|injection Hn as ->|].
  - done.
  - change ((b :: l) !! S n) with (l !! n) in Hn. destruct b; cbn; by rewrite (IH n).
Qed.

Lemma enqueue_slot_spec {E} idx mp e n v s :
  sol_ok idx mp e s -> (n < length (slots mp))%nat ->
  reached idx mp (anchor_slot s) e (solved_slots s) n v ->
  exists s', enqueue_slot (E:=E) n v s = Ok s' /\ sol_ok idx mp e s' /\ pending s' = pending s /\
    anchor_slot s' = anchor_slot s /\ solved_slots s' = solved_slots s /\
    solution_signature s' = solution_signature s.
Proof.
  intros Hs Hn Hr. unfold enqueue_slot. rewrite <- (so_queued _ _ _ _ Hs) in Hn.
  destruct (lookup_lt_is_Some_2 _ _ Hn) as [[] Hq]; rewrite Hq; [by eauto 8|].
  eexists. split; [done|].
  assert (Hnc : n ∉ map fst (slot_cursors s) /\ bt_contains n (solved_slots s) = false).
  { pose proof (so_flag _ _ _ _ Hs n) as Hf. rewrite Hq in Hf.
    split; [intros ?; destruct Hf as [Hf _]; discriminate Hf; auto|].
    apply not_true_is_false. intros ?. destruct Hf as [Hf _]. discriminate Hf. auto. }
  destruct Hnc as [Hnc Hns]. destruct Hs. split; [split|split]; cbn; try done.
  - by rewrite length_insert.
  - rewrite map_app. cbn. apply NoDup_app. repeat split; [done| |apply NoDup_singleton].
    intros x Hx ->%list_elem_of_singleton. done.
  - intros x. rewrite map_app; cbn [map fst]; rewrite elem_of_app, list_elem_of_singleton. intros [Hx| ->]; [eauto|].
    unfold bt_contains in Hns. by destruct (bt_get n _).
  - intros x. rewrite map_app; cbn [map fst]; rewrite elem_of_app, list_elem_of_singleton.
    destruct (decide (x = n)) as [->|Hx].
    + rewrite list_lookup_insert_eq by done. naive_solver.
    + rewrite list_lookup_insert_ne by done. rewrite <- so_flag0. naive_solver.
  - intros x w. rewrite elem_of_app, list_elem_of_singleton.
    intros [[Hx|[= -> ->]]|Hx]; auto.
  - destruct so_anchor0 as [Ha1 Ha2]. assert (anchor_slot s <> n) by congruence.
    rewrite list_lookup_insert_ne by done. split; [done|].
    intros w. rewrite elem_of_app, list_elem_of_singleton. intros [[?|?]|?]; eauto. congruence.
  - pose proof (unqueued_insert _ _ Hq). unfold pending, unqueued in *.
    cbn [slot_cursors queued_slots]. rewrite length_app. cbn [length]. lia.
Qed.

(** Queueing more slots stays on the same branch of the search. *)
Definition branch idx mp e (s s' : MatchPathSolution) : Prop :=
  sol_ok idx mp e s' /\ pending s' = pending s /\ anchor_slot s' = anchor_slot s /\
  solved_slots s' = solved_slots s /\ solution_signature s' = solution_signature s.

Lemma branch_refl idx mp e s : sol_ok idx mp e s -> branch idx mp e s s.
Proof. intros ?. by unfold branch; split_and!. Qed.

Lemma branch_enqueue {E} idx mp e n v s s' :
  branch idx mp e s s' -> (n < length (slots mp))%nat ->
  reached idx mp (anchor_slot s) e (solved_slots s) n v ->
  exists s'', enqueue_slot (E:=E) n v s' = Ok s'' /\ branch idx mp e s s''.
Proof.
  intros (Hs & Hp & Ha & Hv & Hg) Hn Hr. rewrite <- Ha, <- Hv in Hr.
  destruct (enqueue_slot_spec (E:=E) _ _ _ _ _ _ Hs Hn Hr) as (s'' & He & Hs'' & ? & ? & ? & ?).
  exists s''. split; [done|]. unfold branch. split_and!; [done|..]; congruence.
Qed.

(** One turn of the loop: the front cursor becomes a solved slot. *)
Lemma pop_spec idx mp e n v rest s :
  sol_ok idx mp e s -> slot_cursors s = (n, v) :: rest ->
  let s' := mark_slot_solved n v (pop_cursor s rest) in
  sol_ok idx mp e s' /\ pending s = S (pending s') /\ anchor_slot s' = anchor_slot s /\
  solved_slots s' = bt_insert n v (solved_slots s) /\ bt_get n (solved_slots s) = None /\
  (n < length (slots mp))%nat.
Proof.
  intros Hs Hc. pose proof Hs as [Ht Hl Hb Hnd Ho Hf Hr [Ha1 Ha2]]. rewrite Hc in *. cbn in *.
  apply NoDup_cons in Hnd as [Hn Hnd].
  assert (Hnew : bt_get n (solved_slots s) = None) by (apply Ho; set_solver).
  assert (Hmono : forall p pv, bt_get p (solved_slots s) = Some pv ->
            bt_get p (bt_insert n v (solved_slots s)) = Some pv).
  { intros p pv Hp. rewrite bt_get_insert_new by done. by case_decide; subst; congruence. }
  split; [split|split; [|split; [done|split; [done|split; [done|]]]]]; cbn; try done.
  - by apply bt_insert_sorted.
  - intros x Hx. rewrite bt_get_insert_new by done. case_decide; [by subst|]. apply Ho. set_solver.
  - intros x. rewrite <- Hf. unfold bt_contains. rewrite bt_get_insert_new by done.
    case_decide; set_solver.
  - intros x w Hx. apply (reached_mono _ _ _ _ (solved_slots s)); [done|]. apply Hr.
    destruct Hx as [Hx|Hx]; [set_solver|]. rewrite bt_get_insert_new in Hx by done.
    case_decide; [|by auto]. set_solver.
  - split; [done|]. intros w Hw. apply Ha2. rewrite bt_get_insert_new in Hw by done.
    case_decide; set_solver.
  - unfold pending. cbn. by rewrite Hc.
  - rewrite <- Hl. apply (lookup_lt_Some _ _ true). apply Hf. set_solver.
Qed.

Lemma get_adjacent_total idx e n d : index_total idx -> get_adjacent_elements idx e n d <> Panic.
Proof.
  intros (H1 & H2 & H3). destruct e as [m ps|m i o ps]; cbn; [by destruct d; auto|].
  specialize (H1 n (match d with Outward => o | Inward => i end)).
  by destruct (get_slot_element_by_ref n _).
Qed.

Definition alt_ok idx mp p pv (alt : alternatives) : Prop :=
  forall n l, alt !! n = Some l ->
    (n < length (slots mp))%nat /\ forall v, v ∈ l -> offers idx mp p pv n v.

Lemma collect_slot_spec idx mp sol p sp pv d alt n :
  index_total idx -> slots_closed mp -> slots mp !! p = Some sp -> n ∈ neighbours d sp ->
  alt_ok idx mp p pv alt ->
  collect_slot idx mp sol pv d alt n <> Panic /\
  forall alt', collect_slot idx mp sol pv d alt n = Ok alt' -> alt_ok idx mp p pv alt'.
Proof.
  intros Hi Hcl Hp Hn Ha. unfold collect_slot. destruct (is_slot_solved sol n).
  { split; [done|]. by intros ? [= <-]. }
  assert (Hlt : (n < length (slots mp))%nat) by (eapply Hcl; [exact Hp|]; destruct d; auto).
  destruct (lookup_lt_is_Some_2 _ _ Hlt) as [sn Hsn]. rewrite Hsn.
  destruct (match pv with Some e => _ | None => _ end) as [found|er|] eqn:Hf; cbn [mbind outcome_bind];
    [split; [done|] | by split | exfalso].
  2: { destruct pv as [e|]; [|done]. pose proof (get_adjacent_total idx e n d Hi).
       by destruct (get_adjacent_elements _ _ _ _). }
  intros alt' [= <-] m l. destruct (decide (m = n)) as [->|Hm].
  2: { rewrite lookup_insert_ne by done. apply Ha. }
  rewrite lookup_insert_eq. intros [= <-]. split; [done|].
  assert (Hadj : match pv with Some e => get_adjacent_elements idx e n d = Ok found
                 | None => found = [] end).
  { destruct pv as [e|]; [|by injection Hf]. by destruct (get_adjacent_elements _ _ _ _); inversion Hf. }
  assert (Hold : forall v, v ∈ default [] (alt !! n) -> offers idx mp p pv n v).
  { intros v Hv. destruct (alt !! n) as [l0|] eqn:Hl0; [|by apply not_elem_of_nil in Hv].
    by apply (Ha n l0). }
  intros v Hv. assert (v ∈ default [] (alt !! n) \/ (exists x, v = Some x /\ x ∈ found) \/
                       (v = None /\ found = [] /\ optional sn = true)) as [?|Hc].
  { destruct (optional sn && _) eqn:Ho.
    - apply andb_prop in Ho as [? ?%Nat.eqb_eq%nil_length_inv].
      rewrite !elem_of_app, list_elem_of_singleton, list_elem_of_fmap in Hv. naive_solver.
    - rewrite elem_of_app, list_elem_of_fmap in Hv. naive_solver. }
  { by apply Hold. }
  exists d, sp, sn, found. split_and!; [done|done|done|done|]. destruct v; naive_solver.
Qed.

Lemma collect_slots_spec idx mp sol p sp pv d ns alt :
  index_total idx -> slots_closed mp -> slots mp !! p = Some sp -> ns ⊆ neighbours d sp ->
  alt_ok idx mp p pv alt ->
  out_foldl (collect_slot idx mp sol pv d) alt ns <> Panic /\
  forall alt', out_foldl (collect_slot idx mp sol pv d) alt ns = Ok alt' -> alt_ok idx mp p pv alt'.
Proof.
  intros Hi Hcl Hp. revert alt. induction ns as [|n ns IH]; intros alt Hn Ha; cbn.
  { split; [done|]. by intros ? [= <-]. }
  destruct (collect_slot_spec idx mp sol p sp pv d alt n Hi Hcl Hp) as [Hnp Hok]; [set_solver|done|].
  destruct (collect_slot _ _ _ _ _ _ _) as [alt1| |]; cbn; [|by split|by split].
  apply IH; [set_solver|]. by apply Hok.
Qed.

Lemma collect_alternatives_spec idx mp sol p sp pv :
  index_total idx -> slots_closed mp -> slots mp !! p = Some sp ->
  collect_alternatives idx mp sol sp pv <> Panic /\
  forall alt, collect_alternatives idx mp sol sp pv = Ok alt -> alt_ok idx mp p pv alt.
Proof.
  intros Hi Hcl Hp. unfold collect_alternatives.
  destruct (collect_slots_spec idx mp sol p sp pv Outward (out_slots sp) ∅ Hi Hcl Hp) as [Hnp Hok];
    [done|intros n l; by rewrite lookup_empty|].
  destruct (out_foldl _ ∅ _) as [alt1| |]; cbn; [|by split|by split].
  by apply (collect_slots_spec idx mp sol p sp pv Inward); auto.
Qed.

(** ** The odometer over the candidate lists *)

Definition digit_ok (d : nat * nat * list (option Element)) : Prop := (d.1.2 < length d.2)%nat.

(** How many choices come after [p]. *)
Fixpoint remaining (p : list (nat * nat * list (option Element))) : nat :=
  match p with
  | [] => 0
  | (n, i, l) :: p => (length l - 1 - i) + length l * remaining p
  end%nat.

Definition same_dials (p q : list (nat * nat * list (option Element))) : Prop :=
  map (fun d => (d.1.1, d.2)) p = map (fun d => (d.1.1, d.2)) q.

Lemma bump_spec p :
  Forall digit_ok p ->
  match bump p with
  | Some p' => Forall digit_ok p' /\ same_dials p' p /\ remaining p = S (remaining p')
  | None => remaining p = 0%nat
  end.
Proof.
  induction 1 as [|[[n i] l] p Hd Hp IH]; [done|]. cbn [bump remaining].
  unfold digit_ok in Hd. cbn in Hd. destruct (Nat.ltb_spec i (length l - 1)).
  - split_and!; [constructor; [unfold digit_ok; cbn; lia|done]|done|cbn; lia].
  - destruct (bump p) as [p'|].
    + destruct IH as (Hp' & Hs & Hr).
      split_and!; [constructor; [unfold digit_ok; cbn; lia|done]| |cbn; rewrite Hr; nia].
      by unfold same_dials in *; cbn; rewrite Hs.
    + rewrite IH. lia.
Qed.

Lemma choices_spec idx mp e s fuel p :
  (remaining p < fuel)%nat -> Forall digit_ok p -> sol_ok idx mp e s ->
  (forall d v, d ∈ p -> v ∈ d.2 -> (d.1.1 < length (slots mp))%nat /\
     reached idx mp (anchor_slot s) e (solved_slots s) d.1.1 v) ->
  exists l, choices fuel s p = Ok l /\ Forall (branch idx mp e s) l.
Proof.
  revert p. induction fuel as [|fuel IH]; intros p Hf Hd Hs Hr; [lia|]. cbn.
  destruct (out_foldl_inv (E:=EvaluationError) (branch idx mp e s)
              (fun s0 d => match d.2 !! d.1.2 with Some x => enqueue_slot d.1.1 x s0 | None => Ok s0 end)
              p s) as (a & Ha & Hb).
  { by apply branch_refl. }
  { intros a d Hin Hb. destruct (d.2 !! d.1.2) as [x|] eqn:Hx; [|by eauto].
    destruct (Hr d x Hin) as [? ?]; [by eapply list_elem_of_lookup_2|]. by apply branch_enqueue. }
  unfold choose. rewrite Ha. cbn. pose proof (bump_spec p Hd) as Hbump.
  destruct (bump p) as [p'|]; [|by eauto]. destruct Hbump as (Hd' & Hs' & Hrem).
  destruct (IH p') as (l & -> & Hl); [lia|done|done| |].
  { intros d v Hdp Hv. assert (Hin : (d.1.1, d.2) ∈ map (fun d => (d.1.1, d.2)) p).
    { rewrite <- Hs'. apply list_elem_of_fmap. eauto. }
    apply list_elem_of_fmap in Hin as (d0 & Heq & Hin0). destruct d as [[x y] z], d0 as [[x0 y0] z0].
    cbn in *. injection Heq as -> ->. apply (Hr _ v Hin0 Hv). }
  cbn. eexists. split; [done|]. by constructor.
Qed.

Lemma remaining_start (l : list (nat * list (option Element))) :
  Forall (fun e => e.2 <> []) l ->
  S (remaining (map (fun e => (e.1, O, e.2)) l)) = combinations l.
Proof.
  induction 1 as [|[n v] l Hv Hl IH]; [done|].
  change (combinations ((n, v) :: l)) with (length v * combinations l)%nat. rewrite <- IH.
  cbn in Hv. destruct v; [done|]. cbn. lia.
Qed.

Lemma open_slots_elem alt n l :
  (n, l) ∈ open_slots alt -> alt !! n = Some l /\ (1 < length l)%nat.
Proof.
  unfold open_slots.
  assert (HP : forall es m, (forall e, e ∈ es -> alt !! e.1 = Some e.2) ->
    (forall e, e ∈ m -> alt !! e.1 = Some e.2 /\ (1 < length e.2)%nat) ->
    forall e, e ∈ fold_left (fun m e => if Nat.ltb 1 (length e.2) then bt_insert e.1 e.2 m else m) es m ->
      alt !! e.1 = Some e.2 /\ (1 < length e.2)%nat).
  { induction es as [|e es IH]; intros m Hes Hm; cbn [fold_left]; [done|].
    apply IH; [set_solver|].
    intros e' He'. destruct (Nat.ltb_spec 1 (length e.2)); [|by apply Hm].
    apply bt_insert_elem in He' as [->|He']; [|by apply Hm]. cbn. split; [|done]. set_solver. }
  intros Hin. apply (HP (map_to_list alt) [] ) with (e := (n, l)); [|set_solver|done].
  intros [x y] Hxy. by apply elem_of_map_to_list in Hxy.
Qed.

Definition terminal idx mp e a (c : Command) : Prop :=
  match c with
  | Partial _ => False
  | Complete h s => sol_ok idx mp e s /\ anchor_slot s = a /\
      length (solved_slots s) = total_slots s /\ h = spooky (solved_hash (solved_slots s))
  | _ => True
  end.

(** A branch that is still searched: nothing signed yet, [k] slots to go. *)
Definition searching idx mp e a k (s : MatchPathSolution) : Prop :=
  sol_ok idx mp e s /\ anchor_slot s = a /\ solution_signature s = None /\ (pending s < k)%nat.

Lemma try_complete_spec idx mp e a fuel s :
  index_total idx -> slots_closed mp -> searching idx mp e a fuel s ->
  exists ps t, try_complete fuel idx mp s = Ok (map Partial ps ++ [t]) /\
    Forall (searching idx mp e a (pending s)) ps /\ terminal idx mp e a t.
Proof.
  intros Hi Hcl. revert s. induction fuel as [|fuel IH]; intros s (Hs & Ha & Hg & Hf); [lia|].
  cbn [try_complete].
  destruct (slot_cursors s) as [|[n v] rest] eqn:Hc; [by exists [], Unsolvable|].
  destruct (pop_spec idx mp e n v rest s Hs Hc) as (Hs' & Hp & Ha' & Hv' & Hnew & Hn).
  set (s1 := mark_slot_solved n v (pop_cursor s rest)) in *.
  assert (Hsig : solution_signature s1 =
    if Nat.eqb (length (solved_slots s1)) (total_slots s1) then Some (spooky (solved_hash (solved_slots s1)))
    else None) by (unfold s1; cbn; by rewrite Hg).
  rewrite Hsig. destruct (Nat.eqb_spec (length (solved_slots s1)) (total_slots s1)) as [Hl|Hl].
  { exists [], (Complete (spooky (solved_hash (solved_slots s1))) s1). cbn. split_and!; done. }
  destruct (lookup_lt_is_Some_2 _ _ Hn) as [sp Hsp]. rewrite Hsp.
  destruct (collect_alternatives_spec idx mp s1 n sp v Hi Hcl Hsp) as [Hnp Hok].
  destruct (collect_alternatives _ _ _ _ _) as [alt|er|]; [|by exists [], (SolveError er)|done].
  specialize (Hok alt eq_refl).
  assert (Hr : forall m l w, alt !! m = Some l -> w ∈ l -> (m < length (slots mp))%nat /\
            reached idx mp (anchor_slot s1) e (solved_slots s1) m w).
  { intros m l w Hm Hw. destruct (Hok m l Hm) as [Hlt Ho]. split; [done|].
    assert (Hnv : bt_get n (solved_slots s1) = Some v)
      by (rewrite Hv'; apply bt_get_insert_eq, (so_sorted _ _ _ _ Hs)).
    apply (reached_step _ _ _ _ _ n v); [done| |by apply Ho].
    apply (so_reached _ _ _ _ Hs'). by right. }
  destruct (out_foldl_inv (branch idx mp e s1) enqueue_single (map_to_list alt) s1) as (s2 & -> & Hb).
  { by apply branch_refl. }
  { intros s0 [m l] Hin Hb0. apply elem_of_map_to_list in Hin. unfold enqueue_single. cbn.
    destruct l as [|x [|y l]]; [by eauto| |by eauto].
    destruct (Hr m [x] x Hin) as [? ?]; [set_solver|]. by apply branch_enqueue. }
  cbn [mbind outcome_bind]. destruct Hb as (Hs2 & Hp2 & Ha2 & Hv2 & Hg2).
  destruct (IH s2) as (ps & t & Htc & Hps & Ht).
  { unfold searching. split_and!; [done|congruence| |lia]. by rewrite Hg2, Hsig. }
  assert (Hps' : Forall (searching idx mp e a (pending s)) ps).
  { eapply Forall_impl; [exact Hps|]. intros x (? & ? & ? & ?). unfold searching. split_and!; try done. lia. }
  destruct (open_slots alt) as [|o os] eqn:Ho; [by exists ps, t|].
  rewrite <- Ho. clear Ho.
  destruct (choices_spec idx mp e s2 (combinations (open_slots alt))
              (map (fun d => (d.1, O, d.2)) (open_slots alt))) as (l & -> & Hl').
  { rewrite <- remaining_start; [lia|]. apply Forall_forall. intros [m w] [_ Hw]%open_slots_elem.
    cbn. by intros ->; cbn in *; lia. }
  { apply Forall_forall. intros d ([m w] & -> & [_ Hw]%open_slots_elem)%list_elem_of_fmap.
    unfold digit_ok. cbn. lia. }
  { done. }
  { intros d w ([m ws] & -> & [Hm _]%open_slots_elem)%list_elem_of_fmap Hw. cbn in *.
    rewrite Hv2, Ha2. by apply (Hr m ws w). }
  cbn. rewrite Htc. cbn. exists (l ++ ps), t. rewrite map_app, <- app_assoc. split; [done|].
  split; [|done]. apply Forall_app. split; [|done]. eapply Forall_impl; [exact Hl'|].
  intros x (? & Hpx & ? & ? & Hgx). unfold searching. split_and!; [done|congruence| |lia].
  by rewrite Hgx, Hg2, Hsig.
Qed.

(** ** The command loop *)

Definition command_ok idx mp e a k (c : Command) : Prop :=
  match c with
  | Partial s => searching idx mp e a k s /\ (pending s <= length (slots mp))%nat
  | _ => terminal idx mp e a c
  end.

Definition result_ok idx mp e a (r : gmap Z MatchPathSolution) : Prop :=
  map_Forall (fun h s => terminal idx mp e a (Complete h s)) r.

Definition good idx mp e a (o : outcome EvaluationError (gmap Z MatchPathSolution)) : Prop :=
  match o with
  | Ok r => result_ok idx mp e a r
  | Err _ => True
  | Panic => False
  end.

(** With enough fuel the loop stops, always with the same good outcome. *)
Definition settles idx mp e a (q : list Command) (i : Z) (r : gmap Z MatchPathSolution) : Prop :=
  exists o N, good idx mp e a o /\ forall fuel, (N <= fuel)%nat -> run fuel idx mp q i r = o.

Lemma settles_step idx mp e a c q i r (sent : list Command) i' r' :
  (forall fuel, run (S fuel) idx mp (c :: q) i r =
     if i' =? 0 then Ok r' else run fuel idx mp (q ++ sent) i' r') ->
  result_ok idx mp e a r' -> settles idx mp e a (q ++ sent) i' r' ->
  settles idx mp e a (c :: q) i r.
Proof.
  intros Hstep Hr (o & N & Ho & HN). destruct (i' =? 0).
  - exists (Ok r'), 1%nat. split; [done|]. intros [|fuel] Hf; [lia|]. apply Hstep.
  - exists o, (S N). split; [done|]. intros [|fuel] Hf; [lia|]. rewrite Hstep. apply HN. lia.
Qed.

Lemma settles_terminal idx mp e a c q i r :
  terminal idx mp e a c -> result_ok idx mp e a r ->
  (forall i' r', result_ok idx mp e a r' -> settles idx mp e a q i' r') ->
  settles idx mp e a (c :: q) i r.
Proof.
  intros Hc Hr Hq. destruct c as [s|h s|er|]; [done| | |].
  - eapply (settles_step _ _ _ _ _ _ _ _ [] (i - 1) (<[h := s]> r)); rewrite ?app_nil_r; auto.
    + apply map_Forall_insert_2; done.
    + apply Hq, map_Forall_insert_2; done.
  - exists (Err er), 1%nat. split; [done|]. by intros [|fuel] Hf; [lia|].
  - eapply (settles_step _ _ _ _ _ _ _ _ [] (i - 1) r); rewrite ?app_nil_r; auto.
Qed.

Lemma run_settles idx mp e a k :
  index_total idx -> slots_closed mp ->
  forall q i r, Forall (command_ok idx mp e a k) q -> result_ok idx mp e a r ->
  settles idx mp e a q i r.
Proof.
  intros Hi Hcl. induction k as [|k IH].
  - induction q as [|c q IHq]; intros i r Hq Hr.
    { exists (Ok r), 1%nat. split; [done|]. by intros [|fuel] Hf; [lia|]. }
    apply Forall_cons in Hq as [Hc Hq]. apply settles_terminal; [|done|by auto].
    destruct c; [|done..]. destruct Hc as [(_ & _ & _ & ?) _]. lia.
  - intros q. rewrite <- (app_nil_r q). generalize (Forall_nil_2 (command_ok idx mp e a k)).
    generalize (@nil Command) as q2.
    induction q as [|c q IHq]; intros q2 Hq2 i r Hq Hr; [by apply IH|].
    apply Forall_app in Hq as [Hq _]. apply Forall_cons in Hq as [Hc Hq].
    assert (Hmono : Forall (command_ok idx mp e a (S k)) q2).
    { eapply Forall_impl; [exact Hq2|]. intros [s| | |]; cbn; [|done..].
      intros [(? & ? & ? & ?) ?]. unfold searching. split_and!; try done. lia. }
    cbn [app]. destruct c as [s|h s|er|].
    2-4: apply settles_terminal; [done|done|];
         intros; apply IHq; [done|by apply Forall_app|done].
    destruct Hc as [(Hs & Ha & Hg & Hp) Hle].
    destruct (try_complete_spec idx mp e a (S (length (slots mp))) s Hi Hcl)
      as (ps & t & Htc & Hps & Ht). { unfold searching. split_and!; try done. lia. }
    apply (settles_step _ _ _ _ _ _ _ _ (map Partial ps ++ [t]) (i + 1) r).
    + intros fuel. cbn [run]. by rewrite Htc.
    + done.
    + rewrite <- app_assoc.
      assert (Hnew : Forall (command_ok idx mp e a k) (q2 ++ map Partial ps ++ [t])).
      { apply Forall_app. split; [done|]. apply Forall_app. split; [|].
        - apply Forall_fmap. eapply Forall_impl; [exact Hps|].
          intros x (? & ? & ? & ?). cbn. unfold searching. split_and!; try done; lia.
        - constructor; [by destruct t|constructor]. }
      apply IHq; [done| |done]. apply Forall_app. split; [done|].
      eapply Forall_impl; [exact Hnew|]. intros [x| | |]; cbn; [|done..].
      intros [(? & ? & ? & ?) ?]. unfold searching. split_and!; try done. lia.
Qed.

Lemma unqueued_replicate n : unqueued (replicate n false) = n.
Proof. unfold unqueued. induction n; cbn; [done|by rewrite IHn]. Qed.

Lemma start_ok idx mp e a :
  (a < length (slots mp))%nat ->
  exists s, enqueue_slot (E:=EvaluationError) a (Some e) (new_solution (length (slots mp)) a) = Ok s /\
    command_ok idx mp e a (S (length (slots mp))) (Partial s).
Proof.
  intros Ha. unfold enqueue_slot. cbn [queued_slots new_solution].
  pose proof (lookup_replicate_2 (length (slots mp)) false a Ha) as Hl. rewrite Hl.
  eexists. split; [done|]. pose proof (unqueued_insert _ _ Hl) as Hu. rewrite unqueued_replicate in Hu.
  assert (Hpend : forall s, slot_cursors s = [(a, Some e)] ->
    queued_slots s = <[a := true]> (replicate (length (slots mp)) false) ->
    pending s = length (slots mp)) by (intros s Hc Hq; unfold pending; rewrite Hc, Hq; symmetry; exact Hu).
  split; [unfold searching; split_and!; try done|]; [split; cbn| |]; try done.
  - by rewrite length_insert, length_replicate.
  - constructor.
  - apply NoDup_singleton.
  - intros n. destruct (decide (n = a)) as [->|Hn].
    + rewrite list_lookup_insert_eq by (by rewrite length_replicate). set_solver.
    + rewrite list_lookup_insert_ne by done. split; [set_solver|].
      by intros [? _]%lookup_replicate.
  - intros n v [Hin|?]; [|done]. apply list_elem_of_singleton in Hin as [= -> ->]. constructor.
  - rewrite list_lookup_insert_eq by (by rewrite length_replicate). split; [done|].
    intros v [Hin|?]; [|done]. by apply list_elem_of_singleton in Hin as [= ->].
  - rewrite Hpend by done. lia.
  - rewrite Hpend by done. lia.
Qed.

Lemma solve_settles idx mp e a :
  index_total idx -> slots_closed mp -> (a < length (slots mp))%nat ->
  exists o N, good idx mp e a o /\ forall fuel, (N <= fuel)%nat -> solve fuel idx mp e a = o.
Proof.
  intros Hi Hcl Ha. unfold solve. destruct (start_ok idx mp e a Ha) as (s & -> & Hs). cbn.
  apply (run_settles idx mp e a (S (length (slots mp))) Hi Hcl); [by constructor|].
  apply map_Forall_empty.
Qed.
End facts.
