(* ===== verification/SolverComplete.v ===== *)
(** * Completeness of the path solver on tree-shaped patterns

    On a pattern whose slot graph is a tree every assignment of elements to
    slots that the index supports is found: the search never loses a branch,
    and the command loop never stops while one is still queued. *)

From S2P Require Import Prelude BTree Floats Hashing Ast Models Errors Values MatchPath Solver SolverFacts.

(** The slot graph is a tree rooted at slot [a]. *)
Record tree (mp : MatchPath) (a : nat) (parent depth : nat -> nat) : Prop := {
  tr_root : (a < length (slots mp))%nat;
  tr_parent : forall n, (n < length (slots mp))%nat -> n <> a ->
    (parent n < length (slots mp))%nat /\ (depth (parent n) < depth n)%nat /\
    exists sp, slots mp !! parent n = Some sp /\ n ∈ out_slots sp ++ in_slots sp;
  tr_edge : forall p sp n, slots mp !! p = Some sp -> n ∈ out_slots sp ++ in_slots sp ->
    (n <> a /\ parent n = p) \/ (p <> a /\ parent p = n);
  tr_simple : forall p sp, slots mp !! p = Some sp -> NoDup (out_slots sp ++ in_slots sp);
}.

Definition assignment {C : Chrono} (sigma : nat -> option Element) (k : nat) : btree nat (option Element) :=
  map (fun n => (n, sigma n)) (seq 0 k).

Section odometer.
Context {C : Chrono} {H : Hashers}.

Lemma remaining_inj p q :
  same_dials q p -> Forall digit_ok p -> Forall digit_ok q -> remaining q = remaining p -> q = p.
Proof.
  revert q. induction p as [|[[n i] l] p IH]; intros [|[[m j] k] q] Hs Hp Hq Hr; [done|done|done|].
  unfold same_dials in Hs. cbn in Hs. injection Hs as -> -> Hs.
  apply Forall_cons in Hp as [Hi Hp]. apply Forall_cons in Hq as [Hj Hq].
  unfold digit_ok in Hi, Hj. cbn in Hi, Hj, Hr.
  destruct (Nat.div_mod_unique (length l) (remaining q) (remaining p)
              (length l - 1 - j) (length l - 1 - i)) as [Hrem Hd]; [lia|lia|lia|].
  rewrite (IH q) by done. by replace j with i by lia.
Qed.

Lemma choices_enumerate fuel s p q l :
  same_dials q p -> Forall digit_ok p -> Forall digit_ok q -> (remaining q <= remaining p)%nat ->
  choices fuel s p = Ok l -> exists b, choose s q = Ok b /\ b ∈ l.
Proof.
  revert p l. induction fuel as [|fuel IH]; intros p l Hs Hp Hq Hr Hl; [done|]. cbn in Hl.
  destruct (choose s p) as [b| |] eqn:Hb; [|done|done]. cbn in Hl.
  pose proof (bump_spec p Hp) as Hbump.
  destruct (decide (remaining q = remaining p)) as [He|He].
  { rewrite (remaining_inj p q Hs Hp Hq He). exists b. split; [done|].
    destruct (bump p); [destruct (choices fuel s l0); cbn in Hl|]; inversion Hl; set_solver. }
  destruct (bump p) as [p'|]; [|lia]. destruct Hbump as (Hp' & Hs' & Hrem).
  destruct (choices fuel s p') as [l'| |] eqn:Hl'; cbn in Hl; [|done|done].
  injection Hl as <-. destruct (IH p' l') as (b' & ? & ?); [|done|done|lia|done|set_solver].
  unfold same_dials in *. congruence.
Qed.

Lemma remaining_below p q :
  Forall digit_ok q -> same_dials q p -> map (fun d => (d.1.1, O, d.2)) p = p ->
  (remaining q <= remaining p)%nat.
Proof.
  revert q. induction p as [|[[n i] l] p IH]; intros [|[[m j] k] q] Hq Hs Hp; [done|done|done|].
  unfold same_dials in Hs. cbn in Hs, Hp. injection Hs as -> -> Hs. injection Hp as <- Hp.
  apply Forall_cons in Hq as [Hj Hq]. specialize (IH q Hq Hs Hp). unfold digit_ok in Hj. cbn in *. nia.
Qed.
End odometer.

Section complete.
Context {C : Chrono} {H : Hashers}.
Context (idx : SlotIndex) (mp : MatchPath) (a : nat) (e : Element).
Context (parent depth : nat -> nat) (sigma : nat -> option Element).
Context (Hi : index_total idx) (Hcl : slots_closed mp) (Ht : tree mp a parent depth).

Definition child (p n : nat) : Prop := n <> a /\ parent n = p /\ (n < length (slots mp))%nat.

(** [sigma] is a match: the index supports every edge of the tree. *)
Definition supported : Prop :=
  sigma a = Some e /\
  forall n, (n < length (slots mp))%nat -> n <> a ->
    offers idx mp (parent n) (sigma (parent n)) n (sigma n).
Context (Hm : supported).

Lemma child_not_parent p n : child p n -> (p < length (slots mp))%nat -> ~ (p <> a /\ parent p = n).
Proof.
  intros (Hn & <- & Hlt) Hp [Hpa Hpp]. destruct (tr_parent _ _ _ _ Ht n Hlt Hn) as (_ & ? & _).
  destruct (tr_parent _ _ _ _ Ht (parent n) Hp Hpa) as (_ & ? & _). rewrite Hpp in *. lia.
Qed.

(** The candidates collected around slot [p] for the slots [ns]. *)
Definition collected (p : nat) (ns : list nat) (alt : alternatives) : Prop :=
  (forall m l, alt !! m = Some l -> child p m) /\
  (forall n, n ∈ ns -> child p n -> exists l, alt !! n = Some l /\ sigma n ∈ l).

(** Around slot [p] exactly the children are open. *)
Definition children_open (p : nat) (s : MatchPathSolution) : Prop :=
  (forall n, child p n -> is_slot_solved s n = false) /\
  (p <> a -> is_slot_solved s (parent p) = true).

Lemma collect_slot_tree s p sp d n ns alt :
  slots mp !! p = Some sp -> n ∈ neighbours d sp -> children_open p s -> collected p ns alt ->
  exists alt', collect_slot idx mp s (sigma p) d alt n = Ok alt' /\ collected p (n :: ns) alt'.
Proof.
  intros Hp Hn [Hc Hpar] [Hdom Hin]. unfold collect_slot.
  pose proof (lookup_lt_Some _ _ _ Hp) as Hplt.
  assert (Hnn : n ∈ out_slots sp ++ in_slots sp) by (destruct d; set_solver).
  assert (Hnlt : (n < length (slots mp))%nat) by (eapply Hcl; [exact Hp|set_solver]).
  destruct (tr_edge _ _ _ _ Ht p sp n Hp Hnn) as [[Hna Hnp]|[Hpa Hpn]].
  2: { rewrite <- Hpn, Hpar by done. eexists. split; [done|]. split; [done|].
       intros m [->|Hm']%elem_of_cons Hch; [|by auto]. by destruct (child_not_parent p _ Hch Hplt). }
  assert (Hch : child p n) by done. rewrite (Hc n Hch).
  destruct (proj2 Hm n Hnlt Hna) as (d' & sp' & sn & found & Hsp & Hd' & Hsn & Hadj & Hv).
  rewrite Hnp, Hp in Hsp. injection Hsp as <-. rewrite Hnp in Hadj. rewrite Hsn.
  assert (d' = d) as ->.
  { pose proof (tr_simple _ _ _ _ Ht p sp Hp) as (_ & Hdis & _)%NoDup_app.
    destruct d, d'; try done; exfalso; cbn in *; set_solver. }
  assert (Hf : match sigma p with Some e => map_err EvalIndexError (get_adjacent_elements idx e n d)
               | None => Ok [] end = Ok found) by (destruct (sigma p); [by rewrite Hadj|by rewrite Hadj]).
  rewrite Hf. cbn [mbind outcome_bind]. eexists. split; [done|]. split.
  - intros m l. destruct (decide (m = n)) as [->|]; [done|]. rewrite lookup_insert_ne by done. apply Hdom.
  - intros m Hmn Hcm. destruct (decide (m = n)) as [->|].
    + rewrite lookup_insert_eq. eexists. split; [done|].
      destruct (sigma n) as [x|]; cbn in Hv.
      * assert (Hnil : found <> []) by (intros ->; set_solver).
        assert (Some x ∈ map Some found) by (apply list_elem_of_fmap; eauto).
        destruct found; [done|]. rewrite andb_comm. cbn -[map]. set_solver.
      * destruct Hv as [-> ->]. cbn. set_solver.
    + rewrite lookup_insert_ne by done. apply Hin; [set_solver|done].
Qed.

Lemma collect_slots_tree s p sp d l ns alt :
  slots mp !! p = Some sp -> l ⊆ neighbours d sp -> children_open p s -> collected p ns alt ->
  exists alt', out_foldl (collect_slot idx mp s (sigma p) d) alt l = Ok alt' /\
    collected p (l ++ ns) alt'.
Proof.
  intros Hp. revert ns alt. induction l as [|n l IH]; intros ns alt Hl Hc Ha; cbn; [by eauto|].
  destruct (collect_slot_tree s p sp d n ns alt) as (alt1 & -> & Ha1); [done|set_solver|done|done|].
  destruct (IH (n :: ns) alt1) as (alt2 & Hf & Hd & Hs); [set_solver|done|done|].
  exists alt2. split; [done|]. split; [done|]. intros m Hmm. apply Hs. set_solver.
Qed.

Lemma collect_tree s p sp :
  slots mp !! p = Some sp -> children_open p s ->
  exists alt, collect_alternatives idx mp s sp (sigma p) = Ok alt /\
    (forall m l, alt !! m = Some l -> child p m) /\
    (forall n, child p n -> exists l, alt !! n = Some l /\ sigma n ∈ l).
Proof.
  intros Hp Hc. unfold collect_alternatives.
  destruct (collect_slots_tree s p sp Outward (out_slots sp) [] ∅) as (alt1 & -> & Ha1);
    [done|done|done|split; [|set_solver]; intros m l; by rewrite lookup_empty|]. cbn.
  destruct (collect_slots_tree s p sp Inward (in_slots sp) (out_slots sp ++ []) alt1)
    as (alt2 & -> & Hd & Hs); [done|done|done|done|].
  eexists. split; [done|]. split; [done|]. intros n Hn. apply Hs; [|done].
  destruct Hn as (Hna & <- & Hlt). destruct (tr_parent _ _ _ _ Ht n Hlt Hna) as (_ & _ & sp' & Hsp & Hin).
  rewrite Hp in Hsp. injection Hsp as <-. set_solver.
Qed.

(** ** Partial solutions that follow [sigma] *)

Record agrees (s : MatchPathSolution) : Prop := {
  ag_ok : sol_ok idx mp e s;
  ag_anchor : anchor_slot s = a;
  ag_values : forall n v, (n, v) ∈ slot_cursors s \/ bt_get n (solved_slots s) = Some v -> v = sigma n;
  ag_parent : forall n, queued_slots s !! n = Some true -> n <> a -> is_slot_solved s (parent n) = true;
}.

Definition queued (n : nat) (s : MatchPathSolution) : Prop := queued_slots s !! n = Some true.

(** Same branch of the search, with more slots queued. *)
Definition grows (s s' : MatchPathSolution) : Prop :=
  agrees s' /\ solved_slots s' = solved_slots s /\ solution_signature s' = solution_signature s /\
  total_slots s' = total_slots s /\ pending s' = pending s.

Lemma solved_value s n : agrees s -> is_slot_solved s n = true -> bt_get n (solved_slots s) = Some (sigma n).
Proof.
  unfold is_slot_solved, bt_contains. intros Hs. destruct (bt_get n _) as [v|] eqn:Hg; [|done].
  intros _. f_equal. apply (ag_values _ Hs). by right.
Qed.

Lemma enqueue_agrees {E} n s s0 :
  grows s0 s -> (n < length (slots mp))%nat -> n <> a -> is_slot_solved s (parent n) = true ->
  exists s', enqueue_slot (E:=E) n (sigma n) s = Ok s' /\ grows s0 s' /\ queued n s' /\
    forall m, queued m s -> queued m s'.
Proof.
  intros (Hs & Hg1 & Hg2 & Hg3 & Hg4) Hn Hna Hp. pose proof (ag_ok _ Hs) as Hok.
  assert (Hr : reached idx mp (anchor_slot s) e (solved_slots s) n (sigma n)).
  { pose proof (solved_value s _ Hs Hp) as Hv.
    apply (reached_step _ _ _ _ _ (parent n) (sigma (parent n))); [done| |by apply Hm].
    apply (so_reached _ _ _ _ Hok). by right. }
  destruct (enqueue_slot_spec (E:=E) _ _ _ n (sigma n) s Hok Hn Hr)
    as (s' & He & Hok' & Hpe & Han & Hso & Hsi).
  exists s'. split; [done|]. unfold enqueue_slot in He.
  rewrite <- (so_queued _ _ _ _ Hok) in Hn. destruct (lookup_lt_is_Some_2 _ _ Hn) as [[] Hq]; rewrite Hq in He.
  { injection He as <-. by split_and!. }
  injection He as <-. unfold queued. cbn. split; [|split].
  - unfold grows. cbn. split; [split|split_and!]; cbn; try done.
    + by rewrite (ag_anchor _ Hs).
    + intros m v. rewrite elem_of_app, list_elem_of_singleton. intros [[?|[= -> ->]]|?]; [|done|];
        apply (ag_values _ Hs); auto.
    + intros m Hmq Hma. destruct (decide (m = n)) as [->|]; [done|].
      rewrite list_lookup_insert_ne in Hmq by done. by apply (ag_parent _ Hs).
    + by rewrite <- Hg4, <- Hpe.
  - by rewrite list_lookup_insert_eq.
  - intros m Hmq. destruct (decide (m = n)) as [->|]; [by rewrite list_lookup_insert_eq|].
    by rewrite list_lookup_insert_ne.
Qed.

Lemma enqueue_singles s p alt :
  agrees s -> is_slot_solved s p = true ->
  (forall m l, alt !! m = Some l -> child p m /\ sigma m ∈ l) ->
  exists s', out_foldl enqueue_single s (map_to_list alt) = Ok s' /\ grows s s' /\
    (forall m x, alt !! m = Some [x] -> queued m s') /\ (forall m, queued m s -> queued m s').
Proof.
  intros Hs Hp Halt.
  destruct (out_foldl_each (grows s)
    (fun (b : nat * list (option Element)) s' => match b.2 with [_] => queued b.1 s' | _ => True end)
    enqueue_single (map_to_list alt) s) as (s' & Hf & Hg & Hq & Hk).
  { by split_and!. }
  { intros s1 [m l] Hin Hg. apply elem_of_map_to_list in Hin. destruct (Halt m l Hin) as [(Hma & Hmp & Hml) Hsl].
    unfold enqueue_single. cbn.
    destruct l as [|x [|y l]]; [by exists s1| |by exists s1].
    apply list_elem_of_singleton in Hsl. subst x.
    destruct (enqueue_agrees (E:=EvaluationError) m s1 s) as (s2 & He & Hg2 & Hq & Hk); [done|done|done| |].
    { rewrite Hmp. destruct Hg as (_ & Hso & _). unfold is_slot_solved. by rewrite Hso. }
    exists s2. split_and!; [done|done|done|].
    intros [m' [|x' [|y' l']]]; cbn; auto. }
  exists s'. split_and!; [done|done| |].
  - intros m x Hin. apply (Hq (m, [x])). by apply elem_of_map_to_list.
  - intros m. apply (Hk (m, [None])).
Qed.

Definition follows_digits (s : MatchPathSolution) (q : list (nat * nat * list (option Element))) : Prop :=
  Forall (fun d => d.2 !! d.1.2 = Some (sigma d.1.1) /\ (d.1.1 < length (slots mp))%nat /\ d.1.1 <> a /\
                   is_slot_solved s (parent d.1.1) = true) q.

Lemma choose_follows s q :
  agrees s -> follows_digits s q ->
  exists s', choose s q = Ok s' /\ grows s s' /\
    (forall d, d ∈ q -> queued d.1.1 s') /\ (forall m, queued m s -> queued m s').
Proof.
  intros Hs Hq. unfold follows_digits in Hq. rewrite Forall_forall in Hq.
  destruct (out_foldl_each (grows s) (fun d s' => queued d.1.1 s')
    (fun s1 d => match d.2 !! d.1.2 with Some x => enqueue_slot (E:=EvaluationError) d.1.1 x s1 | None => Ok s1 end)
    q s) as (s' & Hf & Hg & Hd & Hk).
  { by split_and!. }
  { intros s1 d Hin Hg. destruct (Hq d Hin) as (-> & Hn & Hna & Hp).
    destruct (enqueue_agrees (E:=EvaluationError) d.1.1 s1 s) as (s2 & He & Hg2 & Hqu & Hk2); [done|done|done| |].
    { destruct Hg as (_ & Hso & _). unfold is_slot_solved in *. by rewrite Hso. }
    exists s2. split_and!; auto. }
  exists s'. split_and!; [done|done|done|]. intros m. apply (Hk (m, O, [])).
Qed.

Lemma digits_exist s (l : list (nat * list (option Element))) :
  Forall (fun o => sigma o.1 ∈ o.2 /\ (o.1 < length (slots mp))%nat /\ o.1 <> a /\
                   is_slot_solved s (parent o.1) = true) l ->
  exists q, same_dials q (map (fun o => (o.1, O, o.2)) l) /\ follows_digits s q /\ Forall digit_ok q.
Proof.
  induction 1 as [|[n w] l (Hw & Hn & Hna & Hp) Hl (q & Hs & Hq & Hd)].
  { exists []. split_and!; constructor. }
  apply list_elem_of_lookup in Hw as [i Hi']. cbn in *.
  exists ((n, i, w) :: q). split_and!.
  - unfold same_dials in *. cbn. by rewrite Hs.
  - by constructor.
  - constructor; [|done]. by apply lookup_lt_Some in Hi'.
Qed.

Lemma open_slots_complete alt n l :
  alt !! n = Some l -> (1 < length l)%nat -> (n, l) ∈ open_slots alt.
Proof.
  intros Hn Hl. unfold open_slots.
  set (f := fun m (e : nat * list (option Element)) => if Nat.ltb 1 (length e.2) then bt_insert e.1 e.2 m else m).
  assert (Hsort : forall es m, bt_sorted m -> bt_sorted (fold_left f es m)).
  { induction es as [|x es IH]; intros m Hsm; cbn; [done|]. apply IH. unfold f.
    destruct (Nat.ltb _ _); [by apply bt_insert_sorted|done]. }
  assert (HP : forall es m, bt_sorted m -> (forall x, x ∈ es -> alt !! x.1 = Some x.2) ->
    (n, l) ∈ es \/ bt_get n m = Some l -> bt_get n (fold_left f es m) = Some l).
  { induction es as [|[x w] es IH]; intros m Hsm Hes Hin; cbn [fold_left].
    { by destruct Hin as [?%not_elem_of_nil|?]. }
    apply IH; [by apply (Hsort [(x, w)])|set_solver|].
    destruct (decide (x = n)) as [->|Hx].
    - right. pose proof (Hes (n, w) ltac:(set_solver)) as Hw. cbn in Hw. rewrite Hn in Hw. injection Hw as <-.
      unfold f. cbn [fst snd]. destruct (Nat.ltb_spec 1 (length l)); [|lia]. by apply bt_get_insert_eq.
    - destruct Hin as [[[= -> ->]|Hin]%elem_of_cons|Hin]; [done|by left|]. right.
      unfold f. cbn [fst snd]. destruct (Nat.ltb _ _); [|done]. rewrite bt_get_insert_new by done.
      by case_decide. }
  apply bt_get_elem; [apply Hsort; constructor|]. apply HP; [constructor| |left; by apply elem_of_map_to_list].
  intros [x w] Hx. by apply elem_of_map_to_list in Hx.
Qed.

(** ** The search keeps a branch that follows [sigma] *)

Definition target : btree nat (option Element) := assignment sigma (length (slots mp)).

Record follows (s : MatchPathSolution) : Prop := {
  fo_agrees : agrees s;
  fo_closed : forall n, (n < length (slots mp))%nat -> n <> a -> is_slot_solved s (parent n) = true ->
                queued n s;
  fo_unsigned : solution_signature s = None;
  fo_partial : length (solved_slots s) <> total_slots s;
}.

Lemma assignment_get k n :
  bt_get n (assignment sigma k) = if decide (n < k)%nat then Some (sigma n) else None.
Proof.
  assert (HP : forall len start, bt_get n (map (fun n => (n, sigma n)) (seq start len)) =
    if decide (start <= n < start + len)%nat then Some (sigma n) else None).
  { induction len as [|len IH]; intros start; cbn; [case_decide; [lia|done]|].
    unfold cmp. cbn. destruct (Nat.compare_spec n start) as [->|Hlt|Hgt].
    - case_decide; [done|lia].
    - case_decide; [lia|done].
    - rewrite IH. do 2 case_decide; (done || lia). }
  unfold assignment. rewrite HP. do 2 case_decide; (done || lia).
Qed.

Lemma assignment_sorted k : bt_sorted (assignment sigma k).
Proof.
  unfold assignment. generalize O. induction k as [|k IH]; intros start; cbn; constructor; [|done].
  apply Forall_fmap, Forall_forall. intros x [Hx _]%elem_of_seq. cbn. unfold cmp. cbn.
  apply Nat.compare_lt_iff. lia.
Qed.

Lemma solved_is_target s :
  agrees s -> (forall n, (n < length (slots mp))%nat -> is_slot_solved s n = true) ->
  solved_slots s = target.
Proof.
  intros Hs Hall. pose proof (ag_ok _ Hs) as Hok.
  apply bt_ext; [apply (so_sorted _ _ _ _ Hok)|apply assignment_sorted|].
  intros n. unfold target. rewrite assignment_get. case_decide as Hn.
  - apply solved_value; auto.
  - destruct (bt_get n (solved_slots s)) as [v|] eqn:Hv; [|done].
    by destruct Hn; eapply sol_ok_below.
Qed.

(** A branch with nothing left to visit has visited everything. *)
Lemma exhausted s :
  agrees s -> slot_cursors s = [] ->
  (forall n, (n < length (slots mp))%nat -> n <> a -> is_slot_solved s (parent n) = true -> queued n s) ->
  forall n, (n < length (slots mp))%nat -> is_slot_solved s n = true.
Proof.
  intros Hs Hc Hcl' n. pose proof (ag_ok _ Hs) as Hok.
  assert (Hq : forall m, queued m s -> is_slot_solved s m = true).
  { intros m Hm'. apply (so_flag _ _ _ _ Hok) in Hm' as [Hm'|?]; [|done]. rewrite Hc in Hm'. set_solver. }
  remember (depth n) as k eqn:Hk. revert n Hk. induction k as [k IH] using lt_wf_ind; intros n -> Hn.
  apply Hq. destruct (decide (n = a)) as [->|Hna].
  - rewrite <- (ag_anchor _ Hs). by destruct (so_anchor _ _ _ _ Hok).
  - destruct (tr_parent _ _ _ _ Ht n Hn Hna) as (Hp & Hd & _). apply Hcl'; [done|done|]. by eapply IH.
Qed.

Lemma pop_agrees s n v rest :
  agrees s -> slot_cursors s = (n, v) :: rest ->
  let s1 := mark_slot_solved n v (pop_cursor s rest) in
  v = sigma n /\ agrees s1 /\ children_open n s1 /\ is_slot_solved s1 n = true /\
  (forall m, is_slot_solved s1 m = true -> m = n \/ is_slot_solved s m = true).
Proof.
  intros Hs Hc. pose proof (ag_ok _ Hs) as Hok.
  destruct (pop_spec idx mp e n v rest s Hok Hc) as (Hok1 & _ & Han & Hso & Hnew & Hn). intros s1.
  assert (Hv : v = sigma n) by (apply (ag_values _ Hs); left; rewrite Hc; set_solver).
  assert (Hget : forall m, bt_get m (solved_slots s1) = if decide (m = n) then Some v else bt_get m (solved_slots s))
    by (intros m; unfold s1; rewrite Hso; apply bt_get_insert_new, (so_sorted _ _ _ _ Hok)).
  assert (Hsol : forall m, is_slot_solved s1 m = bool_decide (m = n) || is_slot_solved s m).
  { intros m. unfold is_slot_solved, bt_contains. rewrite Hget.
    case_decide; [by rewrite bool_decide_eq_true_2|by rewrite bool_decide_eq_false_2]. }
  assert (Hnq : queued n s) by (apply (so_flag _ _ _ _ Hok); left; rewrite Hc; set_solver).
  split_and!; [done|split; [done|by rewrite <- (ag_anchor _ Hs)| |]|split| |].
  - intros m w [Hin|Hin]; [apply (ag_values _ Hs); left; rewrite Hc; set_solver|].
    rewrite Hget in Hin. case_decide; [congruence|]. apply (ag_values _ Hs). by right.
  - intros m Hq Hma. rewrite Hsol. apply orb_true_iff. right. by apply (ag_parent _ Hs).
  - intros m (Hma & Hmp & Hml). rewrite Hsol. apply orb_false_iff.
    destruct (tr_parent _ _ _ _ Ht m Hml Hma) as (_ & Hd & _).
    split; [apply bool_decide_eq_false_2; intros ->; rewrite Hmp in Hd; lia|].
    apply not_true_is_false. intros Hms.
    assert (Hmq : queued m s) by (apply (so_flag _ _ _ _ Hok); by right).
    pose proof (ag_parent _ Hs m Hmq Hma) as Hpar. rewrite Hmp in Hpar.
    unfold is_slot_solved, bt_contains in Hpar. by rewrite Hnew in Hpar.
  - intros Hna. rewrite Hsol. apply orb_true_iff. right. by apply (ag_parent _ Hs).
  - rewrite Hsol. by rewrite bool_decide_eq_true_2.
  - intros m. rewrite Hsol. by intros [->%bool_decide_eq_true_1|?]%orb_true_iff; auto.
Qed.

Definition found (c : Command) : Prop :=
  match c with
  | Partial s => follows s
  | Complete h _ => h = spooky (solved_hash target)
  | _ => False
  end.

(** After slot [n] is solved and every child of it is queued, the branch is
    closed again. *)
Lemma follows_next s n v rest s' :
  follows s -> slot_cursors s = (n, v) :: rest ->
  let s1 := mark_slot_solved n v (pop_cursor s rest) in
  solution_signature s1 = None -> length (solved_slots s1) <> total_slots s1 ->
  grows s1 s' -> (forall m, queued m s1 -> queued m s') -> (forall m, child n m -> queued m s') ->
  follows s'.
Proof.
  intros Hf Hc s1 Hsig Hl (Hs' & Hso & Hsi & Hto & _) Hq Hch.
  destruct (pop_agrees s n v rest (fo_agrees _ Hf) Hc) as (_ & _ & _ & _ & Hback).
  split; [done| |congruence|congruence].
  intros m Hm' Hma Hp. assert (Hp1 : is_slot_solved s1 (parent m) = true)
    by (unfold is_slot_solved in *; by rewrite <- Hso).
  destruct (Hback _ Hp1) as [Heq|Hps]; [by apply Hch|].
  apply Hq. by apply (fo_closed _ Hf).
Qed.

Lemma try_finds fuel s cmds :
  follows s -> try_complete fuel idx mp s = Ok cmds -> exists c, c ∈ cmds /\ found c.
Proof.
  revert s cmds. induction fuel as [|fuel IH]; intros s cmds Hf Htc; [done|]. cbn [try_complete] in Htc.
  pose proof (fo_agrees _ Hf) as Hs. pose proof (ag_ok _ Hs) as Hok.
  destruct (slot_cursors s) as [|[n v] rest] eqn:Hc.
  { destruct (fo_partial _ Hf). rewrite (solved_is_target s Hs), (so_total _ _ _ _ Hok);
      [|by apply exhausted, (fo_closed _ Hf)].
    unfold target, assignment. by rewrite length_map, length_seq. }
  destruct (pop_agrees s n v rest Hs Hc) as (Hv & Hs1 & Hco & Hns & _).
  destruct (pop_spec idx mp e n v rest s Hok Hc) as (_ & _ & _ & _ & _ & Hn).
  pose proof (follows_next s n v rest) as Hnext. specialize (Hnext) with (1 := Hf) (2 := Hc). cbv zeta in Hnext.
  set (s1 := mark_slot_solved n v (pop_cursor s rest)) in *.
  assert (Hsig : solution_signature s1 =
    if Nat.eqb (length (solved_slots s1)) (total_slots s1) then Some (spooky (solved_hash (solved_slots s1)))
    else None) by (unfold s1; cbn; by rewrite (fo_unsigned _ Hf)).
  clearbody s1.
  rewrite Hsig in Htc. destruct (Nat.eqb_spec (length (solved_slots s1)) (total_slots s1)) as [Hl|Hl].
  { injection Htc as <-. eexists. split; [apply list_elem_of_here|]. cbn [found].
    rewrite (solved_is_target s1); [done|done|]. intros m Hm'.
    destruct (full_solution _ _ _ _ (ag_ok _ Hs1) Hl m Hm') as [w Hw].
    unfold is_slot_solved, bt_contains. by rewrite Hw. }
  specialize (Hnext) with (1 := Hsig) (2 := Hl).
  destruct (lookup_lt_is_Some_2 _ _ Hn) as [sp Hsp]. rewrite Hsp, Hv in Htc.
  destruct (collect_tree s1 n sp Hsp Hco) as (alt & Hcol & Hdom & Hall). rewrite Hcol in Htc.
  assert (Halt : forall m l, alt !! m = Some l -> child n m /\ sigma m ∈ l).
  { intros m l Hml. pose proof (Hdom m l Hml) as Hch. split; [done|].
    destruct (Hall m Hch) as (l' & Hl' & ?). rewrite Hml in Hl'. by injection Hl' as ->. }
  destruct (enqueue_singles s1 n alt Hs1 Hns Halt) as (s2 & He & Hg2 & Hq2 & Hk2). rewrite He in Htc.
  cbn [mbind outcome_bind] in Htc.
  assert (Hcase : forall m, child n m -> queued m s2 \/ exists l, (m, l) ∈ open_slots alt).
  { intros m Hch. destruct (Hall m Hch) as (l & Hml & Hin). destruct l as [|x [|y l]]; [set_solver| |].
    - left. by apply (Hq2 m x).
    - right. eexists. apply open_slots_complete; [exact Hml|cbn; lia]. }
  destruct (open_slots alt) as [|o os] eqn:Ho.
  { apply (IH s2); [|done]. apply Hnext; [done|done|].
    intros m Hch. destruct (Hcase m Hch) as [?|[l Hin]]; [done|set_solver]. }
  rewrite <- Ho in Htc, Hcase. clear Ho.
  destruct (choices _ _ _) as [alts| |] eqn:Hchs; cbn [mbind outcome_bind] in Htc; [|done|done].
  destruct (try_complete fuel idx mp s2) as [more| |]; cbn [mbind outcome_bind] in Htc; [|done|done].
  injection Htc as <-. pose proof Hg2 as (Hs2 & Hso2 & Hsi2 & Hto2 & Hpe2).
  destruct (digits_exist s2 (open_slots alt)) as (q & Hsd & Hfd & Hdo).
  { apply Forall_forall. intros [m l] [Hml _]%open_slots_elem. cbn. destruct (Halt m l Hml) as [(? & Hmp & ?) ?].
    split_and!; try done. rewrite Hmp. unfold is_slot_solved. by rewrite Hso2. }
  assert (Henum : exists b, choose s2 q = Ok b /\ b ∈ alts).
  { eapply choices_enumerate; [exact Hsd| |done| |exact Hchs].
    2: { apply remaining_below; [done|done|]. by rewrite map_map. }
    apply Forall_forall. intros d ([m w] & -> & [_ Hw]%open_slots_elem)%list_elem_of_fmap.
    unfold digit_ok. cbn. lia. }
  destruct Henum as (b & Hb & Hin).
  destruct (choose_follows s2 q Hs2 Hfd) as (b' & Hb' & Hgb & Hqb & Hkb). rewrite Hb in Hb'. injection Hb' as <-.
  exists (Partial b). split; [apply elem_of_app; left; apply list_elem_of_fmap; eauto|]. cbn.
  apply Hnext; [|by auto|].
  - destruct Hgb as (? & ? & ? & ? & ?). unfold grows. split_and!; [done|congruence..].
  - intros m Hch. destruct (Hcase m Hch) as [?|[l Hin']]; [by auto|].
    assert (Hd : (m, l) ∈ map (fun d => (d.1.1, d.2)) q).
    { rewrite Hsd, map_map. cbn. apply list_elem_of_fmap. by exists (m, l). }
    apply list_elem_of_fmap in Hd as (d & [= -> ->] & Hd). by apply Hqb.
Qed.

(** ** The command loop stops only when its queue is empty *)

Definition closing (c : Command) : bool := match c with Partial _ => false | _ => true end.

(** [inflight] counts the closing commands in the queue, and the last command
    is one of them. *)
Definition loop_ok (q : list Command) (i : Z) : Prop :=
  i = Z.of_nat (length (List.filter closing q)) /\
  (q = [] \/ exists q' t, q = q' ++ [t] /\ closing t = true).

Lemma filter_partials ps : List.filter closing (map Partial ps) = [].
Proof. by induction ps. Qed.

Lemma loop_ok_send q i ps t :
  i = Z.of_nat (length (List.filter closing q)) -> closing t = true ->
  loop_ok (q ++ map Partial ps ++ [t]) (i + 1).
Proof.
  intros -> Ht'. split.
  - rewrite !List.filter_app, filter_partials. cbn. rewrite Ht', length_app. cbn. lia.
  - right. exists (q ++ map Partial ps), t. by rewrite <- app_assoc.
Qed.

Lemma loop_ok_close c q i :
  loop_ok (c :: q) i -> closing c = true -> loop_ok q (i - 1) /\ (i - 1 = 0 -> q = []).
Proof.
  intros [Hi' Hlast] Hc. cbn in Hi'. rewrite Hc in Hi'. cbn in Hi'.
  assert (Hq : q = [] \/ exists q' t, q = q' ++ [t] /\ closing t = true).
  { destruct Hlast as [?|(q' & t & Heq & Ht')]; [done|].
    destruct q' as [|c' q']; cbn in Heq; injection Heq as <- ->; [by left|right; eauto]. }
  split; [split; [lia|done]|]. intros Hz.
  destruct Hq as [?|(q' & t & -> & Ht')]; [done|].
  rewrite List.filter_app in Hi'. cbn in Hi'. rewrite Ht', length_app in Hi'. cbn in Hi'. lia.
Qed.

Definition hit (r : gmap Z MatchPathSolution) : Prop := is_Some (r !! spooky (solved_hash target)).

Lemma hit_insert h s r : hit r -> hit (<[h := s]> r).
Proof. unfold hit. intros. by apply lookup_insert_is_Some'; right. Qed.

Lemma sent_ok k ps t s :
  Forall (searching idx mp e a (pending s)) ps -> terminal idx mp e a t ->
  (pending s <= k)%nat -> (pending s <= length (slots mp))%nat ->
  Forall (command_ok idx mp e a k) (map Partial ps ++ [t]).
Proof.
  intros Hps Ht' Hk Hl. apply Forall_app. split; [|by repeat constructor; destruct t].
  apply Forall_fmap. eapply Forall_impl; [exact Hps|].
  intros x (? & ? & ? & ?). cbn. unfold searching. split_and!; try done; lia.
Qed.

Lemma run_finds fuel q i r r' :
  loop_ok q i -> Forall (command_ok idx mp e a (S (length (slots mp)))) q ->
  (exists c, c ∈ q /\ found c) \/ hit r -> run fuel idx mp q i r = Ok r' -> hit r'.
Proof.
  revert q i r. induction fuel as [|fuel IH]; intros q i r Hl Hq Hh Hrun; [done|].
  destruct q as [|c q]; cbn [run] in Hrun.
  { injection Hrun as <-. destruct Hh as [(c & ?%not_elem_of_nil & _)|?]; done. }
  apply Forall_cons in Hq as [Hc Hq].
  assert (Hclose : forall r1, closing c = true -> ((exists c, c ∈ q /\ found c) \/ hit r1) ->
    (if i - 1 =? 0 then Ok r1 else run fuel idx mp q (i - 1) r1) = Ok r' -> hit r').
  { intros r1 Hcc Hh1. destruct (loop_ok_close c q i Hl Hcc) as [Hl1 Hnil].
    destruct (Z.eqb_spec (i - 1) 0) as [Hz|]; [|by apply IH].
    intros [= <-]. rewrite (Hnil Hz) in Hh1. destruct Hh1 as [(c' & ?%not_elem_of_nil & _)|?]; done. }
  destruct c as [s|h s|er|]; cbn [mbind outcome_bind] in Hrun; [|apply (Hclose (<[h := s]> r))|done|apply (Hclose r)];
    try done.
  - destruct Hc as [(Hs & Ha & Hg & Hp) Hle].
    destruct (try_complete_spec idx mp e a (S (length (slots mp))) s Hi Hcl)
      as (ps & t & Htc & Hps & Ht'). { unfold searching. split_and!; try done. }
    rewrite Htc in Hrun. cbn [mbind outcome_bind] in Hrun. destruct Hl as [Hcount _].
    change (List.filter closing (Partial s :: q)) with (List.filter closing q) in Hcount.
    assert (Ht2 : closing t = true) by (by destruct t).
    destruct (Z.eqb_spec (i + 1) 0); [lia|].
    revert Hrun. apply IH; [by apply loop_ok_send| |].
    + apply Forall_app. split; [done|]. by eapply sent_ok; [done|done|lia|].
    + destruct Hh as [(c & [->|Hin]%elem_of_cons & Hf)|?]; [|left; exists c; set_solver|by right].
      destruct (try_finds _ _ _ Hf Htc) as (c & Hin & Hfc). left. exists c. set_solver.
  - destruct Hh as [(c & [->|Hin]%elem_of_cons & Hf)|?]; [| |by right; apply hit_insert].
    + right. cbn in Hf. subst h. unfold hit. rewrite lookup_insert_eq. eauto.
    + left. eauto.
  - destruct Hh as [(c & [->|Hin]%elem_of_cons & Hf)|?]; [done|left; eauto|by right].
Qed.

Lemma start_follows s :
  enqueue_slot (E:=EvaluationError) a (Some e) (new_solution (length (slots mp)) a) = Ok s -> follows s.
Proof.
  pose proof (tr_root _ _ _ _ Ht) as Ha.
  destruct (start_ok idx mp e a Ha) as (s' & Hs' & (Hok & Han & Hsig & _) & _). rewrite Hs'. intros [= <-].
  unfold enqueue_slot in Hs'. cbn [queued_slots new_solution] in Hs'.
  rewrite (lookup_replicate_2 (length (slots mp)) false a Ha) in Hs'. injection Hs' as <-.
  split; [split| | |]; cbn; try done.
  - intros n v [Hin|?]; [|done]. apply list_elem_of_singleton in Hin as [= -> ->]. by destruct Hm as [-> _].
  - intros n. destruct (decide (n = a)); [done|]. rewrite list_lookup_insert_ne by done.
    by intros [? _]%lookup_replicate.
  - lia.
Qed.

Lemma solve_finds fuel r : solve fuel idx mp e a = Ok r -> hit r.
Proof.
  unfold solve. destruct (start_ok idx mp e a (tr_root _ _ _ _ Ht)) as (s & Hs & Hok).
  pose proof (start_follows s Hs) as Hf. rewrite Hs. cbn [mbind outcome_bind].
  destruct fuel as [|fuel]; [done|]. cbn [run].
  destruct Hok as [Hse Hle].
  destruct (try_complete_spec idx mp e a (S (length (slots mp))) s Hi Hcl Hse) as (ps & t & Htc & Hps & Ht').
  rewrite Htc. cbn [mbind outcome_bind]. change (0 + 1 =? 0) with false.
  destruct (try_finds _ _ _ Hf Htc) as (c & Hin & Hfc).
  apply run_finds.
  - apply (loop_ok_send [] 0); [done|by destruct t].
  - by eapply (sent_ok _ ps t s); [done|done|lia|].
  - left. eauto.
Qed.
End complete.

(** ** The properties *)

(** A complete solution stored under [h]: every slot has a value, derived from
    the anchor element along the other slots of the same solution. *)
Definition sound_solution {C : Chrono} {H : Hashers} (idx : SlotIndex) (mp : MatchPath) (a : nat) (e : Element)
    (h : Z) (s : MatchPathSolution) : Prop :=
  h = spooky (solved_hash (solved_slots s)) /\
  bt_get a (solved_slots s) = Some (Some e) /\
  forall n, (n < length (slots mp))%nat ->
    exists v, bt_get n (solved_slots s) = Some v /\ reached idx mp a e (solved_slots s) n v.


(** [C17] On a pattern whose slot graph is a tree the solver misses no match:
    every assignment of elements to slots that has the changed element at the
    anchor and in which each slot's element is offered by the index next to its
    parent's is among the solutions, under its signature. *)
Theorem solve_complete_on_trees {C : Chrono} {H : Hashers} idx mp a e parent depth sigma fuel r :
  index_total idx -> slots_closed mp -> tree mp a parent depth ->
  supported idx mp a e parent sigma ->
  solve fuel idx mp e a = Ok r ->
  exists s, r !! spooky (solved_hash (assignment sigma (length (slots mp)))) = Some s.
Proof. intros Hi Hcl Ht Hm Hr. by eapply solve_finds. Qed.

(** ** A pattern [(a)-[r]->(b)] and a graph with two matches *)

Section line.
#[local] Existing Instance Sample.hashers.
#[local] Existing Instance Sample.chrono.

Definition plain_slot (name : string) (i o : list nat) : MatchPathSlot :=
  {| spec := {| annotation := Some name; spec_labels := []; predicates := [] |};
     in_slots := i; out_slots := o; paths := {[0%nat]}; optional := false |}.

Definition hop : MatchPath :=
  {| slots := [plain_slot "a" [] [1]; plain_slot "r" [0] [2]; plain_slot "b" [1] []]%nat;
     optional_paths := ∅ |}.

Definition fork : SlotIndex := list_index
  [(0, node "a1"); (2, node "b1"); (2, node "b2");
   (1, rel "r1" "a1" "b1"); (1, rel "r2" "a1" "b2")]%nat.

Definition second_match (n : nat) : option Element :=
  match n with
  | 0 => Some (node "a1")
  | 1 => Some (rel "r2" "a1" "b2")
  | _ => Some (node "b2")
  end%nat.

Definition fork_result : gmap Z MatchPathSolution := ok_or ∅ (solve 20 fork hop (node "a1") 0).

Lemma fork_total : index_total fork.
Proof. by split_and!. Qed.

Lemma hop_closed : slots_closed hop.
Proof.
  intros i s j Hs Hj. assert (i = 0 \/ i = 1 \/ i = 2)%nat as [->|[->| ->]].
  { apply lookup_lt_Some in Hs. cbn in Hs. lia. }
  all: injection Hs as <-; cbn in *; set_solver by lia.
Qed.

Lemma hop_tree : tree hop 0 pred id.
Proof.
  split.
  - cbn. lia.
  - intros [|[|[|n]]]; cbn; intros; try lia; (split; [lia|split; [unfold id; lia|]]); eexists; (split; [done|]); set_solver.
  - intros [|[|[|p]]] sp n Hsp Hn; try done; injection Hsp as <-; cbn in Hn; set_solver by lia.
  - intros [|[|[|p]]] sp Hsp; try done; injection Hsp as <-; cbn; by apply (bool_decide_unpack _); vm_compute.
Qed.

Lemma second_match_supported : supported fork hop 0 (node "a1") pred second_match.
Proof.
  split; [done|]. intros [|[|[|n]]] Hn Hna; cbn in Hn; try lia.
  - exists Outward, (plain_slot "a" [] [1%nat]), (plain_slot "r" [0%nat] [2%nat]), [rel "r1" "a1" "b1"; rel "r2" "a1" "b2"].
    split_and!; [reflexivity|apply list_elem_of_here|reflexivity|reflexivity|apply list_elem_of_further, list_elem_of_here].
  - exists Outward, (plain_slot "r" [0%nat] [2%nat]), (plain_slot "b" [1%nat] []), [node "b2"].
    split_and!; [reflexivity|apply list_elem_of_here|reflexivity|reflexivity|apply list_elem_of_here].
Qed.


Lemma solve_complete_on_trees_witness :
  exists s, fork_result !! spooky (solved_hash (assignment second_match 3)) = Some s.
Proof.
  apply (solve_complete_on_trees fork hop 0 (node "a1") pred id second_match 20).
  - apply fork_total.
  - apply hop_closed.
  - apply hop_tree.
  - apply second_match_supported.
  - refine (is_ok_eq ∅ (solve 20 fork hop (node "a1") 0) _). by_compute.
Defined.

(** ** A cyclic pattern *)

Definition triangle_result : gmap Z MatchPathSolution :=
  ok_or ∅ (solve 20 open_graph triangle (node "a1") 0).

Definition slot_node (s : MatchPathSolution) (n : nat) : option ElementReference :=
  match bt_get n (solved_slots s) with Some (Some e) => Some (get_reference e) | _ => None end.
Definition slot_target (s : MatchPathSolution) (n : nat) : option ElementReference :=
  match bt_get n (solved_slots s) with Some (Some (Relation _ _ out_node _)) => Some out_node | _ => None end.

Definition open_ended (s : MatchPathSolution) : bool :=
  bool_decide (slot_target s 3 = Some (ref "c2")) && bool_decide (slot_node s 4 = Some (ref "c1")).

(** On a cyclic pattern the walk does not compare the two ends of the edge
    that closes the cycle: for [(a)-[r]->(b)-[s]->(c)-[t]->(a)] and a graph in
    which [s1] ends in [c2] while [t1] starts in [c1], a solution is returned
    whose slot [s] holds a relation into [c2] and whose slot [c] holds [c1]. *)
Theorem cyclic_pattern_false_match :
  exists r h s, solve 20 open_graph triangle (node "a1") 0 = Ok r /\ r !! h = Some s /\
    slot_target s 3 = Some (ref "c2") /\ slot_node s 4 = Some (ref "c1").
Proof.
  assert (Hx : existsb (fun e => open_ended e.2) (map_to_list triangle_result) = true) by by_compute.
  apply existsb_exists in Hx as ([h s] & Hin & Hs). apply list_elem_of_In, elem_of_map_to_list in Hin.
  apply andb_prop in Hs as [H1%bool_decide_eq_true_1 H2%bool_decide_eq_true_1].
  exists triangle_result, h, s. split; [|exact (conj Hin (conj H1 H2))].
  refine (is_ok_eq ∅ (solve 20 open_graph triangle (node "a1") 0) _). by_compute.
Qed.
End line.
