(* ===== verification/NaiveQuery.v ===== *)
(** * What a MATCH pattern means

    The reference semantics the path solver and the continuous query are
    compared with: a match gives every slot of the pattern an element of the
    graph that passes the slot's test, such that the elements of adjacent slots
    are connected. [naive_matches] enumerates them all. *)

From S2P Require Import Prelude BTree Floats Hashing Ast Models Errors Values MatchPath Solver SolverFacts SolverComplete.

(** The current elements of a store, by reference. *)
Notation Graph := (gmap ElementReference Element).

(** An element follows another along an edge of the pattern: a relation leaves
    the node it has as its [in_node] and enters its [out_node]. *)
Definition linked `{Chrono} (e e' : Element) : bool :=
  match e, e' with
  | Node m _, Relation _ in_node _ _ => bool_decide (in_node = reference m)
  | Relation _ _ out_node _, Node m _ => bool_decide (out_node = reference m)
  | _, _ => false
  end.

(** The edges of the slot graph. *)
Definition pattern_edges (mp : MatchPath) : list (nat * nat) :=
  concat (map (fun e => map (pair e.1) (out_slots e.2)) (enumerate (slots mp))).

Lemma elem_of_pattern_edges mp p n : (p, n) ∈ pattern_edges mp <-> out_of (slots mp) p n.
Proof.
  unfold pattern_edges, out_of. rewrite list_elem_of_In, in_concat. split.
  - intros (l & Hin & Hl). apply list_elem_of_In, list_elem_of_fmap in Hin as ([i s] & -> & Hin).
    apply list_elem_of_In, list_elem_of_fmap in Hl as (j & [= -> ->] & Hj).
    apply elem_of_enumerate in Hin. eauto.
  - intros (s & Hs & Hn). exists (map (pair p) (out_slots s)). split; apply list_elem_of_In, list_elem_of_fmap.
    + exists (p, s). split; [done|]. by apply elem_of_enumerate.
    + eauto.
Qed.

(** All lists of [k] elements of [l]. *)
Fixpoint tuples {A} (k : nat) (l : list A) : list (list A) :=
  match k with
  | O => [[]]
  | S k => concat (map (fun x => map (cons x) (tuples k l)) l)
  end.

Lemma elem_of_tuples {A} k (l : list A) m : m ∈ tuples k l <-> length m = k /\ forall x, x ∈ m -> x ∈ l.
Proof.
  revert m. induction k as [|k IH]; intros m; cbn.
  - rewrite list_elem_of_singleton. split; [intros ->; split; [done|set_solver]|]. intros [Hm _]. by destruct m.
  - rewrite list_elem_of_In, in_concat. split.
    + intros (l' & Hx & Ht). apply list_elem_of_In, list_elem_of_fmap in Hx as (x & -> & Hx).
      apply list_elem_of_In, list_elem_of_fmap in Ht as (t & -> & Ht).
      apply IH in Ht as [<- Ht]. split; [done|]. intros y [->|Hy]%elem_of_cons; auto.
    + destruct m as [|x m]; [by intros []|]. intros [[= Hm] Hin].
      exists (map (cons x) (tuples k l)). split; apply list_elem_of_In, list_elem_of_fmap.
      * exists x. split; [done|]. apply Hin. set_solver.
      * exists m. split; [done|]. apply IH. split; [done|]. intros y Hy. apply Hin. set_solver.
Qed.

Lemma NoDup_tuples {A} k (l : list A) : NoDup l -> NoDup (tuples k l).
Proof.
  intros Hl. induction k as [|k IH]; cbn; [apply NoDup_singleton|].
  assert (H' : forall l', NoDup l' -> NoDup (concat (map (fun x => map (cons x) (tuples k l)) l'))).
  { induction 1 as [|x l' Hx Hl' IH']; cbn; [constructor|]. apply NoDup_app. split_and!; [|intros t Ht Hin|done].
    - apply NoDup_fmap_2; [by intros ? ? [= ->]|done].
    - apply list_elem_of_fmap in Ht as (t' & -> & _).
      apply list_elem_of_In, in_concat in Hin as (l2 & Hy & Hin).
      apply list_elem_of_In, list_elem_of_fmap in Hy as (y & -> & Hy).
      by apply list_elem_of_In, list_elem_of_fmap in Hin as (t2 & [= -> ->] & _). }
  by apply H'.
Qed.

Lemma elem_of_List_filter {A} (f : A -> bool) l x : x ∈ List.filter f l <-> x ∈ l /\ f x = true.
Proof. by rewrite list_elem_of_In, filter_In, <- list_elem_of_In. Qed.

Section naive.
Context {C : Chrono} {H : Hashers}.
Context (mp : MatchPath) (slot_test : nat -> Element -> bool).
Implicit Types (G : Graph) (m : list Element).

(** Every slot's element passes its test, and adjacent ones are connected. *)
Definition match_ok (m : list Element) : bool :=
  forallb (fun e => slot_test e.1 e.2) (enumerate m) &&
  forallb (fun e => match m !! e.1, m !! e.2 with Some x, Some y => linked x y | _, _ => false end)
    (pattern_edges mp).

Definition naive_matches (G : Graph) : list (list Element) :=
  List.filter match_ok (tuples (length (slots mp)) (map snd (map_to_list G))).

(** The elements of a graph are filed under their references. *)
Definition graph_ok (G : Graph) : Prop := forall r e, G !! r = Some e -> get_reference e = r.

Record is_match G m : Prop := {
  im_length : length m = length (slots mp);
  im_slot : forall n e, m !! n = Some e -> G !! get_reference e = Some e /\ slot_test n e = true;
  im_edge : forall p n, out_of (slots mp) p n ->
    exists x y, m !! p = Some x /\ m !! n = Some y /\ linked x y = true;
}.

Lemma elem_of_values G e : graph_ok G -> e ∈ map snd (map_to_list G) <-> G !! get_reference e = Some e.
Proof.
  intros HG. rewrite list_elem_of_fmap. split.
  - intros ([r x] & -> & Hin%elem_of_map_to_list). cbn. by rewrite (HG _ _ Hin).
  - intros He. exists (get_reference e, e). split; [done|]. by apply elem_of_map_to_list.
Qed.

Lemma NoDup_values G : graph_ok G -> NoDup (map snd (map_to_list G)).
Proof.
  intros HG. apply (NoDup_fmap_1 get_reference).
  assert (Hk : map get_reference (map snd (map_to_list G)) = map fst (map_to_list G)).
  { rewrite map_map. apply map_ext_in. intros [r e] Hin%list_elem_of_In%elem_of_map_to_list. by apply HG. }
  change (NoDup (map get_reference (map snd (map_to_list G)))). rewrite Hk. apply NoDup_fst_map_to_list.
Qed.

Lemma elem_of_naive_matches G m : graph_ok G -> m ∈ naive_matches G <-> is_match G m.
Proof.
  intros HG. unfold naive_matches. rewrite elem_of_List_filter, elem_of_tuples.
  unfold match_ok. rewrite andb_true_iff, !forallb_forall. split.
  - intros ([Hl Hin] & Hs & He). split; [done| |].
    + intros n e Hn. split; [apply elem_of_values, Hin; [done|by eapply list_elem_of_lookup_2]|].
      apply (Hs (n, e)). by apply list_elem_of_In, elem_of_enumerate.
    + intros p n Ho%elem_of_pattern_edges%list_elem_of_In. specialize (He _ Ho). cbn in He.
      destruct (m !! p) as [x|], (m !! n) as [y|]; try done. by eexists x, y.
  - intros [Hl Hs He]. split_and!; [done| | |].
    + intros x [n Hn]%list_elem_of_lookup. apply elem_of_values; [done|]. by apply (Hs n).
    + intros [n e] Hin%list_elem_of_In%elem_of_enumerate. by apply Hs.
    + intros [p n] (x & y & Hx & Hy & Hxy)%list_elem_of_In%elem_of_pattern_edges%He. cbn. by rewrite Hx, Hy.
Qed.

Lemma NoDup_naive_matches G : graph_ok G -> NoDup (naive_matches G).
Proof. intros HG. apply NoDup_ListNoDup, List.NoDup_filter, NoDup_ListNoDup, NoDup_tuples. by apply NoDup_values. Qed.

(** The match holds the element filed under [r]. *)
Definition through (r : ElementReference) (m : list Element) : bool :=
  existsb (fun e => bool_decide (get_reference e = r)) m.

Lemma through_true r m : through r m = true <-> exists n e, m !! n = Some e /\ get_reference e = r.
Proof.
  unfold through. rewrite existsb_exists. split.
  - intros (e & [n Hn]%list_elem_of_In%list_elem_of_lookup & He%bool_decide_eq_true). eauto.
  - intros (n & e & Hn & He). exists e. split; [by eapply list_elem_of_In, list_elem_of_lookup_2|].
    by apply bool_decide_eq_true.
Qed.

(** Graphs that differ at [r] only have the same matches that avoid [r]. *)
Lemma is_match_off G G' r m :
  (forall r', r' <> r -> G !! r' = G' !! r') -> through r m = false -> is_match G m -> is_match G' m.
Proof.
  intros HG Hr [Hl Hs He]. split; [done| |done]. intros n e Hn. destruct (Hs n e Hn) as [Hg Ht]. split; [|done].
  rewrite <- HG; [done|]. intros Heq. apply not_true_iff_false in Hr. apply Hr, through_true. eauto.
Qed.

Lemma naive_off G G' r :
  graph_ok G -> graph_ok G' -> (forall r', r' <> r -> G !! r' = G' !! r') ->
  List.filter (fun m => negb (through r m)) (naive_matches G) ≡ₚ
  List.filter (fun m => negb (through r m)) (naive_matches G').
Proof.
  intros HG HG' Hoff. apply NoDup_Permutation.
  { by apply NoDup_ListNoDup, List.NoDup_filter, NoDup_ListNoDup, NoDup_naive_matches. }
  { by apply NoDup_ListNoDup, List.NoDup_filter, NoDup_ListNoDup, NoDup_naive_matches. }
  intros m. rewrite !elem_of_List_filter, (elem_of_naive_matches G), (elem_of_naive_matches G') by done.
  split; intros [Hm Hr%negb_true_iff]; (split; [|by rewrite Hr]).
  - by apply (is_match_off G G' r).
  - apply (is_match_off G' G r); [|done|done]. intros. symmetry. auto.
Qed.

Lemma filter_partition {A} (f : A -> bool) l : l ≡ₚ List.filter f l ++ List.filter (fun x => negb (f x)) l.
Proof.
  induction l as [|x l IH]; cbn; [done|]. destruct (f x); cbn; [by constructor|].
  by rewrite <- Permutation_middle, <- IH.
Qed.

(** *** Matches as solutions *)

Definition match_slots (m : list Element) : btree nat (option Element) := assignment (fun n => m !! n) (length (slots mp)).
Definition signature (m : list Element) : Z := spooky (solved_hash (match_slots m)).

(** Different matches have different signatures. *)
Definition signatures_distinct G : Prop :=
  forall m m', is_match G m -> is_match G m' -> signature m = signature m' -> m = m'.

Lemma match_slots_inj m m' :
  length m = length (slots mp) -> length m' = length (slots mp) -> match_slots m = match_slots m' -> m = m'.
Proof.
  intros Hl Hl' He. apply list_eq. intros n.
  pose proof (assignment_get (fun n => m !! n) (length (slots mp)) n) as Hn. fold (match_slots m) in Hn.
  rewrite He in Hn. unfold match_slots in Hn. rewrite assignment_get in Hn. case_decide; [by injection Hn|].
  rewrite !lookup_ge_None_2 by lia. done.
Qed.

(** The solution of a match, started at any slot. *)
Definition match_solution (m : list Element) : MatchPathSolution :=
  {| solved_slots := match_slots m; total_slots := length (slots mp);
     queued_slots := []; slot_cursors := []; solution_signature := Some (signature m); anchor_slot := O |}.

(** The row a match binds. *)
Definition match_row (m : list Element) : QueryVariables := into_query_variables mp (match_solution m) [].

(** The rows of the pattern over a graph. *)
Definition naive_rows (G : Graph) : list QueryVariables := map match_row (naive_matches G).

(** Rows through [r] and rows that avoid it. *)
Definition rows_through (r : ElementReference) (G : Graph) : list QueryVariables :=
  map match_row (List.filter (through r) (naive_matches G)).
Definition rows_off (r : ElementReference) (G : Graph) : list QueryVariables :=
  map match_row (List.filter (fun m => negb (through r m)) (naive_matches G)).

Lemma naive_rows_split r G : naive_rows G ≡ₚ rows_through r G ++ rows_off r G.
Proof. unfold naive_rows, rows_through, rows_off. by rewrite <- map_app, <- filter_partition. Qed.

Lemma rows_off_eq r G G' :
  graph_ok G -> graph_ok G' -> (forall r', r' <> r -> G !! r' = G' !! r') -> rows_off r G ≡ₚ rows_off r G'.
Proof. intros. unfold rows_off. apply Permutation_map. by apply naive_off. Qed.

(** No match goes through an element that is not there. *)
Lemma rows_through_None r G : graph_ok G -> G !! r = None -> rows_through r G = [].
Proof.
  intros HG Hr. unfold rows_through. destruct (List.filter _ _) as [|m l] eqn:Hf; [done|].
  assert (Hin : m ∈ List.filter (through r) (naive_matches G)) by (rewrite Hf; set_solver).
  rewrite elem_of_List_filter, elem_of_naive_matches in Hin by done.
  destruct Hin as [[_ Hs _] (n & e & Hn & <-)%through_true]. destruct (Hs n e Hn). congruence.
Qed.
End naive.
