(* ===== verification/SolverMatches.v ===== *)
(** * The path solver computes the matches of a pattern

    On a tree-shaped pattern without optional slots, over an index that reads
    a graph, the solutions anchored at an element are the matches that hold it
    at the anchor slot: [SolverFacts] and [SolverComplete] put together and
    lifted from the index to the graph. *)

From S2P Require Import Prelude BTree Floats Hashing Ast Models Errors Values MatchPath Solver SolverFacts SolverComplete.
From S2P Require Import NaiveQuery.

(** ** The search never fails over an index that never does *)

Section never_fails.
Context {C : Chrono} {H : Hashers}.

Definition never_err {E A} (m : outcome E A) : Prop := forall e, m <> Err e.

Lemma never_err_bind {E A B} (m : outcome E A) (f : A -> outcome E B) :
  never_err m -> (forall a, never_err (f a)) -> never_err (m ≫= f).
Proof. intros Hm Hf e. destruct m; cbn; [apply Hf|by destruct (Hm e0)|done]. Qed.

Lemma never_err_foldl {E A B} (f : A -> B -> outcome E A) l a :
  (forall a b, never_err (f a b)) -> never_err (out_foldl f a l).
Proof.
  intros Hf. revert a. induction l as [|b l IH]; intros a; [done|]. cbn. by apply never_err_bind.
Qed.

Lemma never_err_ok {E A} (a : A) : never_err (E:=E) (Ok a).
Proof. by intros e. Qed.
Lemma never_err_panic {E A} : never_err (E:=E) (A:=A) Panic.
Proof. by intros e. Qed.
Hint Resolve never_err_ok never_err_panic : core.

Definition index_answers (idx : SlotIndex) : Prop :=
  (forall n r, is_ok (get_slot_element_by_ref n r) = true) /\
  (forall n r, is_ok (get_slot_elements_by_inbound n r) = true) /\
  (forall n r, is_ok (get_slot_elements_by_outbound n r) = true).

Lemma answers_total idx : index_answers idx -> index_total idx.
Proof.
  intros (H1 & H2 & H3). split_and!; intros n r Hp.
  - specialize (H1 n r). by rewrite Hp in H1.
  - specialize (H2 n r). by rewrite Hp in H2.
  - specialize (H3 n r). by rewrite Hp in H3.
Qed.

Lemma adjacent_ok idx e n d : index_answers idx -> exists l, get_adjacent_elements idx e n d = Ok l.
Proof.
  intros (H1 & H2 & H3). destruct e as [m ps|m i o ps]; cbn.
  - specialize (H2 n (reference m)). specialize (H3 n (reference m)). destruct d.
    + destruct (get_slot_elements_by_inbound n _); by eauto.
    + destruct (get_slot_elements_by_outbound n _); by eauto.
  - specialize (H1 n (match d with Outward => o | Inward => i end)).
    destruct (get_slot_element_by_ref n _); [|done|done]. by eexists.
Qed.

Lemma collect_never_err idx mp sol slot el : index_answers idx -> never_err (collect_alternatives idx mp sol slot el).
Proof.
  intros Hi. assert (Hc : forall d alt n, never_err (collect_slot idx mp sol el d alt n)).
  { intros d alt n. unfold collect_slot. destruct (is_slot_solved sol n); [done|].
    apply never_err_bind; [|intros found; by destruct (slots mp !! n)].
    destruct el as [e|]; [|done]. by destruct (adjacent_ok idx e n d Hi) as [l ->]. }
  apply never_err_bind; [|intros alt]; by apply never_err_foldl.
Qed.

Lemma enqueue_never_err {E} n v s : never_err (enqueue_slot (E:=E) n v s).
Proof. unfold enqueue_slot. by destruct (queued_slots s !! n) as [[]|]. Qed.

Lemma choices_never_err fuel s p : never_err (choices fuel s p).
Proof.
  revert p. induction fuel as [|fuel IH]; intros p; [done|]. cbn. apply never_err_bind.
  - apply never_err_foldl. intros a d. destruct (d.2 !! d.1.2); [apply enqueue_never_err|done].
  - intros a. destruct (bump p); [|done]. by apply never_err_bind.
Qed.

Definition not_error (c : Command) : Prop := match c with SolveError _ => False | _ => True end.

Lemma try_complete_answers idx mp fuel s :
  index_answers idx -> never_err (try_complete fuel idx mp s) /\
  forall l, try_complete fuel idx mp s = Ok l -> Forall not_error l.
Proof.
  intros Hi. revert s. induction fuel as [|fuel IH]; intros s; [by split|]. cbn [try_complete].
  destruct (slot_cursors s) as [|[n v] rest]; [split; [done|intros l [= <-]; by repeat constructor]|].
  set (s1 := mark_slot_solved n v (pop_cursor s rest)).
  destruct (solution_signature s1); [split; [done|intros l [= <-]; by repeat constructor]|].
  destruct (slots mp !! n) as [slot|]; [|by split].
  pose proof (collect_never_err idx mp s1 slot v Hi) as Hne.
  destruct (collect_alternatives idx mp s1 slot v) as [alt|er|]; [|by destruct (Hne er)|by split].
  assert (Hq : never_err (out_foldl enqueue_single s1 (map_to_list alt))).
  { apply never_err_foldl. intros a [m [|x [|y l]]]; cbn; [done|apply enqueue_never_err|done]. }
  destruct (out_foldl enqueue_single s1 _) as [s2|er|]; [|by destruct (Hq er)|by split].
  cbn [mbind outcome_bind]. destruct (IH s2) as [Hne2 Hok2].
  destruct (open_slots alt) as [|o os]; [done|].
  pose proof (choices_never_err (combinations (o :: os)) s2 (map (fun e => (e.1, O, e.2)) (o :: os))) as Hch.
  destruct (choices _ _ _) as [alts|er|]; [|by destruct (Hch er)|by split]. cbn [mbind outcome_bind].
  destruct (try_complete fuel idx mp s2) as [more|er|]; [|by destruct (Hne2 er)|by split].
  split; [done|]. intros l [= <-]. apply Forall_app. split; [|by apply Hok2].
  apply Forall_fmap, Forall_forall. done.
Qed.

Lemma run_never_err idx mp fuel q i r :
  index_answers idx -> Forall not_error q -> never_err (run fuel idx mp q i r).
Proof.
  intros Hi. revert q i r. induction fuel as [|fuel IH]; intros q i r Hq; [done|]. cbn [run].
  destruct q as [|c q]; [done|]. apply Forall_cons in Hq as [Hc Hq].
  destruct c as [s|h s|er|]; cbn [mbind outcome_bind]; [|by case_match; auto|done|by case_match; auto].
  destruct (try_complete_answers idx mp (S (length (slots mp))) s Hi) as [Hne Hok].
  destruct (try_complete _ idx mp s) as [sent|er|]; [|by destruct (Hne er)|done]. cbn [mbind outcome_bind].
  case_match; [done|]. apply IH, Forall_app. auto.
Qed.

Lemma solve_never_err idx mp fuel e a : index_answers idx -> never_err (solve fuel idx mp e a).
Proof.
  intros Hi. apply never_err_bind; [apply enqueue_never_err|]. intros s.
  apply run_never_err; [done|]. by repeat constructor.
Qed.
End never_fails.

(** ** An index that reads a graph *)

Section matches.
Context {C : Chrono} {H : Hashers}.

(** Slot [n] lists the elements of [P n], by reference or by the nodes their
    relations connect. *)
Record reads (idx : SlotIndex) (P : nat -> Element -> Prop) : Prop := {
  rd_ref : forall n r, exists o, get_slot_element_by_ref n r = Ok o /\
    forall x, o = Some x <-> P n x /\ get_reference x = r /\ match x with Node _ _ => True | _ => False end;
  rd_in : forall n r, exists l, get_slot_elements_by_inbound n r = Ok l /\
    forall x, x ∈ l <-> P n x /\ match x with Relation _ i _ _ => i = r | _ => False end;
  rd_out : forall n r, exists l, get_slot_elements_by_outbound n r = Ok l /\
    forall x, x ∈ l <-> P n x /\ match x with Relation _ _ o _ => o = r | _ => False end;
}.

Definition follows_edge (d : SolveDirection) (e x : Element) : bool :=
  match d with Outward => linked e x | Inward => linked x e end.

Lemma reads_answers idx P : reads idx P -> index_answers idx.
Proof.
  intros [H1 H2 H3]. split_and!; intros n r.
  - by destruct (H1 n r) as (? & -> & _).
  - by destruct (H2 n r) as (? & -> & _).
  - by destruct (H3 n r) as (? & -> & _).
Qed.

Lemma reads_adjacent idx P e n d :
  reads idx P -> exists l, get_adjacent_elements idx e n d = Ok l /\
    forall x, x ∈ l <-> P n x /\ follows_edge d e x = true.
Proof.
  intros [H1 H2 H3]. destruct e as [m ps|m i o ps]; cbn.
  - destruct d.
    + destruct (H2 n (reference m)) as (l & -> & Hl). exists l. split; [done|]. intros x. rewrite Hl.
      destruct x; cbn; [naive_solver|by rewrite bool_decide_eq_true].
    + destruct (H3 n (reference m)) as (l & -> & Hl). exists l. split; [done|]. intros x. rewrite Hl.
      destruct x; cbn; [naive_solver|by rewrite bool_decide_eq_true].
  - destruct (H1 n (match d with Outward => o | Inward => i end)) as (r & -> & Hr).
    exists (option_list r). split; [done|]. intros x.
    assert (Hx : x ∈ option_list r <-> r = Some x) by (destruct r; cbn; set_solver).
    rewrite Hx, Hr. destruct x as [m' ps'|]; cbn; [|destruct d; cbn; naive_solver].
    destruct d; cbn; rewrite bool_decide_eq_true; naive_solver.
Qed.

(** ** Patterns that are trees *)

(** Seen from every slot the pattern is a tree, and no slot is optional. *)
Record tree_pattern (mp : MatchPath) : Prop := {
  tp_tree : forall a, (a < length (slots mp))%nat -> exists parent depth, tree mp a parent depth;
  tp_edges : edges_ok (slots mp);
  tp_mandatory : forall n s, slots mp !! n = Some s -> optional s = false;
}.

Lemma tree_pattern_closed mp : tree_pattern mp -> slots_closed mp.
Proof.
  intros Ht i s j Hs [Hj|Hj].
  - assert (Ho : out_of (slots mp) i j) by (by exists s). apply (tp_edges _ Ht) in Ho as (s' & Hs' & _).
    by eapply lookup_lt_Some.
  - assert (Ho : in_of (slots mp) i j) by (by exists s). apply (tp_edges _ Ht) in Ho as (s' & Hs' & _).
    by eapply lookup_lt_Some.
Qed.

Context (idx : SlotIndex) (mp : MatchPath) (G : Graph) (slot_test : nat -> Element -> bool) (P : nat -> Element -> Prop).
Context (Hreads : reads idx P) (Htp : tree_pattern mp).
Context (HP : forall n x, (n < length (slots mp))%nat -> P n x <-> G !! get_reference x = Some x /\ slot_test n x = true).
Context (a : nat) (e : Element) (Ha : (a < length (slots mp))%nat).

Section rooted.
Context (parent depth : nat -> nat) (Ht : tree mp a parent depth).

(** [x] is on the way from [n] up to the root. *)
Inductive above_slot : nat -> nat -> Prop :=
| above_here n : above_slot n n
| above_parent n x : n <> a -> above_slot (parent n) x -> above_slot n x.

(** The value of slot [n] is offered by its parent's. *)
Definition hangs (m : btree nat (option Element)) (n : nat) : Prop :=
  n <> a -> exists pv v, bt_get (parent n) m = Some pv /\ bt_get n m = Some v /\ offers idx mp (parent n) pv n v.

Lemma reached_hangs m n v :
  reached idx mp a e m n v -> bt_get n m = Some v -> forall x, above_slot n x -> hangs m x.
Proof.
  induction 1 as [|p pv n v Hp Hr IH Ho]; intros Hn x Hx.
  { inversion Hx as [|n' x' Hna]; [by intros ?|done]. }
  destruct Ho as (d & sp & sn & found & Hsp & Hin & Hrest).
  destruct (tr_edge _ _ _ _ Ht p sp n Hsp) as [[Hna Hpar]|[Hpa Hpar]]; [destruct d; cbn in Hin; set_solver| |].
  - destruct Hx as [n|n x Hna' Hx].
    + intros _. exists pv, v. rewrite Hpar. split_and!; [done|done|]. by exists d, sp, sn, found.
    + apply (IH Hp). by rewrite <- Hpar.
  - apply (IH Hp). apply above_parent; [done|]. by rewrite Hpar.
Qed.

(** Exactly one direction leads from [p] to its neighbour [n]. *)
Lemma direction_unique p sp n d :
  slots mp !! p = Some sp -> n ∈ neighbours d sp ->
  (n ∈ out_slots sp -> d = Outward) /\ (n ∈ in_slots sp -> d = Inward).
Proof.
  intros Hp Hd. pose proof (tr_simple _ _ _ _ Ht p sp Hp) as (_ & Hdis & _)%NoDup_app.
  destruct d; cbn in Hd; (split; [|]); intros Hn; try done; exfalso; by apply (Hdis n).
Qed.
End rooted.

Lemma list_choice {A} k (Q : nat -> A -> Prop) :
  (forall n, (n < k)%nat -> exists x, Q n x) -> exists l, length l = k /\ forall n x, l !! n = Some x -> Q n x.
Proof.
  induction k as [|k IH]; intros HQ; [by exists []|].
  destruct IH as (l & Hl & Hn); [intros; apply HQ; lia|]. destruct (HQ k) as [x Hx]; [lia|].
  exists (l ++ [x]). rewrite length_app, Hl. split; [cbn; lia|].
  intros n y [Hy|[Hge Hy]]%lookup_app_Some; [by apply Hn|].
  destruct (n - length l)%nat as [|m] eqn:Hm; [|by destruct m]. injection Hy as <-. by replace n with k by lia.
Qed.

(** A full solution on a tree is a match. *)
Lemma solution_is_match s :
  sol_ok idx mp e s -> anchor_slot s = a -> length (solved_slots s) = total_slots s ->
  G !! get_reference e = Some e -> slot_test a e = true ->
  exists m, is_match mp slot_test G m /\ m !! a = Some e /\ solved_slots s = match_slots mp m.
Proof.
  intros Hs Han Hfull HG Htest. destruct (tp_tree _ Htp a Ha) as (parent & depth & Ht).
  pose proof (full_solution _ _ _ _ Hs Hfull) as Hall.
  assert (Hroot : bt_get a (solved_slots s) = Some (Some e)).
  { destruct (Hall a Ha) as [v Hv]. rewrite Hv. f_equal. apply (so_anchor _ _ _ _ Hs). right. by rewrite Han. }
  assert (Hhang : forall n, (n < length (slots mp))%nat -> hangs parent (solved_slots s) n).
  { intros n Hn. destruct (Hall n Hn) as [v Hv]. apply (reached_hangs parent depth Ht _ n v); [|done|constructor].
    rewrite <- Han. apply (so_reached _ _ _ _ Hs). by right. }
  assert (Hedge : forall n, (n < length (slots mp))%nat -> n <> a -> exists x y d sp,
    bt_get (parent n) (solved_slots s) = Some (Some x) /\ bt_get n (solved_slots s) = Some (Some y) /\
    slots mp !! parent n = Some sp /\ n ∈ neighbours d sp /\ P n y /\ follows_edge d x y = true).
  { intros n Hn Hna. destruct (Hhang n Hn Hna) as (pv & v & Hpv & Hv & d & sp & sn & found & Hsp & Hd & Hsn & Hadj & Hf).
    destruct v as [y|]; [|destruct Hf as [_ Ho]; by rewrite (tp_mandatory _ Htp n sn Hsn) in Ho].
    destruct pv as [x|]; [|by subst found; apply not_elem_of_nil in Hf].
    destruct (reads_adjacent idx P x n d Hreads) as (l & Hl & Hiff). rewrite Hl in Hadj. injection Hadj as ->.
    apply Hiff in Hf as [? ?]. by exists x, y, d, sp. }
  destruct (list_choice (length (slots mp)) (fun n x => bt_get n (solved_slots s) = Some (Some x))) as (m & Hm & Hget).
  { intros n Hn. destruct (decide (n = a)) as [->|Hna]; [by eauto|]. destruct (Hedge n Hn Hna) as (x & y & ? & ? & ? & ? & _). eauto. }
  assert (Hat : forall n x, (n < length (slots mp))%nat -> bt_get n (solved_slots s) = Some (Some x) -> m !! n = Some x).
  { intros n x Hn Hx. destruct (lookup_lt_is_Some_2 m n) as [y Hy]; [lia|]. rewrite Hy. pose proof (Hget n y Hy). congruence. }
  exists m. split_and!; [split| |].
  - done.
  - intros n x Hx. pose proof (lookup_lt_Some _ _ _ Hx) as Hn. rewrite Hm in Hn. pose proof (Hget n x Hx) as Hxn.
    destruct (decide (n = a)) as [->|Hna]; [by assert (x = e) as -> by congruence|].
    destruct (Hedge n Hn Hna) as (x' & y & d & sp & _ & Hy & _ & _ & Hpy & _). assert (y = x) as -> by congruence.
    by apply HP.
  - intros p n Ho. pose proof (proj1 (tp_edges _ Htp p n) Ho) as (sn & Hsn & Hpn). destruct Ho as (sp & Hsp & Hnp).
    pose proof (lookup_lt_Some _ _ _ Hsn) as Hnl. pose proof (lookup_lt_Some _ _ _ Hsp) as Hpl.
    destruct (tr_edge _ _ _ _ Ht p sp n Hsp) as [[Hna Hpar]|[Hpa Hpar]]; [set_solver| |].
    + destruct (Hedge n Hnl Hna) as (x & y & d & sp' & Hx & Hy & Hsp' & Hd & _ & Hfe). rewrite Hpar in Hx, Hsp'.
      assert (sp' = sp) as -> by congruence. exists x, y. split_and!; [by apply Hat|by apply Hat|].
      destruct (direction_unique parent depth Ht p sp n d Hsp Hd) as [Hdir _]. by rewrite (Hdir Hnp) in Hfe.
    + destruct (Hedge p Hpl Hpa) as (x & y & d & sp' & Hx & Hy & Hsp' & Hd & _ & Hfe). rewrite Hpar in Hx, Hsp'.
      assert (sp' = sn) as -> by congruence. exists y, x. split_and!; [by apply Hat|by apply Hat|].
      destruct (direction_unique parent depth Ht n sn p d Hsn Hd) as [_ Hdir]. by rewrite (Hdir Hpn) in Hfe.
  - by apply Hat.
  - apply bt_ext; [apply (so_sorted _ _ _ _ Hs)|apply assignment_sorted|].
    intros n. unfold match_slots. rewrite assignment_get. case_decide as Hn.
    + destruct (lookup_lt_is_Some_2 m n) as [y Hy]; [lia|]. rewrite Hy. by apply Hget.
    + destruct (bt_get n (solved_slots s)) as [v|] eqn:Hv; [|done]. by destruct Hn; eapply sol_ok_below.
Qed.

(** A match is supported by the index. *)
Lemma match_supported parent depth m :
  tree mp a parent depth -> is_match mp slot_test G m -> m !! a = Some e ->
  supported idx mp a e parent (fun n => m !! n).
Proof.
  intros Ht Hm Hma. split; [done|]. intros n Hn Hna. cbn.
  destruct (tr_parent _ _ _ _ Ht n Hn Hna) as (Hpl & _ & sp & Hsp & Hin).
  destruct (lookup_lt_is_Some_2 (slots mp) n Hn) as [sn Hsn].
  assert (Hdir : exists d x y, n ∈ neighbours d sp /\ m !! parent n = Some x /\ m !! n = Some y /\ follows_edge d x y = true).
  { apply elem_of_app in Hin as [Hin|Hin].
    - destruct (im_edge _ _ _ _ Hm (parent n) n) as (x & y & ? & ? & ?); [by exists sp|]. by exists Outward, x, y.
    - assert (Hio : in_of (slots mp) (parent n) n) by (by exists sp). apply (tp_edges _ Htp) in Hio.
      destruct (im_edge _ _ _ _ Hm n (parent n) Hio) as (x & y & ? & ? & ?). by exists Inward, y, x. }
  destruct Hdir as (d & x & y & Hd & Hx & Hy & Hfe). rewrite Hx, Hy.
  destruct (reads_adjacent idx P x n d Hreads) as (l & Hl & Hiff).
  exists d, sp, sn, l. split_and!; try done. apply Hiff. split; [|done]. apply HP; [done|]. by apply (im_slot _ _ _ _ Hm n).
Qed.

(** [r] holds exactly the matches that satisfy [Q], under their signatures. *)
Definition holds_matches (Q : list Element -> Prop) (r : gmap Z MatchPathSolution) : Prop :=
  (forall h s, r !! h = Some s -> exists m, is_match mp slot_test G m /\ Q m /\
     solved_slots s = match_slots mp m /\ h = signature mp m /\ total_slots s = length (slots mp) /\
     (anchor_slot s < length (slots mp))%nat) /\
  (forall m, is_match mp slot_test G m -> Q m -> is_Some (r !! signature mp m)).

Lemma solve_computes :
  G !! get_reference e = Some e -> slot_test a e = true ->
  exists N r, (forall fuel, (N <= fuel)%nat -> solve fuel idx mp e a = Ok r) /\
    holds_matches (fun m => m !! a = Some e) r.
Proof.
  intros HG Htest. pose proof (reads_answers _ _ Hreads) as Hans.
  pose proof (answers_total _ Hans) as Htot. pose proof (tree_pattern_closed _ Htp) as Hcl.
  destruct (solve_settles idx mp e a Htot Hcl Ha) as (o & N & Hgood & HN).
  pose proof (solve_never_err idx mp N e a Hans) as Hne. rewrite HN in Hne by done.
  destruct o as [r|er|]; [|by destruct (Hne er)|done]. exists N, r. split; [done|]. split.
  - intros h s Hs. destruct (Hgood h s Hs) as (Hok & Han & Hl & Hh).
    destruct (solution_is_match s Hok Han Hl HG Htest) as (m & Hm & Hma & Hsl).
    exists m. split_and!; [done|done|done| |by rewrite (so_total _ _ _ _ Hok)|by rewrite Han].
    unfold signature. by rewrite Hh, Hsl.
  - intros m Hm Hma. destruct (tp_tree _ Htp a Ha) as (parent & depth & Ht).
    pose proof (match_supported parent depth m Ht Hm Hma) as Hsup.
    by apply (solve_finds idx mp a e parent depth (fun n => m !! n) Htot Hcl Ht Hsup N r), HN.
Qed.
End matches.
