(* ===== verification/ElementIndex.v ===== *)
(** * In-memory element index (core/src/in_memory_index/in_memory_element_index.rs)

    The current version of every element, the slots it has affinity to, the
    reverse maps the path solver reads, the virtual relations of query joins
    and the archive of past versions.  The maps behind the [RwLock]s are the
    fields of one record; the operations of the in-memory index never fail. *)

From S2P Require Import Prelude BTree Floats Hashing Ast Models Errors Values MatchPath Solver.

(** The versions of one element by the time they became effective. *)
Notation ElementArchive := (btree ElementTimestamp Element).

Section element_index.
Context {C : Chrono} {H : Hashers}.

(** ** State *)

Record ElementIndexState := {
  elements_ : gmap ElementReference Element;
  slot_affinity : gmap ElementReference (gset nat);
  element_by_slot : gset (nat * ElementReference);
  element_by_slot_in : gmap (nat * ElementReference) (gset ElementReference);
  element_by_slot_out : gmap (nat * ElementReference) (gset ElementReference);
  element_archive : gmap ElementReference ElementArchive;
  archive_enabled : bool;
  join_spec_by_label : gmap string (list (QueryJoin * list nat));
  partial_joins : gmap (string * Z) (gmap QueryJoinKey (gset ElementReference));
}.

Definition new_index : ElementIndexState :=
  {| elements_ := ∅; slot_affinity := ∅; element_by_slot := ∅; element_by_slot_in := ∅;
     element_by_slot_out := ∅; element_archive := ∅; archive_enabled := false;
     join_spec_by_label := ∅; partial_joins := ∅ |}.

Definition with_elements (f : gmap ElementReference Element -> gmap ElementReference Element)
    (st : ElementIndexState) : ElementIndexState :=
  {| elements_ := f (elements_ st); slot_affinity := slot_affinity st;
     element_by_slot := element_by_slot st; element_by_slot_in := element_by_slot_in st;
     element_by_slot_out := element_by_slot_out st; element_archive := element_archive st;
     archive_enabled := archive_enabled st; join_spec_by_label := join_spec_by_label st;
     partial_joins := partial_joins st |}.

Definition with_slots (a : gmap ElementReference (gset nat)) (n : gset (nat * ElementReference))
    (i o : gmap (nat * ElementReference) (gset ElementReference)) (st : ElementIndexState) :
    ElementIndexState :=
  {| elements_ := elements_ st; slot_affinity := a;
     element_by_slot := n; element_by_slot_in := i;
     element_by_slot_out := o; element_archive := element_archive st;
     archive_enabled := archive_enabled st; join_spec_by_label := join_spec_by_label st;
     partial_joins := partial_joins st |}.

Definition with_archive (f : gmap ElementReference ElementArchive -> gmap ElementReference ElementArchive)
    (st : ElementIndexState) : ElementIndexState :=
  {| elements_ := elements_ st; slot_affinity := slot_affinity st;
     element_by_slot := element_by_slot st; element_by_slot_in := element_by_slot_in st;
     element_by_slot_out := element_by_slot_out st; element_archive := f (element_archive st);
     archive_enabled := archive_enabled st; join_spec_by_label := join_spec_by_label st;
     partial_joins := partial_joins st |}.

Definition with_joins (f : gmap (string * Z) (gmap QueryJoinKey (gset ElementReference)) ->
      gmap (string * Z) (gmap QueryJoinKey (gset ElementReference)))
    (st : ElementIndexState) : ElementIndexState :=
  {| elements_ := elements_ st; slot_affinity := slot_affinity st;
     element_by_slot := element_by_slot st; element_by_slot_in := element_by_slot_in st;
     element_by_slot_out := element_by_slot_out st; element_archive := element_archive st;
     archive_enabled := archive_enabled st; join_spec_by_label := join_spec_by_label st;
     partial_joins := f (partial_joins st) |}.

(** ** Slot affinity *)

(** A reverse map entry goes away with its last member. *)
Definition discard {K} `{Countable K} (k : K) (r : ElementReference)
    (m : gmap K (gset ElementReference)) : gmap K (gset ElementReference) :=
  match m !! k with
  | Some s => let s := s ∖ {[r]} in if bool_decide (s = ∅) then delete k m else <[k := s]> m
  | None => m
  end.
Definition include {K} `{Countable K} (k : K) (r : ElementReference)
    (m : gmap K (gset ElementReference)) : gmap K (gset ElementReference) :=
  <[k := {[r]} ∪ default ∅ (m !! k)]> m.

Definition clear_slot_affinity (element : Element) (st : ElementIndexState) : ElementIndexState :=
  let r := get_reference element in
  match slot_affinity st !! r with
  | None => st
  | Some affinity =>
      let slots := elements affinity in
      match element with
      | Node _ _ =>
          with_slots (delete r (slot_affinity st))
            (fold_left (fun g s => g ∖ {[(s, r)]}) slots (element_by_slot st))
            (element_by_slot_in st) (element_by_slot_out st) st
      | Relation _ in_node out_node _ =>
          with_slots (delete r (slot_affinity st)) (element_by_slot st)
            (fold_left (fun g s => discard (s, in_node) r g) slots (element_by_slot_in st))
            (fold_left (fun g s => discard (s, out_node) r g) slots (element_by_slot_out st)) st
      end
  end.

Definition set_slot_affinity (element : Element) (slots : list nat) (st : ElementIndexState) :
    ElementIndexState :=
  let r := get_reference element in
  let affinity := default ∅ (slot_affinity st !! r) ∪ list_to_set slots in
  match element with
  | Node _ _ =>
      with_slots (<[r := affinity]> (slot_affinity st))
        (fold_left (fun g s => {[(s, r)]} ∪ g) slots (element_by_slot st))
        (element_by_slot_in st) (element_by_slot_out st) st
  | Relation _ in_node out_node _ =>
      with_slots (<[r := affinity]> (slot_affinity st)) (element_by_slot st)
        (fold_left (fun g s => include (s, in_node) r g) slots (element_by_slot_in st))
        (fold_left (fun g s => include (s, out_node) r g) slots (element_by_slot_out st)) st
  end.

(** ** Joins *)

Definition get_value_hash (v : ElementValue) : Z := spooky (element_value_hash v).

Definition get_join_virtual_ref (ref1 ref2 : ElementReference) : ElementReference :=
  {| source_id := "&join"; element_id := element_id ref1 +:+ ":" +:+ element_id ref2 |}.

Definition virtual_relation (qj : QueryJoin) (effective : ElementTimestamp)
    (in_node out_node : ElementReference) : Element :=
  Relation {| reference := get_join_virtual_ref in_node out_node; labels := [join_id qj];
              effective_from := effective |} in_node out_node [].

(** The join keys that apply to a node with the given labels. *)
Definition join_work (st : ElementIndexState) (node_labels : list string) :
    list (QueryJoin * list nat * QueryJoinKey) :=
  concat (map (fun lj : string * list (QueryJoin * list nat) =>
    if contains lj.1 node_labels then
      concat (map (fun j : QueryJoin * list nat =>
        map (fun k => (j.1, j.2, k))
          (List.filter (fun k => String.eqb (join_label k) lj.1) (join_keys j.1))) lj.2)
    else []) (map_to_list (join_spec_by_label st))).

(** The elements registered under the other keys of the join. *)
Definition counterparts (qj : QueryJoin) (qjk : QueryJoinKey)
    (pj : gmap QueryJoinKey (gset ElementReference)) : list ElementReference :=
  concat (map (fun qjk2 => if bool_decide (qjk = qjk2) then []
                           else elements (default ∅ (pj !! qjk2))) (join_keys qj)).

Definition delete_source_join
    (del : ElementIndexState -> ElementReference -> outcome IndexError ElementIndexState)
    (old : ElementReference) (qj : QueryJoin) (qjk : QueryJoinKey) (value : ElementValue)
    (st : ElementIndexState) : outcome IndexError ElementIndexState :=
  let outer_key := (join_id qj, get_value_hash value) in
  match partial_joins st !! outer_key with
  | None => Ok st
  | Some pj =>
      let did_remove := bool_decide (old ∈ default ∅ (pj !! qjk)) in
      let pj := discard qjk old pj in
      let to_delete :=
        if did_remove then
          concat (map (fun other => [get_join_virtual_ref old other; get_join_virtual_ref other old])
                    (counterparts qj qjk pj))
        else [] in
      out_foldl del
        (with_joins (fun m => if bool_decide (pj = ∅) then delete outer_key m
                              else <[outer_key := pj]> m) st) to_delete
  end.

Definition delete_source_joins
    (del : ElementIndexState -> ElementReference -> outcome IndexError ElementIndexState)
    (old : Element) (st : ElementIndexState) : outcome IndexError ElementIndexState :=
  match old with
  | Node m properties =>
      out_foldl (fun st '(qj, _, qjk) =>
        match bt_get (join_property qjk) properties with
        | Some p => delete_source_join del (reference m) qj qjk p st
        | None => Ok st
        end) st (join_work st (labels m))
  | Relation _ _ _ _ => Ok st
  end.

(** [delete_element]; deleting a virtual relation may only lead to further
    deletions, each of an element that is still stored. *)
Fixpoint delete_element_fuel (fuel : nat) (st : ElementIndexState) (r : ElementReference) :
    outcome IndexError ElementIndexState :=
  match fuel with
  | O => Panic
  | S fuel =>
      match elements_ st !! r with
      | None => Ok st
      | Some old =>
          delete_source_joins (delete_element_fuel fuel) old
            (clear_slot_affinity old (with_elements (delete r) st))
      end
  end.

Definition delete_element (st : ElementIndexState) (r : ElementReference) :
    outcome IndexError ElementIndexState :=
  delete_element_fuel (S (size (elements_ st))) st r.

(** One join key of [update_source_joins]. *)
Definition update_source_join
    (set : ElementIndexState -> Element -> list nat -> outcome IndexError ElementIndexState)
    (old : option Element) (new : Element) (st : ElementIndexState)
    (w : QueryJoin * list nat * QueryJoinKey) : outcome IndexError ElementIndexState :=
  let '(qj, slots, qjk) := w in
  let old_value :=
    match old with
    | Some (Node _ old_properties) => bt_get (join_property qjk) old_properties
    | _ => None
    end in
  match bt_get (join_property qjk) (get_properties new) with
  | None => Ok st
  | Some p =>
      if match old_value with Some old_p => element_value_eqb old_p p | None => false end then Ok st
      else
        let r := get_reference new in
        let key := (join_id qj, get_value_hash p) in
        let pj := default ∅ (partial_joins st !! key) in
        let did_insert := negb (bool_decide (r ∈ default ∅ (pj !! qjk))) in
        let pj := include qjk r pj in
        let values_to_delete := if did_insert then option_list old_value else [] in
        let to_set :=
          if did_insert then
            concat (map (fun other => [virtual_relation qj (get_effective_from new) r other;
                                       virtual_relation qj (get_effective_from new) other r])
                      (counterparts qj qjk pj))
          else [] in
        st ← match old with
             | Some o => out_foldl (fun st v => delete_source_join delete_element (get_reference o) qj qjk v st)
                           (with_joins <[key := pj]> st) values_to_delete
             | None => Ok (with_joins <[key := pj]> st)
             end;
        out_foldl (fun st e => set st e slots) st to_set
  end.

Definition update_source_joins
    (set : ElementIndexState -> Element -> list nat -> outcome IndexError ElementIndexState)
    (old : option Element) (new : Element) (st : ElementIndexState) :
    outcome IndexError ElementIndexState :=
  match new with
  | Node m _ => out_foldl (update_source_join set old new) st (join_work st (labels m))
  | Relation _ _ _ _ => Ok st
  end.

(** ** Archive *)

Definition archive_insert (e : Element) (a : ElementArchive) : ElementArchive :=
  bt_insert (get_effective_from e) e a.

Definition retrieve_previous_start_timestamp (time : ElementTimestamp) (a : ElementArchive) :
    option ElementTimestamp :=
  match last (bt_ge 0 (bt_le time a)) with
  | None => Some 0
  | Some v => Some v.1
  end.

Definition archive_get (time : ElementTimestamp) (a : ElementArchive) : option Element :=
  snd <$> last (bt_le time a).

(** [BTreeMap::range] panics when the range starts after it ends. *)
Definition archive_get_range (from to : ElementTimestamp) (a : ElementArchive) :
    outcome IndexError (list Element) :=
  if to <? from then Panic else Ok (map snd (bt_ge from (bt_le to a))).

(** [entry(..).or_insert_with(ElementArchive::new)] *)
Definition archive_entry (m : gmap ElementReference ElementArchive) (r : ElementReference) : ElementArchive :=
  match m !! r with Some a => a | None => [] end.

(** ** [set_element] *)

Definition set_element_with
    (set : ElementIndexState -> Element -> list nat -> outcome IndexError ElementIndexState)
    (st : ElementIndexState) (element : Element) (affinity : list nat) :
    outcome IndexError ElementIndexState :=
  let r := get_reference element in
  let old := elements_ st !! r in
  let st := with_elements <[r := element]> st in
  let st := match old with Some prev => clear_slot_affinity prev st | None => st end in
  let st := set_slot_affinity element affinity st in
  st ← update_source_joins set old element st;
  Ok (if archive_enabled st
      then with_archive (fun m => <[r := archive_insert element (archive_entry m r)]> m) st
      else st).

(** The virtual relations a node gives rise to are relations, for which
    [update_source_joins] does nothing: two levels are all there are. *)
Definition set_element : ElementIndexState -> Element -> list nat -> outcome IndexError ElementIndexState :=
  set_element_with (set_element_with (fun _ _ _ => Panic)).

(** ** Reading *)

Definition get_element (st : ElementIndexState) (r : ElementReference) :
    outcome IndexError (option Element) := Ok (elements_ st !! r).

Definition lookup_all (st : ElementIndexState) (refs : gset ElementReference) : list Element :=
  omap (fun r => elements_ st !! r) (elements refs).

Definition slot_index (st : ElementIndexState) : SlotIndex := {|
  get_slot_element_by_ref slot r :=
    Ok (if bool_decide ((slot, r) ∈ element_by_slot st) then elements_ st !! r else None);
  get_slot_elements_by_inbound slot r :=
    Ok (lookup_all st (default ∅ (element_by_slot_in st !! (slot, r))));
  get_slot_elements_by_outbound slot r :=
    Ok (lookup_all st (default ∅ (element_by_slot_out st !! (slot, r)))) |}.

Definition get_element_as_at (st : ElementIndexState) (r : ElementReference) (time : ElementTimestamp) :
    outcome IndexError (option Element) :=
  if archive_enabled st then
    Ok (a ← element_archive st !! r; archive_get time a)
  else Err ArchiveNotEnabled.

Definition get_element_versions (st : ElementIndexState) (r : ElementReference) (range : TimestampRange) :
    outcome IndexError (list Element) :=
  if archive_enabled st then
    match element_archive st !! r with
    | None => Ok []
    | Some a =>
        match range_from range with
        | Included from => archive_get_range from (range_to range) a
        | StartFromPrevious from =>
            match retrieve_previous_start_timestamp from a with
            | Some start => archive_get_range start (range_to range) a
            | None => Panic
            end
        end
    end
  else Err ArchiveNotEnabled.

(** [ElementIndex::clear] leaves the archive and the join specification. *)
Definition clear_index (st : ElementIndexState) : ElementIndexState :=
  {| elements_ := ∅; slot_affinity := ∅; element_by_slot := ∅; element_by_slot_in := ∅;
     element_by_slot_out := ∅; element_archive := element_archive st;
     archive_enabled := archive_enabled st; join_spec_by_label := join_spec_by_label st;
     partial_joins := ∅ |}.

Definition clear_archive (st : ElementIndexState) : outcome IndexError ElementIndexState :=
  if archive_enabled st then Ok (with_archive (fun _ => ∅) st) else Err NotSupported.

Definition extract_join_spec_by_label (mp : MatchPath) (joins : list QueryJoin) :
    gmap string (list (QueryJoin * list nat)) :=
  fold_left (fun result join =>
    let slots := omap (fun e : nat * MatchPathSlot =>
      if contains (join_id join) (spec_labels (spec e.2)) then Some e.1 else None) (enumerate (slots mp)) in
    match slots with
    | [] => result
    | _ => fold_left (fun result jk =>
             <[join_label jk := default [] (result !! join_label jk) ++ [(join, slots)]]> result)
             (join_keys join) result
    end) joins ∅.

Definition set_joins (mp : MatchPath) (joins : list QueryJoin) (st : ElementIndexState) :
    ElementIndexState :=
  {| elements_ := elements_ st; slot_affinity := slot_affinity st;
     element_by_slot := element_by_slot st; element_by_slot_in := element_by_slot_in st;
     element_by_slot_out := element_by_slot_out st; element_archive := element_archive st;
     archive_enabled := archive_enabled st; join_spec_by_label := extract_join_spec_by_label mp joins;
     partial_joins := partial_joins st |}.
End element_index.
