(* ===== verification/ElementIndexFacts.v ===== *)
(** * Correctness of the in-memory element index

    The coherence of the reverse maps with the stored elements, the totality of
    the operations, the refinement of the abstract store of elements with
    their slots, the archive, and the identities of virtual relations. *)

From S2P Require Import Prelude BTree Floats Hashing Ast Models Errors Values MatchPath Solver ElementIndex.

Section reverse_maps.
Context {K : Type} `{Countable K}.
Implicit Types m : gmap K (gset ElementReference).

Definition members (m : gmap K (gset ElementReference)) (k : K) : gset ElementReference := default ∅ (m !! k).
Definition tidy (m : gmap K (gset ElementReference)) : Prop := forall k, m !! k <> Some ∅.

Lemma members_discard k r m k' x :
  x ∈ members (discard k r m) k' <-> x ∈ members m k' /\ ~ (k' = k /\ x = r).
Proof.
  unfold members, discard. destruct (m !! k) as [s|] eqn:Hk.
  2: { split; [|by intros [? _]]. intros Hx. split; [done|]. intros [-> _]. rewrite Hk in Hx. set_solver. }
  case_bool_decide as He; destruct (decide (k' = k)) as [->|Hne].
  - rewrite lookup_delete_eq, Hk. cbn. set_solver.
  - rewrite lookup_delete_ne by done. naive_solver.
  - rewrite lookup_insert_eq, Hk. cbn. set_solver.
  - rewrite lookup_insert_ne by done. naive_solver.
Qed.

Lemma members_include k r m k' x :
  x ∈ members (include k r m) k' <-> x ∈ members m k' \/ (k' = k /\ x = r).
Proof.
  unfold members, include. destruct (decide (k' = k)) as [->|Hne].
  - rewrite lookup_insert_eq. cbn. set_solver.
  - rewrite lookup_insert_ne by done. naive_solver.
Qed.

Lemma tidy_discard k r m : tidy m -> tidy (discard k r m).
Proof.
  unfold tidy, discard. intros Hm k'. destruct (m !! k) as [s|]; [|done].
  case_bool_decide as He; destruct (decide (k' = k)) as [->|Hne].
  - by rewrite lookup_delete_eq.
  - by rewrite lookup_delete_ne.
  - rewrite lookup_insert_eq. naive_solver.
  - by rewrite lookup_insert_ne.
Qed.

Lemma tidy_include k r m : tidy m -> tidy (include k r m).
Proof.
  unfold tidy, include. intros Hm k'. destruct (decide (k' = k)) as [->|Hne].
  - rewrite lookup_insert_eq. intros [= He]. set_solver.
  - by rewrite lookup_insert_ne.
Qed.

Lemma members_fold_discard {A} (f : A -> K) r l m k' x :
  x ∈ members (fold_left (fun g a => discard (f a) r g) l m) k' <->
  x ∈ members m k' /\ ~ (k' ∈ map f l /\ x = r).
Proof.
  revert m. induction l as [|a l IH]; intros m; cbn; [set_solver|].
  rewrite IH, members_discard, elem_of_cons. naive_solver.
Qed.

Lemma members_fold_include {A} (f : A -> K) r l m k' x :
  x ∈ members (fold_left (fun g a => include (f a) r g) l m) k' <->
  x ∈ members m k' \/ (k' ∈ map f l /\ x = r).
Proof.
  revert m. induction l as [|a l IH]; intros m; cbn; [set_solver|].
  rewrite IH, members_include, elem_of_cons. naive_solver.
Qed.

Lemma tidy_fold_discard {A} (f : A -> K) r l m :
  tidy m -> tidy (fold_left (fun g a => discard (f a) r g) l m).
Proof. revert m. induction l; cbn; auto using tidy_discard. Qed.

Lemma tidy_fold_include {A} (f : A -> K) r l m :
  tidy m -> tidy (fold_left (fun g a => include (f a) r g) l m).
Proof. revert m. induction l; cbn; auto using tidy_include. Qed.
End reverse_maps.

(** The abstract store: every element with the slots it was last given. *)
Notation Store := (gmap ElementReference (Element * gset nat)).

Section coherence.
Context {C : Chrono} {H : Hashers}.
Implicit Types (st : ElementIndexState) (r : ElementReference) (E : gmap ElementReference Element).

(** The slots recorded for an element. *)
Definition affinity_of st r : gset nat := default ∅ (slot_affinity st !! r).

(** What of an element each reverse map is keyed by. *)
Definition node_view (e : Element) : option unit := match e with Node _ _ => Some tt | _ => None end.
Definition in_view (e : Element) : option ElementReference :=
  match e with Relation _ i _ _ => Some i | _ => None end.
Definition out_view (e : Element) : option ElementReference :=
  match e with Relation _ _ o _ => Some o | _ => None end.

Definition viewed {N} (view : Element -> option N) E (aff : ElementReference -> gset nat)
    (s : nat) (n : N) r : Prop :=
  s ∈ aff r /\ exists e, E !! r = Some e /\ view e = Some n.

(** The reverse maps describe exactly the elements of [E]. *)
Record describes E st : Prop := {
  de_ref : forall r e, E !! r = Some e -> get_reference e = r;
  de_aff : forall r, E !! r = None -> slot_affinity st !! r = None;
  de_node : forall s n r, (s, r) ∈ element_by_slot st <-> viewed node_view E (affinity_of st) s n r;
  de_in : forall s n r, r ∈ members (element_by_slot_in st) (s, n) <->
    viewed in_view E (affinity_of st) s n r;
  de_out : forall s n r, r ∈ members (element_by_slot_out st) (s, n) <->
    viewed out_view E (affinity_of st) s n r;
  de_tidy : tidy (element_by_slot_in st) /\ tidy (element_by_slot_out st);
}.

Definition coherent st : Prop := describes (elements_ st) st.

(** Dropping element [e] of [E], or adding it, in any of the three views. *)
Lemma viewed_drop {N} (view : Element -> option N) E (aff aff' : ElementReference -> gset nat) e r
    (P P' : nat -> N -> ElementReference -> Prop) :
  E !! r = Some e -> (forall x, aff' x = if decide (x = r) then ∅ else aff x) ->
  (forall s n x, P s n x <-> viewed view E aff s n x) ->
  (forall s n x, P' s n x <-> P s n x /\ ~ (s ∈ aff r /\ view e = Some n /\ x = r)) ->
  forall s n x, P' s n x <-> viewed view (delete r E) aff' s n x.
Proof.
  intros He Haff HP HP' s n x. rewrite HP', HP. unfold viewed. rewrite Haff. case_decide as Hx.
  - subst x. rewrite lookup_delete_eq. split; [|by intros [_ (? & ? & _)]].
    intros [(Hs & e' & He' & Hv) Hno]. rewrite He in He'. injection He' as <-. by destruct Hno.
  - rewrite lookup_delete_ne by done. naive_solver.
Qed.

Lemma viewed_add {N} (view : Element -> option N) E (aff aff' : ElementReference -> gset nat) e r
    (slots : list nat) (P P' : nat -> N -> ElementReference -> Prop) :
  E !! r = None -> (forall x, aff' x = if decide (x = r) then list_to_set slots else aff x) ->
  (forall s n x, P s n x <-> viewed view E aff s n x) ->
  (forall s n x, P' s n x <-> P s n x \/ (s ∈ slots /\ view e = Some n /\ x = r)) ->
  forall s n x, P' s n x <-> viewed view (<[r := e]> E) aff' s n x.
Proof.
  intros He Haff HP HP' s n x. rewrite HP', HP. unfold viewed. rewrite Haff. case_decide as Hx.
  - subst x. rewrite lookup_insert_eq, He, elem_of_list_to_set. naive_solver.
  - rewrite lookup_insert_ne by done. naive_solver.
Qed.

Lemma elem_of_fold_removal r (l : list nat) (g : gset (nat * ElementReference)) x :
  x ∈ fold_left (fun g s => g ∖ {[(s, r)]}) l g <-> x ∈ g /\ ~ (x.1 ∈ l /\ x.2 = r).
Proof.
  revert g. induction l as [|s l IH]; intros g; cbn; [set_solver|].
  rewrite IH, elem_of_cons, elem_of_difference, elem_of_singleton. destruct x; cbn. naive_solver.
Qed.

Lemma elem_of_fold_addition r (l : list nat) (g : gset (nat * ElementReference)) x :
  x ∈ fold_left (fun g s => {[(s, r)]} ∪ g) l g <-> x ∈ g \/ (x.1 ∈ l /\ x.2 = r).
Proof.
  revert g. induction l as [|s l IH]; intros g; cbn; [set_solver|].
  rewrite IH, elem_of_cons, elem_of_union, elem_of_singleton. destruct x; cbn. naive_solver.
Qed.

Lemma affinity_delete st r r' :
  default ∅ (delete r (slot_affinity st) !! r') = if decide (r' = r) then ∅ else affinity_of st r'.
Proof.
  unfold affinity_of. case_decide; subst; [by rewrite lookup_delete_eq|by rewrite lookup_delete_ne].
Qed.

Lemma elem_of_pairs (l : gset nat) s (n n' : ElementReference) :
  (s, n) ∈ map (fun s => (s, n')) (elements l) <-> s ∈ l /\ n = n'.
Proof. rewrite list_elem_of_fmap. setoid_rewrite elem_of_elements. naive_solver. Qed.

Lemma clear_affinity e st r :
  affinity_of (clear_slot_affinity e st) r =
  if decide (r = get_reference e) then ∅ else affinity_of st r.
Proof.
  unfold affinity_of at 1. unfold clear_slot_affinity.
  destruct (slot_affinity st !! get_reference e) eqn:Hs; [destruct e; apply affinity_delete|].
  case_decide; [subst; by rewrite Hs|done].
Qed.

Lemma clear_no_affinity e st r :
  slot_affinity st !! r = None \/ r = get_reference e ->
  slot_affinity (clear_slot_affinity e st) !! r = None.
Proof.
  unfold clear_slot_affinity. intros Hr.
  destruct (slot_affinity st !! get_reference e) eqn:Hs; [|by destruct Hr as [| ->]].
  destruct e; cbn; rewrite lookup_delete; case_decide; naive_solver.
Qed.

Lemma clear_maps e st (a := affinity_of st (get_reference e)) (r := get_reference e) :
  (forall s (n : unit) x, (s, x) ∈ element_by_slot (clear_slot_affinity e st) <->
     (s, x) ∈ element_by_slot st /\ ~ (s ∈ a /\ node_view e = Some n /\ x = r)) /\
  (forall s n x, x ∈ members (element_by_slot_in (clear_slot_affinity e st)) (s, n) <->
     x ∈ members (element_by_slot_in st) (s, n) /\ ~ (s ∈ a /\ in_view e = Some n /\ x = r)) /\
  (forall s n x, x ∈ members (element_by_slot_out (clear_slot_affinity e st)) (s, n) <->
     x ∈ members (element_by_slot_out st) (s, n) /\ ~ (s ∈ a /\ out_view e = Some n /\ x = r)).
Proof.
  unfold clear_slot_affinity, a, affinity_of. fold r.
  destruct (slot_affinity st !! r) as [af|]; [|cbn; set_solver].
  destruct e as [m ps|m i o ps]; cbn; split_and!; intros s n x;
    rewrite ?elem_of_fold_removal, ?members_fold_discard, ?elem_of_pairs, ?elem_of_elements; cbn;
    try destruct n; naive_solver.
Qed.

(** Clearing the affinity of an element drops it from the description. *)
Lemma clear_describes E st e :
  describes E st -> E !! get_reference e = Some e ->
  describes (delete (get_reference e) E) (clear_slot_affinity e st).
Proof.
  intros [Hr Ha Hn Hin Hout [Ht1 Ht2]] He. destruct (clear_maps e st) as (Mn & Mi & Mo).
  split.
  - intros r e' [_ ?]%lookup_delete_Some. by apply Hr.
  - intros r [?|?]%lookup_delete_None; apply clear_no_affinity; auto.
  - by eapply (viewed_drop node_view); [exact He|intros; apply clear_affinity|exact Hn|exact Mn].
  - by eapply (viewed_drop in_view _ _ _ _ _ (fun s n x => x ∈ members (element_by_slot_in st) (s, n)));
      [exact He|intros; apply clear_affinity|exact Hin|exact Mi].
  - by eapply (viewed_drop out_view _ _ _ _ _ (fun s n x => x ∈ members (element_by_slot_out st) (s, n)));
      [exact He|intros; apply clear_affinity|exact Hout|exact Mo].
  - unfold clear_slot_affinity. destruct (slot_affinity st !! _); [|done].
    destruct e; cbn; [done|]. split; by apply tidy_fold_discard.
Qed.

Lemma set_maps e slots st (r := get_reference e) :
  (forall s (n : unit) x, (s, x) ∈ element_by_slot (set_slot_affinity e slots st) <->
     (s, x) ∈ element_by_slot st \/ (s ∈ slots /\ node_view e = Some n /\ x = r)) /\
  (forall s n x, x ∈ members (element_by_slot_in (set_slot_affinity e slots st)) (s, n) <->
     x ∈ members (element_by_slot_in st) (s, n) \/ (s ∈ slots /\ in_view e = Some n /\ x = r)) /\
  (forall s n x, x ∈ members (element_by_slot_out (set_slot_affinity e slots st)) (s, n) <->
     x ∈ members (element_by_slot_out st) (s, n) \/ (s ∈ slots /\ out_view e = Some n /\ x = r)).
Proof.
  unfold set_slot_affinity. fold r.
  destruct e as [m ps|m i o ps]; cbn; split_and!; intros s n x;
    rewrite ?elem_of_fold_addition, ?members_fold_include, ?list_elem_of_fmap; cbn;
    try destruct n; naive_solver.
Qed.

Lemma set_affinity e slots st r :
  slot_affinity st !! get_reference e = None ->
  affinity_of (set_slot_affinity e slots st) r =
  if decide (r = get_reference e) then list_to_set slots else affinity_of st r.
Proof.
  intros Hn. unfold affinity_of, set_slot_affinity. rewrite Hn.
  case_decide as Hr; [subst; destruct e; cbn; rewrite lookup_insert_eq; cbn; set_solver|].
  destruct e; cbn; by rewrite lookup_insert_ne.
Qed.

(** Recording the slots of a new element adds it to the description. *)
Lemma set_describes E st e slots :
  describes E st -> E !! get_reference e = None ->
  describes (<[get_reference e := e]> E) (set_slot_affinity e slots st).
Proof.
  intros [Hr Ha Hn Hin Hout [Ht1 Ht2]] He. pose proof (Ha _ He) as Hna.
  destruct (set_maps e slots st) as (Mn & Mi & Mo). split.
  - intros r e' [[<- <-]|[_ ?]]%lookup_insert_Some; [done|]. by apply Hr.
  - intros r [? ?]%lookup_insert_None. destruct e; cbn; rewrite lookup_insert_ne; auto.
  - by eapply (viewed_add node_view); [exact He|intros; by apply set_affinity|exact Hn|exact Mn].
  - by eapply (viewed_add in_view _ _ _ _ _ _ (fun s n x => x ∈ members (element_by_slot_in st) (s, n)));
      [exact He|intros; by apply set_affinity|exact Hin|exact Mi].
  - by eapply (viewed_add out_view _ _ _ _ _ _ (fun s n x => x ∈ members (element_by_slot_out st) (s, n)));
      [exact He|intros; by apply set_affinity|exact Hout|exact Mo].
  - destruct e; cbn; [done|]. split; by apply tidy_fold_include.
Qed.

(** ** The operations on coherent states *)

(** References of virtual relations live in a source of their own. *)
Definition real r : Prop := source_id r <> "&join".

Definition same_at st st' r : Prop :=
  elements_ st' !! r = elements_ st !! r /\ affinity_of st' r = affinity_of st r.

Definition same_config st st' : Prop :=
  element_archive st' = element_archive st /\ archive_enabled st' = archive_enabled st /\
  join_spec_by_label st' = join_spec_by_label st.

(** [st'] is coherent and holds some of the elements of [st], among them those
    of [keep]. *)
Definition shrinks (keep : ElementReference -> Prop) st st' : Prop :=
  coherent st' /\ elements_ st' ⊆ elements_ st /\ (forall r, keep r -> same_at st st' r) /\ same_config st st'.

Lemma shrinks_refl keep st : coherent st -> shrinks keep st st.
Proof. intros. unfold shrinks, same_at, same_config. by split_and!. Qed.

Lemma shrinks_trans (keep keep' : ElementReference -> Prop) st1 st2 st3 :
  (forall r, keep r -> keep' r) -> shrinks keep st1 st2 -> shrinks keep' st2 st3 -> shrinks keep st1 st3.
Proof.
  intros Hk (_ & Hs1 & Ha1 & ? & ? & ?) (? & Hs2 & Ha2 & ? & ? & ?).
  split_and!; [done|by transitivity (elements_ st2)| |split_and!; congruence].
  intros r Hr. destruct (Ha1 r Hr), (Ha2 r (Hk r Hr)). split; congruence.
Qed.

Lemma shrinks_size keep st st' : shrinks keep st st' -> (size (elements_ st') <= size (elements_ st))%nat.
Proof. intros (_ & Hs & _). by apply map_subseteq_size. Qed.

Lemma describes_elements E f st : describes E st -> describes E (with_elements f st).
Proof. by intros []. Qed.

Lemma coherent_joins f st : coherent st -> coherent (with_joins f st).
Proof. by intros []. Qed.

(** The contract of a deleting operation on the states with fewer than [n]
    elements. *)
Definition deletes (n : nat) (del : ElementIndexState -> ElementReference -> outcome IndexError ElementIndexState) : Prop :=
  forall st r, coherent st -> (size (elements_ st) < n)%nat ->
    exists st', del st r = Ok st' /\ shrinks (fun r' => real r' /\ r' <> r) st st' /\
      elements_ st' !! r = None.

Lemma virtual_not_real r1 r2 : ~ real (get_join_virtual_ref r1 r2).
Proof. unfold real, get_join_virtual_ref. cbn. auto. Qed.

Lemma delete_virtuals_ok n del l st :
  deletes n del -> coherent st -> (size (elements_ st) < n)%nat -> (forall r, r ∈ l -> ~ real r) ->
  exists st', out_foldl del st l = Ok st' /\ shrinks real st st'.
Proof.
  intros Hdel Hc Hn Hl.
  apply (out_foldl_inv (shrinks real st)); [by apply shrinks_refl|].
  intros st1 r Hr Hs1. destruct (Hdel st1 r) as (st2 & He & Hs2 & _).
  { by destruct Hs1. } { apply shrinks_size in Hs1. lia. }
  exists st2. split; [done|]. eapply shrinks_trans; [|exact Hs1|exact Hs2].
  intros r' Hr'. split; [done|]. intros ->. by eapply Hl.
Qed.

Lemma delete_source_join_ok n del old qj qjk v st :
  deletes n del -> coherent st -> (size (elements_ st) < n)%nat ->
  exists st', delete_source_join del old qj qjk v st = Ok st' /\ shrinks real st st'.
Proof.
  intros Hdel Hc Hn. unfold delete_source_join.
  destruct (partial_joins st !! _) as [pj|]; [|by eexists; split; [|apply shrinks_refl]].
  set (l := if bool_decide _ then _ else _). set (st1 := with_joins _ st).
  destruct (delete_virtuals_ok n del l st1) as (st2 & He & Hs);
    [done|by apply coherent_joins|done| |by exists st2].
  subst l. intros r. case_bool_decide; [|by intros ?%not_elem_of_nil].
  intros (l & (o & -> & _)%list_elem_of_In%list_elem_of_fmap & Hl)%list_elem_of_In%in_concat.
  apply list_elem_of_In in Hl. set_unfold. destruct Hl as [->|[->|[]]]; apply virtual_not_real.
Qed.

Lemma delete_source_joins_ok n del e st :
  deletes n del -> coherent st -> (size (elements_ st) < n)%nat ->
  exists st', delete_source_joins del e st = Ok st' /\ shrinks real st st'.
Proof.
  intros Hdel Hc Hn. destruct e as [m ps|]; cbn; [|by eexists; split; [|apply shrinks_refl]].
  apply (out_foldl_inv (shrinks real st)); [by apply shrinks_refl|].
  intros st1 [[qj sl] qjk] _ Hs1. destruct (bt_get _ ps) as [p|]; [|by eauto].
  destruct (delete_source_join_ok n del (reference m) qj qjk p st1) as (st2 & He & Hs2);
    [done|by destruct Hs1|apply shrinks_size in Hs1; lia|].
  exists st2. split; [done|]. by eapply shrinks_trans; [|exact Hs1|exact Hs2].
Qed.

Lemma clear_shrinks st e r :
  coherent st -> elements_ st !! r = Some e ->
  shrinks (fun r' => r' <> r) st (clear_slot_affinity e (with_elements (delete r) st)) /\
  elements_ (clear_slot_affinity e (with_elements (delete r) st)) = delete r (elements_ st).
Proof.
  intros Hc He. pose proof (de_ref _ _ Hc r e He) as Hr. subst r.
  set (st1 := with_elements (delete (get_reference e)) st).
  assert (Hel : elements_ (clear_slot_affinity e st1) = delete (get_reference e) (elements_ st)).
  { unfold clear_slot_affinity. destruct (slot_affinity st1 !! _); [by destruct e|done]. }
  split; [|done]. split_and!.
  - unfold coherent. rewrite Hel. apply clear_describes; [by apply describes_elements|done].
  - rewrite Hel. apply delete_subseteq.
  - intros r Hr. unfold same_at. rewrite Hel, lookup_delete_ne by done. split; [done|].
    rewrite clear_affinity. by case_decide.
  - unfold same_config, clear_slot_affinity. destruct (slot_affinity st1 !! _); [by destruct e|done].
Qed.

Lemma delete_element_fuel_ok n : deletes n (delete_element_fuel n).
Proof.
  induction n as [|n IH]; intros st r Hc Hn; [lia|]. cbn.
  destruct (elements_ st !! r) as [e|] eqn:He.
  2: { exists st. split_and!; [done|by apply shrinks_refl|done]. }
  destruct (clear_shrinks st e r Hc He) as [Hs1 Hel].
  set (st1 := clear_slot_affinity e _) in *.
  assert (Hsz : (size (elements_ st1) < n)%nat).
  { rewrite Hel, map_size_delete, He.
    pose proof (map_size_ne_0_lookup_2 (elements_ st) r ltac:(eauto)). lia. }
  destruct (delete_source_joins_ok n (delete_element_fuel n) e st1) as (st2 & Hd & Hs2);
    [done|by destruct Hs1|done|].
  exists st2. split_and!; [done| |].
  - assert (shrinks (fun r' => real r' /\ r' <> r) st st1) as Hs1'.
    { destruct Hs1 as (? & ? & Hk & ?). split_and!; try done. intros r' [_ ?]. by apply Hk. }
    by eapply shrinks_trans; [|exact Hs1'|exact Hs2]; intros ? [].
  - destruct Hs2 as (_ & Hsub & _). apply lookup_weaken_None with (m2 := elements_ st1); [|done].
    by rewrite Hel, lookup_delete_eq.
Qed.

Lemma delete_element_ok st r :
  coherent st -> exists st', delete_element st r = Ok st' /\
    shrinks (fun r' => real r' /\ r' <> r) st st' /\ elements_ st' !! r = None.
Proof. intros Hc. apply (delete_element_fuel_ok (S (size (elements_ st)))); [done|lia]. Qed.

(** [st'] is coherent and agrees with [st] on the references of [keep]. *)
Definition steps (keep : ElementReference -> Prop) st st' : Prop :=
  coherent st' /\
  (forall r, keep r -> same_at st st' r /\ element_archive st' !! r = element_archive st !! r) /\
  archive_enabled st' = archive_enabled st /\ join_spec_by_label st' = join_spec_by_label st.

Lemma shrinks_steps keep st st' : shrinks keep st st' -> steps keep st st'.
Proof.
  intros (? & _ & Hk & Ha & ? & ?). split_and!; [done| |done|done].
  intros r Hr. split; [by apply Hk|]. by rewrite Ha.
Qed.

Lemma steps_refl keep st : coherent st -> steps keep st st.
Proof. intros. by apply shrinks_steps, shrinks_refl. Qed.

Lemma steps_trans (keep keep' : ElementReference -> Prop) st1 st2 st3 :
  (forall r, keep r -> keep' r) -> steps keep st1 st2 -> steps keep' st2 st3 -> steps keep st1 st3.
Proof.
  intros Hk (_ & Hst1 & ? & ?) (? & Hst2 & ? & ?). split_and!; [done| |congruence|congruence].
  intros r Hr. destruct (Hst1 r Hr) as [[] ?], (Hst2 r (Hk r Hr)) as [[] ?]. unfold same_at. split_and!; congruence.
Qed.

(** What a [set] must do for the virtual relations handed to it. *)
Definition sets_virtuals (set : ElementIndexState -> Element -> list nat -> outcome IndexError ElementIndexState) : Prop :=
  forall st qj t a b slots, coherent st ->
    exists st', set st (virtual_relation qj t a b) slots = Ok st' /\ steps real st st'.

Lemma update_source_join_ok set old e st w :
  sets_virtuals set -> coherent st ->
  exists st', update_source_join set old e st w = Ok st' /\ steps real st st'.
Proof.
  intros Hset Hc. destruct w as [[qj slots] qjk]. unfold update_source_join.
  set (old_value := match old with Some (Node _ ps) => _ | _ => None end).
  destruct (bt_get _ (get_properties e)) as [p|]; [|by eexists; split; [|apply steps_refl]].
  destruct (match old_value with Some _ => _ | None => false end);
    [by eexists; split; [|apply steps_refl]|].
  set (st1 := with_joins _ st). set (gone := if negb _ then option_list old_value else []).
  assert (Hc1 : coherent st1) by by apply coherent_joins.
  assert (exists st2, match old with
      | Some o => out_foldl (fun st v => delete_source_join delete_element (get_reference o) qj qjk v st) st1 gone
      | None => Ok st1 end = Ok st2 /\ steps real st st2) as (st2 & -> & Hs2).
  { destruct old as [o|]; [|by exists st1; split; [|apply (steps_refl real st1)]].
    apply (out_foldl_inv (steps real st)); [by apply (steps_refl real st1)|].
    intros st2 v _ Hs2.
    destruct (delete_source_join_ok (S (size (elements_ st2))) delete_element (get_reference o) qj qjk v st2)
      as (st3 & He & Hs3); [|by destruct Hs2|lia|].
    { intros st' r' Hc' _. by apply delete_element_ok. }
    exists st3. split; [done|]. eapply steps_trans; [|exact Hs2|by apply shrinks_steps]. done. }
  cbn [mbind outcome_bind]. apply (out_foldl_inv (steps real st)); [done|].
  intros st3 v Hv Hs3.
  assert (exists a b, v = virtual_relation qj (get_effective_from e) a b) as (a & b & ->).
  { case_bool_decide; cbn [negb] in Hv; [by apply not_elem_of_nil in Hv|].
    apply list_elem_of_In, in_concat in Hv as (l & (o & -> & _)%list_elem_of_In%list_elem_of_fmap & Hl).
    apply list_elem_of_In in Hl. set_unfold. destruct Hl as [->|[->|[]]]; eauto. }
  destruct (Hset st3 qj (get_effective_from e) a b slots) as (st4 & He & Hs4); [by destruct Hs3|].
  exists st4. split; [done|]. by eapply steps_trans; [|exact Hs3|exact Hs4].
Qed.

(** The part of [set_element] before the joins. *)
Lemma store_ok st e slots (r := get_reference e) :
  coherent st ->
  let st1 := with_elements <[r := e]> st in
  let st2 := match elements_ st !! r with Some prev => clear_slot_affinity prev st1 | None => st1 end in
  let st3 := set_slot_affinity e slots st2 in
  steps (fun r' => r' <> r) st st3 /\ elements_ st3 !! r = Some e /\
  affinity_of st3 r = list_to_set slots /\ element_archive st3 = element_archive st.
Proof.
  intros Hc st1 st2 st3.
  assert (Hd : describes (delete r (elements_ st)) st2 /\ elements_ st2 = <[r := e]> (elements_ st) /\
               (forall r', r' <> r -> affinity_of st2 r' = affinity_of st r') /\
               element_archive st2 = element_archive st /\ archive_enabled st2 = archive_enabled st /\
               join_spec_by_label st2 = join_spec_by_label st).
  { subst st2. destruct (elements_ st !! r) as [prev|] eqn:Hp.
    - pose proof (de_ref _ _ Hc r prev Hp) as Hr. rewrite <- Hr. split.
      { apply clear_describes; [by apply describes_elements|by rewrite Hr]. }
      split; [|split].
      + unfold clear_slot_affinity. rewrite Hr. destruct (slot_affinity st1 !! r); [by destruct prev|done].
      + intros r' Hne. rewrite clear_affinity. by case_decide.
      + unfold clear_slot_affinity. destruct (slot_affinity st1 !! _); [by destruct prev|done].
    - rewrite delete_id by done. split_and!; try done. by apply describes_elements. }
  destruct Hd as (Hd & He & Ha & Har & Hen & Hj).
  assert (Hna : slot_affinity st2 !! r = None) by (apply (de_aff _ _ Hd); apply lookup_delete_eq).
  assert (Hel : elements_ st3 = <[r := e]> (elements_ st)) by (rewrite <- He; subst st3; by destruct e).
  assert (Har3 : element_archive st3 = element_archive st) by (rewrite <- Har; subst st3; by destruct e).
  split_and!; [split_and!| | |done].
  - unfold coherent. rewrite Hel, <- insert_delete_eq. apply set_describes; [done|apply lookup_delete_eq].
  - intros r' Hr. unfold same_at. rewrite Hel, lookup_insert_ne, Har3 by done. split_and!; [done| |done].
    subst st3. rewrite set_affinity by done. case_decide; [done|by apply Ha].
  - subst st3. destruct e; cbn; by rewrite Hen.
  - subst st3. destruct e; cbn; by rewrite Hj.
  - rewrite Hel. apply lookup_insert_eq.
  - subst st3. rewrite set_affinity by done. by rewrite decide_True.
Qed.

Lemma steps_keep (keep keep' : ElementReference -> Prop) st st' :
  (forall r, keep' r -> keep r) -> steps keep st st' -> steps keep' st st'.
Proof. intros Hk (? & ? & ? & ?). split_and!; auto. Qed.

(** The archive after [set_element]. *)
Definition archived (st : ElementIndexState) (e : Element) : gmap ElementReference ElementArchive :=
  if archive_enabled st
  then <[get_reference e := archive_insert e (archive_entry (element_archive st) (get_reference e))]> (element_archive st)
  else element_archive st.

Lemma set_element_with_ok set st e slots (r := get_reference e) :
  (match e with Node _ _ => sets_virtuals set | Relation _ _ _ _ => True end) -> coherent st ->
  exists st', set_element_with set st e slots = Ok st' /\
    steps (fun r' => real r' /\ r' <> r) st st' /\
    (real r -> elements_ st' !! r = Some e /\ affinity_of st' r = list_to_set slots /\
               element_archive st' !! r = archived st e !! r).
Proof.
  intros Hset Hc. destruct (store_ok st e slots Hc) as (Hs & He & Ha & Har). fold r in Hs, He, Ha.
  unfold set_element_with. fold r. set (st1 := set_slot_affinity e slots _) in *.
  assert (exists st2, update_source_joins set (elements_ st !! r) e st1 = Ok st2 /\ steps real st1 st2)
    as (st2 & -> & Hs2).
  { unfold update_source_joins. destruct e as [m ps|]; [|by exists st1; split; [|apply steps_refl; destruct Hs]].
    apply (out_foldl_inv (steps real st1)); [by apply steps_refl; destruct Hs|].
    intros st2 w _ Hs2.
    destruct (update_source_join_ok set (elements_ st !! r) (Node m ps) st2 w) as (st3 & Hu & Hs3);
      [done|by destruct Hs2|]. exists st3. split; [done|]. by eapply steps_trans; [|exact Hs2|exact Hs3]. }
  cbn [mbind outcome_bind]. eexists. split; [done|].
  assert (Hfin : steps (fun r' => real r' /\ r' <> r) st st2).
  { eapply (steps_trans _ real _ st1); [by intros ? []| |exact Hs2].
    eapply steps_keep; [|exact Hs]. by intros ? []. }
  assert (Hen : archive_enabled st2 = archive_enabled st) by (by destruct Hfin as (_ & _ & -> & _)).
  split.
  - destruct Hfin as (Hc2 & Hk & ? & ?). split_and!; [|intros r' Hr'|destruct (archive_enabled st2) eqn:He2; cbn; congruence|by destruct (archive_enabled st2)].
    + destruct (archive_enabled st2); [by destruct Hc2|done].
    + destruct (Hk r' Hr') as [Hsame Harc]. destruct (archive_enabled st2); [|done].
      split; [exact Hsame|]. cbn. rewrite lookup_insert_ne; [done|]. naive_solver.
  - intros Hr. destruct Hs2 as (_ & Hk & _). destruct (Hk r Hr) as [[Hel Haf] Harc]. rewrite He in Hel. rewrite Ha in Haf.
    rewrite Har in Harc. unfold archived. rewrite Hen. fold r. split_and!.
    + by destruct (archive_enabled st).
    + by destruct (archive_enabled st).
    + destruct (archive_enabled st); [|done]. subst r. cbn -[get_reference lookup insert].
      rewrite !lookup_insert_eq. unfold archive_entry. by rewrite Harc.
Qed.

Lemma set_element_ok st e slots (r := get_reference e) :
  coherent st ->
  exists st', set_element st e slots = Ok st' /\ steps (fun r' => real r' /\ r' <> r) st st' /\
    (real r -> elements_ st' !! r = Some e /\ affinity_of st' r = list_to_set slots /\
               element_archive st' !! r = archived st e !! r).
Proof.
  apply set_element_with_ok. destruct e; [|done]. intros st0 qj t a b sl Hc.
  destruct (set_element_with_ok (fun _ _ _ => Panic) st0 (virtual_relation qj t a b) sl I Hc) as (st1 & He & Hs & _).
  exists st1. split; [done|]. eapply steps_keep; [|exact Hs]. intros r' Hr'. split; [done|].
  intros ->. by apply (virtual_not_real a b).
Qed.

(** ** Histories of operations *)

Inductive IndexOp :=
| OpSet (e : Element) (slots : list nat)
| OpDelete (r : ElementReference)
| OpClear
| OpClearArchive
| OpSetJoins (mp : MatchPath) (joins : list QueryJoin).

Definition apply_op st (op : IndexOp) : outcome IndexError ElementIndexState :=
  match op with
  | OpSet e slots => set_element st e slots
  | OpDelete r => delete_element st r
  | OpClear => Ok (clear_index st)
  | OpClearArchive => clear_archive st
  | OpSetJoins mp joins => Ok (set_joins mp joins st)
  end.

Definition store_op (s : Store) (op : IndexOp) : Store :=
  match op with
  | OpSet e slots => <[get_reference e := (e, list_to_set slots)]> s
  | OpDelete r => delete r s
  | OpClear => ∅
  | OpClearArchive | OpSetJoins _ _ => s
  end.

(** The versions written for [r] since the archive was last cleared, in order. *)
Definition version_op r (l : list Element) (op : IndexOp) : list Element :=
  match op with
  | OpSet e _ => if bool_decide (get_reference e = r) then l ++ [e] else l
  | OpClearArchive => []
  | _ => l
  end.

Definition client_op (op : IndexOp) : Prop :=
  match op with OpSet e _ => real (get_reference e) | _ => True end.

(** The index with its archive on, holding nothing. *)
Definition archiving_index : ElementIndexState :=
  {| elements_ := ∅; slot_affinity := ∅; element_by_slot := ∅; element_by_slot_in := ∅;
     element_by_slot_out := ∅; element_archive := ∅; archive_enabled := true;
     join_spec_by_label := ∅; partial_joins := ∅ |}.

Definition archive_of (vs : list Element) : ElementArchive := fold_left (fun a e => archive_insert e a) vs [].

Record simulates (s : Store) (versions : ElementReference -> list Element) st : Prop := {
  si_coherent : coherent st;
  si_elements : forall r, real r -> elements_ st !! r = fst <$> s !! r;
  si_affinity : forall r e sl, real r -> s !! r = Some (e, sl) -> affinity_of st r = sl;
  si_archive : forall r, real r -> archive_entry (element_archive st) r = archive_of (versions r);
  si_enabled : archive_enabled st = true;
}.

Lemma simulates_steps s s' vs vs' st st' r :
  simulates s vs st -> steps (fun r' => real r' /\ r' <> r) st st' ->
  (forall r', r' <> r -> s' !! r' = s !! r' /\ vs' r' = vs r') ->
  (real r -> elements_ st' !! r = fst <$> s' !! r /\
     (forall e sl, s' !! r = Some (e, sl) -> affinity_of st' r = sl) /\
     archive_entry (element_archive st') r = archive_of (vs' r)) ->
  simulates s' vs' st'.
Proof.
  intros [Hc He Ha Har Hen] (Hc' & Hk & Hen' & _) Hs Hr. split; [done| | | |congruence].
  - intros r' Hr'. destruct (decide (r' = r)) as [->|Hne]; [by apply Hr|].
    destruct (Hk r') as [[-> _] _]; [done|]. rewrite He by done. by rewrite (proj1 (Hs r' Hne)).
  - intros r' e sl Hr' Hs'. destruct (decide (r' = r)) as [->|Hne]; [by eapply Hr|].
    destruct (Hk r') as [[_ ->] _]; [done|]. rewrite (proj1 (Hs r' Hne)) in Hs'. by eapply Ha.
  - intros r' Hr'. destruct (decide (r' = r)) as [->|Hne]; [by apply Hr|].
    destruct (Hk r') as [_ Hkr]; [done|]. unfold archive_entry. rewrite Hkr, (proj2 (Hs r' Hne)). by apply Har.
Qed.

Lemma empty_coherent st :
  elements_ st = ∅ -> slot_affinity st = ∅ -> element_by_slot st = ∅ -> element_by_slot_in st = ∅ ->
  element_by_slot_out st = ∅ -> coherent st.
Proof.
  intros He Ha Hn Hi Ho.
  assert (Hno : forall N (v : Element -> option N) s n r, ~ viewed v (elements_ st) (affinity_of st) s n r).
  { intros N v s n r (_ & e & Hl & _). by rewrite He, lookup_empty in Hl. }
  assert (Hm : forall k r, r ∉ members (∅ : gmap (nat * ElementReference) (gset ElementReference)) k).
  { intros k r. unfold members. rewrite lookup_empty. set_solver. }
  split.
  - intros r e. by rewrite He, lookup_empty.
  - intros r _. by rewrite Ha, lookup_empty.
  - intros s n r. rewrite Hn. split; [set_solver|by intros ?%Hno].
  - intros s n r. rewrite Hi. split; [by intros ?%Hm|by intros ?%Hno].
  - intros s n r. rewrite Ho. split; [by intros ?%Hm|by intros ?%Hno].
  - rewrite Hi, Ho. split; intros k; by rewrite lookup_empty.
Qed.

Lemma archive_of_snoc vs e : archive_of (vs ++ [e]) = archive_insert e (archive_of vs).
Proof. unfold archive_of. by rewrite fold_left_app. Qed.

Lemma simulate_op s vs st op :
  client_op op -> simulates s vs st ->
  exists st', apply_op st op = Ok st' /\
    simulates (store_op s op) (fun r => version_op r (vs r) op) st'.
Proof.
  intros Hop Hs. pose proof Hs as [Hc He Ha Har Hen]. destruct op as [e sl|r| | |mp js];
    cbn [apply_op store_op version_op].
  - destruct (set_element_ok st e sl Hc) as (st' & -> & Hst & Hnew). exists st'. split; [done|].
    eapply simulates_steps; [exact Hs|exact Hst| |].
    + intros r' Hne. rewrite lookup_insert_ne by done. by rewrite bool_decide_eq_false_2.
    + intros Hr. destruct (Hnew Hr) as (Hel & Haf & Harc). rewrite lookup_insert_eq, bool_decide_eq_true_2 by done.
      split_and!; [by rewrite Hel|by intros ? ? [= <- <-]|].
      unfold archive_entry. rewrite Harc. unfold archived. rewrite Hen, lookup_insert_eq.
      by rewrite archive_of_snoc, <- Har.
  - destruct (delete_element_ok st r Hc) as (st' & -> & Hst & Hgone). exists st'. split; [done|].
    pose proof Hst as (_ & _ & _ & Har' & _).
    eapply simulates_steps; [exact Hs|apply shrinks_steps; exact Hst| |].
    + intros r' Hne. by rewrite lookup_delete_ne.
    + intros Hr. rewrite lookup_delete_eq, Hgone. split_and!; [done|done|]. rewrite Har'. by apply Har.
  - eexists. split; [done|]. split; [|intros; cbn; by rewrite !lookup_empty|intros r e sl _; by rewrite lookup_empty|done|done].
    by apply empty_coherent.
  - unfold clear_archive. rewrite Hen. eexists. split; [done|]. split; cbn; try done; by destruct Hc.
  - eexists. split; [done|]. split; cbn; try done; by destruct Hc.
Qed.

Lemma simulate_ops ops s vs st :
  Forall client_op ops -> simulates s vs st ->
  exists st', out_foldl apply_op st ops = Ok st' /\
    simulates (fold_left store_op ops s) (fun r => fold_left (version_op r) ops (vs r)) st'.
Proof.
  revert s vs st. induction ops as [|op ops IH]; intros s vs st Hops Hs; cbn; [by eauto|].
  apply Forall_cons in Hops as [Hop Hops].
  destruct (simulate_op s vs st op Hop Hs) as (st1 & -> & Hs1). cbn. by apply IH.
Qed.

Lemma archiving_simulates : simulates ∅ (fun _ => []) archiving_index.
Proof.
  split; [by apply empty_coherent|done|intros r e sl _; by rewrite lookup_empty|done|done].
Qed.

Lemma elem_of_lookup_all st refs e :
  coherent st -> e ∈ lookup_all st refs <-> get_reference e ∈ refs /\ elements_ st !! get_reference e = Some e.
Proof.
  intros Hc. unfold lookup_all. rewrite list_elem_of_omap. setoid_rewrite elem_of_elements. split.
  - intros (r & Hr & He). by rewrite (de_ref _ _ Hc r e He).
  - intros [Hr He]. eauto.
Qed.

(** The latest of the versions in effect at [time]; of two versions with the
    same time, the one written last. *)
Definition latest (time : ElementTimestamp) (vs : list Element) : option Element :=
  fold_left (fun best v =>
    if time <? get_effective_from v then best
    else match best with
         | Some b => if get_effective_from v <? get_effective_from b then best else Some v
         | None => Some v
         end) vs None.

Lemma elem_of_bt_le time (a : ElementArchive) k v : (k, v) ∈ bt_le time a <-> (k, v) ∈ a /\ k <= time.
Proof.
  unfold bt_le. rewrite !list_elem_of_In, filter_In. cbn. unfold cmp. cbn. rewrite <- list_elem_of_In.
  destruct (Z.compare_spec k time); split; intros [? ?]; split; (done || lia).
Qed.

(** The entry the lookup finds is the greatest one within the time. *)
Lemma archive_get_spec time (a : ElementArchive) v :
  bt_sorted a ->
  archive_get time a = Some v <->
  exists k, (k, v) ∈ a /\ k <= time /\ forall k' v', (k', v') ∈ a -> k' <= time -> k' <= k.
Proof.
  intros Ha. unfold archive_get.
  assert (Hf : bt_sorted (bt_le time a)) by by apply bt_filter_sorted.
  assert (Hlast : forall k v, last (bt_le time a) = Some (k, v) <->
            (k, v) ∈ bt_le time a /\ forall k' v', (k', v') ∈ bt_le time a -> k' <= k).
  { clear v. intros k v. revert Hf. generalize (bt_le time a) as l. intros l Hl.
    induction l as [|[j w] l IH] using rev_ind; [split; [done|by intros [?%not_elem_of_nil _]]|].
    assert (Hmax : forall k' v', (k', v') ∈ l -> k' < j).
    { clear IH. induction l as [|[i u] l IHl]; cbn in Hl; [by intros ? ? ?%not_elem_of_nil|].
      apply bt_sorted_inv in Hl as [Hi Hl]. rewrite Forall_forall in Hi.
      intros k' v' [[= -> ->]|Hin]%elem_of_cons; [|by eapply IHl].
      assert (cmp i j = Lt) as Hc by (apply (Hi (j, w)); set_solver). by apply Z.compare_lt_iff. }
    rewrite last_snoc. split.
    - intros [= -> ->]. split; [set_solver|].
      intros k' v' [Hin%Hmax|[= -> ->]%list_elem_of_singleton]%elem_of_app; lia.
    - intros [[Hin|[= -> ->]%list_elem_of_singleton]%elem_of_app Hle]; [|done].
      specialize (Hle j w ltac:(set_solver)). apply Hmax in Hin. lia. }
  split.
  - destruct (last (bt_le time a)) as [[k w]|] eqn:Hl; [|done]. intros [= ->].
    destruct (proj1 (Hlast k v) eq_refl) as [[Hin Hk]%elem_of_bt_le Hle]. exists k. split_and!; [done|done|].
    intros k' v' Hin' Hk'. apply (Hle k' v'). by apply elem_of_bt_le.
  - intros (k & Hin & Hk & Hle).
    assert (Hl : last (bt_le time a) = Some (k, v)).
    { apply Hlast. split; [by apply elem_of_bt_le|]. intros k' v' [? ?]%elem_of_bt_le. by eapply Hle. }
    by rewrite Hl.
Qed.

Lemma archive_of_sorted vs : bt_sorted (archive_of vs).
Proof. apply (fold_left_inv bt_sorted); [constructor|]. intros. by apply bt_insert_sorted. Qed.

Lemma elem_of_archive_insert e (a : ElementArchive) k v :
  bt_sorted a ->
  (k, v) ∈ archive_insert e a <->
  (k = get_effective_from e /\ v = e) \/ (k <> get_effective_from e /\ (k, v) ∈ a).
Proof.
  intros Ha. unfold archive_insert. rewrite <- !bt_get_elem by auto using bt_insert_sorted.
  rewrite bt_get_insert_new by done. case_decide; naive_solver.
Qed.

Lemma archive_of_key vs k v : (k, v) ∈ archive_of vs -> k = get_effective_from v.
Proof.
  induction vs as [|e vs IH] using rev_ind; [by intros ?%not_elem_of_nil|].
  rewrite archive_of_snoc, elem_of_archive_insert by apply archive_of_sorted. naive_solver.
Qed.

Lemma archive_latest time vs : archive_get time (archive_of vs) = latest time vs.
Proof.
  induction vs as [|e vs IH] using rev_ind; [done|].
  unfold latest. rewrite fold_left_app. cbn. fold (latest time vs). rewrite <- IH, archive_of_snoc.
  pose proof (archive_of_sorted vs) as Ha. set (a := archive_of vs) in *.
  assert (Hi : bt_sorted (archive_insert e a)) by by apply bt_insert_sorted.
  assert (Hspec : forall v, archive_get time (archive_insert e a) = Some v <-> _)
    by (intros v; apply archive_get_spec, Hi).
  assert (Hin : forall k v, (k, v) ∈ archive_insert e a <-> _)
    by (intros k v; apply elem_of_archive_insert, Ha).
  destruct (archive_get time a) as [b|] eqn:Hb.
  - apply archive_get_spec in Hb as (k & Hk & Hkt & Hle); [|done].
    pose proof (archive_of_key _ _ _ Hk) as ->.
    destruct (Z.ltb_spec time (get_effective_from e)), (Z.ltb_spec (get_effective_from e) (get_effective_from b));
      apply Hspec; [exists (get_effective_from b)..|exists (get_effective_from e)];
      (split_and!; [apply Hin|lia|intros k' v' [[-> ->]|[? Hk']]%Hin Hkt']); try lia;
      try (by apply (Hle _ _ Hk')).
    + right. split; [lia|done].
    + right. split; [lia|done].
    + by left.
    + specialize (Hle _ _ Hk' Hkt'). lia.
  - assert (Hno : forall k v, (k, v) ∈ a -> time < k).
    { intros k v Hk. destruct (Z.lt_ge_cases time k) as [|Hge]; [done|exfalso].
      destruct (last (bt_le time a)) as [x|] eqn:Hl; [by unfold archive_get in Hb; rewrite Hl in Hb|].
      apply last_None in Hl. assert (Hx : (k, v) ∈ bt_le time a) by by apply elem_of_bt_le.
      rewrite Hl in Hx. by apply not_elem_of_nil in Hx. }
    destruct (Z.ltb_spec time (get_effective_from e)).
    + destruct (archive_get time (archive_insert e a)) as [v|] eqn:Hv; [|done]. exfalso.
      apply archive_get_spec in Hv as (k & [[-> ->]|[_ Hk%Hno]]%Hin & Hkt & _); [lia|lia|done].
    + apply Hspec. exists (get_effective_from e). split_and!; [apply Hin; by left|lia|].
      intros k' v' [[-> ->]|[_ Hk'%Hno]]%Hin Hkt'; lia.
Qed.
End coherence.

(** ** The properties *)

(** [C19] The index refines the store of elements with their slots: after any
    sequence of updates, deletions, clears and join changes by clients (virtual
    references are the index's own), every operation has succeeded, and every
    read of the path solver answers as the store does. *)
Theorem element_index_refines_store {C : Chrono} {H : Hashers} (ops : list IndexOp) :
  Forall client_op ops ->
  exists st, out_foldl apply_op archiving_index ops = Ok st /\
    let s := fold_left store_op ops ∅ in
    (forall r, real r -> get_element st r = Ok (fst <$> s !! r)) /\
    (forall slot r, real r -> exists o, get_slot_element_by_ref (SlotIndex:=slot_index st) slot r = Ok o /\
       forall e, o = Some e <-> exists sl, s !! r = Some (e, sl) /\ slot ∈ sl /\ node_view e = Some tt) /\
    (forall slot n, exists l, get_slot_elements_by_inbound (SlotIndex:=slot_index st) slot n = Ok l /\
       forall e, real (get_reference e) ->
         e ∈ l <-> exists sl, s !! get_reference e = Some (e, sl) /\ slot ∈ sl /\ in_view e = Some n) /\
    (forall slot n, exists l, get_slot_elements_by_outbound (SlotIndex:=slot_index st) slot n = Ok l /\
       forall e, real (get_reference e) ->
         e ∈ l <-> exists sl, s !! get_reference e = Some (e, sl) /\ slot ∈ sl /\ out_view e = Some n).
Proof.
  intros Hops. destruct (simulate_ops ops ∅ (fun _ => []) archiving_index Hops archiving_simulates)
    as (st & Hst & [Hc He Ha _ _]). exists st. split; [done|]. cbv zeta. set (s := fold_left store_op ops ∅) in *.
  assert (Hview : forall N (view : Element -> option N) slot n r e, real r ->
    (s !! r = Some (e, affinity_of st r) /\ slot ∈ affinity_of st r /\ view e = Some n) <->
    exists sl, s !! r = Some (e, sl) /\ slot ∈ sl /\ view e = Some n).
  { intros N view slot n r e Hr. split; [by eauto|]. intros (sl & Hsl & ? & ?). by rewrite (Ha r e sl Hr Hsl). }
  assert (Hin : forall r e, real r -> elements_ st !! r = Some e <-> s !! r = Some (e, affinity_of st r)).
  { intros r e Hr. rewrite (He r Hr). destruct (s !! r) as [[e' sl]|] eqn:Hsl; cbn; [|done].
    rewrite (Ha r e' sl Hr Hsl). naive_solver. }
  split_and!.
  - intros r Hr. unfold get_element. by rewrite He.
  - intros slot r Hr. eexists. split; [done|]. intros e.
    rewrite <- (Hview _ node_view), <- Hin by done. case_bool_decide as Hm.
    + apply (de_node _ _ Hc slot tt) in Hm as (Hs & e' & He' & Hv). naive_solver.
    + split; [done|]. intros (Hel & Hs & Hv). destruct Hm. apply (de_node _ _ Hc slot tt). split; eauto.
  - intros slot n. eexists. split; [done|]. intros e Hr.
    rewrite <- (Hview _ in_view), <- Hin, elem_of_lookup_all by done.
    change (default ∅ (element_by_slot_in st !! (slot, n))) with (members (element_by_slot_in st) (slot, n)).
    rewrite (de_in _ _ Hc). unfold viewed. naive_solver.
  - intros slot n. eexists. split; [done|]. intros e Hr.
    rewrite <- (Hview _ out_view), <- Hin, elem_of_lookup_all by done.
    change (default ∅ (element_by_slot_out st !! (slot, n))) with (members (element_by_slot_out st) (slot, n)).
    rewrite (de_out _ _ Hc). unfold viewed. naive_solver.
Qed.

(** With the archive on, asking for an element as at a time returns the
    version with the greatest effective time within it, of all versions written
    since the archive was last cleared, deletions and clears of the index
    notwithstanding. *)
Theorem element_as_at_latest_version {C : Chrono} {H : Hashers} (ops : list IndexOp) r time :
  Forall client_op ops -> real r ->
  exists st, out_foldl apply_op archiving_index ops = Ok st /\
    get_element_as_at st r time = Ok (latest time (fold_left (version_op r) ops [])).
Proof.
  intros Hops Hr. destruct (simulate_ops ops ∅ (fun _ => []) archiving_index Hops archiving_simulates)
    as (st & Hst & [_ _ _ Har Hen]). exists st. split; [done|].
  unfold get_element_as_at. rewrite Hen. specialize (Har r Hr). unfold archive_entry in Har.
  rewrite <- archive_latest, <- Har. by destruct (element_archive st !! r).
Qed.

(** A range of versions that ends before it starts makes the archive
    panic, for every archived element. *)
Theorem inverted_range_panics {C : Chrono} {H : Hashers} st r a from to :
  archive_enabled st = true -> element_archive st !! r = Some a -> to < from ->
  get_element_versions st r {| range_from := Included from; range_to := to |} = Panic.
Proof.
  intros Hen Ha Hlt. unfold get_element_versions. rewrite Hen, Ha. cbn.
  unfold archive_get_range. by destruct (Z.ltb_spec to from); [|lia].
Qed.

(** ** Two sources joined on a property *)

Section samples.
#[local] Existing Instance Sample.hashers.
#[local] Existing Instance Sample.chrono.

Definition vehicle (src i : string) (label : string) (plate : Z) : Element :=
  Node {| reference := {| source_id := src; element_id := i |}; labels := [label]; effective_from := 1 |}
    [("plate"%string, EV_Integer plate)].

Definition parked : QueryJoin :=
  {| join_id := "PARKED";
     join_keys := [{| join_label := "Car"; join_property := "plate" |};
                   {| join_label := "Spot"; join_property := "plate" |}] |}.

Definition parked_path : MatchPath :=
  {| slots := [{| spec := {| annotation := None; spec_labels := ["PARKED"%string]; predicates := [] |};
                  in_slots := []; out_slots := []; paths := {[0%nat]}; optional := false |}];
     optional_paths := ∅ |}.

Definition parking (cars : list Element) : outcome IndexError ElementIndexState :=
  out_foldl (fun st e => set_element st e [7%nat]) (set_joins parked_path [parked] new_index) cars.

Definition outgoing (m : outcome IndexError ElementIndexState) (r : ElementReference) : nat :=
  match m with
  | Ok st => length (ok_or [] (get_slot_elements_by_inbound (SlotIndex:=slot_index st) 0%nat r))
  | _ => 0
  end.

Definition car1 := vehicle "cars" "1" "Car" 10.
Definition car2 := vehicle "cars" "2" "Car" 20.
Definition spot1 := vehicle "spots" "1" "Spot" 20.
Definition spot2 := vehicle "spots" "2" "Spot" 10.
Definition unlabelled1 := vehicle "cars" "1" "Other" 10.

Definition archived_car : ElementIndexState := ok_or archiving_index (set_element archiving_index car1 []).

(** The identity of a virtual relation keeps only the element ids, so two
    sources that number their elements alike collide: car 1 is parked in spot 2
    and has one virtual relation; registering car 2 in spot 1, which concerns
    other elements, takes it away. *)
Theorem join_identity_collision_loses_match :
  outgoing (parking [car1; spot2]) (get_reference car1) = 1%nat /\
  outgoing (parking [car1; spot2; car2; spot1]) (get_reference car1) = 0%nat.
Proof. split; by_compute. Qed.

(** Joins do not follow a change of labels: a node that acquires the
    joined label while its property stays the same is not joined, and one that
    loses the label stays joined. *)
Theorem join_ignores_label_change :
  outgoing (parking [spot2; car1]) (get_reference car1) = 1%nat /\
  outgoing (parking [spot2; unlabelled1; car1]) (get_reference car1) = 0%nat /\
  outgoing (parking [spot2; car1; unlabelled1]) (get_reference car1) = 1%nat.
Proof. split_and!; by_compute. Qed.

(** ** Witnesses *)

Lemma element_index_refines_store_witness :
  exists st, out_foldl apply_op archiving_index [OpSet car1 [2%nat; 3%nat]; OpSet car2 [2%nat]; OpDelete (get_reference car2)] = Ok st /\
    get_element st (get_reference car2) = Ok None.
Proof.
  destruct (element_index_refines_store
    [OpSet car1 [2%nat; 3%nat]; OpSet car2 [2%nat]; OpDelete (get_reference car2)]) as (st & Hst & He & _).
  { repeat constructor; by unfold real. }
  exists st. split; [exact Hst|]. rewrite He by (by unfold real). reflexivity.
Defined.

Lemma element_as_at_latest_version_witness :
  exists st, out_foldl apply_op archiving_index [OpSet car1 []; OpDelete (get_reference car1)] = Ok st /\
    get_element_as_at st (get_reference car1) 5 = Ok (Some car1).
Proof.
  apply (element_as_at_latest_version [OpSet car1 []; OpDelete (get_reference car1)] (get_reference car1) 5).
  - repeat constructor; by unfold real.
  - by unfold real.
Defined.

Lemma inverted_range_panics_witness :
  get_element_versions archived_car (get_reference car1) {| range_from := Included 10; range_to := 5 |} = Panic.
Proof. apply (inverted_range_panics archived_car (get_reference car1) [(1, car1)]); reflexivity. Defined.
End samples.
