(* ===== verification/ResultIndex.v ===== *)
(** * Result index (core/src/interface/result_index.rs,
      core/src/in_memory_index/in_memory_result_index.rs)

    The accumulators of the aggregating functions and parts, the counted sorted
    sets behind [min] and [max], and the output sequence. [AccumulatorIndex]
    and [LazySortedSetStore] are the interfaces the rest of the engine uses;
    the in-memory index is an instance of both. *)

From S2P Require Import Prelude BTree Floats Hashing Ast Models Errors Values.

Section result_index.
Context {C : Chrono} {H : Hashers}.

(** ** Keys *)

Inductive ResultOwner :=
| OwnerFunction (position : nat)
| PartCurrent (part : nat)
| PartDefault (part : nat).

Inductive ResultKey :=
| KeyGroupBy (grouping_keys : list VariableValue)
| KeyInputHash (hash : Z)
| KeyElement (r : ElementReference).

Definition result_key_eqb (a b : ResultKey) : bool :=
  match a, b with
  | KeyGroupBy l, KeyGroupBy r =>
      Nat.eqb (length l) (length r) && forallb (fun p => eq_for_groupby p.1 p.2) (zip l r)
  | KeyInputHash l, KeyInputHash r => l =? r
  | KeyElement l, KeyElement r => bool_decide (l = r)
  | _, _ => false
  end.

Definition groupby_from_variables (keys : list string) (variables : QueryVariables) : ResultKey :=
  KeyGroupBy (map (fun k => match bt_get k variables with Some v => v | None => VNull end) keys).

(** The hand-written [Hash] writes no discriminant and no length. *)
Definition result_key_hash (k : ResultKey) : list hwrite :=
  match k with
  | KeyGroupBy l => concat (map hash_for_groupby l)
  | KeyInputHash h => hash_u64 h
  | KeyElement r => element_reference_hash r
  end.

Definition result_owner_hash (o : ResultOwner) : list hwrite :=
  match o with
  | OwnerFunction n => hash_discr 0 ++ hash_usize n
  | PartCurrent n => hash_discr 1 ++ hash_usize n
  | PartDefault n => hash_discr 2 ++ hash_usize n
  end.

Definition get_hash_key (owner : ResultOwner) (key : ResultKey) : Z :=
  sip (result_owner_hash owner ++ result_key_hash key).

(** ** Accumulators (functions/aggregation/mod.rs) *)

Inductive ValueAccumulator :=
| AccSum (value : f64)
| AccAvg (sum : f64) (count : Z)
| AccCount (value : Z)
| AccTimeMarker (timestamp : Z)
| AccSignature (signature : Z)
| AccLinearGradient (count : Z) (mean_x mean_y m2 cov : f64)
| AccValue (v : ElementValue)
| AccMap (m : ElementPropertyMap).

(** ** Interfaces *)

Class AccumulatorIndex (S : Type) := {
  acc_get : S -> ResultKey -> ResultOwner -> outcome IndexError (option ValueAccumulator);
  acc_set : S -> ResultKey -> ResultOwner -> option ValueAccumulator -> outcome IndexError S;
}.

(** The calls of the evaluators; [?] converts the error. *)
Definition index_get {S : Type} `{!AccumulatorIndex S} (key : ResultKey) (owner : ResultOwner) :
    SM S EvaluationError (option ValueAccumulator) :=
  fun s => (map_err EvalIndexError (acc_get s key owner), s).

Definition index_set {S : Type} `{!AccumulatorIndex S} (key : ResultKey) (owner : ResultOwner)
    (v : option ValueAccumulator) : SM S EvaluationError unit :=
  fun s => match acc_set s key owner v with
           | Ok s' => (Ok tt, s')
           | Err e => (Err (EvalIndexError e), s)
           | Panic => (Panic, s)
           end.

(** A store of counted sorted sets. A failing increment may leave the store
    changed. *)
Class LazySortedSetStore (S : Type) := {
  get_next : S -> Z -> option OrderedFloat -> outcome IndexError (option (OrderedFloat * Z));
  get_value_count : S -> Z -> OrderedFloat -> outcome IndexError Z;
  increment_value_count : S -> Z -> OrderedFloat -> Z -> outcome IndexError unit * S;
}.

(** ** The in-memory index *)

Record ResultSequence := { sequence : Z; source_change_id : string }.

Record InMemoryResultIndex := {
  values : gmap Z ValueAccumulator;
  sorted_sets : gmap Z (btree OrderedFloat Z);
  result_sequence : ResultSequence;
}.

Definition new_result_index : InMemoryResultIndex :=
  {| values := ∅; sorted_sets := ∅; result_sequence := {| sequence := 0; source_change_id := "" |} |}.

Definition mem_get (s : InMemoryResultIndex) (key : ResultKey) (owner : ResultOwner) :
    outcome IndexError (option ValueAccumulator) := Ok (values s !! get_hash_key owner key).

Definition mem_set (s : InMemoryResultIndex) (key : ResultKey) (owner : ResultOwner)
    (value : option ValueAccumulator) : outcome IndexError InMemoryResultIndex :=
  let k := get_hash_key owner key in
  Ok {| values := match value with None => delete k (values s) | Some v => <[k := v]> (values s) end;
        sorted_sets := sorted_sets s; result_sequence := result_sequence s |}.

Definition mem_clear (s : InMemoryResultIndex) : InMemoryResultIndex :=
  {| values := ∅; sorted_sets := ∅; result_sequence := result_sequence s |}.

Definition mem_get_next (s : InMemoryResultIndex) (set_id : Z) (value : option OrderedFloat) :
    outcome IndexError (option (OrderedFloat * Z)) :=
  match sorted_sets s !! set_id with
  | None => Ok None
  | Some m => Ok (match value with None => head m | Some v => bt_next_after v m end)
  end.

Definition mem_get_value_count (s : InMemoryResultIndex) (set_id : Z) (value : OrderedFloat) :
    outcome IndexError Z :=
  match sorted_sets s !! set_id with
  | None => Ok 0
  | Some m => Ok (default 0 (bt_get value m))
  end.

Definition with_sets (s : InMemoryResultIndex) (f : gmap Z (btree OrderedFloat Z) -> gmap Z (btree OrderedFloat Z)) :
    InMemoryResultIndex :=
  {| values := values s; sorted_sets := f (sorted_sets s); result_sequence := result_sequence s |}.

Definition sorted_set (s : InMemoryResultIndex) (set_id : Z) : btree OrderedFloat Z :=
  match sorted_sets s !! set_id with Some m => m | None => [] end.

Definition mem_increment_value_count (s : InMemoryResultIndex) (set_id : Z) (value : OrderedFloat) (delta : Z) :
    outcome IndexError unit * InMemoryResultIndex :=
  if delta =? 0 then (Ok tt, s)
  else
    let entry := match bt_get value (sorted_set s set_id) with
                 | Some v => as_i64 (v + delta)
                 | None => delta
                 end in
    let m := bt_insert value entry (sorted_set s set_id) in
    if entry <? 0 then (Err CorruptedData, with_sets s <[set_id := m]>)
    else
      let m := if entry =? 0 then bt_remove value m else m in
      (Ok tt, with_sets s (match m with [] => delete set_id | _ => <[set_id := m]> end)).

#[global] Instance mem_accumulators : AccumulatorIndex InMemoryResultIndex :=
  {| acc_get := mem_get; acc_set := mem_set |}.
#[global] Instance mem_sorted_sets : LazySortedSetStore InMemoryResultIndex :=
  {| get_next := mem_get_next; get_value_count := mem_get_value_count;
     increment_value_count := mem_increment_value_count |}.

(** [ResultSequenceCounter] *)
Definition apply_sequence (s : InMemoryResultIndex) (seq : Z) (change_id : string) : InMemoryResultIndex :=
  {| values := values s; sorted_sets := sorted_sets s;
     result_sequence := {| sequence := seq; source_change_id := change_id |} |}.
Definition get_sequence (s : InMemoryResultIndex) : ResultSequence := result_sequence s.
End result_index.

(** ** The contract of a sorted-set store

    [counts] is the multiplicity of a value, [store_inv] the states the store
    reaches. *)

Class LazySortedSetStoreLaws (S : Type) `{LazySortedSetStore S} := {
  store_inv : S -> Prop;
  counts : S -> Z -> OrderedFloat -> Z;
  counts_nonneg : forall s id v, store_inv s -> 0 <= counts s id v;
  counts_cmp : forall s id v w, cmp v w = Eq -> counts s id v = counts s id w;
  get_value_count_ok : forall s id v, store_inv s -> get_value_count s id v = Ok (counts s id v);
  (** [get_next] is the least stored value above the bound. *)
  get_next_ok : forall s id lo, store_inv s -> exists r, get_next s id lo = Ok r /\
    let above v := match lo with None => True | Some l => cmp l v = Lt end in
    match r with
    | Some e => above e.1 /\ 0 < counts s id e.1 /\
                forall v, above v -> 0 < counts s id v -> cmp v e.1 <> Lt
    | None => forall v, above v -> counts s id v = 0
    end;
  increment_ok : forall s id v d, store_inv s -> 0 <= counts s id v + d <= i64_max ->
    exists s', increment_value_count s id v d = (Ok tt, s') /\ store_inv s' /\
      forall id' w, counts s' id' w =
        if (id =? id') && (match cmp v w with Eq => true | _ => false end)
        then counts s id v + d else counts s id' w;
}.

(** The contract of an accumulator index: a slot holds what was last written
    to it, and a write leaves alone the slots [acc_independent] of it (the
    in-memory index addresses a slot by a hash). *)

Class AccumulatorLaws (S : Type) `{AccumulatorIndex S} := {
  acc_at : S -> ResultKey -> ResultOwner -> option ValueAccumulator;
  acc_independent : ResultKey * ResultOwner -> ResultKey * ResultOwner -> Prop;
  acc_get_ok : forall s k o, acc_get s k o = Ok (acc_at s k o);
  acc_set_ok : forall s k o v, exists s', acc_set s k o v = Ok s' /\ acc_at s' k o = v /\
    forall k' o', acc_independent (k, o) (k', o') -> acc_at s' k' o' = acc_at s k' o';
}.

(** * The in-memory result index keeps the contract of a sorted-set store *)

Lemma bt_get_cmp_eq {K V} `{Ord K} (m : btree K V) j k : cmp j k = Eq -> bt_get j m = bt_get k m.
Proof.
  intros Hjk. induction m as [|[i w] m IH]; [done|]. cbn. by rewrite (cmp_eq_l _ _ i Hjk), IH.
Qed.

Section memory.
Context {C : Chrono} {H : Hashers}.

Definition set_ok (m : btree OrderedFloat Z) : Prop :=
  bt_sorted m /\ Forall (fun e => 0 < e.2 <= i64_max) m.

Definition mem_inv (s : InMemoryResultIndex) : Prop :=
  forall id m, sorted_sets s !! id = Some m -> set_ok m.

Definition mem_counts (s : InMemoryResultIndex) (id : Z) (v : OrderedFloat) : Z :=
  default 0 (bt_get v (sorted_set s id)).

Lemma sorted_set_ok s id : mem_inv s -> set_ok (sorted_set s id).
Proof.
  intros Hs. unfold sorted_set. destruct (sorted_sets s !! id) as [m|] eqn:Hm; [by apply (Hs id)|].
  by repeat constructor.
Qed.

Lemma set_ok_count m v c : set_ok m -> bt_get v m = Some c -> 0 < c <= i64_max.
Proof.
  intros [_ Hp] (k & _ & Hin)%bt_get_Some_elem. rewrite Forall_forall in Hp. by apply (Hp _ Hin).
Qed.

Lemma mem_counts_bounds s id v : mem_inv s -> 0 <= mem_counts s id v <= i64_max.
Proof.
  intros Hs. unfold mem_counts. destruct (bt_get v _) as [c|] eqn:Hc; cbn; [|unfold i64_max; lia].
  apply set_ok_count in Hc; [lia|by apply sorted_set_ok].
Qed.

Lemma mem_positive s id v : mem_inv s ->
  0 < mem_counts s id v <-> exists w c, cmp v w = Eq /\ (w, c) ∈ sorted_set s id.
Proof.
  intros Hs. pose proof (sorted_set_ok s id Hs) as [Hm Hp]. unfold mem_counts. split.
  - destruct (bt_get v _) as [c|] eqn:Hc; cbn; [|lia]. intros _.
    apply bt_get_Some_elem in Hc as (w & Hw & Hin). eauto.
  - intros (w & c & Hw & Hin). rewrite (bt_get_cmp_eq _ v w Hw), (bt_elem_get w c) by done. cbn.
    rewrite Forall_forall in Hp. specialize (Hp _ Hin). cbn in Hp. lia.
Qed.

Lemma mem_get_next_ok s id lo :
  mem_inv s -> exists r, mem_get_next s id lo = Ok r /\
    let above v := match lo with None => True | Some l => cmp l v = Lt end in
    match r with
    | Some e => above e.1 /\ 0 < mem_counts s id e.1 /\
                forall v, above v -> 0 < mem_counts s id v -> cmp v e.1 <> Lt
    | None => forall v, above v -> mem_counts s id v = 0
    end.
Proof.
  intros Hs. pose proof (sorted_set_ok s id Hs) as [Hm Hp].
  assert (Hnone : forall v, ~ 0 < mem_counts s id v -> mem_counts s id v = 0)
    by (intros v Hv; pose proof (mem_counts_bounds s id v Hs); lia).
  assert (Hget : mem_get_next s id lo =
            Ok (match lo with None => head (sorted_set s id) | Some v => bt_next_after v (sorted_set s id) end)).
  { unfold mem_get_next, sorted_set. destruct (sorted_sets s !! id); [done|]. by destruct lo. }
  rewrite Hget. eexists. split; [done|]. cbv zeta. destruct lo as [l|].
  - destruct (bt_next_after l (sorted_set s id)) as [e|] eqn:He.
    + apply bt_next_after_Some in He as (Hin & Hlt & Hleast); [|done]. split_and!; [done| |].
      * apply mem_positive; [done|]. exists e.1, e.2. split; [apply cmp_refl|by destruct e].
      * intros v Hv (w & c & Hw & Hwin)%mem_positive; [|done].
        rewrite (cmp_eq_l _ _ e.1 Hw). apply (Hleast _ Hwin). cbn. by rewrite <- (cmp_eq_r _ _ l Hw).
    + intros v Hv. apply Hnone. intros (w & c & Hw & Hwin)%mem_positive; [|done].
      apply (bt_next_after_None _ _ He _ Hwin). cbn. by rewrite <- (cmp_eq_r _ _ l Hw).
  - destruct (sorted_set s id) as [|[k c] m] eqn:Hset; cbn.
    + intros v _. apply Hnone. intros (w & c & _ & Hin)%mem_positive; [|done]. rewrite Hset in Hin.
      by apply not_elem_of_nil in Hin.
    + apply bt_sorted_inv in Hm as [Hk _]. rewrite Forall_forall in Hk. split_and!; [done| |].
      * apply mem_positive; [done|]. exists k, c. rewrite Hset. split; [apply cmp_refl|set_solver].
      * intros v _ (w & c' & Hw & Hin)%mem_positive; [|done]. rewrite Hset in Hin.
        rewrite (cmp_eq_l _ _ k Hw). apply elem_of_cons in Hin as [[= -> ->]|Hin]; [by rewrite cmp_refl|].
        specialize (Hk _ Hin). cbn in Hk. by rewrite cmp_sym, Hk.
Qed.

(** The set after an increment: the entry is replaced, or removed at zero. *)
Definition updated_set (v : OrderedFloat) (entry : Z) (m : btree OrderedFloat Z) : btree OrderedFloat Z :=
  if entry =? 0 then bt_remove v (bt_insert v entry m) else bt_insert v entry m.

Lemma updated_set_get v entry m w :
  bt_sorted m ->
  bt_get w (updated_set v entry m) =
  match cmp v w with Eq => if entry =? 0 then None else Some entry | _ => bt_get w m end.
Proof.
  intros Hm. rewrite (cmp_sym w v). unfold updated_set. destruct (entry =? 0).
  - rewrite bt_get_remove, bt_get_insert by auto using bt_insert_sorted. by destruct (cmp w v).
  - rewrite bt_get_insert by done. by destruct (cmp w v).
Qed.

Lemma updated_set_ok v entry m : set_ok m -> 0 <= entry <= i64_max -> set_ok (updated_set v entry m).
Proof.
  intros Hok He. pose proof Hok as [Hm Hp].
  assert (Hs : bt_sorted (updated_set v entry m)).
  { unfold updated_set. destruct (entry =? 0); auto using bt_insert_sorted, bt_remove_sorted. }
  split; [done|]. apply Forall_forall. intros [w c] Hin%bt_elem_get; [|done]. cbn.
  rewrite updated_set_get in Hin by done.
  destruct (cmp v w); [|by apply (set_ok_count m w)..].
  destruct (Z.eqb_spec entry 0); [done|]. injection Hin as <-. lia.
Qed.

Lemma mem_increment_updates s id v d :
  mem_inv s -> d <> 0 -> 0 <= mem_counts s id v + d <= i64_max ->
  mem_increment_value_count s id v d =
  (Ok tt, with_sets s (match updated_set v (mem_counts s id v + d) (sorted_set s id) with
                       | [] => delete id
                       | m => <[id := m]>
                       end)).
Proof.
  intros Hs Hd Hc. pose proof (mem_counts_bounds s id v Hs) as Hb. unfold mem_increment_value_count.
  destruct (Z.eqb_spec d 0); [done|].
  replace (match bt_get v (sorted_set s id) with Some c => as_i64 (c + d) | None => d end)
    with (mem_counts s id v + d).
  2: { unfold mem_counts in *. destruct (bt_get v _) as [c|]; cbn in *; [|lia].
       symmetry. apply as_i64_small. unfold i64_ok, i64_min, i64_max in *. lia. }
  destruct (Z.ltb_spec (mem_counts s id v + d) 0); [lia|]. unfold updated_set. cbv zeta. set (m := if _ =? 0 then _ else _). by destruct m.
Qed.

Lemma mem_increment_ok s id v d :
  mem_inv s -> 0 <= mem_counts s id v + d <= i64_max ->
  exists s', mem_increment_value_count s id v d = (Ok tt, s') /\ mem_inv s' /\
    forall id' w, mem_counts s' id' w =
      if (id =? id') && (match cmp v w with Eq => true | _ => false end)
      then mem_counts s id v + d else mem_counts s id' w.
Proof.
  intros Hs Hd. destruct (Z.eq_dec d 0) as [->|Hd0].
  { exists s. split_and!; [done|done|]. intros id' w. destruct (Z.eqb_spec id id') as [<-|]; [|done].
    destruct (cmp v w) eqn:Hc; cbn; [|done|done]. unfold mem_counts. rewrite (bt_get_cmp_eq _ v w Hc). lia. }
  rewrite mem_increment_updates by done. eexists. split; [done|].
  pose proof (updated_set_ok v _ _ (sorted_set_ok s id Hs) Hd) as Hok.
  set (m2 := updated_set v (mem_counts s id v + d) (sorted_set s id)) in *. set (s' := with_sets s _).
  assert (Hlook : forall id', sorted_sets s' !! id' =
            if id =? id' then match m2 with [] => None | _ => Some m2 end else sorted_sets s !! id').
  { intros id'. unfold s'. cbn. destruct (Z.eqb_spec id id') as [<-|Hne].
    - destruct m2; [by rewrite lookup_delete_eq|by rewrite lookup_insert_eq].
    - destruct m2; [by rewrite lookup_delete_ne|by rewrite lookup_insert_ne]. }
  split.
  - intros id' m. rewrite Hlook. destruct (id =? id'); [|apply Hs]. destruct m2; [done|]. by intros [= <-].
  - intros id' w. unfold mem_counts at 1. unfold sorted_set. rewrite Hlook.
    destruct (Z.eqb_spec id id') as [<-|]; cbn; [|done].
    replace (match match m2 with [] => None | _ => Some m2 end with Some m => m | None => [] end) with m2
      by (by destruct m2).
    unfold m2. rewrite updated_set_get by apply sorted_set_ok, Hs.
    destruct (cmp v w); [|done|done]. by destruct (Z.eqb_spec (mem_counts s id v + d) 0) as [->|].
Qed.

#[global] Instance mem_sorted_set_laws : LazySortedSetStoreLaws InMemoryResultIndex.
Proof.
  refine {| store_inv := mem_inv; counts := mem_counts |}.
  - intros s id v Hs. by apply mem_counts_bounds.
  - intros s id v w Hc. unfold mem_counts. by rewrite (bt_get_cmp_eq _ v w Hc).
  - intros s id v Hs. cbn. unfold mem_get_value_count, mem_counts, sorted_set.
    by destruct (sorted_sets s !! id).
  - exact mem_get_next_ok.
  - exact mem_increment_ok.
Defined.

#[global] Instance mem_accumulator_laws : AccumulatorLaws InMemoryResultIndex.
Proof.
  refine {| acc_at := fun s k o => values s !! get_hash_key o k;
            acc_independent := fun p q => get_hash_key p.2 p.1 <> get_hash_key q.2 q.1 |}.
  - done.
  - intros s k o v. eexists. split; [done|]. cbn. split.
    + destruct v; [by rewrite lookup_insert_eq|by rewrite lookup_delete_eq].
    + intros k' o' Hne. destruct v; [by rewrite lookup_insert_ne|by rewrite lookup_delete_ne].
Defined.

Lemma new_result_index_inv : mem_inv new_result_index.
Proof. intros id m. cbn. by rewrite lookup_empty. Qed.
End memory.
