(* ===== verification/ChronoOps.v ===== *)
(** * The operations of [chrono] and of [std]'s formatting the engine calls

    The calendar is not part of the repository: its operations are a class.
    [None] stands for a value out of range, where [chrono] panics or returns
    [None] itself. *)

From S2P Require Import Prelude BTree Floats Hashing Ast Models Values.

Class ChronoOps `{Chrono} := {
  (* durations *)
  num_milliseconds : TimeDelta -> Z;
  num_nanoseconds : TimeDelta -> option Z;
  num_microseconds : TimeDelta -> option Z;
  num_seconds : TimeDelta -> Z;
  num_days : TimeDelta -> Z;
  milliseconds : Z -> option TimeDelta;
  days : Z -> option TimeDelta;
  delta_add : TimeDelta -> TimeDelta -> option TimeDelta;
  delta_sub : TimeDelta -> TimeDelta -> option TimeDelta;
  delta_cmp : TimeDelta -> TimeDelta -> comparison;
  (* dates *)
  EPOCH_NAIVE_DATE : NaiveDate;
  date_num_days : NaiveDate -> Z;                 (* d.signed_duration_since(epoch).num_days() *)
  date_add : NaiveDate -> TimeDelta -> option NaiveDate;
  date_sub : NaiveDate -> TimeDelta -> option NaiveDate;
  date_timestamp_millis : NaiveDate -> Z;
  date_cmp : NaiveDate -> NaiveDate -> comparison;
  date_year : NaiveDate -> Z;
  date_month : NaiveDate -> Z;
  date_day : NaiveDate -> Z;
  date_ordinal : NaiveDate -> Z;
  iso_year : NaiveDate -> Z;
  iso_week : NaiveDate -> Z;
  number_from_monday : NaiveDate -> Z;            (* 1 for Monday to 7 for Sunday *)
  from_ymd_opt : Z -> Z -> Z -> option NaiveDate;
  (* times of day *)
  MIDNIGHT_NAIVE_TIME : NaiveTime;
  time_num_milliseconds : NaiveTime -> Z;         (* since midnight *)
  num_seconds_from_midnight : NaiveTime -> Z;
  time_add : NaiveTime -> TimeDelta -> NaiveTime; (* wraps around *)
  time_sub : NaiveTime -> TimeDelta -> NaiveTime;
  time_cmp : NaiveTime -> NaiveTime -> comparison;
  time_hour : NaiveTime -> Z;
  time_minute : NaiveTime -> Z;
  time_second : NaiveTime -> Z;
  time_nanosecond : NaiveTime -> Z;
  (* instants without an offset *)
  naive_datetime : NaiveDate -> NaiveTime -> NaiveDateTime;
  datetime_date : NaiveDateTime -> NaiveDate;
  datetime_time : NaiveDateTime -> NaiveTime;
  datetime_add : NaiveDateTime -> TimeDelta -> option NaiveDateTime;
  datetime_sub : NaiveDateTime -> TimeDelta -> option NaiveDateTime;
  datetime_cmp : NaiveDateTime -> NaiveDateTime -> comparison;
  datetime_default : NaiveDateTime;
  utc_timestamp_millis : NaiveDateTime -> Z;
  since_epoch : NaiveDateTime -> TimeDelta;
  from_timestamp_millis : Z -> option NaiveDateTime;
  (* instants with an offset *)
  UTC_FIXED_OFFSET : FixedOffset;
  local_minus_utc : FixedOffset -> Z;
  offset_to_string : FixedOffset -> string;
  timestamp_millis : FixedDateTime -> Z;
  timestamp_millis_opt : Z -> option FixedDateTime;
  and_local_timezone : NaiveDate -> NaiveTime -> FixedOffset -> option FixedDateTime;
  and_utc : NaiveDateTime -> FixedDateTime;
  naive_utc : FixedDateTime -> NaiveDateTime;
  fixed_add : FixedDateTime -> TimeDelta -> option FixedDateTime;
  fixed_sub : FixedDateTime -> TimeDelta -> option FixedDateTime;
  fixed_cmp : FixedDateTime -> FixedDateTime -> comparison;
  fixed_offset : FixedDateTime -> FixedOffset;
  fixed_date : FixedDateTime -> NaiveDate;
  fixed_time : FixedDateTime -> NaiveTime;
  (* std: the shortest decimal representation of a float, and its power *)
  float_to_string : f64 -> string;
  powf : f64 -> f64 -> f64;
}.

(** A sample calendar over [Sample.chrono]: instants are milliseconds since
    the epoch, dates are days since the epoch, everything is in UTC. *)

Module SampleOps.
Definition day : Z := 86400000.

(** The civil date of a day number (proleptic Gregorian calendar). *)
Definition civil (n : Z) : Z * Z * Z :=
  let z := n + 719468 in
  let era := z / 146097 in
  let doe := z mod 146097 in
  let yoe := (doe - doe / 1460 + doe / 36524 - doe / 146096) / 365 in
  let doy := doe - (365 * yoe + yoe / 4 - yoe / 100) in
  let mp := (5 * doy + 2) / 153 in
  let d := doy - (153 * mp + 2) / 5 + 1 in
  let m := if mp <? 10 then mp + 3 else mp - 9 in
  (yoe + era * 400 + (if m <=? 2 then 1 else 0), m, d).

Definition of_civil (y m d : Z) : Z :=
  let y := if m <=? 2 then y - 1 else y in
  let era := y / 400 in
  let yoe := y mod 400 in
  let doy := (153 * (if 2 <? m then m - 3 else m + 9) + 2) / 5 + d - 1 in
  era * 146097 + (yoe * 365 + yoe / 4 - yoe / 100 + doy) - 719468.

Definition weekday (n : Z) : Z := (n + 3) mod 7 + 1.
(** The Thursday of the week decides its ISO year. *)
Definition thursday (n : Z) : Z := n + 4 - weekday n.

Definition ops : @ChronoOps Sample.chrono :=
  Build_ChronoOps Sample.chrono
    (fun d : Z => d) (fun d => Some (d * 1000000)) (fun d => Some (d * 1000)) (fun d => Z.quot d 1000)
    (fun d => Z.quot d day) Some (fun n => Some (n * day))
    (fun a b => Some (a + b)) (fun a b => Some (a - b)) Z.compare
    0 (fun d => d) (fun d t => Some (d + Z.quot t day)) (fun d t => Some (d - Z.quot t day))
    (fun d => d * day) Z.compare
    (fun d => (civil d).1.1) (fun d => (civil d).1.2) (fun d => (civil d).2)
    (fun d => d - of_civil (civil d).1.1 1 1 + 1)
    (fun d => (civil (thursday d)).1.1)
    (fun d => (thursday d - of_civil (civil (thursday d)).1.1 1 1) / 7 + 1)
    weekday (fun y m d => Some (of_civil y m d))
    0 (fun t => t) (fun t => t / 1000) (fun t d => (t + d) mod day) (fun t d => (t - d) mod day) Z.compare
    (fun t => t / 3600000) (fun t => t / 60000 mod 60) (fun t => t / 1000 mod 60) (fun t => t mod 1000 * 1000000)
    (fun d t => d * day + t) (fun t => t / day) (fun t => t mod day)
    (fun t d => Some (t + d)) (fun t d => Some (t - d)) Z.compare 0 (fun t => t) (fun t => t) Some
    0 (fun o => o) (fun _ => "+00:00"%string) (fun t => t) Some
    (fun d t o => Some (d * day + t - o * 1000)) (fun t => t) (fun t => t)
    (fun t d => Some (t + d)) (fun t d => Some (t - d)) Z.compare (fun _ => 0) (fun t => t / day) (fun t => t mod day)
    (fun _ => "float"%string) (fun x _ => x).
End SampleOps.
