(* ===== verification/LazySortedSet.v ===== *)
(** * Lazy sorted set (evaluation/functions/aggregation/lazy_sorted_set.rs)

    The multiset behind [min] and [max]: a change log on top of a counted
    sorted set that lives in the result index.  The operations are written
    against the interface [LazySortedSetStore]; the shared store is the
    explicit state. *)

From S2P Require Import Prelude BTree Floats Hashing Ast Models Errors Values ResultIndex.

Record SortedSetEntryCount := { snapshot : Z; delta : Z }.

Notation SortedSetChangeLog := (btree OrderedFloat SortedSetEntryCount).

Record LazySortedSet := { set_id : Z; change_log : SortedSetChangeLog }.

Section lazy_sorted_set.
Context {C : Chrono} {H : Hashers} {S : Type} `{!LazySortedSetStore S}.

Definition new_lazy_sorted_set (position_in_query : nat) (grouping_values : list VariableValue) :
    LazySortedSet :=
  {| set_id := fx (hash_usize position_in_query ++ concat (map hash_for_groupby grouping_values));
     change_log := [] |}.

(** The loop of [get_head]: the change log is walked in order, together with a
    cursor over the stored values. *)
Fixpoint head_loop (store : S) (id : Z) (cursor : option (OrderedFloat * Z)) (log : SortedSetChangeLog) :
    outcome IndexError (option OrderedFloat) :=
  match log with
  | [] => Ok (fst <$> cursor)
  | (val, entry) :: log =>
      match cursor with
      | Some sc =>
          match cmp val sc.1 with
          | Gt => Ok (Some sc.1)
          | _ =>
              cursor ← get_next store id (Some sc.1);
              if 0 <? snapshot entry + delta entry then Ok (Some val) else head_loop store id cursor log
          end
      | None =>
          if 0 <? snapshot entry + delta entry then Ok (Some val) else head_loop store id None log
      end
  end.

Definition get_head (store : S) (l : LazySortedSet) : outcome IndexError (option f64) :=
  cursor ← get_next store (set_id l) None;
  head ← head_loop store (set_id l) cursor (change_log l);
  Ok (option_map of_f64 head).

(** [insert] and [remove] differ in the sign of the change; a failing read of
    the store counts as zero. *)
Definition record_change (store : S) (l : LazySortedSet) (value : f64) (d : Z) : LazySortedSet :=
  let v := {| of_f64 := value |} in
  let entry :=
    match bt_get v (change_log l) with
    | Some e => {| snapshot := snapshot e; delta := as_i64 (delta e + d) |}
    | None =>
        {| snapshot := match get_value_count store (set_id l) v with Ok c => c | _ => 0 end; delta := d |}
    end in
  {| set_id := set_id l; change_log := bt_insert v entry (change_log l) |}.

Definition lss_insert (store : S) (l : LazySortedSet) (value : f64) : LazySortedSet :=
  record_change store l value 1.
Definition lss_remove (store : S) (l : LazySortedSet) (value : f64) : LazySortedSet :=
  record_change store l value (-1).

Fixpoint commit_log (store : S) (id : Z) (log : SortedSetChangeLog) : outcome IndexError unit * S :=
  match log with
  | [] => (Ok tt, store)
  | (v, entry) :: log =>
      match increment_value_count store id v (delta entry) with
      | (Ok _, store) => commit_log store id log
      | r => r
      end
  end.

(** A failed commit keeps the change log. *)
Definition commit (store : S) (l : LazySortedSet) : outcome IndexError LazySortedSet * S :=
  match commit_log store (set_id l) (change_log l) with
  | (Ok _, store) => (Ok {| set_id := set_id l; change_log := [] |}, store)
  | (Err e, store) => (Err e, store)
  | (Panic, store) => (Panic, store)
  end.
End lazy_sorted_set.

(** ** One evaluation of an aggregating call

    The evaluator builds the set afresh, applies or reverts one value, reads
    the head and commits (expressions/mod.rs, evaluate_function_expression). *)

Inductive SetOp := SetInsert (x : f64) | SetRemove (x : f64).

Definition set_op_value (op : SetOp) : f64 := match op with SetInsert x | SetRemove x => x end.
Definition set_op_delta (op : SetOp) : Z := match op with SetInsert _ => 1 | SetRemove _ => -1 end.

Definition set_step {S} `{!LazySortedSetStore S} (store : S) (id : Z) (op : SetOp) :
    outcome IndexError (option f64) * S :=
  let fresh := {| set_id := id; change_log := [] |} in
  let l := match op with
           | SetInsert x => lss_insert store fresh x
           | SetRemove x => lss_remove store fresh x
           end in
  match get_head store l with
  | Ok h => match commit store l with
            | (Ok _, store) => (Ok h, store)
            | (Err e, store) => (Err e, store)
            | (Panic, store) => (Panic, store)
            end
  | Err e => (Err e, store)
  | Panic => (Panic, store)
  end.

(** ** Correctness *)

Section facts.
Context {S : Type} `{LazySortedSetStoreLaws S}.
Implicit Types (store : S) (log : SortedSetChangeLog).

(** The multiplicity of a value, uncommitted changes included. *)
Definition total (store : S) (l : LazySortedSet) (v : OrderedFloat) : Z :=
  counts store (set_id l) v + match bt_get v (change_log l) with Some e => delta e | None => 0 end.

(** The least value of positive multiplicity, [None] when there is none. *)
Definition least (count : OrderedFloat -> Z) (r : option OrderedFloat) : Prop :=
  match r with
  | Some h => 0 < count h /\ forall v, 0 < count v -> cmp v h <> Lt
  | None => forall v, count v <= 0
  end.

(** A change log whose snapshots are those of the store, and in which an entry
    that comes to nothing was stored before. *)
Definition log_ok (store : S) (l : LazySortedSet) : Prop :=
  bt_sorted (change_log l) /\
  Forall (fun e => snapshot e.2 = counts store (set_id l) e.1 /\
                   (snapshot e.2 + delta e.2 <= 0 -> 0 < snapshot e.2)) (change_log l).

Definition above (lo : option OrderedFloat) (v : OrderedFloat) : Prop :=
  match lo with None => True | Some l => cmp l v = Lt end.

(** The cursor is the first stored value above [lo]. *)
Definition cursor_at (store : S) (id : Z) (lo : option OrderedFloat) (c : option (OrderedFloat * Z)) : Prop :=
  match c with
  | Some e => above lo e.1 /\ 0 < counts store id e.1 /\
              forall v, above lo v -> 0 < counts store id v -> cmp v e.1 <> Lt
  | None => forall v, above lo v -> counts store id v = 0
  end.

Lemma cmp_total (a b : OrderedFloat) : cmp a b <> Lt -> cmp a b = Eq \/ cmp b a = Lt.
Proof. rewrite (cmp_sym a b). destruct (cmp a b); cbn; naive_solver. Qed.

Lemma cmp_le_lt (a b c : OrderedFloat) : cmp b a <> Lt -> cmp b c = Lt -> cmp a c = Lt.
Proof.
  intros Hba Hbc. destruct (cmp_total _ _ Hba) as [He|Hl]; [by rewrite <- (cmp_eq_l _ _ c He)|].
  by apply (cmp_lt_trans _ b).
Qed.

(** The multiplicities the loop still has to look at. *)
Definition pending_count store (id : Z) log (v : OrderedFloat) : Z :=
  counts store id v + match bt_get v log with Some e => delta e | None => 0 end.

Definition least_above (lo : option OrderedFloat) (count : OrderedFloat -> Z) (r : option OrderedFloat) : Prop :=
  match r with
  | Some h => above lo h /\ 0 < count h /\ forall v, above lo v -> 0 < count v -> cmp v h <> Lt
  | None => forall v, above lo v -> count v <= 0
  end.

Lemma pending_below store id log val e v :
  cmp v val = Lt -> pending_count store id ((val, e) :: log) v = counts store id v.
Proof. unfold pending_count. cbn. intros ->. lia. Qed.

Lemma pending_at store id log val e v :
  cmp v val = Eq -> pending_count store id ((val, e) :: log) v = counts store id val + delta e.
Proof. unfold pending_count. cbn. intros Hc. rewrite Hc. by rewrite (counts_cmp _ _ v val Hc). Qed.

Lemma pending_above store id log val e v :
  cmp val v = Lt -> pending_count store id ((val, e) :: log) v = pending_count store id log v.
Proof. unfold pending_count. cbn. intros Hc. by rewrite cmp_sym, Hc. Qed.

(** Skipping an entry that comes to nothing. *)
Lemma least_above_skip store id lo log val e r :
  above lo val -> counts store id val + delta e <= 0 ->
  (forall v, above lo v -> cmp v val = Lt -> counts store id v = 0) ->
  least_above (Some val) (pending_count store id log) r ->
  least_above lo (pending_count store id ((val, e) :: log)) r.
Proof.
  intros Hval Hnet Hbelow.
  assert (Hcase : forall v, above lo v -> 0 < pending_count store id ((val, e) :: log) v -> cmp val v = Lt).
  { intros v Hv Hp. destruct (cmp v val) eqn:Hc.
    - rewrite (pending_at _ _ _ _ _ _ Hc) in Hp. lia.
    - rewrite (pending_below _ _ _ _ _ _ Hc), Hbelow in Hp by done. lia.
    - by rewrite cmp_sym, Hc. }
  destruct r as [h|]; cbn [least_above above].
  - intros (Hh & Hp & Hmin). split_and!.
    + destruct lo as [l|]; [|done]. by apply (cmp_lt_trans _ val).
    + by rewrite pending_above.
    + intros v Hv Hpv. pose proof (Hcase v Hv Hpv) as Hlt. apply Hmin; [done|].
      by rewrite pending_above in Hpv.
  - intros Hmin v Hv. destruct (Z.lt_ge_cases 0 (pending_count store id ((val, e) :: log) v)) as [Hp|]; [|done].
    pose proof (Hcase v Hv Hp) as Hlt. rewrite pending_above in Hp by done. specialize (Hmin v Hlt). lia.
Qed.

Lemma head_loop_least store id log lo cursor :
  store_inv store -> bt_sorted log -> Forall (fun e => above lo e.1) log ->
  Forall (fun e => snapshot e.2 = counts store id e.1 /\
                   (snapshot e.2 + delta e.2 <= 0 -> 0 < snapshot e.2)) log ->
  cursor_at store id lo cursor ->
  exists r, head_loop store id cursor log = Ok r /\ least_above lo (pending_count store id log) r.
Proof.
  intros Hs. revert lo cursor. induction log as [|[val e] log IH]; intros lo cursor Hb Hlo Hok Hc.
  { eexists. split; [done|]. unfold pending_count. cbn. destruct cursor as [sc|]; cbn.
    - destruct Hc as (? & ? & Hmin). split_and!; [done|lia|]. intros v Hv Hp. apply Hmin; [done|lia].
    - intros v Hv. rewrite Hc by done. lia. }
  apply bt_sorted_inv in Hb as [Hval Hb]. apply Forall_cons in Hlo as [Hv0 Hlo].
  apply Forall_cons in Hok as [[Hsnap Hpos] Hok]. cbn [fst snd] in *.
  assert (Hhead : (forall v, above lo v -> cmp v val = Lt -> counts store id v = 0) ->
            0 < snapshot e + delta e -> least_above lo (pending_count store id ((val, e) :: log)) (Some val)).
  { intros Hbelow Hnet. split_and!; [done|rewrite pending_at by apply cmp_refl; lia|].
    intros v Hv Hp Hlt. rewrite pending_below, Hbelow in Hp by done. lia. }
  destruct cursor as [sc|]; cbn [head_loop].
  - destruct Hc as (Hsc & Hscp & Hmin).
    destruct (decide (cmp val sc.1 = Gt)) as [Hgt|Hle].
    { rewrite Hgt. apply cmp_gt_lt in Hgt. eexists. split; [done|]. split_and!; [done| |].
      - by rewrite pending_below.
      - intros v Hv Hp Hlt. rewrite pending_below in Hp by by apply (cmp_lt_trans _ sc.1).
        by apply (Hmin v Hv Hp). }
    assert (Hbelow : forall v, above lo v -> cmp v val = Lt -> counts store id v = 0).
    { intros v Hv Hlt. destruct (Z.lt_ge_cases 0 (counts store id v)) as [Hp|].
      - destruct (Hmin v Hv Hp). destruct (cmp val sc.1) eqn:Hvs; [|by apply (cmp_lt_trans _ val)|done].
        by rewrite <- (cmp_eq_r _ _ v Hvs).
      - pose proof (counts_nonneg store id v Hs). lia. }
    destruct (get_next_ok store id (Some sc.1) Hs) as (cursor' & Hn & Hc'). cbv zeta in Hc'.
    replace (match cmp val sc.1 with Gt => Ok (Some sc.1) | _ => _ end)
      with (cursor ← get_next store id (Some sc.1);
            if 0 <? snapshot e + delta e then Ok (Some val) else head_loop store id cursor log)
      by (by destruct (cmp val sc.1)).
    rewrite Hn. cbn [mbind outcome_bind]. destruct (Z.ltb_spec 0 (snapshot e + delta e)) as [Hnet|Hnet].
    { eexists. split; [done|by apply Hhead]. }
    specialize (Hpos Hnet). assert (Heq : cmp val sc.1 = Eq).
    { destruct (cmp val sc.1) eqn:Hvs; [done| |done]. exfalso. apply (Hmin val Hv0); [lia|done]. }
    assert (Hcur : cursor_at store id (Some val) cursor').
    { destruct cursor' as [sc'|]; cbn in Hc' |- *; setoid_rewrite (fun c => cmp_eq_l _ _ c Heq); done. }
    destruct (IH (Some val) cursor') as (r & Hr & Hl); [done|done|done|done|].
    exists r. split; [done|]. apply least_above_skip; [done|lia|done|done].
  - cbn in Hc. destruct (Z.ltb_spec 0 (snapshot e + delta e)) as [Hnet|Hnet].
    { eexists. split; [done|]. apply Hhead; [|done]. intros v Hv _. by apply Hc. }
    specialize (Hpos Hnet). rewrite Hsnap, (Hc val Hv0) in Hpos. lia.
Qed.

(** The head is the least value of positive multiplicity. *)
Lemma get_head_least store l :
  store_inv store -> log_ok store l ->
  exists r, get_head store l = Ok (option_map of_f64 r) /\ least (total store l) r.
Proof.
  intros Hs [Hb Hok]. unfold get_head.
  destruct (get_next_ok store (set_id l) None Hs) as (cursor & -> & Hc). cbn [mbind outcome_bind].
  destruct (head_loop_least store (set_id l) (change_log l) None cursor) as (r & -> & Hl); [done|done| |done| |].
  - apply Forall_true. done.
  - by destruct cursor.
  - exists r. split; [done|]. destruct r as [h|]; cbn in Hl |- *.
    + destruct Hl as (_ & ? & Hmin). split; [done|]. intros v. by apply Hmin.
    + intros v. by apply Hl.
Qed.

Definition same_value (a b : OrderedFloat) : bool := match cmp a b with Eq => true | _ => false end.

Lemma record_change_fresh store id x d :
  store_inv store ->
  record_change store {| set_id := id; change_log := [] |} x d =
  {| set_id := id;
     change_log := [({| of_f64 := x |}, {| snapshot := counts store id {| of_f64 := x |}; delta := d |})] |}.
Proof. intros Hs. unfold record_change. cbn. by rewrite get_value_count_ok. Qed.

Lemma total_single store id x c d v :
  total store {| set_id := id; change_log := [(x, {| snapshot := c; delta := d |})] |} v =
  counts store id v + if same_value x v then d else 0.
Proof.
  unfold total, same_value. cbn. rewrite (cmp_sym x v). by destruct (cmp x v).
Qed.
End facts.

(** The least value of the multiset after one change, with the store left behind. *)
Lemma change_head {S : Type} `{LazySortedSetStoreLaws S} (store : S) id op :
  let x := {| of_f64 := set_op_value op |} in
  let l := record_change store {| set_id := id; change_log := [] |} (set_op_value op) (set_op_delta op) in
  store_inv store -> 0 <= counts store id x + set_op_delta op <= i64_max ->
  exists r store', get_head store l = Ok (option_map of_f64 r) /\
    commit store l = (Ok {| set_id := id; change_log := [] |}, store') /\ store_inv store' /\
    (forall v, counts store' id v = counts store id v + if same_value x v then set_op_delta op else 0) /\
    (forall id' v, id' <> id -> counts store' id' v = counts store id' v) /\
    least (counts store' id) r.
Proof.
  intros x l Hs Hb. unfold l. rewrite record_change_fresh by done. fold x.
  set (l' := {| set_id := id; change_log := _ |}).
  assert (Hok : log_ok store l').
  { split; [by repeat constructor|]. constructor; [|constructor]. cbn. split; [done|].
    pose proof (counts_nonneg store id x Hs). unfold x in *. destruct op; cbn in *; lia. }
  destruct (get_head_least store l' Hs Hok) as (r & Hr & Hleast).
  destruct (increment_ok store id x (set_op_delta op) Hs Hb) as (store' & Hinc & Hs' & Hcnt).
  assert (Hcounts : forall v, counts store' id v = total store l' v).
  { intros v. unfold l'. rewrite total_single, Hcnt, Z.eqb_refl. unfold same_value. cbn.
    destruct (cmp x v) eqn:Hc; cbn; [by rewrite (counts_cmp store id x v Hc)|lia|lia]. }
  exists r, store'. unfold commit, l'. cbn [commit_log set_id change_log delta]. fold l'. rewrite Hinc.
  split_and!; [done|done|done| | |].
  - intros v. rewrite Hcounts. apply total_single.
  - intros id' v Hne. rewrite Hcnt. by destruct (Z.eqb_spec id id').
  - destruct r as [h|]; cbn in Hleast |- *; setoid_rewrite Hcounts; done.
Qed.

(** ** The properties *)

(** Behind [min] and [max]: evaluating one change of a value (inserting it,
    or removing one that is present) succeeds, stores exactly that change to
    the multiset, leaves the other sets alone, and returns the least value of
    the multiset after the change, nothing if it is empty. *)
Theorem set_step_head_is_least {S : Type} `{LazySortedSetStoreLaws S} (store : S) id op :
  let x := {| of_f64 := set_op_value op |} in
  store_inv store -> 0 <= counts store id x + set_op_delta op <= i64_max ->
  exists r store', set_step store id op = (Ok (option_map of_f64 r), store') /\ store_inv store' /\
    (forall v, counts store' id v = counts store id v + if same_value x v then set_op_delta op else 0) /\
    (forall id' v, id' <> id -> counts store' id' v = counts store id' v) /\
    least (counts store' id) r.
Proof.
  intros x Hs Hb. destruct (change_head store id op Hs Hb) as (r & store' & Hr & Hc & Hrest).
  exists r, store'. split; [|exact Hrest].
  unfold set_step. destruct op; cbn [set_op_value set_op_delta] in *; unfold lss_insert, lss_remove; by rewrite Hr, Hc.
Qed.

Section samples.
#[local] Existing Instance Sample.hashers.
#[local] Existing Instance Sample.chrono.

Definition fz (z : Z) : f64 := f64_of_Z z.

(** A store that holds 5 once in set 1. *)
Definition five : InMemoryResultIndex :=
  {| values := ∅; sorted_sets := {[1 := [({| of_f64 := fz 5 |}, 1)]]};
     result_sequence := {| sequence := 0; source_change_id := "" |} |}.

Lemma five_inv : store_inv five.
Proof.
  unfold store_inv; cbn.
  intros id m Hm. cbn in Hm. apply lookup_singleton_Some in Hm as [<- <-].
  by split; repeat constructor; unfold i64_max.
Qed.

Lemma set_step_head_is_least_witness :
  exists r store', set_step five 1 (SetInsert (fz 3)) = (Ok (option_map of_f64 r), store') /\
    store_inv store' /\ least (counts store' 1) r.
Proof.
  destruct (set_step_head_is_least five 1 (SetInsert (fz 3)) five_inv) as (r & store' & Hs & Hi & _ & _ & Hl).
  { cbn. unfold mem_counts. vm_compute. split; discriminate. }
  exists r, store'. exact (conj Hs (conj Hi Hl)).
Defined.

Definition uncommitted : LazySortedSet :=
  lss_remove five (lss_insert five {| set_id := 1; change_log := [] |} (fz 3)) (fz 3).

(** With several uncommitted changes the head can be wrong: the stored
    value 5 is missed once a smaller value has been inserted and removed again,
    because the loop advances the storage cursor past it. *)
Theorem uncommitted_log_loses_head :
  total five uncommitted {| of_f64 := fz 5 |} = 1 /\
  total five uncommitted {| of_f64 := fz 3 |} = 0 /\
  get_head five uncommitted = Ok None.
Proof. split_and!; by_compute. Qed.
End samples.
