(* ===== verification/Aggregation.v ===== *)
(** * Aggregating functions (evaluation/functions/aggregation/)

    [count], [sum], [avg], [collect], [drasi.last], [drasi.linearGradient],
    [min] and [max].  The eager functions map an accumulator and the argument
    values to a result and the accumulator left behind; on an error the caller
    does not store the accumulator, so the error carries none.  [min] and [max]
    work on a lazy sorted set. *)

From S2P Require Import Prelude BTree Floats Hashing Ast Models Errors Values ChronoOps ResultIndex LazySortedSet.

Notation result := (outcome FunctionError (VariableValue * ValueAccumulator)).

Section aggregation.
Context {C : Chrono} {O : ChronoOps}.

Definition fail {A} (name : string) (e : FunctionEvaluationError) : outcome FunctionError A :=
  Err {| function_name := name; error := e |}.

Definition ok_or_err {A} (name : string) (e : FunctionEvaluationError) (o : option A) : outcome FunctionError A :=
  match o with Some a => Ok a | None => fail name e end.

Definition ok_or_panic {E A} (o : option A) : outcome E A :=
  match o with Some a => Ok a | None => Panic end.

(** [Duration::new(ChronoDuration::milliseconds(x as i64), 0, 0)] *)
Definition duration_of {E} (x : f64) : outcome E VariableValue :=
  d ← ok_or_panic (milliseconds (f64_as_i64 x));
  Ok (VDuration {| d_duration := d; d_year := 0; d_month := 0 |}).

(** ** count *)

Definition count_step (d : Z) (args : list VariableValue) (acc : ValueAccumulator) : result :=
  match args with
  | [arg] =>
      match acc with
      | AccCount value =>
          match arg with
          | VNull => Ok (VInteger (integer_from_i64 value), acc)
          | _ => let value := as_i64 (value + d) in
                 Ok (VInteger (integer_from_i64 value), AccCount value)
          end
      | _ => fail "Count" CorruptData
      end
  | _ => fail "Count" InvalidArgumentCount
  end.

Definition count_apply := count_step 1.
Definition count_revert := count_step (-1).
Definition count_snapshot (args : list VariableValue) (acc : ValueAccumulator) :
    outcome FunctionError VariableValue :=
  match acc with
  | AccCount value => Ok (VInteger (integer_from_i64 value))
  | _ => fail "Count" CorruptData
  end.

(** ** sum *)

Definition finite_or {A} (name : string) (x : f64) (k : VariableValue -> outcome FunctionError A) :
    outcome FunctionError A :=
  f ← ok_or_err name OverflowError (float_from_f64 x); k (VFloat f).

Definition sum_step (op : f64 -> f64 -> f64) (args : list VariableValue) (acc : ValueAccumulator) : result :=
  match args with
  | [arg] =>
      match acc with
      | AccSum value =>
          match arg with
          | VFloat n =>
              n ← ok_or_err "Sum" OverflowError (float_as_f64 n);
              let value := op value n in
              finite_or "Sum" value (fun r => Ok (r, AccSum value))
          | VInteger n =>
              n ← ok_or_err "Sum" OverflowError (integer_as_i64 n);
              let value := op value (f64_of_Z n) in
              finite_or "Sum" value (fun r => Ok (r, AccSum value))
          | VDuration d =>
              let value := op value (f64_of_Z (num_milliseconds (d_duration d))) in
              r ← duration_of value; Ok (r, AccSum value)
          | VNull => finite_or "Sum" value (fun r => Ok (r, acc))
          | _ => fail "Sum" (InvalidArgument 0)
          end
      | _ => fail "Sum" CorruptData
      end
  | _ => fail "Sum" InvalidArgumentCount
  end.

Definition sum_apply := sum_step f64_add.
Definition sum_revert := sum_step f64_sub.
Definition sum_snapshot (args : list VariableValue) (acc : ValueAccumulator) :
    outcome FunctionError VariableValue :=
  match args with
  | [arg] =>
      match acc with
      | AccSum value =>
          match arg with
          | VFloat _ | VInteger _ | VNull => finite_or "Sum" value Ok
          | VDuration _ => duration_of value
          | _ => fail "Sum" (InvalidArgument 0)
          end
      | _ => fail "Sum" CorruptData
      end
  | _ => fail "Sum" InvalidArgumentCount
  end.

(** ** avg *)

(** [Float::from_f64(avg).unwrap_or_default()] *)
Definition float_or_zero (x : f64) : VariableValue := VFloat (default f64_zero (float_from_f64 x)).

(** The last step of [apply] and [revert]: [revert] returns the float zero for
    an emptied average, whatever the type of the argument. *)
Definition avg_result (reverting : bool) (sum : f64) (count : Z) (k : f64 -> outcome FunctionError VariableValue) :
    result :=
  r ← (if reverting && (count =? 0) then Ok (float_or_zero f64_zero)
       else k (f64_div sum (f64_of_Z count)));
  Ok (r, AccAvg sum count).

Definition avg_step (reverting : bool) (args : list VariableValue) (acc : ValueAccumulator) : result :=
  let op := if reverting then f64_sub else f64_add in
  match args with
  | [arg] =>
      match acc with
      | AccAvg sum count =>
          let count' := as_i64 (count + if reverting then -1 else 1) in
          match arg with
          | VFloat n =>
              n ← ok_or_err "Avg" OverflowError (float_as_f64 n);
              avg_result reverting (op sum n) count' (fun avg => Ok (float_or_zero avg))
          | VInteger n =>
              n ← ok_or_err "Avg" OverflowError (integer_as_i64 n);
              avg_result reverting (op sum (f64_of_Z n)) count' (fun avg => Ok (float_or_zero avg))
          | VDuration d =>
              avg_result reverting (op sum (f64_of_Z (num_milliseconds (d_duration d)))) count' duration_of
          | VNull => Ok (float_or_zero (f64_div sum (f64_of_Z count)), acc)
          | _ => fail "Avg" (InvalidArgument 0)
          end
      | _ => fail "Avg" CorruptData
      end
  | _ => fail "Avg" InvalidArgumentCount
  end.

Definition avg_apply := avg_step false.
Definition avg_revert := avg_step true.
Definition avg_snapshot (args : list VariableValue) (acc : ValueAccumulator) :
    outcome FunctionError VariableValue :=
  match args with
  | [arg] =>
      match acc with
      | AccAvg sum count =>
          if count =? 0 then Ok (float_or_zero f64_zero)
          else
            let avg := f64_div sum (f64_of_Z count) in
            match arg with
            | VFloat _ | VInteger _ => Ok (float_or_zero avg)
            | VDuration _ => duration_of avg
            | _ => fail "Avg" (InvalidArgument 0)
            end
      | _ => fail "Avg" CorruptData
      end
  | _ => fail "Avg" InvalidArgumentCount
  end.

(** ** collect *)

Definition is_null (v : VariableValue) : bool := match v with VNull => true | _ => false end.

(** [list.remove(position(|x| x == value))] *)
Fixpoint remove_first (value : ElementValue) (l : list ElementValue) : list ElementValue :=
  match l with
  | [] => []
  | x :: l => if element_value_eqb x value then l else x :: remove_first value l
  end.

Definition collect_step (f : ElementValue -> list ElementValue -> list ElementValue)
    (args : list VariableValue) (acc : ValueAccumulator) : result :=
  match args with
  | [arg] =>
      match acc with
      | AccValue (EV_List l) =>
          l ← (if is_null arg then Ok l
               else match try_into_element_value arg with
                    | Ok v => Ok (f v l)
                    | Err _ => Ok l
                    | Panic => Panic
                    end);
          Ok (from_element_value (EV_List l), AccValue (EV_List l))
      | _ => fail "Collect" CorruptData
      end
  | _ => fail "Collect" InvalidArgumentCount
  end.

Definition collect_apply := collect_step (fun v l => l ++ [v]).
Definition collect_revert := collect_step remove_first.
Definition collect_snapshot (args : list VariableValue) (acc : ValueAccumulator) :
    outcome FunctionError VariableValue :=
  match acc with
  | AccValue (EV_List l) => Ok (from_element_value (EV_List l))
  | _ => fail "Collect" CorruptData
  end.

(** ** drasi.last *)

Definition last_apply (args : list VariableValue) (acc : ValueAccumulator) : result :=
  match args with
  | [arg] =>
      match acc with
      | AccValue _ =>
          match try_into_element_value arg with
          | Ok v => Ok (from_element_value v, AccValue v)
          | Err _ => fail "Last" (InvalidType "ElementValue")
          | Panic => Panic
          end
      | _ => fail "Last" CorruptData
      end
  | _ => fail "Last" InvalidArgumentCount
  end.

Definition last_revert (args : list VariableValue) (acc : ValueAccumulator) : result :=
  match args with
  | [_] =>
      match acc with
      | AccValue _ => Ok (VNull, AccValue EV_Null)
      | _ => fail "Last" CorruptData
      end
  | _ => fail "Last" InvalidArgumentCount
  end.

Definition last_snapshot (args : list VariableValue) (acc : ValueAccumulator) :
    outcome FunctionError VariableValue :=
  match acc with
  | AccValue v => Ok (from_element_value v)
  | _ => fail "Last" CorruptData
  end.

(** ** drasi.linearGradient: the slope of the least-squares line, by Welford's
    updates of the means, the squared deviations and the covariance *)

Definition extract_parameter (p : VariableValue) (index : nat) : outcome FunctionError f64 :=
  match p with
  | VFloat n => ok_or_err "LinearGradient" OverflowError (float_as_f64 n)
  | VInteger n => n ← ok_or_err "LinearGradient" OverflowError (integer_as_i64 n); Ok (f64_of_Z n)
  | VDuration d => Ok (f64_of_Z (num_milliseconds (d_duration d)))
  | VLocalDateTime l => Ok (f64_of_Z (utc_timestamp_millis l))
  | VZonedDateTime z => Ok (f64_of_Z (timestamp_millis (zdt_datetime z)))
  | VDate d => Ok (f64_of_Z (date_timestamp_millis d))
  | VLocalTime l => Ok (f64_of_Z (num_seconds_from_midnight l))
  | VZonedTime z => Ok (f64_of_Z (num_seconds_from_midnight (zt_time z)))
  | _ => fail "LinearGradient" (InvalidArgument index)
  end.

(** [variance] and [covariance] divide by the degrees of freedom. *)
Definition per_degree (x : f64) (count : Z) : f64 :=
  if count <? 2 then f64_zero else f64_div x (f64_of_Z (as_i64 (count - 1))).

Definition gradient (m2 cov : f64) (count : Z) : VariableValue :=
  let result := f64_div (per_degree cov count) (per_degree m2 count) in
  if f64_is_nan result then VNull else float_or_zero result.

Definition gradient_add (x y : f64) (count : Z) (mean_x mean_y m2 cov : f64) : result :=
  let count := as_i64 (count + 1) in
  let delta_x := f64_sub x mean_x in
  let delta_y := f64_sub y mean_y in
  let mean_x := f64_add mean_x (f64_div delta_x (f64_of_Z count)) in
  let mean_y := f64_add mean_y (f64_div delta_y (f64_of_Z count)) in
  let m2 := f64_add m2 (f64_mul delta_x (f64_sub x mean_x)) in
  let cov := f64_add cov (f64_mul delta_x (f64_sub y mean_y)) in
  Ok (gradient m2 cov count, AccLinearGradient count mean_x mean_y m2 cov).

Definition gradient_remove (x y : f64) (count : Z) (mean_x mean_y m2 cov : f64) : result :=
  let count := as_i64 (count - 1) in
  if count =? 0 then Ok (VNull, AccLinearGradient count f64_zero f64_zero f64_zero f64_zero)
  else
    let delta_x := f64_sub x mean_x in
    let delta_y := f64_sub y mean_y in
    let mean_x := f64_sub mean_x (f64_div delta_x (f64_of_Z count)) in
    let mean_y := f64_sub mean_y (f64_div delta_y (f64_of_Z count)) in
    let m2 := f64_sub m2 (f64_mul delta_x (f64_sub x mean_x)) in
    let cov := f64_sub cov (f64_mul delta_x (f64_sub y mean_y)) in
    Ok (gradient m2 cov count, AccLinearGradient count mean_x mean_y m2 cov).

Definition gradient_step (f : f64 -> f64 -> Z -> f64 -> f64 -> f64 -> f64 -> result)
    (args : list VariableValue) (acc : ValueAccumulator) : result :=
  match args with
  | [a; b] =>
      match acc with
      | AccLinearGradient count mean_x mean_y m2 cov =>
          if is_null a || is_null b then Ok (VNull, acc)
          else
            x ← extract_parameter a 0;
            y ← extract_parameter b 1;
            f x y count mean_x mean_y m2 cov
      | _ => fail "LinearGradient" CorruptData
      end
  | _ => fail "linearGradient" InvalidArgumentCount
  end.

Definition gradient_apply := gradient_step gradient_add.
Definition gradient_revert := gradient_step gradient_remove.
Definition gradient_snapshot (args : list VariableValue) (acc : ValueAccumulator) :
    outcome FunctionError VariableValue :=
  match args with
  | [_; _] =>
      match acc with
      | AccLinearGradient count _ _ m2 cov =>
          if count =? 0 then Ok VNull else Ok (gradient m2 cov count)
      | _ => fail "LinearGradient" CorruptData
      end
  | _ => fail "linearGradient" InvalidArgumentCount
  end.

(** ** min and max

    [max] stores the negated values, so that the head of the set is its
    result in both. *)

Inductive Extreme := Min | Max.

Definition extreme_name (m : Extreme) : string := match m with Min => "Min" | Max => "Max" end.
Definition oriented (m : Extreme) (x : f64) : f64 := match m with Min => x | Max => f64_neg x end.

(** The time of day of a zoned time, on the day of the epoch. *)
Definition zoned_time_at_epoch (m : Extreme) (t : NaiveTime) (offset : FixedOffset) :
    outcome FunctionError FixedDateTime :=
  ok_or_err (extreme_name m) (InvalidFormat "INVALID_ZONED_TIME_FORMAT_ERROR")
    (and_local_timezone EPOCH_NAIVE_DATE t offset).

(** The number an argument is ordered by; [None] for null. *)
Definition extreme_key (m : Extreme) (arg : VariableValue) : outcome FunctionError (option f64) :=
  match arg with
  | VFloat n => x ← ok_or_err (extreme_name m) OverflowError (float_as_f64 n); Ok (Some x)
  | VInteger n => x ← ok_or_err (extreme_name m) OverflowError (integer_as_i64 n); Ok (Some (f64_of_Z x))
  | VZonedDateTime z => Ok (Some (f64_of_Z (timestamp_millis (zdt_datetime z))))
  | VDuration d => Ok (Some (f64_of_Z (num_milliseconds (d_duration d))))
  | VDate d => Ok (Some (f64_of_Z (date_num_days d)))
  | VLocalTime t => Ok (Some (f64_of_Z (time_num_milliseconds t)))
  | VLocalDateTime t => Ok (Some (f64_of_Z (utc_timestamp_millis t)))
  | VZonedTime t => z ← zoned_time_at_epoch m (zt_time t) (zt_offset t);
                    Ok (Some (f64_of_Z (timestamp_millis z)))
  | VNull => Ok None
  | _ => fail (extreme_name m) (InvalidArgument 0)
  end.

Definition zoned_datetime_of_millis {E} (ms : Z) : outcome E VariableValue :=
  z ← ok_or_panic (timestamp_millis_opt ms);
  Ok (VZonedDateTime {| zdt_datetime := z; zdt_timezone_name := None |}).

Definition date_of_days {E} (n : Z) : outcome E VariableValue :=
  d ← ok_or_panic (days n); r ← ok_or_panic (date_add EPOCH_NAIVE_DATE d); Ok (VDate r).

Definition local_time_of_millis {E} (ms : Z) : outcome E VariableValue :=
  d ← ok_or_panic (milliseconds ms); Ok (VLocalTime (time_add MIDNIGHT_NAIVE_TIME d)).

Definition local_datetime_of_millis (ms : Z) : VariableValue :=
  VLocalDateTime (default datetime_default (from_timestamp_millis ms)).

Definition zoned_time_after {E} (start : FixedDateTime) (ms : Z) : outcome E VariableValue :=
  d ← ok_or_panic (milliseconds ms); z ← ok_or_panic (fixed_add start d);
  Ok (VZonedTime {| zt_time := fixed_time z; zt_offset := UTC_FIXED_OFFSET |}).

(** The result of [apply] and [revert], in the type of the argument. *)
Definition extreme_result (m : Extreme) (arg : VariableValue) (head : f64) :
    outcome FunctionError VariableValue :=
  let value := oriented m head in
  let ms := f64_as_i64 value in
  match arg with
  | VFloat _ | VInteger _ =>
      f ← ok_or_err (extreme_name m) (match m with Min => OverflowError | Max => CorruptData end)
            (float_from_f64 value);
      Ok (VFloat f)
  | VZonedDateTime _ => zoned_datetime_of_millis ms
  | VDuration _ => duration_of value
  | VDate _ => date_of_days ms
  | VLocalTime _ => local_time_of_millis ms
  | VLocalDateTime _ =>
      Ok (local_datetime_of_millis (match m with Min => ms | Max => as_i64 (f64_as_i64 head * -1) end))
  | VZonedTime t => start ← zoned_time_at_epoch m (zt_time t) (zt_offset t); zoned_time_after start ms
  | VNull => Ok VNull
  | _ => fail (extreme_name m) (InvalidArgument 0)
  end.

Section lazy.
Context {S : Type} `{!LazySortedSetStore S}.

Definition head_or_error (m : Extreme) (store : S) (l : LazySortedSet) : outcome FunctionError (option f64) :=
  map_err (fun e => {| function_name := extreme_name m; error := FunctionIndexError e |}) (get_head store l).

Definition extreme_step (m : Extreme) (change : S -> LazySortedSet -> f64 -> LazySortedSet)
    (store : S) (args : list VariableValue) (l : LazySortedSet) :
    outcome FunctionError (VariableValue * LazySortedSet) :=
  match args with
  | [arg] =>
      key ← extreme_key m arg;
      match key with
      | None => Ok (VNull, l)
      | Some x =>
          let l := change store l (oriented m x) in
          head ← head_or_error m store l;
          match head with
          | None => Ok (VNull, l)
          | Some head => r ← extreme_result m arg head; Ok (r, l)
          end
      end
  | _ => fail (extreme_name m) InvalidArgumentCount
  end.

Definition extreme_apply (m : Extreme) := extreme_step m lss_insert.
Definition extreme_revert (m : Extreme) := extreme_step m lss_remove.

Definition extreme_snapshot (m : Extreme) (store : S) (args : list VariableValue) (l : LazySortedSet) :
    outcome FunctionError VariableValue :=
  match args with
  | [arg] =>
      head ← head_or_error m store l;
      match head with
      | None => Ok VNull
      | Some head =>
          let value := oriented m head in
          let ms := f64_as_i64 value in
          match arg with
          | VFloat _ => finite_or (extreme_name m) value Ok
          | VInteger _ => Ok (VInteger (integer_from_i64 ms))
          | VZonedDateTime _ => zoned_datetime_of_millis ms
          | VDuration _ => duration_of value
          | VDate _ => date_of_days ms
          | VLocalTime _ => local_time_of_millis ms
          | VLocalDateTime _ => Ok (local_datetime_of_millis ms)
          | VZonedTime _ =>
              start ← zoned_time_at_epoch m MIDNIGHT_NAIVE_TIME UTC_FIXED_OFFSET;
              zoned_time_after start ms
          | VNull => Ok VNull
          | _ => fail (extreme_name m) (InvalidArgument 0)
          end
      end
  | _ => fail (extreme_name m) InvalidArgumentCount
  end.
End lazy.
End aggregation.
