(* ===== verification/Contexts.v ===== *)
(** * Evaluation contexts (core/src/evaluation/context.rs,
      core/src/evaluation/instant_query_clock.rs)

    What an expression is evaluated in, what a query part receives and emits,
    and the interface [ExpressionEvaluator] of the expression language. *)

From S2P Require Import Prelude BTree Floats Hashing Ast Models Errors Values.

#[local] Set Warnings "-register-all".

Inductive SideEffects := Apply | RevertForUpdate | RevertForDelete | Snapshot.

#[global] Instance SideEffects_eq_dec : EqDecision SideEffects.
Proof. solve_decision. Defined.

Record InstantQueryClock := { transaction_time : Z; realtime : Z }.

Section contexts.
Context {C : Chrono} {H : Hashers}.

Definition from_source_change (change : SourceChange) : InstantQueryClock :=
  {| transaction_time := get_transaction_time change; realtime := get_realtime change |}.

Inductive QueryPartEvaluationContext :=
| Adding (after : QueryVariables) (row_signature : Z)
| Updating (before after : QueryVariables) (row_signature : Z)
| Removing (before : QueryVariables) (row_signature : Z)
| Aggregation (before : option QueryVariables) (after : QueryVariables)
    (grouping_keys : list string) (default_before default_after : bool) (row_signature : Z)
| Noop.

(** The equality of two rows panics where the equality of two values does. *)
Definition variables_eq : QueryVariables -> QueryVariables -> option bool :=
  vec_eq (fun p q => and_then (Some (String.eqb p.1 q.1)) (value_eq p.2 q.2)).

Definition query_variables_unchanged {E} (before after : QueryVariables) : outcome E bool :=
  match variables_eq before after with
  | None => Panic
  | Some false => Ok false
  | Some true => Ok (forallb (fun p => eq_for_groupby p.1.2 p.2.2) (zip before after))
  end.

Definition row_signature (ctx : QueryPartEvaluationContext) : Z :=
  match ctx with
  | Adding _ s | Updating _ _ s | Removing _ s | Aggregation _ _ _ _ _ s => s
  | Noop => 0
  end.

Record ExpressionEvaluationContext := {
  variables : QueryVariables;
  side_effects : SideEffects;
  output_grouping_key : option (list Expression);
  input_grouping_hash : Z;
  clock : InstantQueryClock;
  solution_signature_ : option Z;
  anchor_element : option Element;
}.

Record ChangeContext := {
  solution_signature : Z;
  before_anchor_element : option Element;
  after_anchor_element : option Element;
  before_clock : InstantQueryClock;
  after_clock : InstantQueryClock;
  is_future_reprocess : bool;
  before_grouping_hash : Z;
  after_grouping_hash : Z;
}.

Definition extract_element_reference_hash (r : ElementReference) : Z :=
  spooky (element_reference_hash r).

Definition new_context (vars : QueryVariables) (clock : InstantQueryClock) : ExpressionEvaluationContext :=
  {| variables := vars; side_effects := Apply; output_grouping_key := None; input_grouping_hash := 0;
     clock := clock; solution_signature_ := None; anchor_element := None |}.

Definition from_slot (vars : QueryVariables) (clock : InstantQueryClock) (r : ElementReference) :
    ExpressionEvaluationContext :=
  {| variables := vars; side_effects := Apply; output_grouping_key := None;
     input_grouping_hash := extract_element_reference_hash r;
     clock := clock; solution_signature_ := None; anchor_element := None |}.

Definition part_grouping (part : QueryPart) : option (list Expression) :=
  match return_clause part with GroupBy grouping _ => Some grouping | Item _ => None end.

Definition from_before_change (vars : QueryVariables) (directive : SideEffects) (cc : ChangeContext)
    (part : QueryPart) : ExpressionEvaluationContext :=
  {| variables := vars; side_effects := directive; output_grouping_key := part_grouping part;
     input_grouping_hash := before_grouping_hash cc; clock := before_clock cc;
     solution_signature_ := Some (solution_signature cc); anchor_element := before_anchor_element cc |}.

Definition from_after_change (vars : QueryVariables) (cc : ChangeContext) (part : QueryPart) :
    ExpressionEvaluationContext :=
  {| variables := vars; side_effects := Apply; output_grouping_key := part_grouping part;
     input_grouping_hash := after_grouping_hash cc; clock := after_clock cc;
     solution_signature_ := Some (solution_signature cc); anchor_element := after_anchor_element cc |}.

Definition replace_variables (vars : QueryVariables) (ctx : ExpressionEvaluationContext) :
    ExpressionEvaluationContext :=
  {| variables := vars; side_effects := side_effects ctx; output_grouping_key := output_grouping_key ctx;
     input_grouping_hash := input_grouping_hash ctx; clock := clock ctx;
     solution_signature_ := solution_signature_ ctx; anchor_element := anchor_element ctx |}.

Definition set_side_effects (directive : SideEffects) (ctx : ExpressionEvaluationContext) :
    ExpressionEvaluationContext :=
  {| variables := variables ctx; side_effects := directive; output_grouping_key := output_grouping_key ctx;
     input_grouping_hash := input_grouping_hash ctx; clock := clock ctx;
     solution_signature_ := solution_signature_ ctx; anchor_element := anchor_element ctx |}.

Definition set_output_grouping_key (grouping : list Expression) (ctx : ExpressionEvaluationContext) :
    ExpressionEvaluationContext :=
  {| variables := variables ctx; side_effects := side_effects ctx; output_grouping_key := Some grouping;
     input_grouping_hash := input_grouping_hash ctx; clock := clock ctx;
     solution_signature_ := solution_signature_ ctx; anchor_element := anchor_element ctx |}.

Definition get_variable (name : string) (ctx : ExpressionEvaluationContext) : option VariableValue :=
  bt_get name (variables ctx).
End contexts.

(** ** The interface of the expression evaluator

    [S] is the state expressions read and change: the accumulators, the
    future queue and the element index. *)

Class ExpressionEvaluator `{Chrono} (S : Type) := {
  evaluate_predicate : ExpressionEvaluationContext -> Expression -> SM S EvaluationError bool;
  evaluate_projection_field :
    ExpressionEvaluationContext -> Expression -> SM S EvaluationError (string * VariableValue);
}.
