(* ===== verification/AggregateFacts.v ===== *)
(** * Calls of aggregating functions (evaluation/functions/aggregation/mod.rs,
      evaluation/expressions/mod.rs)

    The dispatch to the aggregating functions and the part of
    [evaluate_function_expression] that reads the accumulator of a group, lets
    the function update it, and stores it back. *)

From S2P Require Import Prelude BTree Floats Hashing Ast Models Errors Values ChronoOps ResultIndex LazySortedSet.
From S2P Require Import Aggregation Contexts.

Inductive AggregatingFunction :=
| AggSum | AggAvg | AggCount | AggCollect | AggLast | AggLinearGradient
| AggExtreme (m : Extreme).

Definition register_aggregation_functions (name : string) : option AggregatingFunction :=
  match name with
  | "sum" => Some AggSum
  | "avg" => Some AggAvg
  | "count" => Some AggCount
  | "min" => Some (AggExtreme Min)
  | "max" => Some (AggExtreme Max)
  | "collect" => Some AggCollect
  | "drasi.linearGradient" => Some AggLinearGradient
  | "drasi.last" => Some AggLast
  | _ => None
  end%string.

Section aggregate_call.
Context {C : Chrono} {O : ChronoOps} {H : Hashers}.
Context {S : Type} `{!AccumulatorIndex S} `{!LazySortedSetStore S}.

Inductive Accumulator :=
| AccumulatorValue (v : ValueAccumulator)
| AccumulatorSet (l : LazySortedSet).

Definition accumulator_is_lazy (f : AggregatingFunction) : bool :=
  match f with AggExtreme _ => true | _ => false end.

Definition initialize_accumulator (f : AggregatingFunction) (position_in_query : nat)
    (grouping_keys : list VariableValue) : Accumulator :=
  match f with
  | AggSum => AccumulatorValue (AccSum f64_zero)
  | AggAvg => AccumulatorValue (AccAvg f64_zero 0)
  | AggCount => AccumulatorValue (AccCount 0)
  | AggCollect => AccumulatorValue (AccValue (EV_List []))
  | AggLast => AccumulatorValue (AccValue EV_Null)
  | AggLinearGradient => AccumulatorValue (AccLinearGradient 0 f64_zero f64_zero f64_zero f64_zero)
  | AggExtreme _ => AccumulatorSet (new_lazy_sorted_set position_in_query grouping_keys)
  end.

(** An eager function rejects a set, and [min] and [max] reject a value. *)
Definition eager (f : list VariableValue -> ValueAccumulator -> outcome FunctionError (VariableValue * ValueAccumulator))
    (args : list VariableValue) (acc : Accumulator) : outcome FunctionError (VariableValue * Accumulator) :=
  match acc with
  | AccumulatorValue v => r ← f args v; Ok (r.1, AccumulatorValue r.2)
  | AccumulatorSet l => r ← f args (AccTimeMarker 0); Ok (r.1, AccumulatorSet l)
  end.

Definition lazy (m : Extreme) (f : LazySortedSet -> outcome FunctionError (VariableValue * LazySortedSet))
    (args : list VariableValue) (acc : Accumulator) : outcome FunctionError (VariableValue * Accumulator) :=
  match acc with
  | AccumulatorSet l => r ← f l; Ok (r.1, AccumulatorSet r.2)
  | AccumulatorValue _ =>
      fail (extreme_name m) match args with [_] => CorruptData | _ => InvalidArgumentCount end
  end.

Definition aggregate_apply (f : AggregatingFunction) (store : S) (args : list VariableValue) (acc : Accumulator) :
    outcome FunctionError (VariableValue * Accumulator) :=
  match f with
  | AggSum => eager sum_apply args acc
  | AggAvg => eager avg_apply args acc
  | AggCount => eager count_apply args acc
  | AggCollect => eager collect_apply args acc
  | AggLast => eager last_apply args acc
  | AggLinearGradient => eager gradient_apply args acc
  | AggExtreme m => lazy m (extreme_apply m store args) args acc
  end.

Definition aggregate_revert (f : AggregatingFunction) (store : S) (args : list VariableValue) (acc : Accumulator) :
    outcome FunctionError (VariableValue * Accumulator) :=
  match f with
  | AggSum => eager sum_revert args acc
  | AggAvg => eager avg_revert args acc
  | AggCount => eager count_revert args acc
  | AggCollect => eager collect_revert args acc
  | AggLast => eager last_revert args acc
  | AggLinearGradient => eager gradient_revert args acc
  | AggExtreme m => lazy m (extreme_revert m store args) args acc
  end.

(** A snapshot leaves the accumulator as it is. *)
Definition eager_snapshot (f : list VariableValue -> ValueAccumulator -> outcome FunctionError VariableValue)
    (args : list VariableValue) (v : ValueAccumulator) : outcome FunctionError (VariableValue * ValueAccumulator) :=
  r ← f args v; Ok (r, v).

Definition aggregate_snapshot (f : AggregatingFunction) (store : S) (args : list VariableValue) (acc : Accumulator) :
    outcome FunctionError (VariableValue * Accumulator) :=
  match f with
  | AggSum => eager (eager_snapshot sum_snapshot) args acc
  | AggAvg => eager (eager_snapshot avg_snapshot) args acc
  | AggCount => eager (eager_snapshot count_snapshot) args acc
  | AggCollect => eager (eager_snapshot collect_snapshot) args acc
  | AggLast => eager (eager_snapshot last_snapshot) args acc
  | AggLinearGradient => eager (eager_snapshot gradient_snapshot) args acc
  | AggExtreme m => lazy m (fun l => r ← extreme_snapshot m store args l; Ok (r, l)) args acc
  end.

Notation M := (SM S EvaluationError).

Definition load_accumulator (f : AggregatingFunction) (position_in_query : nat)
    (grouping_keys : list VariableValue) : M Accumulator :=
  let initial := initialize_accumulator f position_in_query grouping_keys in
  if accumulator_is_lazy f then mret initial
  else
    acc ← index_get (KeyGroupBy grouping_keys) (OwnerFunction position_in_query);
    mret match acc with Some v => AccumulatorValue v | None => initial end.

Definition store_accumulator (position_in_query : nat) (grouping_keys : list VariableValue) (acc : Accumulator) :
    M unit :=
  match acc with
  | AccumulatorValue v => index_set (KeyGroupBy grouping_keys) (OwnerFunction position_in_query) (Some v)
  | AccumulatorSet l => fun s => let '(r, s) := commit s l in
                                 (map_err EvalIndexError ((fun _ => tt) <$> r), s)
  end.

(** The branch [Function::Aggregating] after the arguments and the grouping
    keys have been evaluated. *)
Definition evaluate_aggregate (f : AggregatingFunction) (position_in_query : nat) (side : SideEffects)
    (values grouping_keys : list VariableValue) : M VariableValue :=
  accumulator ← load_accumulator f position_in_query grouping_keys;
  store ← sm_get;
  r ← sm_lift (map_err from_function_error
        match side with
        | Apply => aggregate_apply f store values accumulator
        | RevertForUpdate | RevertForDelete => aggregate_revert f store values accumulator
        | Snapshot => aggregate_snapshot f store values accumulator
        end);
  _ ← store_accumulator position_in_query grouping_keys r.2;
  mret r.1.
End aggregate_call.

(** * Correctness of the aggregating calls

    What the accumulator of a group holds after a sequence of contributions and
    retractions, evaluated through the index as the evaluator does. *)

(** One evaluation of a call: a value contributed to or taken from its group. *)
Record Contribution {C : Chrono} := { retracts : bool; argument : VariableValue }.
Arguments Build_Contribution {C} retracts argument.

Section run.
Context {C : Chrono} {O : ChronoOps} {H : Hashers}.
Context {S : Type} `{!AccumulatorIndex S} `{!LazySortedSetStore S}.

Definition contribute (f : AggregatingFunction) (pos : nat) (keys : list VariableValue) (c : Contribution) :
    SM S EvaluationError VariableValue :=
  evaluate_aggregate f pos (if retracts c then RevertForUpdate else Apply) [argument c] keys.

(** The contributions of one group in order; the result is that of the last. *)
Definition run_group (f : AggregatingFunction) (pos : nat) (keys : list VariableValue) (l : list Contribution) :
    SM S EvaluationError (option VariableValue) :=
  sm_foldl (fun _ c => v ← contribute f pos keys c; mret (Some v)) None l.

Definition snapshot_of (f : AggregatingFunction) (pos : nat) (keys : list VariableValue) (arg : VariableValue) :
    SM S EvaluationError VariableValue := evaluate_aggregate f pos Snapshot [arg] keys.
End run.

(** ** Eager accumulators *)

Section eager.
Context {C : Chrono} {O : ChronoOps} {H : Hashers}.
Context {S : Type} `{!AccumulatorIndex S} {AL : AccumulatorLaws S} `{!LazySortedSetStore S}.

(** The slot of the group in the index. *)
Definition group_slot (s : S) (pos : nat) (keys : list VariableValue) : option ValueAccumulator :=
  acc_at s (KeyGroupBy keys) (OwnerFunction pos).

Lemma load_eager f pos keys s v0 v :
  accumulator_is_lazy f = false -> initialize_accumulator f pos keys = AccumulatorValue v0 ->
  default v0 (group_slot s pos keys) = v ->
  load_accumulator f pos keys s = (Ok (AccumulatorValue v), s).
Proof.
  intros Hl Hi <-. unfold load_accumulator, mbind, SM_bind, index_get. rewrite Hl, acc_get_ok, Hi. cbn.
  unfold group_slot. by destruct (acc_at s _ _).
Qed.

(** One step on an eager accumulator, when the function succeeds. *)
Lemma evaluate_eager f pos keys side args s v r v' :
  accumulator_is_lazy f = false ->
  load_accumulator f pos keys s = (Ok (AccumulatorValue v), s) ->
  match side with
  | Apply => aggregate_apply f s args (AccumulatorValue v)
  | RevertForUpdate | RevertForDelete => aggregate_revert f s args (AccumulatorValue v)
  | Snapshot => aggregate_snapshot f s args (AccumulatorValue v)
  end = Ok (r, AccumulatorValue v') ->
  exists s', evaluate_aggregate f pos side args keys s = (Ok r, s') /\ group_slot s' pos keys = Some v' /\
    forall k o, acc_independent (KeyGroupBy keys, OwnerFunction pos) (k, o) -> acc_at s' k o = acc_at s k o.
Proof.
  intros Hl Hload Hf. unfold evaluate_aggregate. erewrite sm_bind_ok by exact Hload.
  unfold sm_get. unfold mbind at 1, SM_bind at 1. rewrite sm_bind_lift, Hf. cbn [map_err].
  unfold store_accumulator, mbind, SM_bind, index_set. cbn [snd].
  destruct (acc_set_ok s (KeyGroupBy keys) (OwnerFunction pos) (Some v')) as (s' & -> & Hv & Hi).
  by exists s'.
Qed.

(** ** count *)

Definition count_delta (c : Contribution) : Z :=
  if is_null (argument c) then 0 else if retracts c then -1 else 1.

Definition net_count (l : list Contribution) : Z := fold_left (fun n c => n + count_delta c) l 0.

Lemma fold_count l n : fold_left (fun n c => n + count_delta c) l n = n + net_count l.
Proof.
  unfold net_count. revert n. induction l as [|c l IH]; intros n; cbn [fold_left]; [lia|].
  rewrite (IH (n + _)), (IH (0 + _)). lia.
Qed.

Lemma count_delta_bound c : -1 <= count_delta c <= 1.
Proof. unfold count_delta. destruct (is_null _), (retracts c); lia. Qed.

Lemma count_step_ok d v n :
  i64_ok (n + d) -> i64_ok n ->
  count_step d [v] (AccCount n) =
  Ok (VInteger (integer_from_i64 (n + if is_null v then 0 else d)), AccCount (n + if is_null v then 0 else d)).
Proof.
  intros Hd Hn. unfold count_step. destruct v; cbn [is_null];
    rewrite ?Z.add_0_r, ?(as_i64_small _ Hd); reflexivity.
Qed.

Definition counted (s : S) (pos : nat) (keys : list VariableValue) (n : Z) : Prop :=
  match group_slot s pos keys with Some acc => acc = AccCount n | None => n = 0 end.

Lemma load_count pos keys s n :
  counted s pos keys n -> load_accumulator AggCount pos keys s = (Ok (AccumulatorValue (AccCount n)), s).
Proof.
  intros Hn. apply (load_eager _ _ _ _ (AccCount 0)); [done|done|]. unfold counted in Hn.
  destruct (group_slot s pos keys); cbn; congruence.
Qed.

Lemma contribute_count pos keys c s n :
  counted s pos keys n -> i64_ok (n - 1) -> i64_ok (n + 1) ->
  exists s', contribute AggCount pos keys c s = (Ok (VInteger (integer_from_i64 (n + count_delta c))), s') /\
    counted s' pos keys (n + count_delta c).
Proof.
  intros Hn Hlo Hhi. assert (Hok : i64_ok n) by (unfold i64_ok in *; lia).
  pose proof (load_count pos keys s n Hn) as Hl. unfold contribute, count_delta.
  destruct (retracts c).
  - edestruct (evaluate_eager AggCount pos keys RevertForUpdate [argument c] s (AccCount n)) as (s' & He & Hs & _);
      [done|exact Hl|cbn [aggregate_revert eager]; unfold count_revert; rewrite count_step_ok by done; reflexivity|].
    exists s'. split; [exact He|]. unfold counted. by rewrite Hs.
  - edestruct (evaluate_eager AggCount pos keys Apply [argument c] s (AccCount n)) as (s' & He & Hs & _);
      [done|exact Hl|cbn [aggregate_apply eager]; unfold count_apply; rewrite count_step_ok by done; reflexivity|].
    exists s'. split; [exact He|]. unfold counted. by rewrite Hs.
Qed.

Lemma run_count pos keys l s n :
  counted s pos keys n -> Z.abs n + Z.of_nat (length l) < 2 ^ 63 ->
  forall r, exists s', sm_foldl (fun _ c => v ← contribute AggCount pos keys c; mret (Some v)) r l s =
    (Ok (match l with [] => r | _ => Some (VInteger (integer_from_i64 (n + net_count l))) end), s') /\
    counted s' pos keys (n + net_count l).
Proof.
  revert s n. induction l as [|c l IH]; intros s n Hn Hb r; cbn [sm_foldl].
  { exists s. split; [done|]. by rewrite Z.add_0_r. }
  cbn [length] in Hb. pose proof (count_delta_bound c).
  destruct (contribute_count pos keys c s n Hn) as (s1 & Hc & H1); [unfold i64_ok, i64_min, i64_max; lia..|].
  destruct (IH s1 (n + count_delta c) H1) with (r := Some (VInteger (integer_from_i64 (n + count_delta c))))
    as (s2 & Hr & H2); [lia|].
  assert (Hnet : net_count (c :: l) = count_delta c + net_count l).
  { unfold net_count at 1. cbn [fold_left]. by rewrite fold_count. }
  exists s2. rewrite Hnet, Z.add_assoc. split; [|done].
  erewrite sm_bind_ok by (erewrite sm_bind_ok by exact Hc; reflexivity). rewrite Hr.
  destruct l; [|done]. cbn. by rewrite Z.add_0_r.
Qed.
End eager.

(** ** min and max *)

Section extreme.
Context {C : Chrono} {O : ChronoOps} {H : Hashers}.
Context {S : Type} `{!AccumulatorIndex S} `{LazySortedSetStoreLaws S}.

Definition group_set (pos : nat) (keys : list VariableValue) : Z := set_id (new_lazy_sorted_set pos keys).

Definition set_op_of (m : Extreme) (c : Contribution) (x : f64) : SetOp :=
  if retracts c then SetRemove (oriented m x) else SetInsert (oriented m x).

(** The result of the call for a given head. *)
Definition extreme_outcome (m : Extreme) (arg : VariableValue) (h : option OrderedFloat) :
    outcome FunctionError VariableValue :=
  match h with None => Ok VNull | Some h => extreme_result m arg (of_f64 h) end.

(** A failing result leaves the store as it was. *)
Definition finish {A} (s s' : S) (r : outcome FunctionError A) : outcome EvaluationError A * S :=
  match r with
  | Ok a => (Ok a, s')
  | Err e => (Err (from_function_error e), s)
  | Panic => (Panic, s)
  end.

Lemma contribute_extreme m pos keys c s x :
  let op := set_op_of m c x in
  let v := {| of_f64 := set_op_value op |} in
  let id := group_set pos keys in
  extreme_key m (argument c) = Ok (Some x) ->
  store_inv s -> 0 <= counts s id v + set_op_delta op <= i64_max ->
  exists h s', contribute (AggExtreme m) pos keys c s = finish s s' (extreme_outcome m (argument c) h) /\
    store_inv s' /\
    (forall w, counts s' id w = counts s id w + if same_value v w then set_op_delta op else 0) /\
    (forall id' w, id' <> id -> counts s' id' w = counts s id' w) /\
    least (counts s' id) h.
Proof.
  intros op v id Hk Hs Hb. destruct (change_head s id op Hs Hb) as (h & s' & Hh & Hc & Hrest).
  exists h, s'. split; [|exact Hrest].
  assert (Hstep : extreme_step m (if retracts c then lss_remove else lss_insert) s [argument c]
            (new_lazy_sorted_set pos keys) =
          r ← extreme_outcome m (argument c) h;
          Ok (r, record_change s {| set_id := id; change_log := [] |} (set_op_value op) (set_op_delta op))).
  { unfold extreme_step. rewrite Hk. cbn [mbind outcome_bind].
    replace ((if retracts c then lss_remove else lss_insert) s (new_lazy_sorted_set pos keys) (oriented m x))
      with (record_change s {| set_id := id; change_log := [] |} (set_op_value op) (set_op_delta op)).
    2:{ unfold op, set_op_of, lss_remove, lss_insert. by destruct (retracts c). }
    unfold head_or_error. rewrite Hh. cbn [map_err mbind outcome_bind]. by destruct h. }
  unfold contribute, evaluate_aggregate, load_accumulator. cbn [accumulator_is_lazy initialize_accumulator].
  rewrite sm_bind_ret_l. unfold sm_get. unfold mbind at 1, SM_bind at 1. rewrite sm_bind_lift.
  assert (Happ : match (if retracts c then RevertForUpdate else Apply) with
                 | Apply => aggregate_apply (AggExtreme m) s [argument c] (AccumulatorSet (new_lazy_sorted_set pos keys))
                 | RevertForUpdate | RevertForDelete =>
                     aggregate_revert (AggExtreme m) s [argument c] (AccumulatorSet (new_lazy_sorted_set pos keys))
                 | Snapshot => aggregate_snapshot (AggExtreme m) s [argument c] (AccumulatorSet (new_lazy_sorted_set pos keys))
                 end =
                 r ← extreme_outcome m (argument c) h;
                 Ok (r, AccumulatorSet (record_change s {| set_id := id; change_log := [] |} (set_op_value op) (set_op_delta op)))).
  { destruct (retracts c); cbn [aggregate_apply aggregate_revert lazy]; unfold extreme_apply, extreme_revert;
      rewrite Hstep; by destruct (extreme_outcome _ _ _). }
  rewrite Happ. destruct (extreme_outcome m (argument c) h) as [r|e|]; cbn [mbind outcome_bind map_err finish]; try done.
  unfold store_accumulator. cbn [snd fst]. unfold mbind, SM_bind. fold id in Hc. by rewrite Hc.
Qed.
End extreme.

(** ** The properties *)

(** [count] through the evaluator: after any sequence of contributions and
    retractions of one group every call has succeeded, and a snapshot of the
    group is the number of non-null contributions less that of the non-null
    retractions. *)
Theorem count_tracks_group {C : Chrono} {O : ChronoOps} {H : Hashers} {S : Type} `{!AccumulatorIndex S}
    {AL : AccumulatorLaws S} `{!LazySortedSetStore S} pos keys (l : list Contribution) (s : S) arg n :
  counted s pos keys n -> Z.abs n + Z.of_nat (length l) < 2 ^ 63 ->
  exists r s' s'', run_group AggCount pos keys l s = (Ok r, s') /\
    snapshot_of AggCount pos keys arg s' = (Ok (VInteger (integer_from_i64 (n + net_count l))), s'').
Proof.
  intros Hn Hb. destruct (run_count pos keys l s n Hn Hb None) as (s' & Hr & Hs').
  destruct (evaluate_eager AggCount pos keys Snapshot [arg] s' (AccCount (n + net_count l))
    (VInteger (integer_from_i64 (n + net_count l))) (AccCount (n + net_count l))) as (s'' & He & _);
    [done|by apply load_count|done|]. eauto.
Qed.

(** [C22] [min] and [max] through the evaluator: one contribution or retraction
    changes the multiplicity of exactly that value in exactly the set of the
    group, and the result is computed from the least (for [max], the greatest)
    value of the changed multiset. *)
Theorem extreme_tracks_group {C : Chrono} {O : ChronoOps} {H : Hashers} {S : Type} `{!AccumulatorIndex S}
    `{LazySortedSetStoreLaws S} m pos keys c (s : S) x :
  let op := set_op_of m c x in
  let v := {| of_f64 := set_op_value op |} in
  let id := group_set pos keys in
  extreme_key m (argument c) = Ok (Some x) ->
  store_inv s -> 0 <= counts s id v + set_op_delta op <= i64_max ->
  exists h s', contribute (AggExtreme m) pos keys c s = finish s s' (extreme_outcome m (argument c) h) /\
    store_inv s' /\
    (forall w, counts s' id w = counts s id w + if same_value v w then set_op_delta op else 0) /\
    (forall id' w, id' <> id -> counts s' id' w = counts s id' w) /\
    least (counts s' id) h.
Proof. apply contribute_extreme. Qed.

Section samples.
#[local] Existing Instance Sample.hashers.
#[local] Existing Instance Sample.chrono.
#[local] Existing Instance SampleOps.ops.

Definition int (z : Z) : VariableValue := VInteger (integer_from_i64 z).
Definition gain (v : VariableValue) : Contribution := {| retracts := false; argument := v |}.
Definition loss (v : VariableValue) : Contribution := {| retracts := true; argument := v |}.

Lemma count_tracks_group_witness :
  exists r s' s'', run_group AggCount 1 [] [gain (int 5); gain VNull; gain (int 7); loss (int 5)] new_result_index = (Ok r, s') /\
    snapshot_of AggCount 1 [] VNull s' = (Ok (int 1), s'').
Proof.
  apply (count_tracks_group 1 [] [gain (int 5); gain VNull; gain (int 7); loss (int 5)] new_result_index VNull 0).
  - reflexivity.
  - vm_compute. reflexivity.
Defined.

Lemma extreme_tracks_group_witness :
  exists h s', contribute (AggExtreme Max) 1 [] (gain (int 5)) new_result_index =
      finish new_result_index s' (extreme_outcome Max (int 5) h) /\
    least (counts s' (group_set 1 [])) h.
Proof.
  destruct (extreme_tracks_group Max 1 [] (gain (int 5)) new_result_index (f64_of_Z 5)) as (h & s' & He & _ & _ & _ & Hl).
  - reflexivity.
  - exact new_result_index_inv.
  - vm_compute. split; discriminate.
  - exists h, s'. exact (conj He Hl).
Defined.

(** [sum] does not return to its value: contributing 10^16 and 1 to a group
    and retracting 10^16 leaves 0, where the group holds the value 1. *)
Theorem sum_drifts :
  (run_group AggSum 1 [] [gain (int (10 ^ 16)); gain (int 1); loss (int (10 ^ 16))] new_result_index).1 =
  Ok (Some (VFloat f64_zero)).
Proof. by_vm. Qed.

Definition at_hour (h : Z) : VariableValue := VZonedTime {| zt_time := h * 3600000; zt_offset := 0 |}.

(** The greatest zoned time is wrong: for the single value 01:00 the call
    answers 02:00, because the stored distance is added to the argument again;
    a snapshot of the same group answers 01:00. *)
Theorem max_zoned_time_doubles :
  let r := contribute (AggExtreme Max) 1 [] (gain (at_hour 1)) new_result_index in
  r.1 = Ok (at_hour 2) /\ (snapshot_of (AggExtreme Max) 1 [] (at_hour 1) r.2).1 = Ok (at_hour 1).
Proof. split; by_vm. Qed.

(** The result of [max] changes its type: over integers a contribution
    answers a float and a snapshot an integer. *)
Theorem max_integer_changes_type :
  let r := contribute (AggExtreme Max) 1 [] (gain (int 5)) new_result_index in
  r.1 = Ok (VFloat (f64_of_Z 5)) /\ (snapshot_of (AggExtreme Max) 1 [] (int 5) r.2).1 = Ok (int 5).
Proof. split; by_vm. Qed.
End samples.
