(* ===== verification/Parts.v ===== *)
(** * Query parts (core/src/evaluation/parts/mod.rs)

    One part of a query receives a changed row and emits the changes of its
    own rows.  A part projects and filters with the expression evaluator; an
    aggregating part emits the change of a group, and the part after it
    reconciles that change with what it has already applied, recorded as a
    signature in the result index. *)

From S2P Require Import Prelude BTree Floats Hashing Ast Models Errors Values ResultIndex Contexts.

Section parts.
Context {C : Chrono} {H : Hashers} {S : Type} `{!AccumulatorIndex S} {EE : ExpressionEvaluator S}.

Notation M := (SM S EvaluationError).

Definition aggregation_snapshot_hash (grouping_keys : list string) (vars : QueryVariables) : Z :=
  spooky (hash_usize (length vars) ++
          concat (map (fun e => hash_str e.1 ++
                    if contains e.1 grouping_keys then hash_for_groupby e.2 else value_hash e.2) vars)).

(** The fields of a projection, inserted in order. *)
Definition project_field (ctx : ExpressionEvaluationContext) (acc : QueryVariables * list string)
    (e : Expression) : M (QueryVariables * list string) :=
  nv ← evaluate_projection_field ctx e;
  mret (bt_insert nv.1 nv.2 acc.1, acc.2 ++ [nv.1]).

(** The projected row and its grouping keys, which are cleared first. *)
Definition project (ctx : ExpressionEvaluationContext) (projection : ProjectionClause) :
    M (QueryVariables * list string) :=
  match projection with
  | Item expressions =>
      r ← sm_foldl (project_field ctx) ([], []) expressions;
      mret (r.1, [])
  | GroupBy grouping aggregates =>
      g ← sm_foldl (project_field ctx) ([], []) grouping;
      r ← sm_foldl (project_field (set_output_grouping_key grouping ctx)) (g.1, []) aggregates;
      mret (r.1, g.2)
  end.

(** Whether all predicates hold; the first that does not ends the loop. *)
Fixpoint where_pass (ctx : ExpressionEvaluationContext) (filters : list Expression) : M bool :=
  match filters with
  | [] => mret true
  | f :: filters => b ← evaluate_predicate ctx f; if (b : bool) then where_pass ctx filters else mret false
  end.

Definition is_return_aggregating (part : QueryPart) : bool :=
  match return_clause part with GroupBy _ _ => true | Item _ => false end.

(** [Some] projection for an aggregating part. *)
Definition when_aggregating (part : QueryPart) (m : M (QueryVariables * list string)) :
    M (option (QueryVariables * list string)) :=
  if is_return_aggregating part then r ← m; mret (Some r) else mret None.

Fixpoint grouping_match (keys : list string) (before after : QueryVariables) : bool :=
  match keys with
  | [] => true
  | gk :: keys =>
      (match bt_get gk before, bt_get gk after with
       | Some b, Some a => eq_for_groupby b a
       | None, None => true
       | _, _ => false
       end) && grouping_match keys before after
  end.

Definition reconcile_crossing_aggregate (part : QueryPart) (keys : list string)
    (before_in before_out : option QueryVariables) (after_out : QueryVariables)
    (snapshot : option QueryVariables) (cc : ChangeContext) : M (list QueryPartEvaluationContext) :=
  match before_in, before_out with
  | Some before_in, Some before_out =>
      if grouping_match keys before_out after_out
      then mret [Aggregation (Some before_out) after_out keys false false 0]
      else
        prev ← project (set_side_effects Snapshot (new_context before_in (before_clock cc))) (return_clause part);
        mret [Aggregation snapshot after_out keys true false 0;
              Aggregation (Some before_out) prev.1 keys false true 0]
  | _, _ => mret [Aggregation before_out after_out keys false false 0]
  end.

Section evaluate.
Context (part_num : nat) (part : QueryPart) (cc : ChangeContext).

Let before_ctx (vars : QueryVariables) (d : SideEffects) := from_before_change vars d cc part.
Let after_ctx (vars : QueryVariables) := from_after_change vars cc part.
Let proj (ctx : ExpressionEvaluationContext) := project ctx (return_clause part).

Definition evaluate_adding (after : QueryVariables) : M (list QueryPartEvaluationContext) :=
  agg_snapshot ← when_aggregating part (proj (before_ctx after Snapshot));
  pass ← where_pass (after_ctx after) (where_clauses part);
  if (pass : bool) then
    data ← proj (after_ctx after);
    mret [if is_return_aggregating part
          then Aggregation (fst <$> agg_snapshot) data.1 data.2 true false 0
          else Adding data.1 0]
  else mret [Noop].

Definition evaluate_updating (before after : QueryVariables) : M (list QueryPartEvaluationContext) :=
  unchanged ← sm_lift (query_variables_unchanged before after);
  if (unchanged : bool) && negb (is_future_reprocess cc) then mret [Noop]
  else
    agg_snapshot ← when_aggregating part (proj (before_ctx after Snapshot));
    pass ← where_pass (before_ctx before Snapshot) (where_clauses part);
    outs ← (if (pass : bool) then
              before_out ← proj (before_ctx before Snapshot);
              agg_after ← proj (before_ctx before RevertForUpdate);
              mret (Some before_out, Some agg_after.1)
            else mret (None, None));
    let '(before_out, agg_after) := outs in
    (** the keys of the last projection of [before] or the snapshot *)
    let keys := match before_out, agg_snapshot with
                | Some b, _ => b.2
                | None, Some s => s.2
                | None, None => []
                end in
    let before_row := fst <$> before_out in
    pass ← where_pass (after_ctx after) (where_clauses part);
    if (pass : bool) then
      after_out ← proj (after_ctx after);
      if is_return_aggregating part
      then reconcile_crossing_aggregate part after_out.2 (Some before) before_row after_out.1
             (fst <$> agg_snapshot) cc
      else mret [match before_row with
                 | Some b => Updating b after_out.1 0
                 | None => Adding after_out.1 0
                 end]
    else
      match agg_after, is_return_aggregating part with
      | Some agg_after, true =>
          reconcile_crossing_aggregate part keys (Some before) before_row agg_after
            (fst <$> agg_snapshot) cc
      | _, _ => mret [match before_row with Some b => Removing b 0 | None => Noop end]
      end.

Definition evaluate_removing (before : QueryVariables) : M (list QueryPartEvaluationContext) :=
  agg_before ← when_aggregating part (proj (before_ctx before Snapshot));
  pass ← where_pass (before_ctx before RevertForDelete) (where_clauses part);
  if (pass : bool) then
    data ← proj (before_ctx before RevertForDelete);
    mret [if is_return_aggregating part
          then Aggregation (fst <$> agg_before) data.1 data.2 false true 0
          else Removing data.1 0]
  else mret [Noop].

(** Whether the group's before side is an applied contribution of this part;
    a default that is not is remembered. *)
Definition decide_revert (result_key : ResultKey) (keys : list string) (before : option QueryVariables)
    (default_before : bool) : M bool :=
  match before with
  | None => mret false
  | Some before =>
      if negb default_before then mret true
      else
        let before_hash := aggregation_snapshot_hash keys before in
        current ← index_get result_key (PartCurrent part_num);
        match (current : option ValueAccumulator) with
        | Some (AccSignature sig) => mret (sig =? before_hash)
        | None =>
            _ ← index_set result_key (PartDefault part_num) (Some (AccSignature before_hash));
            mret false
        | Some _ => mret false
        end
  end.

Definition decide_apply (result_key : ResultKey) (after_hash : Z) (default_after : bool) : M bool :=
  if negb default_after then mret true
  else
    def ← index_get result_key (PartDefault part_num);
    match (def : option ValueAccumulator) with
    | Some (AccSignature sig) =>
        _ ← (if sig =? after_hash then index_set result_key (PartCurrent part_num) None else mret tt);
        mret (negb (sig =? after_hash))
    | _ => mret true
    end.

Definition reconcile_contribution (before : option QueryVariables) (after : QueryVariables)
    (keys : list string) (default_before default_after : bool) : M (bool * bool) :=
  let result_key := groupby_from_variables keys after in
  should_revert ← decide_revert result_key keys before default_before;
  let after_hash := aggregation_snapshot_hash keys after in
  should_apply ← decide_apply result_key after_hash default_after;
  _ ← (if should_apply : bool
       then index_set result_key (PartCurrent part_num) (Some (AccSignature after_hash)) else mret tt);
  mret (should_revert, should_apply).

Definition unchanged_aggregation (before : option QueryVariables) (after : QueryVariables)
    (default_before default_after : bool) : outcome EvaluationError bool :=
  match before with
  | None => Ok false
  | Some before =>
      unchanged ← query_variables_unchanged before after;
      Ok ((unchanged : bool) && negb (is_future_reprocess cc) && negb default_before && negb default_after)
  end.

(** The before side is filtered, and reverted if it was applied. *)
Definition revert_contribution (before : option QueryVariables) (should_revert : bool) :
    M (bool * option (QueryVariables * list string)) :=
  match before with
  | None => mret (false, None)
  | Some before =>
      pass ← where_pass (before_ctx before Snapshot) (where_clauses part);
      if (pass : bool) && should_revert then
        r ← proj (replace_variables before (before_ctx before RevertForUpdate));
        mret (negb pass, Some r)
      else mret (negb pass, None)
  end.

Definition evaluate_aggregation (before : option QueryVariables) (after : QueryVariables)
    (grouping_keys : list string) (default_before default_after : bool) : M (list QueryPartEvaluationContext) :=
  unchanged ← sm_lift (unchanged_aggregation before after default_before default_after);
  if (unchanged : bool) then mret [Noop]
  else
    contribution ← reconcile_contribution before after grouping_keys default_before default_after;
    let '(should_revert, should_apply) := contribution in
    agg_snapshot ← when_aggregating part (proj (before_ctx after Snapshot));
    next_before ← (match before with
                   | Some before => r ← proj (before_ctx before Snapshot); mret (Some r.1)
                   | None => mret None
                   end);
    reverted ← revert_contribution before should_revert;
    let '(before_filtered, next_after) := reverted in
    let after_context :=
      if should_apply : bool then after_ctx after else set_side_effects Snapshot (after_ctx after) in
    let before_or_default := match next_before with Some b => b | None => [] end in
    pass ← where_pass after_context (where_clauses part);
    if (pass : bool) then
      next_after ← proj after_context;
      if is_return_aggregating part
      then reconcile_crossing_aggregate part next_after.2 before next_before next_after.1
             (fst <$> agg_snapshot) cc
      else mret [match negb before_filtered && should_revert, should_apply with
                 | true, true => Updating before_or_default next_after.1 0
                 | true, false => Removing before_or_default 0
                 | false, true => Adding next_after.1 0
                 | false, false => Noop
                 end]
    else
      match next_after, is_return_aggregating part with
      | Some next_after, true =>
          reconcile_crossing_aggregate part next_after.2 before next_before next_after.1
            (fst <$> agg_snapshot) cc
      | _, _ => mret [match before with
                      | Some _ => if before_filtered then Noop else Removing before_or_default 0
                      | None => Noop
                      end]
      end.

Definition evaluate (context : QueryPartEvaluationContext) : M (list QueryPartEvaluationContext) :=
  match context with
  | Adding after _ => evaluate_adding after
  | Updating before after _ => evaluate_updating before after
  | Removing before _ => evaluate_removing before
  | Aggregation before after keys default_before default_after _ =>
      evaluate_aggregation before after keys default_before default_after
  | Noop => mret [Noop]
  end.
End evaluate.
End parts.
