(* ===== verification/Temporal.v ===== *)
(** * Properties of temporal values (evaluation/expressions/mod.rs, the
      [get_*_property] functions, and the operators of variable_value/duration.rs) *)

From S2P Require Import Prelude BTree Floats Hashing Ast Models Errors Values ChronoOps.

Section temporal.
Context {C : Chrono} {O : ChronoOps}.

Definition as_u32 (z : Z) : Z := z mod 2 ^ 32.

Definition quarter (d : NaiveDate) : Z := (date_month d - 1) / 3 + 1.

Definition day_of_quarter (d : NaiveDate) : option Z :=
  start ← from_ymd_opt (date_year d) ((quarter d - 1) * 3 + 1) 1;
  Some (date_num_days d - date_num_days start + 1).

(** The calendar fields, before their conversion. *)
Definition date_field (d : NaiveDate) (property : string) : option Z :=
  match property with
  | "year" => Some (date_year d)
  | "month" => Some (date_month d)
  | "day" => Some (date_day d)
  | "quarter" => Some (quarter d)
  | "week" => Some (iso_week d)
  | "dayOfWeek" | "weekDay" => Some (number_from_monday d)
  | "ordinalDay" => Some (date_ordinal d)
  | "weekYear" => Some (iso_year d)
  | "dayOfQuarter" | "quarterDay" => day_of_quarter d
  | _ => None
  end%string.

Definition time_field (t : NaiveTime) (property : string) : option Z :=
  match property with
  | "hour" => Some (time_hour t)
  | "minute" => Some (time_minute t)
  | "second" => Some (time_second t)
  | "millisecond" => Some (time_nanosecond t / 1000000)
  | "microsecond" => Some (time_nanosecond t / 1000)
  | "nanosecond" => Some (time_nanosecond t)
  | _ => None
  end%string.

Definition get_date_property (d : NaiveDate) (property : string) : option Z :=
  as_u32 <$> date_field d property.

Definition get_local_time_property (t : NaiveTime) (property : string) : option Z := time_field t property.

Definition get_local_datetime_property (t : NaiveDateTime) (property : string) : option Z :=
  match get_date_property (datetime_date t) property with
  | Some v => Some v
  | None => time_field (datetime_time t) property
  end.

(** The properties of zoned values travel as strings; the numbers among them
    are parsed back by the caller. *)
Inductive ZonedProperty := PNumber (z : Z) | PText (s : string).

Definition get_time_property (t : ZonedTime) (property : string) : option ZonedProperty :=
  match property with
  | "offset" | "timezone" => Some (PText (offset_to_string (zt_offset t)))
  | "offsetSeconds" => Some (PNumber (local_minus_utc (zt_offset t)))
  | "offsetMinutes" => Some (PNumber (Z.quot (local_minus_utc (zt_offset t)) 60))
  | _ => PNumber <$> time_field (zt_time t) property
  end%string.

Definition get_datetime_property (z : ZonedDateTime) (property : string) : option ZonedProperty :=
  let datetime := zdt_datetime z in
  let offset := fixed_offset datetime in
  match property with
  | "timezone" => Some (PText match zdt_timezone_name z with Some tz => tz | None => offset_to_string offset end)
  | "offset" => Some (PText (offset_to_string offset))
  | "offsetSeconds" => Some (PNumber (local_minus_utc offset))
  | "offsetMinutes" => Some (PNumber (Z.quot (local_minus_utc offset) 60))
  | "epochMillis" => Some (PNumber (num_milliseconds (since_epoch (naive_utc datetime))))
  | "epochSeconds" => Some (PNumber (num_seconds (since_epoch (naive_utc datetime))))
  | _ =>
      match date_field (fixed_date datetime) property with
      | Some v => Some (PNumber v)
      | None => PNumber <$> time_field (fixed_time datetime) property
      end
  end%string.

Definition get_duration_property (d : Duration) (property : string) : option Z :=
  let year := d_year d in
  let month := d_month d in
  let td := d_duration d in
  let or_twelve n m := if Z.rem n m =? 0 then m else Z.rem n m in
  match property with
  | "years" => Some (as_i64 (year + Z.quot month 12 + Z.quot (num_days td) 365))
  | "months" => Some (as_i64 (month + year * 12 + Z.quot (num_days td) 30))
  | "quarters" => Some (as_i64 (Z.quot month 3 + year * 4))
  | "weeks" => Some (Z.quot (num_days td) 7)
  | "days" => Some (num_days td)
  | "hours" => Some (Z.quot (num_seconds td) 3600)
  | "minutes" => Some (Z.quot (num_seconds td) 60)
  | "seconds" => Some (num_seconds td)
  | "milliseconds" => Some (num_milliseconds td)
  | "microseconds" => Some (default 0 (num_microseconds td))
  | "nanoseconds" => Some (default 0 (num_nanoseconds td))
  | "quartersOfYear" => Some (Z.quot month 3 + 1)
  | "monthsOfYear" => Some (or_twelve month 12)
  | "monthsOfQuarter" => Some (or_twelve month 3)
  | "daysOfWeek" => Some (or_twelve (num_days td) 7)
  | "minutesOfHour" => Some (Z.rem (Z.quot (num_seconds td) 60) 60)
  | "secondsOfMinute" => Some (Z.rem (num_seconds td) 60)
  | "millisecondsOfSecond" => Some (Z.rem (num_milliseconds td) 1000)
  | "microsecondsOfSecond" => Some (Z.rem (default 0 (num_microseconds td)) 1000000)
  | "nanosecondsOfSecond" => Some (Z.rem (default 0 (num_nanoseconds td)) 1000000000)
  | _ => None
  end%string.

(** ** Addition and subtraction of durations *)

Definition duration_add {E} (a b : Duration) : outcome E Duration :=
  match delta_add (d_duration a) (d_duration b) with
  | None => Panic
  | Some td =>
      let year := as_i64 (d_year a + d_year b) in
      let month := as_i64 (d_month a + d_month b) in
      Ok (if 12 <? month
          then {| d_duration := td; d_year := as_i64 (year + 1); d_month := month - 12 |}
          else {| d_duration := td; d_year := year; d_month := month |})
  end.

Definition duration_sub {E} (a b : Duration) : outcome E Duration :=
  match delta_sub (d_duration a) (d_duration b) with
  | None => Panic
  | Some td =>
      let year := as_i64 (d_year a - d_year b) in
      let month := as_i64 (d_month a - d_month b) in
      Ok (if month <? 1
          then {| d_duration := td; d_year := as_i64 (year - 1); d_month := as_i64 (month + 12) |}
          else {| d_duration := td; d_year := year; d_month := month |})
  end.
End temporal.

(** The sample calendar agrees with the civil one. *)
Example sample_calendar :
  SampleOps.civil 0 = (1970, 1, 1) /\ SampleOps.civil 19782 = (2024, 2, 29) /\
  SampleOps.of_civil 2024 2 29 = 19782 /\ SampleOps.weekday 19782 = 4 /\
  @get_date_property Sample.chrono SampleOps.ops 19782 "dayOfQuarter" = Some 60 /\
  @get_date_property Sample.chrono SampleOps.ops 19782 "week" = Some 9.
Proof. by split_and!. Qed.
