(* ===== verification/Operators.v ===== *)
(** * Operators of the expression language (evaluation/expressions/mod.rs,
      evaluate_binary_expression)

    The operators on evaluated operands. Integer arithmetic wraps around as in
    a release build. *)

From Stdlib Require Import SpecFloat.
From stdpp Require Import pretty.
From S2P Require Import Prelude BTree Floats Hashing Ast Models Errors Values ChronoOps Temporal.

Section operators.
Context {C : Chrono} {O : ChronoOps}.

Notation result A := (outcome EvaluationError A).

(** [as_i64().unwrap_or_default()] and [as_f64().unwrap_or_default()] *)
Definition int_or_zero (n : Integer) : Z := default 0 (integer_as_i64 n).
Definition float_value_or_zero (x : Float) : f64 := default f64_zero (float_as_f64 x).

Definition or_panic {A} (o : option A) : result A := match o with Some a => Ok a | None => Panic end.
Definition or_error {A} (e : EvaluationError) (o : option A) : result A :=
  match o with Some a => Ok a | None => Err e end.

(** ** Equality *)

(** Whether two values are of the same comparable type. *)
Definition same_comparable (v1 v2 : VariableValue) : bool :=
  match v1, v2 with
  | VInteger _, VInteger _ | VFloat _, VFloat _ | VString _, VString _ | VBool _, VBool _
  | VNull, VNull | VList _, VList _ | VElementReference _, VElementReference _ | VDate _, VDate _
  | VLocalTime _, VLocalTime _ | VLocalDateTime _, VLocalDateTime _ | VZonedTime _, VZonedTime _
  | VZonedDateTime _, VZonedDateTime _ | VDuration _, VDuration _ => true
  | _, _ => false
  end.

Definition op_eq (v1 v2 : VariableValue) : result bool :=
  match v1, v2 with
  | VAwaiting, VAwaiting => Ok true
  | _, _ => if same_comparable v1 v2 then or_panic (value_eq v1 v2) else Ok false
  end.

Definition op_ne (v1 v2 : VariableValue) : result bool :=
  match v1, v2 with
  | VFloat x, VInteger n | VInteger n, VFloat x =>
      n ← or_error (EvalInvalidType "Integer") (integer_as_i64 n);
      Ok (negb (f64_eqb x (f64_of_Z n)))
  | _, _ => if same_comparable v1 v2 then r ← or_panic (value_eq v1 v2); Ok (negb r) else Ok false
  end.

(** ** Order *)

Inductive CmpOp := OpLt | OpLe | OpGt | OpGe.

Definition cmp_holds (op : CmpOp) (c : comparison) : bool :=
  match op, c with
  | OpLt, Lt | OpLe, Lt | OpLe, Eq | OpGt, Gt | OpGe, Gt | OpGe, Eq => true
  | _, _ => false
  end.

Definition f64_holds (op : CmpOp) (a b : f64) : bool :=
  match op with
  | OpLt => f64_ltb a b
  | OpLe => f64_leb a b
  | OpGt => f64_ltb b a
  | OpGe => f64_leb b a
  end.

Definition at_midnight (d : NaiveDate) : NaiveDateTime := naive_datetime d MIDNIGHT_NAIVE_TIME.
Definition on_epoch (t : NaiveTime) : NaiveDateTime := naive_datetime EPOCH_NAIVE_DATE t.

Definition zoned_on_epoch (expected : string) (t : NaiveTime) (offset : FixedOffset) : result FixedDateTime :=
  or_error (EvalInvalidType expected) (and_local_timezone EPOCH_NAIVE_DATE t offset).

(** Thirty days to a month. *)
Definition duration_length (d : Duration) : result TimeDelta :=
  months ← or_panic (days (as_i64 (30 * as_i64 (d_month d + as_i64 (d_year d * 12)))));
  or_panic (delta_add (d_duration d) months).

(** The type a failing conversion of a zoned time names. *)
Definition zoned_expected (op : CmpOp) : string :=
  match op with OpLt => "DateTiie" | OpLe | OpGt => "DateTime" | OpGe => "Time" end.

(** [<], [<=], [>] and [>=]; pairs of types without a rule compare to false. *)
Definition op_compare (op : CmpOp) (v1 v2 : VariableValue) : result bool :=
  let dt a b := Ok (cmp_holds op (datetime_cmp a b)) in
  let fx a b := Ok (cmp_holds op (fixed_cmp a b)) in
  match v1, v2 with
  | VInteger n1, VInteger n2 => Ok (cmp_holds op (int_or_zero n1 ?= int_or_zero n2))
  | VFloat x1, VFloat x2 => Ok (f64_holds op (float_value_or_zero x1) (float_value_or_zero x2))
  | VFloat x1, VInteger n2 => Ok (f64_holds op (float_value_or_zero x1) (f64_of_Z (int_or_zero n2)))
  | VInteger n1, VFloat x2 => Ok (f64_holds op (f64_of_Z (int_or_zero n1)) (float_value_or_zero x2))
  | VDate d1, VDate d2 => Ok (cmp_holds op (date_cmp d1 d2))
  | VLocalTime t1, VLocalTime t2 => Ok (cmp_holds op (time_cmp t1 t2))
  | VLocalDateTime t1, VLocalDateTime t2 => dt t1 t2
  | VLocalDateTime t1, VDate d2 => dt t1 (at_midnight d2)
  | VLocalDateTime t1, VLocalTime t2 => dt t1 (on_epoch t2)
  | VLocalTime t1, VLocalDateTime t2 => dt (on_epoch t1) t2
  | VDate d1, VLocalDateTime t2 => dt (at_midnight d1) t2
  | VZonedTime t1, VZonedTime t2 =>
      z1 ← zoned_on_epoch "Time" (zt_time t1) (zt_offset t1);
      z2 ← zoned_on_epoch "Time" (zt_time t2) (zt_offset t2);
      fx z1 z2
  | VZonedDateTime z1, VZonedDateTime z2 => fx (zdt_datetime z1) (zdt_datetime z2)
  | VZonedDateTime z1, VDate d2 => fx (zdt_datetime z1) (and_utc (at_midnight d2))
  | VZonedDateTime z1, VLocalDateTime t2 => dt (naive_utc (zdt_datetime z1)) t2
  | VZonedDateTime z1, VLocalTime t2 => fx (zdt_datetime z1) (and_utc (on_epoch t2))
  | VZonedDateTime z1, VZonedTime t2 =>
      z2 ← zoned_on_epoch "Time" (zt_time t2) (zt_offset t2); fx (zdt_datetime z1) z2
  | VZonedTime t1, VZonedDateTime z2 =>
      (** [>=] reads the time in the zone of the right operand *)
      let offset := match op with OpGe => fixed_offset (zdt_datetime z2) | _ => zt_offset t1 end in
      z1 ← zoned_on_epoch (zoned_expected op) (zt_time t1) offset; fx z1 (zdt_datetime z2)
  | VZonedTime t1, VDate d2 => dt (on_epoch (zt_time t1)) (at_midnight d2)
  | VZonedTime t1, VLocalDateTime t2 => dt (on_epoch (zt_time t1)) t2
  | VZonedTime t1, VLocalTime t2 => dt (on_epoch (zt_time t1)) (on_epoch t2)
  | VDuration d1, VDuration d2 =>
      l1 ← duration_length d1; l2 ← duration_length d2; Ok (cmp_holds op (delta_cmp l1 l2))
  | VDate d1, VZonedDateTime z2 =>
      match op with OpGt => fx (and_utc (at_midnight d1)) (zdt_datetime z2) | _ => Ok false end
  | VDate d1, VLocalTime t2 =>
      match op with OpGt => dt (at_midnight d1) (on_epoch t2) | _ => Ok false end
  | VDate d1, VZonedTime t2 =>
      match op with
      | OpGt => z2 ← zoned_on_epoch "Time" (zt_time t2) (zt_offset t2); fx (and_utc (at_midnight d1)) z2
      | _ => Ok false
      end
  | VLocalDateTime t1, VZonedDateTime z2 =>
      match op with OpGe => dt t1 (naive_utc (zdt_datetime z2)) | _ => Ok false end
  | _, _ => Ok false
  end.

Definition op_lt := op_compare OpLt.
Definition op_le := op_compare OpLe.
Definition op_gt := op_compare OpGt.
Definition op_ge := op_compare OpGe.

(** ** Arithmetic *)

(** [%] on floats: the remainder of the truncated division, with the sign of
    the dividend; it is exact. *)
Definition f64_rem (x y : f64) : f64 :=
  match x, y with
  | S754_nan, _ | _, S754_nan | S754_infinity _, _ | _, S754_zero _ => S754_nan
  | S754_zero _, _ | _, S754_infinity _ => x
  | S754_finite s mx ex, S754_finite _ my ey =>
      let e := Z.min ex ey in
      let r := (Z.pos mx * 2 ^ (ex - e)) mod (Z.pos my * 2 ^ (ey - e)) in
      if r =? 0 then S754_zero s
      else binary_normalize f64_prec f64_emax (if s then - r else r) e s
  end.

Inductive ArithOp := OpAdd | OpSub | OpMul | OpMod | OpPow.

(** Division by zero and the overflowing remainder panic. *)
Definition int_arith (op : ArithOp) (a b : Z) : result Z :=
  match op with
  | OpAdd => Ok (as_i64 (a + b))
  | OpSub => Ok (as_i64 (a - b))
  | OpMul => Ok (as_i64 (a * b))
  | OpMod => if (b =? 0) || ((a =? i64_min) && (b =? -1)) then Panic else Ok (Z.rem a b)
  | OpPow => if (0 <=? b) && (b <? 2 ^ 32) then Ok (as_i64 (a ^ b)) else Err EvalOverflowError
  end.

Definition float_arith (op : ArithOp) : f64 -> f64 -> f64 :=
  match op with
  | OpAdd => f64_add
  | OpSub => f64_sub
  | OpMul => f64_mul
  | OpMod => f64_rem
  | OpPow => powf
  end.

(** The rules the numeric operators share; [None] is no rule. *)
Definition numeric_arith (op : ArithOp) (v1 v2 : VariableValue) : option (result VariableValue) :=
  match v1, v2 with
  | VInteger n1, VInteger n2 =>
      Some (r ← int_arith op (int_or_zero n1) (int_or_zero n2); Ok (VInteger (integer_from_i64 r)))
  | VFloat x1, VFloat x2 => Some (Ok (VFloat (float_arith op (float_value_or_zero x1) (float_value_or_zero x2))))
  | VFloat x1, VInteger n2 =>
      Some (Ok (VFloat (float_arith op (float_value_or_zero x1) (f64_of_Z (int_or_zero n2)))))
  | VInteger n1, VFloat x2 =>
      Some (Ok (VFloat (float_arith op (f64_of_Z (int_or_zero n1)) (float_value_or_zero x2))))
  | _, _ => None
  end.

Definition integer_to_string (n : Integer) : string :=
  match n with PosInt u => pretty u | NegInt i => pretty i end.

Definition bool_to_string (b : bool) : string := if b then "true" else "false".

Definition or_null {A} (f : A -> VariableValue) (o : option A) : VariableValue :=
  match o with Some a => f a | None => VNull end.

Definition op_add (v1 v2 : VariableValue) : result VariableValue :=
  match numeric_arith OpAdd v1 v2 with
  | Some r => r
  | None =>
      match v1, v2 with
      | VInteger n1, VString s2 => Ok (VString (integer_to_string n1 +:+ s2))
      | VFloat x1, VString s2 => Ok (VString (float_to_string x1 +:+ s2))
      | VString s1, VBool b2 => Ok (VString (s1 +:+ bool_to_string b2))
      | VString s1, VInteger n2 => Ok (VString (s1 +:+ integer_to_string n2))
      | VString s1, VFloat x2 => Ok (VString (s1 +:+ float_to_string x2))
      | VString s1, VString s2 => Ok (VString (s1 +:+ s2))
      | VDate d, VDuration td => Ok (or_null VDate (date_add d (d_duration td)))
      | VLocalTime t, VDuration td => Ok (VLocalTime (time_add t (d_duration td)))
      | VLocalDateTime t, VDuration td => Ok (or_null VLocalDateTime (datetime_add t (d_duration td)))
      | VZonedTime t, VDuration td =>
          Ok (VZonedTime {| zt_time := time_add (zt_time t) (d_duration td); zt_offset := zt_offset t |})
      | VZonedDateTime z, VDuration td =>
          Ok (or_null (fun n => VZonedDateTime {| zdt_datetime := n; zdt_timezone_name := zdt_timezone_name z |})
                (fixed_add (zdt_datetime z) (d_duration td)))
      | VDuration d1, VDuration d2 => d ← duration_add d1 d2; Ok (VDuration d)
      | _, _ => Ok VNull
      end
  end.

Definition op_subtract (v1 v2 : VariableValue) : result VariableValue :=
  match numeric_arith OpSub v1 v2 with
  | Some r => r
  | None =>
      match v1, v2 with
      | VDate d, VDuration td => Ok (or_null VDate (date_sub d (d_duration td)))
      | VLocalTime t, VDuration td => Ok (VLocalTime (time_sub t (d_duration td)))
      | VLocalDateTime t, VDuration td => Ok (or_null VLocalDateTime (datetime_sub t (d_duration td)))
      | VZonedTime t, VDuration td =>
          Ok (VZonedTime {| zt_time := time_sub (zt_time t) (d_duration td); zt_offset := zt_offset t |})
      | VZonedDateTime z, VDuration td =>
          Ok (or_null (fun n => VZonedDateTime {| zdt_datetime := n; zdt_timezone_name := zdt_timezone_name z |})
                (fixed_sub (zdt_datetime z) (d_duration td)))
      | VDuration d1, VDuration d2 => d ← duration_sub d1 d2; Ok (VDuration d)
      | _, _ => Ok VNull
      end
  end.

(** [*], [%] and [^] *)
Definition op_numeric (op : ArithOp) (v1 v2 : VariableValue) : result VariableValue :=
  default (Ok VNull) (numeric_arith op v1 v2).

Definition op_multiply := op_numeric OpMul.
Definition op_modulo := op_numeric OpMod.
Definition op_exponent := op_numeric OpPow.

Definition op_divide (v1 v2 : VariableValue) : result VariableValue :=
  let int n := or_error EvalOverflowError (integer_as_i64 n) in
  let flt x := or_error EvalOverflowError (float_as_f64 x) in
  let divide a b := if f64_eqb b f64_zero then Err DivideByZero else Ok (VFloat (f64_div a b)) in
  match v1, v2 with
  | VInteger n1, VInteger n2 =>
      m1 ← int n1; m2 ← int n2;
      if (m2 : Z) =? 0 then Err DivideByZero else Ok (VFloat (f64_div (f64_of_Z m1) (f64_of_Z m2)))
  | VFloat x1, VFloat x2 => m1 ← flt x1; m2 ← flt x2; divide m1 m2
  | VFloat x1, VInteger n2 =>
      m1 ← flt x1; m2 ← int n2;
      if (m2 : Z) =? 0 then Err DivideByZero else Ok (VFloat (f64_div m1 (f64_of_Z m2)))
  | VInteger n1, VFloat x2 => m1 ← int n1; m2 ← flt x2; divide (f64_of_Z m1) m2
  | _, _ => Ok VNull
  end.

(** ** Lists, labels, strings *)

(** [a.contains(&e)] with the ordinary equality. *)
Fixpoint list_contains (l : list VariableValue) (e : VariableValue) : result bool :=
  match l with
  | [] => Ok false
  | x :: l => b ← or_panic (value_eq x e); if (b : bool) then Ok true else list_contains l e
  end.

Definition op_in (v1 v2 : VariableValue) : result bool :=
  match v2 with VList a => list_contains a v1 | _ => Err (EvalInvalidType "List") end.

Definition op_has_label (subject label : VariableValue) : result bool :=
  match label with
  | VString s => Ok match subject with VElement e => contains s (labels (get_metadata e)) | _ => false end
  | _ => Err (EvalInvalidType "String")
  end.

Definition as_array (v : VariableValue) : result (list VariableValue) :=
  match v with VList l => Ok l | _ => Err (EvalInvalidType "List") end.

(** [list[start as usize..end as usize].to_vec()] *)
Definition slice (l : list VariableValue) (s e : Z) : result (list VariableValue) :=
  let s := as_u64 s in
  let e := as_u64 e in
  if (s <=? e) && (e <=? Z.of_nat (length l))
  then Ok (take (Z.to_nat (e - s)) (drop (Z.to_nat s) l)) else Panic.

Definition start_bound (len : Z) (b : RangeBound) : Z :=
  match b with
  | BIndex index => if index <? 0 then as_i64 (Z.abs index + 1) else if len <? index then len else index
  | Unbounded => 0
  end.

Definition end_bound (len : Z) (b : RangeBound) : Z :=
  match b with
  | BIndex index => if len <? index then len else if index <? 0 then len + index else index
  | Unbounded => len
  end.

Definition element_property (e : Element) (key : string) : VariableValue :=
  from_element_value (get_property e key).

Definition object_get (o : list (string * VariableValue)) (key : string) : VariableValue :=
  match bt_get key o with Some v => v | None => VNull end.

Definition op_index (parent index_exp : VariableValue) : result VariableValue :=
  match index_exp with
  | VListRange r =>
      list ← as_array parent;
      let len := Z.of_nat (length list) in
      l ← slice list (start_bound len (lr_start r)) (end_bound len (lr_end r));
      Ok (VList l)
  | VInteger index =>
      list ← as_array parent;
      i ← or_error (EvalInvalidType "Integer") (integer_as_i64 index);
      let len := Z.of_nat (length list) in
      if len <=? (i : Z) then Ok VNull
      else or_panic (list !! Z.to_nat (as_u64 (if i <? 0 then len + i else i)))
  | VString key =>
      match parent with
      | VObject o => Ok (object_get o key)
      | VElement e => Ok (element_property e key)
      | _ => Err (EvalInvalidType "Object")
      end
  | _ => Err (EvalInvalidType "Integer or ListRange")
  end.

Fixpoint ends_with (s suffix : string) : bool :=
  String.eqb s suffix || match s with EmptyString => false | String _ s => ends_with s suffix end.

Definition string_contains (s1 s2 : string) : bool :=
  match String.index 0 s2 s1 with Some _ => true | None => false end.

Definition op_string (f : string -> string -> bool) (v1 v2 : VariableValue) : VariableValue :=
  match v1, v2 with
  | VString s1, VString s2 => VBool (f s1 s2)
  | VNull, _ | _, VNull => VNull
  | _, _ => VBool false
  end.

(** ** The operator of a binary expression, but for [And], [Or] *)

Definition to_bool (r : result bool) : result VariableValue := VBool <$> r.

Definition apply_binary (op : BinaryOp) (v1 v2 : VariableValue) : result VariableValue :=
  match op with
  | And | Or => Panic
  | Eq_ => to_bool (op_eq v1 v2)
  | Ne => to_bool (op_ne v1 v2)
  | Lt_ => to_bool (op_lt v1 v2)
  | Le => to_bool (op_le v1 v2)
  | Gt_ => to_bool (op_gt v1 v2)
  | Ge => to_bool (op_ge v1 v2)
  | In_ => to_bool (op_in v1 v2)
  | Add => op_add v1 v2
  | Subtract => op_subtract v1 v2
  | Multiply => op_multiply v1 v2
  | Divide => op_divide v1 v2
  | Modulo => op_modulo v1 v2
  | Exponent => op_exponent v1 v2
  | HasLabel => to_bool (op_has_label v1 v2)
  | Index => op_index v1 v2
  | StartsWith => Ok (op_string (fun s1 s2 => String.prefix s2 s1) v1 v2)
  | EndsWith => Ok (op_string ends_with v1 v2)
  | Contains => Ok (op_string string_contains v1 v2)
  end.
End operators.
