(* ===== verification/Expressions.v ===== *)
(** * The expression evaluator (evaluation/expressions/mod.rs,
      evaluation/functions/mod.rs)

    The recursive evaluation of expressions against a row. The function
    registry is part of the evaluator; functions that evaluate expressions
    themselves receive the evaluator. The recursion takes fuel, because the
    evaluation of an aggregating call evaluates the grouping expressions of the
    context, which are no subterms of the call; running out of it is reported as
    a panic, and [eval_enough_fuel] shows how much is enough. *)

From S2P Require Import Prelude BTree Floats Hashing Ast Models Errors Values ChronoOps Temporal Operators.
From S2P Require Import ResultIndex LazySortedSet Aggregation Contexts AggregateFacts.

Section expressions.
Context {C : Chrono} {O : ChronoOps} {H : Hashers}.
Context {S : Type} `{!AccumulatorIndex S} `{!LazySortedSetStore S}.

Notation M := (SM S EvaluationError).
Notation Evaluator := (ExpressionEvaluationContext -> Expression -> M VariableValue).

(** ** The function registry *)

(** A call, as the functions see it: the name, the argument expressions and
    the position in the query. *)
Record FunctionCall := { call_name : string; call_args : list Expression; position_in_query : nat }.

Inductive Function :=
| Scalar (call : ExpressionEvaluationContext -> FunctionCall -> list VariableValue -> SM S FunctionError VariableValue)
(* a scalar function that holds the evaluator *)
| EvaluatingScalar (call : Evaluator -> ExpressionEvaluationContext -> FunctionCall -> list VariableValue ->
                           SM S FunctionError VariableValue)
| LazyScalar (call : Evaluator -> ExpressionEvaluationContext -> FunctionCall -> SM S FunctionError VariableValue)
| Aggregating (f : AggregatingFunction)
| ContextMutator (call : Evaluator -> ExpressionEvaluationContext -> FunctionCall ->
                         SM S FunctionError ExpressionEvaluationContext).

Definition register_function (name : string) (f : Function) (registry : gmap string Function) :
    gmap string Function := <[name := f]> registry.

Definition get_function (registry : gmap string Function) (name : string) : option Function := registry !! name.

(** A registry with the aggregating functions. *)
Definition register_all_aggregating (registry : gmap string Function) : gmap string Function :=
  fold_left (fun r name => match register_aggregation_functions name with
                           | Some f => register_function name (Aggregating f) r
                           | None => r
                           end)
    ["sum"; "avg"; "count"; "min"; "max"; "collect"; "drasi.linearGradient"; "drasi.last"]%string registry.

Context (functions : gmap string Function).

Definition function_error {A} (m : SM S FunctionError A) : M A := sm_map_err from_function_error m.

(** ** One level of the evaluator *)

Section level.
Context (ev : Evaluator).

Definition predicate_value (v : VariableValue) : bool := match v with VBool b => b | _ => false end.

Definition predicate_of (ctx : ExpressionEvaluationContext) (e : Expression) : M bool :=
  v ← ev ctx e; mret (predicate_value v).

Definition number_property (unknown : EvaluationError) (o : option Z) (f : Z -> Integer) :
    outcome EvaluationError VariableValue :=
  match o with Some v => Ok (VInteger (f v)) | None => Err unknown end.

Definition zoned_property (unknown : EvaluationError) (o : option ZonedProperty) :
    outcome EvaluationError VariableValue :=
  match o with
  | Some (PText s) => Ok (VString s)
  | Some (PNumber v) => Ok (VInteger (integer_from_i64 v))
  | None => Err unknown
  end.

(** [v.key]; the two kinds of property expression differ in the error for an
    unknown field. *)
Definition value_property (unknown : string -> EvaluationError) (v : VariableValue) (key : string) :
    outcome EvaluationError VariableValue :=
  match v with
  | VElement e => Ok (element_property e key)
  | VObject o => Ok (object_get o key)
  | VDate d => number_property (unknown key) (get_date_property d key) integer_from_u64
  | VLocalTime t => number_property (unknown key) (get_local_time_property t key) integer_from_u64
  | VZonedTime t => zoned_property (unknown key) (get_time_property t key)
  | VLocalDateTime t => number_property (unknown key) (get_local_datetime_property t key) integer_from_u64
  | VZonedDateTime t => zoned_property (unknown key) (get_datetime_property t key)
  | VDuration d => number_property (unknown key) (get_duration_property d key) integer_from_i64
  | _ => Ok VNull
  end.

(** A real literal becomes null when it is not finite. *)
Definition evaluate_literal (l : Literal) : outcome EvaluationError VariableValue :=
  match l with
  | LBoolean b => Ok (VBool b)
  | LText t => Ok (VString t)
  | LNull => Ok VNull
  | LDate _ => Ok (VDate EPOCH_NAIVE_DATE)
  | LInteger i => Ok (VInteger (integer_from_i64 i))
  | LReal r => Ok (if f64_is_finite r then VFloat r else VNull)
  | LLocalTime _ => Ok (VLocalTime MIDNIGHT_NAIVE_TIME)
  | LZonedTime _ => Ok (VZonedTime {| zt_time := MIDNIGHT_NAIVE_TIME; zt_offset := UTC_FIXED_OFFSET |})
  | LLocalDateTime _ => Ok (VLocalDateTime (naive_datetime EPOCH_NAIVE_DATE MIDNIGHT_NAIVE_TIME))
  | LZonedDateTime _ =>
      z ← or_error (EvalInvalidType "DateTime")
            (and_local_timezone EPOCH_NAIVE_DATE MIDNIGHT_NAIVE_TIME UTC_FIXED_OFFSET);
      Ok (VZonedDateTime {| zdt_datetime := z; zdt_timezone_name := None |})
  | LDuration _ =>
      d ← or_panic (milliseconds 0);
      Ok (VDuration {| d_duration := d; d_year := 0; d_month := 0 |})
  | LObject o =>
      map ← out_foldl (fun acc e =>
               v ← (match e.2 with
                    | LInteger i => Ok (VInteger (integer_from_i64 i))
                    | LText s => Ok (VString s)
                    | LReal r => if f64_is_finite r then Ok (VFloat r) else Err ParseError
                    | _ => Ok VNull
                    end);
               Ok (bt_insert e.1 v acc)) [] o;
      Ok (VObject map)
  | LExpression e => Ok (VExpression e)
  end.

Definition value_as_i64 (v : VariableValue) : option Z :=
  match v with VInteger n => integer_as_i64 n | _ => None end.

Definition evaluate_bound (ctx : ExpressionEvaluationContext) (e : option Expression) : M RangeBound :=
  match e with
  | Some e => v ← ev ctx e; sm_lift (i ← or_error EvalOverflowError (value_as_i64 v); Ok (BIndex i))
  | None => mret Unbounded
  end.

Definition evaluate_unary_expression (ctx : ExpressionEvaluationContext) (u : UnaryExpression) : M VariableValue :=
  match u with
  | Not e => b ← predicate_of ctx e; mret (VBool (negb b))
  | Exists _ => sm_lift Panic
  | IsNull e => v ← ev ctx e; mret (VBool (is_null v))
  | IsNotNull e => v ← ev ctx e; mret (VBool (negb (is_null v)))
  | Lit l => sm_lift (evaluate_literal l)
  | Property name key =>
      match get_variable name ctx with
      | Some v => sm_lift (value_property UnknownProperty v key)
      | None => mret VNull
      end
  | ExpressionProperty e key => v ← ev ctx e; sm_lift (value_property UnknownFunction v key)
  | Parameter_ p => mret match get_variable p ctx with Some v => v | None => VNull end
  | Variable_ name value => v ← ev ctx value; mret (VObject [(name, v)])
  | Alias source _ => ev ctx source
  | Identifier ident =>
      match get_variable ident ctx with
      | Some v => mret v
      | None => sm_err (UnknownIdentifier ident)
      end
  | UListRange s e =>
      s ← evaluate_bound ctx s;
      e ← evaluate_bound ctx e;
      mret (VListRange {| lr_start := s; lr_end := e |})
  end.

(** The loop of [evaluate_logical_expression] on its stack of operands. *)
Fixpoint logical_loop (fuel : nat) (ctx : ExpressionEvaluationContext) (is_and : bool)
    (operands : list Expression) (result : bool) : M bool :=
  match fuel with
  | 0%nat => sm_lift Panic
  | Datatypes.S fuel =>
      match operands with
      | [] => mret result
      | Binary op l r :: operands =>
          if bool_decide (op = if is_and then And else Or)
          then logical_loop fuel ctx is_and (l :: r :: operands) result
          else
            v ← predicate_of ctx (Binary op l r);
            logical_loop fuel ctx is_and operands (if is_and then result && v else result || v)
      | e :: operands =>
          v ← predicate_of ctx e;
          logical_loop fuel ctx is_and operands (if is_and then result && v else result || v)
      end
  end.

(** The number of steps an operand takes. *)
Fixpoint chain_nodes (op : BinaryOp) (e : Expression) : nat :=
  match e with
  | Binary o a b => if bool_decide (o = op) then Datatypes.S (chain_nodes op a + chain_nodes op b) else 1
  | _ => 1
  end.

Definition evaluate_logical_expression (ctx : ExpressionEvaluationContext) (left right : Expression) (is_and : bool) :
    M VariableValue :=
  let op := if is_and then And else Or in
  b ← logical_loop (Datatypes.S (chain_nodes op left + chain_nodes op right)) ctx is_and [left; right] is_and;
  mret (VBool b).

(** An index expression is evaluated before its list. *)
Definition evaluate_binary_expression (ctx : ExpressionEvaluationContext) (op : BinaryOp) (e1 e2 : Expression) :
    M VariableValue :=
  match op with
  | And => evaluate_logical_expression ctx e1 e2 true
  | Or => evaluate_logical_expression ctx e1 e2 false
  | Index => v2 ← ev ctx e2; v1 ← ev ctx e1; sm_lift (apply_binary Index v1 v2)
  | _ => v1 ← ev ctx e1; v2 ← ev ctx e2; sm_lift (apply_binary op v1 v2)
  end.

Definition evaluate_all (ctx : ExpressionEvaluationContext) (l : list Expression) : M (list VariableValue) :=
  sm_mapM (ev ctx) l.

Definition grouping_values (ctx : ExpressionEvaluationContext) : M (list VariableValue) :=
  match output_grouping_key ctx with
  | Some group_expressions => evaluate_all ctx group_expressions
  | None => mret []
  end.

Definition evaluate_function_expression (ctx : ExpressionEvaluationContext) (name : string)
    (args : list Expression) (position : nat) : M VariableValue :=
  let call := {| call_name := name; call_args := args; position_in_query := position |} in
  match get_function functions name with
  | Some (Scalar f) => values ← evaluate_all ctx args; function_error (f ctx call values)
  | Some (EvaluatingScalar f) => values ← evaluate_all ctx args; function_error (f ev ctx call values)
  | Some (LazyScalar f) => function_error (f ev ctx call)
  | Some (Aggregating f) =>
      values ← evaluate_all ctx args;
      grouping_keys ← grouping_values ctx;
      evaluate_aggregate f position (side_effects ctx) values grouping_keys
  | Some (ContextMutator f) =>
      match args with
      | [] => mret VNull
      | arg :: _ => new_context ← function_error (f ev ctx call); ev new_context arg
      end
  | None => sm_err (UnknownFunction name)
  end.

Fixpoint evaluate_when (ctx : ExpressionEvaluationContext) (match_ : option VariableValue)
    (when : list (Expression * Expression)) : M (option VariableValue) :=
  match when with
  | [] => mret None
  | (condition, result) :: when =>
      b ← (match match_ with
           | Some m => c ← ev ctx condition; sm_lift (or_panic (value_eq c m))
           | None => predicate_of ctx condition
           end);
      if (b : bool) then v ← ev ctx result; mret (Some v) else evaluate_when ctx match_ when
  end.

Definition evaluate_option (ctx : ExpressionEvaluationContext) (e : option Expression) : M (option VariableValue) :=
  match e with Some e => v ← ev ctx e; mret (Some v) | None => mret None end.

Definition evaluate_case_expression (ctx : ExpressionEvaluationContext) (match_ : option Expression)
    (when : list (Expression * Expression)) (else_ : option Expression) : M VariableValue :=
  m ← evaluate_option ctx match_;
  r ← evaluate_when ctx m when;
  match r with
  | Some v => mret v
  | None => e ← evaluate_option ctx else_; mret match e with Some v => v | None => VNull end
  end.

Definition evaluate_list_expression (ctx : ExpressionEvaluationContext) (elements : list Expression) :
    M VariableValue := l ← evaluate_all ctx elements; mret (VList l).

Definition evaluate_object_expression (ctx : ExpressionEvaluationContext) (elements : btree string Expression) :
    M VariableValue :=
  o ← sm_foldl (fun acc e => v ← ev ctx e.2; mret (bt_insert e.1 v acc)) [] elements;
  mret (VObject o).

(** The variables an iterator inserts stay for the items that follow. *)
Definition iterator_item (ctx : ExpressionEvaluationContext) (item_identifier : string)
    (filter map_expression : option Expression) (acc : QueryVariables * list VariableValue)
    (item : VariableValue) : M (QueryVariables * list VariableValue) :=
  let with_item vars := bt_insert item_identifier item vars in
  let '(vars, result) := acc in
  let filtered := match filter with Some _ => with_item vars | None => vars end in
  keep ← (match filter with
          | Some f => predicate_of (new_context filtered (clock ctx)) f
          | None => mret true
          end);
  if (keep : bool) then
    match map_expression with
    | Some m => v ← ev (new_context (with_item filtered) (clock ctx)) m; mret (with_item filtered, result ++ [v])
    | None => mret (filtered, result ++ [item])
    end
  else mret (filtered, result).

Definition evaluate_iterator_expression (ctx : ExpressionEvaluationContext) (item_identifier : string)
    (list_expression : Expression) (filter map_expression : option Expression) : M VariableValue :=
  items ← ev ctx list_expression;
  match items with
  | VList items =>
      r ← sm_foldl (iterator_item ctx item_identifier filter map_expression) (variables ctx, []) items;
      mret (VList r.2)
  | _ => sm_err (EvalInvalidType "List")
  end.

Definition eval_step (ctx : ExpressionEvaluationContext) (e : Expression) : M VariableValue :=
  match e with
  | Unary u => evaluate_unary_expression ctx u
  | Binary op a b => evaluate_binary_expression ctx op a b
  | FunctionExpression name args position => evaluate_function_expression ctx name args position
  | CaseExpression m w e => evaluate_case_expression ctx m w e
  | ListExpression l => evaluate_list_expression ctx l
  | ObjectExpression l => evaluate_object_expression ctx l
  | IteratorExpression i l f m => evaluate_iterator_expression ctx i l f m
  end.

(** [resolve_context_result_key] *)
Definition resolve_context_result_key (ctx : ExpressionEvaluationContext) : M ResultKey :=
  match output_grouping_key ctx with
  | Some group_expressions =>
      l ← evaluate_all (set_side_effects Snapshot ctx) group_expressions; mret (KeyGroupBy l)
  | None => mret (KeyInputHash (input_grouping_hash ctx))
  end.
End level.

(** ** The evaluator *)

Fixpoint evaluate_expression (fuel : nat) (ctx : ExpressionEvaluationContext) (e : Expression) : M VariableValue :=
  match fuel with
  | 0%nat => sm_lift Panic
  | Datatypes.S fuel => eval_step (evaluate_expression fuel) ctx e
  end.

Definition field_alias (e : Expression) : string :=
  match e with
  | Unary u =>
      match u with
      | Property _ key | ExpressionProperty _ key => key
      | Parameter_ p => p
      | Alias _ alias => alias
      | Identifier id => id
      | _ => "expression"
      end
  | Binary _ _ _ => "expression"
  | FunctionExpression name _ _ => name
  | CaseExpression _ _ _ => "case"
  | ListExpression _ => "list"
  | ObjectExpression _ => "object"
  | IteratorExpression _ _ _ _ => "iterator"
  end%string.

Definition expression_evaluator (fuel : nat) : ExpressionEvaluator S := {|
  evaluate_predicate := fun ctx e => predicate_of (evaluate_expression fuel) ctx e;
  evaluate_projection_field := fun ctx e => v ← evaluate_expression fuel ctx e; mret (field_alias e, v) |}.
End expressions.
