(* ===== verification/ExpressionsFacts.v ===== *)
(** * Correctness of the expression evaluator

    Enough fuel, the evaluation of [AND] and [OR] chains, and the behaviour of
    the operators on the pairs of types where they disagree. *)

From S2P Require Import Prelude BTree Floats Hashing Ast Models Errors Values ChronoOps Temporal Operators.
From S2P Require Import ResultIndex LazySortedSet Aggregation Contexts AggregateFacts Expressions.

Section facts.
Context {C : Chrono} {O : ChronoOps} {H : Hashers}.
Context {S : Type} `{!AccumulatorIndex S} `{!LazySortedSetStore S}.
Context (functions : gmap string (Function (S:=S))).

Notation M := (SM S EvaluationError).
Notation Evaluator := (ExpressionEvaluationContext -> Expression -> M VariableValue).

(** ** Pointwise equality of effectful code *)

Lemma sm_bind_ext {E A B} (m1 m2 : SM S E A) (f1 f2 : A -> SM S E B) s :
  m1 s = m2 s -> (forall a s, f1 a s = f2 a s) -> (m1 ≫= f1) s = (m2 ≫= f2) s.
Proof. intros Hm Hf. unfold mbind, SM_bind. rewrite Hm. destruct (m2 s) as [[] ?]; auto. Qed.

Lemma sm_mapM_ext {E A B} (f1 f2 : A -> SM S E B) l s :
  (forall a s, a ∈ l -> f1 a s = f2 a s) -> sm_mapM f1 l s = sm_mapM f2 l s.
Proof.
  revert s. induction l as [|a l IH]; intros s Hf; [done|]. cbn.
  apply sm_bind_ext; [apply Hf; set_solver|]. intros b s'. apply sm_bind_ext; [|done].
  apply IH. intros. apply Hf. set_solver.
Qed.

Lemma sm_foldl_ext {E A B} (f1 f2 : A -> B -> SM S E A) l a s :
  (forall a b s, b ∈ l -> f1 a b s = f2 a b s) -> sm_foldl f1 a l s = sm_foldl f2 a l s.
Proof.
  revert a s. induction l as [|b l IH]; intros a s Hf; [done|]. cbn.
  apply sm_bind_ext; [apply Hf; set_solver|]. intros a' s'. apply IH. intros. apply Hf. set_solver.
Qed.

Lemma sm_map_err_ext {E F A} (f : E -> F) (m1 m2 : SM S E A) s :
  m1 s = m2 s -> sm_map_err f m1 s = sm_map_err f m2 s.
Proof. intros Hm. unfold sm_map_err. by rewrite Hm. Qed.

(** ** Fuel *)

(** The expressions evaluating [e] evaluates in turn. *)
Definition children (e : Expression) : list Expression :=
  match e with
  | Unary u =>
      match u with
      | Not e | Exists e | IsNull e | IsNotNull e | ExpressionProperty e _ | Variable_ _ e | Alias e _ => [e]
      | UListRange s e => option_list s ++ option_list e
      | Lit _ | Property _ _ | Parameter_ _ | Identifier _ => []
      end
  | Binary _ a b => [a; b]
  | FunctionExpression _ args _ => args
  | CaseExpression m w e => option_list m ++ concat (map (fun p => [p.1; p.2]) w) ++ option_list e
  | ListExpression l => l
  | ObjectExpression l => map snd l
  | IteratorExpression _ l f m => l :: option_list f ++ option_list m
  end.

(** Calls of eager functions; those of aggregating functions where [agg]. *)
Definition callable (agg : bool) (e : Expression) : bool :=
  match e with
  | FunctionExpression name _ _ =>
      match get_function functions name with
      | Some (Scalar _) => true
      | Some (Aggregating _) => agg
      | Some _ => false
      | None => true
      end
  | _ => true
  end.

(** [e] nests at most [n] deep. *)
Fixpoint fits (n : nat) (agg : bool) (e : Expression) : bool :=
  match n with
  | 0%nat => false
  | Datatypes.S n => callable agg e && forallb (fits n agg) (children e)
  end.

Lemma fits_mono n m agg e : (n <= m)%nat -> fits n agg e = true -> fits m agg e = true.
Proof.
  revert m e. induction n as [|n IH]; intros [|m] e Hnm; cbn; try done; [lia|].
  intros [-> Hf]%andb_prop. cbn. rewrite forallb_forall in Hf |- *. intros c Hc. apply IH; [lia|auto].
Qed.

Definition agree (ev1 ev2 : Evaluator) (ctx : ExpressionEvaluationContext) (e : Expression) : Prop :=
  forall s, ev1 ctx e s = ev2 ctx e s.

Section step.
Context (ev1 ev2 : Evaluator).

Lemma predicate_of_ext ctx e s : agree ev1 ev2 ctx e -> predicate_of ev1 ctx e s = predicate_of ev2 ctx e s.
Proof. intros He. by apply sm_bind_ext. Qed.

Lemma evaluate_option_ext ctx e s :
  (forall c, c ∈ option_list e -> agree ev1 ev2 ctx c) -> evaluate_option ev1 ctx e s = evaluate_option ev2 ctx e s.
Proof. intros He. destruct e as [e|]; [|done]. apply sm_bind_ext; [apply He; set_solver|done]. Qed.

Lemma evaluate_bound_ext ctx e s :
  (forall c, c ∈ option_list e -> agree ev1 ev2 ctx c) -> evaluate_bound ev1 ctx e s = evaluate_bound ev2 ctx e s.
Proof. intros He. destruct e as [e|]; [|done]. apply sm_bind_ext; [apply He; set_solver|done]. Qed.

Lemma evaluate_when_ext ctx m w s :
  (forall c, c ∈ concat (map (fun p => [p.1; p.2]) w) -> agree ev1 ev2 ctx c) ->
  evaluate_when ev1 ctx m w s = evaluate_when ev2 ctx m w s.
Proof.
  revert s. induction w as [|[c r] w IH]; intros s Hw; [done|]. cbn in Hw |- *.
  apply sm_bind_ext.
  - destruct m; [apply sm_bind_ext; [apply Hw; set_solver|done]|apply predicate_of_ext, Hw; set_solver].
  - intros [] s'; [apply sm_bind_ext; [apply Hw; set_solver|done]|]. apply IH. intros. apply Hw. set_solver.
Qed.

Lemma iterator_item_ext ctx i f m acc item s :
  (forall vars c, c ∈ option_list f ++ option_list m -> agree ev1 ev2 (new_context vars (clock ctx)) c) ->
  iterator_item ev1 ctx i f m acc item s = iterator_item ev2 ctx i f m acc item s.
Proof.
  intros Ha. unfold iterator_item. destruct acc as [vars result]. apply sm_bind_ext.
  - destruct f; [|done]. apply predicate_of_ext, Ha. set_solver.
  - intros [] s'; [|done]. destruct m; [|done]. apply sm_bind_ext; [apply Ha; set_solver|done].
Qed.

(** The leaves of a chain nest no deeper than the chain. *)
Lemma logical_loop_ext fuel ctx is_and n agg operands b s :
  (forall e, fits n agg e = true -> agree ev1 ev2 ctx e) ->
  Forall (fun e => fits n agg e = true) operands ->
  logical_loop ev1 fuel ctx is_and operands b s = logical_loop ev2 fuel ctx is_and operands b s.
Proof.
  intros Ha. revert operands b s. induction fuel as [|fuel IH]; intros operands b s Ho; [done|].
  destruct Ho as [|e operands He Ho]; [done|]. cbn [logical_loop].
  assert (Hleaf : (v ← predicate_of ev1 ctx e;
     logical_loop ev1 fuel ctx is_and operands (if is_and then b && v else b || v)) s =
    (v ← predicate_of ev2 ctx e;
     logical_loop ev2 fuel ctx is_and operands (if is_and then b && v else b || v)) s).
  { apply sm_bind_ext; [by apply predicate_of_ext, Ha|]. intros v s'. by apply IH. }
  destruct e as [| op l r | | | | |]; try done.
  destruct (bool_decide _); [|done]. apply IH.
  destruct n as [|n]; [done|]. cbn in He. repeat apply andb_prop in He as [? He].
  repeat constructor; [..|done]; eapply fits_mono; try eassumption; lia.
Qed.

Definition local_context (ctx ctx' : ExpressionEvaluationContext) : Prop :=
  ctx' = ctx \/ exists vars, ctx' = new_context vars (clock ctx).

Lemma eval_step_ext n agg ctx e s :
  fits (Datatypes.S n) agg e = true ->
  (forall ctx' e', local_context ctx ctx' -> fits n agg e' = true -> agree ev1 ev2 ctx' e') ->
  (agg = true -> forall l g, output_grouping_key ctx = Some l -> g ∈ l -> agree ev1 ev2 ctx g) ->
  eval_step functions ev1 ctx e s = eval_step functions ev2 ctx e s.
Proof.
  intros [Hcall Hch]%andb_prop Ha Hg.
  assert (Hc : forall c, c ∈ children e -> agree ev1 ev2 ctx c).
  { intros c Hc. apply Ha; [by left|]. rewrite forallb_forall in Hch. apply Hch. by apply list_elem_of_In. }
  assert (Hall : forall l s, (forall c, c ∈ l -> agree ev1 ev2 ctx c) ->
            evaluate_all ev1 ctx l s = evaluate_all ev2 ctx l s).
  { intros l s' Hl. apply sm_mapM_ext. intros. by apply Hl. }
  destruct e as [u|op a b|name args pos|m w el|l|l|i l f m]; cbn [eval_step].
  - destruct u; cbn in Hc |- *; try done;
      try (apply sm_bind_ext; [first [apply predicate_of_ext|idtac]; apply Hc; set_solver|done]).
    + apply Hc. set_solver.
    + apply sm_bind_ext; [apply evaluate_bound_ext; set_solver|]. intros a s'.
      apply sm_bind_ext; [apply evaluate_bound_ext; set_solver|done].
  - assert (Hlog : forall is_and, evaluate_logical_expression ev1 ctx a b is_and s =
                              evaluate_logical_expression ev2 ctx a b is_and s).
    { intros is_and. apply sm_bind_ext; [|done]. apply (logical_loop_ext _ _ _ n agg).
      - intros. apply Ha; [by left|done].
      - cbn in Hch. repeat apply andb_prop in Hch as [? Hch]. by repeat constructor. }
    assert (Ha' : agree ev1 ev2 ctx a) by (apply Hc; set_solver).
    assert (Hb' : agree ev1 ev2 ctx b) by (apply Hc; set_solver).
    destruct op; cbn [evaluate_binary_expression]; try apply Hlog; 
      (apply sm_bind_ext; [first [apply Ha' | apply Hb']|]; intros v s'; apply sm_bind_ext; [first [apply Ha' | apply Hb']|done]).
  - unfold evaluate_function_expression. cbn in Hcall. destruct (get_function functions name) as [[]|]; try done.
    + apply sm_bind_ext; [by apply Hall|done].
    + apply sm_bind_ext; [by apply Hall|]. intros vs s'. apply sm_bind_ext; [|done].
      unfold grouping_values. destruct (output_grouping_key ctx) as [l|] eqn:Hl; [|done].
      apply Hall. intros g. by apply Hg.
  - cbn in Hc. apply sm_bind_ext; [apply evaluate_option_ext; set_solver|]. intros v s'.
    apply sm_bind_ext; [apply evaluate_when_ext; set_solver|]. intros [r|] s''; [done|].
    apply sm_bind_ext; [apply evaluate_option_ext; set_solver|done].
  - apply sm_bind_ext; [by apply Hall|done].
  - apply sm_bind_ext; [|done]. apply sm_foldl_ext. intros acc e s' He. apply sm_bind_ext; [|done].
    apply Hc. cbn. apply list_elem_of_fmap. eauto.
  - cbn in Hc. apply sm_bind_ext; [apply Hc; set_solver|]. intros v s'. destruct v; try done.
    apply sm_bind_ext; [|done]. apply sm_foldl_ext. intros acc item s'' _. apply iterator_item_ext.
    intros vars c Hcm. apply Ha; [right; eauto|]. rewrite forallb_forall in Hch. apply Hch.
    apply list_elem_of_In. cbn. set_solver.
Qed.
End step.

Lemma evaluate_fuel_flat n ctx e :
  fits n false e = true -> forall m1 m2, (n <= m1)%nat -> (n <= m2)%nat ->
  agree (evaluate_expression functions m1) (evaluate_expression functions m2) ctx e.
Proof.
  revert ctx e. induction n as [|n IH]; intros ctx e Hf; [done|].
  intros [|m1] [|m2] H1 H2 s; try lia. cbn [evaluate_expression].
  apply (eval_step_ext _ _ n false); [done| |done].
  intros ctx' e' _ Hf'. apply IH; [done|lia|lia].
Qed.

Lemma evaluate_fuel n k agg ctx e :
  fits n agg e = true ->
  (agg = true -> forall l g, output_grouping_key ctx = Some l -> g ∈ l -> fits k false g = true) ->
  forall m1 m2, (n + k <= m1)%nat -> (n + k <= m2)%nat ->
  agree (evaluate_expression functions m1) (evaluate_expression functions m2) ctx e.
Proof.
  revert ctx e. induction n as [|n IH]; intros ctx e; [done|].
  intros Hf Hg [|m1] [|m2] H1 H2 s; try lia. cbn [evaluate_expression].
  apply (eval_step_ext _ _ n agg); [done| |].
  - intros ctx' e' Hctx Hf'. apply IH; [done| |lia|lia].
    destruct Hctx as [->|[vars ->]]; [done|]. by cbn.
  - intros Ha l g Hl Hgl. apply (evaluate_fuel_flat k); [by eapply Hg|lia|lia].
Qed.
(** ** Chains of [AND] and [OR] *)

(** The operands of a chain, left to right. *)
Fixpoint chain (op : BinaryOp) (e : Expression) : list Expression :=
  match e with
  | Binary o a b => if bool_decide (o = op) then chain op a ++ chain op b else [e]
  | _ => [e]
  end.

Definition logical_op (is_and : bool) : BinaryOp := if is_and then And else Or.

(** Every operand is evaluated, whatever the others give. *)
Definition fold_predicates (ev : Evaluator) (ctx : ExpressionEvaluationContext) (is_and b : bool)
    (operands : list Expression) : M bool :=
  sm_foldl (fun b e => v ← predicate_of (S:=S) ev ctx e; mret (if is_and then b && v else b || v)) b operands.

Lemma chain_nodes_pos op e : (1 <= chain_nodes op e)%nat.
Proof. destruct e; cbn; try lia. case_bool_decide; lia. Qed.

Definition is_leaf (op : BinaryOp) (e : Expression) : Prop :=
  match e with Binary o _ _ => o <> op | _ => True end.

Lemma chain_cases op e : is_leaf op e /\ chain op e = [e] \/ exists l r, e = Binary op l r.
Proof.
  destruct e as [|o l r| | | | |]; try (by left). cbn. case_bool_decide as Ho; [right|by left].
  subst. by exists l, r.
Qed.

Lemma logical_loop_leaf (ev : Evaluator) fuel ctx is_and e operands b s :
  is_leaf (logical_op is_and) e ->
  logical_loop ev (Datatypes.S fuel) ctx is_and (e :: operands) b s =
  (v ← predicate_of (S:=S) ev ctx e; logical_loop ev fuel ctx is_and operands (if is_and then b && v else b || v)) s.
Proof.
  destruct e as [|op l r| | | | |]; try done. cbn [logical_loop is_leaf].
  fold (logical_op is_and). by case_bool_decide.
Qed.

Definition chains_nodes (op : BinaryOp) (l : list Expression) : nat := list_sum (map (chain_nodes op) l).

Lemma logical_loop_chain (ev : Evaluator) fuel ctx is_and operands b s :
  (chains_nodes (logical_op is_and) operands < fuel)%nat ->
  logical_loop ev fuel ctx is_and operands b s =
  fold_predicates ev ctx is_and b (concat (map (chain (logical_op is_and)) operands)) s.
Proof.
  revert operands b s. induction fuel as [|fuel IH]; intros operands b s Hf; [lia|].
  destruct operands as [|e operands]; [done|]. unfold chains_nodes in *. cbn [map list_sum foldr] in Hf.
  pose proof (chain_nodes_pos (logical_op is_and) e).
  destruct (chain_cases (logical_op is_and) e) as [[Hleaf Hc]|(l & r & ->)].
  - rewrite logical_loop_leaf by done. cbn [map concat]. rewrite Hc. unfold fold_predicates.
    cbn [app sm_foldl]. unfold mbind, SM_bind. destruct (predicate_of ev ctx e s) as [[v| |] s']; [|done|done].
    apply IH. unfold list_sum in *. lia.
  - cbn [logical_loop chain_nodes chain map concat] in *. fold (logical_op is_and).
    rewrite !bool_decide_true in * by done. rewrite IH by (cbn [map list_sum foldr]; unfold list_sum in *; lia).
    cbn [map concat]. by rewrite <- app_assoc.
Qed.

Lemma evaluate_logical_chain (ev : Evaluator) ctx l r is_and s :
  evaluate_logical_expression ev ctx l r is_and s =
  (b ← fold_predicates ev ctx is_and is_and (chain (logical_op is_and) l ++ chain (logical_op is_and) r);
   mret (VBool b)) s.
Proof.
  unfold evaluate_logical_expression. apply sm_bind_ext; [|done].
  rewrite logical_loop_chain by (unfold chains_nodes; cbn [map list_sum foldr]; fold (logical_op is_and); lia).
  cbn [map concat]. by rewrite app_nil_r.
Qed.
End facts.

(** ** The properties *)

Section properties.
Context {C : Chrono} {O : ChronoOps} {H : Hashers}.


(** The loop on the operand stack evaluates a chain of [AND] or [OR] like the
    recursion it replaces: every operand once, left to right, none skipped, the
    first error ending it, and the results folded. *)
Theorem logical_chain_eager {S : Type} `{!AccumulatorIndex S} `{!LazySortedSetStore S}
    (ev : ExpressionEvaluationContext -> Expression -> SM S EvaluationError VariableValue) ctx l r is_and (s : S) :
  evaluate_logical_expression ev ctx l r is_and s =
  (b ← fold_predicates ev ctx is_and is_and (chain (logical_op is_and) l ++ chain (logical_op is_and) r);
   mret (VBool b)) s.
Proof. apply evaluate_logical_chain. Qed.

Lemma f64_ltb_leb a b : f64_ltb a b = true -> f64_leb a b = true.
Proof. unfold f64_ltb, f64_leb, SpecFloat.SFltb, SpecFloat.SFleb. by destruct (SpecFloat.SFcompare a b) as [[]|]. Qed.

Lemma cmp_holds_lt_le c : cmp_holds OpLt c = true -> cmp_holds OpLe c = true.
Proof. by destruct c. Qed.

(** [<] implies [<=] on every pair of values. *)
Theorem lt_implies_le v1 v2 : op_lt v1 v2 = Ok true -> op_le v1 v2 = Ok true.
Proof.
  assert (Hz : forall e t o (f g : FixedDateTime -> outcome EvaluationError bool),
    (forall z, f z = Ok true -> g z = Ok true) -> (z ← zoned_on_epoch e t o; f z) = Ok true ->
    forall e', (z ← zoned_on_epoch e' t o; g z) = Ok true).
  { intros e t o f g Hfg Hf e'. unfold zoned_on_epoch in *. destruct (and_local_timezone _ _ _); [by apply Hfg|done]. }
  assert (Hd : forall d (f g : TimeDelta -> outcome EvaluationError bool),
    (forall z, f z = Ok true -> g z = Ok true) -> (z ← duration_length d; f z) = Ok true ->
    (z ← duration_length d; g z) = Ok true).
  { intros d f g Hfg Hf. destruct (duration_length d); [by apply Hfg|done|done]. }
  assert (Hok : forall b b' : bool, (b = true -> b' = true) -> Ok (E:=EvaluationError) b = Ok true -> Ok (E:=EvaluationError) b' = Ok true).
  { intros b b' Hb [= ->]. by rewrite Hb. }
  unfold op_lt, op_le. destruct v1, v2; try done; cbn [op_compare];
    try (apply Hok; first [apply f64_ltb_leb|apply cmp_holds_lt_le]);
    intros Hlt; first [eapply Hz; [|exact Hlt]|eapply Hd; [|exact Hlt]]; cbn beta; intros z Hlt';
    try first [eapply Hz; [|exact Hlt']|eapply Hd; [|exact Hlt']]; cbn beta;
    first [intros z' Hlt''; revert Hlt''|revert Hlt']; apply Hok, cmp_holds_lt_le.
Qed.

(** Above that the orders come apart: a date later than a zoned instant is
    [>] it and not [>=] it, because [>=] has no rule for the pair. *)
Theorem date_gt_without_ge d z :
  fixed_cmp (and_utc (at_midnight d)) (zdt_datetime z) = Gt ->
  op_gt (VDate d) (VZonedDateTime z) = Ok true /\ op_ge (VDate d) (VZonedDateTime z) = Ok false.
Proof. intros Hc. unfold op_gt, op_ge. cbn. by rewrite Hc. Qed.

(** An integer and the float of the same value are neither [=] nor [<>]. *)
Theorem eq_ne_both_false n x i :
  integer_as_i64 n = Some i -> f64_eqb x (f64_of_Z i) = true ->
  op_eq (VInteger n) (VFloat x) = Ok false /\ op_ne (VInteger n) (VFloat x) = Ok false.
Proof. intros Hn Hx. cbn. rewrite Hn. cbn. by rewrite Hx. Qed.

(** A negative start of a list range does not count from the end: [l[-k..]]
    drops [k + 1] elements from the front, and panics when there are fewer. *)
Theorem negative_range_start l k :
  0 < k < 2 ^ 62 -> Z.of_nat (length l) < 2 ^ 62 ->
  op_index (VList l) (VListRange {| lr_start := BIndex (- k); lr_end := Unbounded |}) =
  if k + 1 <=? Z.of_nat (length l) then Ok (VList (drop (Z.to_nat (k + 1)) l)) else Panic.
Proof.
  intros Hk Hl. unfold op_index. cbn [as_array mbind outcome_bind start_bound end_bound lr_start lr_end].
  replace (- k <? 0) with true by (symmetry; apply Z.ltb_lt; lia).
  replace (Z.abs (- k)) with k by lia. rewrite as_i64_small by (unfold i64_ok, i64_min, i64_max; lia).
  unfold slice. rewrite !as_u64_small by (unfold u64_ok, u64_max; lia). rewrite Z.leb_refl, andb_true_r.
  destruct (Z.leb_spec (k + 1) (Z.of_nat (length l))); [|done]. cbn. f_equal. f_equal.
  apply take_ge. rewrite length_drop. lia.
Qed.

(** An index before the start of a list panics, and so does the remainder
    by zero. *)
Theorem negative_index_and_zero_modulus_panic l n a b i :
  integer_as_i64 n = Some i -> i64_min <= i < - Z.of_nat (length l) -> Z.of_nat (length l) < 2 ^ 62 -> int_or_zero b = 0 ->
  op_index (VList l) (VInteger n) = Panic /\ op_modulo (VInteger a) (VInteger b) = Panic.
Proof.
  intros Hn Hi Hl Hb. split.
  - unfold op_index. cbn [as_array mbind outcome_bind]. rewrite Hn. cbn [or_error mbind outcome_bind].
    replace (Z.of_nat (length l) <=? i) with false by (symmetry; apply Z.leb_gt; lia).
    replace (i <? 0) with true by (symmetry; apply Z.ltb_lt; lia).
    rewrite lookup_ge_None_2; [done|].
    unfold as_u64, i64_min in *. rewrite <- (Z.mod_add _ 1 (2 ^ 64)) by lia. rewrite Z.mod_small by lia. lia.
  - unfold op_modulo, op_numeric. cbn. by rewrite Hb.
Qed.
End properties.

(** ** Instances *)

Section samples.
#[local] Existing Instance Sample.hashers.
#[local] Existing Instance Sample.chrono.
#[local] Existing Instance SampleOps.ops.

Definition one : VariableValue := VInteger (integer_from_i64 1).

(** count($v), grouped by $g *)
Definition grouped_call : Expression := FunctionExpression "count" [Unary (Parameter_ "v")] 1.
Definition grouped_context : ExpressionEvaluationContext :=
  set_output_grouping_key [Unary (Parameter_ "g")]
    (new_context [("g"%string, one); ("v"%string, one)] {| transaction_time := 0; realtime := 0 |}).


Lemma lt_implies_le_witness : op_le (VInteger (integer_from_i64 1)) (VFloat (f64_of_Z 2)) = Ok true.
Proof. apply lt_implies_le. reflexivity. Defined.

Lemma date_gt_without_ge_witness :
  op_gt (VDate (2 : NaiveDate)) (VZonedDateTime {| zdt_datetime := (5 : FixedDateTime); zdt_timezone_name := None |}) = Ok true /\
  op_ge (VDate (2 : NaiveDate)) (VZonedDateTime {| zdt_datetime := (5 : FixedDateTime); zdt_timezone_name := None |}) = Ok false.
Proof. apply date_gt_without_ge. reflexivity. Defined.

Lemma eq_ne_both_false_witness :
  op_eq (VInteger (PosInt 1)) (VFloat (f64_of_Z 1)) = Ok false /\ op_ne (VInteger (PosInt 1)) (VFloat (f64_of_Z 1)) = Ok false.
Proof. apply (eq_ne_both_false (PosInt 1) (f64_of_Z 1) 1); reflexivity. Defined.

Lemma negative_range_start_witness :
  op_index (VList [one; one; one]) (VListRange {| lr_start := BIndex (- 1); lr_end := Unbounded |}) = Ok (VList [one]) /\
  op_index (VList [one; one; one]) (VListRange {| lr_start := BIndex (- 3); lr_end := Unbounded |}) = Panic.
Proof.
  split.
  - exact (negative_range_start [one; one; one] 1 ltac:(lia) ltac:(cbn; lia)).
  - exact (negative_range_start [one; one; one] 3 ltac:(lia) ltac:(cbn; lia)).
Defined.

Lemma negative_index_and_zero_modulus_panic_witness :
  op_index (VList [one]) (VInteger (NegInt (- 2))) = Panic /\ op_modulo (VInteger (PosInt 1)) (VInteger (PosInt 0)) = Panic.
Proof.
  apply (negative_index_and_zero_modulus_panic [one] (NegInt (- 2)) (PosInt 1) (PosInt 0) (- 2)).
  - reflexivity.
  - vm_compute. split; [discriminate|reflexivity].
  - reflexivity.
  - reflexivity.
Defined.
End samples.
