(* ===== verification/PartsFacts.v ===== *)
(** * Correctness of the query parts

    A part without aggregation is a view: it maps a row to its projection, or
    to nothing where a filter rejects it. Evaluating a change of its input is
    the change of the view. *)

From S2P Require Import Prelude BTree Floats Hashing Ast Models Errors Values ResultIndex Contexts Parts ChronoOps.
From S2P Require Import Temporal Operators LazySortedSet Aggregation AggregateFacts Expressions ExpressionsFacts.

(** ** Row changes *)

Section changes.
Context {C : Chrono}.

(** The change from one optional row to another. *)
Definition change_of (before after : option QueryVariables) : QueryPartEvaluationContext :=
  match before, after with
  | Some b, Some a => Updating b a 0
  | Some b, None => Removing b 0
  | None, Some a => Adding a 0
  | None, None => Noop
  end.

Definition before_row (c : QueryPartEvaluationContext) : option QueryVariables :=
  match c with Updating b _ _ | Removing b _ => Some b | _ => None end.
Definition after_row (c : QueryPartEvaluationContext) : option QueryVariables :=
  match c with Updating _ a _ | Adding a _ => Some a | _ => None end.

Definition is_row_change (c : QueryPartEvaluationContext) : Prop :=
  match c with Aggregation _ _ _ _ _ _ => False | _ => True end.

(** The rows of a change are in a domain. *)
Definition rows_in (dom : QueryVariables -> Prop) (c : QueryPartEvaluationContext) : Prop :=
  (forall r, before_row c = Some r -> dom r) /\ (forall r, after_row c = Some r -> dom r).

(** A change turns one bag of rows into another. *)
Definition transforms (c : QueryPartEvaluationContext) (R R' : list QueryVariables) : Prop :=
  is_row_change c /\
  exists rest, R ≡ₚ option_list (before_row c) ++ rest /\ R' ≡ₚ option_list (after_row c) ++ rest.

Lemma transforms_change_of b a R R' rest :
  R ≡ₚ option_list b ++ rest -> R' ≡ₚ option_list a ++ rest -> transforms (change_of b a) R R'.
Proof. intros HR HR'. by destruct b, a; split; try done; exists rest. Qed.

#[global] Instance transforms_proper c : Proper ((≡ₚ) ==> (≡ₚ) ==> iff) (transforms c).
Proof.
  intros R1 R2 HR S1 S2 HS. unfold transforms. split; intros (Hc & rest & Hb & Ha); (split; [done|]);
    exists rest; [by rewrite <- HR, <- HS|by rewrite HR, HS].
Qed.

Lemma omap_permutation {A B} (f : A -> option B) l1 l2 : l1 ≡ₚ l2 -> omap f l1 ≡ₚ omap f l2.
Proof. intros ->. done. Qed.

Lemma omap_option_list {A B} (f : A -> option B) (o : option A) : omap f (option_list o) = option_list (o ≫= f).
Proof. destruct o as [a|]; cbn; [|done]. by destruct (f a). Qed.

(** The change of a view maintains the view. *)
Lemma transforms_view (view : QueryVariables -> option QueryVariables) c R R' :
  transforms c R R' -> transforms (change_of (before_row c ≫= view) (after_row c ≫= view)) (omap view R) (omap view R').
Proof.
  intros (_ & rest & HR & HR'). apply (transforms_change_of _ _ _ _ (omap view rest)).
  - rewrite HR, omap_app. by rewrite omap_option_list.
  - rewrite HR', omap_app. by rewrite omap_option_list.
Qed.
End changes.

(** ** Parts whose expressions only read the row *)

Section view.
Context {C : Chrono} {H : Hashers} {S : Type} `{!AccumulatorIndex S} {EE : ExpressionEvaluator S}.
Context (dom : QueryVariables -> Prop) (holds : QueryVariables -> Expression -> bool)
        (field : QueryVariables -> Expression -> string * VariableValue).

(** The expressions of the part evaluate to functions of the row, on the rows
    of [dom]. *)
Definition reads_row (part : QueryPart) (es : list Expression) : Prop :=
  return_clause part = Item es /\
  (forall e, e ∈ where_clauses part -> forall ctx s, dom (variables ctx) -> evaluate_predicate ctx e s = (Ok (holds (variables ctx) e), s)) /\
  (forall e, e ∈ es -> forall ctx s, dom (variables ctx) -> evaluate_projection_field ctx e s = (Ok (field (variables ctx) e), s)).

Definition projection (es : list Expression) (row : QueryVariables) : QueryVariables :=
  fold_left (fun acc e => bt_insert (field row e).1 (field row e).2 acc) es [].

Definition part_view (part : QueryPart) (row : QueryVariables) : option QueryVariables :=
  if forallb (holds row) (where_clauses part)
  then Some (projection match return_clause part with Item es => es | GroupBy _ _ => [] end row) else None.

Lemma where_pass_pure (part : QueryPart) es ctx s :
  reads_row part es -> dom (variables ctx) ->
  where_pass ctx (where_clauses part) s = (Ok (forallb (holds (variables ctx)) (where_clauses part)), s).
Proof.
  intros (_ & Hp & _) Hd. induction (where_clauses part) as [|f l IH]; [done|].
  cbn. unfold mbind, SM_bind. rewrite Hp by set_solver.
  destruct (holds _ f); cbn; [|done]. apply IH. set_solver.
Qed.

Lemma fields_pure ctx es s acc keys :
  (forall e, e ∈ es -> forall s, evaluate_projection_field ctx e s = (Ok (field (variables ctx) e), s)) ->
  sm_foldl (project_field ctx) (acc, keys) es s =
  (Ok (fold_left (fun acc e => bt_insert (field (variables ctx) e).1 (field (variables ctx) e).2 acc) es acc,
       keys ++ map (fun e => (field (variables ctx) e).1) es), s).
Proof.
  intros Hf. revert acc keys. induction es as [|e es IH]; intros acc keys; cbn; [by rewrite app_nil_r|].
  erewrite sm_bind_ok by (unfold project_field; erewrite sm_bind_ok by (apply Hf; set_solver); reflexivity).
  cbn. rewrite IH by set_solver. by rewrite <- app_assoc.
Qed.

Lemma project_pure (part : QueryPart) es ctx s :
  reads_row part es -> dom (variables ctx) ->
  project ctx (return_clause part) s = (Ok (projection es (variables ctx), []), s).
Proof.
  intros (-> & _ & Hf) Hd. unfold project. erewrite sm_bind_ok; [|apply fields_pure; auto]. reflexivity.
Qed.

Lemma when_aggregating_row part m :
  is_return_aggregating part = false -> when_aggregating part m = mret (M:=SM S EvaluationError) None.
Proof. unfold when_aggregating. by intros ->. Qed.

(** Whether the part looks at the change: an update of a row that stays the
    same is dropped. *)
Definition skipped (cc : ChangeContext) (c : QueryPartEvaluationContext) : outcome EvaluationError bool :=
  match c with
  | Updating b a _ => u ← query_variables_unchanged b a; Ok ((u : bool) && negb (is_future_reprocess cc))
  | _ => Ok false
  end.

(** Proves that the row of a context is in the domain. *)
Ltac on_row := first [assumption | match goal with Hd : forall r, Some _ = Some r -> _ |- _ => exact (Hd _ eq_refl) end
                     | match goal with Hd : forall r, after_row _ = Some r -> _ |- _ => exact (Hd _ eq_refl) end
                     | match goal with Hd : forall r, before_row _ = Some r -> _ |- _ => exact (Hd _ eq_refl) end
                     | match goal with Hv : variables _ = _ |- _ => rewrite Hv; assumption end].

Lemma evaluate_row_part n (part : QueryPart) es cc c s :
  reads_row part es -> is_row_change c -> rows_in dom c ->
  evaluate n part cc c s =
  (u ← skipped cc c;
   Ok [if u : bool then Noop
       else change_of (before_row c ≫= part_view part) (after_row c ≫= part_view part)], s).
Proof.
  intros Hp Hc [Hdb Hda]. pose proof (fun ctx s => where_pass_pure part es ctx s Hp) as Hw.
  pose proof (fun ctx s => project_pure part es ctx s Hp) as Hpr.
  assert (Hes : return_clause part = Item es) by apply Hp.
  assert (Hagg : is_return_aggregating part = false) by (unfold is_return_aggregating; by rewrite Hes).
  assert (Hview : forall row, part_view part row =
            if forallb (holds row) (where_clauses part) then Some (projection es row) else None).
  { intros row. unfold part_view. by rewrite Hes. }
  unfold evaluate. destruct c as [a g|b a g|b g| |]; [| | |done|done]; cbn [before_row after_row skipped].
  - unfold evaluate_adding. rewrite (when_aggregating_row _ _ Hagg), Hagg, sm_bind_ret_l.
    erewrite sm_bind_ok by (apply Hw; on_row). cbn [variables from_after_change mbind option_bind outcome_bind].
    rewrite Hview. destruct (forallb _ _); [|done].
    by erewrite sm_bind_ok by (apply Hpr; on_row).
  - unfold evaluate_updating. rewrite sm_bind_lift.
    destruct (query_variables_unchanged b a) as [u| |]; [|done|done].
    rewrite !out_bind_ok. destruct (u && _); [done|].
    rewrite (when_aggregating_row _ _ Hagg), Hagg, sm_bind_ret_l.
    erewrite sm_bind_ok by (apply Hw; on_row). cbn [variables from_before_change].
    cbn [option_bind mbind]. rewrite !Hview.
    destruct (forallb (holds b) _).
    + erewrite sm_bind_ok.
      2:{ erewrite sm_bind_ok by (apply Hpr; on_row). erewrite sm_bind_ok by (apply Hpr; on_row). reflexivity. }
      cbv beta iota zeta. erewrite sm_bind_ok by (apply Hw; on_row). cbn [variables from_after_change]. destruct (forallb (holds a) _); [|done].
      by erewrite sm_bind_ok by (apply Hpr; on_row).
    + rewrite sm_bind_ret_l. cbv beta iota zeta. erewrite sm_bind_ok by (apply Hw; on_row).
      cbn [variables from_after_change]. destruct (forallb (holds a) _); [|done].
      by erewrite sm_bind_ok by (apply Hpr; on_row).
  - unfold evaluate_removing. rewrite (when_aggregating_row _ _ Hagg), Hagg, sm_bind_ret_l.
    erewrite sm_bind_ok by (apply Hw; on_row). cbn [variables from_before_change mbind option_bind outcome_bind].
    rewrite Hview. destruct (forallb _ _); [|done].
    by erewrite sm_bind_ok by (apply Hpr; on_row).
Qed.
(** The answer of a row part to the change of a group. *)
Definition row_answer (part : QueryPart) (before : option QueryVariables) (after : QueryVariables)
    (should_revert should_apply : bool) : QueryPartEvaluationContext :=
  match part_view part after with
  | Some a =>
      change_of (if should_revert then before ≫= part_view part else None)
                (if should_apply then Some a else None)
  | None => change_of (before ≫= part_view part) None
  end.

Lemma revert_contribution_row (part : QueryPart) es cc before rv s :
  reads_row part es -> (forall b, before = Some b -> dom b) -> (before = None -> rv = false) ->
  revert_contribution part cc before rv s =
  (Ok (match before with Some b => negb (forallb (holds b) (where_clauses part)) | None => false end,
       match before with
       | Some b => if forallb (holds b) (where_clauses part) && rv then Some (projection es b, []) else None
       | None => None
       end), s).
Proof.
  intros Hp Hdb Hrv. destruct before as [b|]; [|done]. specialize (Hdb b eq_refl). unfold revert_contribution.
  erewrite sm_bind_ok by (eapply where_pass_pure; [exact Hp|exact Hdb]). cbn [variables from_before_change].
  destruct (forallb _ _), rv; cbn [andb negb]; try done.
  by erewrite sm_bind_ok by (eapply project_pure; [exact Hp|exact Hdb]).
Qed.

Lemma evaluate_aggregation_row n (part : QueryPart) es cc before after keys db da s :
  reads_row part es -> (forall b, before = Some b -> dom b) -> dom after ->
  evaluate n part cc (Aggregation before after keys db da 0) s =
  match unchanged_aggregation cc before after db da with
  | Ok true => (Ok [Noop], s)
  | Ok false =>
      match reconcile_contribution n before after keys db da s with
      | (Ok (should_revert, should_apply), s') => (Ok [row_answer part before after should_revert should_apply], s')
      | (Err e, s') => (Err e, s')
      | (Panic, s') => (Panic, s')
      end
  | Err e => (Err e, s)
  | Panic => (Panic, s)
  end.
Proof.
  intros Hp Hdb Hda. pose proof (fun ctx s => where_pass_pure part es ctx s Hp) as Hw.
  pose proof (fun ctx s => project_pure part es ctx s Hp) as Hpr.
  assert (Hes : return_clause part = Item es) by apply Hp.
  assert (Hagg : is_return_aggregating part = false) by (unfold is_return_aggregating; by rewrite Hes).
  assert (Hview : forall row, part_view part row =
            if forallb (holds row) (where_clauses part) then Some (projection es row) else None).
  { intros row. unfold part_view. by rewrite Hes. }
  unfold evaluate, evaluate_aggregation. rewrite sm_bind_lift.
  destruct (unchanged_aggregation _ _ _ _ _) as [[]| |]; [done| |done|done].
  unfold mbind at 1, SM_bind at 1.
  destruct (reconcile_contribution n before after keys db da s) as [[[rv ap]|e|] s'] eqn:Hr; [|done|done].
  rewrite (when_aggregating_row _ _ Hagg), Hagg, sm_bind_ret_l. unfold row_answer.
  assert (Hctx : variables (if ap then from_after_change after cc part
                  else set_side_effects Snapshot (from_after_change after cc part)) = after) by by destruct ap.
  rewrite Hview. destruct before as [b|].
  - erewrite sm_bind_ok by (erewrite sm_bind_ok by (apply Hpr; on_row); reflexivity).
    cbn [mbind option_bind]. rewrite Hview.
    erewrite sm_bind_ok by by (apply (revert_contribution_row part es)).
    cbv beta iota zeta. erewrite sm_bind_ok by (apply Hw; on_row). rewrite Hctx. cbn [fst].
    destruct (forallb (holds after) _).
    + erewrite sm_bind_ok by (apply Hpr; on_row). rewrite Hctx.
      by destruct (forallb (holds b) _), rv, ap.
    + by destruct (forallb (holds b) _), rv.
  - rewrite sm_bind_ret_l. unfold revert_contribution. rewrite sm_bind_ret_l.
    assert (rv = false) as ->.
    { unfold reconcile_contribution in Hr. cbn [decide_revert] in Hr. rewrite sm_bind_ret_l in Hr.
      unfold mbind, SM_bind, mret, SM_ret in Hr. cbv zeta in Hr.
      destruct (decide_apply _ _ _ _ _) as [[[]|e|] s1]; [| |done|done].
      - destruct (index_set _ _ _ _) as [[] ?]; cbn in Hr; congruence.
      - cbn in Hr. congruence. }
    cbv beta iota zeta. erewrite sm_bind_ok by (apply Hw; on_row). rewrite Hctx. cbn [fst].
    destruct (forallb (holds after) _); [|done].
    erewrite sm_bind_ok by (apply Hpr; on_row). rewrite Hctx. by destruct ap.
Qed.
(** ** The life cycle of a group row

    [PartCurrent] records the upstream group row a part has applied. *)

Context {AL : AccumulatorLaws S}.

Definition signature (keys : list string) (row : QueryVariables) : ValueAccumulator :=
  AccSignature (aggregation_snapshot_hash keys row).

(** The part has applied [cur]. *)
Definition applied (n : nat) (keys : list string) (key : ResultKey) (cur : option QueryVariables) (s : S) : Prop :=
  acc_at s key (PartCurrent n) = signature keys <$> cur.

(** The slots of the part are addressed apart. *)
Definition slots_apart (n : nat) (key : ResultKey) : Prop :=
  acc_independent (key, PartCurrent n) (key, PartDefault n) /\
  acc_independent (key, PartDefault n) (key, PartCurrent n).

(** The change continues from the applied row; a change that starts from
    nothing applied is marked as a default candidate. *)
Definition continues (cur : option QueryVariables) (before : QueryVariables) (db : bool) : Prop :=
  match cur with Some row => row = before | None => db = true end.

Lemma index_get_at key owner s : index_get key owner s = (Ok (acc_at s key owner), s).
Proof. unfold index_get. by rewrite acc_get_ok. Qed.

Lemma index_set_at key owner v s :
  exists s', index_set key owner v s = (Ok tt, s') /\ acc_at s' key owner = v /\
  forall key' owner', acc_independent (key, owner) (key', owner') -> acc_at s' key' owner' = acc_at s key' owner'.
Proof. unfold index_set. destruct (acc_set_ok s key owner v) as (s' & -> & Hv & Hi). eauto. Qed.

Lemma decide_revert_applied n keys key cur before db s :
  slots_apart n key -> applied n keys key cur s -> continues cur before db ->
  exists s', decide_revert n key keys (Some before) db s = (Ok (match cur with Some _ => true | None => false end), s') /\
  applied n keys key cur s'.
Proof.
  intros [_ Hap] Hcur Hc. unfold decide_revert. destruct db; cbn [negb].
  - unfold mbind, SM_bind. rewrite index_get_at, Hcur. destruct cur as [row|]; cbn in Hc |- *.
    + subst. rewrite Z.eqb_refl. by exists s.
    + destruct (index_set_at key (PartDefault n) (Some (AccSignature (aggregation_snapshot_hash keys before))) s)
        as (s' & -> & _ & Hi). exists s'. split; [done|]. unfold applied. by rewrite Hi.
  - destruct cur as [row|]; [|done]. exists s. done.
Qed.

Lemma decide_apply_applied n keys key cur h da s :
  slots_apart n key -> applied n keys key cur s ->
  exists ap s', decide_apply n key h da s = (Ok ap, s') /\
    (ap = false -> da = true /\ applied n keys key None s') /\ (ap = true -> applied n keys key cur s').
Proof.
  intros [Hap _] Hcur. unfold decide_apply. destruct da; cbn [negb].
  - unfold mbind, SM_bind. rewrite index_get_at.
    destruct (acc_at s key (PartDefault n)) as [[]|]; try (exists true, s; by split_and!).
    destruct (Z.eqb_spec signature0 h) as [->|Hne].
    + destruct (index_set_at key (PartCurrent n) None s) as (s' & -> & Hv & _). exists false, s'. by split_and!.
    + exists true, s. by split_and!.
  - exists true, s. by split_and!.
Qed.

Lemma reconcile_applied n keys key cur before after db da s :
  key = groupby_from_variables keys after -> slots_apart n key ->
  applied n keys key cur s -> continues cur before db ->
  exists ap s', reconcile_contribution n (Some before) after keys db da s =
      (Ok (match cur with Some _ => true | None => false end, ap), s') /\
  applied n keys key (if ap then Some after else None) s' /\ (ap = false -> da = true).
Proof.
  intros -> Hap Hcur Hc. unfold reconcile_contribution.
  destruct (decide_revert_applied _ _ _ _ _ _ _ Hap Hcur Hc) as (s1 & Hr & H1).
  erewrite sm_bind_ok by exact Hr. cbv zeta.
  destruct (decide_apply_applied n keys _ cur (aggregation_snapshot_hash keys after) da s1 Hap H1)
    as (ap & s2 & Hd & Hf & Ht).
  erewrite sm_bind_ok by exact Hd. destruct ap.
  - destruct (index_set_at (groupby_from_variables keys after) (PartCurrent n)
      (Some (AccSignature (aggregation_snapshot_hash keys after))) s2) as (s3 & Hs & Hv & _).
    erewrite sm_bind_ok by exact Hs. by exists true, s3.
  - rewrite sm_bind_ret_l. destruct (Hf eq_refl). by exists false, s2.
Qed.
End view.

(** * Properties of the query parts, with the expression evaluator

    The theorems of the incremental evaluation of a part, and their instances
    with the evaluator of [Expressions] and the in-memory result index. *)

(** ** The properties *)

Section properties.
Context {C : Chrono} {H : Hashers} {S : Type} `{!AccumulatorIndex S} {EE : ExpressionEvaluator S}.

(** [C20] A part without aggregation maintains its view: a change of the input
    bag evaluates, without touching the state, to one change, and that change
    turns the view of the old bag into the view of the new one. (An update
    whose two rows compare equal is dropped instead, unless a future is being
    reprocessed.) *)
Theorem row_part_maintains_view (dom : QueryVariables -> Prop) (holds : QueryVariables -> Expression -> bool)
    (field : QueryVariables -> Expression -> string * VariableValue)
    n (part : QueryPart) es cc c s R R' :
  reads_row dom holds field part es -> rows_in dom c -> transforms c R R' -> skipped cc c = Ok false ->
  exists c', evaluate n part cc c s = (Ok [c'], s) /\
    transforms c' (omap (part_view holds field part) R) (omap (part_view holds field part) R').
Proof.
  intros Hp Hd Hc Hs. eexists. split.
  - rewrite (evaluate_row_part dom holds field n part es) by (done || apply Hc). rewrite Hs. reflexivity.
  - by apply transforms_view.
Qed.

(** [C21] The life cycle of a group row in the part after an aggregation: when the
    changes of a group follow each other, every one evaluates to the change
    between the row the part has applied and the row it applies now; the row
    is retracted only by a change marked [default_after]. *)
Theorem group_row_lifecycle {AL : AccumulatorLaws S} (dom : QueryVariables -> Prop) (holds : QueryVariables -> Expression -> bool)
    (field : QueryVariables -> Expression -> string * VariableValue)
    n (part : QueryPart) es cc keys key before after db da cur s :
  reads_row dom holds field part es -> dom before -> dom after ->
  key = groupby_from_variables keys after -> slots_apart n key ->
  unchanged_aggregation cc (Some before) after db da = Ok false ->
  applied n keys key cur s -> continues cur before db ->
  (cur = None -> part_view holds field part before = None \/ part_view holds field part after <> None) ->
  exists cur' s',
    evaluate n part cc (Aggregation (Some before) after keys db da 0) s =
      (Ok [change_of (cur ≫= part_view holds field part) (cur' ≫= part_view holds field part)], s') /\
    applied n keys key cur' s' /\ (cur' = Some after \/ cur' = None /\ da = true).
Proof.
  intros Hp Hb Ha Hk Hap Hu Hcur Hc Hno.
  destruct (reconcile_applied n keys key cur before after db da s Hk Hap Hcur Hc) as (ap & s' & Hr & Hcur' & Hda).
  exists (if ap then Some after else None), s'.
  rewrite (evaluate_aggregation_row dom holds field n part es) by (done || by intros ? [= <-]). rewrite Hu, Hr.
  split_and!; [|done|destruct ap; auto].
  do 2 f_equal. unfold row_answer. destruct cur as [row|]; cbn in Hc.
  - subst. cbn. by destruct ap, (part_view holds field part after) eqn:Hv; cbn; rewrite ?Hv.
  - cbn. specialize (Hno eq_refl). destruct (part_view holds field part after) as [a|] eqn:Hv.
    + destruct ap; cbn; by rewrite ?Hv.
    + destruct Hno as [Hn|]; [|done]. rewrite Hn. by destruct ap; cbn; rewrite ?Hv.
Qed.

(** Outside that condition the part answers wrongly: a group that appears
    with a default row passing the filter and a row failing it makes the part
    retract the default row, which it never applied. *)
Theorem filtered_default_spurious_removal {AL : AccumulatorLaws S}
    (dom : QueryVariables -> Prop) (holds : QueryVariables -> Expression -> bool)
    (field : QueryVariables -> Expression -> string * VariableValue)
    n (part : QueryPart) es cc keys key before after da row s :
  reads_row dom holds field part es -> dom before -> dom after ->
  key = groupby_from_variables keys after -> slots_apart n key ->
  unchanged_aggregation cc (Some before) after true da = Ok false ->
  applied n keys key None s ->
  part_view holds field part before = Some row -> part_view holds field part after = None ->
  exists s', evaluate n part cc (Aggregation (Some before) after keys true da 0) s = (Ok [Removing row 0], s').
Proof.
  intros Hp Hdb Hda Hk Hap Hu Hcur Hb Ha.
  destruct (reconcile_applied n keys key None before after true da s Hk Hap Hcur) as (ap & s' & Hr & _ & _); [done|].
  exists s'. rewrite (evaluate_aggregation_row dom holds field n part es) by (done || by intros ? [= <-]). rewrite Hu, Hr.
  unfold row_answer. cbn. by rewrite Ha, Hb.
Qed.
End properties.

(** ** Instances *)

Section samples.
#[local] Existing Instance Sample.hashers.
#[local] Existing Instance Sample.chrono.
#[local] Existing Instance SampleOps.ops.

Definition aggregates : gmap string (Function (S:=InMemoryResultIndex)) := register_all_aggregating ∅.
#[local] Instance evaluator : ExpressionEvaluator InMemoryResultIndex := expression_evaluator aggregates 5.

Definition number (z : Z) : VariableValue := VInteger (integer_from_i64 z).

(** WHERE $v > 5 RETURN $v AS w *)
Definition over_five : QueryPart := {|
  match_clauses := [];
  where_clauses := [Binary Gt_ (Unary (Parameter_ "v")) (Unary (Lit (LInteger 5)))];
  return_clause := Item [Unary (Alias (Unary (Parameter_ "v")) "w")] |}.

Definition has_number (row : QueryVariables) : Prop := exists n, bt_get "v"%string row = Some (VInteger n).
Definition over_five_holds (row : QueryVariables) (_ : Expression) : bool :=
  match bt_get "v"%string row with Some (VInteger n) => cmp_holds OpGt (int_or_zero n ?= 5) | _ => false end.
Definition over_five_field (row : QueryVariables) (_ : Expression) : string * VariableValue :=
  ("w"%string, match bt_get "v"%string row with Some v => v | None => VNull end).

Lemma over_five_reads_row :
  reads_row has_number over_five_holds over_five_field over_five
    [Unary (Alias (Unary (Parameter_ "v")) "w")].
Proof.
  split_and!; [done| |].
  - intros e ->%list_elem_of_singleton ctx s [n Hn].
    unfold evaluate_predicate, evaluator, expression_evaluator, predicate_of, over_five_holds. cbn [evaluate_expression].
    rewrite Hn. cbn. unfold get_variable. by rewrite Hn.
  - intros e ->%list_elem_of_singleton ctx s [n Hn].
    unfold evaluate_projection_field, evaluator, expression_evaluator, over_five_field. cbn [evaluate_expression].
    rewrite Hn. cbn. unfold get_variable. by rewrite Hn.
Qed.

Definition row (z : Z) : QueryVariables := [("v"%string, number z)].

Lemma row_has_number z : has_number (row z).
Proof. eexists. reflexivity. Qed.

Definition now : InstantQueryClock := {| transaction_time := 0; realtime := 0 |}.
Definition plain_change : ChangeContext :=
  {| solution_signature := 1; before_anchor_element := None; after_anchor_element := None;
     before_clock := now; after_clock := now; is_future_reprocess := false;
     before_grouping_hash := 1; after_grouping_hash := 1 |}.

Lemma row_part_maintains_view_witness :
  exists c', evaluate 1 over_five plain_change (Updating (row 3) (row 9) 0) new_result_index = (Ok [c'], new_result_index) /\
    transforms c' (omap (part_view over_five_holds over_five_field over_five) [row 3; row 7])
                  (omap (part_view over_five_holds over_five_field over_five) [row 9; row 7]).
Proof.
  apply (row_part_maintains_view has_number over_five_holds over_five_field 1 over_five
           [Unary (Alias (Unary (Parameter_ "v")) "w")]).
  - exact over_five_reads_row.
  - split; intros r [= <-]; apply row_has_number.
  - split; [exact I|]. exists [row 7]. split; reflexivity.
  - reflexivity.
Defined.

Definition group_key : ResultKey := groupby_from_variables [] (row 9).

Lemma sample_slots_apart key : slots_apart (S:=InMemoryResultIndex) 1 key <->
  get_hash_key (PartCurrent 1) key <> get_hash_key (PartDefault 1) key.
Proof. unfold slots_apart. cbn. split; [by intros []|]. intros Hne. split; [done|by intros He; apply Hne]. Qed.

Lemma group_row_lifecycle_witness :
  exists cur' s',
    evaluate 1 over_five plain_change (Aggregation (Some (row 0)) (row 9) [] true false 0) new_result_index =
      (Ok [change_of (None ≫= part_view over_five_holds over_five_field over_five)
             (cur' ≫= part_view over_five_holds over_five_field over_five)], s') /\
    applied 1 [] group_key cur' s' /\ (cur' = Some (row 9) \/ cur' = None /\ false = true).
Proof.
  apply (group_row_lifecycle has_number over_five_holds over_five_field 1 over_five
           [Unary (Alias (Unary (Parameter_ "v")) "w")]).
  - exact over_five_reads_row.
  - apply row_has_number.
  - apply row_has_number.
  - reflexivity.
  - apply sample_slots_apart. vm_compute. discriminate.
  - reflexivity.
  - reflexivity.
  - reflexivity.
  - intros _. left. reflexivity.
Defined.

(** The group of one contributor leaves the range of the filter at once. *)
Lemma filtered_default_spurious_removal_witness :
  exists s', evaluate 1 over_five plain_change (Aggregation (Some (row 9)) (row 3) [] true false 0) new_result_index =
    (Ok [Removing [("w"%string, number 9)] 0], s').
Proof.
  apply (filtered_default_spurious_removal has_number over_five_holds over_five_field 1 over_five
           [Unary (Alias (Unary (Parameter_ "v")) "w")] plain_change [] group_key (row 9) (row 3) false).
  - exact over_five_reads_row.
  - apply row_has_number.
  - apply row_has_number.
  - reflexivity.
  - apply sample_slots_apart. vm_compute. discriminate.
  - reflexivity.
  - reflexivity.
  - reflexivity.
  - reflexivity.
Defined.
End samples.
