(* ===== verification/FutureQueue.v ===== *)
(** * Future queue (core/src/interface/future_queue.rs,
      core/src/in_memory_index/in_memory_future_queue.rs)

    The times at which an element has to be looked at again. The queue is
    ordered by due time; an index from the position of the requesting call and
    the signature of its group finds the entries to replace or remove. The
    heap of crate [priority_queue] is a parameter: it maps an item to its
    priority and peeks at an item of greatest priority. *)

From Stdlib Require Import Sorted.
From S2P Require Import Prelude BTree Floats Hashing Ast Models Errors.

Inductive PushType := Always | IfNotExists | Overwrite.

Notation QueueKey := (nat * FutureElementRef)%type.

Class PriorityQueueOps := {
  pq_peek : gmap QueueKey Z -> option (QueueKey * Z);
  pq_peek_none : forall q, pq_peek q = None -> q = ∅;
  pq_peek_max : forall q k p, pq_peek q = Some (k, p) ->
    q !! k = Some p /\ forall k' p', q !! k' = Some p' -> p' <= p;
}.

Record InMemoryFutureQueue := {
  queue : gmap QueueKey Z;
  by_group : gmap (nat * Z) (btree ElementTimestamp (ElementTimestamp * ElementReference));
}.

Definition new_future_queue : InMemoryFutureQueue := {| queue := ∅; by_group := ∅ |}.

Section future_queue.
Context {P : PriorityQueueOps}.

Definition future_key (position_in_query : nat) (group_signature : Z)
    (e : ElementTimestamp * (ElementTimestamp * ElementReference)) : QueueKey :=
  (position_in_query,
   {| element_ref := e.2.2; original_time := e.2.1; due_time := e.1; group_signature := group_signature |}).

(** [-(due_time as i64)] and back *)
Definition priority (due_time : Z) : Z := as_i64 (- as_i64 due_time).
Definition due_of_priority (p : Z) : Z := as_u64 (as_i64 (- p)).

(** [remove]: the entries the index knows of are taken from the queue. *)
Definition fq_remove (position_in_query : nat) (group_signature : Z) (q : InMemoryFutureQueue) : InMemoryFutureQueue :=
  let key := (position_in_query, group_signature) in
  match by_group q !! key with
  | Some map =>
      {| queue := fold_left (fun qu e => delete (future_key position_in_query group_signature e) qu) map (queue q);
         by_group := delete key (by_group q) |}
  | None => q
  end.

Definition should_push (push_type : PushType) (key : nat * Z) (q : InMemoryFutureQueue) : bool :=
  match push_type with
  | Always | Overwrite => true
  | IfNotExists => match by_group q !! key with Some [] | None => true | Some _ => false end
  end.

(** [entry(key).or_default()] *)
Definition group_entries (key : nat * Z) (q : InMemoryFutureQueue) :
    btree ElementTimestamp (ElementTimestamp * ElementReference) :=
  match by_group q !! key with Some m => m | None => [] end.

(** the entry pushed, in the heap and in the index of its group *)
Definition fq_insert (position_in_query : nat) (group_signature : Z)
    (element_ref : ElementReference) (original_time due_time : ElementTimestamp) (q : InMemoryFutureQueue) :
    InMemoryFutureQueue :=
  let key := (position_in_query, group_signature) in
  {| queue := <[future_key position_in_query group_signature (due_time, (original_time, element_ref)) :=
                  priority due_time]> (queue q);
     by_group := <[key := bt_insert due_time (original_time, element_ref) (group_entries key q)]> (by_group q) |}.

Definition fq_push (push_type : PushType) (position_in_query : nat) (group_signature : Z)
    (element_ref : ElementReference) (original_time due_time : ElementTimestamp) (q : InMemoryFutureQueue) :
    bool * InMemoryFutureQueue :=
  let pushed := should_push push_type (position_in_query, group_signature) q in
  let q := match push_type with Overwrite => fq_remove position_in_query group_signature q | _ => q end in
  if pushed then (true, fq_insert position_in_query group_signature element_ref original_time due_time q)
  else (false, q).

(** the entry of a group at a due time, and the group itself when it is the last *)
Definition remove_due (map_key : nat * Z) (due_time : ElementTimestamp)
    (groups : gmap (nat * Z) (btree ElementTimestamp (ElementTimestamp * ElementReference))) :
    gmap (nat * Z) (btree ElementTimestamp (ElementTimestamp * ElementReference)) :=
  match groups !! map_key with
  | Some m => match bt_remove due_time m with
              | [] => delete map_key groups
              | m => <[map_key := m]> groups
              end
  | None => groups
  end.

Definition fq_pop (q : InMemoryFutureQueue) : option FutureElementRef * InMemoryFutureQueue :=
  match pq_peek (queue q) with
  | None => (None, q)
  | Some (key, p) =>
      (Some key.2,
       {| queue := delete key (queue q);
          by_group := remove_due (key.1, group_signature key.2) (due_of_priority p) (by_group q) |})
  end.

Definition fq_peek_due_time (q : InMemoryFutureQueue) : option ElementTimestamp :=
  match pq_peek (queue q) with
  | Some (_, p) => Some (as_u64 (as_i64 (p * -1)))
  | None => None
  end.

Definition fq_clear (q : InMemoryFutureQueue) : InMemoryFutureQueue := new_future_queue.
End future_queue.

(** A heap for examples: the first greatest entry in the order of the map. *)
Definition sample_peek (q : gmap QueueKey Z) : option (QueueKey * Z) :=
  fold_left (fun best e => match best with Some b => if b.2 <? e.2 then Some e else best | None => Some e end)
    (map_to_list q) None.

Lemma sample_peek_spec (l : list (QueueKey * Z)) best :
  let r := fold_left (fun best e => match best with Some b => if b.2 <? e.2 then Some e else best | None => Some e end) l best in
  match r with
  | None => best = None /\ l = []
  | Some e => (best = Some e \/ e ∈ l) /\ (forall b, best = Some b -> b.2 <= e.2) /\ (forall e', e' ∈ l -> e'.2 <= e.2)
  end.
Proof.
  revert best. induction l as [|e l IH]; intros best; cbn.
  { destruct best as [b|]; [|done]. split_and!; [by left|by intros ? [= <-]|set_solver]. }
  specialize (IH (match best with Some b => if b.2 <? e.2 then Some e else best | None => Some e end)). cbn in IH.
  destruct (fold_left _ l _) as [r|].
  - destruct IH as (Hin & Hb & Hl). destruct best as [b|].
    + destruct (Z.ltb_spec b.2 e.2).
      * specialize (Hb e eq_refl). split_and!; [destruct Hin as [[= <-]|]; set_solver|intros ? [= <-]; lia|].
        intros e' [->|?]%elem_of_cons; [done|auto].
      * specialize (Hb b eq_refl). split_and!; [destruct Hin; set_solver|by intros ? [= <-]|].
        intros e' [->|?]%elem_of_cons; [lia|auto].
    + specialize (Hb e eq_refl). split_and!; [destruct Hin as [[= <-]|]; set_solver|done|].
      intros e' [->|?]%elem_of_cons; [done|auto].
  - destruct IH as [IH _]. destruct best as [b|]; [|done]. by destruct (b.2 <? e.2).
Qed.

Definition sample_heap : PriorityQueueOps.
Proof.
  refine {| pq_peek := sample_peek |}.
  - intros q Hq. unfold sample_peek in Hq. pose proof (sample_peek_spec (map_to_list q) None) as Hs.
    cbn in Hs. rewrite Hq in Hs. destruct Hs as [_ Hs]. by apply map_to_list_empty_iff.
  - intros q k p Hq. unfold sample_peek in Hq. pose proof (sample_peek_spec (map_to_list q) None) as Hs.
    cbn in Hs. rewrite Hq in Hs. destruct Hs as ([?|Hin] & _ & Hmax); [done|]. split.
    + by apply elem_of_map_to_list in Hin.
    + intros k' p' Hk'. by apply (Hmax (k', p')), elem_of_map_to_list.
Defined.

(** * The future queue as a set of requests

    Abstractly the queue is a set of requests; [future_queue_refines] proves
    that the in-memory queue (a heap and an index by group) implements it for
    the pushes that do not collide, [future_queue_drains] that popping empties
    it in order of due time, and [future_same_due_time_orphan] shows the
    collision the index cannot represent. *)

(** ** Abstract queue *)

Notation Requests := (gset QueueKey).

Definition group_of (k : QueueKey) : nat * Z := (k.1, group_signature k.2).
Definition in_group (key : nat * Z) (A : Requests) : Requests := filter (fun k => group_of k = key) A.
Definition outside (key : nat * Z) (A : Requests) : Requests := filter (fun k => group_of k <> key) A.

Inductive FutureOp :=
| FutPush (t : PushType) (position : nat) (group : Z) (e : ElementReference) (original due : ElementTimestamp)
| FutRemove (position : nat) (group : Z)
| FutPop
| FutClear.

Inductive FutureOut := OutPushed (b : bool) | OutNone | OutPopped (r : option FutureElementRef).

Definition request (position : nat) (group : Z) (e : ElementReference) (original due : ElementTimestamp) : QueueKey :=
  future_key position group (due, (original, e)).

(** Requests whose time fits the heap's signed priority; an [Always] push
    must not meet another request of its group at its own due time. *)
Definition admissible (op : FutureOp) (A : Requests) : Prop :=
  match op with
  | FutPush t pos g e ot due =>
      0 <= due <= i64_max /\
      (t = Always -> forall k, k ∈ in_group (pos, g) A -> due_time k.2 = due -> k = request pos g e ot due)
  | _ => True
  end.

Definition future_spec (op : FutureOp) (A : Requests) (out : FutureOut) (A' : Requests) : Prop :=
  match op with
  | FutPush Always pos g e ot due => out = OutPushed true /\ A' = {[ request pos g e ot due ]} ∪ A
  | FutPush Overwrite pos g e ot due =>
      out = OutPushed true /\ A' = {[ request pos g e ot due ]} ∪ outside (pos, g) A
  | FutPush IfNotExists pos g e ot due =>
      if decide (in_group (pos, g) A = ∅)
      then out = OutPushed true /\ A' = {[ request pos g e ot due ]} ∪ A
      else out = OutPushed false /\ A' = A
  | FutRemove pos g => out = OutNone /\ A' = outside (pos, g) A
  | FutPop =>
      (A = ∅ /\ out = OutPopped None /\ A' = ∅) \/
      exists k, k ∈ A /\ out = OutPopped (Some k.2) /\ A' = A ∖ {[ k ]} /\
        forall k', k' ∈ A -> due_time k.2 <= due_time k'.2
  | FutClear => out = OutNone /\ A' = ∅
  end.

(** ** The invariant that ties heap and index *)

Definition indexed (q : InMemoryFutureQueue) (k : QueueKey) : Prop :=
  exists m, by_group q !! group_of k = Some m /\ bt_get (due_time k.2) m = Some (original_time k.2, element_ref k.2).

Record coherent (q : InMemoryFutureQueue) : Prop := {
  coherent_queue : forall k p, queue q !! k = Some p <-> indexed q k /\ p = priority (due_time k.2);
  coherent_groups : forall key m, by_group q !! key = Some m -> m <> [] /\ bt_sorted m;
  coherent_times : forall k, k ∈ dom (queue q) -> 0 <= due_time k.2 <= i64_max;
}.

Definition requests (q : InMemoryFutureQueue) : Requests := dom (queue q).

Section facts.
Context {P : PriorityQueueOps}.

Definition fq_run (op : FutureOp) (q : InMemoryFutureQueue) : FutureOut * InMemoryFutureQueue :=
  match op with
  | FutPush t pos g e ot due => let '(b, q) := fq_push t pos g e ot due q in (OutPushed b, q)
  | FutRemove pos g => (OutNone, fq_remove pos g q)
  | FutPop => let '(r, q) := fq_pop q in (OutPopped r, q)
  | FutClear => (OutNone, fq_clear q)
  end.

Lemma priority_small due : 0 <= due <= i64_max -> priority due = - due.
Proof. intros Hd. unfold priority.
  rewrite (as_i64_small due), as_i64_small; unfold i64_ok, i64_min, i64_max in *; lia. Qed.

Lemma due_of_priority_inv due : 0 <= due <= i64_max -> due_of_priority (priority due) = due.
Proof.
  intros Hd. rewrite priority_small by done. unfold due_of_priority. rewrite Z.opp_involutive.
  rewrite as_i64_small, as_u64_small; unfold i64_ok, u64_ok, i64_min, i64_max, u64_max in *; lia.
Qed.

Lemma requests_indexed q k : coherent q -> k ∈ requests q <-> indexed q k.
Proof.
  intros Hq. unfold requests. rewrite elem_of_dom. split.
  - intros [p Hp]. by apply (coherent_queue q Hq) in Hp as [? _].
  - intros Hi. exists (priority (due_time k.2)). by apply (coherent_queue q Hq).
Qed.

Lemma future_key_spec k : future_key k.1 (group_signature k.2) (due_time k.2, (original_time k.2, element_ref k.2)) = k.
Proof. by destruct k as [? []]. Qed.

Lemma group_of_future_key pos g e : group_of (future_key pos g e) = (pos, g).
Proof. done. Qed.

Lemma fold_delete_lookup (pos : nat) (g : Z) (l : list (ElementTimestamp * (ElementTimestamp * ElementReference))) (qu : gmap QueueKey Z) (k : QueueKey) :
  fold_left (fun qu e => delete (future_key pos g e) qu) l qu !! k =
  if decide (k ∈ map (future_key pos g) l) then None else qu !! k.
Proof.
  revert qu. induction l as [|e l IH]; intros qu; cbn [fold_left]; [by rewrite decide_False by set_solver|].
  rewrite IH. destruct (decide (k ∈ map (future_key pos g) l)); [by rewrite decide_True by set_solver|].
  destruct (decide (k = future_key pos g e)) as [->|Hne].
  - rewrite lookup_delete_eq. by rewrite decide_True by set_solver.
  - rewrite lookup_delete_ne by done. by rewrite decide_False by set_solver.
Qed.

(** A key of the group is listed by its index exactly when it is indexed. *)
Lemma listed_indexed q pos g m (k : QueueKey) :
  by_group q !! (pos, g) = Some m -> bt_sorted m ->
  k ∈ map (future_key pos g) m <-> group_of k = (pos, g) /\ indexed q k.
Proof.
  intros Hm Hs. rewrite list_elem_of_fmap. split.
  - intros ([due [ot e]] & -> & Hin). split; [done|]. exists m. split; [done|]. by apply (bt_elem_get (K:=Z)).
  - intros [Hg (m' & Hm' & Hget)]. rewrite Hg in Hm'. simplify_eq.
    exists (due_time k.2, (original_time k.2, element_ref k.2)). split.
    + destruct k as [kp [? ? ? ?]]. cbn in *. unfold group_of in Hg. cbn in Hg. by simplify_eq.
    + by apply (bt_get_elem (K:=Z)).
Qed.

Lemma fq_remove_queue q pos g k :
  coherent q ->
  queue (fq_remove pos g q) !! k = if decide (group_of k = (pos, g)) then None else queue q !! k.
Proof.
  intros Hq. unfold fq_remove. destruct (by_group q !! (pos, g)) as [m|] eqn:Hm; cbn [queue].
  - destruct (coherent_groups q Hq _ _ Hm) as [_ Hs]. rewrite fold_delete_lookup.
    destruct (decide (group_of k = (pos, g))) as [Hg|Hg].
    + destruct (decide _) as [|Hnin]; [done|]. destruct (queue q !! k) as [p|] eqn:Hp; [|done].
      apply (coherent_queue q Hq) in Hp as [Hi _]. exfalso. apply Hnin. by apply (listed_indexed q pos g m).
    + rewrite decide_False; [done|]. by intros [? _]%(listed_indexed q pos g m).
  - destruct (decide (group_of k = (pos, g))) as [Hg|Hg]; [|done].
    destruct (queue q !! k) as [p|] eqn:Hp; [|done].
    apply (coherent_queue q Hq) in Hp as [(m' & Hm' & _) _]. rewrite Hg in Hm'. by pose proof (eq_trans (eq_sym Hm) Hm').
Qed.

Lemma fq_remove_group q pos g key :
  by_group (fq_remove pos g q) !! key = if decide (key = (pos, g)) then None else by_group q !! key.
Proof.
  unfold fq_remove. destruct (by_group q !! (pos, g)) as [m|] eqn:Hm; cbn [by_group].
  - destruct (decide (key = (pos, g))) as [->|]; [apply lookup_delete_eq|by rewrite lookup_delete_ne].
  - by destruct (decide (key = (pos, g))) as [->|].
Qed.

Lemma fq_remove_coherent q pos g : coherent q -> coherent (fq_remove pos g q).
Proof.
  intros Hq. constructor.
  - intros k p. rewrite fq_remove_queue by done. unfold indexed. setoid_rewrite fq_remove_group.
    destruct (decide (group_of k = (pos, g))); [|apply (coherent_queue q Hq)].
    split; [done|]. by intros [(? & ? & _) _].
  - intros key m. rewrite fq_remove_group. destruct (decide _); [done|]. apply (coherent_groups q Hq).
  - intros k [p Hp]%elem_of_dom. rewrite fq_remove_queue in Hp by done. destruct (decide _); [done|].
    apply (coherent_times q Hq). by apply elem_of_dom_2 in Hp.
Qed.

Lemma fq_remove_requests q pos g : coherent q -> requests (fq_remove pos g q) = outside (pos, g) (requests q).
Proof.
  intros Hq. apply set_eq. intros k. unfold requests, outside. rewrite elem_of_filter, !elem_of_dom.
  rewrite fq_remove_queue by done. destruct (decide _) as [Hg|Hg]; [|naive_solver].
  rewrite is_Some_alt. tauto.
Qed.

(** One entry more, when its due time is free in its group. *)
Lemma fq_insert_lookup q pos g e ot due key :
  by_group (fq_insert pos g e ot due q) !! key =
  if decide (key = (pos, g))
  then Some (bt_insert due (ot, e) (group_entries (pos, g) q)) else by_group q !! key.
Proof.
  unfold fq_insert. cbn [by_group]. destruct (decide (key = (pos, g))) as [->|].
  - apply lookup_insert_eq.
  - by rewrite lookup_insert_ne.
Qed.

Lemma bt_insert_nonempty {K V} `{Ord K} (k : K) (v : V) m : bt_insert k v m <> [].
Proof. destruct m as [|[j w] m]; cbn [bt_insert]; [done|]. by destruct (cmp k j). Qed.

Lemma group_sorted q key : coherent q -> bt_sorted (group_entries key q).
Proof.
  intros Hq. unfold group_entries. destruct (by_group q !! key) as [m|] eqn:Hm; [|constructor].
  by apply (coherent_groups q Hq _ _ Hm).
Qed.

Lemma fq_insert_indexed q pos g e ot due k :
  coherent q ->
  (forall k', k' ∈ requests q -> group_of k' = (pos, g) -> due_time k'.2 = due -> k' = request pos g e ot due) ->
  indexed (fq_insert pos g e ot due q) k <-> k = request pos g e ot due \/ indexed q k.
Proof.
  intros Hq Hfree. unfold indexed at 1. setoid_rewrite fq_insert_lookup.
  destruct (decide (group_of k = (pos, g))) as [Hg|Hg].
  - pose proof (bt_get_insert_new (K:=ElementTimestamp) (due_time k.2) due (ot, e) _ (group_sorted q (pos, g) Hq)) as Hget.
    split.
    + intros (m & [= <-] & Hm). rewrite Hm in Hget. destruct (decide _) as [Hd|Hd].
      * left. destruct k as [? []]. unfold group_of in Hg. cbn in *. by simplify_eq.
      * right. unfold group_entries in Hget. destruct (by_group q !! (pos, g)) as [m|] eqn:Hm'; [|done]. exists m. by rewrite Hg.
    + intros Hk. eexists. split; [done|]. rewrite Hget. destruct (decide _) as [Hd|Hd].
      * destruct Hk as [->|Hk]; [done|].
        rewrite (Hfree k); [done|by apply requests_indexed|done|done].
      * destruct Hk as [->|(m & Hm & Hk)]; [done|]. rewrite Hg in Hm. unfold group_entries. by rewrite Hm.
  - split; [by right|]. intros [->|?]; done.
Qed.

Lemma fq_insert_correct q pos g e ot due :
  coherent q -> 0 <= due <= i64_max ->
  (forall k, k ∈ requests q -> group_of k = (pos, g) -> due_time k.2 = due -> k = request pos g e ot due) ->
  coherent (fq_insert pos g e ot due q) /\
  requests (fq_insert pos g e ot due q) = {[ request pos g e ot due ]} ∪ requests q.
Proof.
  intros Hq Hdue Hfree.
  assert (Hr : requests (fq_insert pos g e ot due q) = {[ request pos g e ot due ]} ∪ requests q)
    by apply dom_insert_L.
  split; [|done]. constructor.
  - intros k p. rewrite fq_insert_indexed by done. unfold fq_insert. cbn [queue].
    destruct (decide (k = request pos g e ot due)) as [->|Hne].
    + rewrite lookup_insert_eq. cbn. naive_solver.
    + rewrite lookup_insert_ne by done. rewrite (coherent_queue q Hq). naive_solver.
  - intros key m. rewrite fq_insert_lookup. destruct (decide _); [|apply (coherent_groups q Hq)].
    intros [= <-]. split; [|by apply (bt_insert_sorted (K:=Z)), group_sorted].
    apply bt_insert_nonempty.
  - intros k Hk. fold (requests (fq_insert pos g e ot due q)) in Hk. rewrite Hr in Hk.
    apply elem_of_union in Hk as [->%elem_of_singleton|Hk]; [done|by apply (coherent_times q Hq)].
Qed.

Lemma should_push_spec t pos g q :
  coherent q ->
  should_push t (pos, g) q = match t with IfNotExists => bool_decide (in_group (pos, g) (requests q) = ∅) | _ => true end.
Proof.
  intros Hq. destruct t; [done| |done]. cbn. symmetry.
  destruct (by_group q !! (pos, g)) as [m|] eqn:Hm.
  - destruct (coherent_groups q Hq _ _ Hm) as [Hne Hs]. destruct m as [|[due [ot e]] m]; [done|].
    apply bool_decide_eq_false. intros Hemp. apply (not_elem_of_empty (C:=Requests) (request pos g e ot due)).
    rewrite <- Hemp. unfold in_group. rewrite elem_of_filter, requests_indexed by done. split; [done|].
    exists ((due, (ot, e)) :: m). split; [done|]. cbn. by rewrite (cmp_refl due).
  - apply bool_decide_eq_true, set_eq. intros k. unfold in_group.
    rewrite elem_of_filter, requests_indexed by done. split; [|done].
    intros [Hg (m & Hm' & _)]. rewrite Hg in Hm'. by pose proof (eq_trans (eq_sym Hm) Hm').
Qed.

(** ** Popping *)

Lemma remove_due_lookup key due groups m :
  groups !! key = Some m ->
  forall key', remove_due key due groups !! key' =
    if decide (key' = key) then match bt_remove due m with [] => None | m => Some m end else groups !! key'.
Proof.
  intros Hm key'. unfold remove_due. rewrite Hm. destruct (bt_remove due m) as [|e l] eqn:Hl.
  - destruct (decide (key' = key)) as [->|]; [apply lookup_delete_eq|by rewrite lookup_delete_ne].
  - destruct (decide (key' = key)) as [->|]; [apply lookup_insert_eq|by rewrite lookup_insert_ne].
Qed.

Lemma remove_due_indexed q k m k' :
  coherent q -> by_group q !! group_of k = Some m -> indexed q k ->
  indexed {| queue := delete k (queue q); by_group := remove_due (group_of k) (due_time k.2) (by_group q) |} k' <->
  k' <> k /\ indexed q k'.
Proof.
  intros Hq Hm Hk. destruct (coherent_groups q Hq _ _ Hm) as [_ Hs].
  unfold indexed at 1. cbn [by_group]. setoid_rewrite (remove_due_lookup _ _ _ _ Hm).
  pose proof (bt_get_remove (K:=ElementTimestamp) (due_time k'.2) (due_time k.2) m Hs) as Hget.
  destruct (decide (group_of k' = group_of k)) as [Hg|Hg].
  2: { split; [|naive_solver]. intros Hi. split; [by intros ->|done]. }
  assert (Hiff : (exists m0, match bt_remove (due_time k.2) m with [] => None | m => Some m end = Some m0 /\
                    bt_get (due_time k'.2) m0 = Some (original_time k'.2, element_ref k'.2)) <->
                 bt_get (due_time k'.2) (bt_remove (due_time k.2) m) = Some (original_time k'.2, element_ref k'.2)).
  { destruct (bt_remove (due_time k.2) m); [|naive_solver]. split; [by intros (? & ? & _)|done]. }
  rewrite Hiff, Hget. destruct Hk as (m' & Hm' & Hk).
  pose proof (eq_trans (eq_sym Hm) Hm') as [= <-].
  assert (Hm'eq : indexed q k' <-> bt_get (due_time k'.2) m = Some (original_time k'.2, element_ref k'.2)).
  { unfold indexed. replace (by_group q !! group_of k') with (Some m) by (by rewrite Hg). naive_solver. }
  rewrite Hm'eq. destruct (cmp (due_time k'.2) (due_time k.2)) eqn:Hc.
  - apply cmp_eq in Hc. split; [done|]. intros [Hne Hk']. rewrite Hc, Hk in Hk'. exfalso. apply Hne.
    destruct k as [? []], k' as [? []]. unfold group_of in Hg. cbn in *. by simplify_eq.
  - split; [intros Hk'; split; [|done]|by intros [_ ?]]. intros ->. by rewrite cmp_refl in Hc.
  - split; [intros Hk'; split; [|done]|by intros [_ ?]]. intros ->. by rewrite cmp_refl in Hc.
Qed.

Lemma fq_pop_some q k p :
  coherent q -> pq_peek (queue q) = Some (k, p) ->
  exists q', fq_pop q = (Some k.2, q') /\ coherent q' /\ k ∈ requests q /\ requests q' = requests q ∖ {[ k ]} /\
    forall k', k' ∈ requests q -> due_time k.2 <= due_time k'.2.
Proof.
  intros Hq Hpeek. destruct (pq_peek_max _ _ _ Hpeek) as [Hp Hmax]. unfold fq_pop. rewrite Hpeek.
  pose proof (elem_of_dom_2 _ _ _ Hp) as Hin. pose proof (coherent_times q Hq _ Hin) as Ht.
  destruct (proj1 (coherent_queue q Hq k p) Hp) as [Hk ->]. rewrite due_of_priority_inv by done.
  eexists. split; [done|]. pose proof Hk as (m & Hm & _).
  assert (Hr : requests {| queue := delete k (queue q);
                           by_group := remove_due (group_of k) (due_time k.2) (by_group q) |} = requests q ∖ {[ k ]})
    by apply dom_delete_L.
  split_and!; [|done|exact Hr|].
  - constructor.
    + intros k' p'. rewrite (remove_due_indexed q k m) by done. cbn [queue].
      destruct (decide (k' = k)) as [->|Hne]; [rewrite lookup_delete_eq; naive_solver|].
      rewrite lookup_delete_ne by done. rewrite (coherent_queue q Hq). naive_solver.
    + intros key m'. cbn [by_group]. change (k.1, group_signature k.2) with (group_of k).
      rewrite (remove_due_lookup _ _ _ _ Hm). destruct (decide _); [|apply (coherent_groups q Hq)].
      destruct (coherent_groups q Hq _ _ Hm) as [_ Hs]. apply (bt_remove_sorted (due_time k.2)) in Hs.
      destruct (bt_remove (due_time k.2) m); [done|]. by intros [= <-].
    + intros k' Hk'%elem_of_dom. cbn [queue] in Hk'. apply (coherent_times q Hq), elem_of_dom.
      by apply lookup_delete_is_Some in Hk' as [_ ?].
  - unfold requests. intros k' [p' Hp']%elem_of_dom. pose proof (Hmax _ _ Hp') as Hle.
    pose proof (coherent_times q Hq _ (elem_of_dom_2 _ _ _ Hp')) as Ht'.
    apply (coherent_queue q Hq) in Hp' as [_ ->]. rewrite !priority_small in Hle by done. lia.
Qed.

Lemma fq_pop_none q : pq_peek (queue q) = None -> fq_pop q = (None, q) /\ requests q = ∅.
Proof.
  intros Hpeek. unfold fq_pop, requests. rewrite Hpeek, (pq_peek_none _ Hpeek). by rewrite dom_empty_L.
Qed.

Lemma new_future_queue_coherent : coherent new_future_queue.
Proof.
  constructor; cbn.
  - intros k p. rewrite lookup_empty. split; [done|]. by intros [(m & Hm & _) _].
  - intros key m. by rewrite lookup_empty.
  - intros k. by rewrite dom_empty_L, elem_of_empty.
Qed.

(** ** Draining *)

Fixpoint fq_drain (n : nat) (q : InMemoryFutureQueue) : list FutureElementRef * InMemoryFutureQueue :=
  match n with
  | O => ([], q)
  | Datatypes.S n =>
      match fq_pop q with
      | (Some r, q) => let '(rs, q) := fq_drain n q in (r :: rs, q)
      | (None, q) => ([], q)
      end
  end.

Lemma coherent_empty q : coherent q -> requests q = ∅ -> q = new_future_queue.
Proof.
  intros Hq Hr. destruct q as [qu gr]. unfold new_future_queue. f_equal.
  - unfold requests in Hr. by apply dom_empty_iff_L in Hr.
  - apply map_empty. intros key. destruct (gr !! key) as [m|] eqn:Hm; [|done]. exfalso.
    destruct (coherent_groups _ Hq key m Hm) as [Hne Hs]. destruct m as [|[due [ot e]] m]; [done|].
    apply (not_elem_of_empty (C:=Requests) (request key.1 key.2 e ot due)). rewrite <- Hr.
    apply requests_indexed; [done|]. exists ((due, (ot, e)) :: m). unfold group_of. cbn.
    split; [by destruct key|]. by rewrite cmp_refl.
Qed.

(** [C40] Popping a coherent queue as often as it has requests returns every
    request once, in order of due time, and leaves the queue and its index
    empty. *)
Theorem future_queue_drains q :
  coherent q ->
  let '(refs, q') := fq_drain (size (requests q)) q in
  refs ≡ₚ snd <$> elements (requests q) /\
  StronglySorted (fun r r' => due_time r <= due_time r') refs /\
  q' = new_future_queue.
Proof.
  remember (size (requests q)) as n eqn:Hn. revert q Hn. induction n as [|n IH]; intros q Hn Hq; cbn [fq_drain].
  - symmetry in Hn. apply size_empty_inv, leibniz_equiv in Hn. rewrite Hn, elements_empty.
    split_and!; [done|constructor|by apply coherent_empty].
  - destruct (pq_peek (queue q)) as [[k p]|] eqn:Hpeek.
    2: { destruct (fq_pop_none q Hpeek) as [_ Hr]. by rewrite Hr, size_empty in Hn. }
    destruct (fq_pop_some q k p Hq Hpeek) as (q1 & -> & Hq1 & Hk & Hr & Hmin).
    assert (Hu : requests q = {[ k ]} ∪ requests q1) by (rewrite Hr; by apply union_difference_singleton_L).
    assert (Hnin : k ∉ requests q1) by (rewrite Hr; set_solver).
    specialize (IH q1). destruct (fq_drain n q1) as [rs q']. destruct IH as (Hp & Hs & ->); [|done|].
    { rewrite Hu, size_union, size_singleton in Hn by set_solver. lia. }
    split_and!; [| |done].
    + rewrite Hp, Hu, elements_union_singleton by done. done.
    + constructor; [done|]. apply Forall_forall. intros r Hin. rewrite Hp in Hin.
      apply list_elem_of_fmap in Hin as (k' & -> & Hin%elem_of_elements). apply Hmin. set_solver.
Qed.

End facts.

(** ** Concrete runs *)

Module FutureExample.
#[local] Existing Instance sample_heap.

Definition e1 : ElementReference := {| source_id := "s"; element_id := "1" |}.

(** [drasi.future(e, due)] evaluated for two updates of the element at times
    10 and 20 pushes twice with [Always]; the due time has not changed. *)
Definition two_updates : InMemoryFutureQueue :=
  (fq_push Always 7 42 e1 20 100 (fq_push Always 7 42 e1 10 100 new_future_queue).2).2.

Definition overwritten : InMemoryFutureQueue :=
  (fq_push Overwrite 7 42 e1 20 90 (fq_push IfNotExists 7 42 e1 10 100 new_future_queue).2).2.

(** The index of a group holds one request per due time, the heap one per
    due time and original time: when an element keeps its due time over two
    updates, the older request is no longer in the index, and it stays in the
    heap after its group has been removed, where only a pop finds it. *)
Theorem future_same_due_time_orphan :
  let q := fq_remove 7 42 two_updates in
  (fq_pop q).1 = Some {| element_ref := e1; original_time := 10; due_time := 100; group_signature := 42 |} /\
  by_group q = ∅.
Proof. split; by_vm. Qed.

Lemma overwritten_coherent : coherent overwritten.
Proof.
  pose proof (@new_future_queue_coherent) as Hn.
  destruct (fq_insert_correct new_future_queue 7 42 e1 10 100) as [H1 Hr]; [done|unfold i64_max; lia|done|].
  change (coherent (fq_insert 7 42 e1 20 90 (fq_remove 7 42 (fq_insert 7 42 e1 10 100 new_future_queue)))).
  apply fq_insert_correct; [by apply fq_remove_coherent|unfold i64_max; lia|].
  intros k Hk Hg. rewrite fq_remove_requests in Hk by done. by apply elem_of_filter in Hk as [? _].
Qed.


Lemma future_queue_drains_witness :
  coherent overwritten /\
  let '(refs, q') := fq_drain (size (requests overwritten)) overwritten in
  refs ≡ₚ snd <$> elements (requests overwritten) /\
  StronglySorted (fun r r' => due_time r <= due_time r') refs /\ q' = new_future_queue.
Proof. split; [exact overwritten_coherent|]. apply (future_queue_drains overwritten overwritten_coherent). Defined.
End FutureExample.
