(* ===== verification/Session.v ===== *)
(** * Sessions and the state of a query (core/src/interface/session_control.rs,
      core/src/interface/element_index.rs, core/src/interface/source_middleware.rs)

    What the query engine asks of its storage: an element index, a future
    queue, the result index of [ResultIndex] and a session that brackets the
    writes of one change. The in-memory backend is one instance: a record of
    the three in-memory indexes with [NoOpSessionControl]. *)

From S2P Require Import Prelude BTree Floats Hashing Ast Models Errors Values MatchPath Solver ElementIndex.
From S2P Require Import ResultIndex FutureQueue.

(** ** Interfaces *)

Class ElementIndexOps `{Chrono} (S : Type) := {
  ei_get_element : ElementReference -> SM S IndexError (option Element);
  ei_set_element : Element -> list nat -> SM S IndexError unit;
  ei_delete_element : ElementReference -> SM S IndexError unit;
  ei_slots : S -> SlotIndex;
}.

Class FutureQueueOps (S : Type) := {
  fut_push : PushType -> nat -> Z -> ElementReference -> ElementTimestamp -> ElementTimestamp -> SM S IndexError bool;
  fut_remove : nat -> Z -> SM S IndexError unit;
  fut_pop : SM S IndexError (option FutureElementRef);
  fut_peek_due_time : SM S IndexError (option ElementTimestamp);
}.

Class SessionControl (S : Type) := {
  session_begin : SM S IndexError unit;
  session_commit : SM S IndexError unit;
  session_rollback : SM S IndexError unit;
}.

(** [SessionGuard]: [begin] gives the guard, [commit] consumes it; a guard
    dropped before a successful commit (an early return, a failed commit or a
    panic) rolls back, and the error of a rollback is only logged. *)
Section guard.
Context {S : Type} `{!SessionControl S} {E : Type} (from_index_error : IndexError -> E).

Definition drop_guard {A} (r : outcome E A) (s : S) : outcome E A * S := (r, (session_rollback s).2).

Definition guard_commit {A} (a : A) (s : S) : outcome E A * S :=
  match session_commit s with
  | (Ok _, s) => (Ok a, s)
  | (Err e, s) => drop_guard (Err (from_index_error e)) s
  | (Panic, s) => drop_guard Panic s
  end.

Definition with_guard {A} (body : SM S E A) : SM S E A := fun s =>
  match session_begin s with
  | (Ok _, s) =>
      match body s with
      | (Ok a, s) => guard_commit a s
      | (r, s) => drop_guard r s
      end
  | (Err e, s) => (Err (from_index_error e), s)
  | (Panic, s) => (Panic, s)
  end.
End guard.

(** ** The contract of a transactional session

    [view] is what the store holds, [saved] what a rollback returns to. *)
Class TransactionalSession (S : Type) `{SessionControl S} := {
  View : Type;
  view : S -> View;
  saved : S -> option View;
  begin_saves : forall s, match session_begin s with
                          | (Ok _, s') => saved s' = Some (view s) /\ view s' = view s
                          | (_, s') => view s' = view s
                          end;
  commit_saves : forall s, saved s <> None -> match session_commit s with
                           | (Ok _, s') => view s' = view s
                           | (_, s') => saved s' = saved s
                           end;
  rollback_restores : forall s v, saved s = Some v -> view (session_rollback s).2 = v;
}.

(** ** The in-memory backend *)

Section indexes.
Context {C : Chrono} {H : Hashers} {P : PriorityQueueOps}.

Record Indexes := {
  element_index : ElementIndexState;
  result_index : InMemoryResultIndex;
  future_queue : InMemoryFutureQueue;
}.

Definition new_indexes : Indexes :=
  {| element_index := new_index; result_index := new_result_index; future_queue := new_future_queue |}.

Definition with_element_index (e : ElementIndexState) (s : Indexes) : Indexes :=
  {| element_index := e; result_index := result_index s; future_queue := future_queue s |}.
Definition with_result_index (r : InMemoryResultIndex) (s : Indexes) : Indexes :=
  {| element_index := element_index s; result_index := r; future_queue := future_queue s |}.
Definition with_future_queue (q : InMemoryFutureQueue) (s : Indexes) : Indexes :=
  {| element_index := element_index s; result_index := result_index s; future_queue := q |}.

#[global] Instance indexes_accumulators : AccumulatorIndex Indexes := {|
  acc_get s k o := acc_get (result_index s) k o;
  acc_set s k o v := r ← acc_set (result_index s) k o v; Ok (with_result_index r s) |}.

#[global] Instance indexes_sorted_sets : LazySortedSetStore Indexes := {|
  get_next s := get_next (result_index s);
  get_value_count s := get_value_count (result_index s);
  increment_value_count s id v d :=
    let '(r, x) := increment_value_count (result_index s) id v d in (r, with_result_index x s) |}.

Definition on_elements (f : ElementIndexState -> outcome IndexError ElementIndexState) : SM Indexes IndexError unit :=
  fun s => match f (element_index s) with
           | Ok e => (Ok tt, with_element_index e s)
           | Err e => (Err e, s)
           | Panic => (Panic, s)
           end.

#[global] Instance indexes_elements : ElementIndexOps Indexes := {|
  ei_get_element r := fun s => (get_element (element_index s) r, s);
  ei_set_element e slots := on_elements (fun st => set_element st e slots);
  ei_delete_element r := on_elements (fun st => delete_element st r);
  ei_slots s := slot_index (element_index s) |}.

#[global] Instance indexes_futures : FutureQueueOps Indexes := {|
  fut_push t pos g e ot due := fun s =>
    let '(b, q) := fq_push t pos g e ot due (future_queue s) in (Ok b, with_future_queue q s);
  fut_remove pos g := fun s => (Ok tt, with_future_queue (fq_remove pos g (future_queue s)) s);
  fut_pop := fun s => let '(r, q) := fq_pop (future_queue s) in (Ok r, with_future_queue q s);
  fut_peek_due_time := fun s => (Ok (fq_peek_due_time (future_queue s)), s) |}.

(** [NoOpSessionControl] *)
Definition no_op_session_control {S : Type} : SessionControl S :=
  {| session_begin := mret tt; session_commit := mret tt; session_rollback := mret tt |}.
End indexes.
