(* ===== verification/StateCodec.v ===== *)
(** * The stored form of previous values
      (core/src/evaluation/functions/future/state_codec.rs)

    [drasi.previousValue] and [drasi.previousDistinctValue] keep two values of
    a row in the result index, as property values. Values that have no
    counterpart there become objects tagged with [TYPE_KEY]; an object of the
    user that holds this key is wrapped. Decoding recurses below a wrapped
    object, so it takes fuel for the depth of the value; [decode] gives it
    enough. *)

From Stdlib Require Import Ascii Decimal DecimalString DecimalN.
From S2P Require Import Prelude BTree Floats Hashing Ast Models Errors Values ChronoOps ResultIndex GroupIdentity.

(** What the codec calls of [chrono] besides [ChronoOps] *)
Class CodecChrono `{ChronoOps} := {
  num_days_from_ce : NaiveDate -> Z;
  from_num_days_from_ce_opt : Z -> option NaiveDate;
  from_num_seconds_from_midnight_opt : Z -> Z -> option NaiveTime;
  east_opt : Z -> option FixedOffset;
  subsec_nanos : TimeDelta -> Z;
  try_seconds : Z -> option TimeDelta;
  nanoseconds : Z -> TimeDelta;
}.

Inductive StateCodecError := Unsupported | Corrupt.

Definition codec_error (e : StateCodecError) : FunctionEvaluationError :=
  match e with Unsupported => InvalidType "ElementValue" | Corrupt => CorruptData end.

Definition TYPE_KEY : string := "__drasi_state_type__".
Definition VERSION_KEY : string := "v".
Definition VERSION : Z := 1.
Definition NANOS_PER_SECOND : Z := 1000000000.

(** [collect::<Result<Vec<_>>>] *)
Section mapM.
Context {E A B : Type} (f : A -> outcome E B).
Fixpoint out_mapM (l : list A) : outcome E (list B) :=
  match l with
  | [] => Ok []
  | a :: l => match f a with
              | Ok b => match out_mapM l with Ok bs => Ok (b :: bs) | Err e => Err e | Panic => Panic end
              | Err e => Err e
              | Panic => Panic
              end
  end.
End mapM.

(** [u64::to_string] and [str::parse::<u64>], which takes a leading plus *)
Definition u64_to_string (n : Z) : string := NilZero.string_of_uint (N.to_uint (Z.to_N n)).
Definition parse_u64 (s : string) : option Z :=
  let digits := match s with String c rest => if Ascii.eqb c "+" then rest else s | EmptyString => s end in
  match NilZero.uint_of_string digits with
  | Some d => let n := Z.of_N (N.of_uint d) in if n <=? u64_max then Some n else None
  | None => None
  end.

Section codec.
Context {C : Chrono} {O : ChronoOps} {CC : CodecChrono}.
Notation Result := (outcome StateCodecError).

(** ** Building objects *)

(** Keys are inserted one after the other. *)
Definition collect {V} (l : list (string * V)) : btree string V := fold_left (fun m e => bt_insert e.1 e.2 m) l [].

Definition ev_object (fields : list (string * ElementValue)) : ElementValue := EV_Object (collect fields).
Definition envelope (type_name : string) (fields : list (string * ElementValue)) : ElementValue :=
  ev_object ((TYPE_KEY, EV_String type_name) :: fields).

Definition range_bound (b : RangeBound) : ElementValue :=
  match b with BIndex i => EV_Integer i | Unbounded => EV_Null end.

Definition reference_fields (r : ElementReference) : list (string * ElementValue) :=
  [("source_id", EV_String (source_id r)); ("element_id", EV_String (element_id r))].

Definition metadata_fields (m : ElementMetadata) : list (string * ElementValue) :=
  [("reference", ev_object (reference_fields (reference m)));
   ("labels", EV_List (map EV_String (labels m)));
   ("effective_from", EV_String (u64_to_string (effective_from m)))].

(** ** Encoding *)

Fixpoint encode_value (v : VariableValue) : Result ElementValue :=
  match v with
  | VNull | VBool _ | VFloat _ | VInteger _ | VString _ | VLocalDateTime _ | VZonedDateTime _ =>
      map_err (fun _ => Unsupported) (try_into_element_value v)
  | VList items => l ← out_mapM encode_value items; Ok (EV_List l)
  | VObject o =>
      encoded ← out_mapM (fun e => x ← encode_value e.2; Ok (e.1, x)) o;
      if bt_contains TYPE_KEY o
      then Ok (envelope "Object" [("value", ev_object encoded)])
      else Ok (ev_object encoded)
  | VDate d => Ok (envelope "Date" [("days", EV_Integer (num_days_from_ce d))])
  | VLocalTime t =>
      Ok (envelope "LocalTime" [("secs", EV_Integer (num_seconds_from_midnight t));
                                ("nanos", EV_Integer (time_nanosecond t))])
  | VZonedTime z =>
      Ok (envelope "ZonedTime" [("secs", EV_Integer (num_seconds_from_midnight (zt_time z)));
                                ("nanos", EV_Integer (time_nanosecond (zt_time z)));
                                ("offset", EV_Integer (local_minus_utc (zt_offset z)))])
  | VDuration d =>
      Ok (envelope "Duration" [("years", EV_Integer (d_year d)); ("months", EV_Integer (d_month d));
                               ("secs", EV_Integer (num_seconds (d_duration d)));
                               ("nanos", EV_Integer (subsec_nanos (d_duration d)))])
  | VElementReference r => Ok (envelope "ElementReference" (reference_fields r))
  | VElementMetadata m => Ok (envelope "ElementMetadata" (metadata_fields m))
  | VElement (Node m p) =>
      Ok (envelope "Node" [("metadata", ev_object (metadata_fields m)); ("properties", EV_Object p)])
  | VElement (Relation m i o p) =>
      Ok (envelope "Relation" [("metadata", ev_object (metadata_fields m)); ("in_node", ev_object (reference_fields i));
                               ("out_node", ev_object (reference_fields o)); ("properties", EV_Object p)])
  | VAwaiting => Ok (envelope "Awaiting" [])
  | VListRange r => Ok (envelope "ListRange" [("start", range_bound (lr_start r)); ("end", range_bound (lr_end r))])
  | VExpression _ => Err Unsupported
  end.

(** ** Reading objects *)

Definition field (m : ElementPropertyMap) (key : string) : Result ElementValue :=
  match bt_get key m with Some v => Ok v | None => Err Corrupt end.

(** [T::try_from] for the range of [T] *)
Definition int_field (low high : Z) (m : ElementPropertyMap) (key : string) : Result Z :=
  v ← field m key;
  match v with
  | EV_Integer i => if (low <=? i) && (i <=? high) then Ok i else Err Corrupt
  | _ => Err Corrupt
  end.
Definition i32_field := int_field (- 2 ^ 31) (2 ^ 31 - 1).
Definition u32_field := int_field 0 (2 ^ 32 - 1).
Definition i64_field := int_field i64_min i64_max.

Definition str_field (m : ElementPropertyMap) (key : string) : Result string :=
  v ← field m key; match v with EV_String s => Ok s | _ => Err Corrupt end.
Definition list_field (m : ElementPropertyMap) (key : string) : Result (list ElementValue) :=
  v ← field m key; match v with EV_List l => Ok l | _ => Err Corrupt end.
Definition object_field (m : ElementPropertyMap) (key : string) : Result ElementPropertyMap :=
  v ← field m key; match v with EV_Object o => Ok o | _ => Err Corrupt end.

Definition or_corrupt {A} (o : option A) : Result A := match o with Some a => Ok a | None => Err Corrupt end.

Definition decode_range_bound (m : ElementPropertyMap) (key : string) : Result RangeBound :=
  v ← field m key; match v with EV_Integer i => Ok (BIndex i) | EV_Null => Ok Unbounded | _ => Err Corrupt end.

Definition decode_reference (m : ElementPropertyMap) : Result ElementReference :=
  s ← str_field m "source_id"; e ← str_field m "element_id"; Ok {| source_id := s; element_id := e |}.

Definition decode_metadata (m : ElementPropertyMap) : Result ElementMetadata :=
  items ← list_field m "labels";
  l ← out_mapM (fun label => match label with EV_String s => Ok s | _ => Err Corrupt end) items;
  o ← object_field m "reference";
  r ← decode_reference o;
  s ← str_field m "effective_from";
  t ← or_corrupt (parse_u64 s);
  Ok {| reference := r; labels := l; effective_from := t |}.

Definition decode_time (m : ElementPropertyMap) : Result NaiveTime :=
  s ← u32_field m "secs"; n ← u32_field m "nanos"; or_corrupt (from_num_seconds_from_midnight_opt s n).

Definition decode_duration (m : ElementPropertyMap) : Result Duration :=
  secs ← i64_field m "secs";
  nanos ← i64_field m "nanos";
  if (nanos <=? - NANOS_PER_SECOND) || (NANOS_PER_SECOND <=? nanos) || ((secs <? 0) && (0 <? nanos)) ||
     ((0 <? secs) && (nanos <? 0))
  then Err Corrupt
  else
    d ← or_corrupt (s ← try_seconds secs; delta_add s (nanoseconds nanos));
    y ← i64_field m "years";
    mo ← i64_field m "months";
    Ok {| d_duration := d; d_year := y; d_month := mo |}.

(** ** Decoding *)

Section level.
Context (dec : ElementValue -> Result VariableValue).

Definition decode_map (m : ElementPropertyMap) : Result VariableValue :=
  l ← out_mapM (fun e => x ← dec e.2; Ok (e.1, x)) m; Ok (VObject (collect l)).

Definition decode_envelope (type_name : ElementValue) (m : ElementPropertyMap) : Result VariableValue :=
  match type_name with
  | EV_String t =>
      if String.eqb t "Object" then o ← object_field m "value"; decode_map o
      else if String.eqb t "Date" then
        d ← i32_field m "days"; x ← or_corrupt (from_num_days_from_ce_opt d); Ok (VDate x)
      else if String.eqb t "LocalTime" then x ← decode_time m; Ok (VLocalTime x)
      else if String.eqb t "ZonedTime" then
        x ← decode_time m; n ← i32_field m "offset"; o ← or_corrupt (east_opt n);
        Ok (VZonedTime {| zt_time := x; zt_offset := o |})
      else if String.eqb t "Duration" then x ← decode_duration m; Ok (VDuration x)
      else if String.eqb t "ElementReference" then x ← decode_reference m; Ok (VElementReference x)
      else if String.eqb t "ElementMetadata" then x ← decode_metadata m; Ok (VElementMetadata x)
      else if String.eqb t "Node" then
        om ← object_field m "metadata"; x ← decode_metadata om; p ← object_field m "properties";
        Ok (VElement (Node x p))
      else if String.eqb t "Relation" then
        om ← object_field m "metadata"; x ← decode_metadata om;
        oi ← object_field m "in_node"; i ← decode_reference oi;
        oo ← object_field m "out_node"; o ← decode_reference oo;
        p ← object_field m "properties";
        Ok (VElement (Relation x i o p))
      else if String.eqb t "Awaiting" then Ok VAwaiting
      else if String.eqb t "ListRange" then
        s ← decode_range_bound m "start"; e ← decode_range_bound m "end";
        Ok (VListRange {| lr_start := s; lr_end := e |})
      else Err Corrupt
  | _ => Err Corrupt
  end.

Definition decode_step (v : ElementValue) : Result VariableValue :=
  match v with
  | EV_List items => l ← out_mapM dec items; Ok (VList l)
  | EV_Object m => match bt_get TYPE_KEY m with Some type_name => decode_envelope type_name m | None => decode_map m end
  | _ => Ok (from_element_value v)
  end.
End level.

Fixpoint decode_at (fuel : nat) (v : ElementValue) : Result VariableValue :=
  match fuel with 0%nat => Panic | Datatypes.S fuel => decode_step (decode_at fuel) v end.

Fixpoint value_depth (v : ElementValue) : nat :=
  match v with
  | EV_List l => Datatypes.S (fold_right (fun x n => Nat.max (value_depth x) n) 0%nat l)
  | EV_Object m => Datatypes.S (fold_right (fun e n => Nat.max (value_depth e.2) n) 0%nat m)
  | _ => 1%nat
  end.

Definition decode_value (v : ElementValue) : Result VariableValue := decode_at (value_depth v) v.

(** ** State *)

(** State without a version is from before the codec. *)
Definition legacy_slot (state : ElementPropertyMap) (slot : string) : Result ElementValue :=
  match bt_get slot state with Some stored => encode_value (from_element_value stored) | None => Ok EV_Null end.

Definition read_state (state : ElementPropertyMap) : Result (ElementValue * ElementValue) :=
  match bt_get VERSION_KEY state with
  | None => first ← legacy_slot state "0"; second ← legacy_slot state "1"; Ok (first, second)
  | Some (EV_Integer n) =>
      if n =? VERSION then
        first ← or_corrupt (bt_get "0" state); second ← or_corrupt (bt_get "1" state); Ok (first, second)
      else Err Corrupt
  | Some _ => Err Corrupt
  end.

Definition write_state (first second : ElementValue) : ValueAccumulator :=
  AccMap (collect [(VERSION_KEY, EV_Integer VERSION); ("0"%string, first); ("1"%string, second)]).
End codec.

(** * The codec of previous values loses nothing but what the stored form
      cannot hold

    [stored_form] is what remains of a value: a float that is not finite and an
    integer beyond 64 signed bits become zero, and the name of a time zone is
    dropped. Everything else, user objects that hold the codec's own key
    included, comes back as it was. *)

(** What [chrono] documents of these functions *)
Class CodecChronoLaws `{CodecChrono} := {
  days_round_trip : forall d, - 2 ^ 31 <= num_days_from_ce d <= 2 ^ 31 - 1 /\
    from_num_days_from_ce_opt (num_days_from_ce d) = Some d;
  time_round_trip : forall t, 0 <= num_seconds_from_midnight t <= 2 ^ 32 - 1 /\ 0 <= time_nanosecond t <= 2 ^ 32 - 1 /\
    from_num_seconds_from_midnight_opt (num_seconds_from_midnight t) (time_nanosecond t) = Some t;
  offset_round_trip : forall o, - 2 ^ 31 <= local_minus_utc o <= 2 ^ 31 - 1 /\ east_opt (local_minus_utc o) = Some o;
  delta_round_trip : forall d, i64_min <= num_seconds d <= i64_max /\
    - NANOS_PER_SECOND < subsec_nanos d < NANOS_PER_SECOND /\
    (num_seconds d < 0 -> subsec_nanos d <= 0) /\ (0 < num_seconds d -> 0 <= subsec_nanos d) /\
    exists s, try_seconds (num_seconds d) = Some s /\ delta_add s (nanoseconds (subsec_nanos d)) = Some d;
}.

(** ** Decimal numbers *)

Lemma parse_u64_to_string n : u64_ok n -> parse_u64 (u64_to_string n) = Some n.
Proof.
  intros Hn. unfold parse_u64, u64_to_string.
  assert (Hd : NilZero.uint_of_string (NilZero.string_of_uint (N.to_uint (Z.to_N n))) = Some (N.to_uint (Z.to_N n))).
  { apply NilZero.usu. destruct (Z.to_N n) as [|p]; [done|]. apply DecimalPos.Unsigned.to_uint_nonnil. }
  assert (Hv : Z.of_N (N.of_uint (N.to_uint (Z.to_N n))) = n).
  { rewrite DecimalN.Unsigned.of_to. destruct Hn. lia. }
  assert (Hm : (n <=? u64_max) = true) by (destruct Hn; lia).
  destruct (NilZero.string_of_uint (N.to_uint (Z.to_N n))) as [|a s]; [by rewrite Hd, Hv, Hm|].
  destruct (Ascii.eqb_spec a "+") as [->|_]; [|by rewrite Hd, Hv, Hm].
  exfalso. cbn in Hd. by destruct (NilEmpty.uint_of_string s).
Qed.

(** ** Objects *)

Section objects.
Context {V : Type}.

Lemma bt_insert_append (k : string) (v : V) m : Forall (fun e => cmp e.1 k = Lt) m -> bt_insert k v m = m ++ [(k, v)].
Proof.
  induction 1 as [|[j w] m Hj Hm IH]; cbn; [done|]. cbn in Hj. by rewrite (cmp_sym j k), Hj, IH.
Qed.

Lemma collect_sorted (l : list (string * V)) : bt_sorted l -> collect l = l.
Proof.
  unfold collect. intros Hl. change l with ([] ++ l) at 2.
  assert (Hb : Forall (fun e => Forall (fun e' => cmp e.1 e'.1 = Lt) l) ([] : list (string * V))) by constructor.
  revert Hb. generalize (@nil (string * V)). induction Hl as [|k v l Hk Hl IH]; intros acc Hb; cbn; [by rewrite app_nil_r|].
  rewrite bt_insert_append.
  - rewrite IH; [by rewrite <- app_assoc|]. apply Forall_app. split.
    + eapply Forall_impl; [exact Hb|]. intros e He. by inversion He.
    + by repeat constructor.
  - eapply Forall_impl; [exact Hb|]. intros e He. by inversion He.
Qed.

Lemma sorted_same_keys {W} (l : list (string * V)) (l' : list (string * W)) :
  map fst l = map fst l' -> bt_sorted l -> bt_sorted l'.
Proof.
  intros Hk Hl. revert l' Hk. induction Hl as [|k v l Hv Hl IH]; intros [|[k' v'] l'] Hk; try done; [constructor|].
  injection Hk as <- Hk. constructor; [|by apply IH]. clear -Hv Hk. revert l' Hk.
  induction Hv as [|e l He Hv IH]; intros [|e' l'] Hk; try done; constructor.
  - injection Hk as He' _. by rewrite <- He'.
  - injection Hk as _ Hk. by apply IH.
Qed.

Lemma contains_same_keys {W} k (l : list (string * V)) (l' : list (string * W)) :
  map fst l = map fst l' -> bt_contains k l = bt_contains k l'.
Proof.
  unfold bt_contains. revert l'. induction l as [|[j v] l IH]; intros [|[j' v'] l'] Hk; try done.
  injection Hk as <- Hk. cbn. destruct (cmp k j); [done|done|]. by apply IH.
Qed.
End objects.

Lemma out_mapM_Forall2 {E A B} (f : A -> outcome E B) l l' :
  Forall2 (fun a b => f a = Ok b) l l' -> out_mapM f l = Ok l'.
Proof. induction 1 as [|a b l l' Hab _ IH]; cbn; [done|]. by rewrite Hab, IH. Qed.

Section round_trip.
Context {C : Chrono} {O : ChronoOps} {CC : CodecChrono} {CL : CodecChronoLaws}.

(** What comes back *)
Fixpoint stored_form (v : VariableValue) : VariableValue :=
  match v with
  | VFloat f => VFloat (default f64_zero (float_as_f64 f))
  | VInteger i => VInteger (integer_from_i64 (default 0 (integer_as_i64 i)))
  | VZonedDateTime z => VZonedDateTime {| zdt_datetime := zdt_datetime z; zdt_timezone_name := None |}
  | VList l => VList (map stored_form l)
  | VObject o => VObject (map (fun e => (e.1, stored_form e.2)) o)
  | _ => v
  end.

(** Values as the engine builds them, without query syntax *)
Fixpoint storable (v : VariableValue) : Prop :=
  match v with
  | VList l => (fix go l := match l with [] => True | v :: l => storable v /\ go l end) l
  | VObject o => bt_sorted o /\ (fix go o := match o with [] => True | e :: o => storable e.2 /\ go o end) o
  | VDuration d => i64_min <= d_year d <= i64_max /\ i64_min <= d_month d <= i64_max
  | VInteger i => integer_ok i
  | VElementMetadata m => u64_ok (effective_from m)
  | VElement e => u64_ok (get_effective_from e)
  | VExpression _ => False
  | _ => True
  end.

Lemma storable_list l : storable (VList l) <-> Forall storable l.
Proof. induction l as [|v l IH]; cbn in *; [split; [constructor|done]|]. rewrite Forall_cons, IH. done. Qed.

Lemma storable_object o : storable (VObject o) <-> bt_sorted o /\ Forall (fun e => storable e.2) o.
Proof.
  cbn. apply and_iff_compat_l. induction o as [|e o IH]; [split; [constructor|done]|]. rewrite Forall_cons, IH. done.
Qed.

(** ** Fields *)

Lemma int_field_at low high m key i :
  field m key = Ok (EV_Integer i) -> low <= i <= high -> int_field low high m key = Ok i.
Proof.
  intros Hf Hi. unfold int_field. rewrite Hf, out_bind_ok. cbv beta iota.
  by replace ((low <=? i) && (i <=? high)) with true by lia.
Qed.

Lemma str_field_at m key s : field m key = Ok (EV_String s) -> str_field m key = Ok s.
Proof. intros Hf. unfold str_field. by rewrite Hf. Qed.
Lemma list_field_at m key l : field m key = Ok (EV_List l) -> list_field m key = Ok l.
Proof. intros Hf. unfold list_field. by rewrite Hf. Qed.
Lemma object_field_at m key o : field m key = Ok (EV_Object o) -> object_field m key = Ok o.
Proof. intros Hf. unfold object_field. by rewrite Hf. Qed.
Lemma range_bound_at m key b : field m key = Ok (range_bound b) -> decode_range_bound m key = Ok b.
Proof. intros Hf. unfold decode_range_bound. rewrite Hf. by destruct b. Qed.

Lemma decode_reference_fields r : decode_reference (collect (reference_fields r)) = Ok r.
Proof. by destruct r. Qed.

Lemma decode_metadata_at o m :
  u64_ok (effective_from m) -> field o "labels" = Ok (EV_List (map EV_String (labels m))) ->
  field o "reference" = Ok (EV_Object (collect (reference_fields (reference m)))) ->
  field o "effective_from" = Ok (EV_String (u64_to_string (effective_from m))) -> decode_metadata o = Ok m.
Proof.
  intros Hm F1 F2 F3. unfold decode_metadata. rewrite (list_field_at _ _ _ F1), out_bind_ok.
  rewrite (out_mapM_Forall2 _ _ (labels m)), out_bind_ok.
  2:{ apply Forall2_fmap_l, Forall_Forall2_diag, Forall_true. done. }
  rewrite (object_field_at _ _ _ F2), out_bind_ok, decode_reference_fields, out_bind_ok.
  rewrite (str_field_at _ _ _ F3), out_bind_ok, parse_u64_to_string by done. by destruct m.
Qed.

Lemma decode_metadata_fields m : u64_ok (effective_from m) -> decode_metadata (collect (metadata_fields m)) = Ok m.
Proof. intros Hm. by apply decode_metadata_at. Qed.

Lemma decode_time_fields m t :
  field m "secs" = Ok (EV_Integer (num_seconds_from_midnight t)) -> field m "nanos" = Ok (EV_Integer (time_nanosecond t)) ->
  decode_time m = Ok t.
Proof.
  intros Hs Hn. destruct (time_round_trip t) as (H1 & H2 & H3). unfold decode_time, u32_field.
  rewrite (int_field_at _ _ _ _ _ Hs H1), out_bind_ok, (int_field_at _ _ _ _ _ Hn H2), out_bind_ok. by rewrite H3.
Qed.

Lemma decode_duration_fields m d :
  i64_min <= d_year d <= i64_max -> i64_min <= d_month d <= i64_max ->
  field m "secs" = Ok (EV_Integer (num_seconds (d_duration d))) ->
  field m "nanos" = Ok (EV_Integer (subsec_nanos (d_duration d))) ->
  field m "years" = Ok (EV_Integer (d_year d)) -> field m "months" = Ok (EV_Integer (d_month d)) ->
  decode_duration m = Ok d.
Proof.
  intros Hy Hm F1 F2 F3 F4. destruct (delta_round_trip (d_duration d)) as (H1 & H2 & H3 & H4 & s & H5 & H6).
  unfold decode_duration, i64_field.
  rewrite (int_field_at _ _ _ _ _ F1 H1), out_bind_ok.
  rewrite (int_field_at _ _ _ _ _ F2), out_bind_ok by (unfold NANOS_PER_SECOND in *; unfold i64_min, i64_max; lia).
  cbv zeta beta. set (c := _ || _).
  assert (c = false) as ->.
  { subst c. unfold NANOS_PER_SECOND in *. apply not_true_iff_false. rewrite !orb_true_iff, !andb_true_iff. lia. }
  rewrite H5. change (Some s ≫= _) with (delta_add s (nanoseconds (subsec_nanos (d_duration d)))). rewrite H6. cbn [or_corrupt].
  rewrite out_bind_ok, (int_field_at _ _ _ _ _ F3 Hy), out_bind_ok, (int_field_at _ _ _ _ _ F4 Hm), out_bind_ok. by destruct d.
Qed.

(** ** Round trip *)

Lemma value_depth_pos e : (0 < value_depth e)%nat.
Proof. destruct e; cbn; lia. Qed.

Lemma decode_at_envelope n t fields :
  bt_get TYPE_KEY (collect ((TYPE_KEY, EV_String t) :: fields)) = Some (EV_String t) ->
  decode_at (S n) (envelope t fields) = decode_envelope (decode_at n) (EV_String t) (collect ((TYPE_KEY, EV_String t) :: fields)).
Proof. intros Ht. cbn [decode_at decode_step envelope ev_object]. by rewrite Ht. Qed.

Definition comes_back (v : VariableValue) : Prop :=
  exists e, encode_value v = Ok e /\ forall n, (value_depth e <= n)%nat -> decode_at n e = Ok (stored_form v).

(** A tagged object that decodes at any depth *)
Lemma comes_back_envelope v t fields :
  encode_value v = Ok (envelope t fields) ->
  bt_get TYPE_KEY (collect ((TYPE_KEY, EV_String t) :: fields)) = Some (EV_String t) ->
  (forall dec, decode_envelope dec (EV_String t) (collect ((TYPE_KEY, EV_String t) :: fields)) = Ok (stored_form v)) ->
  comes_back v.
Proof.
  intros He Ht Hd. eexists. split; [exact He|]. intros [|n] Hn; [pose proof (value_depth_pos (envelope t fields)); lia|].
  by rewrite decode_at_envelope.
Qed.

Lemma comes_back_plain v e :
  encode_value v = Ok e -> (forall n, decode_at (S n) e = Ok (stored_form v)) -> comes_back v.
Proof.
  intros He Hd. exists e. split; [done|]. intros [|n] Hn; [pose proof (value_depth_pos e); lia|]. apply Hd.
Qed.

Lemma leaf_comes_back v :
  match v with VList _ | VObject _ => False | _ => True end -> storable v -> comes_back v.
Proof.
  intros Hl Hv. destruct v as [|b|x|i|s|l|o|d|t|z|t|z|d|e|r|[m p|m ri ro p]|m|r|]; try done;
    try (eapply comes_back_plain; [reflexivity|done]); (eapply comes_back_envelope; [reflexivity..|]); intros dec;
    set (M := collect _); unfold decode_envelope; cbn [String.eqb Ascii.eqb Bool.eqb].
  - destruct (days_round_trip d) as [H1 H2]. unfold i32_field.
    by rewrite (int_field_at _ _ M "days" (num_days_from_ce d) eq_refl H1), out_bind_ok, H2.
  - by rewrite (decode_time_fields M t eq_refl eq_refl).
  - destruct (offset_round_trip (zt_offset z)) as [H1 H2]. unfold i32_field.
    rewrite (decode_time_fields M (zt_time z) eq_refl eq_refl), out_bind_ok.
    rewrite (int_field_at _ _ M "offset" _ eq_refl H1), out_bind_ok, H2. by destruct z.
  - destruct Hv as [Hy Hm]. by rewrite (decode_duration_fields M d Hy Hm eq_refl eq_refl eq_refl eq_refl).
  - rewrite (range_bound_at M "start" (lr_start r) eq_refl), out_bind_ok.
    rewrite (range_bound_at M "end" (lr_end r) eq_refl), out_bind_ok. by destruct r.
  - rewrite (object_field_at M "metadata" (collect (metadata_fields m)) eq_refl), out_bind_ok.
    by rewrite decode_metadata_fields, out_bind_ok, (object_field_at M "properties" p eq_refl).
  - rewrite (object_field_at M "metadata" (collect (metadata_fields m)) eq_refl), out_bind_ok.
    rewrite decode_metadata_fields, out_bind_ok by done.
    rewrite (object_field_at M "in_node" (collect (reference_fields ri)) eq_refl), out_bind_ok.
    rewrite decode_reference_fields, out_bind_ok.
    rewrite (object_field_at M "out_node" (collect (reference_fields ro)) eq_refl), out_bind_ok.
    rewrite decode_reference_fields, out_bind_ok.
    by rewrite (object_field_at M "properties" p eq_refl).
  - by rewrite (decode_metadata_at M m Hv eq_refl eq_refl eq_refl).
  - by destruct r.
Qed.

Lemma depth_list e (l : list ElementValue) : e ∈ l -> (S (value_depth e) <= value_depth (EV_List l))%nat.
Proof. cbn. induction l as [|x l IH]; [by intros ?%not_elem_of_nil|]. intros [->|He]%elem_of_cons; cbn; [lia|]. specialize (IH He). lia. Qed.

Lemma depth_object k e (m : ElementPropertyMap) : (k, e) ∈ m -> (S (value_depth e) <= value_depth (EV_Object m))%nat.
Proof.
  cbn. induction m as [|[j x] m IH]; [by intros ?%not_elem_of_nil|]. intros [[= -> ->]|He]%elem_of_cons; cbn; [lia|].
  specialize (IH He). lia.
Qed.

Lemma list_comes_back l :
  Forall comes_back l -> exists es, out_mapM encode_value l = Ok es /\
    forall n, (forall e, e ∈ es -> (value_depth e <= n)%nat) -> out_mapM (decode_at n) es = Ok (map stored_form l).
Proof.
  induction 1 as [|v l (e & He & Hd) _ (es & Hes & Hds)]; [by exists []|]. exists (e :: es). split; [cbn; by rewrite He, Hes|].
  intros n Hn. cbn. rewrite Hd by (apply Hn; set_solver). rewrite Hds; [done|]. intros. apply Hn. set_solver.
Qed.

Lemma object_comes_back (o : list (string * VariableValue)) :
  Forall (fun e => comes_back e.2) o -> exists es,
    out_mapM (fun e => x ← encode_value e.2; Ok (e.1, x)) o = Ok es /\ map fst es = map fst o /\
    forall n, (forall k e, (k, e) ∈ es -> (value_depth e <= n)%nat) ->
      out_mapM (fun e => x ← decode_at n e.2; Ok (e.1, x)) es = Ok (map (fun e => (e.1, stored_form e.2)) o).
Proof.
  induction 1 as [|[k v] o (e & He & Hd) _ (es & Hes & Hk & Hds)]; [by exists []|]. cbn in He, Hd.
  exists ((k, e) :: es). split; [|split].
  - cbn. rewrite He, out_bind_ok. by rewrite Hes.
  - cbn. by rewrite Hk.
  - intros n Hn. cbn. rewrite Hd by (eapply Hn; left). rewrite out_bind_ok, Hds; [done|].
    intros j x Hx. apply (Hn j). by right.
Qed.

Lemma decode_map_ok n es (o : list (string * VariableValue)) :
  bt_sorted o ->
  out_mapM (fun e => x ← decode_at n e.2; Ok (e.1, x)) es = Ok (map (fun e => (e.1, stored_form e.2)) o) ->
  decode_map (decode_at n) es = Ok (stored_form (VObject o)).
Proof.
  intros Ho Hm. unfold decode_map. rewrite Hm, out_bind_ok, collect_sorted; [done|].
  eapply sorted_same_keys; [|exact Ho]. by rewrite map_map.
Qed.

(** ** Decoding ends on any state *)

Definition ends {E A} (m : outcome E A) : Prop := m <> Panic.

Lemma ends_bind {E A B} (m : outcome E A) (f : A -> outcome E B) : ends m -> (forall a, m = Ok a -> ends (f a)) -> ends (m ≫= f).
Proof. unfold ends. destruct m; cbn; auto. Qed.

Lemma ends_mapM {E A B} (f : A -> outcome E B) l : (forall a, a ∈ l -> ends (f a)) -> ends (out_mapM f l).
Proof.
  unfold ends. induction l as [|a l IH]; intros Hf; cbn; [done|]. specialize (Hf a ltac:(set_solver)) as Ha.
  destruct (f a); [|done|done]. specialize (IH ltac:(intros; apply Hf; set_solver)). by destruct (out_mapM f l).
Qed.

Lemma ends_field m key : ends (field m key).
Proof. unfold field. by destruct (bt_get key m). Qed.
Lemma ends_or_corrupt {A} (x : option A) : ends (or_corrupt x).
Proof. by destruct x. Qed.
Lemma ends_int low high m key : ends (int_field low high m key).
Proof. apply ends_bind; [apply ends_field|]. intros [] _; try done. by destruct (_ && _). Qed.
Lemma ends_str m key : ends (str_field m key).
Proof. apply ends_bind; [apply ends_field|]. by intros []. Qed.
Lemma ends_list m key : ends (list_field m key).
Proof. apply ends_bind; [apply ends_field|]. by intros []. Qed.
Lemma ends_object m key : ends (object_field m key).
Proof. apply ends_bind; [apply ends_field|]. by intros []. Qed.
Lemma ends_bound m key : ends (decode_range_bound m key).
Proof. apply ends_bind; [apply ends_field|]. by intros []. Qed.

Create HintDb ends.
#[local] Hint Resolve ends_field ends_or_corrupt ends_int ends_str ends_list ends_object ends_bound : ends.

Ltac ends_auto := repeat first [done | solve [auto with ends] | apply ends_bind; [|intros ? _]].

Lemma ends_reference m : ends (decode_reference m).
Proof. unfold decode_reference. ends_auto. Qed.
Lemma ends_metadata m : ends (decode_metadata m).
Proof.
  unfold decode_metadata. apply ends_bind; [auto with ends|]. intros items _. apply ends_bind.
  - apply ends_mapM. by intros [].
  - intros l _. pose proof ends_reference. ends_auto.
Qed.
Lemma ends_time m : ends (decode_time m).
Proof. unfold decode_time, u32_field. ends_auto. Qed.
Lemma ends_duration m : ends (decode_duration m).
Proof. unfold decode_duration, i64_field. do 2 (apply ends_bind; [auto with ends|intros ? _]). destruct (_ || _); ends_auto. Qed.
#[local] Hint Resolve ends_reference ends_metadata ends_time ends_duration : ends.

Lemma ends_decode_map n (m : ElementPropertyMap) :
  (forall k e, (k, e) ∈ m -> ends (decode_at n e)) -> ends (decode_map (decode_at n) m).
Proof.
  intros Hm. apply ends_bind; [|done]. apply ends_mapM. intros [k e] He. apply ends_bind; [by apply (Hm k)|done].
Qed.

Lemma field_elem m key v : field m key = Ok v -> exists k, (k, v) ∈ m.
Proof.
  unfold field. destruct (bt_get key m) as [x|] eqn:Hg; [|done]. intros [= ->]. apply bt_get_Some_elem in Hg. naive_solver.
Qed.

Lemma ends_decode_at n v : (value_depth v <= n)%nat -> ends (decode_at n v).
Proof.
  revert v. induction n as [|n IH]; intros v Hv; [pose proof (value_depth_pos v); lia|].
  destruct v as [|b|x|i|s|l|m|dt|dt]; try done; cbn [decode_at decode_step].
  - apply ends_bind; [|done]. apply ends_mapM. intros e He. apply IH. pose proof (depth_list e l He). lia.
  - destruct (bt_get TYPE_KEY m) as [t|].
    + unfold decode_envelope. destruct t as [| | | |t| | | |]; try done.
      destruct (String.eqb t "Object").
      { unfold object_field. apply ends_bind; [apply ends_object|]. intros o Ho.
        unfold object_field in Ho. destruct (field m "value") as [x| |] eqn:Hf; [|done..]. destruct x; try done.
        cbn in Ho. injection Ho as ->. destruct (field_elem _ _ _ Hf) as [k Hk]. apply ends_decode_map. intros j e He.
        apply IH. pose proof (depth_object k _ m Hk). pose proof (depth_object j e o He). lia. }
      unfold i32_field. repeat (destruct (String.eqb t _); [ends_auto|]). done.
    + apply ends_decode_map. intros k e He. apply IH. pose proof (depth_object k e m He). lia.
Qed.

(** [decode_value] has enough fuel, for corrupt state too. *)
Lemma decode_value_ends v : decode_value v <> Panic.
Proof. by apply ends_decode_at. Qed.

Lemma stored_value_decoded v :
  storable v -> exists e, encode_value v = Ok e /\ decode_value e = Ok (stored_form v).
Proof.
  intros Hv. enough (comes_back v) as (e & He & Hd) by (exists e; split; [done|by apply Hd]).
  induction v as [l IH|o IH|v Hl] using VariableValue_ind'; [| |by apply leaf_comes_back].
  - apply storable_list in Hv. destruct (list_comes_back l) as (es & Hes & Hd).
    { rewrite Forall_forall in *. auto. }
    exists (EV_List es). split; [cbn; by rewrite Hes|]. intros [|n] Hn; [cbn in Hn; lia|].
    cbn [decode_at decode_step]. rewrite Hd, out_bind_ok; [done|]. intros e He. pose proof (depth_list e es He). lia.
  - apply storable_object in Hv as [Ho Hv]. destruct (object_comes_back o) as (es & Hes & Hk & Hd).
    { rewrite Forall_forall in *. auto. }
    assert (Hsorted : bt_sorted es) by by eapply sorted_same_keys.
    cbn [encode_value]. pose proof (contains_same_keys TYPE_KEY es o Hk) as Hcont.
    unfold comes_back. cbn [encode_value]. rewrite Hes, out_bind_ok.
    destruct (bt_contains TYPE_KEY o) eqn:Ht.
    + eexists. split; [reflexivity|]. intros n Hn. unfold ev_object in *. rewrite collect_sorted in * by done.
      change (value_depth (envelope "Object" [("value"%string, EV_Object es)])) with
        (S (Nat.max 1 (Nat.max (value_depth (EV_Object es)) 0))) in Hn.
      destruct n as [|n]; [lia|]. rewrite decode_at_envelope by done. set (M := collect _).
      unfold decode_envelope. cbn [String.eqb Ascii.eqb Bool.eqb].
      rewrite (object_field_at M "value" es eq_refl), out_bind_ok. apply decode_map_ok; [done|]. apply Hd.
      intros k e He. pose proof (depth_object k e es He). lia.
    + exists (EV_Object es). unfold ev_object. rewrite collect_sorted by done. split; [done|].
      intros [|n] Hn; [cbn in Hn; lia|]. cbn [decode_at decode_step].
      unfold bt_contains in Hcont. destruct (bt_get TYPE_KEY es); [done|].
      apply decode_map_ok; [done|]. apply Hd. intros k e He. pose proof (depth_object k e es He). lia.
Qed.

Lemma out_mapM_ext {E A B A'} (f : A -> outcome E B) (f' : A' -> outcome E B) (g : A -> A') l :
  (forall a, a ∈ l -> f' (g a) = f a) -> out_mapM f' (map g l) = out_mapM f l.
Proof.
  induction l as [|a l IH]; intros Hf; cbn; [done|].
  rewrite Hf by by left. rewrite IH by (intros x Hx; apply Hf; by right). done.
Qed.

Lemma stored_float f : default f64_zero (float_as_f64 (default f64_zero (float_as_f64 f))) = default f64_zero (float_as_f64 f).
Proof. unfold float_as_f64. destruct (f64_is_finite f) eqn:Hf; cbn; [by rewrite Hf|done]. Qed.

Lemma stored_integer i : integer_ok i -> let n := default 0 (integer_as_i64 i) in default 0 (integer_as_i64 (integer_from_i64 n)) = n.
Proof.
  intros Hi n. assert (Hn : n <= i64_max).
  { subst n. destruct i as [m|m]; cbn in *; [|unfold i64_max; lia]. destruct (Z.leb_spec m i64_max); cbn; [done|]. unfold i64_max; lia. }
  unfold integer_from_i64. destruct (n <? 0) eqn:Hneg; cbn; [done|]. by replace (n <=? i64_max) with true by lia.
Qed.

(** What comes back is stored like the value itself. *)
Lemma encode_stored_form v : storable v -> encode_value (stored_form v) = encode_value v.
Proof.
  induction v as [l IH|o IH|v Hl] using VariableValue_ind'; intros Hv.
  - apply storable_list in Hv. cbn. rewrite Forall_forall in IH, Hv. rewrite (out_mapM_ext encode_value encode_value stored_form); [done|].
    intros a Ha. by apply IH, Hv.
  - apply storable_object in Hv as [_ Hv]. cbn. rewrite Forall_forall in IH, Hv.
    rewrite (out_mapM_ext (fun e => x ← encode_value e.2; Ok (e.1, x))).
    2: { intros [k v] Hkv. cbn. f_equal. by apply (IH _ Hkv), (Hv _ Hkv). }
    by rewrite (contains_same_keys TYPE_KEY (map _ o) o) by (rewrite map_map; done).
  - destruct v as [|b|f|i| | | | | | | | | | | | | | |]; try done; cbn; do 2 f_equal.
    + by rewrite stored_float.
    + by apply stored_integer.
Qed.

(** [C32] Every value without query syntax survives the codec in its stored form:
    objects of the user that hold the codec's own key, elements with their
    properties, temporal values, ranges. What comes back is stored as the value
    was. *)
Theorem state_codec_round_trip v :
  storable v ->
  exists e, encode_value v = Ok e /\ decode_value e = Ok (stored_form v) /\ encode_value (stored_form v) = Ok e.
Proof.
  intros Hv. destruct (stored_value_decoded v Hv) as (e & He & Hd). exists e. by rewrite encode_stored_form.
Qed.
End round_trip.
