(* ===== verification/FutureFunctions.v ===== *)
(** * Functions over time (core/src/evaluation/functions/future/,
      core/src/evaluation/functions/past/mod.rs,
      core/src/evaluation/functions/context_mutators.rs)

    A function of the future answers [VAwaiting] until its time has come and
    leaves a request in the future queue, under its position in the query and
    the signature of the row; it acts only when the row is applied, not when
    it is reverted. Functions of the past read earlier values: those they keep
    themselves in the result index, and the archive of elements. *)

From S2P Require Import Prelude BTree Floats Hashing Ast Models Errors Values ChronoOps ResultIndex LazySortedSet.
From S2P Require Import Aggregation Contexts AggregateFacts Expressions FutureQueue ElementIndex Session StateCodec.

(** [ElementArchiveIndex]; the stream of versions is the list of its items. *)
Class ElementArchiveOps `{Chrono} (S : Type) := {
  archive_as_at : S -> ElementReference -> ElementTimestamp -> outcome IndexError (option Element);
  archive_versions : S -> ElementReference -> TimestampRange -> outcome IndexError (list Element);
}.

#[global] Instance indexes_archive {C : Chrono} {H : Hashers} : ElementArchiveOps Indexes := {|
  archive_as_at s := get_element_as_at (element_index s);
  archive_versions s := get_element_versions (element_index s) |}.

Section functions.
Context {C : Chrono} {O : ChronoOps} {CC : CodecChrono} {H : Hashers}.
Context {S : Type} `{!AccumulatorIndex S} `{!FutureQueueOps S} `{!ElementArchiveOps S}.

Notation M := (SM S FunctionError).
Notation Evaluator := (ExpressionEvaluationContext -> Expression -> SM S EvaluationError VariableValue).

(** ** Errors *)

Definition failing {A} (call : FunctionCall) (e : FunctionEvaluationError) : M A :=
  sm_err {| function_name := call_name call; error := e |}.
Definition checked {A} (call : FunctionCall) (m : outcome FunctionEvaluationError A) : M A :=
  sm_lift (map_err (fun e => {| function_name := call_name call; error := e |}) m).
Definition on_index {A} (call : FunctionCall) (m : SM S IndexError A) : M A :=
  sm_map_err (fun e => {| function_name := call_name call; error := FunctionIndexError e |}) m.
Definition evaluating {A} (call : FunctionCall) (m : SM S EvaluationError A) : M A :=
  sm_map_err (fun e => {| function_name := call_name call; error := FunctionEvaluation e |}) m.
Definition codec {A} (call : FunctionCall) (m : outcome StateCodecError A) : M A := checked call (map_err codec_error m).

Definition read_acc (key : ResultKey) (owner : ResultOwner) : SM S IndexError (option ValueAccumulator) :=
  fun s => (acc_get s key owner, s).
Definition write_acc (key : ResultKey) (owner : ResultOwner) (v : option ValueAccumulator) : SM S IndexError unit :=
  fun s => match acc_set s key owner v with Ok s => (Ok tt, s) | Err e => (Err e, s) | Panic => (Panic, s) end.

(** ** Arguments *)

Definition condition_argument (v : VariableValue) : outcome FunctionEvaluationError (option bool) :=
  match v with
  | VBool b => Ok (Some b)
  | VNull => Ok None
  | _ => Err (InvalidArgument 0)
  end.

(** Milliseconds since the epoch; [as u64] of the signed ones. *)
Definition timestamp_argument (n : nat) (v : VariableValue) : outcome FunctionEvaluationError Z :=
  match v with
  | VDate d => Ok (as_u64 (date_timestamp_millis d))
  | VLocalDateTime t => Ok (as_u64 (utc_timestamp_millis t))
  | VZonedDateTime z => Ok (as_u64 (timestamp_millis (zdt_datetime z)))
  | VInteger i => match integer_as_u64 i with Some u => Ok u | None => Err OverflowError end
  | _ => Err (InvalidArgument n)
  end.
Definition due_time_argument (n : nat) (v : VariableValue) : outcome FunctionEvaluationError (option Z) :=
  match v with VNull => Ok None | _ => d ← timestamp_argument n v; Ok (Some d) end.

(** [Duration::milliseconds] panics out of range. *)
Definition duration_argument (n : nat) (v : VariableValue) : outcome FunctionEvaluationError (option TimeDelta) :=
  match v with
  | VDuration d => Ok (Some (d_duration d))
  | VInteger i =>
      match integer_as_i64 i with
      | Some ms => match milliseconds ms with Some d => Ok (Some d) | None => Panic end
      | None => Err OverflowError
      end
  | VNull => Ok None
  | _ => Err (InvalidArgument n)
  end.

Definition time_after (t : Z) (d : TimeDelta) : Z := as_u64 (t + as_u64 (num_milliseconds d)).

Definition when_applied (ctx : ExpressionEvaluationContext) (m : M unit) : M unit :=
  match side_effects ctx with Apply => m | _ => mret tt end.

Definition request_future (push_type : PushType) (ctx : ExpressionEvaluationContext) (call : FunctionCall)
    (r : ElementReference) (due_time : Z) : M unit :=
  when_applied ctx (on_index call (
    _ ← fut_push push_type (position_in_query call) (input_grouping_hash ctx) r (transaction_time (clock ctx)) due_time;
    mret tt)).

Definition withdraw (ctx : ExpressionEvaluationContext) (call : FunctionCall) : M unit :=
  when_applied ctx (on_index call (fut_remove (position_in_query call) (input_grouping_hash ctx))).

(** ** drasi.awaiting, drasi.future, drasi.trueLater, drasi.trueNowOrLater,
    drasi.trueUntil *)

Definition awaiting (_ : ExpressionEvaluationContext) (_ : FunctionCall) (_ : list VariableValue) : M VariableValue :=
  mret VAwaiting.

Definition future_element (ctx : ExpressionEvaluationContext) (call : FunctionCall) (args : list VariableValue) :
    M VariableValue :=
  match args with
  | [element; due] =>
      match element with
      | VElement e =>
          due_time ← checked call (timestamp_argument 1 due);
          if due_time <=? realtime (clock ctx) then _ ← withdraw ctx call; mret element
          else _ ← request_future Always ctx call (get_reference e) due_time; mret VAwaiting
      | _ => failing call (InvalidArgument 0)
      end
  | _ => failing call InvalidArgumentCount
  end.

(** Two arguments, an anchor, and a condition: anything else answers null, or
    fails. *)
Definition with_condition (ctx : ExpressionEvaluationContext) (call : FunctionCall) (args : list VariableValue)
    (body : Element -> bool -> VariableValue -> M VariableValue) : M VariableValue :=
  match args with
  | [condition; due] =>
      match anchor_element ctx with
      | None => mret VNull
      | Some anchor =>
          c ← checked call (condition_argument condition);
          match (c : option bool) with
          | Some c => body anchor c due
          | None => mret VNull
          end
      end
  | _ => failing call InvalidArgumentCount
  end.

Definition with_due_time (call : FunctionCall) (due : VariableValue) (body : Z -> M VariableValue) : M VariableValue :=
  d ← checked call (due_time_argument 1 due);
  match (d : option Z) with Some d => body d | None => mret VNull end.

Definition true_later (ctx : ExpressionEvaluationContext) (call : FunctionCall) (args : list VariableValue) :
    M VariableValue :=
  with_condition ctx call args (fun anchor condition due =>
    with_due_time call due (fun due_time =>
      if due_time <=? realtime (clock ctx) then mret (VBool condition)
      else _ ← request_future Overwrite ctx call (get_reference anchor) due_time; mret VAwaiting)).

Definition true_now_or_later (ctx : ExpressionEvaluationContext) (call : FunctionCall) (args : list VariableValue) :
    M VariableValue :=
  with_condition ctx call args (fun anchor condition due =>
    if condition then mret (VBool true)
    else with_due_time call due (fun due_time =>
      if due_time <=? realtime (clock ctx) then mret (VBool condition)
      else _ ← request_future Overwrite ctx call (get_reference anchor) due_time; mret VAwaiting)).

Definition true_until (ctx : ExpressionEvaluationContext) (call : FunctionCall) (args : list VariableValue) :
    M VariableValue :=
  with_condition ctx call args (fun anchor condition due =>
    with_due_time call due (fun due_time =>
      if negb condition then _ ← withdraw ctx call; mret (VBool condition)
      else if due_time <=? realtime (clock ctx) then _ ← withdraw ctx call; mret (VBool condition)
      else _ ← request_future IfNotExists ctx call (get_reference anchor) due_time; mret VAwaiting)).

(** ** drasi.trueFor *)

(** The time from which on the condition has held, and what it leaves in the
    index *)
Definition true_since (ctx : ExpressionEvaluationContext) (call : FunctionCall) (key : ResultKey) : M Z :=
  let owner := OwnerFunction (position_in_query call) in
  marker ← on_index call (read_acc key owner);
  match (marker : option ValueAccumulator) with
  | Some (AccTimeMarker since) =>
      _ ← match side_effects ctx with
          | RevertForDelete => on_index call (write_acc key owner None)
          | _ => mret tt
          end;
      mret since
  | None =>
      _ ← when_applied ctx (on_index call (write_acc key owner (Some (AccTimeMarker (transaction_time (clock ctx))))));
      mret (transaction_time (clock ctx))
  | Some _ => failing call CorruptData
  end.

Definition true_for (ev : Evaluator) (ctx : ExpressionEvaluationContext) (call : FunctionCall)
    (args : list VariableValue) : M VariableValue :=
  with_condition ctx call args (fun anchor condition duration =>
    d ← checked call (duration_argument 1 duration);
    match (d : option TimeDelta) with
    | None => mret VNull
    | Some d =>
        key ← evaluating call (resolve_context_result_key ev ctx);
        if negb condition then
          _ ← when_applied ctx (on_index call (write_acc key (OwnerFunction (position_in_query call)) None));
          _ ← withdraw ctx call;
          mret (VBool condition)
        else
          since ← true_since ctx call key;
          let due_time := time_after since d in
          if due_time <=? realtime (clock ctx) then _ ← withdraw ctx call; mret (VBool condition)
          else _ ← request_future IfNotExists ctx call (get_reference anchor) due_time; mret VAwaiting
    end).

(** ** drasi.slidingWindow *)

(** A read whose failure counts as nothing found *)
Definition attempt_read (key : ResultKey) (owner : ResultOwner) : M (option ValueAccumulator) := fun s =>
  match acc_get s key owner with Ok o => (Ok o, s) | Err _ => (Ok None, s) | Panic => (Panic, s) end.

Definition sliding_window (ev : Evaluator) (ctx : ExpressionEvaluationContext) (call : FunctionCall) : M VariableValue :=
  let owner := OwnerFunction (position_in_query call) in
  match call_args call with
  | [window; expression] =>
      window_arg ← evaluating call (ev ctx window);
      size ← checked call (duration_argument 0 window_arg);
      match (size : option TimeDelta) with
      | None => mret VNull
      | Some size =>
          let due_time := time_after (transaction_time (clock ctx)) size in
          let as_before := evaluating call (ev (set_side_effects Snapshot ctx) expression) in
          let as_now := evaluating call (ev ctx expression) in
          match anchor_element ctx, side_effects ctx with
          | Some anchor, Apply =>
              if due_time <=? realtime (clock ctx) then
                _ ← on_index call (write_acc (KeyElement (get_reference anchor)) owner (Some (AccSignature 1)));
                as_before
              else _ ← request_future Overwrite ctx call (get_reference anchor) due_time; as_now
          | Some anchor, (RevertForUpdate | RevertForDelete) =>
              marker ← attempt_read (KeyElement (get_reference anchor)) owner;
              match (marker : option ValueAccumulator) with
              | Some (AccSignature _) =>
                  _ ← on_index call (write_acc (KeyElement (get_reference anchor)) owner None); as_before
              | _ => as_now
              end
          | _, _ => as_now
          end
      end
  | _ => failing call InvalidArgumentCount
  end.

(** ** drasi.previousValue, drasi.previousDistinctValue *)

Definition stored_pair (call : FunctionCall) (default_value : ElementValue) (acc : option ValueAccumulator) :
    M (ElementValue * ElementValue) :=
  match acc with
  | Some (AccMap m) => codec call (read_state m)
  | Some _ => failing call (InvalidType "ElementValue")
  | None => mret (default_value, default_value)
  end.

(** Both functions encode the default and the value, find the state of the row
    and go on with it. *)
Definition with_state (ev : Evaluator) (ctx : ExpressionEvaluationContext) (call : FunctionCall)
    (args : list VariableValue)
    (body : ResultKey -> ElementValue -> ElementValue * ElementValue -> M VariableValue) : M VariableValue :=
  match args with
  | [] => failing call InvalidArgumentCount
  | value :: rest =>
      default_value ← codec call (encode_value match rest with d :: _ => d | [] => VNull end);
      key ← evaluating call (resolve_context_result_key ev ctx);
      current_value ← codec call (encode_value value);
      acc ← on_index call (read_acc key (OwnerFunction (position_in_query call)));
      state ← stored_pair call default_value acc;
      body key current_value state
  end.

Definition save_state (call : FunctionCall) (key : ResultKey) (first second : ElementValue) : M unit :=
  on_index call (write_acc key (OwnerFunction (position_in_query call)) (Some (write_state first second))).

Definition previous_value (ev : Evaluator) (ctx : ExpressionEvaluationContext) (call : FunctionCall)
    (args : list VariableValue) : M VariableValue :=
  with_state ev ctx call args (fun key current_value state =>
    let '(last_value, value_before_last) := state in
    match side_effects ctx with
    | Apply =>
        result ← codec call (decode_value last_value);
        _ ← save_state call key current_value last_value;
        mret result
    | _ => codec call (decode_value value_before_last)
    end).

Definition previous_distinct_value (ev : Evaluator) (ctx : ExpressionEvaluationContext) (call : FunctionCall)
    (args : list VariableValue) : M VariableValue :=
  with_state ev ctx call args (fun key current_value state =>
    let '(prev_unique, before_value) := state in
    match side_effects ctx with
    | Apply =>
        let prev_unique := if element_value_eqb current_value before_value then prev_unique else before_value in
        result ← codec call (decode_value prev_unique);
        _ ← save_state call key prev_unique current_value;
        mret result
    | _ => codec call (decode_value prev_unique)
    end).

(** ** drasi.getVersionByTimestamp, drasi.getVersionsByTimeRange *)

Definition from_archive {A} (call : FunctionCall) (m : S -> outcome IndexError A) : M A :=
  on_index call (fun s => (m s, s)).

Definition get_version_by_timestamp (_ : ExpressionEvaluationContext) (call : FunctionCall)
    (args : list VariableValue) : M VariableValue :=
  match args with
  | [element; timestamp] =>
      match element with
      | VElement e =>
          t ← checked call (timestamp_argument 1 timestamp);
          found ← from_archive call (fun s => archive_as_at s (get_reference e) t);
          mret match (found : option Element) with Some e => VElement e | None => VNull end
      | _ => failing call (InvalidArgument 0)
      end
  | _ => failing call InvalidArgumentCount
  end.

(** The updated element of an initial value is built and dropped. *)
Definition get_versions_by_time_range (_ : ExpressionEvaluationContext) (call : FunctionCall)
    (args : list VariableValue) : M VariableValue :=
  match args with
  | element :: from :: to :: rest =>
      if (1 <? Z.of_nat (length rest)) then failing call InvalidArgumentCount
      else match element with
      | VElement e =>
          from ← checked call (timestamp_argument 1 from);
          to ← checked call (timestamp_argument 2 to);
          retrieve_initial_value ← match rest with
            | [] => mret false
            | VBool b :: _ => mret b
            | _ => failing call (InvalidArgument 3)
            end;
          let range := {| range_from := if (retrieve_initial_value : bool) then StartFromPrevious from else Included from;
                          range_to := to |} in
          versions ← from_archive call (fun s => archive_versions s (get_reference e) range);
          mret (VList (map VElement versions))
      | _ => failing call (InvalidArgument 0)
      end
  | _ => failing call InvalidArgumentCount
  end.

(** ** retainHistory *)

Definition retain_history (_ : Evaluator) (ctx : ExpressionEvaluationContext) (_ : FunctionCall) :
    M ExpressionEvaluationContext :=
  mret match side_effects ctx with
       | RevertForUpdate | RevertForDelete => set_side_effects Snapshot ctx
       | _ => ctx
       end.

(** ** Registration *)

Definition register_future_functions (registry : gmap string (Function (S:=S))) : gmap string (Function (S:=S)) :=
  fold_left (fun r e => register_function e.1 e.2 r)
    [("drasi.awaiting", Scalar awaiting); ("drasi.future", Scalar future_element);
     ("drasi.trueUntil", Scalar true_until); ("drasi.trueFor", EvaluatingScalar true_for);
     ("drasi.trueLater", Scalar true_later); ("drasi.trueNowOrLater", Scalar true_now_or_later);
     ("drasi.previousValue", EvaluatingScalar previous_value);
     ("drasi.previousDistinctValue", EvaluatingScalar previous_distinct_value);
     ("drasi.slidingWindow", LazyScalar sliding_window)]%string registry.

Definition register_past_functions (registry : gmap string (Function (S:=S))) : gmap string (Function (S:=S)) :=
  register_function "drasi.getVersionsByTimeRange" (Scalar get_versions_by_time_range)
    (register_function "drasi.getVersionByTimestamp" (Scalar get_version_by_timestamp) registry).
End functions.
