(* ===== verification/FutureFunctionsFacts.v ===== *)
(** * What the functions over time answer

    [previous_value_recalls]: the value before the last change of a row, in its
    stored form. [true_for_holds]: [drasi.trueFor] is true of a row exactly
    when its condition has held for the duration, at every change applied
    since, and otherwise, while it holds, one request for the time at which it
    would become true is in the queue. *)

From S2P Require Import Prelude BTree Floats Hashing Ast Models Errors Values ChronoOps ResultIndex LazySortedSet.
From S2P Require Import Aggregation Contexts AggregateFacts Expressions FutureQueue ElementIndex Session StateCodec.
From S2P Require Import FutureFunctions.

(** ** A store with accumulators and timers *)

(** The due times of the requests of a call for a row *)
Class TimerStore {C : Chrono} {H : Hashers} (S : Type) `{!AccumulatorIndex S} `{!FutureQueueOps S} `{!AccumulatorLaws S} := {
  timers_ok : S -> Prop;
  timers : S -> nat -> Z -> gset Z;
  timer_push : forall s pos g r ot due, timers_ok s -> 0 <= due <= i64_max ->
    exists b s', fut_push IfNotExists pos g r ot due s = (Ok b, s') /\ timers_ok s' /\
      (forall k o, acc_at s' k o = acc_at s k o) /\
      timers s' pos g = if decide (timers s pos g = ∅) then {[ due ]} else timers s pos g;
  timer_remove : forall s pos g, timers_ok s ->
    exists s', fut_remove pos g s = (Ok tt, s') /\ timers_ok s' /\
      (forall k o, acc_at s' k o = acc_at s k o) /\ timers s' pos g = ∅;
  timer_acc : forall s k o v s', timers_ok s -> acc_set s k o v = Ok s' ->
    timers_ok s' /\ forall pos g, timers s' pos g = timers s pos g;
}.

Section facts.
Context {C : Chrono} {O : ChronoOps} {CC : CodecChrono} {H : Hashers}.
Context {S : Type} `{!AccumulatorIndex S} `{!FutureQueueOps S} `{!AccumulatorLaws S}.
Notation Evaluator := (ExpressionEvaluationContext -> Expression -> SM S EvaluationError VariableValue).
Context (ev : Evaluator) (call : FunctionCall) (key : ResultKey).

(** The evaluations of one row: they find the same key. *)
Definition of_row (ctx : ExpressionEvaluationContext) : Prop :=
  forall s, resolve_context_result_key ev ctx s = (Ok key, s).

Lemma of_row_ungrouped ctx : output_grouping_key ctx = None -> key = KeyInputHash (input_grouping_hash ctx) -> of_row ctx.
Proof. intros Hg Hk s. unfold resolve_context_result_key. by rewrite Hg, Hk. Qed.

Notation owner := (OwnerFunction (position_in_query call)).

Lemma evaluating_key {A} ctx (f : ResultKey -> SM S FunctionError A) s :
  of_row ctx -> (evaluating call (resolve_context_result_key ev ctx) ≫= f) s = f key s.
Proof. intros Hc. unfold evaluating, sm_map_err, mbind, SM_bind. by rewrite Hc. Qed.

Lemma reading_acc {A} k o (f : option ValueAccumulator -> SM S FunctionError A) s :
  (on_index call (read_acc k o) ≫= f) s = f (acc_at s k o) s.
Proof. unfold on_index, sm_map_err, read_acc, mbind, SM_bind. by rewrite acc_get_ok. Qed.

Lemma writing_acc k o v s :
  exists s', on_index call (write_acc k o v) s = (Ok tt, s') /\ acc_set s k o v = Ok s' /\ acc_at s' k o = v.
Proof.
  destruct (acc_set_ok s k o v) as (s' & Hs & Hv & _). exists s'. unfold on_index, sm_map_err, write_acc. by rewrite Hs.
Qed.

Lemma codec_ok {A B} (m : outcome StateCodecError A) (a : A) (f : A -> SM S FunctionError B) s :
  m = Ok a -> (codec call m ≫= f) s = f a s.
Proof. intros ->. reflexivity. Qed.

Lemma checked_ok {A B} (m : outcome FunctionEvaluationError A) (a : A) (f : A -> SM S FunctionError B) s :
  m = Ok a -> (checked call m ≫= f) s = f a s.
Proof. intros ->. reflexivity. Qed.

(** ** drasi.previousValue *)

Context {CL : CodecChronoLaws}.

(** The state of a row holds two values in their stored form. *)
Definition holds_values (s : S) (default_value first second : VariableValue) : Prop :=
  exists f l, decode_value f = Ok first /\ decode_value l = Ok second /\
    (acc_at s key owner = Some (write_state f l) \/
     (acc_at s key owner = None /\ encode_value default_value = Ok f /\ f = l)).

Lemma read_write_state first second :
  exists m, write_state first second = AccMap m /\ read_state m = Ok (first, second).
Proof. eexists. split; reflexivity. Qed.

(** What one row is asked, in turn: the kind of the evaluation and the value. *)
Fixpoint recalled (first second : VariableValue) (calls : list (SideEffects * VariableValue)) : list VariableValue :=
  match calls with
  | [] => []
  | (Apply, v) :: calls => first :: recalled (stored_form v) first calls
  | _ :: calls => second :: recalled first second calls
  end.

Fixpoint ask (fn : Evaluator -> ExpressionEvaluationContext -> FunctionCall -> list VariableValue -> SM S FunctionError VariableValue)
    (default_value : VariableValue) (calls : list (ExpressionEvaluationContext * VariableValue)) (s : S) :
    list (outcome FunctionError VariableValue) :=
  match calls with
  | [] => []
  | (ctx, v) :: calls =>
      let '(r, s) := fn ev ctx call [v; default_value] s in r :: ask fn default_value calls s
  end.

Lemma previous_value_step ctx v d first second s :
  of_row ctx -> storable v -> storable d -> holds_values s d first second ->
  exists s', previous_value ev ctx call [v; d] s = (Ok match side_effects ctx with Apply => first | _ => second end, s') /\
    match side_effects ctx with Apply => holds_values s' d (stored_form v) first | _ => s' = s end.
Proof.
  intros Hc Hv Hd (f & l & Hf & Hl & Hacc). destruct (stored_value_decoded v Hv) as (e & He & Hev).
  destruct (stored_value_decoded d Hd) as (ed & Hed & _). unfold previous_value, with_state.
  rewrite (codec_ok _ ed _ _ Hed), evaluating_key, (codec_ok _ e _ _ He), reading_acc by done.
  assert (Hst : stored_pair call ed (acc_at s key owner) s = (Ok (f, l), s)).
  { destruct Hacc as [Ha|(Ha & Hdf & ->)]; rewrite Ha; unfold stored_pair.
    - destruct (read_write_state f l) as (m & -> & Hm). unfold codec, checked, sm_lift. by rewrite Hm.
    - rewrite Hed in Hdf. by injection Hdf as <-. }
  rewrite (sm_bind_ok _ _ _ _ _ Hst). cbv beta iota. destruct (side_effects ctx).
  - rewrite (codec_ok _ first _ _ Hf). unfold save_state.
    destruct (writing_acc key owner (Some (write_state e f)) s) as (s' & Hw & _ & Hs').
    rewrite (sm_bind_ok _ _ _ _ _ Hw). exists s'. split; [done|]. exists e, f. split_and!; [done|done|by left].
  - exists s. unfold codec, checked, sm_lift. by rewrite Hl.
  - exists s. unfold codec, checked, sm_lift. by rewrite Hl.
  - exists s. unfold codec, checked, sm_lift. by rewrite Hl.
Qed.

(** [drasi.previousValue] answers an applied change of a row with the value
    that the change applied before it had, the first one with the default, and
    an evaluation that only looks, or that reverts, with what the last applied
    change was answered; all in their stored form. *)
Theorem previous_value_recalls d calls s :
  acc_at s key owner = None -> storable d ->
  Forall (fun c => of_row c.1 /\ storable c.2) calls ->
  ask previous_value d calls s =
  map Ok (recalled (stored_form d) (stored_form d) (map (fun c => (side_effects c.1, c.2)) calls)).
Proof.
  intros Hs Hd Hc.
  assert (Hh : holds_values s d (stored_form d) (stored_form d)).
  { destruct (stored_value_decoded d Hd) as (e & He & Hde). exists e, e. split_and!; [done|done|by right]. }
  clear Hs. revert s Hh. generalize (stored_form d) at 1 3. generalize (stored_form d).
  induction Hc as [|[ctx v] calls [Hrow Hv] Hc IH]; intros second first s Hh; [done|].
  cbn in Hrow, Hv. cbn [ask map].
  destruct (previous_value_step ctx v d first second s Hrow Hv Hd Hh) as (s' & -> & Hs'). cbn [fst snd].
  destruct (side_effects ctx); cbn; f_equal; [by apply IH|by subst; apply IH..].
Qed.

(** ** drasi.trueFor *)

Context `{!TimerStore S} (g : Z) (dv : VariableValue) (d : TimeDelta).
Notation pos := (position_in_query call).

(** The time from which on the condition has held, of the conditions of the
    applied changes and the transaction times they had *)
Definition held_since (log : list (bool * Z)) : option Z :=
  fold_left (fun (since : option Z) (e : bool * Z) => if e.1 then Some (default e.2 since) else None) log None.

Lemma held_since_snoc log c tx :
  held_since (log ++ [(c, tx)]) = if c then Some (default tx (held_since log)) else None.
Proof. unfold held_since. by rewrite fold_left_app. Qed.

(** An evaluation of the row, with an anchor *)
Definition row_evaluation (ctx : ExpressionEvaluationContext) : Prop :=
  of_row ctx /\ input_grouping_hash ctx = g /\ is_Some (anchor_element ctx) /\
  0 <= time_after (transaction_time (clock ctx)) d <= i64_max.

Definition applied (ctx : ExpressionEvaluationContext) (c : bool) : bool * Z := (c, transaction_time (clock ctx)).

(** The states a row goes through: it is applied; it is evaluated to look at
    it or to revert it for an update; and what is done elsewhere leaves its
    marker, and takes at most its request from the queue. *)
Inductive row_trace : list (bool * Z) -> S -> Prop :=
| row_starts s : timers_ok s -> acc_at s key owner = None -> timers s pos g = ∅ -> row_trace [] s
| row_applied log s ctx c r s' :
    row_trace log s -> row_evaluation ctx -> side_effects ctx = Apply ->
    true_for ev ctx call [VBool c; dv] s = (r, s') -> row_trace (log ++ [applied ctx c]) s'
| row_looked_at log s ctx c r s' :
    row_trace log s -> row_evaluation ctx -> side_effects ctx = Snapshot \/ side_effects ctx = RevertForUpdate ->
    true_for ev ctx call [VBool c; dv] s = (r, s') -> row_trace log s'
| row_elsewhere log s s' :
    row_trace log s -> timers_ok s' -> acc_at s' key owner = acc_at s key owner ->
    timers s' pos g ⊆ timers s pos g -> row_trace log s'.

(** The request a row waits for, if it waits *)
Definition awaited (since : option Z) : gset Z := match since with Some t => {[ time_after t d ]} | None => ∅ end.

Record row_state (since : option Z) (s : S) : Prop := {
  row_timers_ok : timers_ok s;
  row_marker : acc_at s key owner = AccTimeMarker <$> since;
  row_timers : timers s pos g ⊆ awaited since;
  row_bounds : forall t, since = Some t -> 0 <= time_after t d <= i64_max;
}.

Hypothesis Hd : duration_argument 1 dv = Ok (Some d).

Lemma subset_of_one (x : Z) (X : gset Z) : X ⊆ {[ x ]} -> X <> ∅ -> X = {[ x ]}.
Proof.
  intros Hs Hne. apply set_choose_L in Hne as [y Hy]. pose proof (Hs y Hy) as Hyx. apply elem_of_singleton in Hyx as ->.
  apply (anti_symm subseteq); [done|]. by apply singleton_subseteq_l.
Qed.

Lemma requesting ctx a due s since :
  side_effects ctx = Apply -> input_grouping_hash ctx = g -> row_state since s -> awaited since = {[ due ]} ->
  0 <= due <= i64_max ->
  exists s', request_future IfNotExists ctx call a due s = (Ok tt, s') /\ row_state since s' /\ timers s' pos g = {[ due ]}.
Proof.
  intros Hctx Hg [Hok Hm Ht Hb] Hdue Hbd.
  destruct (timer_push s pos g a (transaction_time (clock ctx)) due Hok Hbd) as (b & s' & Hp & Hok' & Ha & Ht').
  assert (Hts : timers s' pos g = {[ due ]}).
  { rewrite Ht'. case_decide as He; [done|]. rewrite Hdue in Ht. apply subset_of_one; [exact Ht|exact He]. }
  exists s'. unfold request_future, when_applied, on_index, sm_map_err, mbind, SM_bind. rewrite Hctx, Hg, Hp. split_and!; [done| |done].
  constructor; [done|by rewrite Ha|by rewrite Hts, Hdue|done].
Qed.

Lemma withdrawing ctx s :
  side_effects ctx = Apply -> input_grouping_hash ctx = g -> timers_ok s ->
  exists s', withdraw ctx call s = (Ok tt, s') /\ timers_ok s' /\ timers s' pos g = ∅ /\
    forall k o, acc_at s' k o = acc_at s k o.
Proof.
  intros Hctx Hg Hok. destruct (timer_remove s pos g Hok) as (s' & Hr & Hok' & Ha & Ht).
  exists s'. unfold withdraw, when_applied, on_index, sm_map_err. by rewrite Hctx, Hg, Hr.
Qed.

(** What an applied evaluation answers, by the time from which on the
    condition has held *)
Definition answered (since : option Z) (ctx : ExpressionEvaluationContext) (r : outcome FunctionError VariableValue)
    (s : S) : Prop :=
  match since with
  | None => r = Ok (VBool false) /\ timers s pos g = ∅
  | Some t => if time_after t d <=? realtime (clock ctx) then r = Ok (VBool true) /\ timers s pos g = ∅
              else r = Ok VAwaiting /\ timers s pos g = {[ time_after t d ]}
  end.

Lemma true_for_body ctx c s :
  row_evaluation ctx ->
  exists a, true_for ev ctx call [VBool c; dv] s =
    (if negb c then
       _ ← when_applied ctx (on_index call (write_acc key owner None)); _ ← withdraw ctx call; mret (VBool c)
     else
       t ← true_since ctx call key;
       if time_after t d <=? realtime (clock ctx) then _ ← withdraw ctx call; mret (VBool c)
       else _ ← request_future IfNotExists ctx call a (time_after t d); mret VAwaiting) s.
Proof.
  intros (Hrow & _ & [a Ha] & _). exists (get_reference a). unfold true_for, with_condition. rewrite Ha.
  rewrite (checked_ok _ (Some c) _ _ eq_refl), (checked_ok _ (Some d) _ _ Hd). by rewrite evaluating_key.
Qed.

Lemma true_since_applied ctx since s :
  side_effects ctx = Apply -> row_state since s -> 0 <= time_after (transaction_time (clock ctx)) d <= i64_max ->
  let t := default (transaction_time (clock ctx)) since in
  exists s', true_since ctx call key s = (Ok t, s') /\ row_state (Some t) s'.
Proof.
  intros Hctx [Hok Hm Ht Hb] Hbd t; subst t. set (t := default _ since). unfold true_since. rewrite reading_acc, Hm. destruct since as [t0|]; cbn [fmap option_fmap option_map].
  - exists s. rewrite Hctx. split; [done|by constructor].
  - destruct (writing_acc key owner (Some (AccTimeMarker t)) s) as (s' & Hw & Hset & Hat).
    destruct (timer_acc s key owner _ s' Hok Hset) as [Hok' Ht']. exists s'. unfold when_applied. rewrite Hctx.
    rewrite (sm_bind_ok _ _ _ _ _ Hw). split; [done|].
    constructor; [done|done|rewrite Ht'; by etrans; [exact Ht|]|]. by intros ? [= <-].
Qed.

Lemma true_for_applied ctx (c : bool) since s :
  row_evaluation ctx -> side_effects ctx = Apply -> row_state since s ->
  let since' := if c then Some (default (transaction_time (clock ctx)) since) else None in
  exists r s', true_for ev ctx call [VBool c; dv] s = (r, s') /\ row_state since' s' /\ answered since' ctx r s'.
Proof.
  intros Hev Hctx Hs since'. destruct (true_for_body ctx c s Hev) as [a ->]. destruct Hev as (_ & Hg & _ & Hbd).
  destruct c; subst since'; cbn [negb].
  - destruct (true_since_applied ctx since s Hctx Hs Hbd) as (s1 & Hsince & Hs1). rewrite (sm_bind_ok _ _ _ _ _ Hsince).
    set (t := default _ since) in *. unfold answered. destruct (time_after t d <=? realtime (clock ctx)).
    + destruct (withdrawing ctx s1 Hctx Hg (row_timers_ok _ _ Hs1)) as (s2 & Hw & Hok & Ht & Ha).
      eexists _, s2. rewrite (sm_bind_ok _ _ _ _ _ Hw). split; [done|]. split; [|done].
      constructor; [done|by rewrite Ha; apply Hs1|by rewrite Ht|apply Hs1].
    + destruct (requesting ctx a (time_after t d) s1 _ Hctx Hg Hs1 eq_refl (row_bounds _ _ Hs1 t eq_refl)) as (s2 & Hp & Hs2 & Ht).
      eexists _, s2. rewrite (sm_bind_ok _ _ _ _ _ Hp). by split.
  - destruct (writing_acc key owner None s) as (s1 & Hw & Hset & Hat).
    destruct (timer_acc s key owner _ s1 (row_timers_ok _ _ Hs) Hset) as [Hok1 Ht1].
    destruct (withdrawing ctx s1 Hctx Hg Hok1) as (s2 & Hwd & Hok & Ht & Ha).
    unfold when_applied. rewrite Hctx, (sm_bind_ok _ _ _ _ _ Hw), (sm_bind_ok _ _ _ _ _ Hwd).
    eexists _, s2. split; [done|]. split; [|done]. constructor; [done|by rewrite Ha|by rewrite Ht|done].
Qed.

(** An evaluation that is not applied and does not delete leaves the row alone. *)
Lemma true_for_looked_at ctx c since s :
  row_evaluation ctx -> side_effects ctx = Snapshot \/ side_effects ctx = RevertForUpdate -> row_state since s ->
  (true_for ev ctx call [VBool c; dv] s).2 = s.
Proof.
  intros Hev Hctx [_ Hm _ _]. destruct (true_for_body ctx c s Hev) as [a ->].
  assert (Hw : withdraw ctx call = mret tt) by (unfold withdraw, when_applied; by destruct Hctx as [Hx|Hx]; rewrite Hx).
  destruct c; cbn [negb].
  - rewrite Hw. unfold request_future, when_applied.
    assert (exists t, true_since ctx call key s = (Ok t, s)) as [t Hsince].
    { unfold true_since. rewrite reading_acc, Hm. destruct since as [t0|]; cbn [fmap option_fmap option_map];
        [exists t0|exists (transaction_time (clock ctx))]; unfold when_applied; by destruct Hctx as [Hx|Hx]; rewrite Hx. }
    rewrite (sm_bind_ok _ _ _ _ _ Hsince). destruct (_ <=? _); [done|]. by destruct Hctx as [Hx|Hx]; rewrite Hx.
  - rewrite Hw. unfold when_applied. by destruct Hctx as [Hx|Hx]; rewrite Hx.
Qed.

Lemma row_trace_state log s : row_trace log s -> row_state (held_since log) s.
Proof.
  induction 1 as [s Hok Ha Ht|log s ctx c r s' _ IH Hev Hctx Hrun|log s ctx c r s' _ IH Hev Hctx Hrun|log s s' _ IH Hok Ha Ht].
  - constructor; [done|done|by rewrite Ht|done].
  - destruct (true_for_applied ctx c _ s Hev Hctx IH) as (r' & s'' & Hrun' & Hs & _).
    rewrite Hrun in Hrun'. simplify_eq. unfold applied. by rewrite held_since_snoc.
  - pose proof (true_for_looked_at ctx c _ s Hev Hctx IH) as Hs. by rewrite Hrun in Hs; cbn in Hs; subst.
  - destruct IH as [_ Hm Ht0 Hb]. constructor; [done|by rewrite Ha|by etrans|done].
Qed.

(** [C31] [drasi.trueFor] answers a change applied to a row by the conditions of
    the changes applied before: false if the condition does not hold; true if
    the time since it began to hold, without interruption, plus the duration
    has come; otherwise it waits, and the row has exactly one request in the
    queue, for that time. In the first two cases it has none. Looking at the
    row, reverting it for an update and the request having been taken do not
    change that. *)
Theorem true_for_holds log s ctx c :
  row_trace log s -> row_evaluation ctx -> side_effects ctx = Apply ->
  exists r s', true_for ev ctx call [VBool c; dv] s = (r, s') /\
    answered (held_since (log ++ [applied ctx c])) ctx r s'.
Proof.
  intros Hlog Hev Hctx.
  destruct (true_for_applied ctx c _ s Hev Hctx (row_trace_state _ _ Hlog)) as (r & s' & Hrun & _ & Ha).
  exists r, s'. unfold applied. by rewrite held_since_snoc.
Qed.
End facts.

(** * The in-memory indexes keep accumulators and timers

    [Indexes] satisfies what the theorems about the functions over time ask of
    a store: the timers of a call for a row are the due times of the requests
    in its group of the future queue. *)

Section indexes.
Context {C : Chrono} {H : Hashers} {P : PriorityQueueOps}.

#[global] Program Instance indexes_accumulator_laws : AccumulatorLaws Indexes := {|
  acc_at s := acc_at (result_index s);
  acc_independent := acc_independent (S:=InMemoryResultIndex) |}.
Next Obligation. intros s k o. apply (acc_get_ok (result_index s)). Qed.
Next Obligation.
  intros s k o v. destruct (acc_set_ok (result_index s) k o v) as (x & Hx & Hv & Hframe).
  exists (with_result_index x s). split; [|done].
  change (acc_set s k o v) with (r ← acc_set (result_index s) k o v; Ok (with_result_index r s)). by rewrite Hx.
Qed.

Definition due_times (q : InMemoryFutureQueue) (pos : nat) (g : Z) : gset Z :=
  set_map (fun k => due_time k.2) (in_group (pos, g) (requests q)).

Lemma due_times_spec q pos g t :
  t ∈ due_times q pos g <-> exists k, k ∈ requests q /\ group_of k = (pos, g) /\ due_time k.2 = t.
Proof. unfold due_times, in_group. rewrite elem_of_map. setoid_rewrite elem_of_filter. naive_solver. Qed.

Lemma due_times_empty q pos g : due_times q pos g = ∅ <-> in_group (pos, g) (requests q) = ∅.
Proof.
  unfold due_times. split; [|intros ->; apply set_map_empty]. intros He. apply set_eq. intros k.
  split; [|set_solver]. intros Hk. exfalso. eapply (not_elem_of_empty (C:=gset Z)). rewrite <- He.
  by apply (elem_of_map_2 (fun k : QueueKey => due_time k.2)).
Qed.

Lemma due_times_insert q pos g r ot due :
  coherent q -> 0 <= due <= i64_max -> due_times q pos g = ∅ ->
  coherent (fq_insert pos g r ot due q) /\ due_times (fq_insert pos g r ot due q) pos g = {[ due ]}.
Proof.
  intros Hq Hdue Hnone.
  assert (Hfree : forall k, k ∈ requests q -> group_of k <> (pos, g)).
  { intros k Hk Hg. eapply (not_elem_of_empty (C:=gset Z)). rewrite <- Hnone. apply due_times_spec. by exists k. }
  destruct (fq_insert_correct q pos g r ot due Hq Hdue) as [Hq' Hr]; [intros k Hk Hg; by destruct (Hfree k Hk)|].
  split; [done|]. apply set_eq. intros t. rewrite due_times_spec, Hr, elem_of_singleton. split.
  - intros (k & Hk & Hg & <-). apply elem_of_union in Hk as [Hk%elem_of_singleton|Hk]; [by subst|].
    by destruct (Hfree k Hk).
  - intros ->. exists (request pos g r ot due). split; [|done]. apply elem_of_union. left. by apply elem_of_singleton.
Qed.

#[global] Program Instance indexes_timers : TimerStore Indexes := {|
  timers_ok s := coherent (future_queue s);
  timers s := due_times (future_queue s) |}.
Next Obligation.
  intros s pos g r ot due Hq Hdue. cbn. unfold fq_push. rewrite (should_push_spec IfNotExists) by done.
  rewrite <- (bool_decide_ext _ _ (due_times_empty _ _ _)).
  destruct (decide (due_times (future_queue s) pos g = ∅)) as [He|Hne].
  - rewrite bool_decide_true by done. eexists _, _. split; [reflexivity|]. cbn.
    destruct (due_times_insert _ pos g r ot due Hq Hdue He) as [Hq' Ht]. by rewrite Ht.
  - rewrite bool_decide_false by done. eexists _, _. split; [reflexivity|]. done.
Qed.
Next Obligation.
  intros s pos g Hq. cbn. eexists. split; [reflexivity|]. cbn. split; [by apply fq_remove_coherent|]. split; [done|].
  apply set_eq. intros t. rewrite due_times_spec, fq_remove_requests by done. unfold outside.
  setoid_rewrite elem_of_filter. set_solver.
Qed.
Next Obligation.
  intros s k o v s' Hq Hset.
  change (acc_set s k o v) with (r ← acc_set (result_index s) k o v; Ok (with_result_index r s)) in Hset.
  destruct (acc_set (result_index s) k o v) as [x| |]; [|done..]. change (Ok (with_result_index x s) = Ok (E:=IndexError) s') in Hset. by injection Hset as <-.
Qed.

(** Taking the first request takes no timer of a row but its own. *)
Lemma pop_takes_timers s pos g :
  timers_ok s -> exists r s', fut_pop s = (Ok r, s') /\ timers_ok s' /\ timers s' pos g ⊆ timers s pos g /\
    forall k o, acc_at s' k o = acc_at s k o.
Proof.
  intros Hq. cbn. destruct (pq_peek (queue (future_queue s))) as [[k p]|] eqn:Hpeek.
  - destruct (fq_pop_some _ k p Hq Hpeek) as (q' & -> & Hq' & _ & Hr & _). eexists _, _. split; [reflexivity|]. cbn.
    split; [done|]. split; [|done]. intros t (k' & Hk' & Hg & Ht)%due_times_spec. apply due_times_spec. exists k'.
    rewrite Hr in Hk'. set_solver.
  - destruct (fq_pop_none _ Hpeek) as [-> _]. eexists _, _. split; [reflexivity|]. done.
Qed.
End indexes.
