(* ===== verification/FutureSamples.v ===== *)
(** * Functions over time, run

    A calendar with the ranges of the machine integers of [chrono], the laws of
    the state codec proved of it, and the theorems about the functions over
    time applied to a row of the in-memory indexes. *)

From S2P Require Import Prelude BTree Floats Hashing Ast Models Errors Values GroupIdentity ChronoOps ResultIndex.
From S2P Require Import LazySortedSet Aggregation Contexts AggregateFacts Expressions FutureQueue ElementIndex.
From S2P Require Import Session StateCodec FutureFunctions FutureFunctionsFacts.

(** ** Bounded integers *)

Record bounded (low high : Z) := Bounded { bval : Z; b_in : (low <=? bval) && (bval <=? high) = true }.
Arguments bval {low high} _.

Section bounded.
Context {low high : Z}.

Definition within (z : Z) : option (bounded low high) :=
  match Bool.bool_dec ((low <=? z) && (z <=? high)) true with
  | left Hz => Some (Bounded low high z Hz)
  | right _ => None
  end.

Lemma bounded_eq (a b : bounded low high) : bval a = bval b -> a = b.
Proof. destruct a as [x Hx], b as [y Hy]. cbn. intros <-. f_equal. apply (proof_irrel Hx Hy). Qed.

Lemma bval_range (a : bounded low high) : low <= bval a <= high.
Proof. destruct a. cbn. lia. Qed.

Lemma within_bval z (a : bounded low high) : z = bval a -> within z = Some a.
Proof.
  intros ->. unfold within. destruct (Bool.bool_dec _ _) as [Hz|Hz]; [f_equal; by apply bounded_eq|].
  destruct Hz. apply b_in.
Qed.

Definition clamped (Hr : (low <=? high) = true) (z : Z) : bounded low high.
Proof. refine (Bounded low high (Z.max low (Z.min high z)) _). abstract lia. Defined.

#[export] Instance bounded_eh : EqHash (bounded low high) :=
  {| req a b := bval a =? bval b; rhash a := hash_i64 (bval a) |}.
#[export] Instance bounded_laws : EqHashLaws (bounded low high).
Proof. split; cbn; intros *; rewrite ?Z.eqb_eq; [done|congruence|congruence|by intros ->]. Qed.
End bounded.

(** ** A calendar: nanoseconds, days since the epoch, seconds of offset *)

Module Calendar.
Definition DAY : Z := 86400000000000.
Definition SECOND : Z := 1000000000.
Definition MILLI : Z := 1000000.
Definition CE : Z := 719163.

Definition Date := bounded (- 100000000) 100000000.
Definition Time := bounded 0 (DAY - 1).
Definition Offset := bounded (- 86399) 86399.
Definition Delta := bounded (- (i64_max * MILLI)) (i64_max * MILLI).

Definition date : Z -> Date := @clamped (- 100000000) 100000000 eq_refl.
Definition time : Z -> Time := @clamped 0 (DAY - 1) eq_refl.
Definition offset : Z -> Offset := @clamped (- 86399) 86399 eq_refl.
Definition delta : Z -> Delta := @clamped (- (i64_max * MILLI)) (i64_max * MILLI) eq_refl.

#[local] Existing Instances Sample.Z_eh Sample.Z_laws.

#[program] Definition chrono : Chrono := {|
  NaiveDate := Date; NaiveTime := Time; NaiveDateTime := Z; FixedOffset := Offset; FixedDateTime := Z; TimeDelta := Delta;
  ordered_hash := @ordered_hash Sample.chrono |}.
Next Obligation. apply (@ordered_hash_eq Sample.chrono). Qed.

#[local] Existing Instance chrono.

(** Instants are nanoseconds since the epoch, all in UTC. *)
Definition ops : ChronoOps := {|
  num_milliseconds d := Z.quot (bval d) MILLI;
  num_nanoseconds d := if (i64_min <=? bval d) && (bval d <=? i64_max) then Some (bval d) else None;
  num_microseconds d := Some (Z.quot (bval d) 1000);
  num_seconds d := Z.quot (bval d) SECOND;
  num_days d := Z.quot (bval d) DAY;
  milliseconds n := within (n * MILLI);
  days n := within (n * DAY);
  delta_add a b := within (bval a + bval b);
  delta_sub a b := within (bval a - bval b);
  delta_cmp a b := bval a ?= bval b;
  EPOCH_NAIVE_DATE := date 0;
  date_num_days := bval;
  date_add d t := within (bval d + Z.quot (bval t) DAY);
  date_sub d t := within (bval d - Z.quot (bval t) DAY);
  date_timestamp_millis d := bval d * 86400000;
  date_cmp a b := bval a ?= bval b;
  date_year d := date_year (ChronoOps:=SampleOps.ops) (bval d);
  date_month d := date_month (ChronoOps:=SampleOps.ops) (bval d);
  date_day d := date_day (ChronoOps:=SampleOps.ops) (bval d);
  date_ordinal d := date_ordinal (ChronoOps:=SampleOps.ops) (bval d);
  iso_year d := iso_year (ChronoOps:=SampleOps.ops) (bval d);
  iso_week d := iso_week (ChronoOps:=SampleOps.ops) (bval d);
  number_from_monday d := SampleOps.weekday (bval d);
  from_ymd_opt y m d := within (SampleOps.of_civil y m d);
  MIDNIGHT_NAIVE_TIME := time 0;
  time_num_milliseconds t := bval t / MILLI;
  num_seconds_from_midnight t := bval t / SECOND;
  time_add t d := time ((bval t + bval d) mod DAY);
  time_sub t d := time ((bval t - bval d) mod DAY);
  time_cmp a b := bval a ?= bval b;
  time_hour t := bval t / SECOND / 3600;
  time_minute t := bval t / SECOND / 60 mod 60;
  time_second t := bval t / SECOND mod 60;
  time_nanosecond t := bval t mod SECOND;
  naive_datetime d t := bval d * DAY + bval t;
  datetime_date t := date (t / DAY);
  datetime_time t := time (t mod DAY);
  datetime_add t d := Some (t + bval d);
  datetime_sub t d := Some (t - bval d);
  datetime_cmp := Z.compare;
  datetime_default := 0;
  utc_timestamp_millis t := t / MILLI;
  since_epoch t := delta t;
  from_timestamp_millis n := Some (n * MILLI);
  UTC_FIXED_OFFSET := offset 0;
  local_minus_utc := bval;
  offset_to_string _ := "+00:00"%string;
  timestamp_millis t := t / MILLI;
  timestamp_millis_opt n := Some (n * MILLI);
  and_local_timezone d t o := Some (bval d * DAY + bval t - bval o * SECOND);
  and_utc t := t;
  naive_utc t := t;
  fixed_add t d := Some (t + bval d);
  fixed_sub t d := Some (t - bval d);
  fixed_cmp := Z.compare;
  fixed_offset _ := offset 0;
  fixed_date t := date (t / DAY);
  fixed_time t := time (t mod DAY);
  float_to_string := float_to_string (ChronoOps:=SampleOps.ops);
  powf := powf (ChronoOps:=SampleOps.ops) |}.

#[local] Existing Instance ops.

Definition codec : CodecChrono := {|
  num_days_from_ce d := bval d + CE;
  from_num_days_from_ce_opt n := within (n - CE);
  from_num_seconds_from_midnight_opt s n := if n <? SECOND then within (s * SECOND + n) else None;
  east_opt := within;
  subsec_nanos d := Z.rem (bval d) SECOND;
  try_seconds s := within (s * SECOND);
  nanoseconds n := delta n |}.

#[local] Existing Instance codec.

Lemma rem_range z :
  - 1000000000 < Z.rem z 1000000000 < 1000000000 /\
  ((0 < z -> 0 <= Z.rem z 1000000000) /\ (z < 0 -> Z.rem z 1000000000 <= 0)).
Proof.
  destruct (Z.lt_trichotomy z 0) as [Hz|[-> |Hz]]; [|by vm_compute|].
  - pose proof (Z.rem_bound_pos_neg z 1000000000). lia.
  - pose proof (Z.rem_bound_pos_pos z 1000000000). lia.
Qed.

Lemma codec_laws : CodecChronoLaws.
Proof.
  constructor.
  - intros d. pose proof (bval_range d). cbn. unfold CE in *. split; [lia|]. apply within_bval. lia.
  - intros t. pose proof (bval_range t) as Ht. cbn.
    pose proof (Z.div_mod (bval t) SECOND) as Hdm. pose proof (Z.mod_pos_bound (bval t) SECOND) as Hm.
    unfold SECOND, DAY in *. split; [lia|]. split; [lia|]. replace (_ <? _) with true by lia.
    apply within_bval. rewrite Z.mul_comm. symmetry. by apply Hdm.
  - intros o. pose proof (bval_range o). cbn. split; [lia|]. by apply within_bval.
  - intros d. pose proof (bval_range d) as Hd. cbn. unfold SECOND.
    pose proof (Z.quot_rem' (bval d) 1000000000) as Hqr. pose proof (rem_range (bval d)) as [Hr Hs].
    set (q := Z.quot (bval d) 1000000000) in *. set (r := Z.rem (bval d) 1000000000) in *.
    unfold NANOS_PER_SECOND, MILLI, i64_min, i64_max in *.
    split; [lia|]. split; [lia|]. split; [lia|]. split; [lia|].
    exists (delta (q * 1000000000)). assert (Hq : bval (delta (q * 1000000000)) = q * 1000000000) by (cbn; unfold MILLI, i64_max; lia).
    split; [by apply within_bval|]. apply within_bval.
    assert (Hn : bval (delta r) = r) by (cbn; unfold MILLI, i64_max; lia).
    etrans; [exact (f_equal2 Z.add Hq Hn)|]. by rewrite Z.mul_comm.
Qed.
End Calendar.

(** ** A row *)

Module RowExample.
#[local] Existing Instances Sample.hashers sample_heap Calendar.chrono Calendar.ops Calendar.codec Calendar.codec_laws.

Definition functions : gmap string (Function (S:=Indexes)) := register_past_functions (register_future_functions ∅).
Notation ev := (evaluate_expression functions 8).

Definition sensor : Element :=
  Node {| reference := {| source_id := "s"; element_id := "1" |}; labels := ["Sensor"%string]; effective_from := 0 |} [].

(** The row of the sensor, applied at a transaction time and a real time *)
Definition at_times (tx now : Z) (effect : SideEffects) : ExpressionEvaluationContext :=
  {| variables := [("s"%string, VElement sensor)]; side_effects := effect; output_grouping_key := None;
     input_grouping_hash := 42; clock := {| transaction_time := tx; realtime := now |};
     solution_signature_ := None; anchor_element := Some sensor |}.

Definition row_key : ResultKey := KeyInputHash 42.

Lemma at_times_row tx now effect : of_row ev row_key (at_times tx now effect).
Proof. by apply of_row_ungrouped. Qed.

(** *** The codec *)

Definition reading : VariableValue :=
  VObject [("__drasi_state_type__"%string, VString "mine"); ("at"%string, VDate (Calendar.date 20000));
           ("for"%string, VDuration {| d_duration := Calendar.delta (-1500000000); d_year := 1; d_month := -2 |});
           ("sensor"%string, VElement sensor); ("v"%string, VList [VInteger (NegInt (-5)); VAwaiting])].

Lemma reading_storable : storable reading.
Proof. cbn. repeat constructor; unfold i64_min, i64_max, u64_max, u64_ok; cbn; unfold i64_min, i64_max; lia. Qed.

Lemma state_codec_round_trip_witness :
  storable reading /\
  exists e, encode_value reading = Ok e /\ decode_value e = Ok (stored_form reading) /\
    encode_value (stored_form reading) = Ok e.
Proof. split; [exact reading_storable|]. apply (state_codec_round_trip reading reading_storable). Defined.

Example reading_comes_back : stored_form reading = reading.
Proof. reflexivity. Qed.

Lemma nothing_stored k o : acc_at new_indexes k o = None.
Proof. apply lookup_empty. Qed.

(** *** Previous values *)

Definition int (z : Z) : VariableValue := VInteger (integer_from_i64 z).
Definition previous_call : FunctionCall :=
  {| call_name := "drasi.previousValue"; call_args := []; position_in_query := 3 |}.
Definition changes : list (ExpressionEvaluationContext * VariableValue) :=
  [(at_times 1 1 Apply, int 20); (at_times 1 1 RevertForUpdate, int 20); (at_times 2 2 Apply, int 30);
   (at_times 2 2 Snapshot, int 30); (at_times 3 3 Apply, int 30)].

Lemma previous_value_recalls_witness :
  storable (int 0) /\
  ask ev previous_call previous_value (int 0) changes new_indexes = map Ok [int 0; int 0; int 20; int 20; int 30].
Proof.
  assert (Hd : storable (int 0)) by (cbn; unfold u64_ok, u64_max; lia).
  split; [done|]. apply (previous_value_recalls ev previous_call row_key (int 0) changes new_indexes (nothing_stored _ _) Hd).
  unfold changes. repeat constructor; try apply at_times_row; cbn; unfold u64_max; lia.
Defined.

(** An integer beyond 64 signed bits is remembered as zero. *)
Example large_integer_recalled_as_zero :
  ask ev previous_call previous_value (int 1)
    [(at_times 1 1 Apply, VInteger (PosInt u64_max)); (at_times 2 2 Apply, int 5)] new_indexes =
  [Ok (int 1); Ok (int 0)].
Proof. by_vm. Qed.

(** *** A condition that holds for a second *)

Definition for_call : FunctionCall := {| call_name := "drasi.trueFor"; call_args := []; position_in_query := 5 |}.
Definition second : TimeDelta := Calendar.delta 1000000000.
Definition second_arg : VariableValue := int 1000.

Definition applied_row (tx now : Z) (c : bool) (s : Indexes) : Indexes :=
  (true_for ev (at_times tx now Apply) for_call [VBool c; second_arg] s).2.
(** It becomes true at 100, is confirmed at 400. *)
Definition confirmed : Indexes := applied_row 400 400 true (applied_row 100 100 true new_indexes).

Lemma at_times_evaluation tx now effect :
  0 <= tx <= 10000 -> row_evaluation ev row_key 42 second (at_times tx now effect).
Proof.
  intros Htx. split_and!; [apply at_times_row|done|done| |];
    unfold time_after; cbn [at_times clock transaction_time];
    replace (as_u64 (num_milliseconds second)) with 1000 by reflexivity;
    rewrite as_u64_small; unfold u64_ok, u64_max, i64_max; lia.
Qed.

Lemma second_duration : duration_argument 1 second_arg = Ok (Some second).
Proof.
  cbn [duration_argument second_arg int]. replace (integer_as_i64 _) with (Some 1000) by reflexivity.
  assert (Hw : milliseconds 1000 = Some second) by (by apply within_bval). by rewrite Hw.
Qed.

Lemma confirmed_trace :
  row_trace ev for_call row_key 42 second_arg second [(true, 100); (true, 400)] confirmed.
Proof.
  assert (H0 : row_trace ev for_call row_key 42 second_arg second [] new_indexes).
  { apply row_starts; [apply new_future_queue_coherent|apply nothing_stored|by vm_compute]. }
  pose proof (row_applied _ _ _ _ _ _ _ _ _ true _ _ H0 (at_times_evaluation 100 100 Apply ltac:(lia)) eq_refl
    (surjective_pairing _)) as H1.
  exact (row_applied _ _ _ _ _ _ _ _ _ true _ _ H1 (at_times_evaluation 400 400 Apply ltac:(lia)) eq_refl
    (surjective_pairing _)).
Qed.

(** At 1000 the second has not passed, and the request is for 1100; at 1100 it
    has. *)
Lemma true_for_holds_witness :
  (exists r s', true_for ev (at_times 1000 1000 Apply) for_call [VBool true; second_arg] confirmed = (r, s') /\
     r = Ok VAwaiting /\ timers s' 5 42 = {[ 1100 ]}) /\
  (exists r s', true_for ev (at_times 1100 1100 Apply) for_call [VBool true; second_arg] confirmed = (r, s') /\
     r = Ok (VBool true) /\ timers s' 5 42 = ∅).
Proof.
  split.
  - destruct (true_for_holds ev for_call row_key 42 second_arg second second_duration _ confirmed
      (at_times 1000 1000 Apply) true confirmed_trace (at_times_evaluation 1000 1000 Apply ltac:(lia)) eq_refl)
      as (r & s' & Hrun & Ha). exists r, s'. split; [exact Hrun|exact Ha].
  - destruct (true_for_holds ev for_call row_key 42 second_arg second second_duration _ confirmed
      (at_times 1100 1100 Apply) true confirmed_trace (at_times_evaluation 1100 1100 Apply ltac:(lia)) eq_refl)
      as (r & s' & Hrun & Ha). exists r, s'. split; [exact Hrun|exact Ha].
Defined.
End RowExample.
