(* ===== verification/IndexCache.v ===== *)
(** * Index caches (core/src/index_cache)

    [Lru] is the bounded cache of lru.rs: a map and the queue of its keys,
    oldest first. [ShadowedFutureQueue] (the queue every query is built with)
    remembers the due time of the head of the queue under it;
    [CachedResultIndex] and [CachedElementIndex] keep recent reads and writes
    of a result index and of an element index. Each is generic in the index it
    wraps, an operation first calls the index and then updates the caches. *)

From S2P Require Import Prelude BTree Floats Hashing Ast Models Errors Values MatchPath Solver ElementIndex.
From S2P Require Import ResultIndex FutureQueue Session.

(** ** SafeLru *)

Section lru.
Context {K V : Type} `{Countable K}.

Record SafeLru := { lru_map : gmap K V; lru_order : list K; lru_cap : nat }.

Definition lru_new (cap : nat) : SafeLru :=
  {| lru_map := ∅; lru_order := []; lru_cap := Nat.max cap 1 |}.

(** [VecDeque::remove] of the first position of the key *)
Fixpoint drop_key (key : K) (l : list K) : list K :=
  match l with
  | [] => []
  | k :: l => if decide (k = key) then l else k :: drop_key key l
  end.

Definition with_order (f : list K -> list K) (c : SafeLru) : SafeLru :=
  {| lru_map := lru_map c; lru_order := f (lru_order c); lru_cap := lru_cap c |}.
Definition with_map (f : gmap K V -> gmap K V) (c : SafeLru) : SafeLru :=
  {| lru_map := f (lru_map c); lru_order := lru_order c; lru_cap := lru_cap c |}.

Definition lru_touch (key : K) (c : SafeLru) : SafeLru :=
  if decide (key ∈ lru_order c) then with_order (fun o => drop_key key o ++ [key]) c else c.

Definition lru_get (key : K) (c : SafeLru) : option V * SafeLru :=
  match lru_map c !! key with
  | Some v => (Some v, lru_touch key c)
  | None => (None, c)
  end.

(** [get_mut]: a hit is written through the reference it returns. *)
Definition lru_update (key : K) (f : V -> V) (c : SafeLru) : bool * SafeLru :=
  match lru_map c !! key with
  | Some v => (true, with_map <[key := f v]> (lru_touch key c))
  | None => (false, c)
  end.

(** [while map.len() >= cap]: the oldest key goes, until there is none. *)
Fixpoint evict (order : list K) (m : gmap K V) (cap : nat) : gmap K V * list K :=
  if (cap <=? size m)%nat then
    match order with
    | oldest :: order => evict order (delete oldest m) cap
    | [] => (m, [])
    end
  else (m, order).

Definition lru_put (key : K) (value : V) (c : SafeLru) : SafeLru :=
  match lru_map c !! key with
  | Some _ => lru_touch key (with_map <[key := value]> c)
  | None =>
      let '(m, order) := evict (lru_order c) (lru_map c) (lru_cap c) in
      {| lru_map := <[key := value]> m; lru_order := order ++ [key]; lru_cap := lru_cap c |}
  end.

Definition lru_remove (key : K) (c : SafeLru) : option V * SafeLru :=
  match lru_map c !! key with
  | Some v => (Some v, with_order (drop_key key) (with_map (delete key) c))
  | None => (None, c)
  end.

Definition lru_purge (c : SafeLru) : SafeLru :=
  {| lru_map := ∅; lru_order := []; lru_cap := lru_cap c |}.
End lru.
Arguments SafeLru K V {_ _}.

(** ** ShadowedFutureQueue *)

Inductive HeadItemShadow :=
| Known (due : option ElementTimestamp)
| Unknown.

Record ShadowedFutureQueue (S : Type) := { shadow_inner : S; head_shadow : HeadItemShadow }.
Arguments shadow_inner {S}.
Arguments head_shadow {S}.

Section shadow.
Context {S : Type} `{!FutureQueueOps S}.
Notation Q := (ShadowedFutureQueue S).

Definition shadowed_new (inner : S) : Q := {| shadow_inner := inner; head_shadow := Unknown |}.

(** A call of the wrapped queue, then the shadow computed from its answer. *)
Definition shadow_call {A} (m : SM S IndexError A) (after : A -> HeadItemShadow -> HeadItemShadow) :
    SM Q IndexError A := fun q =>
  let '(r, inner) := m (shadow_inner q) in
  (r, {| shadow_inner := inner;
         head_shadow := match r with Ok a => after a (head_shadow q) | _ => head_shadow q end |}).

Definition PushType_eqb (a b : PushType) : bool :=
  match a, b with
  | Always, Always | IfNotExists, IfNotExists | Overwrite, Overwrite => true
  | _, _ => false
  end.

Definition shadow_after_push (push_type : PushType) (due_time : ElementTimestamp) (result : bool)
    (shadow : HeadItemShadow) : HeadItemShadow :=
  if PushType_eqb push_type Overwrite then Unknown
  else if result then
    match shadow with
    | Known (Some head_due_time) => if due_time <? head_due_time then Known (Some due_time) else shadow
    | Known None => Known (Some due_time)
    | Unknown => Unknown
    end
  else shadow.

Definition shadowed_push (push_type : PushType) (position_in_query : nat) (group_signature : Z)
    (element_ref : ElementReference) (original_time due_time : ElementTimestamp) : SM Q IndexError bool :=
  shadow_call (fut_push push_type position_in_query group_signature element_ref original_time due_time)
    (shadow_after_push push_type due_time).

(** [remove] and [pop] forget the head before they call the queue. *)
Definition shadow_forget (q : Q) : Q := {| shadow_inner := shadow_inner q; head_shadow := Unknown |}.

Definition shadowed_remove (position_in_query : nat) (group_signature : Z) : SM Q IndexError unit := fun q =>
  shadow_call (fut_remove position_in_query group_signature) (fun _ s => s) (shadow_forget q).

Definition shadowed_pop : SM Q IndexError (option FutureElementRef) := fun q =>
  shadow_call fut_pop (fun _ s => s) (shadow_forget q).

Definition shadowed_peek_due_time : SM Q IndexError (option ElementTimestamp) := fun q =>
  match head_shadow q with
  | Known due => (Ok due, q)
  | Unknown => shadow_call fut_peek_due_time (fun due _ => Known due) q
  end.

#[global] Instance shadowed_futures : FutureQueueOps Q := {|
  fut_push := shadowed_push; fut_remove := shadowed_remove;
  fut_pop := shadowed_pop; fut_peek_due_time := shadowed_peek_due_time |}.

(** A session of the store is not seen by the shadow. *)
#[global] Instance shadowed_session `{!SessionControl S} : SessionControl Q := {|
  session_begin := shadow_call session_begin (fun _ s => s);
  session_commit := shadow_call session_commit (fun _ s => s);
  session_rollback := shadow_call session_rollback (fun _ s => s) |}.
End shadow.

(** ** CachedResultIndex *)

Section cached_results.
Context {C : Chrono} {H : Hashers} {S : Type} `{!AccumulatorIndex S} `{!LazySortedSetStore S}.

(** The key [(set_id, value)]: [OrderedFloat]s are equal as keys when the order
    does not tell them apart. *)
Definition count_key (set_id : Z) (value : OrderedFloat) : Z * (Z * Z * Z) := (set_id, ordered_key (of_f64 value)).

Record CachedResultIndex := {
  results_inner : S;
  value_cache : SafeLru Z ValueAccumulator;
  set_count_cache : SafeLru (Z * (Z * Z * Z)) Z;
}.

Definition cached_results_new (inner : S) (cache_size : nat) : CachedResultIndex :=
  {| results_inner := inner; value_cache := lru_new cache_size; set_count_cache := lru_new cache_size |}.

Definition with_value_cache (v : SafeLru Z ValueAccumulator) (c : CachedResultIndex) : CachedResultIndex :=
  {| results_inner := results_inner c; value_cache := v; set_count_cache := set_count_cache c |}.
Definition with_count_cache (v : SafeLru (Z * (Z * Z * Z)) Z) (c : CachedResultIndex) : CachedResultIndex :=
  {| results_inner := results_inner c; value_cache := value_cache c; set_count_cache := v |}.

Definition cached_get (key : ResultKey) (owner : ResultOwner) :
    SM CachedResultIndex IndexError (option ValueAccumulator) := fun c =>
  let cache_key := get_hash_key owner key in
  match lru_get cache_key (value_cache c) with
  | (Some v, cache) => (Ok (Some v), with_value_cache cache c)
  | (None, cache) =>
      match acc_get (results_inner c) key owner with
      | Ok (Some v) => (Ok (Some v), with_value_cache (lru_put cache_key v cache) c)
      | r => (r, with_value_cache cache c)
      end
  end.

Definition cached_set (key : ResultKey) (owner : ResultOwner) (value : option ValueAccumulator) :
    SM CachedResultIndex IndexError unit := fun c =>
  let cache_key := get_hash_key owner key in
  match acc_set (results_inner c) key owner value with
  | Ok inner =>
      (Ok tt, {| results_inner := inner;
                 value_cache := match value with
                                | None => (lru_remove cache_key (value_cache c)).2
                                | Some v => lru_put cache_key v (value_cache c)
                                end;
                 set_count_cache := set_count_cache c |})
  | Err e => (Err e, c)
  | Panic => (Panic, c)
  end.

(** [clear] of the wrapped index, then of both caches *)
Definition cached_results_clear (inner_clear : S -> S) (c : CachedResultIndex) : CachedResultIndex :=
  {| results_inner := inner_clear (results_inner c); value_cache := lru_purge (value_cache c);
     set_count_cache := lru_purge (set_count_cache c) |}.

Definition cached_get_next (set_id : Z) (value : option OrderedFloat) :
    SM CachedResultIndex IndexError (option (OrderedFloat * Z)) := fun c =>
  (get_next (results_inner c) set_id value, c).

Definition cached_get_value_count (set_id : Z) (value : OrderedFloat) : SM CachedResultIndex IndexError Z := fun c =>
  let cache_key := count_key set_id value in
  match lru_get cache_key (set_count_cache c) with
  | (Some v, cache) => (Ok v, with_count_cache cache c)
  | (None, cache) =>
      match get_value_count (results_inner c) set_id value with
      | Ok count => (Ok count, with_count_cache (lru_put cache_key count cache) c)
      | r => (r, with_count_cache cache c)
      end
  end.

(** A hit adds to the cached count, a miss caches the increment itself. *)
Definition cached_increment_value_count (set_id : Z) (value : OrderedFloat) (delta : Z) :
    SM CachedResultIndex IndexError unit := fun c =>
  match increment_value_count (results_inner c) set_id value delta with
  | (Ok _, inner) =>
      let cache_key := count_key set_id value in
      (Ok tt, {| results_inner := inner; value_cache := value_cache c;
                 set_count_cache := match lru_update cache_key (fun v => as_i64 (v + delta)) (set_count_cache c) with
                                    | (true, cache) => cache
                                    | (false, cache) => lru_put cache_key delta cache
                                    end |})
  | (r, inner) => (r, {| results_inner := inner; value_cache := value_cache c; set_count_cache := set_count_cache c |})
  end.
End cached_results.
Arguments CachedResultIndex {C} S.

(** ** CachedElementIndex *)

Section cached_elements.
Context {C : Chrono} {S : Type} `{!ElementIndexOps S}.

Record CachedElementIndex := {
  elements_inner : S;
  element_cache : SafeLru ElementReference Element;
  slot_cache : SafeLru ElementReference (gmap nat bool);
  inbound_cache : SafeLru (ElementReference * nat) (list ElementReference);
  outbound_cache : SafeLru (ElementReference * nat) (list ElementReference);
}.

Definition cached_elements_new (inner : S) (cache_size : nat) : CachedElementIndex :=
  {| elements_inner := inner; element_cache := lru_new cache_size; slot_cache := lru_new cache_size;
     inbound_cache := lru_new cache_size; outbound_cache := lru_new cache_size |}.

Definition with_element_cache (f : SafeLru ElementReference Element) (c : CachedElementIndex) : CachedElementIndex :=
  {| elements_inner := elements_inner c; element_cache := f; slot_cache := slot_cache c;
     inbound_cache := inbound_cache c; outbound_cache := outbound_cache c |}.
Definition with_slot_cache (f : SafeLru ElementReference (gmap nat bool)) (c : CachedElementIndex) : CachedElementIndex :=
  {| elements_inner := elements_inner c; element_cache := element_cache c; slot_cache := f;
     inbound_cache := inbound_cache c; outbound_cache := outbound_cache c |}.
Definition with_elements_inner (i : S) (c : CachedElementIndex) : CachedElementIndex :=
  {| elements_inner := i; element_cache := element_cache c; slot_cache := slot_cache c;
     inbound_cache := inbound_cache c; outbound_cache := outbound_cache c |}.

(** [get_element_internal]: an absent element is not cached. *)
Definition cached_get_element (r : ElementReference) : SM CachedElementIndex IndexError (option Element) := fun c =>
  match lru_get r (element_cache c) with
  | (Some e, cache) => (Ok (Some e), with_element_cache cache c)
  | (None, cache) =>
      match ei_get_element r (elements_inner c) with
      | (Ok (Some e), inner) =>
          (Ok (Some e), with_elements_inner inner (with_element_cache (lru_put r e cache) c))
      | (res, inner) => (res, with_elements_inner inner (with_element_cache cache c))
      end
  end.

(** What a successful write does to the caches. *)
Definition after_write (r : ElementReference) (written : option Element) (inner : S) (c : CachedElementIndex) :
    CachedElementIndex :=
  {| elements_inner := inner;
     element_cache := match written with
                      | Some e => lru_put r e (element_cache c)
                      | None => (lru_remove r (element_cache c)).2
                      end;
     slot_cache := (lru_remove r (slot_cache c)).2;
     inbound_cache := lru_purge (inbound_cache c); outbound_cache := lru_purge (outbound_cache c) |}.

Definition cached_set_element (e : Element) (slot_affinity : list nat) : SM CachedElementIndex IndexError unit := fun c =>
  match ei_set_element e slot_affinity (elements_inner c) with
  | (Ok _, inner) => (Ok tt, after_write (get_reference e) (Some e) inner c)
  | (res, inner) => (res, with_elements_inner inner c)
  end.

Definition cached_delete_element (r : ElementReference) : SM CachedElementIndex IndexError unit := fun c =>
  match ei_delete_element r (elements_inner c) with
  | (Ok _, inner) => (Ok tt, after_write r None inner c)
  | (res, inner) => (res, with_elements_inner inner c)
  end.

(** Remember whether the element is in the slot. *)
Definition cache_slot (slot : nat) (r : ElementReference) (present : bool) (cache : SafeLru ElementReference (gmap nat bool)) :
    SafeLru ElementReference (gmap nat bool) :=
  match lru_update r <[slot := present]> cache with
  | (true, cache) => cache
  | (false, cache) => lru_put r {[slot := present]} cache
  end.

Definition cached_slot_element_by_ref (slot : nat) (r : ElementReference) :
    SM CachedElementIndex IndexError (option Element) := fun c =>
  let '(slots, cache) := lru_get r (slot_cache c) in
  let c := with_slot_cache cache c in
  match slots ≫= lookup slot with
  | Some true => cached_get_element r c
  | Some false => (Ok None, c)
  | None =>
      match get_slot_element_by_ref (SlotIndex:=ei_slots (elements_inner c)) slot r with
      | Ok result => (Ok result, with_slot_cache (cache_slot slot r (bool_decide (is_Some result)) (slot_cache c)) c)
      | res => (res, c)
      end
  end.

(** The streams of adjacent elements, read to their end: a cached list of
    references is looked up again, dropping those that are gone; a list read
    from the index is cached when the stream has ended. *)
Definition lookup_cached (refs : list ElementReference) : SM CachedElementIndex IndexError (list Element) :=
  found ← sm_mapM cached_get_element refs;
  mret (omap id found).

Definition cached_inbound (slot : nat) (r : ElementReference) : SM CachedElementIndex IndexError (list Element) := fun c =>
  match lru_get (r, slot) (inbound_cache c) with
  | (hit, cache) =>
      let c := {| elements_inner := elements_inner c; element_cache := element_cache c; slot_cache := slot_cache c;
                  inbound_cache := cache; outbound_cache := outbound_cache c |} in
      match hit with
      | Some refs => lookup_cached refs c
      | None =>
          match get_slot_elements_by_inbound (SlotIndex:=ei_slots (elements_inner c)) slot r with
          | Ok l =>
              (Ok l, {| elements_inner := elements_inner c; element_cache := element_cache c; slot_cache := slot_cache c;
                        inbound_cache := lru_put (r, slot) (get_reference <$> l) (inbound_cache c);
                        outbound_cache := outbound_cache c |})
          | res => (res, c)
          end
      end
  end.

Definition cached_outbound (slot : nat) (r : ElementReference) : SM CachedElementIndex IndexError (list Element) := fun c =>
  match lru_get (r, slot) (outbound_cache c) with
  | (hit, cache) =>
      let c := {| elements_inner := elements_inner c; element_cache := element_cache c; slot_cache := slot_cache c;
                  inbound_cache := inbound_cache c; outbound_cache := cache |} in
      match hit with
      | Some refs => lookup_cached refs c
      | None =>
          match get_slot_elements_by_outbound (SlotIndex:=ei_slots (elements_inner c)) slot r with
          | Ok l =>
              (Ok l, {| elements_inner := elements_inner c; element_cache := element_cache c; slot_cache := slot_cache c;
                        inbound_cache := inbound_cache c;
                        outbound_cache := lru_put (r, slot) (get_reference <$> l) (outbound_cache c) |})
          | res => (res, c)
          end
      end
  end.

Definition cached_elements_clear (inner_clear : S -> S) (c : CachedElementIndex) : CachedElementIndex :=
  {| elements_inner := inner_clear (elements_inner c); element_cache := lru_purge (element_cache c);
     slot_cache := lru_purge (slot_cache c); inbound_cache := lru_purge (inbound_cache c);
     outbound_cache := lru_purge (outbound_cache c) |}.

(** A session of the store does not reach the caches. *)
#[global] Instance cached_elements_session `{!SessionControl S} : SessionControl CachedElementIndex :=
  let pass m := fun c => let '(r, inner) := m (elements_inner c) in (r, with_elements_inner inner c) in
  {| session_begin := pass session_begin; session_commit := pass session_commit;
     session_rollback := pass session_rollback |}.
End cached_elements.
Arguments CachedElementIndex {C} S.
