(* ===== verification/GraphStore.v ===== *)
(** * Element indexes that store a graph

    What the continuous query relies on: an element index holds a graph and the
    slots of its elements, and lists them by slot. The in-memory index without
    synthetic joins is one. *)

From S2P Require Import Prelude BTree Floats Hashing Ast Models Errors Values FutureQueue MatchPath Solver SolverFacts.
From S2P Require Import SolverComplete NaiveQuery SolverMatches ElementIndex ElementIndexFacts ResultIndex.
From S2P Require Import Session.

Class GraphStore `{C : Chrono} {H : Hashers} (S : Type) `{!ElementIndexOps S} := {
  graph : S -> Graph;
  slots_of : S -> ElementReference -> gset nat;
  store_sound : S -> Prop;
  gs_ref : forall s, store_sound s -> graph_ok (graph s);
  gs_get : forall s r, store_sound s -> ei_get_element r s = (Ok (graph s !! r), s);
  gs_reads : forall s, store_sound s ->
    reads (ei_slots s) (fun n x => graph s !! get_reference x = Some x /\ n ∈ slots_of s (get_reference x));
  gs_set : forall s e slots, store_sound s -> exists s', ei_set_element e slots s = (Ok tt, s') /\ store_sound s' /\
    graph s' = <[get_reference e := e]> (graph s) /\
    forall r, slots_of s' r = if decide (r = get_reference e) then list_to_set slots else slots_of s r;
  gs_delete : forall s r, store_sound s -> exists s', ei_delete_element r s = (Ok tt, s') /\ store_sound s' /\
    graph s' = delete r (graph s) /\ forall r', r' <> r -> slots_of s' r' = slots_of s r';
}.

(** ** The in-memory index *)

Section in_memory.
Context {C : Chrono} {H : Hashers}.
Implicit Types st : ElementIndexState.

Definition joinless st : Prop := coherent st /\ join_spec_by_label st = ∅.

Lemma join_work_joinless st l : join_spec_by_label st = ∅ -> join_work st l = [].
Proof. intros Hj. unfold join_work. by rewrite Hj, map_to_list_empty. Qed.

Lemma set_element_joinless st e slots :
  joinless st -> exists st', set_element st e slots = Ok st' /\ joinless st' /\
    elements_ st' = <[get_reference e := e]> (elements_ st) /\
    forall r, affinity_of st' r = if decide (r = get_reference e) then list_to_set slots else affinity_of st r.
Proof.
  intros [Hc Hj]. destruct (store_ok st e slots Hc) as ((Hc3 & Hk & Hen & Hj3) & He & Haf & Har).
  unfold set_element, set_element_with at 1. set (st3 := set_slot_affinity e slots _) in *.
  assert (Hu : forall set old, update_source_joins set old e st3 = Ok st3).
  { intros set old. unfold update_source_joins. destruct e as [m ps|]; [|done].
    rewrite join_work_joinless; [done|]. by rewrite Hj3. }
  rewrite Hu. cbn [mbind outcome_bind]. eexists. split; [done|].
  assert (Hel : elements_ st3 = <[get_reference e := e]> (elements_ st)).
  { apply map_eq. intros r. destruct (decide (r = get_reference e)) as [->|Hr]; [by rewrite lookup_insert_eq|].
    rewrite lookup_insert_ne by done. by destruct (Hk r Hr) as [[-> _] _]. }
  assert (Haff : forall r, affinity_of st3 r = if decide (r = get_reference e) then list_to_set slots else affinity_of st r).
  { intros r. case_decide as Hr; [by rewrite Hr|]. by destruct (Hk r Hr) as [[_ ->] _]. }
  destruct (archive_enabled st3); [|by split; [split; [done|congruence]|]].
  split; [split; [by destruct Hc3|cbn; congruence]|by split].
Qed.

Lemma delete_element_joinless st r :
  joinless st -> exists st', delete_element st r = Ok st' /\ joinless st' /\
    elements_ st' = delete r (elements_ st) /\
    forall r', r' <> r -> affinity_of st' r' = affinity_of st r'.
Proof.
  intros [Hc Hj]. unfold delete_element. cbn [delete_element_fuel].
  destruct (elements_ st !! r) as [e|] eqn:He.
  2: { exists st. rewrite delete_id by done. by split_and!. }
  destruct (clear_shrinks st e r Hc He) as [(Hc1 & _ & Hk & _ & _ & Hj1) Hel].
  set (st1 := clear_slot_affinity e _) in *. exists st1.
  split; [|split; [split; [done|congruence]|split; [done|]]].
  - unfold delete_source_joins. destruct e as [m ps|]; [|done]. rewrite join_work_joinless; [done|congruence].
  - intros r' Hr. by destruct (Hk r' Hr).
Qed.

Lemma slot_index_reads st :
  coherent st -> reads (slot_index st)
    (fun n x => elements_ st !! get_reference x = Some x /\ n ∈ affinity_of st (get_reference x)).
Proof.
  intros Hc. pose proof (de_ref _ _ Hc) as Href. split; intros n r; eexists; (split; [reflexivity|]); intros x.
  - case_bool_decide as Hin.
    + apply (de_node _ _ Hc n tt) in Hin as (Haf & e & He & Hv). pose proof (Href r e He) as Hr.
      rewrite He. split; [intros [= ->]|].
      * rewrite Hr. by destruct x.
      * intros ((Hx & _) & <- & _). congruence.
    + split; [done|]. intros ((Hx & Haf) & <- & Hn). destruct Hin. apply (de_node _ _ Hc n tt).
      split; [done|]. exists x. by destruct x.
  - unfold lookup_all. rewrite list_elem_of_omap. setoid_rewrite elem_of_elements. split.
    + intros (r' & Hin & Hx). pose proof (Href _ _ Hx) as <-. apply (de_in _ _ Hc n r) in Hin as (Haf & e & He & Hv).
      assert (e = x) as -> by congruence. split; [done|]. destruct x; cbn in Hv; [done|by injection Hv].
    + intros ((Hx & Haf) & Hv). exists (get_reference x). split; [|done]. apply (de_in _ _ Hc n r).
      split; [done|]. exists x. split; [done|]. destruct x; cbn; [done|by subst].
  - unfold lookup_all. rewrite list_elem_of_omap. setoid_rewrite elem_of_elements. split.
    + intros (r' & Hin & Hx). pose proof (Href _ _ Hx) as <-. apply (de_out _ _ Hc n r) in Hin as (Haf & e & He & Hv).
      assert (e = x) as -> by congruence. split; [done|]. destruct x; cbn in Hv; [done|by injection Hv].
    + intros ((Hx & Haf) & Hv). exists (get_reference x). split; [|done]. apply (de_out _ _ Hc n r).
      split; [done|]. exists x. split; [done|]. destruct x; cbn; [done|by subst].
Qed.

Context {P : PriorityQueueOps}.

#[global] Program Instance in_memory_graph_store : GraphStore Indexes := {|
  graph s := elements_ (element_index s);
  slots_of s := affinity_of (element_index s);
  store_sound s := joinless (element_index s) |}.
Next Obligation. intros s [Hc _] r e. apply (de_ref _ _ Hc). Qed.
Next Obligation. done. Qed.
Next Obligation. intros s [Hc _]. by apply slot_index_reads. Qed.
Next Obligation.
  intros s e slots Hs. destruct (set_element_joinless _ e slots Hs) as (st' & He & ?).
  exists (with_element_index st' s). split; [|done].
  change (on_elements (fun st => set_element st e slots) s = (Ok tt, with_element_index st' s)).
  unfold on_elements. by rewrite He.
Qed.
Next Obligation.
  intros s r Hs. destruct (delete_element_joinless _ r Hs) as (st' & He & ?).
  exists (with_element_index st' s). split; [|done].
  change (on_elements (fun st => delete_element st r) s = (Ok tt, with_element_index st' s)).
  unfold on_elements. by rewrite He.
Qed.
End in_memory.
