(* ===== verification/IndexCacheFacts.v ===== *)
(** * The index caches are transparent

    [lru_refines_last_write] and [lru_keeps_recent] are the contract of the
    bounded cache: what it holds is what was last written, and a key survives
    as long as fewer other keys are used than it has room for.
    [shadowed_queue_transparent], [cached_values_transparent] and
    [cached_elements_transparent] show that the wrapped indexes answer as the
    bare ones, and the theorems after them where that ends: a count that is
    incremented before it has been read, and a session that is rolled back. *)

From S2P Require Import Prelude BTree Floats Hashing Ast Models Errors Values MatchPath Solver SolverFacts.
From S2P Require Import SolverComplete NaiveQuery SolverMatches ElementIndex ElementIndexFacts ResultIndex.
From S2P Require Import FutureQueue Session GraphStore IndexCache.

(** ** SafeLru *)

Section lru.
Context {K V : Type} `{Countable K}.
Implicit Types c : SafeLru K V.

Record lru_ok c : Prop := {
  ok_nodup : NoDup (lru_order c);
  ok_keys : forall k, k ∈ lru_order c <-> is_Some (lru_map c !! k);
  ok_size : (size (lru_map c) <= lru_cap c)%nat;
  ok_cap : (1 <= lru_cap c)%nat;
}.

Lemma lru_new_ok n : lru_ok (lru_new n : SafeLru K V).
Proof.
  split; cbn; [constructor| |rewrite map_size_empty; lia|lia].
  intros k. rewrite lookup_empty. split; [by intros ?%not_elem_of_nil|by intros [? ?]].
Qed.

Lemma ok_length c : lru_ok c -> size (lru_map c) = length (lru_order c).
Proof.
  intros [Hn Hk _ _]. rewrite <- size_dom, <- (size_list_to_set (C:=gset K)) by done. f_equal.
  apply set_eq. intros k. by rewrite elem_of_list_to_set, Hk, elem_of_dom.
Qed.

Lemma elem_of_remove_first (k j : K) l : NoDup l -> j ∈ drop_key k l <-> j ∈ l /\ j <> k.
Proof.
  induction l as [|i l IH]; cbn; intros Hn; [set_solver|]. apply NoDup_cons in Hn as [Hi Hl].
  case_decide; set_solver.
Qed.

Lemma remove_first_nodup (k : K) l : NoDup l -> NoDup (drop_key k l).
Proof.
  induction l as [|i l IH]; cbn; [done|]. intros Hn. pose proof Hn as [Hi Hl]%NoDup_cons.
  case_decide; [done|]. constructor; [|by apply IH]. rewrite elem_of_remove_first by done. naive_solver.
Qed.

Lemma remove_first_behind (k j : K) pre rest :
  j <> k -> exists pre' rest', drop_key j (pre ++ k :: rest) = pre' ++ k :: rest' /\ rest' ⊆ rest.
Proof.
  intros Hj. induction pre as [|i pre (pre' & rest' & IH & Hs)]; cbn; case_decide as Hi; subst; [done| | |].
  - exists []. eexists. split; [done|]. clear. induction rest as [|i rest IH]; cbn; [done|]. case_decide; set_solver.
  - by exists pre, rest.
  - exists (i :: pre'), rest'. by rewrite IH.
Qed.

Lemma touch_ok k c : lru_ok c -> lru_ok (lru_touch k c).
Proof.
  intros [Hn Hk Hs Hc]. unfold lru_touch. case_decide as Hin; [|done]. split; cbn; [| |done..].
  - apply NoDup_app. split_and!; [by apply remove_first_nodup| |apply NoDup_singleton].
    intros j. rewrite elem_of_remove_first by done. set_solver.
  - intros j. rewrite <- Hk, elem_of_app, elem_of_remove_first, list_elem_of_singleton by done.
    destruct (decide (j = k)); naive_solver.
Qed.

Lemma touch_map k c : lru_map (lru_touch k c) = lru_map c.
Proof. unfold lru_touch. by case_decide. Qed.

Lemma touch_cap k c : lru_cap (lru_touch k c) = lru_cap c.
Proof. unfold lru_touch. by case_decide. Qed.

(** Overwriting the value of a key that is there *)
Lemma overwrite_ok k v c : is_Some (lru_map c !! k) -> lru_ok c -> lru_ok (with_map <[k := v]> c).
Proof.
  intros Hi [Hn Hk Hs Hc]. split; cbn; [done| | |done].
  - intros j. rewrite Hk. destruct (decide (j = k)) as [->|]; [by rewrite lookup_insert_eq|by rewrite lookup_insert_ne].
  - by rewrite map_size_insert_Some.
Qed.

Lemma size_delete_le (m : gmap K V) k n : (size m <= n)%nat -> (size (delete k m) <= n)%nat.
Proof. rewrite map_size_delete. destruct (m !! k); cbn; lia. Qed.

(** Eviction takes keys from the front until there is room. *)
Lemma evict_spec order (m : gmap K V) cap :
  NoDup order -> (forall k, k ∈ order <-> is_Some (m !! k)) -> (1 <= cap)%nat ->
  let '(m', order') := evict order m cap in
  m' ⊆ m /\ NoDup order' /\ (forall k, k ∈ order' <-> is_Some (m' !! k)) /\ (size m' < cap)%nat.
Proof.
  revert m. induction order as [|k order IH]; intros m Hn Hk Hc; cbn [evict].
  - assert (m = ∅) as ->.
    { apply map_empty. intros j. rewrite eq_None_not_Some, <- Hk. apply not_elem_of_nil. }
    rewrite map_size_empty. destruct (Nat.leb_spec cap 0); [lia|]. split_and!; [done..|]. by rewrite map_size_empty.
  - destruct (Nat.leb_spec cap (size m)); [|by split_and!]. apply NoDup_cons in Hn as [Hnin Hn].
    specialize (IH (delete k m) Hn). destruct (evict order (delete k m) cap) as [m' order'].
    destruct IH as (Hsub & H'); [|done|].
    + intros j. destruct (decide (j = k)) as [->|Hj].
      * rewrite lookup_delete_eq. split; [done|by intros [? ?]].
      * rewrite lookup_delete_ne, <- Hk by done. set_solver.
    + split; [|done]. etrans; [done|]. apply delete_subseteq.
Qed.

Lemma put_ok k v c : lru_ok c -> lru_ok (lru_put k v c).
Proof.
  intros Hok. unfold lru_put. destruct (lru_map c !! k) as [v'|] eqn:Hkv.
  { apply touch_ok, overwrite_ok; [by rewrite Hkv|done]. }
  destruct Hok as [Hn Hk Hs Hc]. pose proof (evict_spec (lru_order c) (lru_map c) (lru_cap c) Hn Hk Hc) as He.
  destruct (evict _ _ _) as [m order]. destruct He as (Hsub & Hno & Hko & Hlt).
  assert (Hkm : m !! k = None) by (by eapply lookup_weaken_None).
  split; cbn; [| | |done].
  - apply NoDup_app. split_and!; [done| |apply NoDup_singleton].
    intros j Hj ->%list_elem_of_singleton. apply Hko in Hj. rewrite Hkm in Hj. by destruct Hj.
  - intros j. rewrite elem_of_app, Hko, list_elem_of_singleton. destruct (decide (j = k)) as [->|].
    + rewrite lookup_insert_eq. naive_solver.
    + rewrite lookup_insert_ne by done. naive_solver.
  - rewrite map_size_insert_None by done. lia.
Qed.

Lemma put_lookup k v c : lru_map (lru_put k v c) !! k = Some v.
Proof.
  unfold lru_put. destruct (lru_map c !! k); [rewrite touch_map; cbn; apply lookup_insert_eq|].
  destruct (evict _ _ _). cbn. apply lookup_insert_eq.
Qed.

Lemma put_subseteq k v c : lru_ok c -> lru_map (lru_put k v c) ⊆ <[k := v]> (lru_map c).
Proof.
  intros [Hn Hk Hs Hc]. unfold lru_put. destruct (lru_map c !! k) as [v'|] eqn:Hkv; [by rewrite touch_map|].
  pose proof (evict_spec (lru_order c) (lru_map c) (lru_cap c) Hn Hk Hc) as He.
  destruct (evict _ _ _) as [m order]. destruct He as (Hsub & _). cbn. by apply insert_mono.
Qed.

Lemma put_cap k v c : lru_cap (lru_put k v c) = lru_cap c.
Proof. unfold lru_put. destruct (lru_map c !! k); [by rewrite touch_cap|]. by destruct (evict _ _ _). Qed.

Lemma get_ok k c : lru_ok c -> lru_ok (lru_get k c).2.
Proof. intros Hc. unfold lru_get. destruct (lru_map c !! k); [by apply touch_ok|done]. Qed.

Lemma get_value k c : (lru_get k c).1 = lru_map c !! k.
Proof. unfold lru_get. by destruct (lru_map c !! k). Qed.

Lemma get_map k c : lru_map (lru_get k c).2 = lru_map c.
Proof. unfold lru_get. destruct (lru_map c !! k); [apply touch_map|done]. Qed.

Lemma remove_ok k c : lru_ok c -> lru_ok (lru_remove k c).2.
Proof.
  intros Hok. unfold lru_remove. destruct (lru_map c !! k) as [v|]; [|done]. destruct Hok as [Hn Hk Hs Hc].
  split; cbn; [by apply remove_first_nodup| |by apply size_delete_le|done].
  intros j. rewrite elem_of_remove_first, Hk by done. destruct (decide (j = k)) as [->|].
  - rewrite lookup_delete_eq. split; [naive_solver|by intros [? ?]].
  - rewrite lookup_delete_ne by done. naive_solver.
Qed.

Lemma remove_map k c : lru_map (lru_remove k c).2 = delete k (lru_map c).
Proof. unfold lru_remove. destruct (lru_map c !! k) eqn:Hk; [done|]. cbn. by rewrite delete_id. Qed.

Lemma update_ok k f c : lru_ok c -> lru_ok (lru_update k f c).2.
Proof.
  intros Hc. unfold lru_update. destruct (lru_map c !! k) eqn:Hk; [|done]. cbn [snd].
  apply overwrite_ok; [by rewrite touch_map, Hk|by apply touch_ok].
Qed.

Lemma update_map k f c : lru_map (lru_update k f c).2 = alter f k (lru_map c).
Proof.
  unfold lru_update. destruct (lru_map c !! k) as [v|] eqn:Hk; cbn.
  - rewrite touch_map. apply map_eq. intros j. destruct (decide (j = k)) as [->|].
    + by rewrite lookup_insert_eq, lookup_alter_eq, Hk.
    + by rewrite lookup_insert_ne, lookup_alter_ne by done.
  - apply map_eq. intros j. destruct (decide (j = k)) as [->|].
    + by rewrite lookup_alter_eq, Hk.
    + by rewrite lookup_alter_ne by done.
Qed.

Lemma purge_ok c : lru_ok c -> lru_ok (lru_purge c).
Proof.
  intros [_ _ _ Hc]. split; cbn; [constructor| |rewrite map_size_empty; lia|done].
  intros k. rewrite lookup_empty. split; [by intros ?%not_elem_of_nil|by intros [? ?]].
Qed.
(** *** Traces of operations *)

Inductive LruOp :=
| OpGet (k : K)
| OpUpdate (k : K) (f : V -> V)
| OpPut (k : K) (v : V)
| OpRemove (k : K)
| OpPurge.

Definition lru_run (op : LruOp) c : SafeLru K V :=
  match op with
  | OpGet k => (lru_get k c).2
  | OpUpdate k f => (lru_update k f c).2
  | OpPut k v => lru_put k v c
  | OpRemove k => (lru_remove k c).2
  | OpPurge => lru_purge c
  end.

Definition lru_runs (ops : list LruOp) c : SafeLru K V := fold_left (fun c op => lru_run op c) ops c.

(** A map without a bound *)
Definition write (op : LruOp) (m : gmap K V) : gmap K V :=
  match op with
  | OpGet _ => m
  | OpUpdate k f => alter f k m
  | OpPut k v => <[k := v]> m
  | OpRemove k => delete k m
  | OpPurge => ∅
  end.

Definition written (ops : list LruOp) (m : gmap K V) : gmap K V := fold_left (fun m op => write op m) ops m.

(** The keys the operations use; [leaves k] holds of those that do not write
    or drop [k]. *)
Definition used_by (op : LruOp) : gset K :=
  match op with OpGet k | OpUpdate k _ | OpPut k _ => {[ k ]} | OpRemove _ | OpPurge => ∅ end.

Definition used (ops : list LruOp) : gset K := ⋃ (used_by <$> ops).

Definition leaves (k : K) (op : LruOp) : Prop :=
  match op with OpUpdate j _ | OpPut j _ | OpRemove j => j <> k | OpGet _ => True | OpPurge => False end.

Lemma lru_run_ok op c : lru_ok c -> lru_ok (lru_run op c).
Proof. destruct op; unfold lru_run; auto using get_ok, update_ok, put_ok, remove_ok, purge_ok. Qed.

Lemma run_cap op c : lru_cap (lru_run op c) = lru_cap c.
Proof.
  destruct op as [k|k f|k v|k|]; cbn; [unfold lru_get|unfold lru_update|apply put_cap|unfold lru_remove|done];
    destruct (lru_map c !! k); cbn; by rewrite ?touch_cap.
Qed.

(** A trace keeps the cache well formed (its keys are queued once each,
    within the capacity), and whatever it holds is what a map without a bound
    would hold. *)
Theorem lru_refines_last_write (ops : list LruOp) n :
  let c := lru_runs ops (lru_new n) in
  lru_ok c /\ lru_cap c = Nat.max n 1 /\ lru_map c ⊆ written ops ∅.
Proof.
  cbn. unfold lru_runs, written. pose proof (lru_new_ok n) as Hok. remember (lru_new n : SafeLru K V) as c eqn:Hc.
  assert (Hsub : lru_map c ⊆ (∅ : gmap K V)) by by subst.
  assert (Hcap : lru_cap c = Nat.max n 1) by by subst. clear Hc. revert Hok Hsub Hcap. generalize (∅ : gmap K V) as m.
  revert c. induction ops as [|op ops IH]; intros c m Hok Hsub Hcap; cbn; [done|].
  apply IH; [by apply lru_run_ok| |by rewrite run_cap].
  destruct op as [k|k f|k v|k|]; cbn; rewrite ?get_map, ?update_map, ?remove_map; [done|by apply alter_mono| | |done].
  - etrans; [by apply put_subseteq|by apply insert_mono].
  - by apply delete_mono.
Qed.

(** *** Survival *)

(** [k] holds [v] and only keys of [U] have been used since. *)
Definition recent (k : K) (v : V) (U : gset K) c : Prop :=
  lru_map c !! k = Some v /\ exists pre rest, lru_order c = pre ++ k :: rest /\ forall j, j ∈ rest -> j ∈ U.

Lemma evict_behind order (m : gmap K V) cap k pre rest :
  order = pre ++ k :: rest -> NoDup order -> (forall j, j ∈ order <-> is_Some (m !! j)) ->
  (length rest + 1 < cap)%nat ->
  let '(m', order') := evict order m cap in
  m' !! k = m !! k /\ exists pre', order' = pre' ++ k :: rest.
Proof.
  revert order m. induction pre as [|i pre IH]; intros order m -> Hn Hk Hlt; cbn [evict app].
  - assert (Hs : size m = length (k :: rest)).
    { rewrite <- size_dom, <- (size_list_to_set (C:=gset K)) by done. f_equal.
      apply set_eq. intros j. by rewrite elem_of_list_to_set, Hk, elem_of_dom. }
    cbn in Hs. destruct (Nat.leb_spec cap (size m)); [lia|]. split; [done|]. by exists [].
  - destruct (Nat.leb_spec cap (size m)); [|by split; [|exists (i :: pre)]].
    pose proof Hn as [Hi Hn']%NoDup_cons. specialize (IH _ (delete i m) eq_refl Hn').
    assert (Hki : k <> i) by (intros ->; apply Hi; set_solver).
    destruct (evict _ _ _) as [m' order']. destruct IH as [Hm' Hpre]; [|done|].
    + intros j. destruct (decide (j = i)) as [->|Hj].
      * rewrite lookup_delete_eq. split; [done|by intros [? ?]].
      * rewrite lookup_delete_ne, <- Hk by done. set_solver.
    + by rewrite Hm', lookup_delete_ne.
Qed.

Lemma touch_recent j k v U c : j <> k -> lru_ok c -> recent k v U c -> recent k v ({[ j ]} ∪ U) (lru_touch j c).
Proof.
  intros Hj Hok (Hv & pre & rest & Ho & Hr). split; [by rewrite touch_map|]. unfold lru_touch.
  case_decide; [|exists pre, rest; set_solver]. cbn. rewrite Ho.
  destruct (remove_first_behind k j pre rest) as (pre' & rest' & -> & Hs); [done|].
  exists pre', (rest' ++ [j]). split; [by rewrite <- app_assoc|]. set_solver.
Qed.

Lemma touched_recent k v U c : lru_ok c -> lru_map c !! k = Some v -> recent k v U (lru_touch k c).
Proof.
  intros Hok Hk. split; [by rewrite touch_map|]. unfold lru_touch.
  rewrite decide_True by (apply (ok_keys c Hok); by rewrite Hk).
  exists (drop_key k (lru_order c)), []. set_solver.
Qed.

Lemma run_recent op k v U c :
  lru_ok c -> leaves k op -> (size ((used_by op ∪ U) ∖ {[ k ]}) < lru_cap c)%nat -> k ∉ U ->
  recent k v U c -> recent k v ((used_by op ∪ U) ∖ {[ k ]}) (lru_run op c).
Proof.
  intros Hok Hl Hsize HkU Hrec. destruct op as [j|j f|j w|j|]; cbn -[lru_get lru_update lru_put lru_remove] in *; [| | | |done].
  - unfold lru_get. destruct (decide (j = k)) as [->|Hjk].
    { destruct Hrec as [Hv _]. rewrite Hv. cbn [snd]. by apply touched_recent. }
    rewrite difference_disjoint_L by set_solver.
    destruct (lru_map c !! j); [by apply touch_recent|]. destruct Hrec as (Hv & pre & rest & Ho & Hr).
    split; [done|]. exists pre, rest. set_solver.
  - rewrite difference_disjoint_L by set_solver. unfold lru_update. destruct (lru_map c !! j); cbn [snd].
    + destruct (touch_recent j k v U c) as (Hv & Hrest); [done..|]. split; [|done].
      cbn. by rewrite lookup_insert_ne.
    + destruct Hrec as (Hv & pre & rest & Ho & Hr). split; [done|]. exists pre, rest. set_solver.
  - rewrite difference_disjoint_L in * by set_solver. unfold lru_put. destruct (lru_map c !! j) as [w'|] eqn:Hj.
    + assert (Hrec' : recent k v U (with_map <[j := w]> c)).
      { destruct Hrec as (Hv & Hrest). split; [|done]. cbn. by rewrite lookup_insert_ne. }
      apply touch_recent; [done| |done]. by apply overwrite_ok; [rewrite Hj|].
    + destruct Hrec as (Hv & pre & rest & Ho & Hr).
      assert (Hjr : j ∉ rest).
      { intros Hin. assert (Hin' : j ∈ lru_order c) by (rewrite Ho; set_solver).
        apply (ok_keys c Hok) in Hin'. rewrite Hj in Hin'. by destruct Hin'. }
      assert (Hlen : (length rest + 1 < lru_cap c)%nat).
      { pose proof (ok_nodup c Hok) as Hn. rewrite Ho in Hn. apply NoDup_app in Hn as (_ & _ & Hn).
        apply NoDup_cons in Hn as [_ Hn]. eapply Nat.le_lt_trans; [|exact Hsize].
        rewrite <- (size_list_to_set (C:=gset K) rest), Nat.add_comm by done.
        rewrite <- (size_singleton (C:=gset K) j), <- size_union by set_solver.
        apply subseteq_size. set_solver. }
      pose proof (evict_behind _ (lru_map c) (lru_cap c) k pre rest Ho (ok_nodup c Hok) (ok_keys c Hok) Hlen) as He.
      destruct (evict _ _ _) as [m order]. destruct He as (Hm & pre' & ->).
      split; cbn; [by rewrite lookup_insert_ne, Hm|]. exists pre', (rest ++ [j]).
      split; [by rewrite <- app_assoc|]. set_solver.
  - rewrite difference_disjoint_L by set_solver. destruct Hrec as (Hv & pre & rest & Ho & Hr). unfold lru_remove.
    destruct (lru_map c !! j); cbn [snd]; [|split; [done|]; exists pre, rest; set_solver].
    split; [cbn; by rewrite lookup_delete_ne|]. cbn. rewrite Ho.
    destruct (remove_first_behind k j pre rest) as (pre' & rest' & -> & Hs); [done|].
    exists pre', rest'. set_solver.
Qed.

Lemma put_recent k v c : lru_ok c -> recent k v ∅ (lru_put k v c).
Proof.
  intros Hok. unfold lru_put. destruct (lru_map c !! k) as [w|] eqn:Hk.
  - apply touched_recent; [apply overwrite_ok; [by rewrite Hk|done]|apply lookup_insert_eq].
  - destruct (evict _ _ _) as [m order]. split; [apply lookup_insert_eq|]. exists order, []. set_solver.
Qed.

Lemma runs_recent ops k v U c :
  lru_ok c -> Forall (leaves k) ops -> k ∉ U -> (size ((used ops ∪ U) ∖ {[ k ]}) < lru_cap c)%nat ->
  recent k v U c -> lru_map (lru_runs ops c) !! k = Some v.
Proof.
  revert U c. induction ops as [|op ops IH]; intros U c Hok Hl HU Hs Hrec; [apply Hrec|].
  apply Forall_cons in Hl as [Hop Hl]. unfold used in Hs. cbn in Hs. fold (used ops) in Hs.
  apply (IH ((used_by op ∪ U) ∖ {[ k ]})); [by apply lru_run_ok|done|set_solver| |].
  - rewrite run_cap. eapply Nat.le_lt_trans; [|exact Hs]. apply subseteq_size. set_solver.
  - apply run_recent; [done..| |done|done]. eapply Nat.le_lt_trans; [|exact Hs]. apply subseteq_size. set_solver.
Qed.

(** A key that was put stays, with its value, as long as nobody writes or
    removes it and fewer other keys than the capacity are used: only the least
    recently used keys are evicted. *)
Theorem lru_keeps_recent k v c (ops : list LruOp) :
  lru_ok c -> Forall (leaves k) ops -> (size (used ops ∖ {[ k ]}) < lru_cap c)%nat ->
  lru_map (lru_runs ops (lru_put k v c)) !! k = Some v.
Proof.
  intros Hok Hl Hs. apply (runs_recent ops k v ∅); [by apply put_ok|done|set_solver| |by apply put_recent].
  by rewrite put_cap, (right_id_L ∅ (∪)).
Qed.
End lru.

#[export] Hint Resolve lru_new_ok touch_ok put_ok get_ok remove_ok update_ok purge_ok : drasi.

(** ** CachedResultIndex: accumulators *)

(** The wrapped index addresses a slot by the hash the cache uses. *)
Class HashAddressed {C : Chrono} {H : Hashers} (S : Type) {AI : AccumulatorIndex S} {AL : AccumulatorLaws S} := {
  same_hash : forall s k o k' o', get_hash_key o k = get_hash_key o' k' -> acc_at s k o = acc_at s k' o';
  other_hash : forall k o k' o', get_hash_key o k <> get_hash_key o' k' -> acc_independent (S:=S) (k, o) (k', o');
}.

#[global] Instance memory_hash_addressed `{C : Chrono} {H : Hashers} : HashAddressed InMemoryResultIndex.
Proof. split; [|done]. intros s k o k' o' Hh. cbn. by rewrite Hh. Qed.

Section values.
Context {C : Chrono} {H : Hashers} {S : Type} {AI : AccumulatorIndex S} {AL : AccumulatorLaws S} {HA : HashAddressed S}.
Notation Cached := (CachedResultIndex S).

Inductive ValueCall :=
| GetValue (key : ResultKey) (owner : ResultOwner)
| SetValue (key : ResultKey) (owner : ResultOwner) (value : option ValueAccumulator).

(** The answers of the bare index, and of the cached one *)
Fixpoint bare_values (cs : list ValueCall) (s : S) : list (outcome IndexError (option ValueAccumulator)) * S :=
  match cs with
  | [] => ([], s)
  | GetValue k o :: cs => let '(l, s') := bare_values cs s in (acc_get s k o :: l, s')
  | SetValue k o v :: cs =>
      match acc_set s k o v with Ok s' => bare_values cs s' | _ => bare_values cs s end
  end.

Fixpoint cached_values (cs : list ValueCall) (c : Cached) : list (outcome IndexError (option ValueAccumulator)) * Cached :=
  match cs with
  | [] => ([], c)
  | GetValue k o :: cs => let '(a, c) := cached_get k o c in let '(l, c) := cached_values cs c in (a :: l, c)
  | SetValue k o v :: cs => cached_values cs (cached_set k o v c).2
  end.

Definition values_agree (c : Cached) : Prop :=
  lru_ok (value_cache c) /\
  forall k o v, lru_map (value_cache c) !! get_hash_key o k = Some v -> acc_at (results_inner c) k o = Some v.

Lemma cached_get_agrees k o c :
  values_agree c ->
  let '(r, c') := cached_get k o c in
  r = acc_get (results_inner c) k o /\ results_inner c' = results_inner c /\ values_agree c'.
Proof.
  intros [Hok Hv]. unfold cached_get. rewrite acc_get_ok.
  pose proof (get_ok (get_hash_key o k) _ Hok) as Hok'. pose proof (get_value (get_hash_key o k) (value_cache c)) as Hg.
  pose proof (get_map (get_hash_key o k) (value_cache c)) as Hm.
  destruct (lru_get _ _) as [[v|] cache]; cbn in Hok', Hg, Hm.
  - rewrite (Hv k o v) by done. do 2 (split; [done|]). split; [done|]. intros k' o' v'. cbn. rewrite Hm. apply Hv.
  - destruct (acc_at (results_inner c) k o) as [v|] eqn:Ha.
    + do 2 (split; [done|]). split; [by apply put_ok|]. intros k' o' v' Hl. cbn in Hl |- *.
      eapply lookup_weaken in Hl; [|by apply put_subseteq]. rewrite Hm in Hl.
      apply lookup_insert_Some in Hl as [[Hh <-]|[_ Hl]]; [|by apply Hv]. by rewrite (same_hash _ k' o' k o).
    + do 2 (split; [done|]). split; [done|]. intros k' o' v'. cbn. rewrite Hm. apply Hv.
Qed.

Lemma cached_set_agrees k o v c :
  values_agree c ->
  let '(r, c') := cached_set k o v c in
  r = Ok tt /\ acc_set (results_inner c) k o v = Ok (results_inner c') /\ values_agree c'.
Proof.
  intros [Hok Hv]. unfold cached_set. destruct (acc_set_ok (results_inner c) k o v) as (s' & -> & Hs & Hi).
  do 2 (split; [done|]). split; cbn [value_cache results_inner].
  - destruct v; auto with drasi.
  - intros k' o' v' Hl. destruct (decide (get_hash_key o k = get_hash_key o' k')) as [Hh|Hh].
    + rewrite (same_hash _ k' o' k o), Hs by done. destruct v as [v|].
      * rewrite <- Hh, put_lookup in Hl. by simplify_eq.
      * rewrite remove_map, <- Hh, lookup_delete_eq in Hl. done.
    + rewrite Hi by by apply other_hash. apply Hv. destruct v as [v|].
      * eapply lookup_weaken in Hl; [|by apply put_subseteq]. by rewrite lookup_insert_ne in Hl.
      * by rewrite remove_map, lookup_delete_ne in Hl.
Qed.

Lemma cached_values_agree cs c :
  values_agree c ->
  let '(l, c') := cached_values cs c in bare_values cs (results_inner c) = (l, results_inner c').
Proof.
  revert c. induction cs as [|[k o|k o v] cs IH]; intros c Hc; cbn [cached_values bare_values]; [done| |].
  - pose proof (cached_get_agrees k o c Hc) as Hg. destruct (cached_get k o c) as [a c1]. destruct Hg as (-> & Hi & Hc1).
    specialize (IH c1 Hc1). destruct (cached_values cs c1). by rewrite <- Hi, IH.
  - pose proof (cached_set_agrees k o v c Hc) as Hg. destruct (cached_set k o v c) as [a c1].
    destruct Hg as (-> & -> & Hc1). apply (IH c1 Hc1).
Qed.

(** Whatever the capacity, accumulators read and written through the cache
    are those of the index under it, which ends up as without the cache. *)
Theorem cached_values_transparent (cs : list ValueCall) (s : S) n :
  let '(l, c) := cached_values cs (cached_results_new s n) in bare_values cs s = (l, results_inner c).
Proof.
  apply (cached_values_agree cs (cached_results_new s n)). split; [apply lru_new_ok|].
  intros k o v Hl. cbn in Hl. by rewrite lookup_empty in Hl.
Qed.
End values.

(** ** CachedResultIndex: counts *)

Section counts.
Context {C : Chrono} {H : Hashers} {S : Type} {LS : LazySortedSetStore S} {LL : LazySortedSetStoreLaws S}.
Notation Cached := (CachedResultIndex S).

Lemma count_key_eq id v id' w : count_key id v = count_key id' w <-> id = id' /\ cmp v w = Eq.
Proof.
  unfold count_key. change (cmp v w) with (ordered_cmp (of_f64 v) (of_f64 w)).
  rewrite ordered_cmp_key, key_cmp_eq. split; [by intros [= -> ?]|by intros [-> ->]].
Qed.

(** A cached count is the count of the index. *)
Definition counts_agree (c : Cached) : Prop :=
  store_inv (results_inner c) /\ lru_ok (set_count_cache c) /\
  forall id v n, lru_map (set_count_cache c) !! count_key id v = Some n -> n = counts (results_inner c) id v.

Lemma cached_count_agrees id v c :
  counts_agree c ->
  let '(r, c') := cached_get_value_count id v c in
  r = get_value_count (results_inner c) id v /\ results_inner c' = results_inner c /\ counts_agree c'.
Proof.
  intros (Hi & Hok & Hv). unfold cached_get_value_count. rewrite get_value_count_ok by done.
  pose proof (get_ok (count_key id v) _ Hok) as Hok'. pose proof (get_value (count_key id v) (set_count_cache c)) as Hg.
  pose proof (get_map (count_key id v) (set_count_cache c)) as Hm.
  destruct (lru_get _ _) as [[n|] cache]; cbn in Hok', Hg, Hm.
  - rewrite (Hv id v n) by done. do 2 (split; [done|]). split_and!; [done..|]. intros id' w n'. cbn. rewrite Hm. apply Hv.
  - do 2 (split; [done|]). split_and!; [done|by apply put_ok|]. intros id' w n' Hl. cbn in Hl |- *.
    eapply lookup_weaken in Hl; [|by apply put_subseteq]. rewrite Hm in Hl.
    apply lookup_insert_Some in Hl as [[Hk <-]|[_ Hl]]; [|by apply Hv].
    apply count_key_eq in Hk as [<- Hk]. by apply counts_cmp.
Qed.

(** The increments a cached count follows: of a count that is cached, or that
    was zero. *)
Definition followed (id : Z) (v : OrderedFloat) (c : Cached) : Prop :=
  is_Some (lru_map (set_count_cache c) !! count_key id v) \/ counts (results_inner c) id v = 0.

Lemma cached_increment_agrees id v d c :
  counts_agree c -> followed id v c -> 0 <= counts (results_inner c) id v + d <= i64_max ->
  let '(r, c') := cached_increment_value_count id v d c in
  r = Ok tt /\ increment_value_count (results_inner c) id v d = (Ok tt, results_inner c') /\ counts_agree c'.
Proof.
  intros (Hi & Hok & Hv) Hf Hd. unfold cached_increment_value_count.
  destruct (increment_ok _ id v d Hi Hd) as (s' & Hinc & Hi' & Hc). rewrite Hinc.
  do 3 (split; [done|]). cbn [set_count_cache results_inner].
  pose proof (update_ok (count_key id v) (fun n => as_i64 (n + d)) _ Hok) as Hok'.
  pose proof (update_map (count_key id v) (fun n => as_i64 (n + d)) (set_count_cache c)) as Hm.
  unfold lru_update in *. destruct (lru_map (set_count_cache c) !! count_key id v) as [n|] eqn:Hn; cbn in Hok', Hm.
  - split; [done|]. intros id' w n' Hl. cbn in Hl. rewrite Hm in Hl. rewrite Hc.
    apply lookup_alter_Some in Hl as [(Hk & n0 & Hl & ->)|[Hk Hl]].
    + rewrite <- Hk in Hl. assert (n0 = n) as -> by congruence. apply count_key_eq in Hk as [<- ->]. rewrite Z.eqb_refl. cbn.
      rewrite <- (Hv _ _ _ Hn) in Hd |- *. rewrite as_i64_small; [done|unfold i64_ok, i64_min, i64_max in *; lia].
    + destruct (Z.eqb_spec id id') as [<-|]; cbn; [|by apply Hv].
      destruct (cmp v w) eqn:Hvw; [|by apply Hv..]. by destruct Hk; apply count_key_eq.
  - destruct Hf as [[? Hf]|Hz]; [congruence|]. split; [by apply put_ok|]. intros id' w n' Hl. rewrite Hc.
    eapply lookup_weaken in Hl; [|by apply put_subseteq].
    apply lookup_insert_Some in Hl as [[Hk <-]|[Hk Hl]].
    + apply count_key_eq in Hk as [<- ->]. rewrite Z.eqb_refl. cbn. lia.
    + destruct (Z.eqb_spec id id') as [<-|]; cbn; [|by apply Hv].
      destruct (cmp v w) eqn:Hvw; [|by apply Hv..]. by destruct Hk; apply count_key_eq.
Qed.

(** An increment of a count that is not cached caches the increment in
    place of the count: the next read answers [d] where the index holds [d]
    more than before, so the answers part whenever the count was not zero. *)
Theorem missed_increment_corrupts_count id v d c :
  counts_agree c -> lru_map (set_count_cache c) !! count_key id v = None ->
  0 <= counts (results_inner c) id v + d <= i64_max ->
  let c' := (cached_increment_value_count id v d c).2 in
  (cached_get_value_count id v c').1 = Ok d /\
  get_value_count (results_inner c') id v = Ok (counts (results_inner c) id v + d).
Proof.
  intros (Hi & Hok & Hv) Hn Hd. unfold cached_increment_value_count.
  destruct (increment_ok _ id v d Hi Hd) as (s' & -> & Hi' & Hc). unfold lru_update. rewrite Hn. cbn [snd].
  unfold cached_get_value_count. cbn [set_count_cache results_inner]. split.
  - pose proof (get_value (count_key id v) (lru_put (count_key id v) d (set_count_cache c))) as Hg.
    rewrite put_lookup in Hg. destruct (lru_get _ _) as [o cache]. cbn in Hg. by rewrite Hg.
  - rewrite get_value_count_ok, Hc, Z.eqb_refl by done. by rewrite cmp_refl.
Qed.
End counts.

(** ** CachedElementIndex *)

Section elements.
Context {C : Chrono} {H : Hashers} {S : Type} {EI : ElementIndexOps S} {GS : GraphStore S}.
Notation Cached := (CachedElementIndex S).

Inductive ElementCall :=
| GetElement (r : ElementReference)
| SetElement (e : Element) (slots : list nat)
| DeleteElement (r : ElementReference)
| SlotByRef (slot : nat) (r : ElementReference)
| SlotByInbound (slot : nat) (r : ElementReference)
| SlotByOutbound (slot : nat) (r : ElementReference).

Inductive ElementAnswer :=
| Written (r : outcome IndexError unit)
| Found (r : outcome IndexError (option Element))
| Listed (r : outcome IndexError (list Element)).

Definition bare_element_call (c : ElementCall) (s : S) : ElementAnswer * S :=
  match c with
  | GetElement r => let '(a, s) := ei_get_element r s in (Found a, s)
  | SetElement e slots => let '(a, s) := ei_set_element e slots s in (Written a, s)
  | DeleteElement r => let '(a, s) := ei_delete_element r s in (Written a, s)
  | SlotByRef n r => (Found (get_slot_element_by_ref (SlotIndex:=ei_slots s) n r), s)
  | SlotByInbound n r => (Listed (get_slot_elements_by_inbound (SlotIndex:=ei_slots s) n r), s)
  | SlotByOutbound n r => (Listed (get_slot_elements_by_outbound (SlotIndex:=ei_slots s) n r), s)
  end.

Definition cached_element_call (c : ElementCall) (s : Cached) : ElementAnswer * Cached :=
  match c with
  | GetElement r => let '(a, s) := cached_get_element r s in (Found a, s)
  | SetElement e slots => let '(a, s) := cached_set_element e slots s in (Written a, s)
  | DeleteElement r => let '(a, s) := cached_delete_element r s in (Written a, s)
  | SlotByRef n r => let '(a, s) := cached_slot_element_by_ref n r s in (Found a, s)
  | SlotByInbound n r => let '(a, s) := cached_inbound n r s in (Listed a, s)
  | SlotByOutbound n r => let '(a, s) := cached_outbound n r s in (Listed a, s)
  end.

Fixpoint call_each {St} (call : ElementCall -> St -> ElementAnswer * St) (cs : list ElementCall) (s : St) :
    list ElementAnswer * St :=
  match cs with
  | [] => ([], s)
  | c :: cs => let '(a, s) := call c s in let '(l, s) := call_each call cs s in (a :: l, s)
  end.

Notation slot_of s n r := (get_slot_element_by_ref (SlotIndex:=ei_slots s) n r).
Notation in_of s n r := (get_slot_elements_by_inbound (SlotIndex:=ei_slots s) n r).
Notation out_of s n r := (get_slot_elements_by_outbound (SlotIndex:=ei_slots s) n r).

(** Every cached answer is what the index would answer. *)
Record elements_agree (c : Cached) : Prop := {
  ea_sound : store_sound (elements_inner c);
  ea_elements : lru_ok (element_cache c);
  ea_slots : lru_ok (slot_cache c);
  ea_in : lru_ok (inbound_cache c);
  ea_out : lru_ok (outbound_cache c);
  ea_element : forall r e, lru_map (element_cache c) !! r = Some e -> graph (elements_inner c) !! r = Some e;
  ea_slot : forall r m n b, lru_map (slot_cache c) !! r = Some m -> m !! n = Some b ->
    slot_of (elements_inner c) n r = Ok (if b : bool then graph (elements_inner c) !! r else None);
  ea_inbound : forall r n refs, lru_map (inbound_cache c) !! (r, n) = Some refs ->
    exists l, in_of (elements_inner c) n r = Ok l /\ refs = get_reference <$> l;
  ea_outbound : forall r n refs, lru_map (outbound_cache c) !! (r, n) = Some refs ->
    exists l, out_of (elements_inner c) n r = Ok l /\ refs = get_reference <$> l;
}.

(** What a reading call does: the index is not touched, and the caches still
    agree. *)
Definition only_reads (c c' : Cached) : Prop := elements_inner c' = elements_inner c /\ elements_agree c'.

Lemma slot_answer s n r : store_sound s ->
  slot_of s n r = Ok (graph s !! r) \/ slot_of s n r = Ok None.
Proof.
  intros Hs. destruct (rd_ref _ _ (gs_reads s Hs) n r) as ([x|] & Hr & Hx); rewrite Hr; [left|by right].
  destruct (proj1 (Hx x) eq_refl) as ((Hg & _) & <- & _). by rewrite Hg.
Qed.

Lemma slot_answer_kept s s' n r :
  store_sound s -> store_sound s' -> graph s' !! r = graph s !! r -> slots_of s' r = slots_of s r ->
  slot_of s' n r = slot_of s n r.
Proof.
  intros Hs Hs' Hg Hsl. destruct (rd_ref _ _ (gs_reads s Hs) n r) as (o & -> & Ho).
  destruct (rd_ref _ _ (gs_reads s' Hs') n r) as (o' & -> & Ho'). f_equal.
  assert (Hiff : forall x, o' = Some x <-> o = Some x).
  { intros x. rewrite Ho, Ho'. split; intros ((Hx & Hn) & <- & Hk); (split; [split; congruence|done]). }
  destruct o as [x|]; [by apply Hiff|]. destruct o' as [x|]; [symmetry; by apply Hiff|done].
Qed.

Lemma listed_in_graph s n r l : store_sound s ->
  in_of s n r = Ok l \/ out_of s n r = Ok l -> forall x, x ∈ l -> graph s !! get_reference x = Some x.
Proof.
  intros Hs [Hl|Hl] x Hx.
  - destruct (rd_in _ _ (gs_reads s Hs) n r) as (l' & Hl' & Hin). rewrite Hl in Hl'. injection Hl' as <-.
    by apply Hin in Hx as ((? & _) & _).
  - destruct (rd_out _ _ (gs_reads s Hs) n r) as (l' & Hl' & Hin). rewrite Hl in Hl'. injection Hl' as <-.
    by apply Hin in Hx as ((? & _) & _).
Qed.

Lemma cached_get_element_agrees r c :
  elements_agree c ->
  let '(a, c') := cached_get_element r c in
  a = Ok (graph (elements_inner c) !! r) /\ only_reads c c'.
Proof.
  intros [Hs He Hsl Hi Ho Hel Hslot Hin Hout]. unfold cached_get_element. rewrite gs_get by done.
  pose proof (get_ok r _ He) as He'. pose proof (get_value r (element_cache c)) as Hg.
  pose proof (get_map r (element_cache c)) as Hm.
  destruct (lru_get r (element_cache c)) as [[e|] cache]; cbn in He', Hg, Hm.
  - rewrite (Hel r e) by done. split; [done|]. split; [done|]. split; cbn; try done. rewrite Hm. exact Hel.
  - destruct (graph (elements_inner c) !! r) as [e|] eqn:Hr; (split; [done|]); (split; [done|]);
      (split; cbn; try done; [by apply put_ok|..] || (split; cbn; try done; rewrite Hm; exact Hel)).
    intros r' e' Hl. eapply lookup_weaken in Hl; [|by apply put_subseteq]. rewrite Hm in Hl.
    apply lookup_insert_Some in Hl as [[<- <-]|[_ Hl]]; [done|by apply Hel].
Qed.

Lemma lookup_cached_agrees l c :
  elements_agree c -> (forall x, x ∈ l -> graph (elements_inner c) !! get_reference x = Some x) ->
  let '(a, c') := lookup_cached (get_reference <$> l) c in a = Ok l /\ only_reads c c'.
Proof.
  intros Hc Hl. unfold lookup_cached.
  assert (Hmap : let '(a, c') := sm_mapM cached_get_element (get_reference <$> l) c in
                 a = Ok (Some <$> l) /\ only_reads c c').
  { revert c Hc Hl. induction l as [|x l IH]; intros c Hc Hl; cbn [fmap list_fmap sm_mapM]; [by split|].
    pose proof (cached_get_element_agrees (get_reference x) c Hc) as Hget. unfold mbind, SM_bind.
    destruct (cached_get_element _ c) as [a c1]. destruct Hget as (-> & Hi & Hc1). rewrite (Hl x) by set_solver.
    specialize (IH c1 Hc1). unfold mbind, SM_bind in IH. destruct (sm_mapM _ _ c1) as [a c2].
    destruct IH as (-> & Hi2 & Hc2); [|split; [done|split; [congruence|done]]].
    intros y Hy. rewrite Hi. apply Hl. set_solver. }
  unfold mbind, SM_bind. destruct (sm_mapM _ _ c) as [a c']. destruct Hmap as [-> Hr]. split; [|done].
  cbn. f_equal. clear. induction l as [|x l IH]; cbn; [done|]. f_equal. apply IH.
Qed.

Lemma cached_inbound_agrees n r c :
  elements_agree c ->
  let '(a, c') := cached_inbound n r c in a = in_of (elements_inner c) n r /\ only_reads c c'.
Proof.
  intros Hc. unfold cached_inbound. pose proof (get_ok (r, n) _ (ea_in c Hc)) as Hok.
  pose proof (get_value (r, n) (inbound_cache c)) as Hg. pose proof (get_map (r, n) (inbound_cache c)) as Hm.
  destruct (lru_get (r, n) (inbound_cache c)) as [hit cache]; cbn in Hok, Hg, Hm.
  set (c1 := {| elements_inner := _ |}). assert (Hc1 : elements_agree c1).
  { destruct Hc. split; cbn; try done. by rewrite Hm. }
  destruct hit as [refs|].
  - destruct (ea_inbound c Hc r n refs) as (l & Hl & ->); [done|].
    pose proof (lookup_cached_agrees l c1 Hc1) as Hlook. destruct (lookup_cached _ c1).
    destruct Hlook as (-> & Hr); [|by rewrite Hl].
    apply (listed_in_graph _ n r); [apply (ea_sound c Hc)|by left].
  - change (elements_inner c1) with (elements_inner c).
    destruct (in_of (elements_inner c) n r) as [l|x|] eqn:Hl; (split; [done|]); (split; [done|]); [|done..].
    destruct Hc1. split; cbn; try done; [by apply put_ok|]. intros r' n' refs Hlk.
    eapply lookup_weaken in Hlk; [|by apply put_subseteq].
    apply lookup_insert_Some in Hlk as [[[= <- <-] <-]|[_ Hlk]]; [by exists l|by apply ea_inbound0].
Qed.

Lemma cached_outbound_agrees n r c :
  elements_agree c ->
  let '(a, c') := cached_outbound n r c in a = out_of (elements_inner c) n r /\ only_reads c c'.
Proof.
  intros Hc. unfold cached_outbound. pose proof (get_ok (r, n) _ (ea_out c Hc)) as Hok.
  pose proof (get_value (r, n) (outbound_cache c)) as Hg. pose proof (get_map (r, n) (outbound_cache c)) as Hm.
  destruct (lru_get (r, n) (outbound_cache c)) as [hit cache]; cbn in Hok, Hg, Hm.
  set (c1 := {| elements_inner := _ |}). assert (Hc1 : elements_agree c1).
  { destruct Hc. split; cbn; try done. by rewrite Hm. }
  destruct hit as [refs|].
  - destruct (ea_outbound c Hc r n refs) as (l & Hl & ->); [done|].
    pose proof (lookup_cached_agrees l c1 Hc1) as Hlook. destruct (lookup_cached _ c1).
    destruct Hlook as (-> & Hr); [|by rewrite Hl].
    apply (listed_in_graph _ n r); [apply (ea_sound c Hc)|by right].
  - change (elements_inner c1) with (elements_inner c).
    destruct (out_of (elements_inner c) n r) as [l|x|] eqn:Hl; (split; [done|]); (split; [done|]); [|done..].
    destruct Hc1. split; cbn; try done; [by apply put_ok|]. intros r' n' refs Hlk.
    eapply lookup_weaken in Hlk; [|by apply put_subseteq].
    apply lookup_insert_Some in Hlk as [[[= <- <-] <-]|[_ Hlk]]; [by exists l|by apply ea_outbound0].
Qed.
Lemma cache_slot_agrees n r b c :
  elements_agree c -> slot_of (elements_inner c) n r = Ok (if b : bool then graph (elements_inner c) !! r else None) ->
  elements_agree (with_slot_cache (cache_slot n r b (slot_cache c)) c).
Proof.
  intros [Hs He Hsl Hi Ho Hel Hslot Hin Hout] Hb. split; cbn [with_slot_cache elements_inner element_cache slot_cache inbound_cache outbound_cache]; try done.
  - unfold cache_slot. pose proof (update_ok r <[n := b]> _ Hsl) as Hu.
    destruct (lru_update r _ (slot_cache c)) as [[] cache] eqn:Hup; [done|]. by apply put_ok.
  - intros r' m n' b' Hl Hm'. unfold cache_slot in Hl.
    pose proof (update_map r <[n := b]> (slot_cache c)) as Hu. unfold lru_update in Hl, Hu.
    destruct (lru_map (slot_cache c) !! r) as [m0|] eqn:Hr; cbn [snd] in *.
    + rewrite Hu in Hl. apply lookup_alter_Some in Hl as [(<- & m1 & Hl & ->)|[_ Hl]]; [|by eapply Hslot].
      rewrite Hr in Hl. injection Hl as <-. apply lookup_insert_Some in Hm' as [[<- <-]|[_ Hm']]; [done|by eapply Hslot].
    + eapply lookup_weaken in Hl; [|by apply put_subseteq].
      apply lookup_insert_Some in Hl as [[<- <-]|[_ Hl]]; [|by eapply Hslot].
      apply lookup_singleton_Some in Hm' as [<- <-]. done.
Qed.

Lemma cached_slot_agrees n r c :
  elements_agree c ->
  let '(a, c') := cached_slot_element_by_ref n r c in a = slot_of (elements_inner c) n r /\ only_reads c c'.
Proof.
  intros Hc. unfold cached_slot_element_by_ref. pose proof (get_ok r _ (ea_slots c Hc)) as Hok.
  pose proof (get_value r (slot_cache c)) as Hg. pose proof (get_map r (slot_cache c)) as Hm.
  destruct (lru_get r (slot_cache c)) as [slots cache]; cbn in Hok, Hg, Hm.
  set (c1 := with_slot_cache cache c). assert (Hc1 : elements_agree c1).
  { destruct Hc. split; cbn; try done. by rewrite Hm. }
  change (elements_inner c1) with (elements_inner c). destruct (slots ≫= lookup n) as [b|] eqn:Hb.
  - destruct slots as [m|]; [|done]. cbn in Hb. rewrite (ea_slot c Hc r m n b) by done.
    destruct b; [|by split]. apply (cached_get_element_agrees r c1 Hc1).
  - destruct (slot_answer (elements_inner c) n r (ea_sound c Hc)) as [Ha|Ha]; rewrite Ha; (split; [done|]); (split; [done|]).
    + apply cache_slot_agrees; [done|]. change (elements_inner c1) with (elements_inner c). rewrite Ha.
      by destruct (graph (elements_inner c) !! r).
    + apply cache_slot_agrees; [done|]. change (elements_inner c1) with (elements_inner c). by rewrite Ha.
Qed.

(** A write of [r] leaves the caches in agreement with the index it leaves. *)
Lemma after_write_agrees r written s' c :
  elements_agree c -> store_sound s' ->
  graph s' = partial_alter (fun _ => written) r (graph (elements_inner c)) ->
  (forall r', r' <> r -> slots_of s' r' = slots_of (elements_inner c) r') ->
  elements_agree (after_write r written s' c).
Proof.
  intros [Hs He Hsl Hi Ho Hel Hslot Hin Hout] Hs' Hg Hr.
  assert (Hne : forall r', r' <> r -> graph s' !! r' = graph (elements_inner c) !! r').
  { intros r' Hn. rewrite Hg. by rewrite lookup_partial_alter_ne. }
  split; cbn; try (auto with drasi; fail).
  - destruct written; auto with drasi.
  - intros r' e Hl. destruct (decide (r' = r)) as [->|Hn].
    + rewrite Hg, lookup_partial_alter_eq. destruct written as [w|].
      * by rewrite put_lookup in Hl.
      * by rewrite remove_map, lookup_delete_eq in Hl.
    + rewrite Hne by done. apply Hel. destruct written as [w|].
      * eapply lookup_weaken in Hl; [|by apply put_subseteq]. by rewrite lookup_insert_ne in Hl.
      * by rewrite remove_map, lookup_delete_ne in Hl.
  - intros r' m n b Hl Hm. rewrite remove_map in Hl. apply lookup_delete_Some in Hl as [Hn Hl].
    rewrite (slot_answer_kept (elements_inner c)), Hne; auto. by eapply Hslot.
  - intros r' n refs Hl. by rewrite lookup_empty in Hl.
  - intros r' n refs Hl. by rewrite lookup_empty in Hl.
Qed.

Lemma cached_call_agrees call c :
  elements_agree c ->
  let '(a, c') := cached_element_call call c in
  bare_element_call call (elements_inner c) = (a, elements_inner c') /\ elements_agree c'.
Proof.
  intros Hc. pose proof (ea_sound c Hc) as Hs. destruct call as [r|e slots|r|n r|n r|n r]; cbn [cached_element_call bare_element_call].
  - rewrite gs_get by done. pose proof (cached_get_element_agrees r c Hc) as Ha.
    destruct (cached_get_element r c). by destruct Ha as (-> & -> & ?).
  - unfold cached_set_element. destruct (gs_set _ e slots Hs) as (s' & -> & Hs' & Hg & Hsl). split; [done|].
    apply after_write_agrees; [done|done|by rewrite Hg|]. intros r' Hr. by rewrite Hsl, decide_False.
  - unfold cached_delete_element. destruct (gs_delete _ r Hs) as (s' & -> & Hs' & Hg & Hsl). split; [done|].
    by apply after_write_agrees.
  - pose proof (cached_slot_agrees n r c Hc) as Ha. destruct (cached_slot_element_by_ref n r c). by destruct Ha as (-> & -> & ?).
  - pose proof (cached_inbound_agrees n r c Hc) as Ha. destruct (cached_inbound n r c). by destruct Ha as (-> & -> & ?).
  - pose proof (cached_outbound_agrees n r c Hc) as Ha. destruct (cached_outbound n r c). by destruct Ha as (-> & -> & ?).
Qed.

Lemma cached_calls_agree cs c :
  elements_agree c ->
  let '(l, c') := call_each cached_element_call cs c in
  call_each bare_element_call cs (elements_inner c) = (l, elements_inner c').
Proof.
  revert c. induction cs as [|call cs IH]; intros c Hc; cbn [call_each]; [done|].
  pose proof (cached_call_agrees call c Hc) as Ha. destruct (cached_element_call call c) as [a c1].
  destruct Ha as [-> Hc1]. specialize (IH c1 Hc1). destruct (call_each _ cs c1). by rewrite IH.
Qed.


(** *** Rolled back sessions *)

Context `{!SessionControl S} {TS : TransactionalSession S}.
Context (view_graph : forall s s', view s = view s' -> store_sound s -> store_sound s' /\ graph s' = graph s).

(** An element that a failed change had inserted is gone from the store
    after the rollback, and is still answered from the cache. *)
Theorem rolled_back_insert_stays_cached {E A} (from : IndexError -> E) (x : E) (c : Cached) s1 s2 e slots :
  store_sound (elements_inner c) -> graph (elements_inner c) !! get_reference e = None ->
  session_begin (elements_inner c) = (Ok tt, s1) -> ei_set_element e slots s1 = (Ok tt, s2) -> saved s2 = saved s1 ->
  let change : SM Cached E A := _ ← sm_map_err from (cached_set_element e slots); sm_err x in
  let '(r, c') := with_guard from change c in
  r = Err x /\ (cached_get_element (get_reference e) c').1 = Ok (Some e) /\
  (ei_get_element (get_reference e) (elements_inner c')).1 = Ok None.
Proof.
  intros Hs Hne Hb Hset Hsv change.
  pose proof (begin_saves (elements_inner c)) as Hbs. rewrite Hb in Hbs. destruct Hbs as [Hv Hv1].
  rewrite <- Hsv in Hv. pose proof (rollback_restores s2 _ Hv) as Hr.
  set (s3 := (session_rollback s2).2) in *. destruct (view_graph (elements_inner c) s3) as [Hs3 Hg3]; [congruence|done|].
  assert (Hrun : with_guard from change c =
    (Err x, with_elements_inner s3 (after_write (get_reference e) (Some e) s2 c))).
  { unfold with_guard, change, drop_guard, mbind, SM_bind, sm_map_err. cbn. rewrite Hb. cbn.
    unfold cached_set_element. cbn. rewrite Hset. cbn. unfold s3. by destruct (session_rollback s2) as [[] ?]. }
  rewrite Hrun. split; [done|]. split.
  - unfold cached_get_element. pose proof (get_value (get_reference e) (lru_put (get_reference e) e (element_cache c))) as Hg.
    rewrite put_lookup in Hg. cbn. destruct (lru_get _ _) as [o cache]. cbn in Hg. by rewrite Hg.
  - cbn. rewrite gs_get by done. by rewrite Hg3, Hne.
Qed.
End elements.
