(* ===== verification/ContinuousQuery.v ===== *)
(** * Continuous queries (core/src/query/continuous_query.rs,
      core/src/middleware/mod.rs)

    A source change goes through the middleware of its source, changes the
    element index, and becomes the solutions of the MATCH pattern before and
    after it; every solution that differs is projected through the parts of
    the query, and the changes of one group are collapsed. The whole runs in
    one session. *)

From S2P Require Import Prelude BTree Floats Hashing Ast Models Errors Values MatchPath Solver ResultIndex Contexts.
From S2P Require Import Parts FutureQueue Session.

(** The order in which a hash map is iterated. *)
Class HashMapOrder := {
  map_entries : forall {A}, gmap Z A -> list (Z * A);
  map_entries_perm : forall {A} (m : gmap Z A), map_entries m ≡ₚ map_to_list m;
}.

(** ** Collapsing the changes of a group *)

(** hash of the grouping values after -> (context, hash of those before) *)
Notation CollapsedAggregationResults := (gmap Z (QueryPartEvaluationContext * Z)).

Section collapse.
Context {C : Chrono} {H : Hashers} {HO : HashMapOrder}.

Definition extract_grouping_value_hash (grouping_keys : list string) (vars : QueryVariables) : Z :=
  spooky (concat (map (fun key => match bt_get key vars with
                                  | Some v => hash_for_groupby v
                                  | None => hash_i32 0
                                  end) grouping_keys)).

Definition collapsed_insert (context : QueryPartEvaluationContext) (data : CollapsedAggregationResults) :
    CollapsedAggregationResults :=
  match context with
  | Aggregation before after grouping_keys default_before default_after _ =>
      let after_key := extract_grouping_value_hash grouping_keys after in
      let before_key := match before with
                        | Some before => extract_grouping_value_hash grouping_keys before
                        | None => after_key
                        end in
      match data !! after_key with
      | Some (existing, existing_before_key) =>
          match existing with
          | Aggregation existing_before _ _ existing_default_before _ _ =>
              <[after_key := (Aggregation existing_before after grouping_keys existing_default_before
                                default_after after_key, existing_before_key)]> data
          | _ => delete after_key data
          end
      | None =>
          <[after_key := (Aggregation before after grouping_keys default_before default_after after_key,
                          before_key)]> data
      end
  | _ => data
  end.

Definition set_grouping_hashes (before_key after_key : Z) (cc : ChangeContext) : ChangeContext :=
  {| solution_signature := Contexts.solution_signature cc; before_anchor_element := before_anchor_element cc;
     after_anchor_element := after_anchor_element cc; before_clock := before_clock cc;
     after_clock := after_clock cc; is_future_reprocess := is_future_reprocess cc;
     before_grouping_hash := before_key; after_grouping_hash := after_key |}.

Definition into_vec_with_context (data : CollapsedAggregationResults) (cc : ChangeContext) :
    list (QueryPartEvaluationContext * ChangeContext) :=
  map (fun e => (e.2.1, set_grouping_hashes e.2.2 e.1 cc)) (map_entries data).

Definition with_signature (signature : Z) (ctx : QueryPartEvaluationContext) : QueryPartEvaluationContext :=
  match ctx with
  | Aggregation before after keys default_before default_after _ =>
      Aggregation before after keys default_before default_after signature
  | other => other
  end.

Definition into_result_vec (data : CollapsedAggregationResults) : list QueryPartEvaluationContext :=
  map (fun e => with_signature e.1 e.2.1) (map_entries data).
End collapse.

(** ** Middleware *)

Section middleware.
Context {C : Chrono} {S : Type}.

Definition SourceMiddleware : Type := SourceChange -> SM S MiddlewareError (list SourceChange).
Definition SourceMiddlewarePipeline : Type := list SourceMiddleware.

Definition run_middleware (middleware : SourceMiddleware) (source_changes : list SourceChange) :
    SM S MiddlewareError (list SourceChange) :=
  sm_foldl (fun acc change => out ← middleware change; mret (acc ++ out)) [] source_changes.

Definition process_pipeline (pipeline : SourceMiddlewarePipeline) (source_change : SourceChange) :
    SM S MiddlewareError (list SourceChange) :=
  sm_foldl (fun source_changes middleware => run_middleware middleware source_changes) [source_change] pipeline.
End middleware.

(** ** The query *)

Section query.
Context {C : Chrono} {H : Hashers} {HO : HashMapOrder}.
Context {S : Type} `{!AccumulatorIndex S} `{!ElementIndexOps S} `{!FutureQueueOps S} `{!SessionControl S}.
Context {EE : ExpressionEvaluator S}.

Notation M := (SM S EvaluationError).

(** The solver's command loop takes fuel. *)
Record ContinuousQuery := {
  match_path : MatchPath;
  query : Query;
  source_pipelines : gmap string (SourceMiddlewarePipeline (S:=S));
  solver_fuel : nat;
}.

Definition index_error {A} (m : SM S IndexError A) : M A := sm_map_err EvalIndexError m.

Section with_query.
Context (cq : ContinuousQuery).

(** *** Affinity *)

Definition label_match (labels element_labels : list string) : bool :=
  match labels with [] => true | _ => existsb (fun label => contains label element_labels) labels end.

Definition match_element_to_slot (vars : QueryVariables) (clock : InstantQueryClock)
    (element_spec : SlotElementSpec) (element : Element) : M bool :=
  let metadata := get_metadata element in
  if negb (label_match (spec_labels element_spec) (labels metadata)) then mret false
  else
    let vars := match annotation element_spec with
                | Some name => bt_insert name (VElement element) vars
                | None => vars
                end in
    let eval_context := from_slot (bt_insert ""%string (VElement element) vars) clock (reference metadata) in
    where_pass eval_context (predicates element_spec).

Definition get_slots_with_affinity (vars : QueryVariables) (anchor_element : Element)
    (clock : InstantQueryClock) : M (list nat) :=
  sm_foldl (fun affinity_slots e =>
      matches ← match_element_to_slot vars clock (spec e.2) anchor_element;
      mret (if matches : bool then affinity_slots ++ [e.1] else affinity_slots))
    [] (enumerate (slots (match_path cq))).

(** *** Solutions before and after the change *)

Definition resolve_solutions (anchor_element : Element) (affinity_slots : list nat) (update_index : bool) :
    M (gmap Z MatchPathSolution) :=
  _ ← (if update_index then index_error (ei_set_element anchor_element affinity_slots) else mret tt);
  sm_foldl (fun result slot_num => s ← sm_get;
      solution ← sm_lift (solve (solver_fuel cq) (ei_slots s) (match_path cq) anchor_element slot_num);
      mret (solution ∪ result))
    ∅ affinity_slots.

Definition solutions_of (vars : QueryVariables) (element : Element) (clock : InstantQueryClock)
    (update_index : bool) : M (gmap Z MatchPathSolution) :=
  affinity_slots ← get_slots_with_affinity vars element clock;
  resolve_solutions element affinity_slots update_index.

(** The blank rows that optional matches leave where a solution appears or
    disappears. *)
Definition blank_solutions (solutions : gmap Z MatchPathSolution) : M (gmap Z MatchPathSolution) :=
  sm_foldl (fun acc e =>
      blank ← sm_lift (get_empty_optional_solution (match_path cq) e.2);
      mret (match (blank : option MatchPathSolution) with Some b => <[e.1 := b]> acc | None => acc end))
    ∅ (map_entries solutions).

Record SolutionChangesResult := {
  changes : list (Z * QueryPartEvaluationContext);
  sc_anchor_element : option Element;
  sc_before_clock : option InstantQueryClock;
  sc_before_anchor_element : option Element;
  sc_is_future_reprocess : bool;
}.

Definition pair_solutions (base : QueryVariables) (before after : gmap Z MatchPathSolution) :
    list (Z * QueryPartEvaluationContext) :=
  let row sol := into_query_variables (match_path cq) sol base in
  map (fun e => (e.1, match after !! e.1 with
                      | Some after_sol => Updating (row e.2) (row after_sol) 0
                      | None => Removing (row e.2) 0
                      end)) (map_entries before) ++
  omap (fun e => match before !! e.1 with
                 | Some _ => None
                 | None => Some (e.1, Adding (row e.2) 0)
                 end) (map_entries after).

Definition insert_changes (base : QueryVariables) (element : Element) (clock : InstantQueryClock) :
    M SolutionChangesResult :=
  after ← solutions_of base element clock true;
  before ← blank_solutions after;
  mret {| changes := pair_solutions base before after; sc_anchor_element := Some element;
          sc_before_clock := None; sc_before_anchor_element := None; sc_is_future_reprocess := false |}.

Definition update_changes (base : QueryVariables) (element : Element) (clock : InstantQueryClock) :
    M SolutionChangesResult :=
  prev ← index_error (ei_get_element (get_reference element));
  match (prev : option Element) with
  | Some prev_version =>
      let before_clock := {| transaction_time := get_effective_from prev_version; realtime := realtime clock |} in
      before ← solutions_of base prev_version before_clock false;
      element ← sm_lift (merge_missing_properties element prev_version);
      after ← solutions_of base element clock true;
      mret {| changes := pair_solutions base before after; sc_anchor_element := Some element;
              sc_before_clock := Some before_clock; sc_before_anchor_element := Some prev_version;
              sc_is_future_reprocess := false |}
  | None =>
      after ← solutions_of base element clock true;
      mret {| changes := pair_solutions base ∅ after; sc_anchor_element := Some element;
              sc_before_clock := None; sc_before_anchor_element := None; sc_is_future_reprocess := false |}
  end.

Definition delete_changes (base : QueryVariables) (metadata : ElementMetadata) (clock : InstantQueryClock) :
    M SolutionChangesResult :=
  found ← index_error (ei_get_element (reference metadata));
  match (found : option Element) with
  | Some element =>
      let before_clock := {| transaction_time := get_effective_from element; realtime := realtime clock |} in
      before ← solutions_of base element before_clock false;
      after ← blank_solutions before;
      _ ← index_error (ei_delete_element (reference metadata));
      mret {| changes := pair_solutions base before after; sc_anchor_element := None;
              sc_before_clock := Some before_clock; sc_before_anchor_element := Some element;
              sc_is_future_reprocess := false |}
  | None =>
      mret {| changes := []; sc_anchor_element := None; sc_before_clock := None;
              sc_before_anchor_element := None; sc_is_future_reprocess := false |}
  end.

Definition future_changes (base : QueryVariables) (future_ref : FutureElementRef) (clock : InstantQueryClock) :
    M SolutionChangesResult :=
  let nothing := {| changes := []; sc_anchor_element := None; sc_before_clock := None;
                    sc_before_anchor_element := None; sc_is_future_reprocess := true |} in
  found ← index_error (ei_get_element (element_ref future_ref));
  match (found : option Element) with
  | Some element =>
      let prev_timestamp := get_effective_from element in
      if due_time future_ref <=? prev_timestamp then mret nothing
      else
        let before_clock := {| transaction_time := prev_timestamp; realtime := prev_timestamp |} in
        before ← solutions_of base element before_clock false;
        after ← solutions_of base element clock false;
        mret {| changes := pair_solutions base before after; sc_anchor_element := Some element;
                sc_before_clock := Some before_clock; sc_before_anchor_element := Some element;
                sc_is_future_reprocess := true |}
  | None => mret nothing
  end.

Definition build_solution_changes (base : QueryVariables) (change : SourceChange) (clock : InstantQueryClock) :
    M SolutionChangesResult :=
  match change with
  | Insert element => insert_changes base element clock
  | Update element => update_changes base element clock
  | Delete metadata => delete_changes base metadata clock
  | Future future_ref => future_changes base future_ref clock
  end.

(** *** Projection through the parts *)

Definition Contexts := list (QueryPartEvaluationContext * ChangeContext).

Definition collapse_part (new_contexts : list QueryPartEvaluationContext) (cc : ChangeContext) : Contexts :=
  omap (fun ctx => match ctx with
                   | Aggregation _ _ _ _ _ _ | Noop => None
                   | _ => Some (ctx, cc)
                   end) new_contexts ++
  into_vec_with_context (fold_left (fun data ctx => collapsed_insert ctx data) new_contexts ∅) cc.

Definition project_part (part_num : nat) (part : QueryPart) (contexts : Contexts) : M Contexts :=
  sm_foldl (fun result c =>
      new_contexts ← evaluate part_num part c.2 c.1;
      mret (result ++ collapse_part new_contexts c.2))
    [] contexts.

Definition set_row_signature (e : QueryPartEvaluationContext * ChangeContext) : QueryPartEvaluationContext :=
  let cc := e.2 in
  match e.1 with
  | Adding after _ => Adding after (after_grouping_hash cc)
  | Updating before after _ => Updating before after (after_grouping_hash cc)
  | Removing before _ => Removing before (before_grouping_hash cc)
  | Aggregation before after keys default_before default_after _ =>
      Aggregation before after keys default_before default_after (after_grouping_hash cc)
  | Noop => Noop
  end.

(** The loop over the parts, numbered from 1. *)
Definition project_parts (ps : list (nat * QueryPart)) (contexts : Contexts) : M Contexts :=
  sm_foldl (fun contexts p => project_part (p.1 + 1) p.2 contexts) contexts ps.

Definition project_solution (part_context : QueryPartEvaluationContext) (cc : ChangeContext) :
    M (list QueryPartEvaluationContext) :=
  match parts (query cq) with
  | [] => mret []
  | ps => result ← project_parts (enumerate ps) [(part_context, cc)]; mret (map set_row_signature result)
  end.

(** *** The results of one change *)

(** One projected context: kept for the group collapse, dropped when it says
    nothing new, or emitted. *)
Definition sort_result (acc : CollapsedAggregationResults * list QueryPartEvaluationContext)
    (ctx : QueryPartEvaluationContext) :
    outcome EvaluationError (CollapsedAggregationResults * list QueryPartEvaluationContext) :=
  match ctx with
  | Aggregation before after _ default_before _ _ =>
      unchanged ← match before with
                  | Some before => query_variables_unchanged before after
                  | None => Ok false
                  end;
      Ok (if (unchanged : bool) && negb default_before then acc else (collapsed_insert ctx acc.1, acc.2))
  | Updating before after _ =>
      unchanged ← query_variables_unchanged before after;
      Ok (if (unchanged : bool) then acc else (acc.1, acc.2 ++ [ctx]))
  | _ => Ok (acc.1, acc.2 ++ [ctx])
  end.

(** A division by zero skips the solution; what it wrote stays. *)
Definition skip_divide_by_zero (m : M (list QueryPartEvaluationContext)) : M (list QueryPartEvaluationContext) :=
  fun s => match m s with (Err DivideByZero, s) => (Ok [], s) | r => r end.

Definition change_context (sc : SolutionChangesResult) (before_clock after_clock : InstantQueryClock)
    (signature : Z) : ChangeContext :=
  {| solution_signature := signature; before_anchor_element := sc_before_anchor_element sc;
     after_anchor_element := sc_anchor_element sc; before_clock := before_clock; after_clock := after_clock;
     is_future_reprocess := sc_is_future_reprocess sc;
     before_grouping_hash := signature; after_grouping_hash := signature |}.

Definition process_solution (cc : Z -> ChangeContext)
    (acc : CollapsedAggregationResults * list QueryPartEvaluationContext)
    (change : Z * QueryPartEvaluationContext) :
    M (CollapsedAggregationResults * list QueryPartEvaluationContext) :=
  results ← skip_divide_by_zero (project_solution change.2 (cc change.1));
  sm_lift (out_foldl sort_result acc results).

Definition process_solution_changes (sc : SolutionChangesResult) (after_clock : InstantQueryClock)
    (result : list QueryPartEvaluationContext) : M (list QueryPartEvaluationContext) :=
  let before_clock := default after_clock (sc_before_clock sc) in
  r ← sm_foldl (process_solution (change_context sc before_clock after_clock)) (∅, result) (changes sc);
  mret (r.2 ++ into_result_vec r.1).

Definition process_change (result : list QueryPartEvaluationContext) (change : SourceChange) :
    M (list QueryPartEvaluationContext) :=
  let after_clock := from_source_change change in
  sc ← build_solution_changes [] change after_clock;
  process_solution_changes sc after_clock result.

Definition process_changes_inner (cs : list SourceChange) : M (list QueryPartEvaluationContext) :=
  sm_foldl process_change [] cs.

(** *** The entry points *)

Definition execute_source_middleware (change : SourceChange) : M (list SourceChange) :=
  match source_pipelines cq !! source_id (change_get_reference change) with
  | Some pipeline => sm_map_err EvalMiddlewareError (process_pipeline pipeline change)
  | None => mret [change]
  end.

Definition process_source_change_with_hook (change : SourceChange)
    (pre_commit_hook : list QueryPartEvaluationContext -> SM S IndexError unit) : M (list QueryPartEvaluationContext) :=
  with_guard EvalIndexError
    (cs ← execute_source_middleware change;
     result ← process_changes_inner cs;
     _ ← index_error (pre_commit_hook result);
     mret result).

Definition process_source_change (change : SourceChange) : M (list QueryPartEvaluationContext) :=
  with_guard EvalIndexError
    (cs ← execute_source_middleware change; process_changes_inner cs).

Record DueFutureResult := { due_results : list QueryPartEvaluationContext; due_source_id : string }.

Definition process_due_futures_with_hook
    (pre_commit_hook : list QueryPartEvaluationContext -> string -> SM S IndexError unit) : M (option DueFutureResult) :=
  with_guard EvalIndexError
    (popped ← index_error fut_pop;
     match (popped : option FutureElementRef) with
     | None => mret None
     | Some future_ref =>
         let source := source_id (element_ref future_ref) in
         cs ← execute_source_middleware (Future future_ref);
         results ← process_changes_inner cs;
         _ ← index_error (pre_commit_hook results source);
         mret (Some {| due_results := results; due_source_id := source |})
     end).

Definition process_due_futures : M (option DueFutureResult) :=
  process_due_futures_with_hook (fun _ _ => mret tt).

(** One turn of the consumer task of [set_future_consumer]: what it does
    before it looks again. *)
Inductive ConsumerTurn := SleepIdle | SleepAfterError | Delegate.

Definition consumer_turn (now : ElementTimestamp) : S -> ConsumerTurn * S := fun s =>
  match fut_peek_due_time s with
  | (Ok (Some due_time), s) => (if now <? due_time then SleepIdle else Delegate, s)
  | (Ok None, s) => (SleepIdle, s)
  | (_, s) => (SleepAfterError, s)
  end.
End with_query.
End query.
