(* ===== verification/RowQueryFacts.v ===== *)
(** * Continuous queries without aggregation maintain their result

    For a query whose parts filter and project, the changes emitted for one
    source change turn the view of the solutions before it into the view of
    the solutions after it. *)

From S2P Require Import Prelude BTree Floats Hashing Ast Models Errors Values MatchPath Solver ResultIndex Contexts.
From S2P Require Import Parts PartsFacts FutureQueue Session ContinuousQuery.

(** ** Sequences of changes *)

Section emits.
Context {C : Chrono}.

(** The changes, applied in order, turn one bag of rows into another. *)
Inductive emits : list QueryPartEvaluationContext -> list QueryVariables -> list QueryVariables -> Prop :=
| emits_nil R R' : R ≡ₚ R' -> emits [] R R'
| emits_cons c out R R1 R' : transforms c R R1 -> emits out R1 R' -> emits (c :: out) R R'.

Lemma emits_proper_l out R1 R2 R' : R1 ≡ₚ R2 -> emits out R1 R' -> emits out R2 R'.
Proof.
  intros HR He. destruct He as [R R' Hp|c out R R1 R' Hc He].
  - constructor. by rewrite <- HR.
  - econstructor; [|done]. by rewrite <- HR.
Qed.

Lemma emits_app o1 o2 R R1 R2 : emits o1 R R1 -> emits o2 R1 R2 -> emits (o1 ++ o2) R R2.
Proof.
  induction 1 as [R R' Hp|c out R R1 R' Hc He IH]; intros H2.
  - cbn. eapply emits_proper_l; [symmetry; exact Hp|done].
  - cbn. econstructor; [done|]. by apply IH.
Qed.

Lemma transforms_frame c R R' X : transforms c R R' -> transforms c (R ++ X) (R' ++ X).
Proof.
  intros (Hc & rest & HR & HR'). split; [done|]. exists (rest ++ X).
  by rewrite HR, HR', !app_assoc.
Qed.

Lemma emits_frame out R R' X : emits out R R' -> emits out (R ++ X) (R' ++ X).
Proof.
  induction 1 as [R R' Hp|c out R R1 R' Hc He IH].
  - constructor. by rewrite Hp.
  - econstructor; [by apply transforms_frame|done].
Qed.

Lemma emits_proper_r out R R1 R2 : R1 ≡ₚ R2 -> emits out R R1 -> emits out R R2.
Proof.
  intros HR He. rewrite <- (app_nil_r out). eapply emits_app; [done|]. by constructor.
Qed.

(** The first change starts from a bag that holds its row. *)
Lemma emits_cons_inv c out R R' :
  emits (c :: out) R R' ->
  exists rest, R ≡ₚ option_list (before_row c) ++ rest /\ emits out (option_list (after_row c) ++ rest) R'.
Proof.
  inversion 1 as [|? ? ? R1 ? (_ & rest & HR & HR1) He]; subst. exists rest. split; [done|].
  by eapply emits_proper_l.
Qed.

(** A change that says something: no update of a row to itself. *)
Definition informative (c : QueryPartEvaluationContext) : Prop :=
  match c with
  | Adding _ _ | Removing _ _ => True
  | Updating b a _ => b <> a
  | Aggregation _ _ _ _ _ _ | Noop => False
  end.

(** One informative change, or none. *)
Definition delta (b a : option QueryVariables) (out : list QueryPartEvaluationContext) : Prop :=
  emits out (option_list b) (option_list a) /\ Forall informative out.
End emits.

(** ** The query as a view *)

Section view.
Context {C : Chrono} {H : Hashers} {HO : HashMapOrder}.
Context {S : Type} `{!AccumulatorIndex S} `{!ElementIndexOps S} `{!FutureQueueOps S} `{!SessionControl S}.
Context {EE : ExpressionEvaluator S}.
Context (holds : QueryVariables -> Expression -> bool) (field : QueryVariables -> Expression -> string * VariableValue).
Implicit Types dom : QueryVariables -> Prop.
Notation part_view := (part_view holds field).

(** The engine compares rows of the domain without panicking, and as equal
    only when they are the same. *)
Definition comparable dom : Prop := forall r r', dom r -> dom r' ->
  exists u, query_variables_unchanged (E:=EvaluationError) r r' = Ok u /\ (u = true <-> r = r').

(** Every part reads the rows of its domain and produces rows of the next. *)
Fixpoint row_parts dom (ps : list QueryPart) : Prop :=
  comparable dom /\
  match ps with
  | [] => True
  | part :: ps =>
      (exists es, reads_row dom holds field part es) /\
      exists dom', (forall r r', dom r -> part_view part r = Some r' -> dom' r') /\ row_parts dom' ps
  end.

Fixpoint query_view (ps : list QueryPart) (row : QueryVariables) : option QueryVariables :=
  match ps with
  | [] => Some row
  | part :: ps => part_view part row ≫= query_view ps
  end.

Definition in_dom dom (o : option QueryVariables) : Prop := forall r, o = Some r -> dom r.

(** The contexts that remain of one change: none for [Noop]. *)
Definition live (cc : ChangeContext) (c : QueryPartEvaluationContext) : list (QueryPartEvaluationContext * ChangeContext) :=
  match c with Noop => [] | _ => [(c, cc)] end.

Lemma fold_collapsed_row c : is_row_change c -> collapsed_insert c ∅ = ∅.
Proof. by destruct c. Qed.

Lemma collapse_part_row c cc : is_row_change c -> collapse_part [c] cc = live cc c.
Proof.
  intros Hc. unfold collapse_part, into_vec_with_context. cbn [fold_left].
  rewrite fold_collapsed_row by done.
  pose proof (map_entries_perm (∅ : gmap Z (QueryPartEvaluationContext * Z))) as Hp.
  rewrite map_to_list_empty in Hp. apply Permutation_nil_r in Hp. rewrite Hp. by destruct c.
Qed.

Lemma change_of_row b a : is_row_change (change_of b a).
Proof. by destruct b, a. Qed.

Lemma change_of_before b a : before_row (change_of b a) = b.
Proof. by destruct b, a. Qed.
Lemma change_of_after b a : after_row (change_of b a) = a.
Proof. by destruct b, a. Qed.

Lemma in_dom_view dom dom' part o :
  (forall r r', dom r -> part_view part r = Some r' -> dom' r') -> in_dom dom o -> in_dom dom' (o ≫= part_view part).
Proof. intros Hcl Ho r Hr. destruct o as [row|]; [|done]. eapply Hcl; [by apply Ho|done]. Qed.

Lemma skipped_comparable dom cc b a :
  comparable dom -> in_dom dom b -> in_dom dom a ->
  exists u, skipped cc (change_of b a) = Ok u /\ (u = true -> b = a).
Proof.
  intros Hcmp Hb Ha. destruct b as [b|], a as [a|]; try (by exists false).
  cbn. destruct (Hcmp b a) as (u & -> & Hu); [by apply Hb|by apply Ha|]. rewrite out_bind_ok.
  exists (u && negb (is_future_reprocess cc)). split; [done|]. intros [Hut _]%andb_prop. f_equal. by apply Hu.
Qed.

Lemma project_parts_nil (ps : list (nat * QueryPart)) (s : S) : project_parts ps [] s = (Ok [], s).
Proof. induction ps as [|p ps IH]; [done|]. unfold project_parts. cbn. exact IH. Qed.

Lemma project_parts_cons p ps contexts s :
  project_parts (p :: ps) contexts s =
  (contexts ← project_part (p.1 + 1) p.2 contexts; project_parts ps contexts) s.
Proof. reflexivity. Qed.

Lemma project_part_one n part c cc s c' s' :
  is_row_change c' -> evaluate n part cc c s = (Ok [c'], s') -> c <> Noop ->
  project_part n part (live cc c) s = (Ok (live cc c'), s').
Proof.
  intros Hc' Hev Hc. unfold project_part, live at 1.
  destruct c; try done; cbn [sm_foldl fst snd];
    (erewrite sm_bind_ok by (erewrite sm_bind_ok by exact Hev; reflexivity));
    by rewrite collapse_part_row.
Qed.

(** One part, on the change of a row. *)
Lemma project_part_row dom part es n cc b a s :
  comparable dom -> reads_row dom holds field part es -> in_dom dom b -> in_dom dom a ->
  exists b' a', project_part n part (live cc (change_of b a)) s = (Ok (live cc (change_of b' a')), s) /\
  ((b' = b ≫= part_view part /\ a' = a ≫= part_view part) \/ (b' = None /\ a' = None /\ b = a)).
Proof.
  intros Hcmp Hes Hb Ha.
  destruct (skipped_comparable dom cc b a Hcmp Hb Ha) as (u & Hsk & Hu).
  pose proof (evaluate_row_part dom holds field n part es cc (change_of b a) s Hes (change_of_row b a)) as Hev.
  rewrite change_of_before, change_of_after, Hsk in Hev. cbn [mbind outcome_bind] in Hev.
  unfold rows_in in Hev. rewrite change_of_before, change_of_after in Hev. specialize (Hev (conj Hb Ha)).
  destruct (decide (b = None /\ a = None)) as [[-> ->]|Hsome].
  { exists None, None. split; [done|by left]. }
  assert (Hn : change_of b a <> Noop) by (destruct b, a; naive_solver).
  destruct u.
  - exists None, None. split; [|right; auto]. by apply project_part_one.
  - exists (b ≫= part_view part), (a ≫= part_view part). split; [|by left].
    apply project_part_one; [apply change_of_row|exact Hev|done].
Qed.

Lemma row_parts_comparable dom ps : row_parts dom ps -> comparable dom.
Proof. by destruct ps as [|p ps]; intros [? _]. Qed.

(** A change of a row goes through the parts as the change of the view, or as
    nothing when the view does not change. *)
Lemma project_parts_row dom (ps : list QueryPart) k cc b a s :
  row_parts dom ps -> in_dom dom b -> in_dom dom a ->
  exists b' a' dom', project_parts (zip (seq k (length ps)) ps) (live cc (change_of b a)) s = (Ok (live cc (change_of b' a')), s) /\
  comparable dom' /\ in_dom dom' b' /\ in_dom dom' a' /\
  ((b' = b ≫= query_view ps /\ a' = a ≫= query_view ps) \/ (b' = None /\ a' = None /\ b ≫= query_view ps = a ≫= query_view ps)).
Proof.
  revert dom k b a. induction ps as [|part ps IH]; intros dom k b a Hps Hb Ha.
  { exists b, a, dom. split_and!; try done; [apply Hps|]. left. by destruct b, a. }
  destruct Hps as (Hcmp & (es & Hes) & dom1 & Hcl & Hps).
  destruct (project_part_row dom part es (k + 1) cc b a s Hcmp Hes Hb Ha) as (b1 & a1 & Hrun & Hor).
  assert (Hdom : in_dom dom1 b1 /\ in_dom dom1 a1).
  { destruct Hor as [[-> ->]|(-> & -> & _)]; [|done]. split; by eapply in_dom_view. }
  destruct Hdom as [Hb1 Ha1].
  destruct (IH dom1 (Datatypes.S k) b1 a1 Hps Hb1 Ha1) as (b' & a' & dom' & Hrun' & Hcmp' & Hb' & Ha' & Hor').
  exists b', a', dom'. cbn [length seq zip]. rewrite project_parts_cons. cbn [fst snd].
  erewrite sm_bind_ok by exact Hrun. split_and!; [exact Hrun'|done|done|done|].
  assert (Hcons : forall o : option QueryVariables, o ≫= query_view (part :: ps) = (o ≫= part_view part) ≫= query_view ps)
    by by intros [].
  rewrite !Hcons. destruct Hor as [[-> ->]|(-> & -> & ->)].
  - done.
  - right. destruct Hor' as [[-> ->]|(-> & -> & _)]; done.
Qed.

Context (cq : ContinuousQuery (S:=S)).
Notation view := (query_view (parts (query cq))).

Definition row_query dom : Prop := parts (query cq) <> [] /\ row_parts dom (parts (query cq)).

Lemma project_solution_row dom b a cc s :
  row_query dom -> in_dom dom b -> in_dom dom a -> change_of b a <> Noop ->
  exists b' a' dom', project_solution cq (change_of b a) cc s =
    (Ok (map set_row_signature (live cc (change_of b' a'))), s) /\ comparable dom' /\ in_dom dom' b' /\ in_dom dom' a' /\
  ((b' = b ≫= view /\ a' = a ≫= view) \/ (b' = None /\ a' = None /\ b ≫= view = a ≫= view)).
Proof.
  intros [Hne Hps] Hb Ha Hc.
  destruct (project_parts_row dom (parts (query cq)) 0 cc b a s Hps Hb Ha) as (b' & a' & dom' & Hrun & Hcmp & Hb' & Ha' & Hor).
  exists b', a', dom'. split; [|done]. unfold project_solution.
  assert (Hl : live cc (change_of b a) = [(change_of b a, cc)]) by (by destruct b, a). rewrite Hl in Hrun.
  destruct (parts (query cq)) as [|p ps] eqn:Hp; [done|].
  by erewrite sm_bind_ok by exact Hrun.
Qed.

Lemma sort_live dom b a cc acc :
  comparable dom -> in_dom dom b -> in_dom dom a ->
  exists out, out_foldl sort_result acc (map set_row_signature (live cc (change_of b a))) = Ok (acc.1, acc.2 ++ out) /\
  delta b a out.
Proof.
  intros Hcmp Hb Ha. destruct acc as [data result]. destruct b as [b|], a as [a|]; cbn.
  - destruct (Hcmp b a) as (u & -> & Hu); [by apply Hb|by apply Ha|]. rewrite out_bind_ok. destruct u.
    + exists []. rewrite app_nil_r. split; [done|]. split; [|done]. constructor. by rewrite (proj1 Hu eq_refl).
    + eexists. split; [done|]. split.
      * eapply emits_cons; [|by apply emits_nil]. split; [done|]. by exists [].
      * constructor; [|done]. cbn. intros ->. destruct Hu as [_ Hu]. by specialize (Hu eq_refl).
  - eexists. split; [done|]. split; [|by repeat constructor].
    eapply emits_cons; [|by apply emits_nil]. split; [done|]. by exists [].
  - eexists. split; [done|]. split; [|by repeat constructor].
    eapply emits_cons; [|by apply emits_nil]. split; [done|]. by exists [].
  - exists []. rewrite app_nil_r. split; [done|]. split; [by constructor|done].
Qed.

Lemma process_solution_row dom ccf acc signature b a s :
  row_query dom -> in_dom dom b -> in_dom dom a -> change_of b a <> Noop ->
  exists out, process_solution cq ccf acc (signature, change_of b a) s = (Ok (acc.1, acc.2 ++ out), s) /\
    delta (b ≫= view) (a ≫= view) out.
Proof.
  intros Hq Hb Ha Hc.
  destruct (project_solution_row dom b a (ccf signature) s Hq Hb Ha Hc) as (b' & a' & dom' & Hrun & Hcmp & Hb' & Ha' & Hor).
  destruct (sort_live dom' b' a' (ccf signature) acc Hcmp Hb' Ha') as (out & Hs & Hd).
  exists out. split.
  - unfold process_solution. erewrite sm_bind_ok by (unfold skip_divide_by_zero; cbn [snd fst]; by rewrite Hrun).
    unfold sm_lift. by rewrite Hs.
  - destruct Hor as [[<- <-]|(-> & -> & ->)]; [done|].
    destruct Hd as [He Hi]. split; [|done].
    eapply emits_frame in He. cbn in He. exact He.
Qed.

(** Many solutions: the rows of the two sides add up. *)
Lemma process_solutions_row dom ccf l data result s :
  row_query dom ->
  (forall e, e ∈ l -> exists b a, e.2 = change_of b a /\ in_dom dom b /\ in_dom dom a /\ change_of b a <> Noop) ->
  exists out, sm_foldl (process_solution cq ccf) (data, result) l s = (Ok (data, result ++ out), s) /\
    emits out (omap view (omap (fun e => before_row e.2) l)) (omap view (omap (fun e => after_row e.2) l)) /\
    Forall informative out.
Proof.
  intros Hq. revert result. induction l as [|[signature c] l IH]; intros result Hl.
  { exists []. rewrite app_nil_r. split_and!; [done|by constructor|done]. }
  destruct (Hl (signature, c)) as (b & a & Hc & Hb & Ha & Hn); [set_solver|]. cbn [snd] in Hc. subst c.
  destruct (process_solution_row dom ccf (data, result) signature b a s Hq Hb Ha Hn) as (o1 & Hrun & He1 & Hi1).
  destruct (IH (result ++ o1)) as (o2 & Hrun2 & He2 & Hi2); [intros e He; apply Hl; set_solver|].
  exists (o1 ++ o2). split_and!.
  - cbn [sm_foldl]. erewrite sm_bind_ok by exact Hrun. cbn [fst snd]. rewrite Hrun2. by rewrite app_assoc.
  - assert (Hb' : forall (f : QueryPartEvaluationContext -> option QueryVariables) o l, f (change_of b a) = o ->
      omap view (omap (fun e : Z * QueryPartEvaluationContext => f e.2) ((signature, change_of b a) :: l)) =
      option_list (o ≫= view) ++ omap view (omap (fun e => f e.2) l)).
    { intros f o l' <-. cbn. destruct (f (change_of b a)) as [r|]; cbn; [|done]. by destruct (view r). }
    rewrite (Hb' before_row b) by apply change_of_before. rewrite (Hb' after_row a) by apply change_of_after.
    eapply emits_app; [by apply emits_frame|].
    eapply emits_proper_l; [apply Permutation_app_comm|]. eapply emits_proper_r; [apply Permutation_app_comm|].
    by apply emits_frame.
  - by apply Forall_app.
Qed.

(** *** The two sides of a change *)

Definition solution_row (base : QueryVariables) (e : Z * MatchPathSolution) : QueryVariables :=
  into_query_variables (match_path cq) e.2 base.
Definition solution_rows (base : QueryVariables) (m : gmap Z MatchPathSolution) : list QueryVariables :=
  map (solution_row base) (map_to_list m).

Lemma omap_app_map {A B D} (f : A -> B) (g : B -> option D) l : omap g (map f l) = omap (fun x => g (f x)) l.
Proof. induction l as [|x l IH]; cbn; [done|]. by rewrite IH. Qed.

Lemma pair_before_rows base before after :
  omap (fun e => before_row e.2) (pair_solutions cq base before after) ≡ₚ solution_rows base before.
Proof.
  unfold pair_solutions. rewrite omap_app, omap_app_map.
  assert (H2 : forall l, omap (fun e : Z * QueryPartEvaluationContext => before_row e.2)
     (omap (fun e => match before !! e.1 with Some _ => None
                     | None => Some (e.1, Adding (into_query_variables (match_path cq) e.2 base) 0) end) l) = []).
  { induction l as [|e l IH]; cbn; [done|]. by destruct (before !! e.1). }
  rewrite H2, app_nil_r. unfold solution_rows. rewrite <- (map_entries_perm before).
  induction (map_entries before) as [|e l IH]; [done|]. cbn. destruct (after !! e.1); cbn; by rewrite IH.
Qed.

(** The entries of [after] that [before] has too, and those it has not. *)
Lemma split_entries (before after : gmap Z MatchPathSolution) :
  omap (fun e => pair e.1 <$> after !! e.1) (map_to_list before) ++
  omap (fun e => match before !! e.1 with Some _ => None | None => Some e end) (map_to_list after)
  ≡ₚ map_to_list after.
Proof.
  assert (Hkeys : forall l : list (Z * MatchPathSolution),
            (omap (fun e => pair e.1 <$> after !! e.1) l).*1 `sublist_of` l.*1).
  { induction l as [|e l IH]; [constructor|]. cbn. destruct (after !! e.1); cbn; by constructor. }
  apply NoDup_Permutation.
  - apply NoDup_app. split_and!.
    + apply (NoDup_fmap_1 fst). eapply sublist_NoDup; [apply (NoDup_fst_map_to_list before)|apply Hkeys].
    + intros [k v] (e & He & Hv)%list_elem_of_omap (e2 & _ & Hf)%list_elem_of_omap.
      destruct (after !! e.1); simplify_eq/=. destruct e as [k' w], (before !! e2.1) eqn:Hb; simplify_eq/=.
      apply elem_of_map_to_list in He. congruence.
    + eapply sublist_NoDup; [apply (NoDup_map_to_list after)|]. induction (map_to_list after) as [|e l IH]; [constructor|].
      cbn. destruct (before !! e.1); by constructor.
  - apply NoDup_map_to_list.
  - intros [k v]. rewrite elem_of_app, !list_elem_of_omap, elem_of_map_to_list. split.
    + intros [([k' w] & _ & Hv)|([k' w] & Hin%elem_of_map_to_list & Hv)]; cbn in Hv.
      * by destruct (after !! k') eqn:?; simplify_eq/=.
      * by destruct (before !! k'); simplify_eq/=.
    + intros Hv. destruct (before !! k) as [w|] eqn:Hk; [left; exists (k, w)|right; exists (k, v)];
        rewrite elem_of_map_to_list; cbn; [by rewrite Hv|by rewrite Hk].
Qed.

Lemma pair_after_rows base before after :
  omap (fun e => after_row e.2) (pair_solutions cq base before after) ≡ₚ solution_rows base after.
Proof.
  unfold solution_rows. rewrite <- (split_entries before after), map_app.
  unfold pair_solutions. rewrite omap_app, omap_app_map. apply Permutation_app.
  - rewrite <- (map_entries_perm before). induction (map_entries before) as [|e l IH]; [done|]. cbn.
    destruct (after !! e.1); cbn; by rewrite IH.
  - rewrite <- (map_entries_perm after). induction (map_entries after) as [|e l IH]; [done|]. cbn.
    destruct (before !! e.1); cbn; by rewrite IH.
Qed.

Lemma pair_is_change base before after e :
  e ∈ pair_solutions cq base before after ->
  exists b a, e.2 = change_of b a /\ change_of b a <> Noop /\ before_row e.2 = b /\ after_row e.2 = a.
Proof.
  unfold pair_solutions. intros [Hin|Hin]%elem_of_app.
  - apply list_elem_of_fmap in Hin as (x & -> & _). cbn. destruct (after !! x.1) as [sol|].
    + by eexists (Some _), (Some _).
    + by eexists (Some _), None.
  - apply list_elem_of_omap in Hin as (x & _ & Hx). destruct (before !! x.1); [done|].
    injection Hx as <-. by eexists None, (Some _).
Qed.

Lemma into_result_vec_empty : into_result_vec ∅ = [].
Proof.
  unfold into_result_vec. pose proof (map_entries_perm (∅ : gmap Z (QueryPartEvaluationContext * Z))) as Hp.
  rewrite map_to_list_empty in Hp. apply Permutation_nil_r in Hp. by rewrite Hp.
Qed.

Lemma process_pairs_row dom base before after sc clock result s :
  row_query dom ->
  changes sc = pair_solutions cq base before after ->
  (forall e, e ∈ changes sc -> rows_in dom e.2) ->
  exists out, process_solution_changes cq sc clock result s = (Ok (result ++ out), s) /\
    emits out (omap view (solution_rows base before)) (omap view (solution_rows base after)) /\
    Forall informative out.
Proof.
  intros Hq Hsc Hdom. unfold process_solution_changes.
  destruct (process_solutions_row dom (change_context sc (default clock (sc_before_clock sc)) clock) (changes sc) ∅ result s Hq)
    as (out & Hrun & He & Hi).
  { intros e Hin. pose proof Hin as Hin'. rewrite Hsc in Hin'.
    destruct (pair_is_change _ _ _ _ Hin') as (b & a & Hc & Hn & Hb & Ha). exists b, a.
    destruct (Hdom e Hin) as [Hdb Hda]. rewrite Hb in Hdb. rewrite Ha in Hda. done. }
  exists out. split_and!; [|clear Hrun|done].
  - erewrite sm_bind_ok by exact Hrun. cbn [fst snd]. by rewrite into_result_vec_empty, app_nil_r.
  - rewrite Hsc in He. eapply emits_proper_l; [|eapply emits_proper_r; [|exact He]].
    + by apply omap_permutation, pair_before_rows.
    + by apply omap_permutation, pair_after_rows.
Qed.

(** *** Every kind of change pairs two sets of solutions *)

Definition pairs (base : QueryVariables) (sc : SolutionChangesResult) : Prop :=
  exists before after, changes sc = pair_solutions cq base before after.

Lemma nothing_pairs base : [] = pair_solutions cq base ∅ ∅.
Proof.
  unfold pair_solutions. pose proof (map_entries_perm (∅ : gmap Z MatchPathSolution)) as Hp.
  rewrite map_to_list_empty in Hp. apply Permutation_nil_r in Hp. by rewrite Hp.
Qed.

Lemma sm_bind_inv {St E A B} (m : SM St E A) (f : A -> SM St E B) s b s' :
  (m ≫= f) s = (Ok b, s') -> exists a s1, m s = (Ok a, s1) /\ f a s1 = (Ok b, s').
Proof. unfold mbind, SM_bind. destruct (m s) as [[a|e|] s1]; naive_solver. Qed.

Lemma build_solution_changes_pairs base change clock s sc s' :
  build_solution_changes cq base change clock s = (Ok sc, s') -> pairs base sc.
Proof.
  unfold build_solution_changes, insert_changes, update_changes, delete_changes, future_changes, pairs.
  destruct change; intros Hrun;
    repeat match goal with
    | H : (_ ≫= _) _ = (Ok _, _) |- _ => apply sm_bind_inv in H as (? & ? & ? & H)
    | H : match ?o with Some _ => _ | None => _ end _ = (Ok _, _) |- _ => destruct o
    | H : (if ?b then _ else _) _ = (Ok _, _) |- _ => destruct b
    | H : mret _ _ = (Ok _, _) |- _ => injection H as <- <-; eauto using nothing_pairs
    end.
Qed.
End view.

(** ** The property *)

(** [C2] For a query whose parts filter and project (no aggregation), one source
    change emits, in one call, exactly the change of the query's view: the
    emitted changes, applied in order, turn the rows of the solutions before
    the change into the rows of the solutions after it, and no emitted update
    repeats its row. The parts leave the store alone. *)
Theorem source_change_maintains_rows {C : Chrono} {H : Hashers} {HO : HashMapOrder} {S : Type}
    `{!AccumulatorIndex S} `{!ElementIndexOps S} `{!FutureQueueOps S} {EE : ExpressionEvaluator S}
    holds field dom (cq : ContinuousQuery (S:=S)) change result s sc s' :
  row_query holds field cq dom ->
  build_solution_changes cq [] change (from_source_change change) s = (Ok sc, s') ->
  (forall e, e ∈ changes sc -> rows_in dom e.2) ->
  exists before after out,
    changes sc = pair_solutions cq [] before after /\
    process_change cq result change s = (Ok (result ++ out), s') /\
    emits out (omap (query_view holds field (parts (query cq))) (solution_rows cq [] before))
              (omap (query_view holds field (parts (query cq))) (solution_rows cq [] after)) /\
    Forall informative out.
Proof.
  intros Hq Hbuild Hdom. destruct (build_solution_changes_pairs cq _ _ _ _ _ _ Hbuild) as (before & after & Hsc).
  destruct (process_pairs_row holds field cq dom [] before after sc (from_source_change change) result s' Hq Hsc Hdom)
    as (out & Hrun & He & Hi).
  exists before, after, out. split_and!; [done| |done|done].
  unfold process_change. by erewrite sm_bind_ok by exact Hbuild.
Qed.
