(* ===== verification/Incremental.v ===== *)
(** * A continuous query computes what the query means

    The end-to-end property of the engine: over an element index that stores a
    graph, the changes a query emits turn the query evaluated from scratch on
    the graph before into the query evaluated from scratch on the graph after.
    The pattern is a tree without optional slots, and the parts filter and
    project. *)

From S2P Require Import Prelude BTree Floats Hashing Ast Models Errors Values MatchPath Solver SolverFacts.
From S2P Require Import SolverComplete NaiveQuery SolverMatches ElementIndex ResultIndex Contexts Parts PartsFacts.
From S2P Require Import FutureQueue Session GraphStore ContinuousQuery RowQueryFacts.

(** ** What a source change does to a graph *)

Definition apply_change `{Chrono} (G : Graph) (change : SourceChange) : Graph :=
  match change with
  | Insert e => <[get_reference e := e]> G
  | Update e =>
      match G !! get_reference e with
      | Some prev => match merge_missing_properties (E:=EvaluationError) e prev with
                     | Ok e' => <[get_reference e := e']> G
                     | _ => G
                     end
      | None => <[get_reference e := e]> G
      end
  | Delete metadata => delete (reference metadata) G
  | Future _ => G
  end.

Lemma fold_collect {A B} (f : A -> bool) (g : A -> B) l acc :
  fold_left (fun acc p => if f p then acc ++ [g p] else acc) l acc = acc ++ map g (List.filter f l).
Proof.
  revert acc. induction l as [|p l IH]; intros acc; cbn; [by rewrite app_nil_r|].
  destruct (f p); cbn; rewrite IH; [by rewrite <- app_assoc|done].
Qed.

Section incremental.
Context {C : Chrono} {H : Hashers} {HO : HashMapOrder}.
Context {S : Type} `{!AccumulatorIndex S} `{!ElementIndexOps S} `{!FutureQueueOps S} {EE : ExpressionEvaluator S}.
Context {GS : GraphStore S}.
Context (cq : ContinuousQuery (S:=S)) (slot_test : nat -> Element -> bool) (known : Element -> Prop).
Notation mp := (match_path cq).
Implicit Types (G : Graph) (s : S).

Definition with_fuel (fuel : nat) : ContinuousQuery (S:=S) :=
  {| match_path := match_path cq; query := query cq; source_pipelines := source_pipelines cq; solver_fuel := fuel |}.

(** Whether an element fits a slot depends on the slot and the element only. *)
Definition static_slots : Prop := forall n slot e clock s, slots mp !! n = Some slot -> known e ->
  match_element_to_slot [] clock (spec slot) e s = (Ok (slot_test n e), s).

(** The store holds known elements, each with the slots it fits. *)
Record tracks s : Prop := {
  tk_sound : store_sound s;
  tk_known : forall r e, graph s !! r = Some e -> known e;
  tk_slots : forall r e n, graph s !! r = Some e -> (n < length (slots mp))%nat ->
    n ∈ slots_of s r <-> slot_test n e = true;
}.

(** An insertion is of a new element, an update merges with what is there, and
    both leave a known element. *)
Definition admissible G (change : SourceChange) : Prop :=
  match change with
  | Insert e => G !! get_reference e = None /\ known e
  | Update e =>
      match G !! get_reference e with
      | Some prev => exists e', merge_missing_properties (E:=EvaluationError) e prev = Ok e' /\ known e'
      | None => known e
      end
  | Delete _ | Future _ => True
  end.

Context (Htp : tree_pattern mp) (Hstatic : static_slots).

(** ** The slots an element fits *)

Definition passing (e : Element) : list nat :=
  map fst (List.filter (fun p => slot_test p.1 e) (enumerate (slots mp))).

Lemma elem_of_passing e n : n ∈ passing e <-> (n < length (slots mp))%nat /\ slot_test n e = true.
Proof.
  unfold passing. rewrite list_elem_of_fmap. setoid_rewrite elem_of_List_filter. split.
  - intros ([i s] & -> & Hin%elem_of_enumerate & Ht). split; [by eapply lookup_lt_Some|done].
  - intros [Hn Ht]. destruct (lookup_lt_is_Some_2 _ _ Hn) as [s Hs]. exists (n, s). by rewrite elem_of_enumerate.
Qed.

Lemma affinity_passing e clock s :
  known e -> get_slots_with_affinity cq [] e clock s = (Ok (passing e), s).
Proof.
  intros He. unfold get_slots_with_affinity, passing.
  erewrite (sm_foldl_pure _ (fun acc p => if slot_test p.1 e then acc ++ [p.1] else acc)).
  - by rewrite (fold_collect (fun p => slot_test p.1 e) fst).
  - intros acc [n slot] Hin%elem_of_enumerate. cbn [fst snd].
    erewrite sm_bind_ok by (by apply Hstatic). by destruct (slot_test n e).
Qed.

(** ** The solutions through an element *)

Definition present s (n : nat) (x : Element) : Prop :=
  graph s !! get_reference x = Some x /\ n ∈ slots_of s (get_reference x).

Lemma present_test s n x :
  tracks s -> (n < length (slots mp))%nat ->
  present s n x <-> graph s !! get_reference x = Some x /\ slot_test n x = true.
Proof.
  intros Hs Hn. unfold present. split; intros [Hx ?]; (split; [done|]); by apply (tk_slots _ Hs _ _ _ Hx Hn).
Qed.

Notation holds_matches := (holds_matches mp).

Lemma holds_matches_union G (Q1 Q2 Q : list Element -> Prop) r1 r2 :
  (forall m, Q m <-> Q1 m \/ Q2 m) ->
  holds_matches G slot_test Q1 r1 -> holds_matches G slot_test Q2 r2 -> holds_matches G slot_test Q (r1 ∪ r2).
Proof.
  intros HQ [Hs1 Hc1] [Hs2 Hc2]. split.
  - intros h sol [Hh|[_ Hh]]%lookup_union_Some_raw.
    + destruct (Hs1 h sol Hh) as (m & ? & ? & ?). exists m. split; [done|]. split; [apply HQ; auto|done].
    + destruct (Hs2 h sol Hh) as (m & ? & ? & ?). exists m. split; [done|]. split; [apply HQ; auto|done].
  - intros m Hm [HQm|HQm]%HQ; apply lookup_union_is_Some; [left; by apply Hc1|right; by apply Hc2].
Qed.

Definition solve_slot (fuel : nat) (e : Element) (result : gmap Z MatchPathSolution) (slot_num : nat) :
    SM S EvaluationError (gmap Z MatchPathSolution) :=
  s ← sm_get; solution ← sm_lift (solve fuel (ei_slots s) mp e slot_num); mret (solution ∪ result).

Lemma solve_slots s e (l : list nat) (Q : list Element -> Prop) r0 :
  tracks s -> graph s !! get_reference e = Some e ->
  (forall n, n ∈ l -> (n < length (slots mp))%nat /\ slot_test n e = true) ->
  holds_matches (graph s) slot_test Q r0 ->
  exists N r, (forall fuel, (N <= fuel)%nat -> sm_foldl (solve_slot fuel e) r0 l s = (Ok r, s)) /\
    holds_matches (graph s) slot_test (fun m => Q m \/ exists n, n ∈ l /\ m !! n = Some e) r.
Proof.
  intros Hs He. revert Q r0. induction l as [|a l IH]; intros Q r0 Hl Hr0.
  { exists 0%nat, r0. split; [done|]. destruct Hr0 as [H1 H2]. split.
    - intros h sol Hh. destruct (H1 h sol Hh) as (m & ? & ? & ?). exists m. split_and!; [done|by left|naive_solver..].
    - intros m Hm [?|(n & ?%not_elem_of_nil & _)]; [by apply H2|done]. }
  destruct (Hl a) as [Ha Hta]; [set_solver|].
  destruct (solve_computes (ei_slots s) mp (graph s) slot_test (present s) (gs_reads s (tk_sound _ Hs)) Htp
              (fun n x Hn => present_test s n x Hs Hn) a e Ha He Hta) as (N1 & r1 & HN1 & Hr1).
  destruct (IH (fun m => Q m \/ m !! a = Some e) (r1 ∪ r0)) as (N2 & r & HN2 & Hr).
  { intros n Hn. apply Hl. set_solver. }
  { eapply holds_matches_union; [|exact Hr1|exact Hr0]. cbn. tauto. }
  exists (Nat.max N1 N2), r. split.
  - intros fuel Hf. cbn [sm_foldl].
    erewrite sm_bind_ok; [apply HN2; lia|]. unfold solve_slot.
    erewrite sm_bind_ok by reflexivity. rewrite sm_bind_lift, HN1 by lia. reflexivity.
  - destruct Hr as [H1 H2]. split.
    + intros h sol Hh. destruct (H1 h sol Hh) as (m & ? & HQ & ?). exists m. split; [done|]. split; [|done].
      destruct HQ as [[?|?]|(n & ? & ?)]; [by left|right; exists a; set_solver|right; exists n; set_solver].
    + intros m Hm HQ. apply H2; [done|]. destruct HQ as [?|(n & [->|?]%elem_of_cons & ?)]; [tauto|tauto|eauto].
Qed.

Lemma holds_matches_none G : holds_matches G slot_test (fun _ => False) ∅.
Proof. by split. Qed.

(** The solutions of an element of the graph, whether it was just written or not. *)
Lemma resolve_stored s e :
  tracks s -> graph s !! get_reference e = Some e ->
  exists N r, (forall fuel, (N <= fuel)%nat -> resolve_solutions (with_fuel fuel) e (passing e) false s = (Ok r, s)) /\
    holds_matches (graph s) slot_test (fun m => through (get_reference e) m = true) r.
Proof.
  intros Hs He. destruct (solve_slots s e (passing e) (fun _ => False) ∅ Hs He) as (N & r & HN & H1 & H2).
  { intros n. by rewrite elem_of_passing. } { apply holds_matches_none. }
  exists N, r. split.
  - intros fuel Hf. unfold resolve_solutions. rewrite sm_bind_ret_l. by apply HN.
  - split.
    + intros h sol Hh. destruct (H1 h sol Hh) as (m & Hm & [[]|(n & Hn & Hmn)] & ?).
      exists m. split_and!; [done| |naive_solver..]. apply through_true. eauto.
    + intros m Hm (n & x & Hn & Hx)%through_true. apply H2; [done|]. right. exists n.
      destruct (im_slot _ _ _ _ Hm n x Hn) as [Hgx Ht]. rewrite Hx, He in Hgx. injection Hgx as ->.
      split; [|done]. apply elem_of_passing. split; [|done]. rewrite <- (im_length _ _ _ _ Hm). by eapply lookup_lt_Some.
Qed.

Lemma solutions_stored s e clock :
  tracks s -> graph s !! get_reference e = Some e ->
  exists N r, (forall fuel, (N <= fuel)%nat -> solutions_of (with_fuel fuel) [] e clock false s = (Ok r, s)) /\
    holds_matches (graph s) slot_test (fun m => through (get_reference e) m = true) r.
Proof.
  intros Hs He. destruct (resolve_stored s e Hs He) as (N & r & HN & Hr). exists N, r. split; [|done].
  intros fuel Hf. unfold solutions_of.
  erewrite sm_bind_ok by (apply affinity_passing; by eapply tk_known). by apply HN.
Qed.

Lemma set_tracks s e :
  tracks s -> known e -> exists s', ei_set_element e (passing e) s = (Ok tt, s') /\ tracks s' /\
    graph s' = <[get_reference e := e]> (graph s).
Proof.
  intros Hs He. destruct (gs_set s e (passing e) (tk_sound _ Hs)) as (s' & Hset & Hso & Hg & Hsl).
  exists s'. split_and!; [done| |done]. split; [done| |].
  - intros r x. rewrite Hg. intros [[<- <-]|[_ Hx]]%lookup_insert_Some; [done|]. by eapply tk_known.
  - intros r x n. rewrite Hg, Hsl. intros [[<- <-]|[Hr Hx]]%lookup_insert_Some Hn.
    + rewrite decide_True by done. rewrite elem_of_list_to_set, elem_of_passing. tauto.
    + rewrite decide_False by done. by apply tk_slots.
Qed.

Lemma delete_tracks s r :
  tracks s -> exists s', ei_delete_element r s = (Ok tt, s') /\ tracks s' /\ graph s' = delete r (graph s).
Proof.
  intros Hs. destruct (gs_delete s r (tk_sound _ Hs)) as (s' & Hdel & Hso & Hg & Hsl).
  exists s'. split_and!; [done| |done]. split; [done| |].
  - intros r' x. rewrite Hg. intros [_ Hx]%lookup_delete_Some. by eapply tk_known.
  - intros r' x n. rewrite Hg. intros [Hne Hx]%lookup_delete_Some Hn. rewrite Hsl by done. by apply tk_slots.
Qed.

Lemma solutions_written s e clock :
  tracks s -> known e ->
  exists N r s', (forall fuel, (N <= fuel)%nat -> solutions_of (with_fuel fuel) [] e clock true s = (Ok r, s')) /\
    tracks s' /\ graph s' = <[get_reference e := e]> (graph s) /\
    holds_matches (graph s') slot_test (fun m => through (get_reference e) m = true) r.
Proof.
  intros Hs He. destruct (set_tracks s e Hs He) as (s' & Hset & Hs' & Hg).
  destruct (resolve_stored s' e Hs') as (N & r & HN & Hr); [by rewrite Hg, lookup_insert_eq|].
  exists N, r, s'. split_and!; [|done|done|done]. intros fuel Hf. unfold solutions_of.
  erewrite sm_bind_ok by by apply affinity_passing. rewrite <- (HN fuel Hf).
  unfold resolve_solutions. erewrite sm_bind_ok; [|unfold index_error, sm_map_err; by rewrite Hset]. reflexivity.
Qed.
(** No slot is optional, so no blank row is made. *)
Lemma blank_none G Q r s fuel :
  holds_matches G slot_test Q r -> blank_solutions (with_fuel fuel) r s = (Ok ∅, s).
Proof.
  intros [Hr _]. unfold blank_solutions. erewrite (sm_foldl_pure _ (fun acc _ => acc)).
  { by induction (map_entries r). }
  intros acc [h sol] Hin. rewrite map_entries_perm, elem_of_map_to_list in Hin.
  destruct (Hr h sol Hin) as (m & _ & _ & _ & _ & _ & Ha). destruct (lookup_lt_is_Some_2 _ _ Ha) as [slot Hslot].
  rewrite (sm_bind_ok _ _ s None s); [reflexivity|]. unfold sm_lift, get_empty_optional_solution. cbn [snd with_fuel match_path].
  rewrite Hslot. by rewrite (tp_mandatory _ Htp _ _ Hslot).
Qed.

(** ** Solutions as rows *)

Definition slots_row (l : btree nat (option Element)) : QueryVariables :=
  into_query_variables mp {| solved_slots := l; total_slots := O; queued_slots := []; slot_cursors := [];
                             Solver.solution_signature := None; anchor_slot := O |} [].

Lemma solution_rows_through G r sols :
  graph_ok G -> signatures_distinct mp slot_test G ->
  holds_matches G slot_test (fun m => through r m = true) sols ->
  solution_rows cq [] sols ≡ₚ rows_through mp slot_test r G.
Proof.
  intros HG Hsig [Hs Hc].
  assert (Hrow : solution_rows cq [] sols = map slots_row (map (fun e => solved_slots e.2) (map_to_list sols))).
  { unfold solution_rows. by rewrite map_map. }
  assert (Hrow' : rows_through mp slot_test r G =
    map slots_row (map (match_slots mp) (List.filter (through r) (naive_matches mp slot_test G)))).
  { unfold rows_through. by rewrite map_map. }
  rewrite Hrow, Hrow'. apply Permutation_map. clear Hrow Hrow'. apply NoDup_Permutation.
  - apply NoDup_fmap_2_strong; [|apply NoDup_map_to_list].
    intros [h s] [h' s'] Hin%elem_of_map_to_list Hin'%elem_of_map_to_list He. cbn in He.
    destruct (Hs _ _ Hin) as (m & ? & ? & ? & Hh & _), (Hs _ _ Hin') as (m' & ? & ? & ? & Hh' & _).
    assert (h = h') as ->; [|congruence]. unfold NaiveQuery.signature in *. congruence.
  - apply NoDup_fmap_2_strong; [|by apply NoDup_ListNoDup, List.NoDup_filter, NoDup_ListNoDup, NoDup_naive_matches].
    intros m m'. rewrite !elem_of_List_filter, !elem_of_naive_matches by done. intros [Hm _] [Hm' _].
    apply match_slots_inj; by eapply im_length.
  - intros l. rewrite !list_elem_of_fmap. setoid_rewrite elem_of_List_filter. split.
    + intros ([h s] & -> & Hin%elem_of_map_to_list). destruct (Hs _ _ Hin) as (m & Hm & Hr & Hsl & _).
      exists m. rewrite elem_of_naive_matches by done. done.
    + intros (m & -> & Hm & Hr). rewrite elem_of_naive_matches in Hm by done.
      destruct (Hc m Hm Hr) as [s Hsm]. exists (NaiveQuery.signature mp m, s). rewrite elem_of_map_to_list.
      split; [|done]. destruct (Hs _ _ Hsm) as (m' & Hm' & _ & Hsl & Heq & _). cbn.
      rewrite Hsl. by rewrite (Hsig m m' Hm Hm' Heq).
Qed.

Lemma no_solution_rows : solution_rows cq [] ∅ = [].
Proof. unfold solution_rows. by rewrite map_to_list_empty. Qed.

(** ** One change *)

(** The pattern's matches are told apart by their signatures, and their rows
    are rows the query understands. *)
Definition readable (dom : QueryVariables -> Prop) G : Prop :=
  signatures_distinct mp slot_test G /\ forall m, m ∈ naive_matches mp slot_test G -> dom (match_row mp m).

(** The solutions before and after a change make the difference between the
    rows of the two graphs. *)
Definition covers G G' (changed : list (Z * QueryPartEvaluationContext)) : Prop :=
  exists before after rest, changed = pair_solutions cq [] before after /\
    naive_rows mp slot_test G ≡ₚ solution_rows cq [] before ++ rest /\
    naive_rows mp slot_test G' ≡ₚ solution_rows cq [] after ++ rest.

Lemma covers_nothing G : covers G G [].
Proof.
  exists ∅, ∅, (naive_rows mp slot_test G). rewrite no_solution_rows. split; [|done]. apply nothing_pairs.
Qed.

(** The matches through one reference, before and after. *)
Lemma covers_through r G G' before after :
  graph_ok G -> graph_ok G' -> (forall r', r' <> r -> G !! r' = G' !! r') ->
  solution_rows cq [] before ≡ₚ rows_through mp slot_test r G ->
  solution_rows cq [] after ≡ₚ rows_through mp slot_test r G' ->
  covers G G' (pair_solutions cq [] before after).
Proof.
  intros HG HG' Hoff Hb Ha. exists before, after, (rows_off mp slot_test r G). split; [done|]. split.
  - rewrite Hb. apply naive_rows_split.
  - rewrite Ha, (rows_off_eq mp slot_test r G G') by done. apply naive_rows_split.
Qed.

(** From a store that tracks a graph the change builds such solutions. *)
Definition builds s change : Prop :=
  exists N sc s', (forall fuel, (N <= fuel)%nat ->
      build_solution_changes (with_fuel fuel) [] change (from_source_change change) s = (Ok sc, s')) /\
    tracks s' /\ graph s' = apply_change (graph s) change /\ covers (graph s) (graph s') (changes sc).

Lemma off_insert r e G r' : r' <> r -> G !! r' = <[r := e]> G !! r'.
Proof. intros Hr. by rewrite lookup_insert_ne. Qed.

Lemma tracks_graph_ok s : tracks s -> graph_ok (graph s).
Proof. intros Hs. apply gs_ref, Hs. Qed.

Lemma insert_builds s e :
  tracks s -> graph s !! get_reference e = None -> known e ->
  signatures_distinct mp slot_test (<[get_reference e := e]> (graph s)) ->
  forall clock, exists N sc s', (forall fuel, (N <= fuel)%nat ->
      (after ← solutions_of (with_fuel fuel) [] e clock true;
       mret (M:=SM S EvaluationError) {| changes := pair_solutions (with_fuel fuel) [] ∅ after;
               sc_anchor_element := Some e; sc_before_clock := None; sc_before_anchor_element := None;
               sc_is_future_reprocess := false |}) s = (Ok sc, s') /\
      insert_changes (with_fuel fuel) [] e clock s = (Ok sc, s')) /\
    tracks s' /\ graph s' = <[get_reference e := e]> (graph s) /\ covers (graph s) (graph s') (changes sc).
Proof.
  intros Hs Hnew He Hsig clock. destruct (solutions_written s e clock Hs He) as (N & r & s' & HN & Hs' & Hg & Hr).
  exists N, {| changes := pair_solutions cq [] ∅ r; sc_anchor_element := Some e; sc_before_clock := None;
               sc_before_anchor_element := None; sc_is_future_reprocess := false |}, s'.
  split_and!; [|done|done|].
  - intros fuel Hf. split.
    + erewrite sm_bind_ok by by apply HN. reflexivity.
    + unfold insert_changes. erewrite sm_bind_ok by by apply HN.
      erewrite sm_bind_ok by by eapply blank_none.
      reflexivity.
  - cbn. apply (covers_through (get_reference e)); [by apply tracks_graph_ok..| | |].
    + intros r' Hr'. rewrite Hg. by apply off_insert.
    + rewrite no_solution_rows, rows_through_None; [done|by apply tracks_graph_ok|done].
    + apply solution_rows_through; [by apply tracks_graph_ok|by rewrite Hg|done].
Qed.
Lemma update_builds s e clock prev e' :
  tracks s -> graph s !! get_reference e = Some prev -> known e' ->
  merge_missing_properties (E:=EvaluationError) e prev = Ok e' ->
  signatures_distinct mp slot_test (graph s) ->
  signatures_distinct mp slot_test (<[get_reference e := e']> (graph s)) ->
  exists N sc s', (forall fuel, (N <= fuel)%nat -> update_changes (with_fuel fuel) [] e clock s = (Ok sc, s')) /\
    tracks s' /\ graph s' = <[get_reference e := e']> (graph s) /\ covers (graph s) (graph s') (changes sc).
Proof.
  intros Hs Hprev He' Hmerge Hsig Hsig'. pose proof (tracks_graph_ok s Hs) as HG.
  pose proof (HG _ _ Hprev) as Hrp.
  assert (Hre : get_reference e' = get_reference e).
  { unfold get_reference. by rewrite (merge_missing_reference _ _ _ Hmerge). }
  set (before_clock := {| transaction_time := get_effective_from prev; realtime := realtime clock |}).
  rewrite <- Hrp in Hprev. destruct (solutions_stored s prev before_clock Hs Hprev) as (N1 & rb & HN1 & Hrb).
  destruct (solutions_written s e' clock Hs He') as (N2 & ra & s' & HN2 & Hs' & Hg & Hra).
  rewrite Hre in Hg, Hra. rewrite Hrp in Hrb, Hprev.
  exists (Nat.max N1 N2), {| changes := pair_solutions cq [] rb ra; sc_anchor_element := Some e';
    sc_before_clock := Some before_clock; sc_before_anchor_element := Some prev; sc_is_future_reprocess := false |}, s'.
  split_and!; [|done|done|].
  - intros fuel Hf. unfold update_changes.
    erewrite sm_bind_ok; [|unfold index_error, sm_map_err; by rewrite gs_get by apply Hs]. rewrite Hprev.
    erewrite sm_bind_ok by (apply HN1; lia). rewrite sm_bind_lift, Hmerge.
    erewrite sm_bind_ok by (apply HN2; lia). reflexivity.
  - cbn. apply (covers_through (get_reference e)); [done|by apply tracks_graph_ok| | |].
    + intros r' Hr'. rewrite Hg. by apply off_insert.
    + by apply solution_rows_through.
    + apply solution_rows_through; [by apply tracks_graph_ok|by rewrite Hg|done].
Qed.

Definition no_solutions (future : bool) : SolutionChangesResult :=
  {| changes := []; sc_anchor_element := None; sc_before_clock := None; sc_before_anchor_element := None;
     sc_is_future_reprocess := future |}.

Lemma delete_builds s metadata clock :
  tracks s -> signatures_distinct mp slot_test (graph s) ->
  exists N sc s', (forall fuel, (N <= fuel)%nat -> delete_changes (with_fuel fuel) [] metadata clock s = (Ok sc, s')) /\
    tracks s' /\ graph s' = delete (reference metadata) (graph s) /\ covers (graph s) (graph s') (changes sc).
Proof.
  intros Hs Hsig. pose proof (tracks_graph_ok s Hs) as HG. set (r := reference metadata).
  destruct (graph s !! r) as [e|] eqn:He.
  2: { exists 0%nat, (no_solutions false), s. rewrite delete_id by done. split_and!; [|done|done|apply covers_nothing].
       intros fuel _. unfold delete_changes.
       erewrite sm_bind_ok; [|unfold index_error, sm_map_err; by rewrite gs_get by apply Hs].
       fold r. rewrite He. reflexivity. }
  pose proof (HG _ _ He) as Hre.
  set (before_clock := {| transaction_time := get_effective_from e; realtime := realtime clock |}).
  rewrite <- Hre in He. destruct (solutions_stored s e before_clock Hs He) as (N & rb & HN & Hrb). rewrite Hre in Hrb, He.
  destruct (delete_tracks s r Hs) as (s' & Hdel & Hs' & Hg).
  exists N, {| changes := pair_solutions cq [] rb ∅; sc_anchor_element := None;
    sc_before_clock := Some before_clock; sc_before_anchor_element := Some e; sc_is_future_reprocess := false |}, s'.
  split_and!; [|done|done|].
  - intros fuel Hf. unfold delete_changes.
    erewrite sm_bind_ok; [|unfold index_error, sm_map_err; by rewrite gs_get by apply Hs]. fold r. rewrite He.
    erewrite sm_bind_ok by by apply HN. erewrite sm_bind_ok by by eapply blank_none.
    erewrite sm_bind_ok; [|unfold index_error, sm_map_err; fold r; by rewrite Hdel]. reflexivity.
  - cbn. apply (covers_through r); [done|by apply tracks_graph_ok| | |].
    + intros r' Hr'. rewrite Hg. by rewrite lookup_delete_ne.
    + by apply solution_rows_through.
    + rewrite no_solution_rows, rows_through_None; [done|by apply tracks_graph_ok|]. by rewrite Hg, lookup_delete_eq.
Qed.

Lemma future_builds s future_ref clock :
  tracks s -> signatures_distinct mp slot_test (graph s) ->
  exists N sc, (forall fuel, (N <= fuel)%nat -> future_changes (with_fuel fuel) [] future_ref clock s = (Ok sc, s)) /\
    covers (graph s) (graph s) (changes sc).
Proof.
  intros Hs Hsig. pose proof (tracks_graph_ok s Hs) as HG. set (r := element_ref future_ref).
  destruct (graph s !! r) as [e|] eqn:He.
  2: { exists 0%nat, (no_solutions true). split; [|apply covers_nothing]. intros fuel _. unfold future_changes.
       erewrite sm_bind_ok; [|unfold index_error, sm_map_err; by rewrite gs_get by apply Hs].
       fold r. rewrite He. reflexivity. }
  pose proof (HG _ _ He) as Hre. destruct (due_time future_ref <=? get_effective_from e) eqn:Hdue.
  { exists 0%nat, (no_solutions true). split; [|apply covers_nothing]. intros fuel _. unfold future_changes.
    erewrite sm_bind_ok; [|unfold index_error, sm_map_err; by rewrite gs_get by apply Hs].
    fold r. rewrite He, Hdue. reflexivity. }
  set (before_clock := {| transaction_time := get_effective_from e; realtime := get_effective_from e |}).
  rewrite <- Hre in He. destruct (solutions_stored s e before_clock Hs He) as (N1 & rb & HN1 & Hrb).
  destruct (solutions_stored s e clock Hs He) as (N2 & ra & HN2 & Hra). rewrite Hre in Hrb, Hra, He.
  exists (Nat.max N1 N2), {| changes := pair_solutions cq [] rb ra; sc_anchor_element := Some e;
    sc_before_clock := Some before_clock; sc_before_anchor_element := Some e; sc_is_future_reprocess := true |}.
  split.
  - intros fuel Hf. unfold future_changes.
    erewrite sm_bind_ok; [|unfold index_error, sm_map_err; by rewrite gs_get by apply Hs].
    fold r. rewrite He, Hdue. erewrite sm_bind_ok by (apply HN1; lia). erewrite sm_bind_ok by (apply HN2; lia). reflexivity.
  - cbn. apply (covers_through r); [done|done|done| |]; by apply solution_rows_through.
Qed.

Lemma change_builds s change :
  tracks s -> admissible (graph s) change -> signatures_distinct mp slot_test (graph s) ->
  signatures_distinct mp slot_test (apply_change (graph s) change) -> builds s change.
Proof.
  intros Hs Hadm Hsig Hsig'. unfold builds. set (clock := from_source_change change).
  destruct change as [e|e|metadata|future_ref]; cbn [build_solution_changes apply_change admissible] in *.
  - destruct Hadm as [Hnew He]. destruct (insert_builds s e Hs Hnew He Hsig' clock) as (N & sc & s' & HN & ?).
    exists N, sc, s'. split; [|done]. intros fuel Hf. by apply HN.
  - destruct (graph s !! get_reference e) as [prev|] eqn:Hprev.
    + destruct Hadm as (e' & Hmerge & He'). rewrite Hmerge in *. by eapply update_builds.
    + destruct (insert_builds s e Hs Hprev Hadm Hsig' clock) as (N & sc & s' & HN & ?).
      exists N, sc, s'. split; [|done]. intros fuel Hf. unfold update_changes.
      erewrite sm_bind_ok; [|unfold index_error, sm_map_err; by rewrite gs_get by apply Hs].
      rewrite Hprev. by apply HN.
  - by apply delete_builds.
  - destruct (future_builds s future_ref clock Hs Hsig) as (N & sc & HN & ?). by exists N, sc, s.
Qed.
(** ** The query over a graph *)

Context (holds : QueryVariables -> Expression -> bool) (field : QueryVariables -> Expression -> string * VariableValue).
Context (dom : QueryVariables -> Prop) (Hrow : row_query holds field cq dom).

(** The query evaluated from scratch: the rows of all matches, filtered and
    projected. *)
Definition answer G : list QueryVariables :=
  omap (query_view holds field (parts (query cq))) (naive_rows mp slot_test G).

Lemma omap_elem {A B} (f : A -> option B) l l' a b : omap f l ≡ₚ l' -> a ∈ l -> f a = Some b -> b ∈ l'.
Proof. intros Hp Ha Hb. rewrite <- Hp. apply list_elem_of_omap. eauto. Qed.

Lemma covers_rows G G' sc :
  covers G G' (changes sc) -> readable dom G -> readable dom G' -> forall e, e ∈ changes sc -> rows_in dom e.2.
Proof.
  intros (before & after & rest & Hsc & Hb & Ha) [_ HG] [_ HG'] e He. rewrite Hsc in He.
  split; intros r Hr.
  - assert (Hin : r ∈ naive_rows mp slot_test G).
    { rewrite Hb. apply elem_of_app. left. by apply (omap_elem _ _ _ _ _ (pair_before_rows cq [] before after) He). }
    apply list_elem_of_fmap in Hin as (m & -> & Hm). by apply HG.
  - assert (Hin : r ∈ naive_rows mp slot_test G').
    { rewrite Ha. apply elem_of_app. left. by apply (omap_elem _ _ _ _ _ (pair_after_rows cq [] before after) He). }
    apply list_elem_of_fmap in Hin as (m & -> & Hm). by apply HG'.
Qed.

Lemma process_change_answer s change result :
  tracks s -> admissible (graph s) change -> readable dom (graph s) -> readable dom (apply_change (graph s) change) ->
  exists N out s', (forall fuel, (N <= fuel)%nat ->
      process_change (with_fuel fuel) result change s = (Ok (result ++ out), s')) /\
    tracks s' /\ graph s' = apply_change (graph s) change /\
    emits out (answer (graph s)) (answer (graph s')) /\ Forall informative out.
Proof.
  intros Hs Hadm Hrd Hrd'.
  destruct (change_builds s change Hs Hadm (proj1 Hrd) (proj1 Hrd')) as (N & sc & s' & HN & Hs' & Hg & Hcov).
  rewrite <- Hg in Hrd'. pose proof (covers_rows _ _ _ Hcov Hrd Hrd') as Hdom.
  destruct Hcov as (before & after & rest & Hsc & Hb & Ha).
  destruct (process_pairs_row holds field cq dom [] before after sc (from_source_change change) result s' Hrow Hsc Hdom)
    as (out & Hrun & He & Hi).
  exists N, out, s'. split_and!; [|done|done| |done].
  - intros fuel Hf. unfold process_change. erewrite sm_bind_ok by by apply HN. exact Hrun.
  - unfold answer. eapply emits_proper_l; [|eapply emits_proper_r; [|apply emits_frame; exact He]].
    + rewrite <- omap_app. symmetry. by apply omap_permutation.
    + rewrite <- omap_app. symmetry. by apply omap_permutation.
Qed.

(** Changes that are admissible one after the other, over readable graphs. *)
Fixpoint admissible_run G (cs : list SourceChange) : Prop :=
  readable dom G /\
  match cs with
  | [] => True
  | change :: cs => admissible G change /\ admissible_run (apply_change G change) cs
  end.

Lemma admissible_run_readable G cs : admissible_run G cs -> readable dom G.
Proof. destruct cs; by intros []. Qed.

Lemma process_changes_answer cs s result :
  tracks s -> admissible_run (graph s) cs ->
  exists N out s', (forall fuel, (N <= fuel)%nat ->
      sm_foldl (process_change (with_fuel fuel)) result cs s = (Ok (result ++ out), s')) /\
    tracks s' /\ graph s' = fold_left apply_change cs (graph s) /\
    emits out (answer (graph s)) (answer (graph s')) /\ Forall informative out.
Proof.
  revert s result. induction cs as [|change cs IH]; intros s result Hs Hrun.
  { exists 0%nat, [], s. rewrite app_nil_r. split_and!; [done..|by constructor|done]. }
  destruct Hrun as (Hrd & Hadm & Hrun). pose proof (admissible_run_readable _ _ Hrun) as Hrd'.
  destruct (process_change_answer s change result Hs Hadm Hrd Hrd') as (N1 & o1 & s1 & HN1 & Hs1 & Hg1 & He1 & Hi1).
  rewrite <- Hg1 in Hrun. destruct (IH s1 (result ++ o1) Hs1 Hrun) as (N2 & o2 & s2 & HN2 & Hs2 & Hg2 & He2 & Hi2).
  exists (Nat.max N1 N2), (o1 ++ o2), s2. split_and!.
  - intros fuel Hf. cbn [sm_foldl]. erewrite sm_bind_ok by (apply HN1; lia). rewrite HN2 by lia. by rewrite app_assoc.
  - done.
  - rewrite Hg2, Hg1. reflexivity.
  - by eapply emits_app.
  - by apply Forall_app.
Qed.

End incremental.
