(* ===== verification/CollapseFacts.v ===== *)
(** * One context per group (core/src/query/continuous_query.rs,
      CollapsedAggregationResults) *)

From S2P Require Import Prelude BTree Floats Hashing Ast Models Errors Values MatchPath Solver ResultIndex Contexts.
From S2P Require Import Parts FutureQueue Session ContinuousQuery.

Section collapse.
Context {C : Chrono} {H : Hashers}.

(** The hash of the group a context belongs to after its change. *)
Definition group_hash (c : QueryPartEvaluationContext) : option Z :=
  match c with
  | Aggregation _ after keys _ _ _ => Some (extract_grouping_value_hash keys after)
  | _ => None
  end.

Definition of_group (k : Z) (l : list QueryPartEvaluationContext) : list QueryPartEvaluationContext :=
  filter (fun c => group_hash c = Some k) l.

(** The earliest before side joined to the latest after side. *)
Definition summary (k : Z) (first last : QueryPartEvaluationContext) : option (QueryPartEvaluationContext * Z) :=
  match first, last with
  | Aggregation before first_after first_keys default_before _ _, Aggregation _ after keys _ default_after _ =>
      Some (Aggregation before after keys default_before default_after k,
            match before with
            | Some b => extract_grouping_value_hash first_keys b
            | None => extract_grouping_value_hash first_keys first_after
            end)
  | _, _ => None
  end.

Definition collapse (l : list QueryPartEvaluationContext) : gmap Z (QueryPartEvaluationContext * Z) :=
  fold_left (fun data c => collapsed_insert c data) l ∅.

Lemma collapse_snoc l c : collapse (l ++ [c]) = collapsed_insert c (collapse l).
Proof. unfold collapse. by rewrite fold_left_app. Qed.

Lemma of_group_snoc k l c :
  of_group k (l ++ [c]) = of_group k l ++ (if decide (group_hash c = Some k) then [c] else []).
Proof. unfold of_group. rewrite filter_app. f_equal. Qed.

(** [C16] Collapsing a sequence of changes keeps one context per group: it has
    the before side and default marker of the group's first change and the
    after side, keys and default marker of its last, and the hash of the
    grouping values before the first. Groups the sequence does not mention are
    absent. *)
Theorem collapse_first_before_last_after l k :
  collapse l !! k =
  match of_group k l, last (of_group k l) with
  | first :: _, Some last => summary k first last
  | _, _ => None
  end.
Proof.
  induction l as [|c l IH] using rev_ind; [done|].
  rewrite collapse_snoc, of_group_snoc. unfold collapsed_insert.
  destruct c as [| | |before after keys db da g|]; cbn [group_hash];
    try (rewrite decide_False, app_nil_r by done; exact IH).
  set (h := extract_grouping_value_hash keys after). destruct (decide (Some h = Some k)) as [[= Hk]|Hne].
  - rewrite last_snoc, Hk, IH. destruct (of_group k l) as [|first group] eqn:Hg; cbn [app].
    + rewrite lookup_insert_eq. destruct before; cbn [summary]; [done|]. by rewrite <- Hk.
    + assert (Hmember : forall c, c ∈ of_group k l -> group_hash c = Some k) by (intros c [Hc _]%list_elem_of_filter; done).
      destruct (last_is_Some (first :: group)) as [_ [x Hx]]; [done|]. rewrite Hx.
      pose proof (Hmember first) as Hf. pose proof (Hmember x) as Hx'. rewrite Hg in Hf, Hx'.
      specialize (Hf (list_elem_of_here _ _)). apply last_Some_elem_of in Hx. specialize (Hx' Hx).
      destruct first; try done. destruct x; try done. cbn [summary]. by rewrite lookup_insert_eq.
  - rewrite app_nil_r, <- IH. assert (h <> k) by congruence.
    destruct (collapse l !! h) as [[existing bk]|]; [destruct existing|];
      by rewrite ?lookup_insert_ne, ?lookup_delete_ne by done.
Qed.
End collapse.
