(* ===== verification/QuerySafety.v ===== *)
(** * What an operation leaves alone

    A computation preserves a preorder on states when it moves the state up
    it, whatever its outcome. The relation is a parameter: with "the saved
    snapshot is the same" it says that a computation stays in its session, with
    "the element index is the same" that it does not write elements. *)

From S2P Require Import Prelude BTree Floats Hashing Ast Models Errors Values ChronoOps Temporal Operators MatchPath.
From S2P Require Import Solver ResultIndex LazySortedSet Aggregation Contexts AggregateFacts Parts Expressions.
From S2P Require Import FutureQueue Session ContinuousQuery.

Section preserves.
Context {S : Type} (R : relation S) `{!PreOrder R}.

Definition preserves {E A} (m : SM S E A) : Prop := forall s, R s (m s).2.

Context {E : Type}.

Lemma preserves_ret {A} (a : A) : preserves (E:=E) (mret a).
Proof. intros s. cbn. reflexivity. Qed.

Lemma preserves_lift {A} (o : outcome E A) : preserves (sm_lift o).
Proof. intros s. cbn. reflexivity. Qed.

Lemma preserves_err {A} (e : E) : preserves (A:=A) (sm_err e).
Proof. intros s. cbn. reflexivity. Qed.

Lemma preserves_get : preserves (E:=E) sm_get.
Proof. intros s. cbn. reflexivity. Qed.

Lemma preserves_bind {A B} (m : SM S E A) (f : A -> SM S E B) :
  preserves m -> (forall a, preserves (f a)) -> preserves (m ≫= f).
Proof.
  intros Hm Hf s. unfold mbind, SM_bind. specialize (Hm s). destruct (m s) as [[a|e|] s1]; cbn in *; [|done|done].
  etrans; [exact Hm|apply Hf].
Qed.

Lemma preserves_map_err {F A} (f : E -> F) (m : SM S E A) : preserves m -> preserves (sm_map_err f m).
Proof. intros Hm s. unfold sm_map_err. specialize (Hm s). by destruct (m s). Qed.

Lemma preserves_foldl {A B} (f : A -> B -> SM S E A) l a :
  (forall a b, preserves (f a b)) -> preserves (sm_foldl f a l).
Proof.
  intros Hf. revert a. induction l as [|b l IH]; intros a; [apply preserves_ret|].
  apply preserves_bind; auto.
Qed.

Lemma preserves_mapM {A B} (f : A -> SM S E B) l : (forall a, preserves (f a)) -> preserves (sm_mapM f l).
Proof.
  intros Hf. induction l as [|a l IH]; [apply preserves_ret|].
  apply preserves_bind; [done|]. intros b. apply preserves_bind; [done|]. intros bs. apply preserves_ret.
Qed.
End preserves.

Create HintDb preserve discriminated.
#[export] Hint Resolve preserves_ret preserves_lift preserves_err preserves_get preserves_map_err
  preserves_foldl preserves_mapM : preserve.

(** Splits a computation along its binds and case distinctions. *)
Ltac preserve_step :=
  match goal with
  | |- forall _, _ => intro
  | |- preserves _ (mbind _ _) => apply preserves_bind
  | |- preserves _ (match ?x with _ => _ end) => destruct x
  | |- preserves _ (let '(_, _) := ?x in _) => destruct x
  | |- preserves _ (let _ := _ in _) => cbv zeta
  | _ => solve [eauto with preserve]
  | _ => progress cbn beta iota
  end.
Ltac preserve := repeat preserve_step.

(** ** Storage *)

(** The writes of the stores move up the relation. *)
Class StorePreserved {C : Chrono} {S : Type} `{!AccumulatorIndex S} `{!LazySortedSetStore S} (R : relation S) : Prop := {
  preserved_set : forall s k o v s', acc_set s k o v = Ok s' -> R s s';
  preserved_increment : forall s id v d, R s (increment_value_count s id v d).2;
}.

Section store.
Context {C : Chrono} {O : ChronoOps} {H : Hashers} {S : Type} `{!AccumulatorIndex S} `{!LazySortedSetStore S}.
Context (R : relation S) `{!PreOrder R} `{!StorePreserved R}.

Lemma preserves_index_get key owner : preserves R (index_get key owner).
Proof. intros s. cbn. reflexivity. Qed.

Lemma preserves_index_set key owner v : preserves R (index_set key owner v).
Proof.
  intros s. unfold index_set. destruct (acc_set s key owner v) as [s'| |] eqn:Hs; cbn; [|reflexivity|reflexivity].
  by eapply preserved_set.
Qed.

Lemma preserves_commit_log id log : forall s, R s (commit_log s id log).2.
Proof.
  induction log as [|[v entry] log IH]; intros s; cbn; [reflexivity|].
  pose proof (preserved_increment s id v (delta entry)) as Hi.
  destruct (increment_value_count s id v (delta entry)) as [[[]|e|] s1]; cbn in *; [|done|done].
  etrans; [exact Hi|apply IH].
Qed.

Lemma preserves_store_accumulator position keys acc : preserves R (store_accumulator position keys acc).
Proof.
  destruct acc as [v|l]; [apply preserves_index_set|]. intros s. cbn.
  pose proof (preserves_commit_log (set_id l) (change_log l) s) as Hc. unfold commit.
  by destruct (commit_log s (set_id l) (change_log l)) as [[[]|e|] s1].
Qed.

#[local] Hint Resolve preserves_index_get preserves_index_set preserves_store_accumulator : preserve.

Lemma preserves_evaluate_aggregate f position side values keys :
  preserves R (evaluate_aggregate f position side values keys).
Proof.
  unfold evaluate_aggregate, load_accumulator. preserve.
Qed.

(** ** The evaluator *)

(** The registered functions move the state up the relation when the
    evaluator does. *)
Definition function_preserved (f : Function (S:=S)) : Prop :=
  match f with
  | Scalar call => forall ctx c values, preserves R (call ctx c values)
  | EvaluatingScalar call =>
      forall ev, (forall ctx e, preserves R (ev ctx e)) -> forall ctx c values, preserves R (call ev ctx c values)
  | LazyScalar call => forall ev, (forall ctx e, preserves R (ev ctx e)) -> forall ctx c, preserves R (call ev ctx c)
  | Aggregating _ => True
  | ContextMutator call =>
      forall ev, (forall ctx e, preserves R (ev ctx e)) -> forall ctx c, preserves R (call ev ctx c)
  end.

Context (functions : gmap string (Function (S:=S))).
Context (Hfunctions : forall name f, functions !! name = Some f -> function_preserved f).

Section level.
Context (ev : ExpressionEvaluationContext -> Expression -> SM S EvaluationError VariableValue).
Context (Hev : forall ctx e, preserves R (ev ctx e)).
#[local] Hint Resolve Hev : preserve.

Lemma preserves_predicate_of ctx e : preserves R (predicate_of ev ctx e).
Proof. unfold predicate_of. preserve. Qed.
#[local] Hint Resolve preserves_predicate_of : preserve.

Lemma preserves_logical_loop fuel ctx is_and l r : preserves R (logical_loop ev fuel ctx is_and l r).
Proof.
  revert l r. induction fuel as [|fuel IH]; intros l r; cbn [logical_loop]; [apply preserves_lift; done|].
  preserve.
Qed.
#[local] Hint Resolve preserves_logical_loop : preserve.

Lemma preserves_evaluate_all ctx l : preserves R (evaluate_all ev ctx l).
Proof. unfold evaluate_all. apply preserves_mapM; [done|]. preserve. Qed.
#[local] Hint Resolve preserves_evaluate_all : preserve.

Lemma preserves_evaluate_bound ctx e : preserves R (evaluate_bound ev ctx e).
Proof. unfold evaluate_bound. preserve. Qed.
#[local] Hint Resolve preserves_evaluate_bound : preserve.

Lemma preserves_unary ctx u : preserves R (evaluate_unary_expression ev ctx u).
Proof. destruct u; cbn [evaluate_unary_expression]; preserve. Qed.

Lemma preserves_binary ctx op e1 e2 : preserves R (evaluate_binary_expression ev ctx op e1 e2).
Proof. unfold evaluate_binary_expression, evaluate_logical_expression. destruct op; preserve. Qed.

Lemma preserves_function ctx name args position : preserves R (evaluate_function_expression functions ev ctx name args position).
Proof.
  unfold evaluate_function_expression, get_function, grouping_values.
  destruct (functions !! name) as [f|] eqn:Hf; [|apply preserves_err; done].
  specialize (Hfunctions name f Hf). unfold function_error.
  destruct f; cbn in Hfunctions; preserve. apply preserves_evaluate_aggregate.
Qed.

Lemma preserves_evaluate_option ctx e : preserves R (evaluate_option ev ctx e).
Proof. unfold evaluate_option. preserve. Qed.
#[local] Hint Resolve preserves_evaluate_option : preserve.

Lemma preserves_evaluate_when ctx m l : preserves R (evaluate_when ev ctx m l).
Proof. induction l as [|[c r] l IH]; cbn [evaluate_when]; preserve. Qed.
#[local] Hint Resolve preserves_evaluate_when : preserve.

Lemma preserves_iterator_item ctx i f m acc item : preserves R (iterator_item ev ctx i f m acc item).
Proof. unfold iterator_item. preserve. Qed.
#[local] Hint Resolve preserves_iterator_item : preserve.

Lemma preserves_object_field ctx acc (e : string * Expression) :
  preserves R (v ← ev ctx e.2; mret (M:=SM S EvaluationError) (bt_insert e.1 v acc)).
Proof. preserve. Qed.
#[local] Hint Resolve preserves_object_field : preserve.

Lemma preserves_eval_step ctx e : preserves R (eval_step functions ev ctx e).
Proof.
  destruct e; cbn [eval_step]; unfold evaluate_case_expression, evaluate_list_expression,
    evaluate_object_expression, evaluate_iterator_expression.
  - apply preserves_unary.
  - apply preserves_binary.
  - apply preserves_function.
  - preserve.
  - preserve.
  - preserve.
  - preserve.
Qed.
End level.

Lemma preserves_evaluate_expression fuel ctx e : preserves R (evaluate_expression functions fuel ctx e).
Proof.
  revert ctx e. induction fuel as [|fuel IH]; intros ctx e; cbn [evaluate_expression]; [by apply preserves_lift|].
  by apply preserves_eval_step.
Qed.
End store.
#[export] Hint Resolve preserves_index_get preserves_index_set : preserve.

(** ** Parts and queries *)

Class EvaluatorPreserved {C : Chrono} {S : Type} {EE : ExpressionEvaluator S} (R : relation S) : Prop := {
  preserved_predicate : forall ctx e, preserves R (evaluate_predicate ctx e);
  preserved_field : forall ctx e, preserves R (evaluate_projection_field ctx e);
}.

#[global] Instance expression_evaluator_preserved {C : Chrono} {O : ChronoOps} {H : Hashers} {S : Type}
    `{!AccumulatorIndex S} `{!LazySortedSetStore S} (R : relation S) `{!PreOrder R} `{!StorePreserved R}
    (functions : gmap string (Function (S:=S))) fuel :
  (forall name f, functions !! name = Some f -> function_preserved R f) ->
  EvaluatorPreserved (EE:=expression_evaluator functions fuel) R.
Proof.
  intros Hf. pose proof (fun ctx e => preserves_evaluate_expression R functions Hf fuel ctx e) as Hev.
  constructor; intros ctx e; cbn [evaluate_predicate evaluate_projection_field expression_evaluator].
  - by apply preserves_predicate_of.
  - preserve.
Qed.

Section parts.
Context {C : Chrono} {H : Hashers} {S : Type} `{!AccumulatorIndex S} {EE : ExpressionEvaluator S}.
Context (R : relation S) `{!PreOrder R}.
Context (Hset : forall key owner v, preserves R (index_set key owner v)) {EP : EvaluatorPreserved R}.
#[local] Hint Resolve preserves_index_get Hset preserved_predicate preserved_field : preserve.

Lemma preserves_project ctx projection : preserves R (project ctx projection).
Proof.
  assert (Hf : forall ctx acc e, preserves R (project_field ctx acc e)) by (unfold project_field; preserve).
  unfold project. preserve.
Qed.

Lemma preserves_where_pass ctx filters : preserves R (where_pass ctx filters).
Proof. induction filters as [|f l IH]; cbn [where_pass]; preserve. Qed.
#[local] Hint Resolve preserves_project preserves_where_pass : preserve.

Lemma preserves_when_aggregating part m : preserves R m -> preserves R (when_aggregating (S:=S) part m).
Proof. intros Hm. unfold when_aggregating. preserve. Qed.
#[local] Hint Resolve preserves_when_aggregating : preserve.

Lemma preserves_reconcile_crossing part keys bi bo ao sn cc :
  preserves R (reconcile_crossing_aggregate part keys bi bo ao sn cc).
Proof. unfold reconcile_crossing_aggregate. preserve. Qed.
#[local] Hint Resolve preserves_reconcile_crossing : preserve.

Lemma preserves_reconcile_contribution n before after keys db da :
  preserves R (reconcile_contribution n before after keys db da).
Proof. unfold reconcile_contribution, decide_revert, decide_apply. preserve. Qed.
#[local] Hint Resolve preserves_reconcile_contribution : preserve.

Lemma preserves_revert_contribution part cc before rv : preserves R (revert_contribution part cc before rv).
Proof. unfold revert_contribution. preserve. Qed.
#[local] Hint Resolve preserves_revert_contribution : preserve.

Lemma preserves_evaluate n part cc c : preserves R (evaluate n part cc c).
Proof.
  destruct c; cbn [evaluate].
  - unfold evaluate_adding. preserve.
  - unfold evaluate_updating. preserve.
  - unfold evaluate_removing. preserve.
  - unfold evaluate_aggregation. preserve.
  - preserve.
Qed.
End parts.

Class IndexesPreserved {C : Chrono} {S : Type} `{!ElementIndexOps S} `{!FutureQueueOps S} (R : relation S) : Prop := {
  preserved_get_element : forall r, preserves R (ei_get_element r);
  preserved_set_element : forall e slots, preserves R (ei_set_element e slots);
  preserved_delete_element : forall r, preserves R (ei_delete_element r);
  preserved_pop : preserves R fut_pop;
}.

Section query.
Context {C : Chrono} {H : Hashers} {HO : HashMapOrder}.
Context {S : Type} `{!AccumulatorIndex S} `{!ElementIndexOps S} `{!FutureQueueOps S}.
Context {EE : ExpressionEvaluator S}.
Context (R : relation S) `{!PreOrder R}.
Context (Hset : forall key owner v, preserves R (index_set key owner v)) {EP : EvaluatorPreserved R}.
Context {IP : IndexesPreserved R}.
Context (cq : ContinuousQuery (S:=S)).

(** The middleware of the query stays in the relation. *)
Definition middleware_preserved : Prop := forall source pipeline middleware change,
  source_pipelines cq !! source = Some pipeline -> middleware ∈ pipeline -> preserves R (middleware change).

#[local] Hint Resolve preserves_where_pass preserves_evaluate preserved_get_element preserved_set_element
  preserved_delete_element preserved_pop : preserve.

Lemma preserves_index_error {A} (m : SM S IndexError A) : preserves R m -> preserves R (index_error m).
Proof. apply preserves_map_err. Qed.
#[local] Hint Resolve preserves_index_error : preserve.

Lemma preserves_match_element vars clock sp element : preserves R (match_element_to_slot vars clock sp element).
Proof. unfold match_element_to_slot. preserve. Qed.
#[local] Hint Resolve preserves_match_element : preserve.

Lemma preserves_solutions_of vars element clock update : preserves R (solutions_of cq vars element clock update).
Proof.
  unfold solutions_of, get_slots_with_affinity, resolve_solutions. preserve;
    apply preserves_foldl; preserve.
Qed.
#[local] Hint Resolve preserves_solutions_of : preserve.

Lemma preserves_blank_solutions m : preserves R (blank_solutions cq m).
Proof. unfold blank_solutions. apply preserves_foldl; preserve. Qed.
#[local] Hint Resolve preserves_blank_solutions : preserve.

Lemma preserves_build_solution_changes base change clock : preserves R (build_solution_changes cq base change clock).
Proof.
  destruct change; cbn [build_solution_changes].
  - unfold insert_changes. preserve.
  - unfold update_changes. preserve.
  - unfold delete_changes. preserve.
  - unfold future_changes. preserve.
Qed.

Lemma preserves_project_solution c cc : preserves R (project_solution cq c cc).
Proof.
  assert (Hp : forall n part cs, preserves R (project_part n part cs)).
  { intros n part cs. unfold project_part. apply preserves_foldl; preserve. }
  assert (Hps : forall ps cs, preserves R (project_parts ps cs)).
  { intros ps cs. unfold project_parts. apply preserves_foldl; preserve. }
  unfold project_solution. preserve.
Qed.

Lemma preserves_skip m : preserves R m -> preserves R (skip_divide_by_zero m).
Proof.
  intros Hm s. unfold skip_divide_by_zero. specialize (Hm s). destruct (m s) as [[a|e|] s1]; [done| |done].
  by destruct e.
Qed.
#[local] Hint Resolve preserves_build_solution_changes preserves_project_solution preserves_skip : preserve.

Lemma preserves_process_changes_inner cs : preserves R (process_changes_inner cq cs).
Proof.
  assert (Hs : forall cc acc c, preserves R (process_solution cq cc acc c)) by (unfold process_solution; preserve).
  assert (Hc : forall result c, preserves R (process_change cq result c)).
  { intros result c. unfold process_change, process_solution_changes. preserve. }
  unfold process_changes_inner. apply preserves_foldl; preserve.
Qed.

Lemma preserves_pipeline (pipeline : SourceMiddlewarePipeline (S:=S)) change :
  (forall m c, m ∈ pipeline -> preserves R (m c)) -> preserves R (process_pipeline pipeline change).
Proof.
  unfold process_pipeline. generalize [change]. induction pipeline as [|m pipeline IH]; intros cs Hm.
  { by apply preserves_ret. }
  cbn [sm_foldl]. apply preserves_bind; [done| |intros cs'; apply IH; intros; apply Hm; set_solver].
  unfold run_middleware. apply preserves_foldl; [done|]. intros acc c.
  apply preserves_bind; [done|apply Hm; set_solver|]. preserve.
Qed.

Lemma preserves_middleware change : middleware_preserved -> preserves R (execute_source_middleware cq change).
Proof.
  intros Hm. unfold execute_source_middleware.
  destruct (source_pipelines cq !! _) as [pipeline|] eqn:Hp; [|by apply preserves_ret].
  apply preserves_map_err, preserves_pipeline. eauto.
Qed.
End query.

(** * Changes are all or nothing in a transactional session

    The session guard rolls back on every path that is not a successful
    commit; with a backend that honours the contract of [TransactionalSession]
    a source change or a due future that fails leaves the store as it was. *)

Section safety.
Context {C : Chrono} {H : Hashers} {HO : HashMapOrder}.
Context {S : Type} `{!AccumulatorIndex S} `{!ElementIndexOps S} `{!FutureQueueOps S} `{!SessionControl S}.
Context {EE : ExpressionEvaluator S} {TS : TransactionalSession S}.

(** Staying in the session: what a rollback returns to does not change. *)
Definition in_session : relation S := fun s s' => saved s' = saved s.
#[local] Instance in_session_preorder : PreOrder in_session.
Proof. split; [done|]. intros a b c Hab Hbc. unfold in_session in *. congruence. Qed.

(** What a guarded computation leaves behind. *)
Definition atomic {E A} (body : SM S E A) (s : S) (r : outcome E A) (s' : S) : Prop :=
  (is_ok r = false -> view s' = view s) /\
  (is_ok r = true -> exists s1 s2, session_begin s = (Ok tt, s1) /\ body s1 = (r, s2) /\ view s' = view s2).

Lemma with_guard_atomic {E A} (f : IndexError -> E) (body : SM S E A) s :
  preserves in_session body -> atomic body s (with_guard f body s).1 (with_guard f body s).2.
Proof.
  intros Hbody. unfold with_guard. pose proof (begin_saves s) as Hb.
  destruct (session_begin s) as [[[]|e|] s1] eqn:Hbegin; [|split; [done|done]..].
  destruct Hb as [Hsaved _]. pose proof (Hbody s1) as Hin.
  assert (Hrb : forall (r : outcome E A) s2, in_session s1 s2 -> is_ok r = false -> atomic body s (drop_guard r s2).1 (drop_guard r s2).2).
  { intros r s2 Hs2 Hr. split; [|cbn; congruence]. intros _. cbn. apply rollback_restores. unfold in_session in Hs2. congruence. }
  destruct (body s1) as [[a|e|] s2] eqn:Hrun; [|by apply Hrb..]. cbn in Hin.
  unfold guard_commit. assert (Hs2 : saved s2 <> None) by (unfold in_session in Hin; congruence).
  pose proof (commit_saves s2 Hs2) as Hc. destruct (session_commit s2) as [[[]|e|] s3].
  - split; [done|]. intros _. by exists s1, s2.
  - apply Hrb; [|done]. unfold in_session in *. congruence.
  - apply Hrb; [|done]. unfold in_session in *. congruence.
Qed.

End safety.
