(* ===== verification/QuerySamples.v ===== *)
(** * Queries on the in-memory backend

    Two small queries, run with the evaluator of [Expressions] on the
    in-memory indexes; the theorems are applied to them, and they show two
    ways in which a result drifts from the query. The second part runs one of
    them on a backend whose sessions keep a copy of the store. *)

From S2P Require Import Prelude BTree Floats Hashing Ast Models Errors Values ChronoOps Temporal Operators MatchPath.
From S2P Require Import Solver ElementIndex ResultIndex LazySortedSet Aggregation Contexts AggregateFacts Parts.
From S2P Require Import PartsFacts Expressions FutureQueue Session ContinuousQuery RowQueryFacts QuerySafety.

#[local] Existing Instance Sample.hashers.
#[local] Existing Instance Sample.chrono.
#[local] Existing Instance SampleOps.ops.
#[local] Existing Instance sample_heap.

#[local] Instance insertion_order : HashMapOrder := {| map_entries A m := map_to_list m; map_entries_perm A m := reflexivity _ |}.
#[local] Instance no_session : SessionControl Indexes := no_op_session_control.

Definition aggregates : gmap string (Function (S:=Indexes)) := register_all_aggregating ∅.
#[local] Instance evaluator : ExpressionEvaluator Indexes := expression_evaluator aggregates 6.

(** ** Items with a number *)

Definition item_ref (i : string) : ElementReference := {| source_id := "s"; element_id := i |}.
Definition item_metadata (i : string) (t : Z) : ElementMetadata :=
  {| reference := item_ref i; labels := ["Item"%string]; effective_from := t |}.
Definition item (i : string) (t v : Z) : Element := Node (item_metadata i t) [("v"%string, EV_Integer v)].

Definition match_item : MatchClause :=
  {| mc_start := {| node_annotation := {| annotation_name := Some "n"%string |}; node_labels := ["Item"%string];
                    node_property_predicates := [] |};
     mc_path := []; mc_optional := false |}.
Definition n_v : Expression := Unary (Property "n" "v").

Definition query_of (first : QueryPart) (rest : list QueryPart) : ContinuousQuery (S:=Indexes) :=
  {| match_path := ok_or {| slots := []; optional_paths := ∅ |} (from_query (E:=EvaluationError) first);
     query := {| parts := first :: rest |}; source_pipelines := ∅; solver_fuel := 10 |}.

Fixpoint run_changes (cq : ContinuousQuery (S:=Indexes)) (cs : list SourceChange) (s : Indexes) :
    list (outcome EvaluationError (list QueryPartEvaluationContext)) :=
  match cs with
  | [] => []
  | c :: cs => let '(r, s) := process_source_change cq c s in r :: run_changes cq cs s
  end.

(** MATCH (n:Item) RETURN 10 / n.v AS q *)
Definition quotient : ContinuousQuery (S:=Indexes) :=
  query_of {| match_clauses := [match_item]; where_clauses := [];
              return_clause := Item [Unary (Alias (Binary Divide (Unary (Lit (LInteger 10))) n_v) "q")] |} [].

(** MATCH (n:Item) WITH sum(n.v) AS s RETURN s AS total *)
Definition total : ContinuousQuery (S:=Indexes) :=
  query_of {| match_clauses := [match_item]; where_clauses := [];
              return_clause := GroupBy [] [Unary (Alias (FunctionExpression "sum" [n_v] 1) "s")] |}
           [{| match_clauses := []; where_clauses := [];
               return_clause := Item [Unary (Alias (Unary (Parameter_ "s")) "total")] |}].

(** ** Results that drift *)

Definition emitted (cq : ContinuousQuery (S:=Indexes)) (cs : list SourceChange) : list QueryPartEvaluationContext :=
  concat (map (ok_or []) (run_changes cq cs new_indexes)).

Definition without_signature (c : QueryPartEvaluationContext) : QueryPartEvaluationContext :=
  match c with
  | Adding a _ => Adding a 0
  | Updating b a _ => Updating b a 0
  | Removing b _ => Removing b 0
  | c => c
  end.

Lemma emits_without_signature out R R' : emits out R R' -> emits (map without_signature out) R R'.
Proof.
  induction 1 as [R R' Hp|c out R R1 R' [Hc (rest & HR & HR1)] He IH]; [by constructor|].
  cbn. econstructor; [|exact IH]. destruct c; try done; split; try done; by exists rest.
Qed.

Definition quotient_changes : list SourceChange :=
  [Insert (item "a" 1 5); Update (item "a" 2 0); Update (item "a" 3 1); Delete (item_metadata "a" 4)].
Definition quotient_row (z : Z) : QueryVariables := [("q"%string, VFloat (f64_of_Z z))].

Lemma quotient_emits :
  map without_signature (emitted quotient quotient_changes) =
  [Adding (quotient_row 2) 0; Removing (quotient_row 10) 0].
Proof. by_vm. Qed.

Lemma surjective_pairing_eq {A B} (p : A * B) a : p.1 = a -> p = (a, p.2).
Proof. by intros <-; destruct p. Qed.

(** Rows the engine tells apart are different. *)
Lemma rows_differ (r r' : QueryVariables) :
  variables_eq r r' = Some false -> variables_eq r' r' = Some true -> r <> r'.
Proof. by intros Hne He ->; rewrite He in Hne. Qed.

Lemma singleton_permutation {A} (a b : A) l : [a] ≡ₚ b :: l -> a = b.
Proof. intros Hp%Permutation_singleton_l. by injection Hp. Qed.

(** Follows the next change from a bag of at most one row. *)
Ltac follow H :=
  let rest := fresh "rest" in let Hr := fresh "Hr" in
  apply emits_cons_inv in H as (rest & Hr & H); cbn in Hr, H;
  first [ apply Permutation_nil_l in Hr as <-
        | by apply Permutation_nil_cons in Hr
        | apply Permutation_cons_inv, Permutation_nil_l in Hr as <-
        | apply singleton_permutation in Hr ].

(** A solution whose projection divides by zero is skipped whole, with the
    row it already has: with RETURN 10 / n.v, an item of value 5 that is set to
    0 and then to 1 keeps its row 2 (neither update says anything), and its
    deletion retracts the row 10, which was never added. No bag of rows follows
    the emitted changes. *)
Theorem divide_by_zero_leaves_stale_row :
  map without_signature (emitted quotient quotient_changes) =
    [Adding (quotient_row 2) 0; Removing (quotient_row 10) 0] /\
  forall R, ~ emits (emitted quotient quotient_changes) [] R.
Proof.
  split; [exact quotient_emits|]. intros R He%emits_without_signature. rewrite quotient_emits in He.
  do 2 follow He. apply rows_differ in Hr; [done|by_vm..].
Qed.

Definition total_changes : list SourceChange :=
  [Insert (item "a" 1 5); Insert (item "b" 2 (-5)); Insert (item "c" 3 3);
   Delete (item_metadata "c" 4); Update (item "a" 5 6)].
Definition total_row (z : Z) : QueryVariables := [("total"%string, VFloat (f64_of_Z z))].

Lemma total_emits :
  map without_signature (emitted total total_changes) =
  [Adding (total_row 5) 0; Updating (total_row 5) (total_row 0) 0; Updating (total_row 0) (total_row 3) 0;
   Removing (total_row 3) 0; Updating (total_row 0) (total_row 1) 0].
Proof. by_vm. Qed.

(** A group whose aggregates return to their initial values while it still
    has contributors is taken for a group that became empty: with WITH
    sum(n.v) AS s RETURN s, items 5, -5 and 3, the deletion of the 3 retracts
    the row although two items are left, and the next change of the group
    updates the row 0, which is not there. No bag of rows follows the emitted
    changes. *)
Theorem zero_sum_group_retracted :
  map without_signature (emitted total total_changes) =
    [Adding (total_row 5) 0; Updating (total_row 5) (total_row 0) 0; Updating (total_row 0) (total_row 3) 0;
     Removing (total_row 3) 0; Updating (total_row 0) (total_row 1) 0] /\
  forall R, ~ emits (emitted total total_changes) [] R.
Proof.
  split; [exact total_emits|]. intros R He%emits_without_signature. rewrite total_emits in He.
  do 5 follow He.
Qed.

(** ** A query that filters and projects: MATCH (n:Item) WHERE n.v > 5 RETURN n.v AS w *)

Definition over_five : QueryPart := {|
  match_clauses := [match_item];
  where_clauses := [Binary Gt_ n_v (Unary (Lit (LInteger 5)))];
  return_clause := Item [Unary (Alias n_v "w")] |}.
Definition filtered : ContinuousQuery (S:=Indexes) := query_of over_five [].

Definition item_row (row : QueryVariables) : Prop := exists i t v, row = [("n"%string, VElement (item i t v))].
Definition number_row (row : QueryVariables) : Prop := exists v, row = [("w"%string, VInteger (integer_from_i64 v))].
Definition item_number (row : QueryVariables) : VariableValue :=
  match bt_get "n"%string row with Some (VElement e) => element_property e "v" | _ => VNull end.
Definition over_five_holds (row : QueryVariables) (_ : Expression) : bool :=
  match item_number row with VInteger n => cmp_holds OpGt (int_or_zero n ?= 5) | _ => false end.
Definition over_five_field (row : QueryVariables) (_ : Expression) : string * VariableValue := ("w"%string, item_number row).

Lemma item_number_of i t v : item_number [("n"%string, VElement (item i t v))] = VInteger (integer_from_i64 v).
Proof. reflexivity. Qed.

Lemma filtered_reads_row : reads_row item_row over_five_holds over_five_field over_five [Unary (Alias n_v "w")].
Proof.
  split_and!; [done| |].
  - intros e ->%list_elem_of_singleton ctx s (i & t & v & Hrow).
    unfold evaluate_predicate, evaluator, expression_evaluator, predicate_of, over_five_holds.
    rewrite Hrow, item_number_of. cbn -[integer_from_i64]. unfold get_variable. rewrite Hrow. reflexivity.
  - intros e ->%list_elem_of_singleton ctx s (i & t & v & Hrow).
    unfold evaluate_projection_field, evaluator, expression_evaluator, over_five_field.
    rewrite Hrow, item_number_of. cbn -[integer_from_i64]. unfold get_variable. rewrite Hrow. reflexivity.
Qed.

Lemma element_eqb_item i t v i' t' v' :
  element_eqb (item i t v) (item i' t' v') = bool_decide ((i, t, v) = (i', t', v')).
Proof.
  unfold item at 1 2. cbn [element_eqb]. unfold property_map_eqb.
  cbn [list_eqb fst snd element_value_eqb]. rewrite String.eqb_refl, andb_true_r. cbn [andb].
  destruct (Z.eqb_spec v v') as [->|Hne].
  - rewrite andb_true_r. apply bool_decide_ext. unfold item_metadata, item_ref. split; [by intros [= -> ->]|by intros [= -> ->]].
  - rewrite andb_false_r. symmetry. apply bool_decide_eq_false. intros [= _ _ ?]. done.
Qed.

(** One column, compared. *)
Lemma single_column_unchanged x (a b : VariableValue) u :
  value_eq a b = Some u -> (u = true -> eq_for_groupby a b = true) ->
  query_variables_unchanged (E:=EvaluationError) [(x, a)] [(x, b)] = Ok u.
Proof.
  intros Hv Hg. unfold query_variables_unchanged, variables_eq, vec_eq. cbn [length Nat.eqb fst snd].
  rewrite String.eqb_refl, Hv. destruct u; cbn; [|done]. by rewrite Hg.
Qed.

Lemma item_rows_comparable : comparable item_row.
Proof.
  intros r r' (i & t & v & ->) (i' & t' & v' & ->). eexists. split.
  - apply single_column_unchanged; [cbn [value_eq]; by rewrite element_eqb_item|].
    intros [= -> -> ->]%bool_decide_eq_true. cbn [eq_for_groupby]. by apply bool_decide_eq_true.
  - rewrite bool_decide_eq_true. split; [by intros [= -> -> ->]|by intros [= -> -> ->]].
Qed.

Lemma number_rows_comparable : comparable number_row.
Proof.
  intros r r' (v & ->) (v' & ->).
  assert (Hv : integer_eqb (integer_from_i64 v) (integer_from_i64 v') = (v =? v')).
  { unfold integer_from_i64. by destruct (Z.ltb_spec v 0), (Z.ltb_spec v' 0); cbn; try done; symmetry; apply Z.eqb_neq; lia. }
  exists (v =? v'). split.
  - apply single_column_unchanged; [cbn; by rewrite Hv|]. intros ->%Z.eqb_eq.
    cbn [eq_for_groupby]. unfold integer_from_i64. destruct (v' <? 0); cbn; apply Z.eqb_refl.
  - rewrite Z.eqb_eq. split; [by intros ->|]. intros [= He]. unfold integer_from_i64 in He.
    by destruct (v <? 0), (v' <? 0); simplify_eq.
Qed.

Lemma filtered_row_query : row_query over_five_holds over_five_field filtered item_row.
Proof.
  split; [done|]. split; [apply item_rows_comparable|]. split; [by eexists; apply filtered_reads_row|].
  exists number_row. split; [|split; [apply number_rows_comparable|done]].
  intros r r' (i & t & v & ->). unfold part_view. destruct (forallb _ _); [|done]. intros [= <-]. by exists v.
Qed.

(** Two items are in the store; the value of one rises above the filter. *)
Definition two_items : Indexes :=
  (process_source_change filtered (Insert (item "b" 2 9)) (process_source_change filtered (Insert (item "a" 1 3)) new_indexes).2).2.
Definition rise : SourceChange := Update (item "a" 3 7).
Definition rise_run := build_solution_changes filtered [] rise (from_source_change rise) two_items.
Definition no_changes : SolutionChangesResult :=
  {| changes := []; sc_anchor_element := None; sc_before_clock := None; sc_before_anchor_element := None;
     sc_is_future_reprocess := false |}.
Definition rise_changes : list (Z * QueryPartEvaluationContext) :=
  Eval vm_compute in changes (ok_or no_changes rise_run.1).

Lemma rise_changes_rows e : e ∈ changes (ok_or no_changes rise_run.1) -> rows_in item_row e.2.
Proof.
  replace (changes (ok_or no_changes rise_run.1)) with rise_changes by by_vm.
  intros ->%list_elem_of_singleton. split; intros r [= <-]; by eexists _, _, _.
Qed.

Lemma source_change_maintains_rows_witness :
  exists before after out,
    changes (ok_or no_changes rise_run.1) = pair_solutions filtered [] before after /\
    process_change filtered [] rise two_items = (Ok ([] ++ out), rise_run.2) /\
    emits out (omap (query_view over_five_holds over_five_field (parts (query filtered))) (solution_rows filtered [] before))
              (omap (query_view over_five_holds over_five_field (parts (query filtered))) (solution_rows filtered [] after)) /\
    Forall informative out.
Proof.
  apply (source_change_maintains_rows over_five_holds over_five_field item_row filtered rise [] two_items
           (ok_or no_changes rise_run.1) rise_run.2).
  - exact filtered_row_query.
  - apply surjective_pairing_eq, is_ok_eq. by_vm.
  - exact rise_changes_rows.
Defined.

(** * A transactional backend for examples

    The in-memory indexes with a session that keeps a copy of them, the
    simplest backend that honours the contract of [TransactionalSession]; a
    query whose projection fails is rolled back on it. *)

#[local] Existing Instance Sample.hashers.
#[local] Existing Instance Sample.chrono.
#[local] Existing Instance SampleOps.ops.
#[local] Existing Instance sample_heap.
#[local] Existing Instance insertion_order.

Record Copied := { current : Indexes; copy : option Indexes }.

Definition on_current {E A} (m : SM Indexes E A) : SM Copied E A := fun s =>
  let '(r, c) := m (current s) in (r, {| current := c; copy := copy s |}).

#[local] Instance copied_accumulators : AccumulatorIndex Copied := {|
  acc_get s k o := acc_get (current s) k o;
  acc_set s k o v := c ← acc_set (current s) k o v; Ok {| current := c; copy := copy s |} |}.
#[local] Instance copied_sorted_sets : LazySortedSetStore Copied := {|
  get_next s := get_next (current s);
  get_value_count s := get_value_count (current s);
  increment_value_count s id v d := on_current (fun c => increment_value_count c id v d) s |}.
#[local] Instance copied_elements : ElementIndexOps Copied := {|
  ei_get_element r := on_current (ei_get_element r);
  ei_set_element e slots := on_current (ei_set_element e slots);
  ei_delete_element r := on_current (ei_delete_element r);
  ei_slots s := ei_slots (current s) |}.
#[local] Instance copied_futures : FutureQueueOps Copied := {|
  fut_push t pos g e ot due := on_current (fut_push t pos g e ot due);
  fut_remove pos g := on_current (fut_remove pos g);
  fut_pop := on_current fut_pop;
  fut_peek_due_time := on_current fut_peek_due_time |}.
#[local] Instance copied_session : SessionControl Copied := {|
  session_begin := fun s => (Ok tt, {| current := current s; copy := Some (current s) |});
  session_commit := fun s => (Ok tt, {| current := current s; copy := None |});
  session_rollback := fun s =>
    (Ok tt, {| current := match copy s with Some c => c | None => current s end; copy := None |}) |}.

#[local] Program Instance copied_transactional : TransactionalSession Copied := {|
  View := Indexes; view := current; saved := copy |}.
Next Obligation. done. Qed.
Next Obligation. done. Qed.
Next Obligation. intros [c o] v Hv. cbn in *. by rewrite Hv. Qed.

Definition copied_aggregates : gmap string (Function (S:=Copied)) := register_all_aggregating ∅.
#[local] Instance copied_evaluator : ExpressionEvaluator Copied := expression_evaluator copied_aggregates 6.

(** MATCH (n:Item) RETURN nothing(n.v) *)
Definition unknown_function : ContinuousQuery (S:=Copied) :=
  {| match_path := match_path total;
     query := {| parts := [{| match_clauses := [match_item]; where_clauses := [];
                              return_clause := Item [FunctionExpression "nothing" [n_v] 1] |}] |};
     source_pipelines := ∅; solver_fuel := 10 |}.

Definition empty_store : Copied := {| current := new_indexes; copy := None |}.
Definition accept (l : list QueryPartEvaluationContext) : SM Copied IndexError unit := mret tt.
Definition accept_due (l : list QueryPartEvaluationContext) (source : string) : SM Copied IndexError unit := mret tt.
Definition insert_item : SourceChange := Insert (item "a" 1 5).

Lemma on_current_in_session {E A} (m : SM Indexes E A) : preserves in_session (on_current m).
Proof. intros s. unfold on_current, in_session. destruct (m (current s)). reflexivity. Qed.

Lemma copied_set s k o v s' : acc_set s k o v = Ok s' -> in_session s s'.
Proof. unfold in_session. intros [= <-]. reflexivity. Qed.

Lemma copied_store : StorePreserved (S:=Copied) in_session.
Proof. constructor; [exact copied_set|]. intros. apply (on_current_in_session _ s). Qed.

Lemma aggregates_in_session name f : copied_aggregates !! name = Some f -> function_preserved in_session f.
Proof.
  unfold copied_aggregates, register_all_aggregating, register_function. cbn [fold_left register_aggregation_functions].
  cbn. repeat (rewrite lookup_insert_Some; intros [[_ <-]|[_ Hf]]; [done|revert Hf]). by rewrite lookup_empty.
Qed.


(** The run of the example does fail, after the element has been written. *)
Example unknown_function_fails :
  is_ok (process_source_change_with_hook unknown_function insert_item accept empty_store).1 = false.
Proof. by_vm. Qed.
