(* ===== verification/ShadowFacts.v ===== *)
(** * The shadowed future queue answers as the queue it wraps

    [PeekableQueue] states what the shadow relies on: looking at the head does
    not change the queue, and a push moves the head to its due time when that
    is earlier. The in-memory queue is one ([memory_peekable]). Over such a
    queue [shadowed_queue_transparent] relates every sequence of calls to the
    calls of the bare queue. A session that is rolled back is not seen by the
    shadow: [rolled_back_push_fires_early]. *)

From S2P Require Import Prelude BTree Floats Hashing Ast Models Errors Values MatchPath Solver ElementIndex.
From S2P Require Import ResultIndex Parts FutureQueue Session ContinuousQuery IndexCache QuerySamples.

(** ** Interface *)

Definition earlier (due : ElementTimestamp) (head : option ElementTimestamp) : option ElementTimestamp :=
  match head with Some d => Some (if due <? d then due else d) | None => Some due end.

Class PeekableQueue (S : Type) `{!FutureQueueOps S} := {
  queue_ok : S -> Prop;
  head_due : S -> option ElementTimestamp;
  due_ok : ElementTimestamp -> Prop;
  peek_reads : forall s, queue_ok s -> fut_peek_due_time s = (Ok (head_due s), s);
  push_moves_head : forall s t pos g e ot due, queue_ok s -> due_ok due ->
    let '(r, s') := fut_push t pos g e ot due s in
    queue_ok s' /\ (t <> Overwrite ->
      head_due s' = match r with Ok true => earlier due (head_due s) | _ => head_due s end);
  push_panics_not : forall s t pos g e ot due, (fut_push t pos g e ot due s).1 <> Panic;
  overwrite_fails_unchanged : forall s pos g e ot due x s',
    fut_push Overwrite pos g e ot due s = (Err x, s') -> head_due s' = head_due s;
  remove_ok : forall s pos g, queue_ok s -> queue_ok (fut_remove pos g s).2;
  pop_ok : forall s, queue_ok s -> queue_ok (fut_pop s).2;
}.

(** ** Calls *)

Inductive QueueCall :=
| CallPush (t : PushType) (position : nat) (group : Z) (e : ElementReference) (original due : ElementTimestamp)
| CallRemove (position : nat) (group : Z)
| CallPop
| CallPeek.

Inductive QueueAnswer :=
| Pushed (r : outcome IndexError bool)
| Removed (r : outcome IndexError unit)
| Popped (r : outcome IndexError (option FutureElementRef))
| Peeked (r : outcome IndexError (option ElementTimestamp)).

Definition call_queue {S} `{!FutureQueueOps S} (c : QueueCall) (s : S) : QueueAnswer * S :=
  match c with
  | CallPush t pos g e ot due => let '(r, s) := fut_push t pos g e ot due s in (Pushed r, s)
  | CallRemove pos g => let '(r, s) := fut_remove pos g s in (Removed r, s)
  | CallPop => let '(r, s) := fut_pop s in (Popped r, s)
  | CallPeek => let '(r, s) := fut_peek_due_time s in (Peeked r, s)
  end.

Fixpoint call_all {S} `{!FutureQueueOps S} (cs : list QueueCall) (s : S) : list QueueAnswer * S :=
  match cs with
  | [] => ([], s)
  | c :: cs => let '(a, s) := call_queue c s in let '(l, s) := call_all cs s in (a :: l, s)
  end.

Section shadow.
Context {S : Type} `{PQ : PeekableQueue S}.

Definition call_ok (c : QueueCall) : Prop := match c with CallPush _ _ _ _ _ due => due_ok due | _ => True end.

(** The shadow knows nothing, or the due time of the head. *)
Definition shadow_agrees (q : ShadowedFutureQueue S) : Prop :=
  queue_ok (shadow_inner q) /\
  match head_shadow q with Known due => due = head_due (shadow_inner q) | Unknown => True end.

Lemma shadow_push_agrees t due (r : bool) shadow head head' :
  match shadow with Known d => d = head | Unknown => True end ->
  (t <> Overwrite -> head' = if r then earlier due head else head) ->
  match shadow_after_push t due r shadow with Known d => d = head' | Unknown => True end.
Proof.
  intros Hs Hh. unfold shadow_after_push. destruct t; cbn; [| |done]; rewrite Hh by done;
    destruct r, shadow as [[d|]|]; subst; cbn; try done; by destruct (due <? _).
Qed.

Lemma shadowed_call c q :
  shadow_agrees q -> call_ok c ->
  let '(a, q') := call_queue c q in
  call_queue c (shadow_inner q) = (a, shadow_inner q') /\ shadow_agrees q'.
Proof.
  intros [Hq Hh] Hc. destruct c as [t pos g e ot due|pos g| |]; cbn [call_queue].
  - cbn. unfold shadowed_push, shadow_call.
    pose proof (push_moves_head (shadow_inner q) t pos g e ot due Hq Hc) as Hp.
    pose proof (push_panics_not (shadow_inner q) t pos g e ot due) as Hnp.
    pose proof (overwrite_fails_unchanged (shadow_inner q) pos g e ot due) as Ho.
    destruct (fut_push t pos g e ot due (shadow_inner q)) as [[r|x|] s'] eqn:Hpush; [| |done].
    + destruct Hp as [Hok Hmove]. split; [done|]. split; [done|]. cbn.
      apply (shadow_push_agrees t due r _ (head_due (shadow_inner q))); [done|].
      intros Ht. rewrite Hmove by done. by destruct r.
    + destruct Hp as [Hok Hmove]. split; [done|]. split; [done|]. cbn. destruct (head_shadow q); [|done].
      destruct t; [by rewrite Hmove| by rewrite Hmove|]. by rewrite (Ho x s').
  - cbn. unfold shadowed_remove, shadow_call. cbn. pose proof (remove_ok (shadow_inner q) pos g Hq) as Hr.
    destruct (fut_remove pos g (shadow_inner q)) as [r s']. split; [done|]. split; [done|]. by destruct r.
  - cbn. unfold shadowed_pop, shadow_call. cbn. pose proof (pop_ok (shadow_inner q) Hq) as Hr.
    destruct (fut_pop (shadow_inner q)) as [r s']. split; [done|]. split; [done|]. by destruct r.
  - cbn. unfold shadowed_peek_due_time. destruct (head_shadow q) as [d|] eqn:Hd.
    + subst d. rewrite (peek_reads _ Hq). split; [done|]. split; [done|]. by rewrite Hd.
    + unfold shadow_call. rewrite (peek_reads _ Hq). done.
Qed.

Lemma shadowed_calls cs q :
  shadow_agrees q -> Forall call_ok cs ->
  let '(answers, q') := call_all cs q in call_all cs (shadow_inner q) = (answers, shadow_inner q').
Proof.
  revert q. induction cs as [|c cs IH]; intros q Hq Hcs; [done|]. apply Forall_cons in Hcs as [Hc Hcs]. cbn [call_all].
  pose proof (shadowed_call c q Hq Hc) as Hcall. destruct (call_queue c q) as [a q'].
  destruct Hcall as [-> Hq']. specialize (IH q' Hq' Hcs). destruct (call_all cs q'). by rewrite IH.
Qed.

(** [C37] Every sequence of pushes, removals, pops and peeks gets the same
    answers from the shadowed queue as from the queue under it, and leaves that
    queue as the same calls would have left it. *)
Theorem shadowed_queue_transparent (cs : list QueueCall) (s : S) :
  queue_ok s -> Forall call_ok cs ->
  let '(answers, q) := call_all cs (shadowed_new s) in
  call_all cs s = (answers, shadow_inner q).
Proof.
  intros Hs Hcs. by apply (shadowed_calls cs (shadowed_new s)).
Qed.
End shadow.

(** ** The in-memory queue *)

Section memory.
Context {C : Chrono} {H : Hashers} {P : PriorityQueueOps}.

Definition prioritized (q : InMemoryFutureQueue) : Prop :=
  forall k p, queue q !! k = Some p -> p = priority (due_time k.2) /\ 0 <= due_time k.2 <= i64_max.

Lemma peek_least q : prioritized q -> forall d,
  fq_peek_due_time q = Some d <->
  (exists k, k ∈ dom (queue q) /\ due_time k.2 = d) /\ forall k, k ∈ dom (queue q) -> d <= due_time k.2.
Proof.
  intros Hq. assert (Hex : forall d, fq_peek_due_time q = Some d ->
    (exists k, k ∈ dom (queue q) /\ due_time k.2 = d) /\ forall k, k ∈ dom (queue q) -> d <= due_time k.2).
  { intros d. unfold fq_peek_due_time. destruct (pq_peek (queue q)) as [[k p]|] eqn:Hpeek; [|done].
    destruct (pq_peek_max _ _ _ Hpeek) as [Hk Hmax]. destruct (Hq _ _ Hk) as [-> Hd]. intros [= <-].
    replace (priority (due_time k.2) * -1) with (- priority (due_time k.2)) by lia.
    change (as_u64 (as_i64 (- priority (due_time k.2)))) with (due_of_priority (priority (due_time k.2))).
    rewrite due_of_priority_inv by done. split; [exists k; split; [by eapply elem_of_dom_2|done]|].
    intros k' [p' Hk']%elem_of_dom. pose proof (Hmax _ _ Hk') as Hle. destruct (Hq _ _ Hk') as [-> Hd'].
    rewrite !priority_small in Hle by done. lia. }
  intros d. split; [apply Hex|]. intros ((k & Hk & <-) & Hmin).
  destruct (fq_peek_due_time q) as [d'|] eqn:Hd.
  - destruct (Hex d' eq_refl) as ((k' & Hk' & <-) & Hmin'). f_equal.
    pose proof (Hmin _ Hk'). pose proof (Hmin' _ Hk). lia.
  - unfold fq_peek_due_time in Hd. destruct (pq_peek (queue q)) as [[]|] eqn:Hpeek; [done|].
    apply pq_peek_none in Hpeek. rewrite Hpeek in Hk. set_solver.
Qed.

Lemma peek_none q : fq_peek_due_time q = None <-> queue q = ∅.
Proof.
  unfold fq_peek_due_time. destruct (pq_peek (queue q)) as [[k p]|] eqn:Hpeek.
  - destruct (pq_peek_max _ _ _ Hpeek) as [Hk _]. split; [done|]. intros He. rewrite He in Hk. by apply lookup_empty_Some in Hk.
  - split; [intros _; by apply pq_peek_none|done].
Qed.

Lemma fold_delete_sub (pos : nat) (g : Z) (l : list (ElementTimestamp * (ElementTimestamp * ElementReference))) (qu : gmap QueueKey Z) :
  fold_left (fun qu e => delete (future_key pos g e) qu) l qu ⊆ qu.
Proof.
  revert qu. induction l as [|e l IH]; intros qu; [done|]. cbn. etrans; [apply IH|]. apply delete_subseteq.
Qed.

Lemma prioritized_sub q q' : queue q' ⊆ queue q -> prioritized q -> prioritized q'.
Proof. intros Hs Hq k p Hk. apply Hq. by eapply lookup_weaken. Qed.

Lemma remove_prioritized pos g q : prioritized q -> prioritized (fq_remove pos g q).
Proof.
  apply prioritized_sub. unfold fq_remove. destruct (by_group q !! (pos, g)); [apply fold_delete_sub|done].
Qed.

Lemma pop_prioritized q : prioritized q -> prioritized (fq_pop q).2.
Proof.
  apply prioritized_sub. unfold fq_pop. destruct (pq_peek (queue q)) as [[k p]|]; [apply delete_subseteq|done].
Qed.

Lemma insert_prioritized pos g e ot due q :
  0 <= due <= i64_max -> prioritized q -> prioritized (fq_insert pos g e ot due q).
Proof.
  intros Hd Hq k p Hk. cbn [queue fq_insert] in Hk. apply lookup_insert_Some in Hk as [[<- <-]|[_ Hk]]; [done|by apply Hq].
Qed.

Lemma insert_head pos g e ot due q :
  0 <= due <= i64_max -> prioritized q ->
  fq_peek_due_time (fq_insert pos g e ot due q) = earlier due (fq_peek_due_time q).
Proof.
  intros Hd Hq. pose proof (insert_prioritized pos g e ot due q Hd Hq) as Hq'.
  assert (Hdom : dom (queue (fq_insert pos g e ot due q)) =
                 {[ future_key pos g (due, (ot, e)) ]} ∪ dom (queue q)) by apply dom_insert_L.
  destruct (fq_peek_due_time q) as [d|] eqn:Hpeek; cbn; apply peek_least; try done; rewrite Hdom.
  - apply (peek_least q Hq) in Hpeek as [(k & Hk & Hkd) Hmin]. destruct (Z.ltb_spec due d); split.
    + eexists. by split; [apply elem_of_union; left; by apply elem_of_singleton|].
    + intros k' [->%elem_of_singleton|Hk']%elem_of_union; cbn; [done|]. pose proof (Hmin _ Hk'). lia.
    + exists k. split; [set_solver|done].
    + intros k' [->%elem_of_singleton|Hk']%elem_of_union; cbn; [done|]. by apply Hmin.
  - apply peek_none in Hpeek. rewrite Hpeek, dom_empty_L. split.
    + eexists. by split; [apply elem_of_union; left; by apply elem_of_singleton|].
    + intros k' [->%elem_of_singleton|Hk']%elem_of_union; cbn; [done|]. set_solver.
Qed.

#[global] Program Instance memory_peekable : PeekableQueue Indexes := {|
  queue_ok s := prioritized (future_queue s);
  head_due s := fq_peek_due_time (future_queue s);
  due_ok due := 0 <= due <= i64_max |}.
Next Obligation. done. Qed.
Next Obligation.
  intros s t pos g e ot due Hq Hd. cbn. unfold fq_push. destruct t; cbn.
  - split; [by apply insert_prioritized|intros _; by apply insert_head].
  - destruct (match by_group (future_queue s) !! (pos, g) with Some [] | None => true | _ => false end); cbn; [|done].
    split; [by apply insert_prioritized|intros _; by apply insert_head].
  - split; [|done]. by apply insert_prioritized, remove_prioritized.
Qed.
Next Obligation. intros. cbn. by destruct (fq_push _ _ _ _ _ _ _). Qed.
Next Obligation. done. Qed.
Next Obligation. intros. by apply remove_prioritized. Qed.
Next Obligation. intros s Hq. cbn. pose proof (pop_prioritized _ Hq). by destruct (fq_pop _). Qed.
End memory.

(** ** Rolled back sessions *)

Section rollback.
Context {S : Type} `{PQ : PeekableQueue S} `{!SessionControl S} {TS : TransactionalSession S}.
Context (view_queue : forall s s', view s = view s' -> queue_ok s -> queue_ok s' /\ head_due s' = head_due s).

(** A change that pushes a future due before the head and then fails is
    rolled back by the store, but the shadow keeps the due time of the push:
    the consumer hands over at that time, when nothing is due, and the pop
    that follows takes the head before its time. *)
Theorem rolled_back_push_fires_early {E A} (from : IndexError -> E) (x : E) (s s1 s2 : S) t pos g e ot due d now :
  queue_ok s -> head_due s = Some d -> due_ok due -> t <> Overwrite -> due <= now < d ->
  session_begin s = (Ok tt, s1) -> fut_push t pos g e ot due s1 = (Ok true, s2) -> saved s2 = saved s1 ->
  let change : SM (ShadowedFutureQueue S) E A :=
    _ ← sm_map_err from (fut_push t pos g e ot due); sm_err x in
  let '(r, q) := with_guard from change {| shadow_inner := s; head_shadow := Known (Some d) |} in
  r = Err x /\ (consumer_turn now q).1 = Delegate /\ (consumer_turn now (shadow_inner q)).1 = SleepIdle /\
  view (shadow_inner q) = view s.
Proof.
  intros Hq Hd Hdue Ht Hnow Hb Hp Hs change.
  pose proof (begin_saves s) as Hbs. rewrite Hb in Hbs. destruct Hbs as [Hsv Hv1].
  rewrite <- Hs in Hsv. pose proof (rollback_restores s2 _ Hsv) as Hr.
  set (s3 := (session_rollback s2).2) in *. destruct (view_queue s s3) as [Hq3 Hd3]; [congruence|done|].
  assert (Hrun : with_guard from change {| shadow_inner := s; head_shadow := Known (Some d) |} =
    (Err x, {| shadow_inner := s3; head_shadow := Known (Some due) |})).
  { unfold with_guard, change, drop_guard, mbind, SM_bind, sm_map_err. cbn. unfold shadow_call. cbn.
    rewrite Hb. cbn. unfold shadowed_push, shadow_call. cbn. rewrite Hp. cbn. unfold sm_err.
    assert (Hsh : shadow_after_push t due true (Known (Some d)) = Known (Some due)).
    { unfold shadow_after_push. destruct t; cbn; [| |done]; by rewrite (proj2 (Z.ltb_lt due d)) by lia. }
    rewrite Hsh. cbn. unfold s3. by destruct (session_rollback s2) as [[] ?]. }
  rewrite Hrun. split; [done|]. split_and!; [| |done].
  - unfold consumer_turn. cbn. by rewrite (proj2 (Z.ltb_ge now due)) by lia.
  - unfold consumer_turn. cbn [shadow_inner]. rewrite (peek_reads _ Hq3), Hd3, Hd. by rewrite (proj2 (Z.ltb_lt now d)) by lia.
Qed.
End rollback.

(** ** Concrete runs *)

Module ShadowExample.
#[local] Existing Instance Sample.hashers.
#[local] Existing Instance Sample.chrono.
#[local] Existing Instance sample_heap.
#[local] Existing Instances copied_futures copied_session copied_transactional.

(** The copying store's queue is the queue of its current indexes. *)
#[local] Program Instance copied_peekable : PeekableQueue Copied := {|
  queue_ok s := prioritized (future_queue (current s));
  head_due s := fq_peek_due_time (future_queue (current s));
  due_ok due := 0 <= due <= i64_max |}.
Next Obligation. by intros []. Qed.
Next Obligation.
  intros s t pos g e ot due Hq Hd. pose proof (push_moves_head (current s) t pos g e ot due Hq Hd) as Hp.
  cbn in Hp |- *. unfold on_current. cbn. by destruct (fq_push _ _ _ _ _ _ _).
Qed.
Next Obligation. intros. cbn. unfold on_current. cbn. by destruct (fq_push _ _ _ _ _ _ _). Qed.
Next Obligation. done. Qed.
Next Obligation. intros. cbn. by apply remove_prioritized. Qed.
Next Obligation.
  intros s Hq. cbn. unfold on_current. cbn. pose proof (pop_prioritized _ Hq). by destruct (fq_pop _).
Qed.

Definition e1 : ElementReference := {| source_id := "s"; element_id := "1" |}.

(** one future, due at 100 *)
Definition waiting : InMemoryFutureQueue := fq_insert 7 42 e1 10 100 new_future_queue.
Definition at_rest : Copied := {| current := with_future_queue waiting new_indexes; copy := None |}.
Definition in_change : Copied :=
  {| current := with_future_queue waiting new_indexes; copy := Some (with_future_queue waiting new_indexes) |}.
Definition pushed : Copied :=
  {| current := with_future_queue (fq_insert 7 43 e1 20 50 waiting) new_indexes; copy := copy in_change |}.

Lemma waiting_prioritized : prioritized waiting.
Proof.
  intros k p Hk. cbn [queue fq_insert waiting new_future_queue] in Hk.
  apply lookup_insert_Some in Hk as [[<- <-]|[_ Hk]]; [|by rewrite lookup_empty in Hk].
  split; [done|]. cbn. unfold i64_max. lia.
Qed.

Lemma waiting_head : fq_peek_due_time waiting = Some 100.
Proof. by_vm. Qed.

(** A change that pushes a future due at 50 and fails: at time 60 the consumer
    hands over, though the only future left is due at 100. *)
Lemma rolled_back_push_fires_early_witness :
  let change : SM (ShadowedFutureQueue Copied) IndexError unit :=
    _ ← sm_map_err id (fut_push Always 7 43 e1 20 50); sm_err IOError in
  let '(r, q) := with_guard id change {| shadow_inner := at_rest; head_shadow := Known (Some 100) |} in
  r = Err IOError /\ (consumer_turn 60 q).1 = Delegate /\ (consumer_turn 60 (shadow_inner q)).1 = SleepIdle /\
  view (shadow_inner q) = view at_rest.
Proof.
  apply (rolled_back_push_fires_early (S:=Copied)) with (s1 := in_change) (s2 := pushed) (d := 100).
  - intros s s' Hv Hq. cbn in *. by rewrite <- Hv.
  - exact waiting_prioritized.
  - exact waiting_head.
  - cbn. unfold i64_max. lia.
  - done.
  - lia.
  - reflexivity.
  - reflexivity.
  - reflexivity.
Defined.

Definition busy : list QueueCall :=
  [CallPush Always 7 42 e1 10 100; CallPeek; CallPush IfNotExists 7 42 e1 20 50; CallPeek;
   CallPush Overwrite 7 42 e1 20 50; CallPeek; CallPop; CallPeek].

Lemma shadowed_queue_transparent_witness :
  let '(answers, q) := call_all busy (shadowed_new new_indexes) in
  call_all busy new_indexes = (answers, shadow_inner q) /\
  answers = [Pushed (Ok true); Peeked (Ok (Some 100)); Pushed (Ok false); Peeked (Ok (Some 100));
             Pushed (Ok true); Peeked (Ok (Some 50)); Popped (Ok (Some {| element_ref := e1; original_time := 20;
             due_time := 50; group_signature := 42 |})); Peeked (Ok None)].
Proof.
  pose proof (shadowed_queue_transparent busy new_indexes) as Ht.
  destruct (call_all busy (shadowed_new new_indexes)) as [answers q] eqn:Hrun. split.
  - apply Ht.
    + intros k p Hk. cbn [future_queue queue new_indexes new_future_queue] in Hk. by rewrite lookup_empty in Hk.
    + repeat constructor; cbn; unfold i64_max; lia.
  - assert (Ha : answers = (call_all busy (shadowed_new new_indexes)).1) by by rewrite Hrun.
    rewrite Ha. by_vm.
Defined.
End ShadowExample.
