(* ===== verification/CacheSamples.v ===== *)
(** * The caches on concrete inputs

    The theorems of [IndexCacheFacts] applied to the in-memory indexes, and to
    the copying store of [QuerySamples] for a change that is rolled back. *)

From S2P Require Import Prelude BTree Floats Hashing Ast Models Errors Values ChronoOps Temporal Operators MatchPath.
From S2P Require Import Solver ElementIndex ElementIndexFacts ResultIndex LazySortedSet Aggregation Contexts.
From S2P Require Import AggregateFacts Parts Expressions FutureQueue Session GraphStore ContinuousQuery IndexCache.
From S2P Require Import IndexCacheFacts QuerySamples.

#[local] Existing Instance Sample.hashers.
#[local] Existing Instance Sample.chrono.
#[local] Existing Instance SampleOps.ops.
#[local] Existing Instance sample_heap.
#[local] Existing Instance insertion_order.
#[local] Existing Instances copied_elements copied_session copied_transactional.

(** With room for three keys, two others do not evict the one that was read. *)
Lemma lru_keeps_recent_witness :
  lru_map (lru_runs [OpPut 2 20; OpGet 1; OpPut 3 30; OpRemove 2; OpPut 2 21] (lru_put 1 10 (lru_new 3))) !! 1 = Some 10.
Proof.
  apply lru_keeps_recent; [apply lru_new_ok|by repeat constructor|].
  vm_compute. lia.
Defined.

(** ** Counts *)

Definition three : OrderedFloat := {| of_f64 := f64_of_Z 3 |}.
Definition counted : InMemoryResultIndex := (mem_increment_value_count new_result_index 7 three 2).2.

Lemma counted_inv : mem_inv counted /\ mem_counts counted 7 three = 2.
Proof.
  destruct (mem_increment_ok new_result_index 7 three 2) as (s' & Hr & Hi & Hc).
  - exact new_result_index_inv.
  - by split.
  - unfold counted. rewrite Hr. cbn [snd]. split; [exact Hi|]. rewrite Hc, cmp_refl. reflexivity.
Qed.

Lemma fresh_counts_agree : counts_agree (cached_results_new counted 10).
Proof.
  split_and!; [apply counted_inv|apply lru_new_ok|]. intros id v n Hl.
  unfold cached_results_new, lru_new in Hl. cbn [set_count_cache lru_map] in Hl. by apply lookup_empty_Some in Hl.
Qed.

(** The value 3 is counted twice when a query starts with an empty cache; one
    more insertion, and the cache answers 1. *)
Lemma missed_increment_corrupts_count_witness :
  let c' := (cached_increment_value_count 7 three 1 (cached_results_new counted 10)).2 in
  (cached_get_value_count 7 three c').1 = Ok 1 /\
  get_value_count (results_inner c') 7 three = Ok (mem_counts counted 7 three + 1) /\ mem_counts counted 7 three = 2.
Proof.
  destruct counted_inv as [_ Hc].
  destruct (missed_increment_corrupts_count 7 three 1 (cached_results_new counted 10)) as [H1 H2].
  - exact fresh_counts_agree.
  - apply lookup_empty.
  - change (0 <= mem_counts counted 7 three + 1 <= i64_max). rewrite Hc. unfold i64_max. lia.
  - split; [exact H1|]. split; [exact H2|exact Hc].
Defined.

(** ** Elements *)

Lemma new_indexes_sound : store_sound (S:=Indexes) new_indexes.
Proof. split; [by apply empty_coherent|done]. Qed.

(** A relation is listed twice, the second time from the caches, between two
    writes of its node; the cache has room for one entry of each kind. *)
Definition owns (t : Z) : Element :=
  Relation {| reference := item_ref "r"; labels := ["OWNS"%string]; effective_from := t |} (item_ref "a") (item_ref "b") [].

Definition looking : list ElementCall :=
  [SetElement (item "a" 1 5) [0%nat]; SetElement (owns 1) [1%nat]; SlotByInbound 1 (item_ref "a"); SlotByInbound 1 (item_ref "a");
   SlotByRef 0 (item_ref "a"); SlotByRef 0 (item_ref "a"); SlotByRef 1 (item_ref "a"); SetElement (item "a" 2 6) [1%nat];
   SlotByRef 0 (item_ref "a"); GetElement (item_ref "a"); DeleteElement (item_ref "r"); SlotByOutbound 1 (item_ref "b")].


#[local] Program Instance copied_graph_store : GraphStore Copied := {|
  graph s := elements_ (element_index (current s));
  slots_of s := affinity_of (element_index (current s));
  store_sound s := joinless (element_index (current s)) |}.
Next Obligation. intros s Hs. exact (@gs_ref _ _ Indexes _ in_memory_graph_store (current s) Hs). Qed.
Next Obligation. by intros []. Qed.
Next Obligation. intros s Hs. exact (@gs_reads _ _ Indexes _ in_memory_graph_store (current s) Hs). Qed.
Next Obligation.
  intros s e slots Hs. destruct (@gs_set _ _ Indexes _ in_memory_graph_store (current s) e slots Hs) as (c & Hc & Hrest).
  exists {| current := c; copy := copy s |}. split; [|exact Hrest].
  change (on_current (ei_set_element e slots) s = (Ok tt, {| current := c; copy := copy s |})).
  unfold on_current. by rewrite Hc.
Qed.
Next Obligation.
  intros s r Hs. destruct (@gs_delete _ _ Indexes _ in_memory_graph_store (current s) r Hs) as (c & Hc & Hrest).
  exists {| current := c; copy := copy s |}. split; [|exact Hrest].
  change (on_current (ei_delete_element r) s = (Ok tt, {| current := c; copy := copy s |})).
  unfold on_current. by rewrite Hc.
Qed.

Definition begun : Copied := {| current := new_indexes; copy := Some new_indexes |}.
Definition inserted : Copied := (ei_set_element (item "a" 1 5) [0%nat] begun).2.

Lemma rolled_back_insert_stays_cached_witness :
  let change : SM (CachedElementIndex Copied) IndexError unit :=
    _ ← sm_map_err id (cached_set_element (item "a" 1 5) [0%nat]); sm_err IOError in
  let '(r, c') := with_guard id change (cached_elements_new empty_store 10) in
  r = Err IOError /\ (cached_get_element (item_ref "a") c').1 = Ok (Some (item "a" 1 5)) /\
  (ei_get_element (item_ref "a") (elements_inner c')).1 = Ok None.
Proof.
  apply (rolled_back_insert_stays_cached (S:=Copied)) with (s1 := begun) (s2 := inserted).
  - intros s s' Hv Hs. cbn in *. by rewrite <- Hv.
  - exact new_indexes_sound.
  - apply lookup_empty.
  - reflexivity.
  - reflexivity.
  - reflexivity.
Defined.
