(* ===== verification/IncrementalSamples.v ===== *)
(** * A pattern of two hops of the graph, evaluated incrementally

    MATCH (a:Item)-[r:OWNS]->(b:Item) WHERE b.v > 5 RETURN b.v AS w, on the
    in-memory backend: [incremental_is_naive_evaluation] applied to a sequence
    of insertions, an update and a deletion. *)

From S2P Require Import Prelude BTree Floats Hashing Ast Models Errors Values ChronoOps Temporal Operators MatchPath.
From S2P Require Import Solver SolverFacts SolverComplete NaiveQuery SolverMatches ElementIndex ElementIndexFacts.
From S2P Require Import ResultIndex LazySortedSet Aggregation Contexts AggregateFacts Parts PartsFacts Expressions.
From S2P Require Import FutureQueue Session GraphStore ContinuousQuery RowQueryFacts Incremental QuerySamples.

(** ** Recognising tree patterns *)

Definition tree_check (mp : MatchPath) (a : nat) (parent depth : nat -> nat) : bool :=
  let k := length (slots mp) in
  Nat.ltb a k &&
  forallb (fun e => let n := e.1 in
    Nat.eqb n a ||
    (Nat.ltb (parent n) k && Nat.ltb (depth (parent n)) (depth n) &&
     match slots mp !! parent n with Some sp => contains n (out_slots sp ++ in_slots sp) | None => false end))
    (enumerate (slots mp)) &&
  forallb (fun e => let p := e.1 in
    forallb (fun n => (negb (Nat.eqb n a) && Nat.eqb (parent n) p) || (negb (Nat.eqb p a) && Nat.eqb (parent p) n))
      (out_slots e.2 ++ in_slots e.2) &&
    bool_decide (NoDup (out_slots e.2 ++ in_slots e.2))) (enumerate (slots mp)).

Lemma forallb_enumerate {A} (f : nat * A -> bool) l i x : forallb f (enumerate l) = true -> l !! i = Some x -> f (i, x) = true.
Proof. rewrite forallb_forall. intros Hf Hx. by apply Hf, list_elem_of_In, elem_of_enumerate. Qed.

Lemma tree_check_ok mp a parent depth : tree_check mp a parent depth = true -> tree mp a parent depth.
Proof.
  unfold tree_check. intros [[Ha%Nat.ltb_lt Hn]%andb_prop He]%andb_prop. split.
  - done.
  - intros n Hlt Hna. destruct (lookup_lt_is_Some_2 _ _ Hlt) as [s Hs].
    pose proof (forallb_enumerate _ _ _ _ Hn Hs) as Hc. cbn in Hc.
    rewrite (proj2 (Nat.eqb_neq n a) Hna) in Hc. cbn in Hc.
    apply andb_prop in Hc as [[?%Nat.ltb_lt ?%Nat.ltb_lt]%andb_prop Hm]. split_and!; [done|done|].
    destruct (slots mp !! parent n) as [sp|]; [|done]. exists sp. split; [done|]. by apply contains_spec.
  - intros p sp n Hp Hin. pose proof (forallb_enumerate _ _ _ _ He Hp) as [Hc _]%andb_prop. cbn in Hc.
    rewrite forallb_forall in Hc. apply list_elem_of_In, Hc in Hin.
    apply orb_prop in Hin as [[?%negb_true_iff%Nat.eqb_neq ?%Nat.eqb_eq]%andb_prop|[?%negb_true_iff%Nat.eqb_neq ?%Nat.eqb_eq]%andb_prop]; auto.
  - intros p sp Hp. pose proof (forallb_enumerate _ _ _ _ He Hp) as [_ Hd]%andb_prop. by apply bool_decide_eq_true in Hd.
Qed.

(** The slots of a path, seen from slot [a]. *)
Definition path_parent (a n : nat) : nat := if Nat.ltb n a then S n else pred n.
Definition path_depth (a n : nat) : nat := if Nat.ltb n a then a - n else n - a.

Definition edges_check (l : list MatchPathSlot) : bool :=
  forallb (fun e => forallb (fun j => match l !! j with Some t => contains e.1 (in_slots t) | None => false end) (out_slots e.2) &&
    forallb (fun i => match l !! i with Some t => contains e.1 (out_slots t) | None => false end) (in_slots e.2)) (enumerate l).

Lemma edges_check_ok l : edges_check l = true -> edges_ok l.
Proof.
  intros Hl i j. split; intros (s & Hs & Hin%list_elem_of_In);
    pose proof (forallb_enumerate _ _ _ _ Hl Hs) as [Ho Hi]%andb_prop; rewrite forallb_forall in Ho, Hi.
  - specialize (Ho _ Hin). cbn in Ho. destruct (l !! j) as [t|] eqn:Ht; [|done]. exists t. split; [done|]. by apply contains_spec.
  - specialize (Hi _ Hin). cbn in Hi. destruct (l !! i) as [t|] eqn:Ht; [|done]. exists t. split; [done|]. by apply contains_spec.
Qed.

Lemma path_pattern mp :
  forallb (fun e => tree_check mp e.1 (path_parent e.1) (path_depth e.1)) (enumerate (slots mp)) = true ->
  edges_check (slots mp) = true -> forallb (fun s => negb (optional s)) (slots mp) = true -> tree_pattern mp.
Proof.
  intros Ht He Ho. split.
  - intros a Ha. destruct (lookup_lt_is_Some_2 _ _ Ha) as [s Hs].
    exists (path_parent a), (path_depth a). by apply tree_check_ok, (forallb_enumerate _ _ _ _ Ht Hs).
  - by apply edges_check_ok.
  - intros n s Hs. rewrite forallb_forall in Ho. apply negb_true_iff, Ho, list_elem_of_In. by eapply list_elem_of_lookup_2.
Qed.

Section samples.
#[local] Existing Instance Sample.hashers.
#[local] Existing Instance Sample.chrono.
#[local] Existing Instance SampleOps.ops.
#[local] Existing Instance sample_heap.
#[local] Existing Instance insertion_order.
#[local] Existing Instance no_session.
#[local] Existing Instance evaluator.

(** ** The query *)

Definition annotated (name : string) : Annotation := {| annotation_name := Some name |}.
Definition item_node (name : string) : NodeMatch :=
  {| node_annotation := annotated name; node_labels := ["Item"%string]; node_property_predicates := [] |}.
Definition owns_relation : RelationMatch :=
  {| rel_direction := Right; rel_annotation := annotated "r"; rel_labels := ["OWNS"%string];
     rel_property_predicates := []; rel_variable_length := None |}.
Definition match_owns : MatchClause :=
  {| mc_start := item_node "a"; mc_path := [(owns_relation, item_node "b")]; mc_optional := false |}.
Definition b_v : Expression := Unary (Property "b" "v").
Definition owned_part : QueryPart :=
  {| match_clauses := [match_owns]; where_clauses := [Binary Gt_ b_v (Unary (Lit (LInteger 5)))];
     return_clause := Item [Unary (Alias b_v "w")] |}.
Definition owned : ContinuousQuery (S:=Indexes) := query_of owned_part [].

Lemma owned_pattern : tree_pattern (match_path owned).
Proof. apply path_pattern; by_vm. Qed.

(** An item is recognised by its label, and so is an ownership. *)
Definition owned_test (n : nat) (e : Element) : bool :=
  match slots (match_path owned) !! n with
  | Some slot => label_match (spec_labels (spec slot)) (labels (get_metadata e))
  | None => false
  end.

(** Slots without predicates look at the labels only. *)
Lemma static_labels {known} n slot e clock (s : Indexes) :
  slots (match_path owned) !! n = Some slot -> known e ->
  match_element_to_slot [] clock (spec slot) e s = (Ok (owned_test n e), s).
Proof.
  intros Hs _. unfold owned_test. rewrite Hs. unfold match_element_to_slot.
  assert (Hp : predicates (spec slot) = []).
  { destruct n as [|[|[|n]]]; [by injection Hs as <-..|done]. }
  rewrite Hp. by destruct (label_match _ _).
Qed.

Definition owns_metadata (i : string) (t : Z) : ElementMetadata :=
  {| reference := item_ref i; labels := ["OWNS"%string]; effective_from := t |}.
Definition owns (i : string) (t : Z) (a b : string) : Element := Relation (owns_metadata i t) (item_ref a) (item_ref b) [].

Definition known_element (e : Element) : Prop :=
  (exists i t v, e = item i t v) \/ (exists i t a b, e = owns i t a b).

(** ** Its rows *)

Definition owned_row (row : QueryVariables) : Prop := exists i t v i' t' v' j u x y,
  row = [("a", VElement (item i t v)); ("b", VElement (item i' t' v')); ("r", VElement (owns j u x y))]%string.
Definition b_number (row : QueryVariables) : VariableValue :=
  match bt_get "b"%string row with Some (VElement e) => element_property e "v" | _ => VNull end.
Definition owned_holds (row : QueryVariables) (_ : Expression) : bool :=
  match b_number row with VInteger n => cmp_holds OpGt (int_or_zero n ?= 5) | _ => false end.
Definition owned_field (row : QueryVariables) (_ : Expression) : string * VariableValue := ("w"%string, b_number row).

Lemma owned_reads_row : reads_row owned_row owned_holds owned_field owned_part [Unary (Alias b_v "w")].
Proof.
  split_and!; [done| |].
  - intros e ->%list_elem_of_singleton ctx s (i & t & v & i' & t' & v' & j & u & x & y & Hrow).
    unfold evaluate_predicate, evaluator, expression_evaluator, predicate_of, owned_holds, b_number.
    rewrite Hrow. cbn -[integer_from_i64]. unfold get_variable. rewrite Hrow. reflexivity.
  - intros e ->%list_elem_of_singleton ctx s (i & t & v & i' & t' & v' & j & u & x & y & Hrow).
    unfold evaluate_projection_field, evaluator, expression_evaluator, owned_field, b_number.
    rewrite Hrow. cbn -[integer_from_i64]. unfold get_variable. rewrite Hrow. reflexivity.
Qed.
Lemma element_eqb_owns i t a b i' t' a' b' :
  element_eqb (owns i t a b) (owns i' t' a' b') = bool_decide ((i, t, a, b) = (i', t', a', b')).
Proof.
  unfold owns at 1 2. cbn [element_eqb]. unfold owns_metadata, item_ref, property_map_eqb. cbn [list_eqb].
  rewrite andb_true_r. apply eq_true_iff_eq. rewrite !andb_true_iff, !bool_decide_eq_true. naive_solver.
Qed.

(** Three columns, compared. *)
Lemma three_columns_unchanged x y z (a b c a' b' c' : VariableValue) u1 u2 u3 :
  value_eq a a' = Some u1 -> value_eq b b' = Some u2 -> value_eq c c' = Some u3 ->
  (u1 && u2 && u3 = true -> eq_for_groupby a a' && eq_for_groupby b b' && eq_for_groupby c c' = true) ->
  query_variables_unchanged (E:=EvaluationError) [(x, a); (y, b); (z, c)] [(x, a'); (y, b'); (z, c')] = Ok (u1 && u2 && u3).
Proof.
  intros H1 H2 H3 Hg. unfold query_variables_unchanged, variables_eq, vec_eq. cbn [length Nat.eqb fst snd].
  rewrite !String.eqb_refl, H1, H2, H3. destruct u1, u2, u3; cbn; try done.
  rewrite andb_true_r, andb_assoc. by rewrite Hg.
Qed.

Lemma owned_rows_comparable : comparable owned_row.
Proof.
  intros r r' (i & t & v & i2 & t2 & v2 & j & u & x & y & ->) (i' & t' & v' & i2' & t2' & v2' & j' & u' & x' & y' & ->).
  eexists. split.
  - apply three_columns_unchanged; [cbn [value_eq]; by rewrite ?element_eqb_item, ?element_eqb_owns..|].
    rewrite !andb_true_iff, !bool_decide_eq_true. intros [[[= -> -> ->] [= -> -> ->]] [= -> -> -> ->]].
    cbn [eq_for_groupby]. by rewrite !bool_decide_eq_true_2.
  - rewrite !andb_true_iff, !bool_decide_eq_true. split; [by intros [[[= -> -> ->] [= -> -> ->]] [= -> -> -> ->]]|].
    by intros [= -> -> -> -> -> -> -> -> -> ->].
Qed.

Lemma owned_row_query : row_query owned_holds owned_field owned owned_row.
Proof.
  split; [done|]. split; [apply owned_rows_comparable|]. split; [by eexists; apply owned_reads_row|].
  exists number_row. split; [|split; [apply number_rows_comparable|done]].
  intros r r' (i & t & v & i2 & t2 & v2 & j & u & x & y & ->). unfold part_view. destruct (forallb _ _); [|done].
  intros [= <-]. by exists v2.
Qed.

(** The matches of a graph of items and ownerships give such rows. *)
Lemma owned_match_row (G : Graph) m :
  (forall r e, G !! r = Some e -> known_element e) -> is_match (match_path owned) owned_test G m ->
  owned_row (match_row (match_path owned) m).
Proof.
  intros HG [Hl Hs _]. destruct m as [|x [|y [|z [|]]]]; try done.
  destruct (Hs 0%nat x eq_refl) as [Hx%HG Tx], (Hs 1%nat y eq_refl) as [Hy%HG Ty], (Hs 2%nat z eq_refl) as [Hz%HG Tz].
  destruct Hx as [(i & t & v & ->)|(i & t & a & b & ->)]; [|done].
  destruct Hy as [(j & u & w & ->)|(j & u & a & b & ->)]; [done|].
  destruct Hz as [(i' & t' & v' & ->)|(i' & t' & a' & b' & ->)]; [|done].
  by exists i, t, v, i', t', v', j, u, a, b.
Qed.

(** ** Readable graphs, decided *)

Definition signatures_check (G : Graph) : bool :=
  bool_decide (NoDup (map (NaiveQuery.signature (match_path owned)) (naive_matches (match_path owned) owned_test G))).

Lemma NoDup_map_inj {A B} (f : A -> B) l x y : NoDup (map f l) -> x ∈ l -> y ∈ l -> f x = f y -> x = y.
Proof.
  intros Hnd [i Hi]%list_elem_of_lookup [j Hj]%list_elem_of_lookup He.
  assert (i = j) as ->; [|congruence]. apply (NoDup_lookup (map f l) i j (f x) Hnd).
  - by rewrite list_lookup_fmap, Hi.
  - rewrite list_lookup_fmap, Hj. cbn. by rewrite He.
Qed.

Lemma owned_readable (G : Graph) :
  graph_ok G -> (forall r e, G !! r = Some e -> known_element e) -> signatures_check G = true ->
  readable owned owned_test owned_row G.
Proof.
  intros HG Hk Hsig%bool_decide_eq_true. split.
  - intros m m' Hm Hm' He. by apply (NoDup_map_inj _ _ _ _ Hsig); [apply elem_of_naive_matches..|].
  - intros m Hm. apply elem_of_naive_matches in Hm; [|done]. by apply (owned_match_row G).
Qed.

Definition known_graph (G : Graph) : Prop := graph_ok G /\ forall r e, G !! r = Some e -> known_element e.

Lemma known_empty : known_graph ∅.
Proof. split; intros r e; by rewrite lookup_empty. Qed.
Lemma known_insert G e : known_graph G -> known_element e -> known_graph (<[get_reference e := e]> G).
Proof.
  intros [H1 H2] He. split; intros r x [[<- <-]|[_ Hx]]%lookup_insert_Some; eauto.
Qed.
Lemma known_delete G r : known_graph G -> known_graph (delete r G).
Proof. intros [H1 H2]. split; intros r' x [_ Hx]%lookup_delete_Some; eauto. Qed.

Lemma known_item i t v : known_element (item i t v).
Proof. left. eauto. Qed.
Lemma known_owns i t a b : known_element (owns i t a b).
Proof. right. eauto 10. Qed.
(** ** A run *)

Definition owned_changes : list SourceChange :=
  [Insert (item "a" 1 3); Insert (item "b" 2 4); Insert (owns "r" 3 "a" "b"); Update (item "b" 4 9); Delete (owns_metadata "r" 5)].

Lemma owned_run : admissible_run owned owned_test known_element owned_row ∅ owned_changes.
Proof.
  set (g1 := <[item_ref "a" := item "a" 1 3]> (∅ : Graph)). set (g2 := <[item_ref "b" := item "b" 2 4]> g1).
  set (g3 := <[item_ref "r" := owns "r" 3 "a" "b"]> g2). set (g4 := <[item_ref "b" := item "b" 4 9]> g3).
  assert (H1 : known_graph g1) by (apply known_insert; [apply known_empty|apply known_item]).
  assert (H2 : known_graph g2) by (apply known_insert; [done|apply known_item]).
  assert (H3 : known_graph g3) by (apply known_insert; [done|apply known_owns]).
  assert (H4 : known_graph g4) by (apply known_insert; [done|apply known_item]).
  assert (Hu : apply_change g3 (Update (item "b" 4 9)) = g4) by by_vm.
  split; [apply owned_readable; [apply known_empty..|by_vm]|]. split; [by split; [by_vm|apply known_item]|].
  change (apply_change ∅ _) with g1. split; [apply owned_readable; [apply H1..|by_vm]|].
  split; [by split; [by_vm|apply known_item]|].
  change (apply_change g1 _) with g2. split; [apply owned_readable; [apply H2..|by_vm]|].
  split; [by split; [by_vm|apply known_owns]|].
  change (apply_change g2 _) with g3. split; [apply owned_readable; [apply H3..|by_vm]|]. split.
  { exists (item "b" 4 9). split; [by_vm|apply known_item]. }
  fold (admissible_run owned owned_test known_element owned_row).
  rewrite Hu. split; [apply owned_readable; [apply H4..|by_vm]|]. split; [done|].
  change (apply_change g4 _) with (delete (item_ref "r") g4).
  split; [|done]. apply owned_readable; [by apply known_delete..|by_vm].
Qed.

Lemma empty_tracks : tracks owned owned_test known_element new_indexes.
Proof.
  split.
  - split; [|done]. split.
    + intros r e; cbn; by rewrite lookup_empty.
    + done.
    + intros st n r. cbn. split; [set_solver|]. by intros (_ & e & He & _); rewrite lookup_empty in He.
    + intros st n r. unfold members. cbn. rewrite lookup_empty. split; [set_solver|]. by intros (_ & e & He & _); rewrite lookup_empty in He.
    + intros st n r. unfold members. cbn. rewrite lookup_empty. split; [set_solver|]. by intros (_ & e & He & _); rewrite lookup_empty in He.
    + split; intros k; cbn; by rewrite lookup_empty.
  - intros r e; cbn; by rewrite lookup_empty.
  - intros r e n; cbn; by rewrite lookup_empty.
Qed.

End samples.
