(* ===== verification/QueryOutput.v ===== *)
(** * The output of a query (lib/src/queries/output_state.rs,
      lib/src/channels/events.rs)

    A running query keeps its live rows, the sequence number of its last
    emission and a bounded outbox of recent emissions. The rows are JSON
    values and an emission carries metadata (timestamp, labels, profiling):
    both types belong to other crates and are parameters. Sequence numbers are
    64-bit and saturate. *)

From stdpp Require Import sorting.
From S2P Require Import Prelude.

Class Payload := { Json : Type; ResultMeta : Type }.

(** ** Emissions *)

Section types.
Context {P : Payload}.

Inductive ResultDiff :=
| Add (data : Json) (row_signature : Z)
| DiffDelete (data : Json) (row_signature : Z)
| DiffUpdate (data before after : Json) (grouping_keys : option (list string)) (row_signature : Z)
| DiffAggregation (before : option Json) (after : Json) (row_signature : Z)
| DiffNoop.

Record QueryResult := {
  qr_query_id : string;
  qr_sequence : Z;
  qr_results : list ResultDiff;
  qr_meta : ResultMeta;
}.

Definition with_sequence (sequence : Z) (r : QueryResult) : QueryResult :=
  {| qr_query_id := qr_query_id r; qr_sequence := sequence; qr_results := qr_results r; qr_meta := qr_meta r |}.
End types.

(** [u64::saturating_add], [usize::clamp] *)
Definition saturating_add (a b : Z) : Z := Z.min u64_max (a + b).
Definition saturating_sub (a b : Z) : Z := Z.max 0 (a - b).

Definition DEFAULT_OUTBOX_CAPACITY : Z := 1000.
Definition MAX_OUTBOX_CAPACITY : Z := 1000000.

(** ** The state *)

Section output_state.
Context {P : Payload}.

Record QueryOutputState := {
  results : gmap Z Json;
  as_of_sequence : Z;
  outbox : list QueryResult;
  outbox_capacity : Z;
  initialized : bool;
  generation : Z;
}.

Definition new_output_state (capacity : Z) : QueryOutputState :=
  {| results := ∅; as_of_sequence := 0; outbox := [];
     outbox_capacity := Z.max 1 (Z.min capacity MAX_OUTBOX_CAPACITY); initialized := false; generation := 0 |}.

Definition with_results (r : gmap Z Json) (st : QueryOutputState) : QueryOutputState :=
  {| results := r; as_of_sequence := as_of_sequence st; outbox := outbox st;
     outbox_capacity := outbox_capacity st; initialized := initialized st; generation := generation st |}.
Definition with_as_of (s : Z) (st : QueryOutputState) : QueryOutputState :=
  {| results := results st; as_of_sequence := s; outbox := outbox st;
     outbox_capacity := outbox_capacity st; initialized := initialized st; generation := generation st |}.
Definition with_outbox (o : list QueryResult) (st : QueryOutputState) : QueryOutputState :=
  {| results := results st; as_of_sequence := as_of_sequence st; outbox := o;
     outbox_capacity := outbox_capacity st; initialized := initialized st; generation := generation st |}.
Definition with_generation (i : bool) (g : Z) (st : QueryOutputState) : QueryOutputState :=
  {| results := results st; as_of_sequence := as_of_sequence st; outbox := outbox st;
     outbox_capacity := outbox_capacity st; initialized := i; generation := g |}.

Definition apply_diff (rows : gmap Z Json) (diff : ResultDiff) : gmap Z Json :=
  match diff with
  | Add data row_signature => <[row_signature := data]> rows
  | DiffDelete _ row_signature => delete row_signature rows
  | DiffUpdate _ _ after _ row_signature => <[row_signature := after]> rows
  | DiffAggregation _ after row_signature => <[row_signature := after]> rows
  | DiffNoop => rows
  end.

Definition apply_diffs (diffs : list ResultDiff) (st : QueryOutputState) : QueryOutputState :=
  with_results (fold_left apply_diff diffs (results st)) st.

(** [VecDeque::pop_front], [push_back] *)
Definition push_outbox (r : QueryResult) (st : QueryOutputState) : QueryOutputState :=
  with_outbox ((if outbox_capacity st <=? Z.of_nat (length (outbox st)) then tail (outbox st) else outbox st) ++ [r]) st.

Definition advance_sequence_and_push (result : QueryResult) (st : QueryOutputState) : QueryResult * QueryOutputState :=
  let st := with_as_of (saturating_add (as_of_sequence st) 1) st in
  let result := with_sequence (as_of_sequence st) result in
  (result, push_outbox result st).

(** A sequence other than the next one is only logged. *)
Definition apply_committed_sequence (sequence : Z) (diffs : list ResultDiff) (result : QueryResult)
    (st : QueryOutputState) : QueryResult * QueryOutputState :=
  let st := with_as_of sequence (apply_diffs diffs st) in
  let result := with_sequence sequence result in
  (result, push_outbox result st).

Definition get_results_as_vec (st : QueryOutputState) : list Json := map snd (map_to_list (results st)).
Definition outbox_earliest_seq (st : QueryOutputState) : option Z := qr_sequence <$> head (outbox st).

Record OutboxGap := {
  requested : Z;
  earliest_available : Z;
  latest_sequence : Z;
  config_hash : Z;
}.

Definition fetch_outbox_after (after_sequence : Z) (st : QueryOutputState) : outcome OutboxGap (list QueryResult) :=
  if as_of_sequence st <=? after_sequence then Ok []
  else
    let earliest := match outbox_earliest_seq st with
                    | Some s => s
                    | None => as_u64 (as_of_sequence st + 1)
                    end in
    if as_u64 (after_sequence + 1) <? earliest
    then Err {| requested := after_sequence; earliest_available := earliest;
                latest_sequence := as_of_sequence st; config_hash := 0 |}
    else Ok (List.filter (fun r => after_sequence <? qr_sequence r) (outbox st)).

(** [sort_by_key] is stable. *)
Fixpoint insert_by_sequence (r : QueryResult) (l : list QueryResult) : list QueryResult :=
  match l with
  | [] => [r]
  | x :: l => if qr_sequence r <=? qr_sequence x then r :: x :: l else x :: insert_by_sequence r l
  end.
Definition sort_by_sequence (l : list QueryResult) : list QueryResult := fold_right insert_by_sequence [] l.

Definition hydrate (rows : gmap Z Json) (entries : list QueryResult) (sequence generation : Z)
    (st : QueryOutputState) : QueryOutputState :=
  let entries := sort_by_sequence entries in
  let skip := Z.to_nat (Z.of_nat (length entries) - outbox_capacity st) in
  {| results := rows; as_of_sequence := Z.max (as_of_sequence st) sequence; outbox := drop skip entries;
     outbox_capacity := outbox_capacity st; initialized := true; generation := generation |}.

Definition next_output_generation (persisted ram : Z) : Z := saturating_add (Z.max persisted ram) 1.

Definition reset_from_generation (persisted : Z) (st : QueryOutputState) : QueryOutputState :=
  {| results := ∅; as_of_sequence := 0; outbox := []; outbox_capacity := outbox_capacity st;
     initialized := true; generation := next_output_generation persisted (generation st) |}.
Definition reset (st : QueryOutputState) : QueryOutputState := reset_from_generation (generation st) st.

Definition mark_initialized (st : QueryOutputState) : QueryOutputState := with_generation true (generation st) st.
Definition adopt_persisted_generation (persisted : Z) (st : QueryOutputState) : QueryOutputState :=
  with_generation (initialized st) (Z.max (generation st) persisted) st.
End output_state.

(** ** Reconciling what a restart finds *)

Inductive DurableOutputInconsistency :=
| OutboxAheadOfSequence (stored_sequence outbox_hwm : Z)
| GappedOutbox (retained : list Z)
| MissingLiveRows (stored_sequence : Z)
| SequenceZeroAgainstDurableOutput (live_rows : nat) (outbox_hwm : option Z)
| CorruptOutbox (sequence : Z) (message : string)
| CorruptLiveRow (row_signature : Z) (message : string)
| ReadFailed (message : string).

Definition is_transient_read (e : DurableOutputInconsistency) : bool :=
  match e with ReadFailed _ => true | _ => false end.

(** [sort_unstable] on numbers, [windows(2)] *)
Definition sort_numbers (l : list Z) : list Z := merge_sort Z.le l.
Fixpoint any_jump (l : list Z) : bool :=
  match l with
  | a :: (b :: _) as l => negb (b =? a + 1) || any_jump l
  | _ => false
  end.

Definition reconcile_durable_output (stored_sequence : option Z) (outbox_sequences : list Z)
    (live_row_count : nat) (live_rows_readable : bool) : outcome DurableOutputInconsistency Z :=
  let stored := default 0 stored_sequence in
  if negb live_rows_readable && (0 <? stored) then Err (MissingLiveRows stored)
  else
    let retained := sort_numbers outbox_sequences in
    if negb (bool_decide (NoDup retained)) || any_jump retained then Err (GappedOutbox retained)
    else
      let outbox_hwm := last retained in
      if (stored =? 0) && (Nat.ltb 0 live_row_count || bool_decide (is_Some outbox_hwm))
      then Err (SequenceZeroAgainstDurableOutput live_row_count outbox_hwm)
      else match outbox_hwm with
           | Some hwm => if stored <? hwm then Err (OutboxAheadOfSequence stored hwm) else Ok stored
           | None => Ok stored
           end.
