(* ===== verification/OutputStores.v ===== *)
(** * Where a query's output is kept (core/src/interface/outbox_writer.rs,
      live_results_writer.rs, checkpoint_store.rs, their in-memory
      implementations, and lib/src/queries/sequence_dedup.rs)

    The interfaces a storage backend implements for the output of queries: the
    outbox of serialized emissions, the serialized live rows, and the
    checkpoints of the sources with the result sequence. Backends write inside
    the session of the change that produced the output. *)

From Stdlib Require Import Init.Byte.
From S2P Require Import Prelude BTree Floats Hashing Ast Models Errors Values ContinuousQuery QueryOutput.

Notation Bytes := (list byte).

(** ** Interfaces *)

Class OutboxWriter (S : Type) := {
  outbox_append : string -> Z -> Bytes -> SM S IndexError unit;
  outbox_read_from : string -> Z -> SM S IndexError (list (Z * Bytes));
  outbox_read_latest_sequence : string -> SM S IndexError (option Z);
  outbox_clear : string -> SM S IndexError unit;
  outbox_append_and_trim : string -> Z -> Bytes -> Z -> SM S IndexError nat;
  outbox_trim_before : string -> Z -> SM S IndexError nat;
  outbox_trim_to_capacity : string -> nat -> SM S IndexError nat;
}.

(** The trait's own implementations of two of its operations. *)
Definition default_append_and_trim {S} (append : string -> Z -> Bytes -> SM S IndexError unit)
    (trim_before : string -> Z -> SM S IndexError nat) (query_id : string) (sequence : Z) (data : Bytes) (retain_from : Z) :
    SM S IndexError nat :=
  _ ← append query_id sequence data; trim_before query_id retain_from.

Definition default_trim_before {S} (read_from : string -> Z -> SM S IndexError (list (Z * Bytes)))
    (trim_to_capacity : string -> nat -> SM S IndexError nat) (query_id : string) (retain_from : Z) : SM S IndexError nat :=
  entries ← read_from query_id (saturating_sub retain_from 1); trim_to_capacity query_id (length entries).

Record RowMutation := { mutation_signature : Z; mutation_data : option Bytes }.

Class LiveResultsWriter (S : Type) := {
  live_apply_mutations : string -> list RowMutation -> SM S IndexError unit;
  live_read_snapshot : string -> SM S IndexError (list (Z * Bytes));
  live_clear : string -> SM S IndexError unit;
  live_row_count : string -> SM S IndexError nat;
}.

Record SourceCheckpoint := { cp_sequence : Z; cp_source_position : option Bytes }.

Class CheckpointStore (S : Type) := {
  is_persistent : bool;
  stage_checkpoint : string -> Z -> option Bytes -> SM S IndexError unit;
  read_checkpoint : string -> SM S IndexError (option SourceCheckpoint);
  read_all_checkpoints : SM S IndexError (gmap string SourceCheckpoint);
  clear_checkpoints : SM S IndexError unit;
  write_config_hash : Z -> SM S IndexError unit;
  read_config_hash : SM S IndexError (option Z);
  stage_result_sequence : string -> Z -> SM S IndexError unit;
  write_result_sequence : string -> Z -> SM S IndexError unit;
  read_result_sequence : string -> SM S IndexError (option Z);
  write_output_generation : string -> Z -> SM S IndexError unit;
  read_output_generation : string -> SM S IndexError (option Z);
}.

(** ** The in-memory outbox: an ordered map per query *)

Notation OutboxData := (gmap string (btree Z Bytes)).

Definition im_append (query_id : string) (sequence : Z) (data : Bytes) (m : OutboxData) : OutboxData :=
  <[query_id := bt_insert sequence data (default ([] : btree Z Bytes) (m !! query_id))]> m.

(** [range((Excluded(after), Unbounded))] *)
Definition bt_after (after : Z) (m : btree Z Bytes) : btree Z Bytes := List.filter (fun e => after <? e.1) m.
Definition im_read_from (query_id : string) (after_sequence : Z) (m : OutboxData) : list (Z * Bytes) :=
  match (m !! query_id : option (btree Z Bytes)) with Some map => bt_after after_sequence map | None => [] end.
Definition im_read_latest_sequence (query_id : string) (m : OutboxData) : option Z :=
  map ← m !! query_id; fst <$> last map.

Definition remove_keys (keys : list Z) (m : btree Z Bytes) : btree Z Bytes :=
  fold_left (fun m k => bt_remove k m) keys m.

Definition im_trim_before (query_id : string) (retain_from : Z) (m : OutboxData) : nat * OutboxData :=
  match (m !! query_id : option (btree Z Bytes)) with
  | None => (O, m)
  | Some map =>
      let keys_to_remove := List.map fst (List.filter (fun e => e.1 <? retain_from) map) in
      (length keys_to_remove, <[query_id := remove_keys keys_to_remove map]> m)
  end.

Definition im_trim_to_capacity (query_id : string) (capacity : nat) (m : OutboxData) : nat * OutboxData :=
  match (m !! query_id : option (btree Z Bytes)) with
  | None => (O, m)
  | Some map =>
      if Nat.leb (length map) capacity then (O, m)
      else
        let to_remove := (length map - capacity)%nat in
        (to_remove, <[query_id := remove_keys (List.map fst (firstn to_remove map)) map]> m)
  end.

(** ** The in-memory live rows *)

Notation LiveData := (gmap string (gmap Z Bytes)).

Definition apply_mutation (rows : gmap Z Bytes) (m : RowMutation) : gmap Z Bytes :=
  match mutation_data m with
  | Some data => <[mutation_signature m := data]> rows
  | None => delete (mutation_signature m) rows
  end.
Definition im_apply_mutations (query_id : string) (mutations : list RowMutation) (m : LiveData) : LiveData :=
  <[query_id := fold_left apply_mutation mutations (default ∅ (m !! query_id))]> m.
Definition im_read_snapshot `{HashMapOrder} (query_id : string) (m : LiveData) : list (Z * Bytes) :=
  match m !! query_id with Some rows => map_entries rows | None => [] end.
Definition im_row_count (query_id : string) (m : LiveData) : nat :=
  match m !! query_id with Some rows => size rows | None => O end.

(** ** The in-memory checkpoints *)

Record CheckpointData := {
  cd_checkpoints : gmap string SourceCheckpoint;
  cd_config_hash : option Z;
  cd_result_sequences : gmap string Z;
  cd_output_generations : gmap string Z;
}.

Definition new_checkpoints : CheckpointData :=
  {| cd_checkpoints := ∅; cd_config_hash := None; cd_result_sequences := ∅; cd_output_generations := ∅ |}.

Definition im_stage_checkpoint (source_id : string) (sequence : Z) (source_position : option Bytes)
    (d : CheckpointData) : CheckpointData :=
  {| cd_checkpoints := <[source_id := {| cp_sequence := sequence; cp_source_position := source_position |}]> (cd_checkpoints d);
     cd_config_hash := cd_config_hash d; cd_result_sequences := cd_result_sequences d;
     cd_output_generations := cd_output_generations d |}.
Definition im_write_config_hash (hash : Z) (d : CheckpointData) : CheckpointData :=
  {| cd_checkpoints := cd_checkpoints d; cd_config_hash := Some hash; cd_result_sequences := cd_result_sequences d;
     cd_output_generations := cd_output_generations d |}.
Definition im_write_result_sequence (query_id : string) (sequence : Z) (d : CheckpointData) : CheckpointData :=
  {| cd_checkpoints := cd_checkpoints d; cd_config_hash := cd_config_hash d;
     cd_result_sequences := <[query_id := sequence]> (cd_result_sequences d);
     cd_output_generations := cd_output_generations d |}.
Definition im_write_output_generation (query_id : string) (generation : Z) (d : CheckpointData) : CheckpointData :=
  {| cd_checkpoints := cd_checkpoints d; cd_config_hash := cd_config_hash d; cd_result_sequences := cd_result_sequences d;
     cd_output_generations := <[query_id := generation]> (cd_output_generations d) |}.

(** ** The three stores as one backend *)

Record MemoryStores := { ms_outbox : OutboxData; ms_live : LiveData; ms_checkpoints : CheckpointData }.

Definition new_stores : MemoryStores := {| ms_outbox := ∅; ms_live := ∅; ms_checkpoints := new_checkpoints |}.

Definition on_outbox {A} (f : OutboxData -> A * OutboxData) : SM MemoryStores IndexError A := fun s =>
  let '(a, o) := f (ms_outbox s) in
  (Ok a, {| ms_outbox := o; ms_live := ms_live s; ms_checkpoints := ms_checkpoints s |}).
Definition on_live {A} (f : LiveData -> A * LiveData) : SM MemoryStores IndexError A := fun s =>
  let '(a, l) := f (ms_live s) in
  (Ok a, {| ms_outbox := ms_outbox s; ms_live := l; ms_checkpoints := ms_checkpoints s |}).
Definition on_checkpoints {A} (f : CheckpointData -> A * CheckpointData) : SM MemoryStores IndexError A := fun s =>
  let '(a, c) := f (ms_checkpoints s) in
  (Ok a, {| ms_outbox := ms_outbox s; ms_live := ms_live s; ms_checkpoints := c |}).

#[global] Instance memory_outbox : OutboxWriter MemoryStores := {|
  outbox_append q n d := on_outbox (fun m => (tt, im_append q n d m));
  outbox_read_from q n := on_outbox (fun m => (im_read_from q n m, m));
  outbox_read_latest_sequence q := on_outbox (fun m => (im_read_latest_sequence q m, m));
  outbox_clear q := on_outbox (fun m => (tt, delete q m));
  outbox_append_and_trim := default_append_and_trim
    (fun q n d => on_outbox (fun m => (tt, im_append q n d m))) (fun q n => on_outbox (im_trim_before q n));
  outbox_trim_before q n := on_outbox (im_trim_before q n);
  outbox_trim_to_capacity q n := on_outbox (im_trim_to_capacity q n) |}.

#[global] Instance memory_live `{HashMapOrder} : LiveResultsWriter MemoryStores := {|
  live_apply_mutations q l := on_live (fun m => (tt, im_apply_mutations q l m));
  live_read_snapshot q := on_live (fun m => (im_read_snapshot q m, m));
  live_clear q := on_live (fun m => (tt, delete q m));
  live_row_count q := on_live (fun m => (im_row_count q m, m)) |}.

(** Everything applies at once, staged or not. *)
#[global] Instance memory_checkpoints : CheckpointStore MemoryStores := {|
  is_persistent := false;
  stage_checkpoint i n p := on_checkpoints (fun d => (tt, im_stage_checkpoint i n p d));
  read_checkpoint i := on_checkpoints (fun d => (cd_checkpoints d !! i, d));
  read_all_checkpoints := on_checkpoints (fun d => (cd_checkpoints d, d));
  clear_checkpoints := on_checkpoints (fun _ => (tt, new_checkpoints));
  write_config_hash h := on_checkpoints (fun d => (tt, im_write_config_hash h d));
  read_config_hash := on_checkpoints (fun d => (cd_config_hash d, d));
  stage_result_sequence q n := on_checkpoints (fun d => (tt, im_write_result_sequence q n d));
  write_result_sequence q n := on_checkpoints (fun d => (tt, im_write_result_sequence q n d));
  read_result_sequence q := on_checkpoints (fun d => (cd_result_sequences d !! q, d));
  write_output_generation q g := on_checkpoints (fun d => (tt, im_write_output_generation q g d));
  read_output_generation q := on_checkpoints (fun d => (cd_output_generations d !! q, d)) |}.

(** ** Deduplication on replay *)

(** [SequenceDedup] *)
Notation SequenceDedup := (gmap string Z).

Definition should_skip (source_id : string) (sequence : Z) (d : SequenceDedup) : bool :=
  match d !! source_id with Some cp => sequence <=? cp | None => false end.

Definition advance (source_id : string) (sequence : Z) (d : SequenceDedup) : SequenceDedup :=
  match d !! source_id with
  | Some entry => if entry <? sequence then <[source_id := sequence]> d else d
  | None => <[source_id := sequence]> d
  end.

Definition checkpoint_for (source_id : string) (d : SequenceDedup) : option Z := d !! source_id.

(** * The in-memory outbox

    Trimming by sequence, which the in-memory outbox implements itself, agrees
    with the interface's default of counting what is kept, and appending and
    trimming keeps exactly the entries from a sequence on. *)

Section trim.
Implicit Types o : btree Z Bytes.

Lemma remove_prefix l1 o : remove_keys (map fst l1) (l1 ++ o) = o.
Proof.
  induction l1 as [|[k v] l1 IH]; [done|]. unfold remove_keys in *. cbn [map fold_left fst app bt_remove].
  by rewrite cmp_refl.
Qed.

Lemma sorted_split r o : bt_sorted o ->
  o = List.filter (fun e => e.1 <? r) o ++ List.filter (fun e => r <=? e.1) o.
Proof.
  induction o as [|[k v] o IH]; intros Hs; [done|]. apply bt_sorted_inv in Hs as [Hk Hs]. cbn [List.filter fst].
  destruct (Z.ltb_spec k r), (Z.leb_spec r k); try lia; cbn [app]; [f_equal; by apply IH|].
  assert (Hnone : List.filter (fun e => e.1 <? r) o = []).
  { clear IH Hs. induction Hk as [|[j w] o Hj _ IHo]; [done|]. cbn [List.filter fst].
    apply (proj1 (Z.compare_lt_iff k j)) in Hj. destruct (Z.ltb_spec j r); [lia|done]. }
  rewrite Hnone. cbn [app]. f_equal. rewrite (IH Hs) at 1. by rewrite Hnone.
Qed.

Lemma length_split r o : bt_sorted o ->
  length o = Nat.add (length (List.filter (fun e => e.1 <? r) o)) (length (List.filter (fun e => r <=? e.1) o)).
Proof. intros Hs. rewrite (sorted_split r o Hs) at 1. apply length_app. Qed.

Lemma trimmed r o : bt_sorted o ->
  remove_keys (map fst (List.filter (fun e => e.1 <? r) o)) o = List.filter (fun e => r <=? e.1) o.
Proof. intros Hs. rewrite (sorted_split r o Hs) at 2. apply remove_prefix. Qed.

(** Sequences start at one. *)
Lemma after_predecessor r o : 0 <= r -> Forall (fun e => 0 < e.1) o ->
  bt_after (saturating_sub r 1) o = List.filter (fun e => r <=? e.1) o.
Proof.
  intros Hr. induction 1 as [|[k v] o Hk _ IH]; [done|]. unfold bt_after in *. cbn in *. rewrite IH. unfold saturating_sub.
  destruct (Z.ltb_spec (Z.max 0 (r - 1)) k), (Z.leb_spec r k); done || lia.
Qed.
End trim.

(** What the default of the interface computes with the in-memory operations. *)
Definition counting_trim (q : string) (r : Z) (m : OutboxData) : nat * OutboxData :=
  im_trim_to_capacity q (length (im_read_from q (saturating_sub r 1) m)) m.

Example counting_trim_is_default q r s :
  default_trim_before (fun q n => on_outbox (fun m => (im_read_from q n m, m)))
    (fun q n => on_outbox (im_trim_to_capacity q n)) q r s =
  on_outbox (counting_trim q r) s.
Proof. reflexivity. Qed.

(** Trimming an outbox by sequence keeps the entries from that sequence on
    and counts the others, and it agrees with the interface's default, which
    counts the entries to keep and evicts the oldest beyond that number, on an
    ordered outbox whose sequences start at one. Appending and trimming in one
    step leaves the appended entry and the window before it. *)
Theorem outbox_trim_before_spec q r n data (m : OutboxData) o :
  m !! q = Some o -> bt_sorted o -> Forall (fun e => 0 < e.1) o -> 0 <= r ->
  let kept := List.filter (fun e => r <=? e.1) o in
  im_trim_before q r m = ((length o - length kept)%nat, <[q := kept]> m) /\
  im_trim_before q r m = counting_trim q r m /\
  (im_trim_before q r (im_append q n data m)).2 !! q =
    Some (List.filter (fun e => r <=? e.1) (bt_insert n data o)).
Proof.
  intros Hq Hs Hpos Hr kept.
  pose proof (length_split r o Hs) as Hlen. fold kept in Hlen.
  assert (H1 : im_trim_before q r m = ((length o - length kept)%nat, <[q := kept]> m)).
  { unfold im_trim_before. rewrite Hq. cbv beta iota zeta. rewrite trimmed by done. rewrite length_map. f_equal. lia. }
  split_and!; [done| |].
  - rewrite H1. unfold counting_trim, im_read_from, im_trim_to_capacity. rewrite Hq. cbv beta iota zeta. rewrite after_predecessor by done. fold kept.
    destruct (Nat.leb_spec (length o) (length kept)) as [Hle|Hgt].
    + assert (Hnil : List.filter (fun e => e.1 <? r) o = []) by (apply nil_length_inv; lia).
      assert (Ho : o = kept) by (rewrite (sorted_split r o Hs), Hnil; done).
      f_equal; [lia|]. rewrite <- Ho. by apply insert_id.
    + f_equal. f_equal. rewrite (sorted_split r o Hs) at 2 3. fold kept.
      replace (length o - length kept)%nat with (length (List.filter (fun e => e.1 <? r) o)) by lia.
      rewrite firstn_app, Nat.sub_diag, firstn_all. cbn. rewrite app_nil_r. by rewrite remove_prefix.
  - unfold im_append. rewrite Hq. unfold im_trim_before. rewrite lookup_insert_eq. cbn [snd]. rewrite lookup_insert_eq.
    by rewrite trimmed by (by apply bt_insert_sorted).
Qed.

Lemma outbox_trim_before_spec_witness :
  let o := [(3, []); (4, []); (6, [])] in
  im_trim_before "q" 4 {["q"%string := o]} = (1%nat, <["q"%string := [(4, []); (6, [])]]> {["q"%string := o]}) /\
  im_trim_before "q" 4 {["q"%string := o]} = counting_trim "q" 4 {["q"%string := o]} /\
  (im_trim_before "q" 4 (im_append "q" 7 [] {["q"%string := o]})).2 !! "q"%string = Some [(4, []); (6, []); (7, [])].
Proof.
  intros o. apply (outbox_trim_before_spec "q" 4 7 [] {["q"%string := o]} o).
  - by rewrite lookup_singleton_eq.
  - repeat constructor.
  - repeat constructor.
  - lia.
Defined.
