(* ===== verification/StateStore.v ===== *)
(** * State stores and reaction checkpoints (lib/src/state_store/mod.rs,
      lib/src/reactions/checkpoint.rs)

    A reaction keeps its progress per query, a sequence number and the hash of
    the query's configuration, in a key-value store partitioned by component.
    The store is an interface with the in-memory provider as an instance; the
    encoding of a checkpoint is that of crate [bincode], a parameter with the
    round trip it documents. *)

From S2P Require Import Prelude OutputStores.

Inductive StateStoreError :=
| KeyNotFound (key : string)
| SerializationError (msg : string)
| StorageError (msg : string)
| OtherStateError (msg : string).

(** ** The interface *)

Class StateStoreProvider (St : Type) := {
  store_get : string -> string -> SM St StateStoreError (option Bytes);
  store_set : string -> string -> Bytes -> SM St StateStoreError unit;
  store_delete : string -> string -> SM St StateStoreError bool;
  store_get_many : string -> list string -> SM St StateStoreError (gmap string Bytes);
  store_clear : string -> SM St StateStoreError nat;
  store_is_durable : St -> bool;
}.

(** ** The in-memory provider *)

Record MemoryStateStoreProvider := { stores : gmap string (gmap string Bytes) }.

Definition new_state_store : MemoryStateStoreProvider := {| stores := ∅ |}.

Definition mem_store (store_id : string) (s : MemoryStateStoreProvider) : gmap string Bytes :=
  default ∅ (stores s !! store_id).

(** [entry(store_id).or_default()] written back *)
Definition put_store (store_id : string) (m : gmap string Bytes) (s : MemoryStateStoreProvider) :
    MemoryStateStoreProvider := {| stores := <[store_id := m]> (stores s) |}.

(** Emptied stores are dropped. *)
Definition put_or_drop (store_id : string) (m : gmap string Bytes) (s : MemoryStateStoreProvider) :
    MemoryStateStoreProvider :=
  if decide (m = ∅) then {| stores := delete store_id (stores s) |} else put_store store_id m s.

Definition ms_get (store_id key : string) (s : MemoryStateStoreProvider) : option Bytes :=
  stores s !! store_id ≫= lookup key.

Definition ms_set (store_id key : string) (value : Bytes) (s : MemoryStateStoreProvider) : MemoryStateStoreProvider :=
  put_store store_id (<[key := value]> (mem_store store_id s)) s.

Definition ms_delete (store_id key : string) (s : MemoryStateStoreProvider) : bool * MemoryStateStoreProvider :=
  match stores s !! store_id with
  | Some store => (bool_decide (is_Some (store !! key)), put_or_drop store_id (delete key store) s)
  | None => (false, s)
  end.

Definition ms_contains_key (store_id key : string) (s : MemoryStateStoreProvider) : bool :=
  bool_decide (is_Some (ms_get store_id key s)).

Definition ms_get_many (store_id : string) (keys : list string) (s : MemoryStateStoreProvider) : gmap string Bytes :=
  match stores s !! store_id with
  | Some store => fold_left (fun r key => match store !! key with Some v => <[key := v]> r | None => r end) keys ∅
  | None => ∅
  end.

Definition ms_set_many (store_id : string) (entries : list (string * Bytes)) (s : MemoryStateStoreProvider) :
    MemoryStateStoreProvider :=
  put_store store_id (fold_left (fun m e => <[e.1 := e.2]> m) entries (mem_store store_id s)) s.

Definition ms_delete_many (store_id : string) (keys : list string) (s : MemoryStateStoreProvider) :
    nat * MemoryStateStoreProvider :=
  match stores s !! store_id with
  | Some store =>
      let '(count, store) := fold_left (fun acc key => match acc.2 !! key with
          | Some _ => (S acc.1, delete key acc.2) | None => acc end) keys (0%nat, store) in
      (count, put_or_drop store_id store s)
  | None => (0%nat, s)
  end.

Definition ms_clear_store (store_id : string) (s : MemoryStateStoreProvider) : nat * MemoryStateStoreProvider :=
  match stores s !! store_id with
  | Some store => (size store, {| stores := delete store_id (stores s) |})
  | None => (0%nat, s)
  end.

(** In the order of the hash map, which is the order of [map_to_list] here. *)
Definition ms_list_keys (store_id : string) (s : MemoryStateStoreProvider) : list string :=
  map fst (map_to_list (mem_store store_id s)).
Definition ms_store_exists (store_id : string) (s : MemoryStateStoreProvider) : bool :=
  match stores s !! store_id with Some store => negb (bool_decide (store = ∅)) | None => false end.
Definition ms_key_count (store_id : string) (s : MemoryStateStoreProvider) : nat :=
  match stores s !! store_id with Some store => size store | None => 0%nat end.

#[global] Instance memory_state_store : StateStoreProvider MemoryStateStoreProvider := {|
  store_get store_id key := fun s => (Ok (ms_get store_id key s), s);
  store_set store_id key value := fun s => (Ok tt, ms_set store_id key value s);
  store_delete store_id key := fun s => let '(b, s) := ms_delete store_id key s in (Ok b, s);
  store_get_many store_id keys := fun s => (Ok (ms_get_many store_id keys s), s);
  store_clear store_id := fun s => let '(n, s) := ms_clear_store store_id s in (Ok n, s);
  store_is_durable _ := false |}.

(** ** Checkpoints *)

Record ReactionCheckpoint := { cp_sequence : Z; cp_config_hash : Z }.

#[global] Instance ReactionCheckpoint_eq_dec : EqDecision ReactionCheckpoint.
Proof. solve_decision. Defined.

(** [bincode::serialize] and [deserialize] at this type *)
Class CheckpointCodec := {
  bincode_serialize : ReactionCheckpoint -> outcome string Bytes;
  bincode_deserialize : Bytes -> outcome string ReactionCheckpoint;
}.

Class CheckpointCodecLaws `{CheckpointCodec} := {
  bincode_round_trip : forall cp, exists b, bincode_serialize cp = Ok b /\ bincode_deserialize b = Ok cp;
}.

Inductive CheckpointError :=
| CheckpointStoreError (e : StateStoreError)
| CheckpointNotEncoded (msg : string)
| CheckpointNotDecoded (msg : string).

Definition checkpoint_key (query_id : string) : string := "checkpoint:" +:+ query_id.

(** [strip_prefix("checkpoint:").unwrap_or(&key)] *)
Definition query_of_key (key : string) : string :=
  if String.prefix "checkpoint:" key then String.substring 11 (String.length key - 11) key else key.

Section checkpoints.
Context {Codec : CheckpointCodec} {St : Type} `{!StateStoreProvider St}.

Definition read_checkpoint (reaction_id query_id : string) : SM St CheckpointError (option ReactionCheckpoint) :=
  raw ← sm_map_err CheckpointStoreError (store_get reaction_id (checkpoint_key query_id));
  match (raw : option Bytes) with
  | Some bytes => cp ← sm_lift (map_err CheckpointNotDecoded (bincode_deserialize bytes)); mret (Some cp)
  | None => mret None
  end.

Definition read_checkpoints_batch (reaction_id : string) (query_ids : list string) :
    SM St CheckpointError (gmap string ReactionCheckpoint) :=
  raw ← sm_map_err CheckpointStoreError (store_get_many reaction_id (map checkpoint_key query_ids));
  sm_foldl (fun result (e : string * Bytes) =>
      cp ← sm_lift (map_err CheckpointNotDecoded (bincode_deserialize e.2));
      mret (<[query_of_key e.1 := cp]> result)) ∅ (map_to_list (raw : gmap string Bytes)).

Definition write_checkpoint (reaction_id query_id : string) (cp : ReactionCheckpoint) : SM St CheckpointError unit :=
  bytes ← sm_lift (map_err CheckpointNotEncoded (bincode_serialize cp));
  sm_map_err CheckpointStoreError (store_set reaction_id (checkpoint_key query_id) bytes).
End checkpoints.

(** * Checkpoints survive the store

    [StateStoreLaws] is what a reaction relies on: reads tell what was last
    written, and a write that fails leaves the store as it was. The in-memory
    provider is one. Over such a store a checkpoint reads back as it was
    written, alone and in a batch, and does not touch those of other queries. *)

Class StateStoreLaws (St : Type) `{!StateStoreProvider St} := {
  stored : St -> string -> string -> option Bytes;
  get_stored : forall s id k, store_get id k s = (Ok (stored s id k), s);
  get_many_stored : forall s id ks, exists m, store_get_many id ks s = (Ok m, s) /\
    forall k, m !! k = if decide (k ∈ ks) then stored s id k else None;
  set_stored : forall s id k v, match store_set id k v s with
    | (Ok _, s') => forall id' k', stored s' id' k' = if decide ((id', k') = (id, k)) then Some v else stored s id' k'
    | (Err _, s') => forall id' k', stored s' id' k' = stored s id' k'
    | (Panic, _) => False
    end;
}.

Lemma ms_get_many_spec id ks s k :
  ms_get_many id ks s !! k = if decide (k ∈ ks) then ms_get id k s else None.
Proof.
  unfold ms_get_many, ms_get. destruct (stores s !! id) as [m|]; cbn; [|by destruct (decide _)].
  assert (Hg : forall r : gmap string Bytes,
    fold_left (fun r key => match m !! key with Some v => <[key := v]> r | None => r end) ks r !! k =
    if decide (k ∈ ks) then match m !! k with Some v => Some v | None => r !! k end else r !! k).
  { induction ks as [|j ks IH]; intros r; [by rewrite decide_False by apply not_elem_of_nil|]. cbn [fold_left].
    rewrite IH. destruct (decide (k = j)) as [->|Hj].
    - rewrite (decide_True (P:=j ∈ j :: ks)) by set_solver. destruct (m !! j) as [v|] eqn:Hv.
      + rewrite lookup_insert_eq. by destruct (decide (j ∈ ks)).
      + by destruct (decide (j ∈ ks)).
    - assert (Hr : match m !! j with Some v => <[j := v]> r | None => r end !! k = r !! k).
      { destruct (m !! j); [by rewrite lookup_insert_ne|done]. }
      rewrite Hr. destruct (decide (k ∈ ks)); [by rewrite decide_True by set_solver|by rewrite decide_False by set_solver]. }
  rewrite Hg, lookup_empty. destruct (decide _); [by destruct (m !! k)|done].
Qed.

#[global] Instance memory_store_laws : StateStoreLaws MemoryStateStoreProvider.
Proof.
  refine {| stored := fun s id k => ms_get id k s |}.
  - done.
  - intros s id ks. eexists. split; [done|]. intros k. apply ms_get_many_spec.
  - intros s id k v. cbn. intros id' k'. unfold ms_get, ms_set, put_store, mem_store. cbn.
    destruct (decide (id' = id)) as [->|Hid].
    + rewrite lookup_insert_eq. cbn. destruct (decide (k' = k)) as [->|Hk].
      * by rewrite lookup_insert_eq, decide_True.
      * rewrite lookup_insert_ne, decide_False by congruence. by destruct (stores s !! id); cbn; rewrite ?lookup_empty.
    + by rewrite lookup_insert_ne, decide_False by congruence.
Defined.

(** ** Keys *)

Lemma prefix_app p q : String.prefix p (p +:+ q) = true.
Proof.
  induction p as [|a p IH]; [by destruct q|]. change (String a p +:+ q) with (String a (p +:+ q)). cbn [String.prefix].
  by destruct (Ascii.ascii_dec a a).
Qed.

Lemma substring_whole q : String.substring 0 (String.length q) q = q.
Proof. induction q as [|a q IH]; cbn; [done|]. by rewrite IH. Qed.

Lemma query_of_checkpoint_key q : query_of_key (checkpoint_key q) = q.
Proof.
  unfold query_of_key. change (checkpoint_key q) with ("checkpoint:" +:+ q). rewrite prefix_app.
  change (String.length ("checkpoint:" +:+ q)) with (11 + String.length q)%nat.
  replace (11 + String.length q - 11)%nat with (String.length q) by lia.
  exact (substring_whole q).
Qed.

#[global] Instance checkpoint_key_inj : Inj (=) (=) checkpoint_key.
Proof. intros q q' Hq. by rewrite <- (query_of_checkpoint_key q), Hq, query_of_checkpoint_key. Qed.

(** ** Checkpoints *)

Section checkpoints.
Context {Codec : CheckpointCodec} {CL : CheckpointCodecLaws}.
Context {St : Type} `{!StateStoreProvider St} {SL : StateStoreLaws St}.

(** The checkpoint a store holds, when what it holds decodes *)
Definition checkpoint_of (s : St) (r q : string) : option ReactionCheckpoint :=
  b ← stored s r (checkpoint_key q);
  match bincode_deserialize b with Ok cp => Some cp | _ => None end.

Definition readable (s : St) (r q : string) : Prop :=
  match stored s r (checkpoint_key q) with
  | Some b => exists cp, bincode_deserialize b = Ok cp
  | None => True
  end.

Lemma read_checkpoint_ok s r q : readable s r q -> read_checkpoint r q s = (Ok (checkpoint_of s r q), s).
Proof.
  unfold readable, read_checkpoint, checkpoint_of, sm_map_err, mbind, SM_bind. rewrite get_stored. cbn.
  destruct (stored s r (checkpoint_key q)) as [b|]; [|done]. intros [cp Hcp]. cbn. unfold mbind, SM_bind, sm_lift.
  by rewrite Hcp.
Qed.

Lemma write_checkpoint_ok s r q cp :
  match write_checkpoint r q cp s with
  | (Ok _, s') => forall r' q', readable s r' q' \/ (r', q') = (r, q) -> readable s' r' q' /\
      checkpoint_of s' r' q' = if decide ((r', q') = (r, q)) then Some cp else checkpoint_of s r' q'
  | (Err _, s') => forall r' q', (readable s r' q' -> readable s' r' q') /\ checkpoint_of s' r' q' = checkpoint_of s r' q'
  | (Panic, _) => False
  end.
Proof.
  destruct (bincode_round_trip cp) as (b & Hs & Hd). unfold write_checkpoint, mbind, SM_bind, sm_lift, sm_map_err.
  rewrite Hs. cbn. pose proof (set_stored s r (checkpoint_key q) b) as Hset.
  destruct (store_set r (checkpoint_key q) b s) as [[u|e|] s']; [| |done]; cbn.
  - intros r' q' Hrd. unfold readable, checkpoint_of in *. rewrite Hset.
    destruct (decide ((r', q') = (r, q))) as [[= -> ->]|Hne].
    + rewrite decide_True by done. cbn. split; [by exists cp|by rewrite Hd].
    + rewrite decide_False by (intros [-> ->%(inj checkpoint_key)]%pair_equal_spec; done). by destruct Hrd.
  - intros r' q'. unfold readable, checkpoint_of. by rewrite Hset.
Qed.

Lemma decode_all (s : St) (l : list (string * Bytes)) (acc : gmap string ReactionCheckpoint) :
  NoDup l.*1 ->
  (forall k b, (k, b) ∈ l -> exists q cp, k = checkpoint_key q /\ bincode_deserialize b = Ok cp) ->
  exists m, sm_foldl (fun result (e : string * Bytes) =>
      cp ← sm_lift (map_err CheckpointNotDecoded (bincode_deserialize e.2));
      mret (<[query_of_key e.1 := cp]> result)) acc l s = (Ok m, s) /\
    forall q, m !! q = match list_find (fun e => e.1 = checkpoint_key q) l with
                       | Some (_, e) => match bincode_deserialize e.2 with Ok cp => Some cp | _ => None end
                       | None => acc !! q
                       end.
Proof.
  revert acc. induction l as [|[k b] l IH]; intros acc Hn Hl; cbn [sm_foldl].
  { exists acc. by split. }
  apply NoDup_cons in Hn as [Hk Hn]. destruct (Hl k b) as (q & cp & -> & Hcp); [set_solver|].
  unfold mbind, SM_bind, sm_lift. cbn [snd fst]. rewrite Hcp. cbn [map_err mret SM_ret]. rewrite query_of_checkpoint_key.
  destruct (IH (<[q := cp]> acc)) as (m & Hm & Hlook); [done|intros; apply Hl; set_solver|].
  exists m. split; [exact Hm|]. intros q'. rewrite Hlook. cbn. destruct (decide (checkpoint_key q = checkpoint_key q')) as [Hq|Hq].
  - apply (inj checkpoint_key) in Hq as <-.
    assert (Hnone : list_find (fun e : string * Bytes => e.1 = checkpoint_key q) l = None).
    { apply list_find_None, Forall_forall. intros e He Hek. apply Hk. cbn. rewrite <- Hek.
      by apply (list_elem_of_fmap_2 fst). }
    rewrite Hnone, lookup_insert_eq. cbn. by rewrite Hcp.
  - destruct (list_find _ l) as [[i e]|]; cbn; [done|]. rewrite lookup_insert_ne; [done|congruence].
Qed.

(** Reading the checkpoints of several queries in one batch tells of every
    query what reading it alone tells, and of no other query anything. *)
Theorem batch_reads_each s r (qs : list string) :
  (forall q, q ∈ qs -> readable s r q) ->
  exists m, read_checkpoints_batch r qs s = (Ok m, s) /\
    forall q, m !! q = if decide (q ∈ qs) then ok_or None (read_checkpoint r q s).1 else None.
Proof.
  intros Hr. unfold read_checkpoints_batch, sm_map_err. unfold mbind at 1, SM_bind at 1.
  destruct (get_many_stored s r (map checkpoint_key qs)) as (raw & -> & Hraw). cbn.
  destruct (decode_all s (map_to_list raw) ∅) as (m & Hm & Hlook).
  - apply NoDup_fst_map_to_list.
  - intros k b Hkb%elem_of_map_to_list. rewrite Hraw in Hkb. destruct (decide _) as [Hin|]; [|done].
    apply list_elem_of_fmap in Hin as (q & -> & Hq). specialize (Hr q Hq). unfold readable in Hr.
    rewrite Hkb in Hr. destruct Hr as [cp Hcp]. by exists q, cp.
  - exists m. split; [exact Hm|]. intros q. rewrite Hlook.
    assert (Hkey : checkpoint_key q ∈ map checkpoint_key qs <-> q ∈ qs).
    { rewrite list_elem_of_fmap. split; [|eauto]. intros (q' & Hq%(inj checkpoint_key) & ?). by subst. }
    destruct (list_find _ (map_to_list raw)) as [[i [k b]]|] eqn:Hf.
    + apply list_find_Some in Hf as (Hi & Hk & _). cbn in Hk. subst k.
      apply list_elem_of_lookup_2, elem_of_map_to_list in Hi. rewrite Hraw in Hi.
      destruct (decide (checkpoint_key q ∈ _)) as [Hin|]; [|done]. rewrite decide_True by by apply Hkey.
      rewrite read_checkpoint_ok by by apply Hr, Hkey. cbn. unfold checkpoint_of. by rewrite Hi.
    + rewrite lookup_empty. destruct (decide (q ∈ qs)) as [Hq|]; [|done].
      rewrite read_checkpoint_ok by by apply Hr. cbn. unfold checkpoint_of.
      destruct (stored s r (checkpoint_key q)) as [b|] eqn:Hb; [|done]. exfalso.
      apply list_find_None in Hf. rewrite Forall_forall in Hf. apply (Hf (checkpoint_key q, b)); [|done].
      apply elem_of_map_to_list. rewrite Hraw, decide_True; [done|by apply Hkey].
Qed.
End checkpoints.
