(* ===== verification/OutputPipeline.v ===== *)
(** * From source events to durable output (lib/src/queries/manager.rs)

    The processor task of a query takes events from its queue. A change whose
    sequence is new runs through the continuous query; before the session of
    the change commits, a hook stages the source's checkpoint, the outbox
    entry, the changed live rows and the result sequence into it; after the
    commit the emission is applied to the output state and published. A
    restart reads the same stores back.

    The text a row is converted to and the serialization of rows and emissions
    are those of other crates: the first is a parameter, the second has the
    round-trip law its format documents. *)

From S2P Require Import Prelude BTree Floats Hashing Ast Models Errors Values MatchPath Solver ResultIndex Contexts.
From S2P Require Import Parts FutureQueue Session ContinuousQuery QueryOutput OutputStores.

Class OutputFormat `{Chrono} `{Payload} := {
  (** what a wall clock and the profiler contribute to one emission *)
  Stamp : Type;
  convert_query_variables_to_json : QueryVariables -> Json;
  result_metadata : Stamp -> string -> nat -> ResultMeta;
  overlay_post_commit_profiling : Stamp -> ResultMeta -> ResultMeta;
  row_to_vec : Json -> outcome string Bytes;
  row_from_slice : Bytes -> outcome string Json;
  result_to_vec_named : QueryResult -> outcome string Bytes;
  result_from_slice : Bytes -> outcome string QueryResult;
}.

Section pipeline.
Context {C : Chrono} {H : Hashers} {HO : HashMapOrder} {P : Payload} {OF : OutputFormat}.
Context {S : Type} `{!AccumulatorIndex S} `{!ElementIndexOps S} `{!FutureQueueOps S} `{!SessionControl S}.
Context {EE : ExpressionEvaluator S}.

(** ** Diffs *)

Definition context_to_diff (ctx : QueryPartEvaluationContext) : option ResultDiff :=
  match ctx with
  | Adding after row_signature => Some (Add (convert_query_variables_to_json after) row_signature)
  | Removing before row_signature => Some (DiffDelete (convert_query_variables_to_json before) row_signature)
  | Updating before after row_signature =>
      let after_json := convert_query_variables_to_json after in
      Some (DiffUpdate after_json (convert_query_variables_to_json before) after_json None row_signature)
  | Aggregation before after _ _ _ row_signature =>
      Some (DiffAggregation (convert_query_variables_to_json <$> before) (convert_query_variables_to_json after) row_signature)
  | Noop => None
  end.

Definition evaluation_contexts_to_diffs (results : list QueryPartEvaluationContext) : list ResultDiff :=
  omap context_to_diff results.

(** ** Staging the output of a change *)

Record DurableOutputStores := {
  checkpoint_store : CheckpointStore S;
  outbox_writer : option (OutboxWriter S);
  live_results_writer : option (LiveResultsWriter S);
}.

Definition output_persist_error (message : string) : IndexError := OtherIndexError message.

Definition diff_mutation (diff : ResultDiff) : option (Z * option Json) :=
  match diff with
  | Add data row_signature => Some (row_signature, Some data)
  | DiffUpdate _ _ after _ row_signature => Some (row_signature, Some after)
  | DiffAggregation _ after row_signature => Some (row_signature, Some after)
  | DiffDelete _ row_signature => Some (row_signature, None)
  | DiffNoop => None
  end.

Definition serialize_mutation (acc : list RowMutation) (m : Z * option Json) : outcome string (list RowMutation) :=
  match m.2 with
  | Some data => bytes ← row_to_vec data;
                 Ok (acc ++ [{| mutation_signature := m.1; mutation_data := Some bytes |}])
  | None => Ok (acc ++ [{| mutation_signature := m.1; mutation_data := None |}])
  end.

Definition row_mutations (diffs : list ResultDiff) : outcome string (list RowMutation) :=
  out_foldl serialize_mutation [] (omap diff_mutation diffs).

Definition is_nil {A} (l : list A) : bool := match l with [] => true | _ => false end.

(** The emission a change stages, which the slot of [StagedOutputSequence]
    carries from the hook to the dispatch: none without diffs, nor when no
    store is durable. *)
Definition staged_result (stores : DurableOutputStores) (diffs : list ResultDiff) (source_id query_id : string)
    (stamp : Stamp) (output : QueryOutputState) : option QueryResult :=
  if is_nil diffs then None
  else if negb (bool_decide (is_Some (outbox_writer stores))) && negb (bool_decide (is_Some (live_results_writer stores))) &&
          negb (@is_persistent S (checkpoint_store stores)) then None
  else Some {| qr_query_id := query_id; qr_sequence := saturating_add (as_of_sequence output) 1;
               qr_results := diffs; qr_meta := result_metadata stamp source_id (length diffs) |}.

Definition stage_outbox (writer : option (OutboxWriter S)) (query_id : string) (result : QueryResult) (capacity : Z) :
    SM S IndexError unit :=
  match writer with
  | Some writer =>
      data ← sm_lift (map_err output_persist_error (result_to_vec_named result));
      let retain_from := saturating_add (saturating_sub (qr_sequence result) capacity) 1 in
      _ ← outbox_append_and_trim query_id (qr_sequence result) data retain_from;
      mret tt
  | None => mret tt
  end.

Definition stage_live_rows (writer : option (LiveResultsWriter S)) (query_id : string) (diffs : list ResultDiff) :
    SM S IndexError unit :=
  match writer with
  | Some writer =>
      mutations ← sm_lift (map_err output_persist_error (row_mutations diffs));
      if is_nil mutations then mret tt else live_apply_mutations query_id mutations
  | None => mret tt
  end.

Definition stage_durable_query_output (stores : DurableOutputStores) (diffs : list ResultDiff)
    (source_id query_id : string) (stamp : Stamp) (output : QueryOutputState) : SM S IndexError (option QueryResult) :=
  match staged_result stores diffs source_id query_id stamp output with
  | None => mret None
  | Some result =>
      _ ← stage_outbox (outbox_writer stores) query_id result (outbox_capacity output);
      _ ← stage_live_rows (live_results_writer stores) query_id diffs;
      _ ← @stage_result_sequence S (checkpoint_store stores) query_id (qr_sequence result);
      mret (Some result)
  end.

(** ** Dispatching it *)

Definition dispatch_query_results (results : list QueryPartEvaluationContext) (source_id query_id : string)
    (stamp : Stamp) (staged : option QueryResult) (output : QueryOutputState) : list QueryResult * QueryOutputState :=
  let converted_results := match staged with
                           | Some staged => qr_results staged
                           | None => evaluation_contexts_to_diffs results
                           end in
  if is_nil converted_results then ([], output)
  else
    let '(result, output) :=
      match staged with
      | Some r =>
          let r := {| qr_query_id := qr_query_id r; qr_sequence := qr_sequence r; qr_results := qr_results r;
                      qr_meta := overlay_post_commit_profiling stamp (qr_meta r) |} in
          apply_committed_sequence (qr_sequence r) converted_results r output
      | None =>
          advance_sequence_and_push
            {| qr_query_id := query_id; qr_sequence := 0; qr_results := converted_results;
               qr_meta := result_metadata stamp source_id (length converted_results) |}
            (apply_diffs converted_results output)
      end in
    ([result], output).

(** ** Reading the stores back *)

Definition read_failed {A} (m : SM S IndexError A) : SM S DurableOutputInconsistency A :=
  sm_map_err (fun _ => ReadFailed "failed to read durable query output") m.

(** The retained entries and the sequences to reconcile: those of the entries
    and the high-water mark. *)
Definition load_outbox (writer : option (OutboxWriter S)) (query_id : string) (capacity : Z) :
    SM S DurableOutputInconsistency (list (Z * Bytes) * list Z) :=
  match writer with
  | None => mret ([], [])
  | Some writer =>
      latest ← read_failed (outbox_read_latest_sequence query_id);
      match (latest : option Z) with
      | None => mret ([], [])
      | Some hwm =>
          raw ← read_failed (outbox_read_from query_id (saturating_sub hwm capacity));
          let sequences := map fst (raw : list (Z * Bytes)) in
          mret (raw, if bool_decide (last sequences = Some hwm) then sequences else sequences ++ [hwm])
      end
  end.

Definition load_live_rows (writer : option (LiveResultsWriter S)) (query_id : string) :
    SM S DurableOutputInconsistency (list (Z * Bytes) * bool) :=
  match writer with
  | Some writer => rows ← read_failed (live_read_snapshot query_id); mret (rows, true)
  | None => mret ([], false)
  end.

Definition decode_entry (acc : list QueryResult) (e : Z * Bytes) : outcome DurableOutputInconsistency (list QueryResult) :=
  r ← map_err (CorruptOutbox e.1) (result_from_slice e.2); Ok (acc ++ [with_sequence e.1 r]).
Definition decode_row (acc : gmap Z Json) (e : Z * Bytes) : outcome DurableOutputInconsistency (gmap Z Json) :=
  v ← map_err (CorruptLiveRow e.1) (row_from_slice e.2); Ok (<[e.1 := v]> acc).

(** A bootstrap commits its rows with result sequence zero and a checkpoint
    of every source. *)
Definition completed_snapshot (store : CheckpointStore S) (stored_sequence : option Z) (outbox_sequences : list Z) :
    SM S DurableOutputInconsistency bool :=
  if bool_decide (stored_sequence = Some 0) && is_nil outbox_sequences then
    checkpoints ← read_failed (@read_all_checkpoints S store);
    mret (negb (bool_decide (checkpoints = (∅ : gmap string SourceCheckpoint))) &&
          forallb (fun e => (0 <? cp_sequence e.2) || bool_decide (is_Some (cp_source_position e.2)))
            (map_to_list checkpoints))
  else mret false.

Record LoadedOutput := {
  lo_results : gmap Z Json;
  lo_outbox : list QueryResult;
  lo_sequence : Z;
  lo_generation : Z;
}.

Definition load_durable_output (query_id : string) (stores : DurableOutputStores) (capacity : Z) :
    SM S DurableOutputInconsistency LoadedOutput :=
  let cs := checkpoint_store stores in
  stored_sequence ← read_failed (@read_result_sequence S cs query_id);
  stored_generation ← read_failed (@read_output_generation S cs query_id);
  '(raw_outbox, outbox_sequences) ← load_outbox (outbox_writer stores) query_id capacity;
  '(raw_live_rows, live_rows_readable) ← load_live_rows (live_results_writer stores) query_id;
  completed ← completed_snapshot cs stored_sequence outbox_sequences;
  sequence ← (if completed : bool
              then if live_rows_readable : bool then mret 0 else sm_err (MissingLiveRows 0)
              else sm_lift (reconcile_durable_output stored_sequence outbox_sequences (length raw_live_rows) live_rows_readable));
  entries ← sm_lift (out_foldl decode_entry [] raw_outbox);
  rows ← sm_lift (out_foldl decode_row ∅ raw_live_rows);
  mret {| lo_results := rows; lo_outbox := entries; lo_sequence := sequence;
          lo_generation := default 0 stored_generation |}.

(** ** Wiping them *)

Definition wipe_durable_output (query_id : string) (stores : DurableOutputStores) (generation : Z) : SM S IndexError unit :=
  let cs := checkpoint_store stores in
  _ ← @write_result_sequence S cs query_id 0;
  _ ← @write_output_generation S cs query_id generation;
  _ ← match outbox_writer stores with Some writer => outbox_clear query_id | None => mret tt end;
  match live_results_writer stores with Some writer => live_clear query_id | None => mret tt end.

Definition persisted_output_generation (stores : DurableOutputStores) (query_id : string) : SM S IndexError Z :=
  g ← @read_output_generation S (checkpoint_store stores) query_id; mret (default 0 (g : option Z)).

Record OutputGenerationPlan := { persisted : Z; next : Z }.

Definition plan_output_generation (output : QueryOutputState) (stores : DurableOutputStores) (query_id : string) :
    SM S IndexError OutputGenerationPlan :=
  p ← persisted_output_generation stores query_id;
  mret {| persisted := p; next := next_output_generation p (generation output) |}.

Definition durable_output_is_dirty (query_id : string) (stores : DurableOutputStores) : SM S IndexError bool :=
  seq ← @read_result_sequence S (checkpoint_store stores) query_id;
  if 0 <? default 0 (seq : option Z) then mret true
  else
    g ← persisted_output_generation stores query_id;
    if 0 <? g then mret true
    else
      latest ← match outbox_writer stores with
               | Some writer => outbox_read_latest_sequence query_id
               | None => mret None
               end;
      if bool_decide (is_Some (latest : option Z)) then mret true
      else match live_results_writer stores with
           | Some writer => rows ← live_read_snapshot query_id; mret (negb (is_nil (rows : list (Z * Bytes))))
           | None => mret false
           end.

Definition output_reset_in_progress_hash (current_hash : Z) : Z := u64_max - current_hash.
End pipeline.
Arguments DurableOutputStores S : clear implicits.

(** * The processor task of a query (lib/src/queries/manager.rs, start)

    One event at a time: duplicates are skipped, changes and due futures run
    through the continuous query with the output staged in their session, and
    committed emissions reach the output state and the subscribers. A new
    process resumes from the stores. *)

Inductive ControlOperation := ControlInsert | ControlUpdate | ControlDelete.

Inductive SourceControl :=
| Subscription (query_id query_node_id : string) (node_labels rel_labels : list string) (operation : ControlOperation)
| FuturesDue.

Inductive SourceEvent `{Chrono} := Change (change : SourceChange) | Control (control : SourceControl).

(** What the processor reads of a [SourceEventWrapper], and the clock and
    profiler readings taken while it is handled. *)
Record Event `{OutputFormat} := {
  ev_source_id : string;
  ev_event : SourceEvent;
  ev_sequence : Z;
  ev_source_position : option Bytes;
  ev_staged_at : Stamp;
  ev_sent_at : Stamp;
}.

Definition MAX_SOURCE_POSITION_BYTES : nat := Z.to_nat 65536.

Section processor.
Context {C : Chrono} {H : Hashers} {HO : HashMapOrder} {P : Payload} {OF : OutputFormat}.
Context {S : Type} `{!AccumulatorIndex S} `{!ElementIndexOps S} `{!FutureQueueOps S} `{!SessionControl S}.
Context {EE : ExpressionEvaluator S}.
Context (cq : ContinuousQuery (S:=S)) (stores : DurableOutputStores S) (query_id : string).

Record Processor := {
  store : S;
  output_state : QueryOutputState;
  dedup : SequenceDedup;
  position_handles : gmap string Z;
  published : list QueryResult;
  failed : option EvaluationError;
}.

(** Oversized positions are not checkpointed. *)
Definition checkpoint_position (position : option Bytes) : option Bytes :=
  match position with
  | Some p => if bool_decide (length p <= MAX_SOURCE_POSITION_BYTES)%nat then Some p else None
  | None => None
  end.

(** The pre-commit hooks of a change and of a due future. *)
Definition change_hook (ev : Event) (output : QueryOutputState) (results : list QueryPartEvaluationContext) :
    SM S IndexError unit :=
  let diffs := evaluation_contexts_to_diffs results in
  _ ← @stage_checkpoint S (checkpoint_store stores) (ev_source_id ev) (ev_sequence ev)
        (checkpoint_position (ev_source_position ev));
  _ ← stage_durable_query_output stores diffs (ev_source_id ev) query_id (ev_staged_at ev) output;
  mret tt.

Definition due_hook (ev : Event) (output : QueryOutputState) (results : list QueryPartEvaluationContext)
    (source_id : string) : SM S IndexError unit :=
  _ ← stage_durable_query_output stores (evaluation_contexts_to_diffs results) source_id query_id (ev_staged_at ev) output;
  mret tt.

(** What follows a successful commit. *)
Definition deliver (ev : Event) (source_id : string) (results : list QueryPartEvaluationContext) (p : Processor) : Processor :=
  if is_nil results then p
  else
    let staged := staged_result stores (evaluation_contexts_to_diffs results) source_id query_id (ev_staged_at ev) (output_state p) in
    let '(sent, output) := dispatch_query_results results source_id query_id (ev_sent_at ev) staged (output_state p) in
    {| store := store p; output_state := output; dedup := dedup p; position_handles := position_handles p;
       published := published p ++ sent; failed := failed p |}.

Definition with_store (s : S) (p : Processor) : Processor :=
  {| store := s; output_state := output_state p; dedup := dedup p; position_handles := position_handles p;
     published := published p; failed := failed p |}.
Definition with_failure (e : EvaluationError) (p : Processor) : Processor :=
  {| store := store p; output_state := output_state p; dedup := dedup p; position_handles := position_handles p;
     published := published p; failed := Some e |}.
Definition acknowledge (ev : Event) (p : Processor) : Processor :=
  {| store := store p; output_state := output_state p; dedup := advance (ev_source_id ev) (ev_sequence ev) (dedup p);
     position_handles := match position_handles p !! ev_source_id ev with
                         | Some _ => <[ev_source_id ev := ev_sequence ev]> (position_handles p)
                         | None => position_handles p
                         end;
     published := published p; failed := failed p |}.

Definition process_change_event (ev : Event) (change : SourceChange) (p : Processor) : outcome EvaluationError Processor :=
  if should_skip (ev_source_id ev) (ev_sequence ev) (dedup p) then Ok p
  else
    match process_source_change_with_hook cq change (change_hook ev (output_state p)) (store p) with
    | (Ok results, s) => Ok (deliver ev (ev_source_id ev) results (acknowledge ev (with_store s p)))
    | (Err e, s) => Ok (with_failure e (with_store s p))
    | (Panic, _) => Panic
    end.

(** Due futures are drained until there is none. *)
Fixpoint drain_futures (fuel : nat) (ev : Event) (p : Processor) : outcome EvaluationError Processor :=
  match fuel with
  | O => Panic
  | Datatypes.S fuel =>
      match process_due_futures_with_hook cq (due_hook ev (output_state p)) (store p) with
      | (Ok (Some due_result), s) =>
          drain_futures fuel ev (deliver ev (due_source_id due_result) (due_results due_result) (with_store s p))
      | (Ok None, s) => Ok (with_store s p)
      | (Err e, s) => Ok (with_failure e (with_store s p))
      | (Panic, _) => Panic
      end
  end.

Definition process_event (fuel : nat) (ev : Event) (p : Processor) : outcome EvaluationError Processor :=
  match ev_event ev with
  | Control FuturesDue => drain_futures fuel ev p
  | Change change => process_change_event ev change p
  | Control _ => Ok p
  end.

(** The loop stops at the first failure. *)
Fixpoint process_events (fuel : nat) (evs : list Event) (p : Processor) : outcome EvaluationError Processor :=
  match evs with
  | [] => Ok p
  | ev :: evs =>
      match failed p with
      | Some _ => Ok p
      | None => p ← process_event fuel ev p; process_events fuel evs p
      end
  end.

(** A new process: the output is loaded from the stores and the sequences of
    the subscribed sources from their checkpoints; the position handles are
    those the sources hand out. Checkpoints that cannot be read stop a query
    with bootstrap, and are taken to be absent by one without. *)
Definition read_checkpoints (enable_bootstrap : bool) : SM S DurableOutputInconsistency (gmap string SourceCheckpoint) := fun s =>
  match @read_all_checkpoints S (checkpoint_store stores) s with
  | (Ok checkpoints, s) => (Ok checkpoints, s)
  | (Err e, s) => if enable_bootstrap then (Err (ReadFailed "failed to read bootstrap checkpoints"), s) else (Ok ∅, s)
  | (Panic, s) => (Panic, s)
  end.

Definition checkpoint_sequences (sources : list string) (checkpoints : gmap string SourceCheckpoint) : SequenceDedup :=
  fold_left (fun m source_id => match checkpoints !! source_id with
                                | Some cp => <[source_id := cp_sequence cp]> m
                                | None => m
                                end) sources ∅.

Definition resume (enable_bootstrap : bool) (sources : list string) (handles : gmap string Z) (capacity : Z) (s : S) :
    outcome DurableOutputInconsistency Processor :=
  let '(r, s) := (checkpoints ← read_checkpoints enable_bootstrap;
                  loaded ← load_durable_output query_id stores (outbox_capacity (new_output_state capacity));
                  mret (checkpoints, loaded)) s in
  '(checkpoints, loaded) ← r;
  Ok {| store := s;
        output_state := hydrate (lo_results loaded) (lo_outbox loaded) (lo_sequence loaded) (lo_generation loaded)
                          (new_output_state capacity);
        dedup := checkpoint_sequences sources checkpoints;
        position_handles := handles; published := []; failed := None |}.
End processor.
