(* ===== verification/QueryOutputFacts.v ===== *)
(** * Correctness of the query output

    The outbox is a contiguous window of emissions that ends at the current
    sequence; a reader that holds a snapshot and fetches what came after it
    reaches the current rows, or is told that it is too late. Reconciling
    accepts exactly the windows a run leaves behind. *)

From stdpp Require Import sorting.
From S2P Require Import Prelude QueryOutput.

(** ** Windows of a list *)

Section keep.
Context {A : Type}.
Implicit Types l : list A.

(** The last [n] elements. *)
Definition keep (n : nat) l : list A := drop (length l - n) l.

Lemma keep_short n l : (length l <= n)%nat -> keep n l = l.
Proof. intros Hn. unfold keep. by replace (length l - n)%nat with 0%nat by lia. Qed.

Lemma length_keep n l : length (keep n l) = (length l `min` n)%nat.
Proof. unfold keep. rewrite length_drop. lia. Qed.

Lemma keep_app n l1 l2 : (n <= length l2)%nat -> keep n (l1 ++ l2) = keep n l2.
Proof.
  intros Hn. unfold keep. rewrite length_app. replace (length l1 + length l2 - n)%nat with (length l1 + (length l2 - n))%nat by lia.
  by rewrite drop_app_add.
Qed.

Lemma keep_snoc n l x : (0 < n)%nat -> keep n (keep n l ++ [x]) = keep n (l ++ [x]).
Proof.
  intros Hn. unfold keep. rewrite !length_app, length_drop. cbn [length].
  rewrite <- (drop_app_le l [x] (length l - n)) by lia. rewrite drop_drop. f_equal. lia.
Qed.

Lemma tail_keep n l x : (0 < n)%nat -> (length l <= n)%nat ->
  (if Z.of_nat n <=? Z.of_nat (length l) then tail l else l) ++ [x] = keep n (l ++ [x]).
Proof.
  intros Hn Hl. unfold keep. rewrite length_app. cbn [length].
  destruct (Z.leb_spec (Z.of_nat n) (Z.of_nat (length l))).
  - replace (length l + 1 - n)%nat with 1%nat by lia. destruct l; cbn in *; [lia|done].
  - by replace (length l + 1 - n)%nat with 0%nat by lia.
Qed.
End keep.

Lemma map_keep {A B} (f : A -> B) n l : map f (keep n l) = keep n (map f l).
Proof. unfold keep. rewrite length_map. apply fmap_drop. Qed.

Section facts.
Context {P : Payload}.
Implicit Types (st : QueryOutputState) (r : QueryResult).

Notation cap st := (Z.to_nat (outbox_capacity st)).

(** The outbox holds the last emissions, numbered up to the current sequence. *)
Record window_ok st : Prop := {
  wo_capacity : 0 < outbox_capacity st;
  wo_length : (length (outbox st) <= cap st)%nat;
  wo_past : Z.of_nat (length (outbox st)) <= as_of_sequence st;
  wo_window : map qr_sequence (outbox st) =
    seqZ (as_of_sequence st - Z.of_nat (length (outbox st)) + 1) (Z.of_nat (length (outbox st)));
}.

(** One emission: the next sequence, its diffs, its entry. *)
Definition commit st r : QueryOutputState :=
  (apply_committed_sequence (saturating_add (as_of_sequence st) 1) (qr_results r) r st).2.

(** The volatile path numbers the emission itself. *)
Lemma advance_is_commit st r :
  advance_sequence_and_push r (apply_diffs (qr_results r) st) =
  apply_committed_sequence (saturating_add (as_of_sequence st) 1) (qr_results r) r st.
Proof. reflexivity. Qed.

(** Emissions numbered from [s + 1]. *)
Fixpoint numbered (s : Z) (rs : list QueryResult) : list QueryResult :=
  match rs with
  | [] => []
  | r :: rs => with_sequence (s + 1) r :: numbered (s + 1) rs
  end.

Lemma length_numbered s rs : length (numbered s rs) = length rs.
Proof. revert s. induction rs as [|r rs IH]; intros s; cbn; [done|]. by rewrite IH. Qed.

Lemma numbered_sequences s rs : map qr_sequence (numbered s rs) = seqZ (s + 1) (Z.of_nat (length rs)).
Proof.
  revert s. induction rs as [|r rs IH]; intros s; [done|]. cbn [numbered map length].
  rewrite seqZ_cons by lia. rewrite IH. cbn [with_sequence qr_sequence]. f_equal. f_equal; lia.
Qed.

Lemma commits_spec rs st :
  0 < outbox_capacity st -> as_of_sequence st + Z.of_nat (length rs) <= u64_max ->
  outbox st = keep (cap st) (outbox st) ->
  let st' := fold_left commit rs st in
  as_of_sequence st' = as_of_sequence st + Z.of_nat (length rs) /\
  outbox st' = keep (cap st) (outbox st ++ numbered (as_of_sequence st) rs) /\
  results st' = fold_left apply_diff (concat (map qr_results rs)) (results st) /\
  outbox_capacity st' = outbox_capacity st /\ initialized st' = initialized st /\ generation st' = generation st.
Proof.
  intros Hcap. revert st Hcap. induction rs as [|r rs IH]; intros st Hcap Hmax Hkeep; cbn [fold_left].
  { cbn. rewrite app_nil_r. split_and!; try done. lia. }
  cbn [length] in Hmax. assert (Hseq : saturating_add (as_of_sequence st) 1 = as_of_sequence st + 1)
    by (unfold saturating_add; lia).
  assert (Hlen : (length (outbox st) <= cap st)%nat) by (rewrite Hkeep, length_keep; lia).
  set (st1 := commit st r).
  assert (Hs1 : as_of_sequence st1 = as_of_sequence st + 1) by exact Hseq.
  assert (Ho1 : outbox st1 = keep (cap st) (outbox st ++ [with_sequence (as_of_sequence st + 1) r])).
  { rewrite <- tail_keep by lia. rewrite Z2Nat.id by lia. unfold st1, commit, apply_committed_sequence. rewrite Hseq. reflexivity. }
  destruct (IH st1) as (H1 & H2 & H3 & H4 & H5 & H6).
  - done.
  - rewrite Hs1. lia.
  - rewrite Ho1. symmetry. apply keep_short. rewrite length_keep. change (cap st1) with (cap st). lia.
  - split_and!; [| | |done|done|done].
    + rewrite H1, Hs1. cbn [length]. lia.
    + rewrite H2, Hs1, Ho1. change (cap st1) with (cap st). cbn [numbered].
      set (x := with_sequence (as_of_sequence st + 1) r). set (l := numbered (as_of_sequence st + 1) rs).
      change (x :: l) with ([x] ++ l). rewrite app_assoc. generalize (outbox st ++ [x]). intros o.
      clear. unfold keep. rewrite !length_app, length_drop.
      rewrite <- (drop_app_le o l) by lia. rewrite drop_drop. f_equal. lia.
    + rewrite H3. cbn [map concat]. rewrite fold_left_app. reflexivity.
Qed.

Lemma window_keeps st : window_ok st -> outbox st = keep (cap st) (outbox st).
Proof. intros Hw. symmetry. apply keep_short, Hw. Qed.

Lemma drop_seqZ d m n : 0 <= d <= n -> drop (Z.to_nat d) (seqZ m n) = seqZ (m + d) (n - d).
Proof.
  intros Hd. replace n with (d + (n - d)) at 1 by lia. rewrite seqZ_app by lia.
  rewrite drop_app_length'; [done|]. rewrite length_seqZ. lia.
Qed.

Lemma keep_seqZ c m n : 0 <= n -> (0 <= c)%nat ->
  keep c (seqZ m n) = seqZ (m + Z.max 0 (n - Z.of_nat c)) (n - Z.max 0 (n - Z.of_nat c)).
Proof.
  intros Hn _. unfold keep. rewrite length_seqZ.
  replace (Z.to_nat n - c)%nat with (Z.to_nat (Z.max 0 (n - Z.of_nat c))) by lia. apply drop_seqZ. lia.
Qed.

(** The window after some emissions. *)
Lemma commits_window rs st :
  window_ok st -> as_of_sequence st + Z.of_nat (length rs) <= u64_max -> window_ok (fold_left commit rs st).
Proof.
  intros Hw Hmax. destruct (commits_spec rs st) as (H1 & H2 & _ & H4 & _); [apply Hw|done|by apply window_keeps|].
  destruct Hw as [Hc Hl Hp Hwin]. set (n0 := Z.of_nat (length (outbox st))) in *.
  assert (Hlen : Z.of_nat (length (outbox (fold_left commit rs st))) = Z.min (n0 + Z.of_nat (length rs)) (outbox_capacity st)).
  { rewrite H2, length_keep, length_app, length_numbered. lia. }
  split; rewrite ?H1, ?H4; [done|lia|lia|].
  rewrite Hlen, H2, map_keep, map_app, Hwin, numbered_sequences.
  replace (as_of_sequence st + 1) with (as_of_sequence st - n0 + 1 + n0) by lia.
  rewrite <- seqZ_app by lia. rewrite keep_seqZ by lia. f_equal; lia.
Qed.

Lemma filter_all {A} (f : A -> bool) l : (forall x, x ∈ l -> f x = true) -> List.filter f l = l.
Proof.
  induction l as [|x l IH]; intros Hf; [done|]. cbn. rewrite Hf by set_solver. f_equal. apply IH. set_solver.
Qed.
Lemma filter_nothing {A} (f : A -> bool) l : (forall x, x ∈ l -> f x = false) -> List.filter f l = [].
Proof.
  induction l as [|x l IH]; intros Hf; [done|]. cbn. rewrite Hf by set_solver. apply IH. set_solver.
Qed.

Lemma sequences_between l m n r : map qr_sequence l = seqZ m n -> r ∈ l -> m <= qr_sequence r < m + n.
Proof. intros Hl Hr. apply elem_of_seqZ. rewrite <- Hl. apply list_elem_of_fmap. eauto. Qed.

Lemma fetch_after_commits rs st :
  window_ok st -> as_of_sequence st + Z.of_nat (length rs) <= u64_max ->
  fetch_outbox_after (as_of_sequence st) (fold_left commit rs st) =
  if Z.of_nat (length rs) <=? outbox_capacity st then Ok (numbered (as_of_sequence st) rs)
  else Err {| requested := as_of_sequence st;
              earliest_available := as_of_sequence st + Z.of_nat (length rs) - outbox_capacity st + 1;
              latest_sequence := as_of_sequence st + Z.of_nat (length rs); config_hash := 0 |}.
Proof.
  intros Hw Hmax. pose proof (commits_window rs st Hw Hmax) as Hw'.
  destruct (commits_spec rs st) as (H1 & H2 & _ & H4 & _); [apply Hw|done|by apply window_keeps|].
  set (st' := fold_left commit rs st) in *. set (a := as_of_sequence st) in *. set (k := Z.of_nat (length rs)) in *.
  unfold fetch_outbox_after. rewrite H1. destruct (Z.leb_spec (a + k) a) as [Hk|Hk].
  { pose proof (wo_capacity _ Hw). destruct (Z.leb_spec k (outbox_capacity st)); [|lia].
    destruct rs; [done|]. unfold k in Hk. cbn [length] in Hk. lia. }
  pose proof Hw as [Hc Hl Hp Hwin]. pose proof Hw' as [_ _ _ Hwin']. rewrite H1 in Hwin'.
  set (n0 := Z.of_nat (length (outbox st))) in *. set (n' := Z.of_nat (length (outbox st'))) in *.
  assert (Hn' : n' = Z.min (n0 + k) (outbox_capacity st)).
  { unfold n'. rewrite H2, length_keep, length_app, length_numbered. lia. }
  assert (Hhead : outbox_earliest_seq st' = Some (a + k - n' + 1)).
  { assert (Hhm : forall l : list QueryResult, qr_sequence <$> head l = head (map qr_sequence l)) by by intros [].
    unfold outbox_earliest_seq. rewrite Hhm, Hwin'. rewrite seqZ_cons by lia. done. }
  assert (Ha : 0 <= a) by (unfold a; lia).
  rewrite Hhead, as_u64_small by (unfold u64_ok; lia). destruct (Z.leb_spec k (outbox_capacity st)).
  - destruct (Z.ltb_spec (a + 1) (a + k - n' + 1)); [lia|]. f_equal. rewrite H2. unfold keep.
    rewrite length_app, length_numbered. rewrite drop_app_le by lia. rewrite List.filter_app.
    rewrite filter_nothing, filter_all; [done| |].
    + intros r Hr. pose proof (sequences_between _ _ _ _ (numbered_sequences a rs) Hr). apply Z.ltb_lt. lia.
    + intros r Hr%subseteq_drop. pose proof (sequences_between _ _ _ _ Hwin Hr). apply Z.ltb_ge. lia.
  - destruct (Z.ltb_spec (a + 1) (a + k - n' + 1)); [|lia]. f_equal. f_equal. lia.
Qed.
End facts.

(** ** Contiguous sequences *)

Lemma last_seqZ a n : 0 < n -> last (seqZ a n) = Some (a + n - 1).
Proof.
  intros Hn. replace n with (n - 1 + 1) at 1 by lia. rewrite seqZ_app by lia.
  rewrite (seqZ_cons (a + (n - 1)) 1) by lia. rewrite last_app_cons, (seqZ_nil _ (Z.pred 1)) by lia. change (Some (a + (n - 1)) = Some (a + n - 1)). f_equal. lia.
Qed.

Lemma seqZ_no_jump a n : any_jump (seqZ a n) = false.
Proof.
  destruct (decide (0 <= n)) as [Hn|]; [|by rewrite seqZ_nil by lia]. revert a. pattern n. apply natlike_ind; [done| |done].
  intros m Hm IH a. rewrite seqZ_cons by lia. replace (Z.pred (Z.succ m)) with m by lia.
  destruct (decide (m = 0)) as [->|]; [done|]. specialize (IH (Z.succ a)). rewrite seqZ_cons in IH |- * by lia.
  cbn in *. rewrite IH. replace (Z.succ a =? a + 1) with true by (symmetry; apply Z.eqb_eq; lia). done.
Qed.

Lemma seqZ_sorted a n : StronglySorted Z.le (seqZ a n).
Proof.
  destruct (decide (0 <= n)) as [Hn|]; [|rewrite seqZ_nil by lia; constructor]. revert a. pattern n. apply natlike_ind; [constructor| |done].
  intros m Hm IH a. rewrite seqZ_cons by lia. replace (Z.pred (Z.succ m)) with m by lia. constructor; [apply IH|]. apply Forall_forall. intros x Hx%elem_of_seqZ. lia.
Qed.

Lemma sort_seqZ a n : sort_numbers (seqZ a n) = seqZ a n.
Proof.
  apply (Sorted_unique Z.le); [apply Sorted_merge_sort, _|apply StronglySorted_Sorted, seqZ_sorted|apply merge_sort_Permutation].
Qed.

Lemma reconcile_window stored a n rows : 0 < default 0 stored \/ rows = O /\ n <= 0 -> 0 <= default 0 stored ->
  a + n = default 0 stored + 1 -> reconcile_durable_output stored (seqZ a n) rows true = Ok (default 0 stored).
Proof.
  intros Hpos Hs Ha. unfold reconcile_durable_output. cbn [negb andb]. rewrite sort_seqZ, seqZ_no_jump.
  rewrite bool_decide_eq_true_2 by apply NoDup_seqZ. cbn [negb orb].
  destruct (decide (0 < n)) as [Hn|Hn].
  - rewrite last_seqZ by lia. destruct (Z.eqb_spec (default 0 stored) 0); [lia|]. cbn [andb].
    destruct (Z.ltb_spec (default 0 stored) (a + n - 1)); [lia|done].
  - rewrite seqZ_nil by lia. cbn [last]. rewrite bool_decide_eq_false_2 by (by intros [? ?]). rewrite Bool.orb_false_r.
    destruct (Z.eqb_spec (default 0 stored) 0); cbn [andb]; [|done]. destruct Hpos as [?|[-> _]]; [lia|done].
Qed.

Lemma no_jump_seqZ a l : StronglySorted Z.le (a :: l) -> any_jump (a :: l) = false -> a :: l = seqZ a (Z.of_nat (length (a :: l))).
Proof.
  revert a. induction l as [|b l IH]; intros a Hs Hj.
  { cbn [length]. rewrite seqZ_cons by lia. done. }
  cbn [any_jump] in Hj. apply Bool.orb_false_iff in Hj as [Hab Hj]. apply Bool.negb_false_iff, Z.eqb_eq in Hab. subst b.
  inversion Hs as [|? ? Hsl _]; subst. change (length (a :: a + 1 :: l)) with (Datatypes.S (length (a + 1 :: l))).
  rewrite (seqZ_cons a) by lia. f_equal. replace (Z.pred _) with (Z.of_nat (length (a + 1 :: l))) by lia. by apply IH.
Qed.

(** Reconciling accepts exactly the outputs that a run can leave behind,
    and returns the stored sequence: the outbox sequences are a permutation of
    a contiguous window that ends at or before it, the live rows could be read
    unless nothing was emitted, and at sequence zero there is neither a row nor
    an outbox entry. It never panics. *)
Theorem reconcile_accepts_windows stored seqs rows readable n :
  0 <= default 0 stored ->
  reconcile_durable_output stored seqs rows readable = Ok n <->
  n = default 0 stored /\ (readable = true \/ default 0 stored = 0) /\
  (default 0 stored = 0 -> rows = O /\ seqs = []) /\
  (exists a k, seqs ≡ₚ seqZ a k /\ (0 < k -> a + k - 1 <= default 0 stored)).
Proof.
  intros Hs. split.
  - unfold reconcile_durable_output. set (m := default 0 stored) in *.
    destruct (negb readable && (0 <? m)) eqn:Hread; [done|].
    destruct (_ || _) eqn:Hgap; [done|]. apply Bool.orb_false_iff in Hgap as [Hnd Hj].
    apply Bool.negb_false_iff, bool_decide_eq_true in Hnd.
    destruct ((m =? 0) && _) eqn:Hzero; [done|].
    assert (Hperm : seqs ≡ₚ sort_numbers seqs) by (symmetry; apply merge_sort_Permutation).
    assert (Hrd : readable = true \/ m = 0).
    { apply Bool.andb_false_iff in Hread as [Hr%Bool.negb_false_iff|Hm%Z.ltb_ge]; [by left|right; lia]. }
    assert (Hz : m = 0 -> rows = O /\ seqs = []).
    { intros Hm0. rewrite Hm0, Z.eqb_refl in Hzero. cbn [andb] in Hzero. apply Bool.orb_false_iff in Hzero as [Hr Hl].
      split; [destruct rows; [done|cbn in Hr; by destruct rows]|]. apply bool_decide_eq_false in Hl.
      destruct (sort_numbers seqs) as [|x l] eqn:Hsort; [by apply Permutation_nil_r in Hperm|].
      exfalso. apply Hl. destruct (last (x :: l)) eqn:Hla; [done|by apply last_None in Hla]. }
    assert (Hsorted : StronglySorted Z.le (sort_numbers seqs)) by (apply (StronglySorted_merge_sort Z.le)).
    destruct (sort_numbers seqs) as [|a l] eqn:Hsort.
    { intros [= <-]. split_and!; [done..|]. exists 0, 0. split; [by rewrite Hperm|lia]. }
    pose proof (no_jump_seqZ a l Hsorted Hj) as Heq. set (k := Z.of_nat (length (a :: l))) in Heq.
    assert (Hk : 0 < k) by (unfold k; cbn [length]; lia). rewrite Heq, last_seqZ by done.
    destruct (Z.ltb_spec m (a + k - 1)); [done|]. intros [= <-]. split_and!; [done..|]. exists a, k. split; [by rewrite Hperm, Heq|lia].
  - intros (-> & Hrd & Hz & a & k & Hperm & Hle). unfold reconcile_durable_output.
    assert (Hread : negb readable && (0 <? default 0 stored) = false).
    { destruct Hrd as [-> | ->]; [done|by rewrite Bool.andb_false_r]. }
    assert (Hsort : sort_numbers seqs = seqZ a k).
    { rewrite <- (sort_seqZ a k). apply (Sorted_unique Z.le); [apply Sorted_merge_sort, _..|].
      unfold sort_numbers. by rewrite !merge_sort_Permutation. }
    rewrite Hread, Hsort, seqZ_no_jump, bool_decide_eq_true_2 by apply NoDup_seqZ. cbn [negb orb].
    destruct (Z.eqb_spec (default 0 stored) 0) as [H0|H0]; cbn [andb].
    + destruct (Hz H0) as [-> ->]. apply Permutation_nil_l in Hperm. rewrite <- Hperm. cbn. rewrite H0. done.
    + destruct (decide (0 < k)); [|by rewrite seqZ_nil by lia]. rewrite last_seqZ by done.
      destruct (Z.ltb_spec (default 0 stored) (a + k - 1)); [lia|done].
Qed.

Section readers.
Context {P : Payload}.

Lemma sort_window rs a : map qr_sequence rs = seqZ a (Z.of_nat (length rs)) -> sort_by_sequence rs = rs.
Proof.
  revert a. induction rs as [|r rs IH]; intros a; [done|]. cbn [map length]. rewrite seqZ_cons by lia.
  replace (Z.pred _) with (Z.of_nat (length rs)) by lia. intros [= Hr Hrs]. cbn. fold (sort_by_sequence rs). rewrite (IH _ Hrs).
  destruct rs as [|r2 rs]; [done|]. cbn [map length] in Hrs. rewrite seqZ_cons in Hrs by lia. injection Hrs as Hr2 _. cbn.
  destruct (Z.leb_spec (qr_sequence r) (qr_sequence r2)); [done|lia].
Qed.


(** An outbox that ends before the stored sequence is accepted, and hides
    the emissions in between: after hydrating, a reader at the end of the
    outbox receives an empty answer instead of the gap error, though the state
    is ahead of it. *)
Theorem lagging_outbox_hides_emissions (rows : gmap Z Json) entries stored hwm g capacity :
  let st := hydrate rows entries stored g (new_output_state capacity) in
  0 < capacity <= MAX_OUTBOX_CAPACITY -> entries <> [] -> Z.of_nat (length entries) <= capacity ->
  map qr_sequence entries = seqZ (hwm - Z.of_nat (length entries) + 1) (Z.of_nat (length entries)) ->
  Z.of_nat (length entries) <= hwm < stored -> stored <= u64_max ->
  reconcile_durable_output (Some stored) (map qr_sequence entries) (size rows) true = Ok stored /\
  hwm < as_of_sequence st /\ fetch_outbox_after hwm st = Ok [].
Proof.
  intros st Hcap Hne Hlen Hk Hhwm Hmax. set (n := Z.of_nat (length entries)) in *.
  assert (Hn : 0 < n) by (unfold n; destruct entries; [done|cbn [length]; lia]).
  split; [rewrite Hk; unfold reconcile_durable_output; change (default 0 (Some stored)) with stored; cbn [negb andb]|].
  { rewrite sort_seqZ, seqZ_no_jump, bool_decide_eq_true_2 by apply NoDup_seqZ. cbn [negb orb].
    rewrite last_seqZ by lia. destruct (Z.eqb_spec stored 0); [lia|]. cbn [andb].
    destruct (Z.ltb_spec stored (hwm - n + 1 + n - 1)); [lia|done]. }
  assert (Has : as_of_sequence st = stored) by (cbn; lia).
  assert (Hout : outbox st = entries).
  { unfold st, hydrate. cbn [outbox]. rewrite (sort_window entries _ Hk). cbn [outbox_capacity new_output_state].
    replace (Z.to_nat _) with O by lia. done. }
  split; [lia|]. unfold fetch_outbox_after. rewrite Has, Hout. destruct (Z.leb_spec stored hwm); [lia|].
  unfold outbox_earliest_seq. rewrite Hout. destruct entries as [|e entries]; [done|]. cbn [head fmap option_fmap option_map].
  cbn [map] in Hk. rewrite seqZ_cons in Hk by lia. pose proof Hk as Hk'. injection Hk' as He _. rewrite He, as_u64_small by (unfold u64_ok; lia).
  destruct (Z.ltb_spec (hwm + 1) (hwm - n + 1)); [lia|]. f_equal. apply filter_nothing. intros r Hr. apply Z.ltb_ge.
  assert (Hin : qr_sequence r ∈ map qr_sequence (e :: entries)) by (apply list_elem_of_fmap; eauto).
  cbn [map] in Hin. rewrite Hk, <- seqZ_cons in Hin by lia. apply elem_of_seqZ in Hin. lia.
Qed.
End readers.


(** ** Small outputs *)

Module OutputExample.
#[local] Instance payload : Payload := {| Json := Z; ResultMeta := unit |}.

Definition emission (diffs : list ResultDiff) : QueryResult :=
  {| qr_query_id := "q"; qr_sequence := 0; qr_results := diffs; qr_meta := tt |}.
Definition opened : QueryOutputState := commit (new_output_state 2) (emission [@Add payload 10 1]).
Definition later : list QueryResult :=
  [emission [@Add payload 20 2; @DiffUpdate payload 11 10 11 None 1]; emission [@DiffDelete payload 20 2]].

Lemma opened_ok : window_ok opened.
Proof.
  apply (commits_window [emission [@Add payload 10 1]]); [|by vm_compute]. split; [|cbn; lia| |done]; by vm_compute.
Qed.


(** The reader catches up with two emissions, and not with three. *)
Example reader_outcomes :
  (is_ok (fetch_outbox_after 1 (fold_left commit later opened)),
   is_ok (fetch_outbox_after 1 (fold_left commit (later ++ later) opened)),
   map_to_list (results (fold_left commit later opened) : gmap Z Z)) = (true, false, [(1, 11)]).
Proof. by_vm. Qed.

Lemma reconcile_accepts_windows_witness :
  (reconcile_durable_output (Some 5) [4; 3; 5] 2 true = Ok 5 <->
   5 = 5 /\ (true = true \/ 5 = 0) /\ (5 = 0 -> 2%nat = O /\ [4; 3; 5] = []) /\
   (exists a k, [4; 3; 5] ≡ₚ seqZ a k /\ (0 < k -> a + k - 1 <= 5))) /\
  reconcile_durable_output (Some 5) [4; 3; 5] 2 true = Ok 5.
Proof. split; [apply (reconcile_accepts_windows (Some 5) [4; 3; 5] 2 true 5); by vm_compute|by_vm]. Defined.

Lemma lagging_outbox_hides_emissions_witness :
  let entries := [with_sequence 1 (emission []); with_sequence 2 (emission []); with_sequence 3 (emission [])] in
  let st := @hydrate payload {[1 := 11]} entries 5 0 (new_output_state 10) in
  reconcile_durable_output (Some 5) (map qr_sequence entries) (size ({[1 := 11]} : gmap Z Z)) true = Ok 5 /\
  3 < as_of_sequence st /\ fetch_outbox_after 3 st = Ok [].
Proof.
  intros entries. apply (@lagging_outbox_hides_emissions payload {[1 := 11]} entries 5 3 0 10).
  - split; [lia|by vm_compute].
  - done.
  - by vm_compute.
  - by vm_compute.
  - by vm_compute.
  - by vm_compute.
Defined.
End OutputExample.
