(* ===== verification/OutputBackend.v ===== *)
(** * The contract of a durable backend

    What the recovery of a query's output asks of the storage: the writes of
    an emission join the session of its change, the reads of a restart change
    nothing, and neither touches the other. [output_view] is the part of the
    store that belongs to the output; the indexes of the query are another. *)

From S2P Require Import Prelude BTree Floats Hashing Ast Models Errors Values MatchPath Solver ResultIndex Contexts.
From S2P Require Import Parts FutureQueue Session ContinuousQuery QueryOutput OutputStores OutputPipeline QuerySafety.

Record OutputView := {
  ov_outbox : btree Z Bytes;
  ov_rows : gmap Z Bytes;
  ov_sequence : option Z;
  ov_generation : option Z;
  ov_checkpoints : gmap string SourceCheckpoint;
}.

(** The writes of an emission on the view. *)
Definition view_checkpoint (source_id : string) (sequence : Z) (position : option Bytes) (v : OutputView) : OutputView :=
  {| ov_outbox := ov_outbox v; ov_rows := ov_rows v; ov_sequence := ov_sequence v; ov_generation := ov_generation v;
     ov_checkpoints := <[source_id := {| cp_sequence := sequence; cp_source_position := position |}]> (ov_checkpoints v) |}.
Definition view_append (sequence : Z) (data : Bytes) (retain_from : Z) (v : OutputView) : OutputView :=
  {| ov_outbox := List.filter (fun e => retain_from <=? e.1) (bt_insert sequence data (ov_outbox v));
     ov_rows := ov_rows v; ov_sequence := ov_sequence v; ov_generation := ov_generation v; ov_checkpoints := ov_checkpoints v |}.
Definition view_mutate (mutations : list RowMutation) (v : OutputView) : OutputView :=
  {| ov_outbox := ov_outbox v; ov_rows := fold_left apply_mutation mutations (ov_rows v);
     ov_sequence := ov_sequence v; ov_generation := ov_generation v; ov_checkpoints := ov_checkpoints v |}.
Definition view_sequence (sequence : Z) (v : OutputView) : OutputView :=
  {| ov_outbox := ov_outbox v; ov_rows := ov_rows v; ov_sequence := Some sequence; ov_generation := ov_generation v;
     ov_checkpoints := ov_checkpoints v |}.

(** ** Computations on the view *)

Section triples.
Context {S : Type} `{!SessionControl S} {TS : TransactionalSession S} (output_view : View -> OutputView).

Definition out (s : S) : OutputView := output_view (view s).

(** The output is not touched, and the session stays as it is. *)
Definition keeps_output : relation S := fun s s' => out s' = out s /\ saved s' = saved s.
#[export] Instance keeps_output_preorder : PreOrder keeps_output.
Proof. split; [done|]. intros a b c [? ?] [? ?]. unfold keeps_output in *. split; congruence. Qed.

(** A computation stays in its session; when it succeeds, its result relates
    the outputs before and after. *)
Definition stages {E A} (m : SM S E A) (Q : OutputView -> A -> OutputView -> Prop) : Prop :=
  forall s, saved (m s).2 = saved s /\ match (m s).1 with Ok a => Q (out s) a (out (m s).2) | _ => True end.

(** A read succeeds with a function of the output, or fails, and leaves it. *)
Definition reads {E A} (m : SM S E A) (Q : OutputView -> A -> Prop) : Prop :=
  forall s, keeps_output s (m s).2 /\ match (m s).1 with Ok a => Q (out s) a | Err _ => True | Panic => False end.

Lemma stages_bind {E A B} (m : SM S E A) (f : A -> SM S E B) Q R :
  stages m Q -> (forall a, stages (f a) (fun v2 b v3 => forall v1, Q v1 a v2 -> R v1 b v3)) -> stages (m ≫= f) R.
Proof.
  intros Hm Hf s. unfold mbind, SM_bind. destruct (Hm s) as [Hs HQ].
  destruct (m s) as [[a|e|] s1]; cbn in *; [|done..]. destruct (Hf a s1) as [Hs1 HR]. split; [congruence|].
  destruct (f a s1) as [[b|e|] s2]; cbn in *; [|done..]. by apply HR.
Qed.

Lemma stages_ret {E A} (a : A) : stages (E:=E) (mret a) (fun v b v' => b = a /\ v' = v).
Proof. done. Qed.

Lemma stages_lift {E A} (o : outcome E A) : stages (sm_lift o) (fun v a v' => o = Ok a /\ v' = v).
Proof. intros s. split; [done|]. cbn. by destruct o. Qed.

Lemma stages_map_err {E F A} (f : E -> F) (m : SM S E A) Q : stages m Q -> stages (sm_map_err f m) Q.
Proof. intros Hm s. unfold sm_map_err. specialize (Hm s). by destruct (m s) as [[a|e|] s1]. Qed.

Lemma stages_weaken {E A} (m : SM S E A) (Q R : OutputView -> A -> OutputView -> Prop) :
  stages m Q -> (forall v a v', Q v a v' -> R v a v') -> stages m R.
Proof. intros Hm HQ s. destruct (Hm s) as [? Hr]. split; [done|]. case_match; auto. Qed.

Lemma stages_keeps {E A} (m : SM S E A) : preserves keeps_output m -> stages m (fun v _ v' => v' = v).
Proof. intros Hm s. destruct (Hm s) as [Ho Hs]. split; [done|]. by case_match. Qed.

Lemma reads_bind {E A B} (m : SM S E A) (f : A -> SM S E B) Q R :
  reads m Q -> (forall a, reads (f a) (fun v b => Q v a -> R v b)) -> reads (m ≫= f) R.
Proof.
  intros Hm Hf s. unfold mbind, SM_bind. destruct (Hm s) as [Hk HQ].
  destruct (m s) as [[a|e|] s1]; cbn in *; [|done..]. destruct (Hf a s1) as [Hk1 HR].
  split; [by etrans|]. destruct Hk as [Ho _]. rewrite <- Ho in HQ. rewrite Ho in *.
  destruct (f a s1) as [[b|e|] s2]; cbn in *; auto.
Qed.

Lemma reads_ret {E A} (a : A) : reads (E:=E) (mret a) (fun _ b => b = a).
Proof. intros s. split; [done|]. done. Qed.

Lemma reads_map_err {E F A} (f : E -> F) (m : SM S E A) Q : reads m Q -> reads (sm_map_err f m) Q.
Proof. intros Hm s. unfold sm_map_err. specialize (Hm s). by destruct (m s) as [[a|e|] s1]. Qed.

(** A guarded computation commits what its body stages, and otherwise leaves
    the output as it was. *)
Lemma with_guard_output {E A} (f : IndexError -> E) (body : SM S E A) Q s :
  stages body Q ->
  match (with_guard f body s).1 with
  | Ok a => Q (out s) a (out (with_guard f body s).2)
  | _ => out (with_guard f body s).2 = out s
  end.
Proof.
  intros Hb. assert (Hin : preserves in_session body) by (intros s1; apply Hb).
  destruct (with_guard_atomic f body s Hin) as [Hfail Hok].
  destruct (with_guard f body s) as [[a|e|] s'] eqn:Hw; cbn in *.
  2, 3: unfold out; by rewrite Hfail.
  destruct (Hok eq_refl) as (s1 & s2 & Hbegin & Hrun & Hv).
  pose proof (begin_saves s) as Hbs. rewrite Hbegin in Hbs. destruct Hbs as [_ Hv1].
  destruct (Hb s1) as [_ HQ]. rewrite Hrun in HQ. cbn in HQ. unfold out in *. by rewrite Hv, <- Hv1.
Qed.
End triples.

(** ** The contract *)

Class DurableBackend {C : Chrono} {H : Hashers} {S : Type} `{!AccumulatorIndex S} `{!ElementIndexOps S} `{!FutureQueueOps S}
    `{!SessionControl S} {EE : ExpressionEvaluator S} {TS : TransactionalSession S}
    (cs : CheckpointStore S) (ow : OutboxWriter S) (lw : LiveResultsWriter S) (query_id : string) := {
  output_view : View -> OutputView;

  stage_checkpoint_law source n p :
    stages output_view (@stage_checkpoint S cs source n p) (fun v _ v' => v' = view_checkpoint source n p v);
  append_law n data retain_from :
    stages output_view (@outbox_append_and_trim S ow query_id n data retain_from)
      (fun v _ v' => v' = view_append n data retain_from v);
  mutations_law l :
    stages output_view (@live_apply_mutations S lw query_id l) (fun v _ v' => v' = view_mutate l v);
  sequence_law n :
    stages output_view (@stage_result_sequence S cs query_id n) (fun v _ v' => v' = view_sequence n v);

  read_sequence_law : reads output_view (@read_result_sequence S cs query_id) (fun v r => r = ov_sequence v);
  read_generation_law : reads output_view (@read_output_generation S cs query_id) (fun v r => r = ov_generation v);
  read_latest_law :
    reads output_view (@outbox_read_latest_sequence S ow query_id) (fun v r => r = fst <$> last (ov_outbox v));
  read_from_law n :
    reads output_view (@outbox_read_from S ow query_id n) (fun v r => r = bt_after n (ov_outbox v));
  read_snapshot_law :
    reads output_view (@live_read_snapshot S lw query_id) (fun v r => r ≡ₚ map_to_list (ov_rows v));
  read_checkpoints_law : reads output_view (@read_all_checkpoints S cs) (fun v r => r = ov_checkpoints v);

  indexes_keep_set key owner v : preserves (keeps_output output_view) (index_set key owner v);
  indexes_keep_evaluator :: EvaluatorPreserved (keeps_output output_view);
  indexes_keep_elements :: IndexesPreserved (keeps_output output_view);
}.

(** The rows and emissions written can be read back. *)
Class OutputFormatLaws `{OutputFormat} := {
  row_round_trip : forall j b, row_to_vec j = Ok b -> row_from_slice b = Ok j;
  result_round_trip : forall r b, result_to_vec_named r = Ok b -> result_from_slice b = Ok r;
}.
