(* ===== verification/Startup.v ===== *)
(** * Starting a query on persistent stores (lib/src/queries/manager.rs, start)

    Before anything runs, a start compares the hash of the query's
    configuration with the stored one, and either resumes from the stores,
    refuses, or resets: it writes a marker, wipes the output, the indexes and
    the checkpoints, and writes the hash again. Each of these writes commits on
    its own, so that a crash, or an error, can stop a reset between any two of
    them. The session opened around the check brackets only such writes. *)

From S2P Require Import Prelude BTree Floats Hashing Ast Models Errors Values MatchPath Solver ResultIndex Contexts.
From S2P Require Import Parts FutureQueue Session ContinuousQuery QueryOutput OutputStores OutputPipeline QuerySafety.
From S2P Require Import QueryOutputFacts OutputBackend.

(** lib/src/recovery.rs *)
Inductive RecoveryPolicy := Strict | AutoReset.

#[global] Instance RecoveryPolicy_eq_dec : EqDecision RecoveryPolicy.
Proof. solve_decision. Defined.

(** What the clears of the four indexes are. *)
Class IndexClears (S : Type) := {
  element_index_clear : SM S IndexError unit;
  archive_index_clear : SM S IndexError unit;
  result_index_clear : SM S IndexError unit;
  future_queue_clear : SM S IndexError unit;
}.

Inductive StartError :=
| StartIndexError (e : IndexError)
| StartRefused (message : string)
| StartInconsistent (e : DurableOutputInconsistency).

Section startup.
Context {C : Chrono} {P : Payload} {OF : OutputFormat}.
Context {S : Type} `{!IndexClears S}.
Context (stores : DurableOutputStores S) (query_id : string).
Context (enable_bootstrap : bool) (policy : RecoveryPolicy) (current_hash : Z).

Notation cs := (checkpoint_store stores).

(** The stores and the output state in memory. *)
Notation World := (S * QueryOutputState)%type.

Definition on_disk {E A} (m : SM S E A) : SM World E A := fun w => let '(r, s) := m w.1 in (r, (s, w.2)).
Definition in_memory {E} (f : QueryOutputState -> QueryOutputState) : SM World E unit := fun w => (Ok tt, (w.1, f w.2)).
Definition index_failed {A} (m : SM World IndexError A) : SM World StartError A := sm_map_err StartIndexError m.

(** ** Resetting *)

Definition tolerate_unsupported (m : SM S IndexError unit) : SM S IndexError unit := fun s =>
  match m s with (Err NotSupported, s) => (Ok tt, s) | r => r end.

Definition clear_persistent_indexes : SM S IndexError unit :=
  _ ← tolerate_unsupported element_index_clear;
  _ ← tolerate_unsupported archive_index_clear;
  _ ← tolerate_unsupported result_index_clear;
  tolerate_unsupported future_queue_clear.

Definition hash_after_reset : Z :=
  if enable_bootstrap then output_reset_in_progress_hash current_hash else current_hash.

Definition wipe_indexes_and_checkpoints : SM S IndexError unit :=
  _ ← clear_persistent_indexes;
  _ ← @clear_checkpoints S cs;
  @write_config_hash S cs hash_after_reset.

Definition rebuild (plan : OutputGenerationPlan) : SM World IndexError unit :=
  _ ← on_disk (@write_config_hash S cs (output_reset_in_progress_hash current_hash));
  _ ← on_disk (wipe_durable_output query_id stores (next plan));
  _ ← in_memory (reset_from_generation (persisted plan));
  on_disk wipe_indexes_and_checkpoints.

(** The plan is made from the state the caller reads. *)
Definition plan_and_rebuild : SM World StartError unit :=
  w ← sm_get;
  plan ← index_failed (on_disk (plan_output_generation w.2 stores query_id));
  index_failed (rebuild plan).

(** ** The check of the configuration *)

Definition bootstrap_incomplete (stored_hash : option Z) (result_sequence : option Z) : bool :=
  enable_bootstrap &&
  match stored_hash with
  | Some hash => (hash =? current_hash) && negb (bool_decide (is_Some result_sequence)) ||
                 (hash =? output_reset_in_progress_hash current_hash)
  | None => false
  end.

(** Whether the stores are those of this configuration; where they are not,
    they have been reset. *)
Definition config_matches : SM World StartError bool := fun w =>
  match on_disk (@read_result_sequence S cs query_id) w with
  | (Err e, w) => (Err (StartIndexError e), w)
  | (Panic, w) => (Panic, w)
  | (Ok result_sequence, w) =>
      match on_disk (@read_config_hash S cs) w with
      | (Panic, w) => (Panic, w)
      | (Err e, w) =>
          if enable_bootstrap then (Err (StartIndexError e), w)
          else (_ ← plan_and_rebuild; mret false) w
      | (Ok stored_hash, w) =>
          if bootstrap_incomplete stored_hash result_sequence then
            match policy with
            | Strict => sm_err (StartRefused "incomplete durable bootstrap") w
            | AutoReset => (_ ← plan_and_rebuild; mret false) w
            end
          else
            match stored_hash with
            | Some hash => if hash =? current_hash then (Ok true, w) else (_ ← plan_and_rebuild; mret false) w
            | None =>
                (dirty ← index_failed (on_disk (durable_output_is_dirty query_id stores));
                 if dirty : bool then _ ← plan_and_rebuild; mret false
                 else
                   _ ← index_failed (on_disk clear_persistent_indexes);
                   _ ← index_failed (on_disk (@write_config_hash S cs current_hash));
                   mret false) w
            end
      end
  end.

(** ** Hydrating *)

(** An output state that is initialized already stays; an inconsistent output
    is refused or reset. *)
Definition hydrate_output : SM World StartError bool :=
  w ← sm_get;
  if initialized w.2 then mret true
  else
    let capacity := outbox_capacity w.2 in
    fun w =>
      match on_disk (load_durable_output query_id stores capacity) w with
      | (Ok loaded, w) =>
          (Ok true, (w.1, hydrate (lo_results loaded) (lo_outbox loaded) (lo_sequence loaded) (lo_generation loaded) w.2))
      | (Err e, w) =>
          if is_transient_read e then (Err (StartInconsistent e), w)
          else match policy with
               | Strict => (Err (StartInconsistent e), w)
               | AutoReset => (_ ← plan_and_rebuild; mret false) w
               end
      | (Panic, w) => (Panic, w)
      end.

(** The check, then, for stores of this configuration, the checkpoints and the
    output; the answer is the sequences to resume from. *)
Definition prepare_output (sources : list string) : SM World StartError SequenceDedup :=
  matches ← config_matches;
  if matches : bool then
    checkpoints ← sm_map_err StartInconsistent (on_disk (read_checkpoints stores enable_bootstrap));
    kept ← hydrate_output;
    mret (if kept : bool then checkpoint_sequences sources checkpoints else ∅)
  else mret ∅.
End startup.

(** * A reset is finished before a query resumes

    A start may fail, or the process may die, between any two of the writes of
    a reset. The assertions below carry, besides the outcome of a successful
    computation, a condition that holds wherever it stops: the marker, or the
    bumped generation, forces the next start to reset again, however many
    starts are cut short. *)

(** What the disk holds at a start: [sv_indexes] tells of each index whether
    it is empty. *)
Record StartView := {
  sv_hash : option Z;
  sv_output : OutputView;
  sv_indexes : list bool;
}.

Definition set_hash (h : option Z) (v : StartView) : StartView :=
  {| sv_hash := h; sv_output := sv_output v; sv_indexes := sv_indexes v |}.
Definition set_output (o : OutputView) (v : StartView) : StartView :=
  {| sv_hash := sv_hash v; sv_output := o; sv_indexes := sv_indexes v |}.
Definition set_index (i : nat) (b : bool) (v : StartView) : StartView :=
  {| sv_hash := sv_hash v; sv_output := sv_output v; sv_indexes := <[i := b]> (sv_indexes v) |}.

Definition with_generation_of (g : option Z) (o : OutputView) : OutputView :=
  {| ov_outbox := ov_outbox o; ov_rows := ov_rows o; ov_sequence := ov_sequence o; ov_generation := g;
     ov_checkpoints := ov_checkpoints o |}.
Definition with_outbox_of (b : btree Z Bytes) (o : OutputView) : OutputView :=
  {| ov_outbox := b; ov_rows := ov_rows o; ov_sequence := ov_sequence o; ov_generation := ov_generation o;
     ov_checkpoints := ov_checkpoints o |}.
Definition with_rows_of (r : gmap Z Bytes) (o : OutputView) : OutputView :=
  {| ov_outbox := ov_outbox o; ov_rows := r; ov_sequence := ov_sequence o; ov_generation := ov_generation o;
     ov_checkpoints := ov_checkpoints o |}.
Definition with_checkpoints_of (c : gmap string SourceCheckpoint) (o : OutputView) : OutputView :=
  {| ov_outbox := ov_outbox o; ov_rows := ov_rows o; ov_sequence := ov_sequence o; ov_generation := ov_generation o;
     ov_checkpoints := c |}.

(** ** Computations that may stop anywhere *)

Section crash.
Context {W E : Type}.

(** From a state of [Pre], a computation ends in [Post], or stops in [Stop]. *)
Definition runs {A} (Pre : W -> Prop) (m : SM W E A) (Post : A -> W -> Prop) (Stop : W -> Prop) : Prop :=
  forall w, Pre w -> match m w with (Ok a, w') => Post a w' | (Err _, w') => Stop w' | (Panic, _) => False end.

Lemma runs_ret {A} Pre (a : A) Stop : runs Pre (mret a) (fun b w => b = a /\ Pre w) Stop.
Proof. by intros w Hw. Qed.

Lemma runs_bind {A B} Pre (m : SM W E A) (f : A -> SM W E B) Mid Post Stop :
  runs Pre m Mid Stop -> (forall a, runs (Mid a) (f a) Post Stop) -> runs Pre (m ≫= f) Post Stop.
Proof.
  intros Hm Hf w Hw. unfold mbind, SM_bind. specialize (Hm w Hw). destruct (m w) as [[a|e|] w1]; [|done..].
  by apply Hf.
Qed.

Lemma runs_weaken {A} (Pre Pre' : W -> Prop) (m : SM W E A) (Post Post' : A -> W -> Prop) (Stop Stop' : W -> Prop) :
  runs Pre m Post Stop -> (forall w, Pre' w -> Pre w) -> (forall a w, Post a w -> Post' a w) ->
  (forall w, Stop w -> Stop' w) -> runs Pre' m Post' Stop'.
Proof. intros Hm H1 H2 H3 w Hw. specialize (Hm w (H1 w Hw)). destruct (m w) as [[a|e|] w1]; auto. Qed.

Lemma runs_map_err {F A} (f : E -> F) Pre (m : SM W E A) Post Stop :
  runs Pre m Post Stop -> match sm_map_err f m with m' => forall w, Pre w ->
    match m' w with (Ok a, w') => Post a w' | (Err _, w') => Stop w' | (Panic, _) => False end end.
Proof. intros Hm w Hw. unfold sm_map_err. specialize (Hm w Hw). by destruct (m w) as [[a|e|] w1]. Qed.
End crash.

(** ** The contract of standalone writes *)

Class StandaloneStores {S : Type} `{!IndexClears S} (stores : DurableOutputStores S) (query_id : string) := {
  start_view : S -> StartView;
  (** a write happens or not *)
  write_hash_law h v : runs (fun s => start_view s = v) (@write_config_hash S (checkpoint_store stores) h)
    (fun _ s => start_view s = set_hash (Some h) v) (fun s => start_view s = v);
  write_sequence_law n v : runs (fun s => start_view s = v) (@write_result_sequence S (checkpoint_store stores) query_id n)
    (fun _ s => start_view s = set_output (view_sequence n (sv_output v)) v) (fun s => start_view s = v);
  write_generation_law g v : runs (fun s => start_view s = v) (@write_output_generation S (checkpoint_store stores) query_id g)
    (fun _ s => start_view s = set_output (with_generation_of (Some g) (sv_output v)) v) (fun s => start_view s = v);
  (** a clear may stop half way *)
  outbox_clear_law w v : outbox_writer stores = Some w ->
    runs (fun s => start_view s = v) (@outbox_clear S w query_id)
      (fun _ s => start_view s = set_output (with_outbox_of [] (sv_output v)) v)
      (fun s => exists o, start_view s = set_output (with_outbox_of o (sv_output v)) v);
  live_clear_law w v : live_results_writer stores = Some w ->
    runs (fun s => start_view s = v) (@live_clear S w query_id)
      (fun _ s => start_view s = set_output (with_rows_of ∅ (sv_output v)) v)
      (fun s => exists r, start_view s = set_output (with_rows_of r (sv_output v)) v);
  checkpoints_clear_law v :
    runs (fun s => start_view s = v) (@clear_checkpoints S (checkpoint_store stores))
      (fun _ s => start_view s = set_hash None (set_output (with_checkpoints_of ∅ (sv_output v)) v))
      (fun s => exists c h, (h = None \/ h = sv_hash v) /\
         start_view s = set_hash h (set_output (with_checkpoints_of c (sv_output v)) v));
  index_clear_law i m v : [element_index_clear; archive_index_clear; result_index_clear; future_queue_clear] !! i = Some m ->
    runs (fun s => start_view s = v) (tolerate_unsupported m)
      (fun _ s => start_view s = set_index i true v) (fun s => exists b, start_view s = set_index i b v);
  start_reads_sequence v : runs (fun s => start_view s = v) (@read_result_sequence S (checkpoint_store stores) query_id)
    (fun r s => r = ov_sequence (sv_output v) /\ start_view s = v) (fun s => start_view s = v);
  start_reads_generation v : runs (fun s => start_view s = v) (@read_output_generation S (checkpoint_store stores) query_id)
    (fun r s => r = ov_generation (sv_output v) /\ start_view s = v) (fun s => start_view s = v);
  start_reads_hash v : runs (fun s => start_view s = v) (@read_config_hash S (checkpoint_store stores))
    (fun r s => r = sv_hash v /\ start_view s = v) (fun s => start_view s = v);
  start_reads_outbox w v : outbox_writer stores = Some w ->
    runs (fun s => start_view s = v) (@outbox_read_latest_sequence S w query_id)
      (fun r s => start_view s = v) (fun s => start_view s = v);
  start_reads_rows w v : live_results_writer stores = Some w ->
    runs (fun s => start_view s = v) (@live_read_snapshot S w query_id)
      (fun r s => start_view s = v) (fun s => start_view s = v);
  four_indexes s : length (sv_indexes (start_view s)) = 4%nat;
}.

Section facts.
Context {C : Chrono} {P : Payload} {OF : OutputFormat}.
Context {S : Type} `{!IndexClears S} (stores : DurableOutputStores S) (query_id : string) {SS : StandaloneStores stores query_id}.
Context (enable_bootstrap : bool) (policy : RecoveryPolicy) (current_hash : Z).

Notation World := (S * QueryOutputState)%type.
Notation marker := (output_reset_in_progress_hash current_hash).
Notation gen v := (default 0 (ov_generation (sv_output v))).

Definition at_view (v : StartView) (s : S) : Prop := start_view s = v.

(** The marker is never the hash of the configuration. *)
Lemma marker_differs : marker <> current_hash.
Proof. unfold output_reset_in_progress_hash, u64_max. lia. Qed.

(** Nothing of the old output is left. *)
Definition emptied (v : StartView) : Prop :=
  (is_Some (outbox_writer stores) -> ov_outbox (sv_output v) = []) /\
  (is_Some (live_results_writer stores) -> ov_rows (sv_output v) = ∅) /\ ov_sequence (sv_output v) = Some 0.
Definition cleared (v : StartView) : Prop :=
  sv_indexes v = [true; true; true; true] /\ ov_checkpoints (sv_output v) = ∅.

(** The next start cannot take the stores for those of a finished start. *)
Definition must_reset (g : Z) (v : StartView) : Prop :=
  (sv_hash v = Some marker /\ g <= gen v \/ sv_hash v = None /\ Z.max 1 g <= gen v) /\ u64_ok (gen v).

(** A finished reset, with a later generation. *)
Definition was_reset (g : Z) (v : StartView) : Prop :=
  sv_hash v = Some (hash_after_reset enable_bootstrap current_hash) /\ emptied v /\ cleared v /\ g <= gen v /\ u64_ok (gen v).

Lemma runs_views {E A} (I : StartView -> Prop) (m : SM S E A) Post Stop :
  (forall v, I v -> runs (at_view v) m Post Stop) -> runs (fun s => I (start_view s)) m Post Stop.
Proof. intros Hm s Hs. by apply (Hm (start_view s)). Qed.

Lemma runs_disk {E A} (m : SM S E A) Pre Post (Stop : S -> Prop) st :
  runs Pre m Post Stop -> runs (fun w => Pre w.1 /\ w.2 = st) (on_disk m) (fun a (w : World) => Post a w.1 /\ w.2 = st) (fun w => Stop w.1).
Proof.
  intros Hm [s q] [Hs Hq]. cbn in *. unfold on_disk. cbn. specialize (Hm s Hs). by destruct (m s) as [[a|e|] s1].
Qed.

Lemma optional_clear {X} (o : option X) (clear : X -> SM S IndexError unit) (field : StartView -> Prop)
    (I : StartView -> Prop) :
  (forall w v, o = Some w -> I v -> runs (at_view v) (clear w)
     (fun _ s => I (start_view s) /\ field (start_view s)) (fun s => I (start_view s))) ->
  runs (fun s => I (start_view s)) (match o with Some w => clear w | None => mret tt end)
    (fun _ s => I (start_view s) /\ (is_Some o -> field (start_view s))) (fun s => I (start_view s)).
Proof.
  intros Hc. destruct o as [w|].
  - apply runs_views. intros v Hv. eapply runs_weaken; [by apply (Hc w v)|done| |done]. by intros [] s [? ?].
  - intros s Hs. split; [done|]. by intros [? ?].
Qed.

Lemma wipe_runs g v : sv_hash v = Some marker -> u64_ok (gen v) -> u64_ok g -> gen v <= g ->
  runs (at_view v) (wipe_durable_output query_id stores g)
    (fun _ s => sv_hash (start_view s) = Some marker /\ gen (start_view s) = g /\ emptied (start_view s))
    (fun s => must_reset (gen v) (start_view s)).
Proof.
  intros Hh Hv Hgo Hg. unfold wipe_durable_output.
  eapply runs_bind.
  { eapply runs_weaken; [apply (write_sequence_law 0 v)|done|intros a s Hs; exact Hs|]. intros s ->. split; [by left|done]. }
  intros []. eapply runs_bind.
  { eapply runs_weaken; [apply (write_generation_law g)|intros s Hs; exact Hs|intros a s Hs; exact Hs|].
    intros s ->. split; [left; cbn; split; [done|lia]|done]. }
  intros []. set (I := fun v' => sv_hash v' = Some marker /\ gen v' = g /\ ov_sequence (sv_output v') = Some 0).
  eapply runs_bind.
  { eapply runs_weaken; [apply (optional_clear _ (fun w => outbox_clear query_id) (fun v' => ov_outbox (sv_output v') = []) I)| | |].
    - intros w v' Hw Hv'. eapply runs_weaken; [by apply (outbox_clear_law w v')|done| |].
      + intros [] s ->. split; [by destruct Hv'|done].
      + intros s [o ->]. by destruct Hv'.
    - intros s Hs. cbn beta in *. rewrite Hs. by split_and!.
    - intros a s Hs. exact Hs.
    - intros s (H1 & H2 & _). split; rewrite H2; [by left|done]. }
  intros []. set (J := fun v' => I v' /\ (is_Some (outbox_writer stores) -> ov_outbox (sv_output v') = [])).
  eapply runs_weaken; [apply (optional_clear _ (fun w => live_clear query_id) (fun v' => ov_rows (sv_output v') = ∅) J)| | |].
  - intros w v' Hw [Hv' Ho]. eapply runs_weaken; [by apply (live_clear_law w v')|done| |].
    + intros [] s ->. split; [split; [by destruct Hv'|done]|done].
    + intros s [r ->]. split; [by destruct Hv'|done].
  - intros s Hs. exact Hs.
  - intros [] s [[(H1 & H2 & H3) Ho] Hr]. by split_and!.
  - intros s [(H1 & H2 & _) _]. split; rewrite H2; [by left|done].
Qed.

Notation with_indexes l v := {| sv_hash := sv_hash v; sv_output := sv_output v; sv_indexes := l |}.

Lemma clear_index_runs v i m l :
  [element_index_clear (S:=S); archive_index_clear; result_index_clear; future_queue_clear] !! i = Some m ->
  runs (at_view (with_indexes l v)) (tolerate_unsupported m) (fun _ => at_view (with_indexes (<[i := true]> l) v))
    (fun s => sv_hash (start_view s) = sv_hash v /\ sv_output (start_view s) = sv_output v).
Proof.
  intros Hm. eapply runs_weaken; [apply (index_clear_law i m (with_indexes l v) Hm)|done|done|]. by intros s [b ->].
Qed.

Lemma clear_indexes_runs v :
  runs (at_view v) (clear_persistent_indexes (S:=S)) (fun _ => at_view (with_indexes [true; true; true; true] v))
    (fun s => sv_hash (start_view s) = sv_hash v /\ sv_output (start_view s) = sv_output v).
Proof.
  intros s0 Hs0. pose proof (four_indexes s0) as Hlen. rewrite Hs0 in Hlen.
  destruct v as [h o [|b1 [|b2 [|b3 [|b4 [|]]]]]]; try done. set (v := {| sv_hash := h; sv_output := o; sv_indexes := _ |}) in *.
  clear Hlen. revert s0 Hs0. change (runs (at_view v) (clear_persistent_indexes (S:=S))
    (fun _ => at_view (with_indexes [true; true; true; true] v))
    (fun s => sv_hash (start_view s) = sv_hash v /\ sv_output (start_view s) = sv_output v)).
  unfold clear_persistent_indexes.
  eapply runs_bind; [exact (clear_index_runs v 0 _ [b1; b2; b3; b4] eq_refl)|]. intros [].
  eapply runs_bind; [exact (clear_index_runs v 1 _ [true; b2; b3; b4] eq_refl)|]. intros [].
  eapply runs_bind; [exact (clear_index_runs v 2 _ [true; true; b3; b4] eq_refl)|]. intros [].
  exact (clear_index_runs v 3 _ [true; true; true; b4] eq_refl).
Qed.

Lemma wipe_indexes_runs g v : 0 < g -> u64_ok g -> sv_hash v = Some marker -> gen v = g -> emptied v ->
  runs (at_view v) (wipe_indexes_and_checkpoints stores enable_bootstrap current_hash)
    (fun _ s => was_reset g (start_view s)) (fun s => must_reset g (start_view s)).
Proof.
  intros Hg Hgo Hh Hgen (He1 & He2 & He3). unfold wipe_indexes_and_checkpoints.
  eapply runs_bind.
  { eapply runs_weaken; [apply (clear_indexes_runs v)|done|intros a s Hs; exact Hs|].
    intros s [H1 H2]. unfold must_reset. rewrite H1, H2, Hgen. split; [left; split; [done|lia]|done]. }
  intros []. eapply runs_bind.
  { eapply runs_weaken; [apply checkpoints_clear_law|intros s Hs; exact Hs|intros a s Hs; exact Hs|].
    intros s (c & h & Hch & ->). split; cbn; rewrite Hgen; [|done]. destruct Hch as [-> | ->]; [right|left]; cbn; (split; [done|lia]). }
  intros []. eapply runs_weaken; [apply write_hash_law|intros s Hs; exact Hs| |].
  - intros [] s ->. unfold was_reset, emptied, cleared. cbn. rewrite Hgen. by split_and!.
  - intros s ->. split; cbn; rewrite Hgen; [right; split; [done|lia]|done].
Qed.

Lemma must_reset_weaken g g' v : g' <= g -> must_reset g v -> must_reset g' v.
Proof. intros Hg [Hm Ho]. split; [|done]. destruct Hm as [[? ?]|[? ?]]; [left|right]; (split; [done|lia]). Qed.

(** ** Rebuilding *)

Definition at_world (v : StartView) (q : QueryOutputState) (w : World) : Prop := start_view w.1 = v /\ w.2 = q.

Notation rebuild := (rebuild stores query_id enable_bootstrap current_hash).
Notation plan_and_rebuild := (plan_and_rebuild stores query_id enable_bootstrap current_hash).
Notation config_matches := (config_matches stores query_id enable_bootstrap policy current_hash).

Lemma rebuild_runs plan v q : 0 < next plan -> u64_ok (next plan) -> u64_ok (gen v) -> gen v <= next plan ->
  runs (at_world v q) (rebuild plan)
    (fun _ w => was_reset (next plan) (start_view w.1) /\ w.2 = reset_from_generation (persisted plan) q)
    (fun w => start_view w.1 = v \/ must_reset (gen v) (start_view w.1)).
Proof.
  intros Hn Hno Hv Hle. unfold Startup.rebuild.
  eapply runs_bind.
  { eapply runs_weaken; [apply (runs_disk _ _ _ _ q (write_hash_law marker v))|done|intros a w Hw; exact Hw|]. by left. }
  intros []. eapply runs_bind.
  { eapply runs_weaken; [apply (runs_disk _ _ _ _ q (wipe_runs (next plan) (set_hash (Some marker) v) eq_refl Hv Hno Hle))|done|intros a w Hw; exact Hw|].
    intros w Hw. right. exact Hw. }
  intros []. apply (runs_bind _ _ _ (fun _ (w : World) =>
    (sv_hash (start_view w.1) = Some marker /\ gen (start_view w.1) = next plan /\ emptied (start_view w.1)) /\
    w.2 = reset_from_generation (persisted plan) q)).
  { intros [s q'] [Hs Hq]. cbn in Hs, Hq. subst q'. cbn. done. }
  intros []. eapply runs_weaken.
  - apply runs_disk. apply (runs_views (fun v' => sv_hash v' = Some marker /\ gen v' = next plan /\ emptied v')).
    intros v' (H1 & H2 & H3). by apply (wipe_indexes_runs (next plan)).
  - intros w Hw. exact Hw.
  - intros [] w Hw. exact Hw.
  - intros w Hw. right. by apply (must_reset_weaken (next plan)).
Qed.

Lemma plan_and_rebuild_runs v q : u64_ok (gen v) -> 0 <= generation q ->
  runs (at_world v q) plan_and_rebuild
    (fun _ w => was_reset (saturating_add (gen v) 1) (start_view w.1) /\ w.2 = reset_from_generation (gen v) q)
    (fun w => start_view w.1 = v \/ must_reset (gen v) (start_view w.1)).
Proof.
  intros Hv Hq [s q'] [Hs Hq']. cbn in Hs, Hq'. subst q'. unfold Startup.plan_and_rebuild, index_failed, sm_map_err.
  cbn. unfold plan_output_generation, persisted_output_generation, on_disk. cbn.
  pose proof (start_reads_generation v s Hs) as Hr. unfold mbind, SM_bind. cbn.
  destruct (read_output_generation query_id s) as [[g|e|] s1]; cbn; [|by left|done]. destruct Hr as [-> Hs1].
  set (plan := {| persisted := _; next := _ |}).
  assert (Hn : 0 < next plan /\ u64_ok (next plan) /\ saturating_add (gen v) 1 <= next plan /\ gen v <= next plan).
  { subst plan. cbn [next]. unfold next_output_generation, saturating_add. change (from_option id 0 (ov_generation (sv_output v))) with (gen v) in *. unfold u64_ok in *. pose proof (eq_refl : u64_max = 18446744073709551615). lia. }
  destruct Hn as (Hn1 & Hn2 & Hn3 & Hn4).
  pose proof (rebuild_runs plan v q Hn1 Hn2 Hv Hn4 (s1, q) (conj Hs1 eq_refl)) as Hrun.
  change (Startup.rebuild stores query_id enable_bootstrap current_hash plan (s1, q)) with (rebuild plan (s1, q)).
  destruct (rebuild plan (s1, q)) as [[[]|e|] w]; [|done..]. cbn. destruct Hrun as [(H1 & H2 & H3 & H4 & H5) H6].
  split; [|done]. split_and!; [done..|lia|done].
Qed.

(** ** The next start *)

Lemma dirty_runs v : 0 < gen v -> runs (at_view v) (durable_output_is_dirty query_id stores) (fun b s => b = true /\ start_view s = v) (at_view v).
Proof.
  intros Hg. unfold durable_output_is_dirty. eapply runs_bind; [apply start_reads_sequence|]. intros seq s [-> Hs].
  destruct (0 <? default 0 (ov_sequence (sv_output v))); [done|].
  unfold persisted_output_generation, mbind, SM_bind. cbn. pose proof (start_reads_generation v s Hs) as Hr.
  destruct (read_output_generation query_id s) as [[g|e|] s1]; cbn; [|done..]. destruct Hr as [-> Hs1].
  destruct (Z.ltb_spec 0 (gen v)); [done|lia].
Qed.

Lemma config_matches_resets g v q : must_reset g v -> 0 <= g -> 0 <= generation q ->
  runs (at_world v q) config_matches
    (fun b w => b = false /\ was_reset (saturating_add g 1) (start_view w.1))
    (fun w => must_reset g (start_view w.1)).
Proof.
  intros HM Hg0 Hq. pose proof HM as [Hm Ho]. assert (Hgen : g <= gen v) by (destruct Hm as [[_ ?]|[_ ?]]; lia).
  assert (Hre : forall w, at_world v q w -> match (_ ← plan_and_rebuild; mret false) w with
            | (Ok b, w') => b = false /\ was_reset (saturating_add g 1) (start_view w'.1)
            | (Err _, w') => must_reset g (start_view w'.1)
            | (Panic, _) => False
            end).
  { intros w Hw. unfold mbind, SM_bind. pose proof (plan_and_rebuild_runs v q Ho Hq w Hw) as Hr.
    destruct (plan_and_rebuild w) as [[[]|e|] w']; [|destruct Hr as [-> | Hr]; [by split|by apply (must_reset_weaken (gen v))]|done].
    cbn. split; [done|]. destruct Hr as [(H1 & H2 & H3 & H4 & H5) _]. split_and!; [done..| |done].
    unfold saturating_add in *. lia. }
  intros [s q'] [Hs Hq']. cbn in Hs, Hq'. subst q'. unfold Startup.config_matches, on_disk at 1. cbn [fst snd].
  pose proof (start_reads_sequence v s Hs) as Hr1. destruct (read_result_sequence query_id s) as [[seq|e|] s1]; [|cbn in *; by rewrite Hr1|done].
  destruct Hr1 as [-> Hs1]. unfold on_disk at 1. cbn [fst snd].
  pose proof (start_reads_hash v s1 Hs1) as Hr2. destruct (read_config_hash s1) as [[h|e|] s2]; [| |done].
  2: { destruct enable_bootstrap; [cbn; by rewrite Hr2|]. by apply Hre. }
  destruct Hr2 as [-> Hs2]. destruct (bootstrap_incomplete _ _ _ _).
  { destruct policy; [cbn; by rewrite Hs2|]. by apply Hre. }
  destruct Hm as [[Hh _]|[Hh Hg]]; rewrite Hh.
  - destruct (Z.eqb_spec marker current_hash) as [Heq|_]; [by apply marker_differs in Heq|]. by apply Hre.
  - unfold mbind at 1, SM_bind at 1, index_failed at 1, sm_map_err at 1, on_disk at 1. cbn [fst snd].
    pose proof (dirty_runs v ltac:(lia) s2 Hs2) as Hd. destruct (durable_output_is_dirty query_id stores s2) as [[b|e|] s3]; [|cbn; unfold at_view in Hd; by rewrite Hd|done].
    destruct Hd as [-> Hs3]. by apply Hre.
Qed.

(** ** Starts that are cut short *)

(** A start that stopped, by an error or a crash, at some write of its check;
    the process that ran it may have held any output state. *)
Definition failed_start (s s' : S) : Prop := exists q e q',
  0 <= generation q /\ config_matches (s, q) = (Err e, (s', q')).

Lemma failed_starts_must_reset g s s' : 0 <= g -> rtc failed_start s s' ->
  must_reset g (start_view s) -> must_reset g (start_view s').
Proof.
  intros Hg Hst. induction Hst as [|s s1 s2 (q & e & q' & Hq & Hrun) _ IH]; [done|]. intros Hm. apply IH.
  pose proof (config_matches_resets g _ q Hm Hg Hq (s, q) (conj eq_refl eq_refl)) as Hr. by rewrite Hrun in Hr.
Qed.

(** [C7] A reset that was cut short is finished before the query resumes:
    once a reset has begun to write, whatever starts fail after it, the next
    start that gets through its check has wiped the output, the indexes and the
    checkpoints, and moved to a later output generation; none takes what the
    reset left behind for the output of the query. *)
Theorem interrupted_reset_is_finished s0 q0 e s1 q1 s2 q2 matches w :
  u64_ok (gen (start_view s0)) -> 0 <= generation q0 -> 0 <= generation q2 ->
  plan_and_rebuild (s0, q0) = (Err e, (s1, q1)) -> start_view s1 <> start_view s0 ->
  rtc failed_start s1 s2 -> config_matches (s2, q2) = (Ok matches, w) ->
  matches = false /\ was_reset (saturating_add (gen (start_view s0)) 1) (start_view w.1).
Proof.
  intros Hu Hq0 Hq2 Hrun Hne Hst Hok.
  pose proof (plan_and_rebuild_runs _ q0 Hu Hq0 (s0, q0) (conj eq_refl eq_refl)) as Hr. rewrite Hrun in Hr.
  destruct Hr as [Hr|Hr]; [done|]. pose proof Hu as [Hg _].
  pose proof (failed_starts_must_reset _ _ _ Hg Hst Hr) as Hm.
  pose proof (config_matches_resets _ _ q2 Hm Hg Hq2 (s2, q2) (conj eq_refl eq_refl)) as Hr2. by rewrite Hok in Hr2.
Qed.
End facts.
