(* ===== verification/OutputRecovery.v ===== *)
(** * Recovery of a query's output

    The durable output follows the output state of the running query, whatever
    events arrive and whichever of them fail, and a new process reads it back:
    the same rows, sequence and outbox, and the sequences that make the
    re-delivered events duplicates. *)

From stdpp Require Import sorting.
From S2P Require Import Prelude BTree Floats Hashing Ast Models Errors Values MatchPath Solver ResultIndex Contexts.
From S2P Require Import Parts FutureQueue Session ContinuousQuery QueryOutput OutputStores OutputPipeline QuerySafety.
From S2P Require Import QueryOutputFacts OutputBackend.

(** ** Ordered maps keyed by numbers *)

Section numbers.
Context {V : Type}.
Implicit Types m : btree Z V.

Lemma bt_insert_last k v m : (forall e, e ∈ m -> e.1 < k) -> bt_insert k v m = m ++ [(k, v)].
Proof.
  induction m as [|[j w] m IH]; intros Hlt; [done|]. cbn [bt_insert app].
  pose proof (Hlt (j, w) ltac:(set_solver)) as Hj. cbn in Hj.
  replace (cmp k j) with Gt by (symmetry; by apply Z.compare_gt_iff). f_equal. apply IH. set_solver.
Qed.

Lemma filter_keys_from m a n r : map fst m = seqZ a n -> 0 <= n ->
  List.filter (fun e => r <=? e.1) m = drop (Z.to_nat (r - a)) m.
Proof.
  revert a n. induction m as [|[k v] m IH]; intros a n Hm Hn; [by rewrite drop_nil|].
  destruct (decide (n = 0)) as [->|Hn0]; [done|]. cbn [map fst] in Hm. rewrite seqZ_cons in Hm by lia. injection Hm as -> Hm.
  cbn [List.filter fst]. rewrite (IH _ _ Hm) by lia. destruct (Z.leb_spec r a).
  - replace (Z.to_nat (r - a)) with 0%nat by lia. replace (Z.to_nat (r - Z.succ a)) with 0%nat by lia. done.
  - replace (Z.to_nat (r - a)) with (Datatypes.S (Z.to_nat (r - Z.succ a))) by lia. done.
Qed.
End numbers.

Section recovery.
Context {C : Chrono} {H : Hashers} {HO : HashMapOrder} {P : Payload} {OF : OutputFormat} {OL : OutputFormatLaws}.
Context {S : Type} `{!AccumulatorIndex S} `{!ElementIndexOps S} `{!FutureQueueOps S} `{!SessionControl S}.
Context {EE : ExpressionEvaluator S} {TS : TransactionalSession S}.
Context (cs : CheckpointStore S) (ow : OutboxWriter S) (lw : LiveResultsWriter S) (query_id : string).
Context {DB : DurableBackend cs ow lw query_id}.

Definition stores : DurableOutputStores S :=
  {| checkpoint_store := cs; outbox_writer := Some ow; live_results_writer := Some lw |}.

Notation out := (out output_view).
Notation Processor := (Processor (S:=S)).

(** ** The relation between the stores and the output state *)

(** Emissions are the same up to their metadata: the profile of the committed
    emission is completed after the commit. *)
Definition same_emission (r r' : QueryResult) : Prop :=
  qr_query_id r = qr_query_id r' /\ qr_sequence r = qr_sequence r' /\ qr_results r = qr_results r'.

Definition entry_holds (e : Z * Bytes) (r : QueryResult) : Prop :=
  e.1 = qr_sequence r /\ exists r', result_from_slice e.2 = Ok r' /\ same_emission r' r.

(** The stored rows are those of the state. *)
Definition rows_hold (stored : gmap Z Bytes) (rows : gmap Z Json) : Prop :=
  forall k, match stored !! k, rows !! k with
            | Some b, Some j => row_from_slice b = Ok j
            | None, None => True
            | _, _ => False
            end.

(** What a bootstrap leaves behind. *)
Definition bootstrapped (checkpoints : gmap string SourceCheckpoint) : Prop :=
  checkpoints <> ∅ /\
  forall id cp, checkpoints !! id = Some cp -> 0 < cp_sequence cp \/ is_Some (cp_source_position cp).

Record durable (v : OutputView) (st : QueryOutputState) : Prop := {
  du_window : window_ok st;
  du_bound : as_of_sequence st <= u64_max;
  du_sequence : default 0 (ov_sequence v) = as_of_sequence st;
  du_generation : default 0 (ov_generation v) = generation st;
  du_outbox : Forall2 entry_holds (ov_outbox v) (outbox st);
  du_rows : rows_hold (ov_rows v) (results st);
  du_start : as_of_sequence st = 0 ->
    ov_rows v = ∅ \/ ov_sequence v = Some 0 /\ bootstrapped (ov_checkpoints v);
}.

Lemma entries_keys o rs : Forall2 entry_holds o rs -> map fst o = map qr_sequence rs.
Proof. induction 1 as [|e r o rs [He _] _ IH]; [done|]. cbn. by rewrite He, IH. Qed.

(** ** Staging *)

Lemma rows_hold_insert stored rows k b j :
  rows_hold stored rows -> row_from_slice b = Ok j -> rows_hold (<[k := b]> stored) (<[k := j]> rows).
Proof.
  intros Hr Hb i. destruct (decide (i = k)) as [->|Hi]; [by rewrite !lookup_insert_eq|].
  rewrite !lookup_insert_ne by done. apply Hr.
Qed.

Lemma rows_hold_delete stored rows k : rows_hold stored rows -> rows_hold (delete k stored) (delete k rows).
Proof.
  intros Hr i. destruct (decide (i = k)) as [->|Hi]; [by rewrite !lookup_delete_eq|].
  rewrite !lookup_delete_ne by done. apply Hr.
Qed.

(** The mutations of some diffs do to the stored rows what the diffs do to the
    live rows. *)
Lemma rows_hold_mutations diffs acc muts stored rows :
  out_foldl serialize_mutation acc (omap diff_mutation diffs) = Ok muts ->
  rows_hold (fold_left apply_mutation acc stored) rows ->
  rows_hold (fold_left apply_mutation muts stored) (fold_left apply_diff diffs rows).
Proof.
  revert acc rows. induction diffs as [|d diffs IH]; intros acc rows; cbn [fold_left]; [by intros [= <-]|].
  assert (Hset : forall k j m, out_foldl serialize_mutation acc ((k, Some j) :: m) = Ok muts ->
            exists b, row_from_slice b = Ok j /\
              out_foldl serialize_mutation (acc ++ [{| mutation_signature := k; mutation_data := Some b |}]) m = Ok muts).
  { intros k j m. cbn. destruct (row_to_vec j) as [b| |] eqn:Hb; cbn; [|done..].
    intros Hm. exists b. split; [by apply row_round_trip|done]. }
  assert (Hdone : forall k j, out_foldl serialize_mutation acc ((k, Some j) :: omap diff_mutation diffs) = Ok muts ->
            rows_hold (fold_left apply_mutation acc stored) rows ->
            rows_hold (fold_left apply_mutation muts stored) (fold_left apply_diff diffs (<[k := j]> rows))).
  { intros k j Hm Hr. destruct (Hset _ _ _ Hm) as (b & Hb & Hm'). apply (IH _ _ Hm').
    rewrite fold_left_app. by apply rows_hold_insert. }
  destruct d as [j k|j k|j jb ja g k|jb j k|]; cbn [omap list_omap diff_mutation apply_diff]; [by apply Hdone| |by apply Hdone..|].
  - intros Hm Hr. apply (IH _ _ Hm). rewrite fold_left_app. by apply rows_hold_delete.
  - apply IH.
Qed.

Definition staged_view (result : QueryResult) (capacity : Z) (v v' : OutputView) : Prop :=
  exists data muts, result_to_vec_named result = Ok data /\ row_mutations (qr_results result) = Ok muts /\
    v' = view_sequence (qr_sequence result) (view_mutate muts
           (view_append (qr_sequence result) data (saturating_add (saturating_sub (qr_sequence result) capacity) 1) v)).

Lemma map_err_ok {E F A} (f : E -> F) (o : outcome E A) a : map_err f o = Ok a -> o = Ok a.
Proof. by destruct o; intros [= ->]. Qed.

Lemma stages_outbox result capacity :
  stages output_view (stage_outbox (Some ow) query_id result capacity) (fun v _ v' => exists data,
    result_to_vec_named result = Ok data /\
    v' = view_append (qr_sequence result) data (saturating_add (saturating_sub (qr_sequence result) capacity) 1) v).
Proof.
  eapply stages_bind; [apply stages_lift|]. intros data. eapply stages_bind; [apply append_law|]. intros n.
  eapply stages_weaken; [apply stages_ret|]. intros v a v' [_ ->] v1 -> v0 [Hd%map_err_ok ->]. by exists data.
Qed.

Lemma stages_live_rows diffs :
  stages output_view (stage_live_rows (Some lw) query_id diffs) (fun v _ v' => exists muts,
    row_mutations diffs = Ok muts /\ v' = view_mutate muts v).
Proof.
  eapply stages_bind; [apply stages_lift|]. intros muts. destruct (is_nil muts) eqn:Hn.
  - eapply stages_weaken; [apply stages_ret|]. intros v a v' [_ ->] v1 [Hm%map_err_ok ->].
    exists muts. split; [done|]. destruct muts; [|done]. by destruct v1.
  - eapply stages_weaken; [apply mutations_law|]. intros v a v' -> v1 [Hm%map_err_ok ->]. by exists muts.
Qed.

Lemma stages_durable_output diffs source stamp output :
  stages output_view (stage_durable_query_output stores diffs source query_id stamp output)
    (fun v r v' => r = staged_result stores diffs source query_id stamp output /\
       match r with Some result => staged_view result (outbox_capacity output) v v' | None => v' = v end).
Proof.
  unfold stage_durable_query_output. destruct (staged_result _ _ _ _ _ _) as [result|] eqn:Hr.
  2: { eapply stages_weaken; [apply stages_ret|]. by intros v a v' [-> ->]. }
  assert (Hres : qr_results result = diffs).
  { unfold staged_result in Hr. destruct (is_nil diffs); [done|]. cbn in Hr. by injection Hr as <-. }
  eapply stages_bind; [apply stages_outbox|]. intros []. eapply stages_bind; [apply stages_live_rows|]. intros [].
  eapply stages_bind; [apply sequence_law|]. intros [].
  eapply stages_weaken; [apply stages_ret|]. intros v a v' [-> ->] v1 -> v2 (muts & Hm & ->) v3 (data & Hd & ->).
  split; [done|]. exists data, muts. by rewrite Hres.
Qed.

(** The stores after a staged emission hold the state after its commit. *)
Lemma durable_commit v v' st (result sent : QueryResult) :
  durable v st -> as_of_sequence st < u64_max -> qr_sequence result = saturating_add (as_of_sequence st) 1 ->
  same_emission result sent -> staged_view result (outbox_capacity st) v v' ->
  durable v' (apply_committed_sequence (qr_sequence result) (qr_results result) sent st).2.
Proof.
  intros Hd Hmax Hseq (Hid & Hs & Hr) (data & muts & Hdata & Hmuts & ->).
  pose proof (commits_window [sent] st (du_window _ _ Hd)) as Hw'. cbn [fold_left length] in Hw'.
  destruct Hd as [Hw Hb Hsq Hg Ho Hrows Hstart]. rewrite Hseq. rewrite Hr. fold (commit st sent).
  assert (Hn : saturating_add (as_of_sequence st) 1 = as_of_sequence st + 1) by (unfold saturating_add; lia).
  set (n0 := Z.of_nat (length (outbox st))).
  pose proof (wo_capacity _ Hw) as Hc. pose proof (wo_length _ Hw) as Hl. pose proof (wo_past _ Hw) as Hp.
  pose proof (wo_window _ Hw) as Hkeys. rewrite <- (entries_keys _ _ Ho) in Hkeys. fold n0 in Hkeys, Hl, Hp.
  split.
  - apply Hw'. lia.
  - change (saturating_add (as_of_sequence st) 1 <= u64_max). lia.
  - cbn. done.
  - done.
  - cbn [ov_outbox view_sequence view_mutate view_append]. rewrite Hn.
    rewrite bt_insert_last.
    2: { intros e He. assert (Hin : e.1 ∈ map fst (ov_outbox v)) by (apply list_elem_of_fmap; eauto).
         rewrite Hkeys in Hin. apply elem_of_seqZ in Hin. lia. }
    rewrite (filter_keys_from _ (as_of_sequence st - n0 + 1) (n0 + 1)); [|rewrite map_app, Hkeys; cbn|lia].
    2: { rewrite seqZ_app by lia. f_equal. rewrite seqZ_cons by lia. cbn. f_equal. lia. }
    assert (Hnew : entry_holds (as_of_sequence st + 1, data) (with_sequence (as_of_sequence st + 1) sent)).
    { split; [done|]. exists result. split; [by apply result_round_trip|]. split_and!; [done|cbn; lia|done]. }
    unfold commit, apply_committed_sequence, push_outbox. rewrite Hn. cbn [outbox with_outbox with_as_of apply_diffs with_results outbox_capacity snd].
    assert (Hrf : saturating_add (saturating_sub (as_of_sequence st + 1) (outbox_capacity st)) 1 =
                  Z.max 0 (as_of_sequence st + 1 - outbox_capacity st) + 1) by (unfold saturating_add, saturating_sub; lia).
    rewrite Hrf. assert (Hle : n0 <= outbox_capacity st) by lia. fold n0.
    destruct (Z.leb_spec (outbox_capacity st) n0).
    + replace (Z.to_nat _) with 1%nat by lia. destruct Ho as [|e r o rs He Ho]; [cbn in n0; lia|].
      cbn. apply Forall2_app; [done|]. by constructor.
    + replace (Z.to_nat _) with 0%nat by lia. cbn. apply Forall2_app; [done|]. by constructor.
  - rewrite Hr in Hmuts. exact (rows_hold_mutations _ [] muts _ _ Hmuts Hrows).
  - intros Hz. exfalso. change (saturating_add (as_of_sequence st) 1 = 0) in Hz. lia.
Qed.

(** The stores of a query hold its output, and its deduplication bounds. *)
Record synced (p : Processor) : Prop := {
  sy_durable : durable (out (store p)) (output_state p);
  sy_dedup : forall id, dedup p !! id = cp_sequence <$> ov_checkpoints (out (store p)) !! id;
}.

(** ** Reading back *)

(** A computation of a restart leaves the output, and fails only by a failing
    read. *)
Definition recovers {A} (v : OutputView) (m : SM S DurableOutputInconsistency A) (Q : A -> Prop) : Prop :=
  forall s, out s = v -> out (m s).2 = v /\
    match (m s).1 with Ok a => Q a | Err e => is_transient_read e = true | Panic => False end.

Lemma recovers_bind {A B} v (m : SM S _ A) (f : A -> SM S _ B) Q R :
  recovers v m Q -> (forall a, Q a -> recovers v (f a) R) -> recovers v (m ≫= f) R.
Proof.
  intros Hm Hf s Hs. unfold mbind, SM_bind. destruct (Hm s Hs) as [Ho Hr].
  destruct (m s) as [[a|e|] s1]; cbn in *; [|done..]. by apply Hf.
Qed.

Lemma recovers_ret {A} v (a : A) (Q : A -> Prop) : Q a -> recovers v (mret a) Q.
Proof. intros HQ s Hs. done. Qed.

Lemma recovers_lift {A} v (a : A) o (Q : A -> Prop) : o = Ok a -> Q a -> recovers v (sm_lift o) Q.
Proof. intros -> HQ s Hs. done. Qed.

Lemma recovers_read {A} v (m : SM S IndexError A) Q : reads output_view m Q -> recovers v (read_failed m) (Q v).
Proof.
  intros Hm s Hs. unfold read_failed, sm_map_err. destruct (Hm s) as [[Ho _] Hr]. rewrite Hs in *.
  destruct (m s) as [[a|e|] s1]; cbn in *; done.
Qed.

Lemma recovers_outbox v st : durable v st ->
  recovers v (load_outbox (Some ow) query_id (outbox_capacity st)) (fun r => r = (ov_outbox v, map fst (ov_outbox v))).
Proof.
  intros [Hw Hb Hs Hg Ho Hr Hst]. unfold load_outbox. eapply recovers_bind; [apply recovers_read, read_latest_law|].
  intros latest ->. pose proof (entries_keys _ _ Ho) as Hkeys. rewrite (wo_window _ Hw) in Hkeys.
  pose proof (wo_capacity _ Hw). pose proof (wo_length _ Hw). pose proof (wo_past _ Hw).
  set (n := Z.of_nat (length (outbox st))) in *.
  destruct (last (ov_outbox v)) as [[hwm data]|] eqn:Hlast; cbn [fmap option_fmap option_map].
  2: { apply last_None in Hlast. rewrite Hlast. by apply recovers_ret. }
  assert (Hlk : last (map fst (ov_outbox v)) = Some hwm) by (change (last (fst <$> ov_outbox v) = Some hwm); by rewrite fmap_last, Hlast).
  assert (Hn : 0 < n). { rewrite Hkeys in Hlk. destruct (decide (0 < n)); [done|]. rewrite seqZ_nil in Hlk by lia. done. }
  assert (Hhwm : hwm = as_of_sequence st). { rewrite Hkeys, last_seqZ in Hlk by lia. injection Hlk as <-. lia. }
  eapply recovers_bind; [apply recovers_read, read_from_law|]. intros raw ->. apply recovers_ret.
  assert (Hall : bt_after (saturating_sub hwm (outbox_capacity st)) (ov_outbox v) = ov_outbox v).
  { apply filter_all. intros e He. assert (Hin : e.1 ∈ map fst (ov_outbox v)) by (apply list_elem_of_fmap; eauto).
    rewrite Hkeys in Hin. apply elem_of_seqZ in Hin. apply Z.ltb_lt. unfold saturating_sub. lia. }
  cbn [fst]. rewrite Hall, Hlk. by rewrite bool_decide_eq_true_2.
Qed.

Lemma recovers_live_rows v :
  recovers v (load_live_rows (Some lw) query_id) (fun r => r.1 ≡ₚ map_to_list (ov_rows v) /\ r.2 = true).
Proof. eapply recovers_bind; [apply recovers_read, read_snapshot_law|]. intros rows Hr. by apply recovers_ret. Qed.

Lemma recovers_completed v st keys : durable v st -> keys = map fst (ov_outbox v) ->
  recovers v (completed_snapshot cs (ov_sequence v) keys)
    (fun b : bool => if b then as_of_sequence st = 0 else as_of_sequence st = 0 -> ov_rows v = ∅).
Proof.
  intros Hd ->. pose proof (entries_keys _ _ (du_outbox _ _ Hd)) as Hkeys.
  unfold completed_snapshot. destruct (bool_decide (ov_sequence v = Some 0)) eqn:Hseq; cbn [andb].
  2: { apply recovers_ret. intros Hz. apply bool_decide_eq_false in Hseq. by destruct (du_start _ _ Hd Hz) as [?|[? _]]. }
  apply bool_decide_eq_true in Hseq. assert (Hz : as_of_sequence st = 0) by (rewrite <- (du_sequence _ _ Hd), Hseq; done).
  assert (Hnil : map fst (ov_outbox v) = []).
  { rewrite Hkeys, (wo_window _ (du_window _ _ Hd)), seqZ_nil; [done|]. pose proof (wo_past _ (du_window _ _ Hd)). lia. }
  rewrite Hnil. cbn [is_nil]. eapply recovers_bind; [apply recovers_read, read_checkpoints_law|]. intros cps ->.
  apply recovers_ret. destruct (_ && _) eqn:Hc; [done|]. intros _.
  destruct (du_start _ _ Hd Hz) as [?|(_ & Hne & Hall)]; [done|]. exfalso. apply Bool.andb_false_iff in Hc as [Hc|Hc].
  - by rewrite bool_decide_eq_false_2 in Hc.
  - apply Bool.not_true_iff_false in Hc. apply Hc, forallb_forall. intros [id cp] Hin%list_elem_of_In%elem_of_map_to_list.
    cbn. apply Bool.orb_true_iff. destruct (Hall _ _ Hin); [left; by apply Z.ltb_lt|right; by apply bool_decide_eq_true].
Qed.

(** *** Decoding *)

Lemma decode_entries o rs acc : Forall2 entry_holds o rs ->
  exists rs', out_foldl decode_entry acc o = Ok (acc ++ rs') /\ Forall2 same_emission rs' rs.
Proof.
  intros Ho. revert acc. induction Ho as [|e r o rs (He & r' & Hd & Hi & Hq & Hr) Ho IH]; intros acc; cbn [out_foldl].
  { exists []. by rewrite app_nil_r. }
  assert (He1 : decode_entry acc e = Ok (acc ++ [with_sequence e.1 r'])) by (unfold decode_entry; by rewrite Hd).
  rewrite He1, out_bind_ok. destruct (IH (acc ++ [with_sequence e.1 r'])) as (rs' & -> & Hrs). exists (with_sequence e.1 r' :: rs').
  split; [by rewrite <- app_assoc|]. by constructor.
Qed.

Lemma decode_rows l acc (rows : gmap Z Json) :
  (forall k b, (k, b) ∈ l -> exists j, rows !! k = Some j /\ row_from_slice b = Ok j) ->
  exists m, out_foldl decode_row acc l = Ok m /\
    forall k, m !! k = if decide (k ∈ map fst l) then rows !! k else acc !! k.
Proof.
  revert acc. induction l as [|[k b] l IH]; intros acc Hl; cbn [out_foldl].
  { exists acc. split; [done|]. intros k. by rewrite decide_False by set_solver. }
  destruct (Hl k b) as (j & Hj & Hb); [set_solver|]. 
  assert (He1 : decode_row acc (k, b) = Ok (<[k := j]> acc)) by (unfold decode_row; cbn [fst snd]; by rewrite Hb).
  rewrite He1, out_bind_ok. destruct (IH (<[k := j]> acc)) as (m & -> & Hm); [set_solver|]. exists m. split; [done|].
  intros i. rewrite Hm. cbn [map fst]. destruct (decide (i ∈ map fst l)) as [Hi|Hi].
  - by rewrite decide_True by set_solver.
  - destruct (decide (i = k)) as [->|Hik].
    + rewrite lookup_insert_eq, decide_True by set_solver. done.
    + rewrite lookup_insert_ne by done. by rewrite decide_False by set_solver.
Qed.

Lemma decode_all_rows l stored rows : l ≡ₚ map_to_list stored -> rows_hold stored rows ->
  out_foldl decode_row ∅ l = Ok rows.
Proof.
  intros Hl Hr. destruct (decode_rows l ∅ rows) as (m & -> & Hm).
  - intros k b Hin. rewrite Hl in Hin. apply elem_of_map_to_list in Hin. specialize (Hr k). rewrite Hin in Hr.
    destruct (rows !! k); [eauto|done].
  - f_equal. apply map_eq. intros k. rewrite Hm. case_decide as Hk; [done|]. rewrite lookup_empty.
    specialize (Hr k). destruct (stored !! k) as [b|] eqn:Hs; [|by destruct (rows !! k)].
    exfalso. apply Hk. apply list_elem_of_fmap. exists (k, b). split; [done|]. rewrite Hl. by apply elem_of_map_to_list.
Qed.

(** *** Loading and resuming *)

Lemma recovers_load v st : durable v st ->
  recovers v (load_durable_output query_id stores (outbox_capacity st)) (fun lo =>
    lo_results lo = results st /\ Forall2 same_emission (lo_outbox lo) (outbox st) /\
    lo_sequence lo = as_of_sequence st /\ lo_generation lo = generation st).
Proof.
  intros Hd. unfold load_durable_output. cbn [checkpoint_store outbox_writer live_results_writer stores].
  eapply recovers_bind; [apply recovers_read, read_sequence_law|]. intros seq ->.
  eapply recovers_bind; [apply recovers_read, read_generation_law|]. intros gen ->.
  eapply recovers_bind; [by apply recovers_outbox|]. intros [raw keys] [= -> ->].
  eapply recovers_bind; [apply recovers_live_rows|]. intros [rows readable] [Hrows Hrd]. cbn in Hrd. subst readable.
  eapply recovers_bind; [by apply (recovers_completed v st)|]. intros completed Hc.
  eapply (recovers_bind _ _ _ (fun n => n = as_of_sequence st)).
  { destruct completed; [apply recovers_ret; congruence|]. cbn [fst] in Hrows.
    pose proof (wo_past _ (du_window _ _ Hd)) as Hp. pose proof (du_sequence _ _ Hd) as Hs.
    rewrite (entries_keys _ _ (du_outbox _ _ Hd)), (wo_window _ (du_window _ _ Hd)).
    apply (recovers_lift _ (default 0 (ov_sequence v))); [|done]. apply reconcile_window; [|lia..].
    destruct (decide (as_of_sequence st = 0)) as [Hz|]; [right|left; lia]. split; [|lia].
    rewrite Hrows, (Hc Hz). by rewrite map_to_list_empty. }
  intros n ->. destruct (decode_entries _ _ [] (du_outbox _ _ Hd)) as (rs' & Hrs & Hsame).
  eapply recovers_bind; [by apply (recovers_lift _ _ _ (fun x => x = rs') Hrs)|]. intros es ->.
  eapply recovers_bind; [apply (recovers_lift _ _ _ (fun x => x = results st) (decode_all_rows _ _ _ Hrows (du_rows _ _ Hd))); done|].
  intros rs ->. apply recovers_ret. cbn. by rewrite (du_generation _ _ Hd).
Qed.

(** The same output, up to what is not stored. *)
Record same_output (st st' : QueryOutputState) : Prop := {
  so_results : results st = results st';
  so_sequence : as_of_sequence st = as_of_sequence st';
  so_outbox : Forall2 same_emission (outbox st) (outbox st');
  so_capacity : outbox_capacity st = outbox_capacity st';
  so_generation : generation st = generation st';
}.

Lemma same_emission_sequences rs rs' : Forall2 same_emission rs rs' -> map qr_sequence rs = map qr_sequence rs'.
Proof. induction 1 as [|r r' rs rs' (_ & Hs & _) _ IH]; [done|]. cbn. by rewrite Hs, IH. Qed.

Lemma hydrate_same st lo :
  window_ok st -> outbox_capacity st <= MAX_OUTBOX_CAPACITY ->
  lo_results lo = results st -> Forall2 same_emission (lo_outbox lo) (outbox st) ->
  lo_sequence lo = as_of_sequence st -> lo_generation lo = generation st ->
  same_output (hydrate (lo_results lo) (lo_outbox lo) (lo_sequence lo) (lo_generation lo)
                 (new_output_state (outbox_capacity st))) st.
Proof.
  intros [Hc Hl Hp Hw] Hmax Hr Ho Hs Hg. pose proof (same_emission_sequences _ _ Ho) as Hseqs.
  pose proof (Forall2_length _ _ _ Ho) as Hlen. rewrite Hw, <- Hlen in Hseqs.
  assert (Hcap : outbox_capacity (new_output_state (outbox_capacity st)) = outbox_capacity st).
  { unfold new_output_state. cbn. lia. }
  unfold hydrate. rewrite (sort_window _ _ Hseqs), Hcap, Hlen. replace (Z.to_nat _) with O by lia.
  split; [done| |done|done|done]. cbn. rewrite Hs. lia.
Qed.

Lemma same_output_durable v st st' : durable v st -> same_output st' st -> durable v st'.
Proof.
  intros [Hw Hb Hs Hg Ho Hr Hst] [Er Es Eo Ec Eg].
  pose proof (Forall2_length _ _ _ Eo) as Hlen. destruct Hw as [Hc Hl Hp Hk].
  split; rewrite ?Er, ?Es, ?Eg; [|done..| |done|done].
  - split; rewrite ?Ec, ?Es, ?Hlen; [done..|]. by rewrite (same_emission_sequences _ _ Eo).
  - clear -Ho Eo. apply Forall2_flip in Eo. revert Ho. generalize (ov_outbox v). induction Eo as [|r' r rs' rs Hr Eo IH]; intros o Ho.
    + by inversion Ho.
    + inversion Ho as [|e ? o' ? (He & x & Hx & Hsx) Ho']; subst. constructor; [|by apply IH].
      destruct Hr as (? & ? & ?), Hsx as (? & ? & ?). split; [congruence|]. exists x. split; [done|]. split_and!; congruence.
Qed.

Lemma checkpoint_sequences_lookup sources (cps : gmap string SourceCheckpoint) id :
  (forall i, i ∈ dom cps -> i ∈ sources) -> checkpoint_sequences sources cps !! id = cp_sequence <$> cps !! id.
Proof.
  intros Hdom. unfold checkpoint_sequences.
  enough (forall (m : gmap string Z), fold_left (fun m source_id => match cps !! source_id with
            | Some cp => <[source_id := cp_sequence cp]> m | None => m end) sources m !! id =
          if decide (id ∈ sources) then match cps !! id with Some cp => Some (cp_sequence cp) | None => m !! id end else m !! id) as Hgen.
  { rewrite Hgen, lookup_empty. case_decide as Hin; [by destruct (cps !! id)|].
    destruct (cps !! id) eqn:Hc; [|done]. exfalso. apply Hin, Hdom, elem_of_dom. by rewrite Hc. }
  clear Hdom. induction sources as [|i sources IH]; intros m; cbn [fold_left]; [by rewrite decide_False by set_solver|].
  rewrite IH. destruct (decide (id = i)) as [->|Hne].
  - rewrite (decide_True (P := i ∈ i :: sources)) by set_solver. destruct (cps !! i); [|by case_decide].
    case_decide; [done|by rewrite lookup_insert_eq].
  - assert (Hm : (match cps !! i with Some cp => <[i := cp_sequence cp]> m | None => m end) !! id = m !! id).
    { destruct (cps !! i); [by rewrite lookup_insert_ne|done]. }
    rewrite Hm. repeat case_decide; set_solver.
Qed.

Lemma recovers_checkpoints enable_bootstrap v :
  recovers v (read_checkpoints stores enable_bootstrap)
    (fun cps => cps = ov_checkpoints v \/ enable_bootstrap = false /\ cps = ∅).
Proof.
  intros s Hs. unfold read_checkpoints. destruct (read_checkpoints_law s) as [[Ho _] Hr]. rewrite Hs in *.
  cbn [checkpoint_store stores]. destruct (read_all_checkpoints s) as [[cps|e|] s1]; cbn in *; [by split; [|left]| |done].
  destruct enable_bootstrap; cbn; [done|]. split; [done|by right].
Qed.

Lemma checkpoint_sequences_empty sources : checkpoint_sequences sources ∅ = ∅.
Proof. apply map_eq. intros id. by rewrite checkpoint_sequences_lookup, !lookup_empty by set_solver. Qed.

Lemma resume_synced (p : Processor) enable_bootstrap sources handles :
  synced p -> outbox_capacity (output_state p) <= MAX_OUTBOX_CAPACITY ->
  (forall id, id ∈ dom (ov_checkpoints (out (store p))) -> id ∈ sources) ->
  match resume stores query_id enable_bootstrap sources handles (outbox_capacity (output_state p)) (store p) with
  | Ok q => same_output (output_state q) (output_state p) /\ failed q = None /\
            (dedup q = dedup p /\ synced q \/ enable_bootstrap = false /\ dedup q = ∅)
  | Err e => is_transient_read e = true
  | Panic => False
  end.
Proof.
  intros [Hd Hdd] Hmax Hsrc. unfold resume.
  assert (Hcap : outbox_capacity (new_output_state (outbox_capacity (output_state p))) = outbox_capacity (output_state p)).
  { pose proof (wo_capacity _ (du_window _ _ Hd)). unfold new_output_state. cbn. lia. }
  rewrite Hcap. set (v := out (store p)) in *.
  assert (Hrec : recovers v
    (checkpoints ← read_checkpoints stores enable_bootstrap;
     loaded ← load_durable_output query_id stores (outbox_capacity (output_state p)); mret (checkpoints, loaded))
    (fun r => (r.1 = ov_checkpoints v \/ enable_bootstrap = false /\ r.1 = ∅) /\ lo_results r.2 = results (output_state p) /\
       Forall2 same_emission (lo_outbox r.2) (outbox (output_state p)) /\
       lo_sequence r.2 = as_of_sequence (output_state p) /\ lo_generation r.2 = generation (output_state p))).
  { eapply recovers_bind; [apply recovers_checkpoints|]. intros cps Hcps.
    eapply recovers_bind; [by apply recovers_load|]. intros lo Hlo. by apply recovers_ret. }
  specialize (Hrec (store p) eq_refl). cbn [checkpoint_store stores]. revert Hrec.
  match goal with |- out (?m (store p)).2 = _ /\ _ -> _ => destruct (m (store p)) as [r s'] end.
  cbn [fst snd]. intros [Ho Hr]. destruct r as [[cps lo]|e|]; [|done..]. cbn [fst snd] in Hr.
  destruct Hr as (Hcps & H1 & H2 & H3 & H4). rewrite out_bind_ok.
  assert (Hsame : same_output (hydrate (lo_results lo) (lo_outbox lo) (lo_sequence lo) (lo_generation lo)
                    (new_output_state (outbox_capacity (output_state p)))) (output_state p)) by (by apply hydrate_same; [apply Hd|..]).
  assert (Hcp : forall id, checkpoint_sequences sources (ov_checkpoints v) !! id = cp_sequence <$> ov_checkpoints v !! id).
  { intros id. by apply checkpoint_sequences_lookup. }
  cbn [output_state failed dedup]. split_and!; [done|done|]. destruct Hcps as [-> | [-> ->]]; [left|right].
  - split; [apply map_eq; intros id; by rewrite Hcp, Hdd|].
    split; cbn [store output_state dedup]; rewrite Ho; [by apply (same_output_durable _ (output_state p))|done].
  - by rewrite checkpoint_sequences_empty.
Qed.

(** A query that starts on empty stores. *)
Lemma synced_fresh (p : Processor) capacity :
  output_state p = new_output_state capacity -> dedup p = ∅ ->
  out (store p) = {| ov_outbox := []; ov_rows := ∅; ov_sequence := None; ov_generation := None; ov_checkpoints := ∅ |} ->
  synced p.
Proof.
  intros Ho Hd Hs. split; rewrite ?Ho, ?Hd, Hs; [|intros id; cbn; by rewrite !lookup_empty].
  split; cbn; try done.
  - split; cbn; try done; unfold MAX_OUTBOX_CAPACITY; lia.
  - by left.
Qed.

(** ** The processor *)

Context (cq : ContinuousQuery (S:=S)) (Hmiddleware : middleware_preserved (keeps_output output_view) cq).

(** What a hook stages for some results. *)
Definition staged_as (ev : Event) (results : list QueryPartEvaluationContext) (source : string)
    (output : QueryOutputState) (v v' : OutputView) : Prop :=
  match staged_result stores (evaluation_contexts_to_diffs results) source query_id (ev_staged_at ev) output with
  | Some result => staged_view result (outbox_capacity output) v v'
  | None => v' = v
  end.

Definition view_of_change (ev : Event) : OutputView -> OutputView :=
  view_checkpoint (ev_source_id ev) (ev_sequence ev) (checkpoint_position (ev_source_position ev)).

Lemma stages_change_hook ev output results :
  stages output_view (change_hook stores query_id ev output results)
    (fun v _ v' => staged_as ev results (ev_source_id ev) output (view_of_change ev v) v').
Proof.
  unfold change_hook. eapply stages_bind; [apply stage_checkpoint_law|]. intros [].
  eapply stages_bind; [apply stages_durable_output|]. intros r.
  eapply stages_weaken; [apply stages_ret|]. intros v [] v' [_ ->] v1 [-> Hs] v0 ->. exact Hs.
Qed.

Lemma stages_due_hook ev output results source :
  stages output_view (due_hook stores query_id ev output results source)
    (fun v _ v' => staged_as ev results source output v v').
Proof.
  unfold due_hook. eapply stages_bind; [apply stages_durable_output|]. intros r.
  eapply stages_weaken; [apply stages_ret|]. intros v [] v' [_ ->] v1 [-> Hs]. exact Hs.
Qed.

Lemma keeps_inner l : preserves (keeps_output output_view) (process_changes_inner cq l).
Proof. apply preserves_process_changes_inner; try apply _. exact indexes_keep_set. Qed.

Lemma keeps_middleware change : preserves (keeps_output output_view) (execute_source_middleware cq change).
Proof. apply preserves_middleware; [apply _|exact indexes_keep_set|apply _|apply _|exact Hmiddleware]. Qed.

(** A change, or a due future, stages its hook's writes and nothing else, or
    fails and leaves the output alone. *)
Lemma change_output hook Q change s :
  (forall l, stages output_view (hook l) (fun v _ v' => Q l v v')) ->
  match (process_source_change_with_hook cq change hook s).1 with
  | Ok l => Q l (out s) (out (process_source_change_with_hook cq change hook s).2)
  | _ => out (process_source_change_with_hook cq change hook s).2 = out s
  end.
Proof.
  intros Hh. apply (with_guard_output output_view EvalIndexError _ (fun v l v' => Q l v v')).
  eapply stages_bind; [apply stages_keeps, keeps_middleware|]. intros l.
  eapply stages_bind; [apply stages_keeps, keeps_inner|]. intros result.
  eapply stages_bind; [apply stages_map_err, Hh|]. intros [].
  eapply stages_weaken; [apply stages_ret|]. intros v a v' [-> ->] v1 HQ v2 -> v3 ->. exact HQ.
Qed.

Lemma due_output hook Q s :
  (forall l source, stages output_view (hook l source) (fun v _ v' => Q l source v v')) ->
  match (process_due_futures_with_hook cq hook s).1 with
  | Ok (Some d) => Q (due_results d) (due_source_id d) (out s) (out (process_due_futures_with_hook cq hook s).2)
  | _ => out (process_due_futures_with_hook cq hook s).2 = out s
  end.
Proof.
  intros Hh.
  enough (forall f body, stages output_view body
            (fun v (r : option DueFutureResult) v' => match r with Some d => Q (due_results d) (due_source_id d) v v' | None => v' = v end) ->
          match (with_guard (E:=EvaluationError) f body s).1 with
          | Ok (Some d) => Q (due_results d) (due_source_id d) (out s) (out (with_guard f body s).2)
          | _ => out (with_guard f body s).2 = out s
          end) as Hg.
  - apply Hg. eapply stages_bind; [apply stages_map_err, stages_keeps, preserved_pop|]. intros [r|].
    2: { eapply stages_weaken; [apply stages_ret|]. by intros v a v' [-> ->] v1 ->. }
    eapply stages_bind; [apply stages_keeps, keeps_middleware|]. intros l.
    eapply stages_bind; [apply stages_keeps, keeps_inner|]. intros results.
    eapply stages_bind; [apply stages_map_err, Hh|]. intros [].
    eapply stages_weaken; [apply stages_ret|]. intros v a v' [-> ->] v1 HQ v2 -> v3 -> v4 ->. exact HQ.
  - intros f body Hb. pose proof (with_guard_output output_view f body _ s Hb) as Hg.
    by destruct (with_guard f body s) as [[[d|]|e|] s'].
Qed.

(** *** Events *)

Lemma staged_some ev results source output :
  evaluation_contexts_to_diffs results <> [] -> exists result,
    staged_result stores (evaluation_contexts_to_diffs results) source query_id (ev_staged_at ev) output = Some result /\
    qr_results result = evaluation_contexts_to_diffs results /\ qr_sequence result = saturating_add (as_of_sequence output) 1.
Proof.
  intros Hd. unfold staged_result. destruct (evaluation_contexts_to_diffs results) as [|d l]; [done|]. cbn. eauto.
Qed.

Lemma staged_none ev results source output :
  evaluation_contexts_to_diffs results = [] ->
  staged_result stores (evaluation_contexts_to_diffs results) source query_id (ev_staged_at ev) output = None.
Proof. intros Hd. unfold staged_result. by rewrite Hd. Qed.

Lemma durable_deliver ev source results v v' (p : Processor) :
  durable v (output_state p) -> as_of_sequence (output_state p) < u64_max ->
  staged_as ev results source (output_state p) v v' ->
  durable v' (output_state (deliver stores query_id ev source results p)).
Proof.
  intros Hd Hmax. unfold staged_as, deliver.
  destruct (decide (evaluation_contexts_to_diffs results = [])) as [Hnil|Hnn].
  - rewrite staged_none by done. intros ->. destruct (is_nil results); [done|].
    unfold dispatch_query_results. by rewrite Hnil.
  - destruct (staged_some ev results source (output_state p) Hnn) as (r & -> & Hr & Hs). intros Hst.
    destruct results as [|c results]; [done|]. cbn [is_nil]. unfold dispatch_query_results. rewrite Hr.
    destruct (is_nil (evaluation_contexts_to_diffs (c :: results))) eqn:Hn; [by destruct (evaluation_contexts_to_diffs (c :: results))|].
    rewrite <- Hr. by apply (durable_commit v v' (output_state p) r).
Qed.

Lemma durable_checkpoint v st id n pos : durable v st -> 0 < n -> durable (view_checkpoint id n pos v) st.
Proof.
  intros [Hw Hm Hs Hg Ho Hr Hstart] Hn. split; [done..|]. intros Hz. destruct (Hstart Hz) as [?|(? & _ & Hb)]; [by left|right].
  split; [done|]. split; [apply insert_non_empty|]. intros i cp. cbn [ov_checkpoints view_checkpoint].
  rewrite lookup_insert_Some. intros [[_ <-]|[_ Hcp]]; [by left|by apply (Hb i)].
Qed.

(** The sequence only grows. *)
Definition sequence_grows (p p' : Processor) : Prop :=
  as_of_sequence (output_state p) <= u64_max ->
  as_of_sequence (output_state p) <= as_of_sequence (output_state p') <= u64_max.

Lemma deliver_grows ev source results (p : Processor) : sequence_grows p (deliver stores query_id ev source results p).
Proof.
  unfold sequence_grows, deliver. intros Hmax.
  destruct (decide (evaluation_contexts_to_diffs results = [])) as [Hnil|Hnn].
  - rewrite staged_none by done. destruct (is_nil results); [lia|]. unfold dispatch_query_results. rewrite Hnil. cbn. lia.
  - destruct (staged_some ev results source (output_state p) Hnn) as (r & -> & Hr & Hs).
    destruct results as [|c results]; [done|]. cbn [is_nil]. unfold dispatch_query_results. rewrite Hr.
    destruct (is_nil (evaluation_contexts_to_diffs (c :: results))); cbn; [lia|]. rewrite Hs. unfold saturating_add. lia.
Qed.

Lemma synced_deliver ev source results (p q : Processor) :
  durable (out (store p)) (output_state p) -> as_of_sequence (output_state p) < u64_max ->
  output_state q = output_state p ->
  (exists v, durable v (output_state p) /\ staged_as ev results source (output_state p) v (out (store q))) ->
  (forall id, dedup q !! id = cp_sequence <$> ov_checkpoints (out (store q)) !! id) ->
  synced (deliver stores query_id ev source results q).
Proof.
  intros Hd Hmax Ho (v & Hv & Hst) Hdd.
  assert (Hsame : store (deliver stores query_id ev source results q) = store q /\
                  dedup (deliver stores query_id ev source results q) = dedup q).
  { unfold deliver. destruct (is_nil results); [done|]. by destruct (dispatch_query_results _ _ _ _ _ _). }
  destruct Hsame as [Hs Hdq]. split; rewrite ?Hs, ?Hdq; [|done].
  apply (durable_deliver ev source results v); rewrite ?Ho; done.
Qed.

Lemma staged_checkpoints ev results source output v v' :
  staged_as ev results source output v v' -> ov_checkpoints v' = ov_checkpoints v.
Proof.
  unfold staged_as. destruct (staged_result _ _ _ _ _ _) as [r|]; [|by intros ->]. by intros (d & m & _ & _ & ->).
Qed.

Lemma synced_change ev change (p p' : Processor) :
  process_change_event cq stores query_id ev change p = Ok p' -> synced p -> 0 < ev_sequence ev ->
  as_of_sequence (output_state p) < u64_max -> synced p'.
Proof.
  unfold process_change_event. destruct (should_skip _ _ _) eqn:Hskip; [by intros [= <-]|].
  intros Hp [Hd Hdd] Hseq Hmax.
  pose proof (change_output (change_hook stores query_id ev (output_state p))
    (fun l v v' => staged_as ev l (ev_source_id ev) (output_state p) (view_of_change ev v) v') change (store p)
    (fun l => stages_change_hook ev (output_state p) l)) as Hout.
  destruct (process_source_change_with_hook _ _ _ _) as [[results|e|] s']; cbn in Hout, Hp; [|injection Hp as <-|done].
  2: { split; cbn; rewrite Hout; done. }
  injection Hp as <-. apply (synced_deliver ev _ _ p); [done..| |].
  - exists (view_of_change ev (out (store p))). split; [by apply durable_checkpoint|done].
  - intros id. cbn. rewrite (staged_checkpoints _ _ _ _ _ _ Hout). cbn.
    assert (Hadv : advance (ev_source_id ev) (ev_sequence ev) (dedup p) = <[ev_source_id ev := ev_sequence ev]> (dedup p)).
    { unfold advance. unfold should_skip in Hskip. destruct (dedup p !! ev_source_id ev) as [cp|]; [|done].
      apply Z.leb_gt in Hskip. destruct (Z.ltb_spec cp (ev_sequence ev)); [done|lia]. }
    rewrite Hadv. destruct (decide (id = ev_source_id ev)) as [->|Hid]; [by rewrite !lookup_insert_eq|].
    rewrite !lookup_insert_ne by done. apply Hdd.
Qed.

Lemma change_grows ev change (p p' : Processor) :
  process_change_event cq stores query_id ev change p = Ok p' -> sequence_grows p p'.
Proof.
  unfold process_change_event. destruct (should_skip _ _ _); [intros [= <-]; unfold sequence_grows; lia|].
  destruct (process_source_change_with_hook _ _ _ _) as [[results|e|] s']; [| |done]; intros [= <-]; [|unfold sequence_grows; cbn; lia].
  intros Hm. by apply (deliver_grows ev (ev_source_id ev) results (acknowledge ev (with_store s' p))).
Qed.

Lemma drain_grows fuel ev (p p' : Processor) : drain_futures cq stores query_id fuel ev p = Ok p' -> sequence_grows p p'.
Proof.
  revert p. induction fuel as [|fuel IH]; intros p; cbn [drain_futures]; [done|].
  destruct (process_due_futures_with_hook _ _ _) as [[[d|]|e|] s']; [| | |done].
  - intros Hp%IH Hm. pose proof (deliver_grows ev (due_source_id d) (due_results d) (with_store s' p) Hm) as Hg.
    unfold sequence_grows in Hp. cbn in Hg. lia.
  - intros [= <-]. unfold sequence_grows. cbn. lia.
  - intros [= <-]. unfold sequence_grows. cbn. lia.
Qed.

Lemma synced_drain fuel ev (p p' : Processor) :
  drain_futures cq stores query_id fuel ev p = Ok p' -> synced p -> as_of_sequence (output_state p') < u64_max -> synced p'.
Proof.
  revert p. induction fuel as [|fuel IH]; intros p; cbn [drain_futures]; [done|]. intros Hp [Hd Hdd] Hmax.
  pose proof (due_output (due_hook stores query_id ev (output_state p))
    (fun l source v v' => staged_as ev l source (output_state p) v v') (store p)
    (fun l source => stages_due_hook ev (output_state p) l source)) as Hout.
  destruct (process_due_futures_with_hook _ _ _) as [[[d|]|e|] s']; cbn in Hout; [| | |done].
  - pose proof (drain_grows _ _ _ _ Hp) as Hg2.
    pose proof (deliver_grows ev (due_source_id d) (due_results d) (with_store s' p) (du_bound _ _ Hd)) as Hg1.
    apply (IH _ Hp); [|done]. apply (synced_deliver ev _ _ p); [done| |done| |].
    + specialize (Hg2 ltac:(lia)). cbn in Hg1. lia.
    + eauto.
    + intros id. cbn. rewrite (staged_checkpoints _ _ _ _ _ _ Hout). apply Hdd.
  - injection Hp as <-. split; cbn; rewrite Hout; done.
  - injection Hp as <-. split; cbn; rewrite Hout; done.
Qed.

Lemma event_grows fuel ev (p p' : Processor) : process_event cq stores query_id fuel ev p = Ok p' -> sequence_grows p p'.
Proof.
  unfold process_event. destruct (ev_event ev) as [c|[? ? ? ? ?|]].
  - apply change_grows.
  - intros [= <-]. unfold sequence_grows. lia.
  - apply drain_grows.
Qed.

Lemma synced_event fuel ev (p p' : Processor) :
  process_event cq stores query_id fuel ev p = Ok p' -> synced p -> 0 < ev_sequence ev ->
  as_of_sequence (output_state p') < u64_max -> synced p'.
Proof.
  unfold process_event. destruct (ev_event ev) as [c|[? ? ? ? ?|]].
  - intros Hp Hs Hseq Hmax. apply (synced_change _ _ _ _ Hp); [done..|].
    pose proof (change_grows _ _ _ _ Hp (du_bound _ _ (sy_durable _ Hs))). lia.
  - by intros [= <-].
  - intros Hp Hs _. by apply synced_drain with (1:=Hp).
Qed.

Lemma events_grow fuel evs (p p' : Processor) : process_events cq stores query_id fuel evs p = Ok p' -> sequence_grows p p'.
Proof.
  revert p. induction evs as [|ev evs IH]; intros p; cbn [process_events]; [intros [= <-]; unfold sequence_grows; lia|].
  destruct (failed p); [intros [= <-]; unfold sequence_grows; lia|].
  destruct (process_event _ _ _ _ _ _) as [p1| |] eqn:Hp1; cbn; [|done..]. intros Hp%IH Hm.
  pose proof (event_grows _ _ _ _ Hp1 Hm). unfold sequence_grows in Hp. lia.
Qed.

Lemma synced_events fuel evs (p p' : Processor) :
  process_events cq stores query_id fuel evs p = Ok p' -> synced p -> Forall (fun ev => 0 < ev_sequence ev) evs ->
  as_of_sequence (output_state p') < u64_max -> synced p'.
Proof.
  revert p. induction evs as [|ev evs IH]; intros p; cbn [process_events]; [by intros [= <-]|].
  destruct (failed p); [by intros [= <-]|].
  destruct (process_event _ _ _ _ _ _) as [p1| |] eqn:Hp1; cbn; [|done..]. intros Hp Hs [Hev Hevs]%Forall_cons Hmax.
  pose proof (event_grows _ _ _ _ Hp1 (du_bound _ _ (sy_durable _ Hs))) as Hg1.
  pose proof (events_grow _ _ _ _ Hp ltac:(lia)) as Hg2.
  apply (IH _ Hp); [|done|done]. apply (synced_event _ _ _ _ Hp1); [done..|lia].
Qed.

(** *** Re-delivery *)

Definition is_change (ev : Event) : Prop := exists c, ev_event ev = Change c.

Notation skips ev d := (should_skip (ev_source_id ev) (ev_sequence ev) d).

Lemma advance_keeps_skipping ev id n (d : SequenceDedup) : skips ev d = true -> skips ev (advance id n d) = true.
Proof.
  unfold should_skip, advance. intros Hs. destruct (d !! id) as [e|] eqn:Hid.
  - destruct (Z.ltb_spec e n); [|done]. destruct (decide (ev_source_id ev = id)) as [Heq|Hne].
    + rewrite Heq in *. rewrite lookup_insert_eq. rewrite Hid in Hs. apply Z.leb_le in Hs. apply Z.leb_le. lia.
    + by rewrite lookup_insert_ne by done.
  - destruct (decide (ev_source_id ev = id)) as [Heq|Hne]; [by rewrite Heq, Hid in Hs|].
    by rewrite lookup_insert_ne by done.
Qed.

Lemma advance_skips ev (d : SequenceDedup) : skips ev (advance (ev_source_id ev) (ev_sequence ev) d) = true.
Proof.
  unfold should_skip, advance. destruct (d !! ev_source_id ev) as [e|] eqn:Hid.
  - destruct (Z.ltb_spec e (ev_sequence ev)); [rewrite lookup_insert_eq; apply Z.leb_refl|rewrite Hid; by apply Z.leb_le].
  - rewrite lookup_insert_eq. apply Z.leb_refl.
Qed.

Lemma deliver_dedup ev source results (p : Processor) :
  dedup (deliver stores query_id ev source results p) = dedup p /\
  failed (deliver stores query_id ev source results p) = failed p.
Proof. unfold deliver. destruct (is_nil results); [done|]. by destruct (dispatch_query_results _ _ _ _ _ _). Qed.

Lemma drain_dedup fuel ev (p p' : Processor) : drain_futures cq stores query_id fuel ev p = Ok p' -> dedup p' = dedup p.
Proof.
  revert p. induction fuel as [|fuel IH]; intros p; cbn [drain_futures]; [done|].
  destruct (process_due_futures_with_hook _ _ _) as [[[d|]|e|] s']; [|by intros [= <-]..|done].
  intros Hp%IH. rewrite Hp. by destruct (deliver_dedup ev (due_source_id d) (due_results d) (with_store s' p)) as [-> _].
Qed.

Lemma event_skips fuel ev (p p' : Processor) : process_event cq stores query_id fuel ev p = Ok p' -> failed p' = None ->
  (is_change ev -> skips ev (dedup p') = true) /\ (forall ev', skips ev' (dedup p) = true -> skips ev' (dedup p') = true).
Proof.
  unfold process_event, is_change. destruct (ev_event ev) as [c|[? ? ? ? ?|]].
  - unfold process_change_event. destruct (skips ev (dedup p)) eqn:Hsk; [by intros [= <-]|].
    destruct (process_source_change_with_hook _ _ _ _) as [[results|e|] s']; [|by intros [= <-]|done].
    intros [= <-] _. destruct (deliver_dedup ev (ev_source_id ev) results (acknowledge ev (with_store s' p))) as [-> _].
    cbn [dedup acknowledge with_store]. split; [intros _; apply advance_skips|]. intros ev'. apply advance_keeps_skipping.
  - intros [= <-] _. split; [by intros [? ?]|done].
  - intros Hp _. rewrite (drain_dedup _ _ _ _ Hp). split; [by intros [? ?]|done].
Qed.

Lemma events_skip fuel evs (p p' : Processor) : process_events cq stores query_id fuel evs p = Ok p' -> failed p' = None ->
  (forall ev, ev ∈ evs -> is_change ev -> skips ev (dedup p') = true) /\
  (forall ev, skips ev (dedup p) = true -> skips ev (dedup p') = true).
Proof.
  revert p. induction evs as [|ev evs IH]; intros p; cbn [process_events].
  { intros [= <-] _. split; [set_solver|done]. }
  destruct (failed p) eqn:Hf; [intros [= <-]; congruence|].
  destruct (process_event _ _ _ _ _ _) as [p1| |] eqn:Hp1; cbn; [|done..]. intros Hp Hfp.
  assert (Hf1 : failed p1 = None).
  { destruct (failed p1) eqn:Hf1; [|done]. destruct evs; cbn in Hp; [congruence|]. rewrite Hf1 in Hp. congruence. }
  destruct (event_skips _ _ _ _ Hp1 Hf1) as [He Hk]. destruct (IH _ Hp Hfp) as [Hes Hks].
  split; [|auto]. intros ev' [->|Hin]%elem_of_cons Hc; auto.
Qed.

Lemma skipped_events fuel again evs (q : Processor) : failed q = None ->
  (forall ev, ev ∈ again -> is_change ev /\ skips ev (dedup q) = true) ->
  process_events cq stores query_id fuel (again ++ evs) q = process_events cq stores query_id fuel evs q.
Proof.
  intros Hf. induction again as [|ev again IH]; intros Hag; [done|]. cbn [app process_events]. rewrite Hf.
  destruct (Hag ev) as [[c Hc] Hs]; [set_solver|].
  assert (Hev : process_event cq stores query_id fuel ev q = Ok q)
    by (unfold process_event, process_change_event; by rewrite Hc, Hs).
  rewrite Hev, out_bind_ok. apply IH. set_solver.
Qed.

(** ** The theorems *)

(** [C6] The durable output follows the running query: when the stores hold
    the output state, they hold it after any sequence of events, through
    skipped duplicates, changes and futures that fail and are rolled back, and
    those that commit: the same rows, the same outbox window under the same
    sequence number, the same generation, and a checkpoint per source that
    equals its deduplication bound. *)
Theorem processor_output_durable fuel evs (p p' : Processor) :
  process_events cq stores query_id fuel evs p = Ok p' -> synced p ->
  Forall (fun ev => 0 < ev_sequence ev) evs -> as_of_sequence (output_state p') < u64_max ->
  synced p' /\ as_of_sequence (output_state p) <= as_of_sequence (output_state p').
Proof.
  intros Hp Hs Hev Hmax. split; [by apply synced_events with (1:=Hp)|].
  by apply (events_grow _ _ _ _ Hp), (du_bound _ _ (sy_durable _ Hs)).
Qed.


End recovery.
