(* ===== verification/RecoverySamples.v ===== *)
(** * A durable backend for examples

    The in-memory indexes together with the output stores, under a session
    that keeps a copy of both, and a format that encodes rows and emissions as
    bytes; the recovery theorems are applied to a run on it. The second part
    starts a query on stores whose writes fail on cue. *)

From Stdlib Require Import Init.Byte.
From stdpp Require Import countable.
From S2P Require Import Prelude BTree Floats Hashing Ast Models Errors Values ChronoOps Temporal Operators MatchPath.
From S2P Require Import Solver ElementIndex ResultIndex LazySortedSet Aggregation Contexts AggregateFacts Parts.
From S2P Require Import Expressions FutureQueue Session ContinuousQuery QuerySafety QuerySamples QueryOutput.
From S2P Require Import OutputStores OutputPipeline QueryOutputFacts OutputBackend OutputRecovery Startup.

#[local] Existing Instance Sample.hashers.
#[local] Existing Instance Sample.chrono.
#[local] Existing Instance SampleOps.ops.
#[local] Existing Instance sample_heap.
#[local] Existing Instance insertion_order.

(** ** The backend *)

Definition query_id : string := "q".

Record Backend := { b_indexes : Indexes; b_stores : MemoryStores; b_copy : option (Indexes * MemoryStores) }.

Definition on_indexes {E A} (m : SM Indexes E A) : SM Backend E A := fun s =>
  let '(r, i) := m (b_indexes s) in (r, {| b_indexes := i; b_stores := b_stores s; b_copy := b_copy s |}).
Definition on_stores {E A} (m : SM MemoryStores E A) : SM Backend E A := fun s =>
  let '(r, o) := m (b_stores s) in (r, {| b_indexes := b_indexes s; b_stores := o; b_copy := b_copy s |}).

#[local] Instance backend_accumulators : AccumulatorIndex Backend := {|
  acc_get s k o := acc_get (b_indexes s) k o;
  acc_set s k o v := i ← acc_set (b_indexes s) k o v; Ok {| b_indexes := i; b_stores := b_stores s; b_copy := b_copy s |} |}.
#[local] Instance backend_sorted_sets : LazySortedSetStore Backend := {|
  get_next s := get_next (b_indexes s);
  get_value_count s := get_value_count (b_indexes s);
  increment_value_count s id v d := on_indexes (fun c => increment_value_count c id v d) s |}.
#[local] Instance backend_elements : ElementIndexOps Backend := {|
  ei_get_element r := on_indexes (ei_get_element r);
  ei_set_element e slots := on_indexes (ei_set_element e slots);
  ei_delete_element r := on_indexes (ei_delete_element r);
  ei_slots s := ei_slots (b_indexes s) |}.
#[local] Instance backend_futures : FutureQueueOps Backend := {|
  fut_push t pos g e ot due := on_indexes (fut_push t pos g e ot due);
  fut_remove pos g := on_indexes (fut_remove pos g);
  fut_pop := on_indexes fut_pop;
  fut_peek_due_time := on_indexes fut_peek_due_time |}.
#[local] Instance backend_session : SessionControl Backend := {|
  session_begin := fun s =>
    (Ok tt, {| b_indexes := b_indexes s; b_stores := b_stores s; b_copy := Some (b_indexes s, b_stores s) |});
  session_commit := fun s => (Ok tt, {| b_indexes := b_indexes s; b_stores := b_stores s; b_copy := None |});
  session_rollback := fun s =>
    (Ok tt, match b_copy s with
            | Some (i, o) => {| b_indexes := i; b_stores := o; b_copy := None |}
            | None => s
            end) |}.

#[local] Program Instance backend_transactional : TransactionalSession Backend := {|
  View := Indexes * MemoryStores; view s := (b_indexes s, b_stores s); saved := b_copy |}.
Next Obligation. done. Qed.
Next Obligation. done. Qed.
Next Obligation. intros [i o c] [i' o'] Hv. cbn in *. by rewrite Hv. Qed.

(** An outbox that trims in the session of the append. *)
Definition trimming_append (q : string) (n : Z) (data : Bytes) (retain_from : Z) (m : OutboxData) : nat * OutboxData :=
  let o := bt_insert n data (default [] (m !! q)) in
  let kept := List.filter (fun e => retain_from <=? e.1) o in
  ((length o - length kept)%nat, <[q := kept]> m).

Definition checkpoints : CheckpointStore Backend := {|
  is_persistent := true;
  stage_checkpoint i n p := on_stores (@stage_checkpoint _ memory_checkpoints i n p);
  read_checkpoint i := on_stores (@read_checkpoint _ memory_checkpoints i);
  read_all_checkpoints := on_stores (@read_all_checkpoints _ memory_checkpoints);
  clear_checkpoints := on_stores (@clear_checkpoints _ memory_checkpoints);
  write_config_hash h := on_stores (@write_config_hash _ memory_checkpoints h);
  read_config_hash := on_stores (@read_config_hash _ memory_checkpoints);
  stage_result_sequence q n := on_stores (@stage_result_sequence _ memory_checkpoints q n);
  write_result_sequence q n := on_stores (@write_result_sequence _ memory_checkpoints q n);
  read_result_sequence q := on_stores (@read_result_sequence _ memory_checkpoints q);
  write_output_generation q g := on_stores (@write_output_generation _ memory_checkpoints q g);
  read_output_generation q := on_stores (@read_output_generation _ memory_checkpoints q) |}.

Definition outbox_store : OutboxWriter Backend := {|
  outbox_append q n d := on_stores (@outbox_append _ memory_outbox q n d);
  outbox_read_from q n := on_stores (@outbox_read_from _ memory_outbox q n);
  outbox_read_latest_sequence q := on_stores (@outbox_read_latest_sequence _ memory_outbox q);
  outbox_clear q := on_stores (@outbox_clear _ memory_outbox q);
  outbox_append_and_trim q n d r := on_stores (on_outbox (trimming_append q n d r));
  outbox_trim_before q n := on_stores (@outbox_trim_before _ memory_outbox q n);
  outbox_trim_to_capacity q n := on_stores (@outbox_trim_to_capacity _ memory_outbox q n) |}.

Definition live_store : LiveResultsWriter Backend := {|
  live_apply_mutations q l := on_stores (@live_apply_mutations _ memory_live q l);
  live_read_snapshot q := on_stores (@live_read_snapshot _ memory_live q);
  live_clear q := on_stores (@live_clear _ memory_live q);
  live_row_count q := on_stores (@live_row_count _ memory_live q) |}.

(** ** The format *)

#[local] Instance payload : Payload := {| Json := list (string * option Z); ResultMeta := unit |}.

Definition json_of (v : VariableValue) : option Z :=
  match v with VInteger (PosInt n | NegInt n) => Some n | VFloat x => Some (f64_to_bits x) | _ => None end.

Fixpoint bits_of (p : positive) : Bytes :=
  match p with xH => [] | xO p => x00 :: bits_of p | xI p => x01 :: bits_of p end.
Fixpoint of_bits (b : Bytes) : positive :=
  match b with [] => xH | x00 :: b => xO (of_bits b) | _ :: b => xI (of_bits b) end.

Lemma of_bits_of p : of_bits (bits_of p) = p.
Proof. induction p as [p IH|p IH|]; cbn; by rewrite ?IH. Qed.

Definition to_bytes `{Countable A} (a : A) : Bytes := bits_of (encode a).
Definition from_bytes `{Countable A} (b : Bytes) : outcome string A :=
  match decode (of_bits b) with Some a => Ok a | None => Err "malformed"%string end.

Lemma from_to_bytes `{Countable A} (a : A) : from_bytes (to_bytes a) = Ok a.
Proof. unfold from_bytes, to_bytes. by rewrite of_bits_of, decode_encode. Qed.

#[local] Instance diff_eq_dec : EqDecision ResultDiff.
Proof. solve_decision. Defined.
#[local] Instance result_eq_dec : EqDecision QueryResult.
Proof. solve_decision. Defined.

Notation Row := (list (string * option Z)).

#[local] Program Instance diff_countable : Countable ResultDiff :=
  inj_countable' (A := Row * Z + (Row * Z + (Row * Row * Row * option (list string) * Z + (option Row * Row * Z + unit))))
    (fun d => match d with
              | Add j k => inl (j, k)
              | DiffDelete j k => inr (inl (j, k))
              | DiffUpdate j b a g k => inr (inr (inl (j, b, a, g, k)))
              | DiffAggregation b a k => inr (inr (inr (inl (b, a, k))))
              | DiffNoop => inr (inr (inr (inr tt)))
              end)
    (fun x => match x with
              | inl (j, k) => Add j k
              | inr (inl (j, k)) => DiffDelete j k
              | inr (inr (inl (j, b, a, g, k))) => DiffUpdate j b a g k
              | inr (inr (inr (inl (b, a, k)))) => DiffAggregation b a k
              | inr (inr (inr (inr _))) => DiffNoop
              end) _.
Next Obligation. by intros []. Qed.

#[local] Program Instance result_countable : Countable QueryResult :=
  inj_countable' (fun r => (qr_query_id r, qr_sequence r, qr_results r, qr_meta r))
    (fun x => let '(i, n, l, m) := x in {| qr_query_id := i; qr_sequence := n; qr_results := l; qr_meta := m |}) _.
Next Obligation. by intros []. Qed.

#[local] Instance format : OutputFormat := {|
  Stamp := unit;
  convert_query_variables_to_json vars := map (fun e => (e.1, json_of e.2)) vars;
  result_metadata _ _ _ := tt;
  overlay_post_commit_profiling _ m := m;
  row_to_vec j := Ok (to_bytes (j : Row));
  row_from_slice := from_bytes;
  result_to_vec_named r := Ok (to_bytes r);
  result_from_slice := from_bytes |}.

#[local] Instance format_laws : OutputFormatLaws.
Proof. split; intros x b [= <-]; apply from_to_bytes. Qed.

(** ** The contract holds *)

Definition output_of (w : Indexes * MemoryStores) : OutputView :=
  {| ov_outbox := default [] (ms_outbox w.2 !! query_id); ov_rows := default ∅ (ms_live w.2 !! query_id);
     ov_sequence := cd_result_sequences (ms_checkpoints w.2) !! query_id;
     ov_generation := cd_output_generations (ms_checkpoints w.2) !! query_id;
     ov_checkpoints := cd_checkpoints (ms_checkpoints w.2) |}.

Definition aggregates : gmap string (Function (S:=Backend)) := register_all_aggregating ∅.
#[local] Instance evaluator : ExpressionEvaluator Backend := expression_evaluator aggregates 6.

Lemma on_indexes_keeps {E A} (m : SM Indexes E A) : preserves (keeps_output output_of) (on_indexes m).
Proof. intros s. unfold on_indexes. by destruct (m (b_indexes s)). Qed.

Lemma backend_store : StorePreserved (S:=Backend) (keeps_output output_of).
Proof. constructor; [by intros s k o v s' [= <-]|]. intros. apply (on_indexes_keeps _ s). Qed.

Lemma aggregates_keep name f : aggregates !! name = Some f -> function_preserved (keeps_output output_of) f.
Proof.
  unfold aggregates, register_all_aggregating, register_function. cbn [fold_left register_aggregation_functions].
  cbn. repeat (rewrite lookup_insert_Some; intros [[_ <-]|[_ Hf]]; [done|revert Hf]). by rewrite lookup_empty.
Qed.

#[local] Instance backend_durable : DurableBackend checkpoints outbox_store live_store query_id.
Proof.
  pose proof (keeps_output_preorder (S:=Backend) output_of) as Hpre. pose proof backend_store as Hst.
  refine (@Build_DurableBackend _ _ Backend _ _ _ _ _ backend_transactional checkpoints outbox_store live_store query_id
    output_of _ _ _ _ _ _ _ _ _ _ _ _ _).
  - done.
  - intros n d r s. split; [done|]. cbn. unfold out, output_of, view_append. cbn. by rewrite lookup_insert_eq.
  - intros l s. split; [done|]. cbn. unfold out, output_of, view_mutate. cbn. unfold im_apply_mutations. by rewrite lookup_insert_eq.
  - intros n s. split; [done|]. cbn. unfold out, output_of, view_sequence. cbn. by rewrite lookup_insert_eq.
  - done.
  - done.
  - intros s. split; [done|]. cbn. unfold im_read_latest_sequence, out, output_of. cbn.
    by destruct (ms_outbox (b_stores s) !! query_id).
  - intros n s. split; [done|]. cbn. unfold im_read_from, out, output_of. cbn.
    by destruct (ms_outbox (b_stores s) !! query_id).
  - intros s. split; [done|]. cbn. unfold im_read_snapshot, out, output_of. cbn.
    destruct (ms_live (b_stores s) !! query_id); cbn; [done|by rewrite map_to_list_empty].
  - done.
  - intros key owner v. by apply preserves_index_set.
  - apply expression_evaluator_preserved; [done|done|exact aggregates_keep].
  - constructor; intros; apply on_indexes_keeps.
Defined.

(** ** A run *)

(** MATCH (n:Item) WITH sum(n.v) AS s RETURN s AS total *)
Definition total_query : ContinuousQuery (S:=Backend) :=
  {| match_path := match_path total; query := query total; source_pipelines := ∅; solver_fuel := 10 |}.

Lemma total_query_keeps : middleware_preserved (keeps_output (output_view (DurableBackend:=backend_durable))) total_query.
Proof. intros source pipeline m c Hp. cbn [source_pipelines total_query] in Hp. by rewrite lookup_empty in Hp. Qed.

Definition change_event (n : Z) (c : SourceChange) : Event :=
  {| ev_source_id := "s"; ev_event := Change c; ev_sequence := n; ev_source_position := None;
     ev_staged_at := tt : Stamp; ev_sent_at := tt : Stamp |}.

(** Two items, a delivery repeated, due futures, and a deletion. *)
Definition first_insert : Event := change_event 1 (Insert (item "a" 1 5)).
Definition deletion : Event := change_event 3 (Delete (item_metadata "a" 3)).
Definition run : list Event :=
  [first_insert; first_insert; change_event 2 (Insert (item "b" 2 3));
   {| ev_source_id := "s"; ev_event := Control FuturesDue; ev_sequence := 1; ev_source_position := None;
      ev_staged_at := tt : Stamp; ev_sent_at := tt : Stamp |};
   deletion].

Definition started : Processor (S:=Backend) :=
  {| store := {| b_indexes := new_indexes; b_stores := new_stores; b_copy := None |};
     output_state := new_output_state 2; dedup := ∅; position_handles := ∅; published := []; failed := None |}.

Notation backend_stores := (stores checkpoints outbox_store live_store).
Definition finished : Processor (S:=Backend) := ok_or started (process_events total_query backend_stores query_id 3 run started).

Lemma run_ok : is_ok (process_events total_query backend_stores query_id 3 run started) = true.
Proof. by_vm. Qed.

Lemma run_finishes : process_events total_query backend_stores query_id 3 run started = Ok finished.
Proof. unfold finished. exact (is_ok_eq started _ run_ok). Qed.

(** Three emissions, of which the outbox keeps two. *)
Example finished_output :
  (as_of_sequence (output_state finished), map qr_sequence (outbox (output_state finished)), length (published finished),
   map_to_list (dedup finished), failed finished) = (3, [2; 3], 3%nat, [("s"%string, 3)], None).
Proof. by_vm. Qed.

Lemma started_synced : synced checkpoints outbox_store live_store query_id started.
Proof. by apply (synced_fresh _ _ _ _ _ 2). Qed.

Lemma processor_output_durable_witness :
  process_events total_query backend_stores query_id 3 run started = Ok finished /\
  synced checkpoints outbox_store live_store query_id finished /\
  as_of_sequence (output_state started) <= as_of_sequence (output_state finished).
Proof.
  split; [exact run_finishes|].
  apply (processor_output_durable checkpoints outbox_store live_store query_id total_query total_query_keeps 3 run).
  - exact run_finishes.
  - exact started_synced.
  - repeat constructor.
  - apply Z.ltb_lt. by_vm.
Defined.

Lemma finished_synced : synced checkpoints outbox_store live_store query_id finished.
Proof.
  apply (synced_events checkpoints outbox_store live_store query_id total_query total_query_keeps 3 run started).
  - exact run_finishes.
  - exact started_synced.
  - repeat constructor.
  - apply Z.ltb_lt. by_vm.
Qed.

Definition resumed : outcome DurableOutputInconsistency Processor :=
  resume backend_stores query_id true ["s"%string] ∅ (outbox_capacity (output_state finished)) (store finished).

(** The restart reads what was written. *)
Example resumed_ok : is_ok resumed = true.
Proof. by_vm. Qed.

Lemma finished_sources id :
  id ∈ dom (ov_checkpoints (out (output_view (DurableBackend:=backend_durable)) (store finished))) -> id ∈ ["s"%string].
Proof.
  assert (Hd : map fst (map_to_list (ov_checkpoints (out output_of (store finished)))) = ["s"%string]) by by_vm.
  intros Hid. apply elem_of_dom in Hid as [cp Hcp]. rewrite <- Hd. apply list_elem_of_fmap.
  exists (id, cp). split; [done|]. by apply elem_of_map_to_list.
Qed.


Definition recovered : Processor (S:=Backend) := ok_or started resumed.


(** ** A wipe that was cut short *)

(** The live rows a wipe leaves behind are not rejected by the sequence
    alone: stopped after the sequence was reset and the outbox cleared, with
    the checkpoints still there, the wipe leaves stores that load as a finished
    bootstrap, at sequence zero with the old rows. Only the marker written
    before the wipe keeps the next start from reading them. *)
Theorem interrupted_wipe_loads_leftover_rows :
  let wipe_stopped :=
    _ ← @write_result_sequence Backend checkpoints query_id 0;
    _ ← @write_output_generation Backend checkpoints query_id 1;
    @outbox_clear Backend outbox_store query_id in
  let loaded := (load_durable_output query_id backend_stores 2 (wipe_stopped (store finished)).2).1 in
  is_ok (wipe_stopped (store finished)).1 = true /\
  map_to_list (results (output_state finished)) <> [] /\
  (loaded' ← loaded; Ok (lo_sequence loaded', map_to_list (lo_results loaded'))) =
    Ok (0, map_to_list (results (output_state finished))).
Proof. split; [by_vm|]. split; [by vm_compute|by_vm]. Qed.

(** * A disk whose writes fail on cue

    A script tells for each write whether it fails; a reset is cut short on it,
    so is the start after it, and the one after that finishes. *)

Record Disk := { d_output : OutputView; d_hash : option Z; d_indexes : bool * bool * bool * bool; d_script : list bool }.

Definition view_of (d : Disk) : StartView :=
  let '(a, b, c, e) := d_indexes d in {| sv_hash := d_hash d; sv_output := d_output d; sv_indexes := [a; b; c; e] |}.

Definition at_write (f : Disk -> Disk) : SM Disk IndexError unit := fun d =>
  match d_script d with
  | true :: script => (Err IOError, {| d_output := d_output d; d_hash := d_hash d; d_indexes := d_indexes d; d_script := script |})
  | _ => (Ok tt, f {| d_output := d_output d; d_hash := d_hash d; d_indexes := d_indexes d; d_script := tail (d_script d) |})
  end.
Definition to_output (f : OutputView -> OutputView) (d : Disk) : Disk :=
  {| d_output := f (d_output d); d_hash := d_hash d; d_indexes := d_indexes d; d_script := d_script d |}.
Definition to_hash (h : option Z) (d : Disk) : Disk :=
  {| d_output := d_output d; d_hash := h; d_indexes := d_indexes d; d_script := d_script d |}.
Definition to_indexes (f : bool * bool * bool * bool -> bool * bool * bool * bool) (d : Disk) : Disk :=
  {| d_output := d_output d; d_hash := d_hash d; d_indexes := f (d_indexes d); d_script := d_script d |}.

#[local] Instance disk_clears : IndexClears Disk := {|
  element_index_clear := at_write (to_indexes (fun '(_, b, c, e) => (true, b, c, e)));
  archive_index_clear := at_write (to_indexes (fun '(a, _, c, e) => (a, true, c, e)));
  result_index_clear := at_write (to_indexes (fun '(a, b, _, e) => (a, b, true, e)));
  future_queue_clear := at_write (to_indexes (fun '(a, b, c, _) => (a, b, c, true))) |}.

Definition read {A} (f : OutputView -> A) : SM Disk IndexError A := fun d => (Ok (f (d_output d)), d).

Definition disk_checkpoints : CheckpointStore Disk := {|
  is_persistent := true;
  stage_checkpoint i n p := at_write (to_output (view_checkpoint i n p));
  read_checkpoint i := read (fun o => ov_checkpoints o !! i);
  read_all_checkpoints := read ov_checkpoints;
  clear_checkpoints := at_write (fun d => to_hash None (to_output (with_checkpoints_of ∅) d));
  write_config_hash h := at_write (to_hash (Some h));
  read_config_hash := fun d => (Ok (d_hash d), d);
  stage_result_sequence q n := at_write (to_output (view_sequence n));
  write_result_sequence q n := at_write (to_output (view_sequence n));
  read_result_sequence q := read ov_sequence;
  write_output_generation q g := at_write (to_output (with_generation_of (Some g)));
  read_output_generation q := read ov_generation |}.

Definition disk_outbox : OutboxWriter Disk := {|
  outbox_append q n d := at_write (to_output (view_append n d 0));
  outbox_read_from q n := read (fun o => bt_after n (ov_outbox o));
  outbox_read_latest_sequence q := read (fun o => fst <$> last (ov_outbox o));
  outbox_clear q := at_write (to_output (with_outbox_of []));
  outbox_append_and_trim q n d r := _ ← at_write (to_output (view_append n d r)); mret O;
  outbox_trim_before q n := mret O;
  outbox_trim_to_capacity q n := mret O |}.

Definition disk_rows : LiveResultsWriter Disk := {|
  live_apply_mutations q l := at_write (to_output (view_mutate l));
  live_read_snapshot q := read (fun o => map_to_list (ov_rows o));
  live_clear q := at_write (to_output (with_rows_of ∅));
  live_row_count q := read (fun o => size (ov_rows o)) |}.

Definition disk_stores : DurableOutputStores Disk :=
  {| checkpoint_store := disk_checkpoints; outbox_writer := Some disk_outbox; live_results_writer := Some disk_rows |}.

Lemma runs_write f g v : (forall d, view_of d = v -> view_of (f d) = g) ->
  runs (fun d => view_of d = v) (at_write f) (fun _ d => view_of d = g) (fun d => view_of d = v).
Proof.
  intros Hf d Hd. unfold at_write. destruct d as [o h i [|[] l]]; cbn [d_script d_output d_hash d_indexes tail] in *; [by apply Hf|exact Hd|by apply Hf].
Qed.

Lemma runs_write_or f g v (Stop : Disk -> Prop) : (forall d, view_of d = v -> view_of (f d) = g) ->
  (forall d, view_of d = v -> Stop d) ->
  runs (fun d => view_of d = v) (at_write f) (fun _ d => view_of d = g) Stop.
Proof. intros Hf Hs. by apply (runs_weaken _ _ _ _ _ _ _ (runs_write f g v Hf)). Qed.

Ltac at_disk := apply runs_write; intros [? ? [[[? ?] ?] ?] ?] <-; reflexivity.

#[local] Instance disk_standalone : StandaloneStores disk_stores "q".
Proof.
  refine (@Build_StandaloneStores Disk _ disk_stores "q" view_of _ _ _ _ _ _ _ _ _ _ _ _ _).
  - intros h v. at_disk.
  - intros n v. at_disk.
  - intros g v. at_disk.
  - intros w v [= <-]. apply runs_write_or; [by intros [? ? [[[? ?] ?] ?] ?] <-|]. intros s Hs. exists (ov_outbox (sv_output v)). cbn beta in Hs. rewrite Hs.
    by destruct v as [h [] i].
  - intros w v [= <-]. apply runs_write_or; [by intros [? ? [[[? ?] ?] ?] ?] <-|]. intros s Hs. exists (ov_rows (sv_output v)). cbn beta in Hs. rewrite Hs.
    by destruct v as [h [] i].
  - intros v. apply runs_write_or; [by intros [? ? [[[? ?] ?] ?] ?] <-|]. intros s Hs.
    exists (ov_checkpoints (sv_output v)), (sv_hash v). split; [by right|]. cbn beta in Hs. rewrite Hs. by destruct v as [h [] i].
  - intros i m v Hi d Hd. unfold tolerate_unsupported.
    assert (Hm : exists f, m = at_write f /\ (forall d, view_of d = v -> view_of (f d) = set_index i true v)).
    { destruct i as [|[|[|[|]]]]; cbn in Hi; simplify_eq; (eexists; split; [reflexivity|]);
        intros [? ? [[[? ?] ?] ?] ?] <-; reflexivity. }
    destruct Hm as (f & -> & Hf). pose proof (runs_write f _ v Hf d Hd) as Hr. unfold at_write in *.
    destruct (d_script d) as [|[] l]; [done| |done]. cbn in Hr. rewrite Hr.
    exists (default true (sv_indexes v !! i)). destruct v as [h o l']. unfold set_index. cbn. f_equal.
    destruct (l' !! i) as [b|] eqn:Hb; cbn; [by rewrite list_insert_id|by rewrite list_insert_ge by (by apply lookup_ge_None)].
  - intros v d Hd. cbn. by destruct d as [o h [[[? ?] ?] ?] l]; subst v.
  - intros v d Hd. cbn. by destruct d as [o h [[[? ?] ?] ?] l]; subst v.
  - intros v d Hd. cbn. by destruct d as [o h [[[? ?] ?] ?] l]; subst v.
  - by intros w v [= <-] d Hd.
  - by intros w v [= <-] d Hd.
  - by intros [o h [[[? ?] ?] ?] l].
Defined.

(** ** A reset cut short twice *)

#[local] Instance disk_payload : Payload := {| Json := unit; ResultMeta := unit |}.
#[local] Existing Instance Sample.chrono.
#[local] Instance disk_format : OutputFormat := {|
  Stamp := unit; convert_query_variables_to_json _ := tt; result_metadata _ _ _ := tt; overlay_post_commit_profiling _ m := m;
  row_to_vec _ := Ok []; row_from_slice _ := Ok tt; result_to_vec_named _ := Err "unused"%string; result_from_slice _ := Err "unused"%string |}.

(** The stores of an earlier configuration, with rows, an outbox and graph
    data; the third write fails, then the fourth of the next start. *)
Definition old_outbox : btree Z Bytes := [(4, []); (5, [])].
Definition old_rows : gmap Z Bytes := {[7 := []]}.
Definition old_checkpoints : gmap string SourceCheckpoint := {["s"%string := {| cp_sequence := 9; cp_source_position := None |}]}.

Definition disk_with (sequence generation hash : Z) (script : list bool) : Disk :=
  {| d_output := {| ov_outbox := old_outbox; ov_rows := old_rows; ov_sequence := Some sequence; ov_generation := Some generation;
                    ov_checkpoints := old_checkpoints |};
     d_hash := Some hash; d_indexes := (false, false, false, false); d_script := script |}.

Definition new_hash : Z := 222.
Definition new_marker : Z := 18446744073709551393.
Definition fresh : QueryOutputState := new_output_state 10.
Notation check_on d := (config_matches disk_stores "q" true AutoReset new_hash (d, fresh)).

Definition old_disk : Disk := disk_with 5 2 111 [false; false; true; false; false; false; true].
Definition first_stop : Disk := disk_with 0 2 new_marker [false; false; false; true].
Definition second_stop : Disk := disk_with 0 3 new_marker [].
Definition after : Disk :=
  {| d_output := {| ov_outbox := []; ov_rows := ∅; ov_sequence := Some 0; ov_generation := Some 4; ov_checkpoints := ∅ |};
     d_hash := Some new_marker; d_indexes := (true, true, true, true); d_script := [] |}.

Lemma first_stops : plan_and_rebuild disk_stores "q" true new_hash (old_disk, fresh) = (Err (StartIndexError IOError), (first_stop, fresh)).
Proof. by_vm. Qed.

Lemma second_stops : check_on first_stop = (Err (StartIndexError IOError), (second_stop, fresh)).
Proof. by_vm. Qed.

Lemma third_finishes : check_on second_stop = (Ok false, (after, reset_from_generation 3 fresh)).
Proof. by_vm. Qed.

Lemma interrupted_reset_is_finished_witness :
  false = false /\ was_reset disk_stores true new_hash
    (saturating_add (default 0 (ov_generation (sv_output (start_view old_disk)))) 1) (start_view after).
Proof.
  apply (interrupted_reset_is_finished disk_stores "q" true AutoReset new_hash old_disk fresh
           (StartIndexError IOError) first_stop fresh second_stop fresh false (after, reset_from_generation 3 fresh)).
  - unfold u64_ok. cbn. unfold u64_max. lia.
  - cbn. lia.
  - cbn. lia.
  - exact first_stops.
  - intros Heq%(f_equal sv_hash). discriminate Heq.
  - apply rtc_once. exists fresh, (StartIndexError IOError), fresh. split; [cbn; lia|exact second_stops].
  - exact third_finishes.
Defined.
