(* ===== verification/ComponentGraph.v ===== *)
(** * Component events and their history (lib/src/channels/events.rs,
      lib/src/managers/event_history.rs)

    The history of a component holds its last events; a recorded event also
    goes to the live subscribers of the component, whose channel is the list of
    what was sent on it. *)

From S2P Require Import Prelude.

Inductive ComponentStatus := Added | Starting | Running | Stopping | Stopped | Removed | Reconfiguring | Error.
Inductive ComponentType := TypeSource | TypeQuery | TypeReaction | TypeBootstrapProvider | TypeIdentityProvider.

#[global] Instance ComponentStatus_eq_dec : EqDecision ComponentStatus.
Proof. solve_decision. Defined.
#[global] Instance ComponentType_eq_dec : EqDecision ComponentType.
Proof. solve_decision. Defined.

Record ComponentEvent := {
  component_id : string;
  component_type : ComponentType;
  ev_status : ComponentStatus;
  ev_timestamp : Z;
  ev_message : option string;
}.

(** ** The history *)

Definition DEFAULT_MAX_EVENTS_PER_COMPONENT : nat := 100.

Record ComponentEventChannel := {
  history : list ComponentEvent;
  max_history : nat;
  live : list ComponentEvent;
}.

Definition new_channel (max_history : nat) : ComponentEventChannel :=
  {| history := []; max_history := max_history; live := [] |}.

Definition channel_record (event : ComponentEvent) (c : ComponentEventChannel) : ComponentEventChannel :=
  let kept := if Nat.leb (max_history c) (length (history c)) then tail (history c) else history c in
  {| history := kept ++ [event]; max_history := max_history c; live := live c ++ [event] |}.

Definition channel_last_error (c : ComponentEventChannel) : option string :=
  match List.find (fun e => bool_decide (ev_status e = Error)) (rev (history c)) with
  | Some e => ev_message e
  | None => None
  end.

Record ComponentEventHistory := {
  channels : gmap string ComponentEventChannel;
  max_events_per_component : nat;
}.

Definition with_capacity (max_events : nat) : ComponentEventHistory :=
  {| channels := ∅; max_events_per_component := max_events |}.
Definition new_history : ComponentEventHistory := with_capacity DEFAULT_MAX_EVENTS_PER_COMPONENT.

(** [entry(id).or_insert_with] *)
Definition channel_of (id : string) (h : ComponentEventHistory) : ComponentEventChannel :=
  default (new_channel (max_events_per_component h)) (channels h !! id).
Definition with_channel (id : string) (c : ComponentEventChannel) (h : ComponentEventHistory) : ComponentEventHistory :=
  {| channels := <[id := c]> (channels h); max_events_per_component := max_events_per_component h |}.

Definition history_record (event : ComponentEvent) (h : ComponentEventHistory) : ComponentEventHistory :=
  with_channel (component_id event) (channel_record event (channel_of (component_id event) h)) h.

Definition history_events (id : string) (h : ComponentEventHistory) : list ComponentEvent :=
  match channels h !! id with Some c => history c | None => [] end.

(** What a new subscriber has of a component: its history, and how much was
    sent on the channel before. *)
Definition history_subscribe (id : string) (h : ComponentEventHistory) :
    (list ComponentEvent * nat) * ComponentEventHistory :=
  let c := channel_of id h in ((history c, length (live c)), with_channel id c h).
Definition history_try_subscribe (id : string) (h : ComponentEventHistory) : option (list ComponentEvent * nat) :=
  match channels h !! id with Some c => Some (history c, length (live c)) | None => None end.

Definition history_last_error (id : string) (h : ComponentEventHistory) : option string :=
  match channels h !! id with Some c => channel_last_error c | None => None end.

Definition history_remove (id : string) (h : ComponentEventHistory) : ComponentEventHistory :=
  {| channels := delete id (channels h); max_events_per_component := max_events_per_component h |}.

Definition event_count (id : string) (h : ComponentEventHistory) : nat := length (history_events id h).

(** The order in which the map of channels is iterated *)
Class ChannelOrder := {
  channel_entries : gmap string ComponentEventChannel -> list (string * ComponentEventChannel);
  channel_entries_perm : forall m, channel_entries m ≡ₚ map_to_list m;
}.

(** [sort_by_key], which is stable *)
Section sort_by_key.
Context {A : Type} (key : A -> Z).
Fixpoint insert_by_key (x : A) (l : list A) : list A :=
  match l with
  | [] => [x]
  | y :: l => if key x <=? key y then x :: y :: l else y :: insert_by_key x l
  end.
Definition sort_by_key (l : list A) : list A := fold_right insert_by_key [] l.
End sort_by_key.

Definition history_all_events `{ChannelOrder} (h : ComponentEventHistory) : list ComponentEvent :=
  sort_by_key ev_timestamp (concat (map (fun e => history e.2) (channel_entries (channels h)))).
Definition total_event_count `{ChannelOrder} (h : ComponentEventHistory) : nat :=
  fold_left (fun n e => (n + length (history e.2))%nat) (channel_entries (channels h)) 0%nat.

(** ** What the history keeps *)

(** The last [n] elements *)
Definition last_n {A} (n : nat) (l : list A) : list A := drop (length l - n) l.

Lemma tail_is_drop {A} (l : list A) : tail l = drop 1 l.
Proof. by destruct l. Qed.

Lemma last_n_snoc {A} (n : nat) (l : list A) x : (0 < n)%nat ->
  last_n n (l ++ [x]) = (if Nat.leb n (length (last_n n l)) then tail (last_n n l) else last_n n l) ++ [x].
Proof.
  intros Hn. unfold last_n. rewrite length_app, length_drop. cbn [length].
  destruct (Nat.leb_spec n (length l - (length l - n))).
  - rewrite drop_app_le by lia. f_equal. rewrite tail_is_drop, drop_drop. f_equal. lia.
  - rewrite drop_app_le by lia. f_equal. f_equal. lia.
Qed.

Lemma insert_by_key_perm {A} (key : A -> Z) x l : insert_by_key key x l ≡ₚ x :: l.
Proof. induction l as [|y l IH]; cbn; [done|]. destruct (key x <=? key y); [done|]. rewrite IH. apply perm_swap. Qed.

Lemma sort_by_key_perm {A} (key : A -> Z) l : sort_by_key key l ≡ₚ l.
Proof. induction l as [|x l IH]; cbn; [done|]. by rewrite insert_by_key_perm, IH. Qed.

(** * The component graph (lib/src/component_graph/)

    The components of an instance, their relationships and their statuses. The
    graph is petgraph's [StableGraph], of which the code relies on indices that
    stay valid when others are removed, on [remove_node] taking the edges of
    the node along, and on [toposort]; the order of its iterators is open.
    Events go to the subscribers of the graph, here the list of what was sent,
    and to the history of their component. Errors keep what their message is
    built from. *)

(** ** petgraph *)

(** [a] is listed before [b]. *)
Definition before {A} (a b : A) (l : list A) : Prop := exists l1 l2 l3, l = l1 ++ a :: l2 ++ b :: l3.

Class StableGraphOps := {
  (* the index of a new node or edge, given those in use *)
  free_index : gset nat -> nat;
  free_index_fresh : forall used, free_index used ∉ used;
  (* node_indices, node_weights, edge_indices; edges_directed *)
  indices : forall {A}, gmap nat A -> list (nat * A);
  indices_perm : forall {A} (m : gmap nat A), indices m ≡ₚ map_to_list m;
  adjacency : forall {A}, gmap nat A -> list (nat * A);
  adjacency_perm : forall {A} (m : gmap nat A), adjacency m ≡ₚ map_to_list m;
  (* algo::toposort of a graph given by its nodes and edges; None is a cycle *)
  toposort : gset nat -> list (nat * nat) -> option (list nat);
  toposort_sound : forall ns es l, toposort ns es = Some l ->
    l ≡ₚ elements ns /\ forall a b, (a, b) ∈ es -> a ∈ ns -> b ∈ ns -> before a b l;
  toposort_complete : forall ns es (rank : nat -> nat),
    (forall a b, (a, b) ∈ es -> (rank a < rank b)%nat) -> is_Some (toposort ns es);
}.

(** ** Nodes and relationships (node.rs) *)

Inductive ComponentKind := Instance_ | Source | Query | Reaction | BootstrapProvider | IdentityProvider.

Inductive RelationshipKind :=
| Owns | OwnedBy | Feeds | SubscribesTo | Bootstraps | BootstrappedBy | Authenticates | AuthenticatedBy.

#[global] Instance ComponentKind_eq_dec : EqDecision ComponentKind.
Proof. solve_decision. Defined.
#[global] Instance RelationshipKind_eq_dec : EqDecision RelationshipKind.
Proof. solve_decision. Defined.

Definition kind_display (k : ComponentKind) : string :=
  match k with
  | Instance_ => "instance" | Source => "source" | Query => "query" | Reaction => "reaction"
  | BootstrapProvider => "bootstrap_provider" | IdentityProvider => "identity_provider"
  end.

Definition to_component_type (k : ComponentKind) : option ComponentType :=
  match k with
  | Source => Some TypeSource | Query => Some TypeQuery | Reaction => Some TypeReaction
  | BootstrapProvider => Some TypeBootstrapProvider | IdentityProvider => Some TypeIdentityProvider
  | Instance_ => None
  end.

Definition reverse (r : RelationshipKind) : RelationshipKind :=
  match r with
  | Owns => OwnedBy | OwnedBy => Owns | Feeds => SubscribesTo | SubscribesTo => Feeds
  | Bootstraps => BootstrappedBy | BootstrappedBy => Bootstraps
  | Authenticates => AuthenticatedBy | AuthenticatedBy => Authenticates
  end.

Record ComponentNode := {
  id : string;
  kind : ComponentKind;
  status : ComponentStatus;
  metadata : gmap string string;
}.

Record GraphEdge := { from : string; to : string; relationship : RelationshipKind }.
Record GraphSnapshot := { snap_instance_id : string; snap_nodes : list ComponentNode; snap_edges : list GraphEdge }.

(** A status update sent by a component *)
Inductive ComponentUpdate := StatusUpdate (component_id : string) (status : ComponentStatus) (message : option string).

(** ** Valid relationships and transitions *)

Definition is_valid_relationship (from_kind to_kind : ComponentKind) (relationship : RelationshipKind) : bool :=
  match from_kind, to_kind, relationship with
  | Source, Query, Feeds | Query, Reaction, Feeds | Instance_, _, Owns
  | BootstrapProvider, Source, Bootstraps | IdentityProvider, _, Authenticates => true
  | _, _, _ => false
  end.

Definition is_valid_transition (kind : ComponentKind) (from to : ComponentStatus) : bool :=
  match from, to with
  | Error, Stopping => match kind with Query | Source => true | _ => false end
  | Added, Starting | Added, Stopped | Stopped, Starting
  | Starting, Running | Starting, Error | Starting, Stopped | Starting, Stopping
  | Running, Stopping | Running, Stopped | Running, Error
  | Stopping, Stopped | Stopping, Error
  | Error, Starting | Error, Stopped
  | Added, Reconfiguring | Stopped, Reconfiguring | Running, Reconfiguring | Error, Reconfiguring
  | Reconfiguring, Stopped | Reconfiguring, Starting | Reconfiguring, Error => true
  | _, _ => false
  end.

Inductive GraphError :=
| AlreadyExists (kind : ComponentKind) (id : string)
| NotFound (id : string)
| CannotRemoveRoot
| AlreadyRemoved (id : string)
| InvalidRelationship (relationship : RelationshipKind) (from to : ComponentNode)
| InvalidTransition (reason : string)
| MissingReference (kind : ComponentKind) (id reference : string)
| HasDependents (id : string) (dependents : list string)
| NotInGraph (id : string)
| CycleDetected.

(** ** The graph *)

Section graph.
Context {G : StableGraphOps} {R : Type}.

Record ComponentGraph := {
  nodes : gmap nat ComponentNode;
  edges : gmap nat (nat * nat * RelationshipKind);
  index : gmap string nat;
  instance_idx : nat;
  sent : list ComponentEvent;
  status_notifications : nat;
  runtimes : gmap string R;
  event_history : ComponentEventHistory;
}.

Notation M := (SM ComponentGraph GraphError).

Definition with_graph (n : gmap nat ComponentNode) (e : gmap nat (nat * nat * RelationshipKind)) (i : gmap string nat)
    (g : ComponentGraph) : ComponentGraph :=
  {| nodes := n; edges := e; index := i; instance_idx := instance_idx g; sent := sent g;
     status_notifications := status_notifications g; runtimes := runtimes g; event_history := event_history g |}.
Definition with_events (s : list ComponentEvent) (h : ComponentEventHistory) (g : ComponentGraph) : ComponentGraph :=
  {| nodes := nodes g; edges := edges g; index := index g; instance_idx := instance_idx g; sent := s;
     status_notifications := status_notifications g; runtimes := runtimes g; event_history := h |}.
Definition with_runtimes (r : gmap string R) (g : ComponentGraph) : ComponentGraph :=
  {| nodes := nodes g; edges := edges g; index := index g; instance_idx := instance_idx g; sent := sent g;
     status_notifications := status_notifications g; runtimes := r; event_history := event_history g |}.
Definition notify_waiters (g : ComponentGraph) : ComponentGraph :=
  {| nodes := nodes g; edges := edges g; index := index g; instance_idx := instance_idx g; sent := sent g;
     status_notifications := S (status_notifications g); runtimes := runtimes g; event_history := event_history g |}.

Definition send_event (e : ComponentEvent) (g : ComponentGraph) : ComponentGraph :=
  with_events (sent g ++ [e]) (event_history g) g.
Definition record_event (e : ComponentEvent) (g : ComponentGraph) : ComponentGraph :=
  with_events (sent g) (history_record e (event_history g)) g.

Definition modify (f : ComponentGraph -> ComponentGraph) : M unit := fun g => (Ok tt, f g).
Definition or_error {A} (e : GraphError) (o : option A) : M A := match o with Some a => mret a | None => sm_err e end.
(** [graph[idx]] *)
Definition weight (idx : nat) (g : ComponentGraph) : M ComponentNode :=
  sm_lift match nodes g !! idx with Some n => Ok n | None => Panic end.

(** *** petgraph's mutations *)

Definition add_node (n : ComponentNode) (g : ComponentGraph) : nat * ComponentGraph :=
  let idx := free_index (dom (nodes g)) in (idx, with_graph (<[idx := n]> (nodes g)) (edges g) (index g) g).
Definition add_edge (a b : nat) (r : RelationshipKind) (g : ComponentGraph) : nat * ComponentGraph :=
  let e := free_index (dom (edges g)) in (e, with_graph (nodes g) (<[e := (a, b, r)]> (edges g)) (index g) g).
Definition remove_edge (e : nat) (g : ComponentGraph) : ComponentGraph :=
  with_graph (nodes g) (delete e (edges g)) (index g) g.
Definition remove_node (idx : nat) (g : ComponentGraph) : ComponentGraph :=
  with_graph (delete idx (nodes g)) (filter (fun e => e.2.1.1 <> idx /\ e.2.1.2 <> idx) (edges g)) (index g) g.
Definition set_index (i : gmap string nat) (g : ComponentGraph) : ComponentGraph := with_graph (nodes g) (edges g) i g.

(** [edges_directed(idx, Outgoing)] *)
Definition outgoing_edges (idx : nat) (g : ComponentGraph) : list (nat * (nat * RelationshipKind)) :=
  omap (fun e => if decide (e.2.1.1 = idx) then Some (e.1, (e.2.1.2, e.2.2)) else None) (adjacency (edges g)).

Definition new_graph (instance_id : string) : ComponentGraph :=
  let idx := free_index ∅ in
  {| nodes := {[ idx := {| id := instance_id; kind := Instance_; status := Running; metadata := ∅ |} ]}; edges := ∅;
     index := {[ instance_id := idx ]}; instance_idx := idx; sent := []; status_notifications := 0; runtimes := ∅;
     event_history := new_history |}.

(** *** Nodes *)

Definition get_component (i : string) (g : ComponentGraph) : option ComponentNode :=
  match index g !! i with Some idx => nodes g !! idx | None => None end.
Definition contains_component (i : string) (g : ComponentGraph) : bool := bool_decide (is_Some (index g !! i)).
Definition list_by_kind (k : ComponentKind) (g : ComponentGraph) : list (string * ComponentStatus) :=
  map (fun n => (id n.2, status n.2)) (List.filter (fun n => bool_decide (kind n.2 = k)) (indices (nodes g))).

(** The event of a component; the instance has none. *)
Definition event_of (now : Z) (i : string) (k : ComponentKind) (s : ComponentStatus) (message : option string) :
    option ComponentEvent :=
  match to_component_type k with
  | Some t => Some {| component_id := i; component_type := t; ev_status := s; ev_timestamp := now; ev_message := message |}
  | None => None
  end.

Definition emit_event (now : Z) (i : string) (k : ComponentKind) (s : ComponentStatus) (message : option string) :
    M (option ComponentEvent) :=
  match event_of now i k s message with
  | Some e => _ ← modify (send_event e); mret (Some e)
  | None => mret None
  end.

Definition add_component_internal (now : Z) (node : ComponentNode) : M (nat * option ComponentEvent * nat * nat) := fun g =>
  if contains_component (id node) g then (Err (AlreadyExists (kind node) (id node)), g)
  else
    let '(node_idx, g) := add_node node g in
    let g := set_index (<[id node := node_idx]> (index g)) g in
    let '(owns_edge, g) := add_edge (instance_idx g) node_idx Owns g in
    let '(owned_by_edge, g) := add_edge node_idx (instance_idx g) OwnedBy g in
    let event := event_of now (id node) (kind node) (status node) (Some (kind_display (kind node) ++ " added")%string) in
    (Ok (node_idx, event, owns_edge, owned_by_edge), g).

Definition add_component (now : Z) (node : ComponentNode) : M nat :=
  r ← add_component_internal now node;
  let '(node_idx, event, _, _) := r in
  _ ← match event with
      | Some e => modify (fun g => record_event e (send_event e g))
      | None => mret tt
      end;
  mret node_idx.

Definition remove_component (now : Z) (i : string) : M ComponentNode :=
  g ← sm_get;
  node_idx ← or_error (NotFound i) (index g !! i);
  if decide (node_idx = instance_idx g) then sm_err CannotRemoveRoot
  else
    node ← weight node_idx g;
    _ ← modify (fun g => set_index (delete i (index g)) g);
    _ ← modify (fun g => with_runtimes (delete i (runtimes g)) g);
    _ ← modify (fun g => with_events (sent g) (history_remove i (event_history g)) g);
    g ← sm_get;
    removed ← or_error (AlreadyRemoved i) (nodes g !! node_idx);
    _ ← modify (remove_node node_idx);
    _ ← emit_event now i (kind node) Removed (Some (kind_display (kind node) ++ " removed")%string);
    mret removed.

Definition with_node_status (s : ComponentStatus) (n : ComponentNode) : ComponentNode :=
  {| id := id n; kind := kind n; status := s; metadata := metadata n |}.

Definition update_status_with_message (now : Z) (i : string) (s : ComponentStatus) (message : option string) :
    M (option ComponentEvent) :=
  g ← sm_get;
  node_idx ← or_error (NotFound i) (index g !! i);
  node ← or_error (NotFound i) (nodes g !! node_idx);
  if decide (status node = s) then mret None
  else if negb (is_valid_transition (kind node) (status node) s) then mret None
  else
    _ ← modify (fun g => with_graph (<[node_idx := with_node_status s node]> (nodes g)) (edges g) (index g) g);
    _ ← modify notify_waiters;
    event ← emit_event now i (kind node) s message;
    _ ← match (event : option ComponentEvent) with Some e => modify (record_event e) | None => mret tt end;
    mret event.

Definition update_status (now : Z) (i : string) (s : ComponentStatus) : M (option ComponentEvent) :=
  update_status_with_message now i s None.

Definition apply_update (now : Z) (update : ComponentUpdate) (g : ComponentGraph) : option ComponentEvent * ComponentGraph :=
  match update with
  | StatusUpdate i s message =>
      match update_status_with_message now i s message g with
      | (Ok event, g) => (event, g)
      | (_, g) => (None, g)
      end
  end.

(** *** Relationships *)

Definition find_edge (a b : nat) (r : RelationshipKind) (g : ComponentGraph) : option nat :=
  fst <$> List.find (fun e => bool_decide (e.2 = (b, r))) (outgoing_edges a g).

Definition add_relationship_internal (from_id to_id : string) (forward : RelationshipKind) :
    M (option nat * option nat) :=
  g ← sm_get;
  from_idx ← or_error (NotFound from_id) (index g !! from_id);
  to_idx ← or_error (NotFound to_id) (index g !! to_id);
  from_node ← weight from_idx g;
  to_node ← weight to_idx g;
  if negb (is_valid_relationship (kind from_node) (kind to_node) forward)
  then sm_err (InvalidRelationship forward from_node to_node)
  else match find_edge from_idx to_idx forward g with
  | Some _ => mret (None, None)
  | None => fun g =>
      let '(fwd_edge, g) := add_edge from_idx to_idx forward g in
      let '(rev_edge, g) := add_edge to_idx from_idx (reverse forward) g in
      (Ok (Some fwd_edge, Some rev_edge), g)
  end.

Definition add_relationship (from_id to_id : string) (forward : RelationshipKind) : M unit :=
  _ ← add_relationship_internal from_id to_id forward; mret tt.

Definition remove_found (o : option nat) : M unit :=
  match o with Some e => modify (remove_edge e) | None => mret tt end.

Definition remove_relationship (from_id to_id : string) (forward : RelationshipKind) : M unit :=
  g ← sm_get;
  from_idx ← or_error (NotFound from_id) (index g !! from_id);
  to_idx ← or_error (NotFound to_id) (index g !! to_id);
  _ ← remove_found (find_edge from_idx to_idx forward g);
  g ← sm_get;
  remove_found (find_edge to_idx from_idx (reverse forward) g).

Definition get_neighbors (i : string) (r : RelationshipKind) (g : ComponentGraph) : list ComponentNode :=
  match index g !! i with
  | Some idx => omap (fun e => if decide (e.2.2 = r) then nodes g !! e.2.1 else None) (outgoing_edges idx g)
  | None => []
  end.
Definition get_dependents (i : string) (g : ComponentGraph) : list ComponentNode := get_neighbors i Feeds g.
Definition get_dependencies (i : string) (g : ComponentGraph) : list ComponentNode := get_neighbors i SubscribesTo g.

Definition can_remove (i : string) (g : ComponentGraph) : outcome (list string) unit :=
  match get_dependents i g with [] => Ok tt | dependents => Err (map id dependents) end.

(** *** Lifecycle *)

Definition status_debug (s : ComponentStatus) : string :=
  match s with
  | Added => "Added" | Starting => "Starting" | Running => "Running" | Stopping => "Stopping" | Stopped => "Stopped"
  | Removed => "Removed" | Reconfiguring => "Reconfiguring" | Error => "Error"
  end.

Definition describe_invalid_transition (i : string) (from to : ComponentStatus) : string :=
  (match from, to with
   | Starting, Starting => "Component '" ++ i ++ "' is already starting"
   | Running, Starting => "Component '" ++ i ++ "' is already running"
   | Stopping, Starting => "Cannot start component '" ++ i ++ "' while it is stopping"
   | Reconfiguring, Starting => "Cannot start component '" ++ i ++ "' while it is reconfiguring"
   | Stopped, Stopping => "Cannot stop component '" ++ i ++ "': it is already stopped"
   | Stopping, Stopping => "Component '" ++ i ++ "' is already stopping"
   | Error, Stopping => "Cannot stop component '" ++ i ++ "': it is in error state"
   | Starting, Reconfiguring => "Cannot reconfigure component '" ++ i ++ "' while it is starting"
   | Stopping, Reconfiguring => "Cannot reconfigure component '" ++ i ++ "' while it is stopping"
   | Reconfiguring, Reconfiguring => "Component '" ++ i ++ "' is already reconfiguring"
   | _, _ => "Invalid state transition for component '" ++ i ++ "': " ++ status_debug from ++ " → " ++ status_debug to
   end)%string.

Definition validate_and_transition (now : Z) (i : string) (target_status : ComponentStatus) (message : option string) :
    M (option ComponentEvent) :=
  g ← sm_get;
  node ← or_error (NotFound i) (get_component i g);
  if decide (status node = target_status) then mret None
  else if negb (is_valid_transition (kind node) (status node) target_status)
  then sm_err (InvalidTransition (describe_invalid_transition i (status node) target_status))
  else update_status_with_message now i target_status message.

(** The graph of the feeds, with new indices for the nodes *)
Definition order_nodes (g : ComponentGraph) : gset nat * gmap nat nat :=
  fold_left (fun '(ns, idx_map) n => let new_idx := free_index ns in ({[ new_idx ]} ∪ ns, <[n.1 := new_idx]> idx_map))
    (indices (nodes g)) (∅, ∅).
Definition order_edges (idx_map : gmap nat nat) (g : ComponentGraph) : list (nat * nat) :=
  omap (fun e => match e.2 with
                 | (a, b, Feeds) => match idx_map !! a, idx_map !! b with
                                    | Some new_from, Some new_to => Some (new_from, new_to)
                                    | _, _ => None
                                    end
                 | _ => None
                 end) (indices (edges g)).

Definition topological_order (g : ComponentGraph) : outcome GraphError (list ComponentNode) :=
  let '(ns, idx_map) := order_nodes g in
  let reverse_map : gmap nat nat := list_to_map (map (fun e => (e.2, e.1)) (map_to_list idx_map)) in
  match toposort ns (order_edges idx_map g) with
  | Some sorted =>
      Ok (omap (fun idx => nodes g !! idx)
            (List.filter (fun idx => negb (bool_decide (idx = instance_idx g)))
               (omap (fun new_idx => reverse_map !! new_idx) sorted)))
  | None => Err CycleDetected
  end.

Definition snapshot (g : ComponentGraph) : outcome GraphError GraphSnapshot :=
  match nodes g !! instance_idx g with
  | None => Panic
  | Some root =>
      Ok {| snap_instance_id := id root;
            snap_nodes := map snd (indices (nodes g));
            snap_edges := omap (fun e => let '(a, b, r) := e.2 in
                                         match nodes g !! a, nodes g !! b with
                                         | Some x, Some y => Some {| from := id x; to := id y; relationship := r |}
                                         | _, _ => None
                                         end) (indices (edges g)) |}
  end.

(** *** Runtime instances; [T::downcast] is a partial function of the stored one. *)

Definition set_runtime (i : string) (runtime : R) : M unit := fun g =>
  if contains_component i g then (Ok tt, with_runtimes (<[i := runtime]> (runtimes g)) g) else (Err (NotInGraph i), g).
Definition get_runtime {T} (downcast : R -> option T) (i : string) (g : ComponentGraph) : option T :=
  match runtimes g !! i with Some r => downcast r | None => None end.
Definition take_runtime {T} (downcast : R -> option T) (i : string) (g : ComponentGraph) : option T * ComponentGraph :=
  match runtimes g !! i with
  | Some r => match downcast r with
              | Some t => (Some t, with_runtimes (delete i (runtimes g)) g)
              | None => (None, with_runtimes (<[i := r]> (delete i (runtimes g))) g)
              end
  | None => (None, g)
  end.

(** ** Transactions (transaction.rs) *)

Record GraphTransaction := {
  txn_graph : ComponentGraph;
  added_nodes : list (nat * string);
  added_edges : list nat;
  pending_events : list ComponentEvent;
}.

Notation T := (SM GraphTransaction GraphError).

Definition begin (g : ComponentGraph) : GraphTransaction :=
  {| txn_graph := g; added_nodes := []; added_edges := []; pending_events := [] |}.

(** A step on the graph, and what the transaction notes of its result *)
Definition in_transaction {A B} (m : M A) (note : A -> GraphTransaction -> B * GraphTransaction) : T B := fun t =>
  let '(r, g) := m (txn_graph t) in
  let t := {| txn_graph := g; added_nodes := added_nodes t; added_edges := added_edges t;
              pending_events := pending_events t |} in
  match r with
  | Ok a => let '(b, t) := note a t in (Ok b, t)
  | Err e => (Err e, t)
  | Panic => (Panic, t)
  end.

Definition txn_add_component (now : Z) (node : ComponentNode) : T nat :=
  in_transaction (add_component_internal now node) (fun r t =>
    let '(node_idx, event, owns_edge, owned_by_edge) := r in
    (node_idx, {| txn_graph := txn_graph t; added_nodes := added_nodes t ++ [(node_idx, id node)];
                  added_edges := added_edges t ++ [owns_edge; owned_by_edge];
                  pending_events := pending_events t ++ option_list event |})).

Definition txn_add_relationship (from_id to_id : string) (forward : RelationshipKind) : T unit :=
  in_transaction (add_relationship_internal from_id to_id forward) (fun r t =>
    (tt, {| txn_graph := txn_graph t; added_nodes := added_nodes t;
            added_edges := added_edges t ++ option_list r.1 ++ option_list r.2; pending_events := pending_events t |})).

Definition txn_commit (t : GraphTransaction) : ComponentGraph :=
  fold_left (fun g e => record_event e (send_event e g)) (pending_events t) (txn_graph t).

(** Dropped without a commit: edges first, then nodes, the last added first. *)
Definition rollback (t : GraphTransaction) : ComponentGraph :=
  let g := fold_left (fun g e => remove_edge e g) (rev (added_edges t)) (txn_graph t) in
  fold_left (fun g n => remove_node n.1 (set_index (delete n.2 (index g)) g)) (rev (added_nodes t)) g.

Definition with_transaction (body : T unit) : M unit := fun g =>
  match body (begin g) with
  | (Ok _, t) => (Ok tt, txn_commit t)
  | (Err e, t) => (Err e, rollback t)
  | (Panic, t) => (Panic, rollback t)
  end.

(** ** Registration *)

Definition added_node (i : string) (k : ComponentKind) (metadata : gmap string string) : ComponentNode :=
  {| id := i; kind := k; status := Added; metadata := metadata |}.

Definition register_source (now : Z) (i : string) (metadata : gmap string string) : M unit :=
  with_transaction (_ ← txn_add_component now (added_node i Source metadata); mret tt).

(** The references have to exist; then the node and its relationships are added
    in one transaction. *)
Definition register_linked (now : Z) (i : string) (k : ComponentKind) (metadata : gmap string string)
    (references : list string) (link : string -> T unit) : M unit := fun g =>
  match List.find (fun r => negb (contains_component r g)) references with
  | Some r => (Err (MissingReference k i r), g)
  | None =>
      with_transaction (_ ← txn_add_component now (added_node i k metadata);
                        sm_foldl (fun _ r => link r) tt references) g
  end.

Definition register_query (now : Z) (i : string) (metadata : gmap string string) (source_ids : list string) : M unit :=
  register_linked now i Query metadata source_ids (fun source_id => txn_add_relationship source_id i Feeds).
Definition register_reaction (now : Z) (i : string) (metadata : gmap string string) (query_ids : list string) : M unit :=
  register_linked now i Reaction metadata query_ids (fun query_id => txn_add_relationship query_id i Feeds).
Definition register_bootstrap_provider (now : Z) (i : string) (metadata : gmap string string)
    (source_ids : list string) : M unit :=
  register_linked now i BootstrapProvider metadata source_ids
    (fun source_id => txn_add_relationship i source_id Bootstraps).
Definition register_identity_provider (now : Z) (i : string) (metadata : gmap string string)
    (component_ids : list string) : M unit :=
  register_linked now i IdentityProvider metadata component_ids
    (fun component_id => txn_add_relationship i component_id Authenticates).

Definition deregister (now : Z) (i : string) : M ComponentNode :=
  g ← sm_get;
  match can_remove i g with
  | Err dependent_ids => sm_err (HasDependents i dependent_ids)
  | _ => remove_component now i
  end.

(** ** Events *)

Definition get_events (i : string) (g : ComponentGraph) : list ComponentEvent := history_events i (event_history g).
Definition get_last_error (i : string) (g : ComponentGraph) : option string := history_last_error i (event_history g).

(** ** Waiting (wait.rs)

    One look at the graph per wakeup; after the last the time is over. *)

Inductive WaitError := WaitNotFound (id : string) | TimedOut (id : string).

Fixpoint wait_for_status (i : string) (target_statuses : list ComponentStatus) (looks : list ComponentGraph) :
    outcome WaitError ComponentStatus :=
  match looks with
  | [] => Err (TimedOut i)
  | g :: looks =>
      match get_component i g with
      | Some node => if decide (status node ∈ target_statuses) then Ok (status node)
                     else wait_for_status i target_statuses looks
      | None => Err (WaitNotFound i)
      end
  end.
End graph.
Arguments ComponentGraph : clear implicits.
