(* ===== verification/ComponentGraphFacts.v ===== *)
(** * The component graph stays well formed

    [graph_ok]: the index names every node once, every edge joins two nodes and
    has its reverse once, relationships fit the kinds of their ends, and there
    is one instance. Every operation keeps it, a registration that fails leaves
    the graph as it was, and the order for starts and stops exists and puts
    every component before those it feeds. *)

From S2P Require Import Prelude ComponentGraph.

Section facts.
Context {G : StableGraphOps} {R : Type}.
Notation Graph := (ComponentGraph R).
Implicit Types g : Graph.

Definition linked g (a b : nat) (r : RelationshipKind) : Prop := exists e, edges g !! e = Some (a, b, r).

Definition kinds_fit (ka kb : ComponentKind) (r : RelationshipKind) : bool :=
  is_valid_relationship ka kb r || is_valid_relationship kb ka (reverse r).

Record graph_ok g : Prop := {
  gk_index : forall i idx, index g !! i = Some idx -> exists n, nodes g !! idx = Some n /\ id n = i;
  gk_node : forall idx n, nodes g !! idx = Some n -> index g !! id n = Some idx;
  gk_ends : forall a b r, linked g a b r -> is_Some (nodes g !! a) /\ is_Some (nodes g !! b);
  gk_reverse : forall a b r, linked g a b r -> linked g b a (reverse r);
  gk_once : forall e e' x, edges g !! e = Some x -> edges g !! e' = Some x -> e = e';
  gk_kinds : forall a b r na nb, linked g a b r -> nodes g !! a = Some na -> nodes g !! b = Some nb ->
    kinds_fit (kind na) (kind nb) r = true;
  gk_root : exists n, nodes g !! instance_idx g = Some n /\ kind n = Instance_;
  gk_one_root : forall idx n, nodes g !! idx = Some n -> kind n = Instance_ -> idx = instance_idx g;
  gk_runtimes : forall i, is_Some (runtimes g !! i) -> is_Some (index g !! i);
  gk_status : forall idx n, nodes g !! idx = Some n -> status n <> Removed;
}.

Lemma reverse_involutive r : reverse (reverse r) = r.
Proof. by destruct r. Qed.

Lemma reverse_ne r : reverse r <> r.
Proof. by destruct r. Qed.

Lemma kinds_fit_reverse ka kb r : kinds_fit kb ka (reverse r) = kinds_fit ka kb r.
Proof. unfold kinds_fit. by rewrite reverse_involutive, orb_comm. Qed.

(** ** Edges *)

Lemma elem_outgoing g a e b r : (e, (b, r)) ∈ outgoing_edges a g <-> edges g !! e = Some (a, b, r).
Proof.
  unfold outgoing_edges. rewrite list_elem_of_omap. split.
  - intros ([e' [[a' b'] r']] & Hin & He). cbn in He. case_decide; [|done]. injection He as -> -> ->. subst a'.
    rewrite (adjacency_perm (edges g)) in Hin. by apply elem_of_map_to_list in Hin.
  - intros He. exists (e, (a, b, r)). cbn. rewrite decide_True by done. split; [|done].
    rewrite (adjacency_perm (edges g)). by apply elem_of_map_to_list.
Qed.

Lemma find_edge_some g a b r e : find_edge a b r g = Some e -> edges g !! e = Some (a, b, r).
Proof.
  unfold find_edge. destruct (List.find _ _) as [[e' y]|] eqn:Hf; [|done]. intros [= ->].
  apply List.find_some in Hf as [Hin Hy]. apply bool_decide_eq_true in Hy. cbn in Hy. subst y.
  apply elem_outgoing. by apply list_elem_of_In.
Qed.

Lemma find_edge_none g a b r : find_edge a b r g = None -> ~ linked g a b r.
Proof.
  unfold find_edge. destruct (List.find _ _) eqn:Hf; [done|]. intros _ [e He].
  apply elem_outgoing, list_elem_of_In in He. apply (List.find_none _ _ Hf) in He. by apply bool_decide_eq_false in He.
Qed.

Lemma find_edge_linked g a b r : linked g a b r -> exists e, find_edge a b r g = Some e.
Proof. intros Hl. destruct (find_edge a b r g) as [e|] eqn:Hf; [by exists e|]. by apply find_edge_none in Hf. Qed.

Lemma linked_add_edge g a b r e g' x y q :
  add_edge a b r g = (e, g') -> linked g' x y q <-> linked g x y q \/ (x, y, q) = (a, b, r).
Proof.
  intros [= <- <-]. unfold linked. cbn. pose proof (free_index_fresh (dom (edges g))) as Hf.
  apply not_elem_of_dom in Hf. split.
  - intros [e' He]. destruct (decide (e' = free_index (dom (edges g)))) as [->|Hne].
    + rewrite lookup_insert_eq in He. injection He as <- <- <-. by right.
    + rewrite lookup_insert_ne in He by done. left. by exists e'.
  - intros [[e' He]|[= -> -> ->]].
    + exists e'. rewrite lookup_insert_ne; [done|]. intros <-. by rewrite Hf in He.
    + eexists. apply lookup_insert_eq.
Qed.

Lemma once_add_edge g a b r e g' :
  add_edge a b r g = (e, g') -> ~ linked g a b r ->
  (forall e e' x, edges g !! e = Some x -> edges g !! e' = Some x -> e = e') ->
  forall e e' x, edges g' !! e = Some x -> edges g' !! e' = Some x -> e = e'.
Proof.
  intros [= <- <-] Hnl Honce e1 e2 x. cbn. rewrite !lookup_insert_Some.
  intros [[<- <-]|[Hn1 H1]] [[<- Hx]|[Hn2 H2]]; [done| | |by eapply Honce].
  - destruct Hnl. by exists e2.
  - subst x. destruct Hnl. by exists e1.
Qed.

Lemma linked_remove_edge g e a b r x y q :
  (forall e e' x, edges g !! e = Some x -> edges g !! e' = Some x -> e = e') -> edges g !! e = Some (a, b, r) ->
  linked (remove_edge e g) x y q <-> linked g x y q /\ (x, y, q) <> (a, b, r).
Proof.
  intros Honce He. unfold linked. cbn. setoid_rewrite lookup_delete_Some. split.
  - intros (e' & Hne & He'). split; [by exists e'|]. intros [= -> -> ->]. by destruct Hne; eapply Honce.
  - intros [[e' He'] Hne]. exists e'. split; [|done]. intros <-. rewrite He in He'. by injection He' as -> -> ->.
Qed.

(** ** Operations on well-formed graphs *)

(** A pair of edges is added. *)
Lemma link_ok g a b r na nb e1 e2 g1 g2 :
  graph_ok g -> nodes g !! a = Some na -> nodes g !! b = Some nb -> kinds_fit (kind na) (kind nb) r = true ->
  ~ linked g a b r -> add_edge a b r g = (e1, g1) -> add_edge b a (reverse r) g1 = (e2, g2) ->
  graph_ok g2 /\ (forall x y q, linked g2 x y q <-> linked g x y q \/ (x, y, q) = (a, b, r) \/ (x, y, q) = (b, a, reverse r)).
Proof.
  intros Hg Ha Hb Hk Hnl H1 H2.
  assert (Hl : forall x y q, linked g2 x y q <-> linked g x y q \/ (x, y, q) = (a, b, r) \/ (x, y, q) = (b, a, reverse r)).
  { intros x y q. rewrite (linked_add_edge _ _ _ _ _ _ _ _ _ H2), (linked_add_edge _ _ _ _ _ _ _ _ _ H1). tauto. }
  assert (Hn : nodes g2 = nodes g /\ index g2 = index g /\ instance_idx g2 = instance_idx g /\ runtimes g2 = runtimes g).
  { by injection H1 as _ <-; injection H2 as _ <-. }
  destruct Hn as (Hn & Hi & Hr & Hrt). split; [|done]. destruct Hg as [h1 h2 h3 h4 h5 h6 h7 h8 h9 h10].
  constructor; rewrite ?Hn, ?Hi, ?Hr, ?Hrt; try done.
  - intros x y q. rewrite Hl. intros [Hx|[[= -> -> ->]|[= -> -> ->]]]; [by apply h3 in Hx|by rewrite Ha, Hb|by rewrite Ha, Hb].
  - intros x y q. rewrite !Hl. intros [Hx|[[= -> -> ->]|[= -> -> ->]]]; [by left; apply h4|by right; right|].
    right. left. by rewrite reverse_involutive.
  - eapply once_add_edge; [exact H2| |].
    + rewrite (linked_add_edge _ _ _ _ _ _ _ _ _ H1). intros [Hx|[= _ _ Hx]]; [|by apply reverse_ne in Hx].
      destruct Hnl. apply h4 in Hx. by rewrite reverse_involutive in Hx.
    + by eapply once_add_edge; [exact H1| |].
  - intros x y q nx ny. rewrite Hl. intros [Hx|[[= -> -> ->]|[= -> -> ->]]] Hx1 Hx2; [by eapply h6| |].
    + by simplify_eq.
    + simplify_eq. by rewrite kinds_fit_reverse.
Qed.

(** A pair of edges is taken away. *)
Lemma unlink_ok g a b r e1 e2 :
  graph_ok g -> edges g !! e1 = Some (a, b, r) -> edges g !! e2 = Some (b, a, reverse r) ->
  let g' := remove_edge e2 (remove_edge e1 g) in
  graph_ok g' /\ (forall x y q, linked g' x y q <->
    linked g x y q /\ (x, y, q) <> (a, b, r) /\ (x, y, q) <> (b, a, reverse r)).
Proof.
  intros Hg H1 H2 g'. destruct Hg as [h1 h2 h3 h4 h5 h6 h7 h8 h9 h10].
  assert (Hne : e1 <> e2). { intros <-. rewrite H1 in H2. injection H2 as _ _ H2. by apply (reverse_ne r). }
  assert (Hl : forall x y q, linked g' x y q <-> linked g x y q /\ (x, y, q) <> (a, b, r) /\ (x, y, q) <> (b, a, reverse r)).
  { intros x y q. unfold g'. rewrite (linked_remove_edge (remove_edge e1 g) e2 b a (reverse r)).
    - rewrite (linked_remove_edge g e1 a b r) by done. tauto.
    - intros e e' z. cbn. rewrite !lookup_delete_Some. intros [_ Hx] [_ Hy]. by eapply h5.
    - cbn. by rewrite lookup_delete_ne. }
  split; [|done]. constructor; try done.
  - intros x y q (Hx & _)%Hl. by apply h3 in Hx.
  - intros x y q (Hx & Hn1 & Hn2)%Hl. apply Hl. split; [by apply h4|]. split; intros [= -> -> Hq].
    + apply Hn2. by rewrite <- Hq, reverse_involutive.
    + apply Hn1. f_equal. by rewrite <- (reverse_involutive q), Hq, reverse_involutive.
  - intros e e' x. cbn. rewrite !lookup_delete_Some. intros (_ & _ & Hx) (_ & _ & Hy). by eapply h5.
  - intros x y q nx ny (Hx & _)%Hl. by apply h6.
Qed.

Lemma linked_fresh g a b r : graph_ok g -> linked g a b r -> forall idx, nodes g !! idx = None -> a <> idx /\ b <> idx.
Proof.
  intros Hg Hl idx Hn. destruct (gk_ends g Hg _ _ _ Hl) as [[na Ha] [nb Hb]]. split; intros ->; congruence.
Qed.

(** A component is added below the instance. *)
Definition with_component (idx : nat) (n : ComponentNode) g : Graph :=
  with_graph (<[idx := n]> (nodes g)) (edges g) (<[id n := idx]> (index g)) g.

Lemma add_component_ok g now n :
  graph_ok g -> kind n <> Instance_ -> status n <> Removed -> index g !! id n = None ->
  exists idx e1 e2 g',
    add_component_internal now n g =
      (Ok (idx, event_of now (id n) (kind n) (status n) (Some (kind_display (kind n) ++ " added")%string), e1, e2), g') /\
    nodes g !! idx = None /\ edges g !! e1 = None /\ edges g !! e2 = None /\ e1 <> e2 /\ graph_ok g' /\
    g' = with_graph (<[idx := n]> (nodes g))
           (<[e2 := (idx, instance_idx g, OwnedBy)]> (<[e1 := (instance_idx g, idx, Owns)]> (edges g)))
           (<[id n := idx]> (index g)) g.
Proof.
  intros Hg Hk Hst Hnew. unfold add_component_internal, contains_component. rewrite Hnew, bool_decide_false by (intros [? ?]; done).
  unfold add_node. cbv beta iota zeta. set (idx := free_index (dom (nodes g))).
  pose proof (free_index_fresh (dom (nodes g))) as Hidx. fold idx in Hidx. apply not_elem_of_dom in Hidx.
  set (g1 := set_index _ _). assert (Hg1 : g1 = with_component idx n g) by done. clearbody g1. subst g1.
  cbn [instance_idx with_component with_graph].
  destruct (add_edge (instance_idx g) idx Owns (with_component idx n g)) as [e1 g2] eqn:H1.
  destruct (add_edge idx (instance_idx g2) OwnedBy g2) as [e2 g3] eqn:H2.
  assert (Hroot : instance_idx g2 = instance_idx g) by (by injection H1 as _ <-). rewrite Hroot in H2.
  destruct (gk_root g Hg) as (root & Hr & Hkr).
  assert (Hne : instance_idx g <> idx) by (intros He; rewrite He in Hr; congruence).
  assert (Hg1 : graph_ok (with_component idx n g)).
  { pose proof (linked_fresh g) as Hfresh. destruct Hg as [h1 h2 h3 h4 h5 h6 h7 h8 h9 h10].
    constructor; cbn; [| | |done|done| | | | |].
    - intros i j. rewrite lookup_insert_Some. intros [[<- <-]|[Hni Hi]]; [exists n; by rewrite lookup_insert_eq|].
      destruct (h1 _ _ Hi) as (n' & Hn' & Hid). exists n'. rewrite lookup_insert_ne; [done|]. intros ->. congruence.
    - intros j n'. rewrite lookup_insert_Some. intros [[<- <-]|[Hnj Hj]]; [apply lookup_insert_eq|].
      rewrite lookup_insert_ne; [by apply h2|]. intros He. apply h2 in Hj. congruence.
    - intros a b r Hl. destruct (h3 _ _ _ Hl) as [[na Ha] [nb Hb]].
      rewrite !lookup_insert_ne by congruence. by rewrite Ha, Hb.
    - intros a b r na nb Hl. destruct (h3 _ _ _ Hl) as [[na' Ha] [nb' Hb]].
      rewrite !lookup_insert_ne by congruence. by apply h6.
    - exists root. by rewrite lookup_insert_ne.
    - intros j n'. rewrite lookup_insert_Some. intros [[<- <-]|[_ Hj]]; [done|by eapply h8].
    - intros i [rt Hi]. destruct (decide (id n = i)) as [->|]; [by rewrite lookup_insert_eq|].
      rewrite lookup_insert_ne by done. apply h9. by rewrite Hi.
    - intros j n'. rewrite lookup_insert_Some. intros [[<- <-]|[_ Hj]]; [done|by eapply h10]. }
  exists idx, e1, e2, g3. split; [done|].
  assert (He1 : edges g !! e1 = None).
  { injection H1 as <- _. cbn. apply not_elem_of_dom. apply free_index_fresh. }
  assert (He2 : edges g !! e2 = None /\ e1 <> e2).
  { pose proof (free_index_fresh (dom (edges g2))) as Hf.
    assert (Hf2 : e2 ∉ dom (edges g2)) by (by injection H2 as <- _). clear Hf.
    apply not_elem_of_dom in Hf2. injection H1 as He1' Hg2. subst g2. cbn in Hf2. rewrite He1' in Hf2.
    apply lookup_insert_None in Hf2 as [? ?]. done. }
  split; [done|]. split; [done|]. destruct He2 as [He2 He12]. split; [done|]. split; [done|]. split.
  - eapply (link_ok _ (instance_idx g) idx Owns root n e1 e2 g2 g3); [exact Hg1| | | | |exact H1|exact H2].
    + cbn. by rewrite lookup_insert_ne.
    + cbn. by rewrite lookup_insert_eq.
    + unfold kinds_fit. rewrite Hkr. by destruct (kind n).
    + intros Hl. change (linked g (instance_idx g) idx Owns) in Hl. by destruct (linked_fresh g _ _ _ Hg Hl idx Hidx).
  - unfold add_edge in H1, H2. injection H1 as He1' Hg2. injection H2 as He2' Hg3. rewrite He2' in Hg3.
    subst g3 g2. cbn. by rewrite He1'.
Qed.

Lemma modify_bind {A} f (k : unit -> SM Graph GraphError A) g : (modify f ≫= k) g = k tt (f g).
Proof. reflexivity. Qed.
Lemma get_bind {A} (k : Graph -> SM Graph GraphError A) g : (sm_get ≫= k) g = k g g.
Proof. reflexivity. Qed.
Lemma or_error_some {A B} e (a : A) (k : A -> SM Graph GraphError B) g : (or_error e (Some a) ≫= k) g = k a g.
Proof. reflexivity. Qed.
Lemma or_error_none {A B} e (k : A -> SM Graph GraphError B) g : (or_error e None ≫= k) g = (Err e, g).
Proof. reflexivity. Qed.
Lemma weight_bind {A} idx n (k : ComponentNode -> SM Graph GraphError A) g g0 :
  nodes g0 !! idx = Some n -> (weight idx g0 ≫= k) g = k n g.
Proof. intros Hn. unfold weight. by rewrite Hn. Qed.

Lemma event_of_some now i k st msg : k <> Instance_ -> exists t, event_of now i k st msg =
  Some {| component_id := i; component_type := t; ev_status := st; ev_timestamp := now; ev_message := msg |}.
Proof. intros Hk. unfold event_of. destruct k; [done|eexists; reflexivity..]. Qed.

Lemma emit_bind {A} now i k st msg e (f : option ComponentEvent -> SM Graph GraphError A) g :
  event_of now i k st msg = Some e -> (emit_event now i k st msg ≫= f) g = f (Some e) (send_event e g).
Proof. intros He. unfold emit_event. by rewrite He. Qed.

Lemma get_component_index g i idx n :
  graph_ok g -> index g !! i = Some idx -> nodes g !! idx = Some n -> get_component i g = Some n /\ id n = i.
Proof.
  intros Hg Hi Hn. unfold get_component. rewrite Hi. split; [done|].
  destruct (gk_index g Hg _ _ Hi) as (n' & Hn' & <-). congruence.
Qed.

(** What the graph is after a component was removed *)
Definition without_component (i : string) (idx : nat) g : Graph :=
  remove_node idx (with_events (sent g) (history_remove i (event_history g))
    (with_runtimes (delete i (runtimes g)) (set_index (delete i (index g)) g))).

Lemma remove_component_runs g now i idx n :
  graph_ok g -> index g !! i = Some idx -> nodes g !! idx = Some n -> idx <> instance_idx g ->
  exists e, event_of now i (kind n) Removed (Some (kind_display (kind n) ++ " removed")%string) = Some e /\
    remove_component now i g = (Ok n, send_event e (without_component i idx g)).
Proof.
  intros Hg Hi Hn Hne.
  assert (Hk : kind n <> Instance_) by (intros Hk; by destruct Hne; eapply gk_one_root).
  destruct (event_of_some now i (kind n) Removed (Some (kind_display (kind n) ++ " removed")%string) Hk) as [t He].
  eexists. split; [exact He|]. unfold remove_component. rewrite get_bind, Hi, or_error_some, decide_False by done.
  rewrite (weight_bind _ _ _ _ _ Hn), !modify_bind, get_bind.
  change (nodes (with_events _ _ _)) with (nodes g). rewrite Hn, or_error_some, modify_bind, (emit_bind _ _ _ _ _ _ _ _ He).
  reflexivity.
Qed.

Lemma linked_remove_node idx g a b r :
  linked (remove_node idx g) a b r <-> linked g a b r /\ a <> idx /\ b <> idx.
Proof.
  unfold linked. cbn. setoid_rewrite map_lookup_filter_Some. cbn. naive_solver.
Qed.

Lemma without_component_ok g i idx n :
  graph_ok g -> index g !! i = Some idx -> nodes g !! idx = Some n -> idx <> instance_idx g ->
  graph_ok (without_component i idx g).
Proof.
  intros Hg Hi Hn Hne. destruct (get_component_index g i idx n Hg Hi Hn) as [_ Hid].
  assert (Hl : forall a b r, linked (without_component i idx g) a b r <-> linked g a b r /\ a <> idx /\ b <> idx).
  { intros a b r. unfold without_component. by rewrite linked_remove_node. }
  destruct Hg as [h1 h2 h3 h4 h5 h6 h7 h8 h9 h10]. constructor; cbn.
  - intros j k. rewrite lookup_delete_Some. intros [Hj Hk]. destruct (h1 _ _ Hk) as (n' & Hn' & Hid').
    exists n'. rewrite lookup_delete_ne; [done|]. intros <-. simplify_eq.
  - intros j n'. rewrite lookup_delete_Some. intros [Hj Hn']. rewrite lookup_delete_ne; [by apply h2|].
    intros He. apply h2 in Hn'. rewrite <- He in Hn'. simplify_eq.
  - intros a b r (Hx & Ha & Hb)%Hl. rewrite !lookup_delete_ne by done. by apply h3 in Hx.
  - intros a b r (Hx & Ha & Hb)%Hl. apply Hl. split; [by apply h4|done].
  - intros e e' x. rewrite !map_lookup_filter_Some. intros [Hx _] [Hy _]. by eapply h5.
  - intros a b r na nb (Hx & Ha & Hb)%Hl. rewrite !lookup_delete_ne by done. by apply h6.
  - destruct h7 as (root & Hr & Hkr). exists root. by rewrite lookup_delete_ne.
  - intros j n'. rewrite lookup_delete_Some. intros [_ Hj]. by eapply h8.
  - intros j [rt Hj]. apply lookup_delete_Some in Hj as [Hj Hrt]. rewrite lookup_delete_ne by done. apply h9. by rewrite Hrt.
  - intros j n'. rewrite lookup_delete_Some. intros [_ Hj]. by eapply h10.
Qed.

(** The fields that [graph_ok] speaks of *)
Lemma graph_ok_same g g' :
  nodes g' = nodes g -> edges g' = edges g -> index g' = index g -> instance_idx g' = instance_idx g ->
  runtimes g' = runtimes g -> graph_ok g -> graph_ok g'.
Proof.
  intros H1 H2 H3 H4 H5 Hg. destruct Hg as [h1 h2 h3 h4 h5 h6 h7 h8 h9 h10].
  constructor; unfold linked; rewrite ?H1, ?H2, ?H3, ?H4, ?H5; done.
Qed.

Lemma send_event_ok e g : graph_ok g -> graph_ok (send_event e g).
Proof. by apply graph_ok_same. Qed.
Lemma record_event_ok e g : graph_ok g -> graph_ok (record_event e g).
Proof. by apply graph_ok_same. Qed.

Lemma with_status_ok g idx n st :
  graph_ok g -> nodes g !! idx = Some n -> st <> Removed ->
  graph_ok (with_graph (<[idx := with_node_status st n]> (nodes g)) (edges g) (index g) g).
Proof.
  intros Hg Hn Hst. set (g' := with_graph _ _ _ _).
  assert (Hback : forall j m', nodes g' !! j = Some m' ->
            exists m, nodes g !! j = Some m /\ id m' = id m /\ kind m' = kind m /\ (status m' = status m \/ status m' = st)).
  { intros j m'. cbn. rewrite lookup_insert_Some. intros [[<- <-]|[_ Hj]]; [by exists n; eauto|by exists m'; eauto]. }
  assert (Hforth : forall j m, nodes g !! j = Some m -> exists m', nodes g' !! j = Some m' /\ id m' = id m /\ kind m' = kind m).
  { intros j m Hj. cbn. destruct (decide (j = idx)) as [->|]; [|rewrite lookup_insert_ne by done; by exists m].
    rewrite lookup_insert_eq. rewrite Hn in Hj. injection Hj as ->. by exists (with_node_status st m). }
  destruct Hg as [h1 h2 h3 h4 h5 h6 h7 h8 h9 h10]. constructor; try done.
  - intros i j Hi. destruct (h1 _ _ Hi) as (m & Hm & <-). destruct (Hforth _ _ Hm) as (m' & Hm' & Hid & _). by exists m'.
  - intros j m' (m & Hm & -> & _)%Hback. by apply h2.
  - intros a b r Hl. destruct (h3 _ _ _ Hl) as [[ma Ha] [mb Hb]].
    destruct (Hforth _ _ Ha) as (? & -> & _), (Hforth _ _ Hb) as (? & -> & _). done.
  - intros a b r na nb Hl (ma & Ha & _ & -> & _)%Hback (mb & Hb & _ & -> & _)%Hback. by eapply h6.
  - destruct h7 as (root & Hr & Hk). destruct (Hforth _ _ Hr) as (r' & Hr' & _ & Hk'). exists r'. by rewrite Hk'.
  - intros j m' (m & Hm & _ & -> & _)%Hback. by apply h8.
  - intros j m' (m & Hm & _ & _ & [-> | ->])%Hback; [by eapply h10|done].
Qed.

(** ** Relationships *)

Lemma index_bind {A} e i (k : nat -> SM Graph GraphError A) g :
  (or_error e (index g !! i) ≫= k) g = match index g !! i with Some idx => k idx g | None => (Err e, g) end.
Proof. by destruct (index g !! i). Qed.

(** What adding a relationship does to a well-formed graph *)
Inductive link_outcome g : outcome GraphError (option nat * option nat) -> Graph -> Prop :=
| link_fails e : link_outcome g (Err e) g
| link_exists : link_outcome g (Ok (None, None)) g
| link_added a b r e1 e2 g' : edges g !! e1 = None -> edges g !! e2 = None -> e1 <> e2 -> graph_ok g' ->
    g' = with_graph (nodes g) (<[e2 := (b, a, reverse r)]> (<[e1 := (a, b, r)]> (edges g))) (index g) g ->
    link_outcome g (Ok (Some e1, Some e2)) g'.

Lemma add_relationship_outcome g a b r :
  graph_ok g -> link_outcome g (add_relationship_internal a b r g).1 (add_relationship_internal a b r g).2.
Proof.
  intros Hg. unfold add_relationship_internal. rewrite get_bind, index_bind.
  destruct (index g !! a) as [ia|] eqn:Ha; [|constructor]. rewrite index_bind.
  destruct (index g !! b) as [ib|] eqn:Hb; [|constructor].
  destruct (gk_index g Hg _ _ Ha) as (na & Hna & _), (gk_index g Hg _ _ Hb) as (nb & Hnb & _).
  rewrite (weight_bind _ _ _ _ _ Hna), (weight_bind _ _ _ _ _ Hnb).
  destruct (is_valid_relationship (kind na) (kind nb) r) eqn:Hv; cbn [negb]; [|constructor].
  destruct (find_edge ia ib r g) as [e|] eqn:Hf; [constructor|].
  apply find_edge_none in Hf.
  destruct (add_edge ia ib r g) as [e1 g1] eqn:H1. destruct (add_edge ib ia (reverse r) g1) as [e2 g2] eqn:H2.
  destruct (link_ok g ia ib r na nb e1 e2 g1 g2 Hg Hna Hnb) as [Hok _]; try done.
  { unfold kinds_fit. by rewrite Hv. }
  pose proof (free_index_fresh (dom (edges g))) as F1. pose proof (free_index_fresh (dom (edges g1))) as F2.
  injection H1 as E1 G1. injection H2 as E2 G2. rewrite E1 in F1, G1. rewrite E2 in F2, G2. subst g2 g1. cbn in F2.
  apply not_elem_of_dom in F1, F2. apply lookup_insert_None in F2 as [F2 F12].
  by apply (link_added g ia ib r e1 e2).
Qed.

Lemma add_relationship_ok g a b r : graph_ok g -> graph_ok (add_relationship a b r g).2.
Proof.
  intros Hg. pose proof (add_relationship_outcome g a b r Hg) as Ho. unfold add_relationship, mbind, SM_bind.
  destruct (add_relationship_internal a b r g) as [o g']. cbn in Ho. by destruct Ho.
Qed.

Lemma remove_relationship_ok g a b r : graph_ok g -> graph_ok (remove_relationship a b r g).2.
Proof.
  intros Hg. unfold remove_relationship. rewrite get_bind, index_bind. destruct (index g !! a) as [ia|]; [|done].
  rewrite index_bind. destruct (index g !! b) as [ib|]; [|done].
  destruct (find_edge ia ib r g) as [e1|] eqn:H1; cbn [remove_found].
  - rewrite modify_bind, get_bind. apply find_edge_some in H1.
    destruct (gk_reverse g Hg ia ib r) as [e2 H2]; [by exists e1|].
    assert (Hne : e1 <> e2). { intros <-. rewrite H1 in H2. injection H2 as _ _ H2. by apply (reverse_ne r). }
    destruct (find_edge_linked (remove_edge e1 g) ib ia (reverse r)) as [e2' Hf]; [exists e2; cbn; by rewrite lookup_delete_ne|].
    rewrite Hf. apply find_edge_some in Hf. cbn in Hf. apply lookup_delete_Some in Hf as [_ Hf]. cbn [remove_found].
    by apply (unlink_ok g ia ib r e1 e2').
  - rewrite sm_bind_ret_l, get_bind.
    destruct (find_edge ib ia (reverse r) g) as [e2|] eqn:H2; [|done].
    apply find_edge_some in H2. apply find_edge_none in H1. destruct H1. rewrite <- (reverse_involutive r).
    apply gk_reverse; [done|]. by exists e2.
Qed.

(** ** Status updates *)

Lemma transition_not_removed k s s' : is_valid_transition k s s' = true -> s' <> Removed.
Proof. by destruct s, s'. Qed.

(** What a status update leaves behind *)
Definition status_updated (now : Z) (i : string) (s : ComponentStatus) (msg : option string) (idx : nat)
    (n : ComponentNode) g : option ComponentEvent * Graph :=
  let g1 := notify_waiters (with_graph (<[idx := with_node_status s n]> (nodes g)) (edges g) (index g) g) in
  match event_of now i (kind n) s msg with
  | Some e => (Some e, record_event e (send_event e g1))
  | None => (None, g1)
  end.

Lemma update_status_runs g now i s msg idx n :
  index g !! i = Some idx -> nodes g !! idx = Some n ->
  update_status_with_message now i s msg g =
    if decide (status n = s) then (Ok None, g)
    else if is_valid_transition (kind n) (status n) s
    then (Ok (status_updated now i s msg idx n g).1, (status_updated now i s msg idx n g).2)
    else (Ok None, g).
Proof.
  intros Hi Hn. unfold update_status_with_message. rewrite get_bind, Hi, or_error_some, Hn, or_error_some.
  case_decide; [done|]. destruct (is_valid_transition _ _ _); cbn [negb]; [|done]. rewrite !modify_bind.
  unfold status_updated, emit_event. by destruct (event_of now i (kind n) s msg).
Qed.

Lemma update_status_missing g now i s msg :
  index g !! i = None -> update_status_with_message now i s msg g = (Err (NotFound i), g).
Proof. intros Hi. unfold update_status_with_message. by rewrite get_bind, Hi. Qed.

Lemma status_updated_ok now i s msg idx n g :
  graph_ok g -> nodes g !! idx = Some n -> s <> Removed -> graph_ok (status_updated now i s msg idx n g).2.
Proof.
  intros Hg Hn Hs. pose proof (with_status_ok g idx n s Hg Hn Hs) as Hok. unfold status_updated.
  destruct (event_of _ _ _ _ _); by eapply graph_ok_same; [..|exact Hok].
Qed.

Lemma update_status_ok g now i s msg : graph_ok g -> graph_ok (update_status_with_message now i s msg g).2.
Proof.
  intros Hg. destruct (index g !! i) as [idx|] eqn:Hi; [|by rewrite update_status_missing].
  destruct (gk_index g Hg _ _ Hi) as (n & Hn & _). rewrite (update_status_runs g now i s msg idx n) by done.
  case_decide; [done|]. destruct (is_valid_transition _ _ _) eqn:Hv; [|done]. cbn.
  apply status_updated_ok; [done|done|by eapply transition_not_removed].
Qed.

(** A commanded transition is the update, unless it is refused. *)
Lemma validate_and_transition_runs g now i s msg :
  (validate_and_transition now i s msg g).2 = g \/
  validate_and_transition now i s msg g = update_status_with_message now i s msg g.
Proof.
  unfold validate_and_transition. rewrite get_bind. destruct (get_component i g) as [n|]; [|by left].
  rewrite or_error_some. case_decide; [by left|]. destruct (is_valid_transition _ _ _); cbn [negb]; [by right|by left].
Qed.

(** ** Transactions *)

Lemma elem_of_rev {A} (x : A) l : x ∈ rev l <-> x ∈ l.
Proof. by rewrite !list_elem_of_In, <- in_rev. Qed.

Record same_rest g g' : Prop := {
  sr_instance : instance_idx g' = instance_idx g;
  sr_sent : sent g' = sent g;
  sr_notifications : status_notifications g' = status_notifications g;
  sr_runtimes : runtimes g' = runtimes g;
  sr_history : event_history g' = event_history g;
}.

Lemma graph_eq g g' :
  nodes g' = nodes g -> edges g' = edges g -> index g' = index g -> same_rest g g' -> g' = g.
Proof. intros H1 H2 H3 [? ? ? ? ?]. destruct g, g'. cbn in *. by subst. Qed.

(** Apart from what a transaction notes as added, its graph is the one it began with. *)
Record txn_inv (g0 : Graph) (t : GraphTransaction (R:=R)) : Prop := {
  ti_nodes : forall idx, idx ∉ (added_nodes t).*1 -> nodes (txn_graph t) !! idx = nodes g0 !! idx;
  ti_new_nodes : forall idx, idx ∈ (added_nodes t).*1 -> nodes g0 !! idx = None;
  ti_index : forall i, i ∉ (added_nodes t).*2 -> index (txn_graph t) !! i = index g0 !! i;
  ti_new_index : forall i, i ∈ (added_nodes t).*2 -> index g0 !! i = None;
  ti_edges : forall e, e ∉ added_edges t -> edges (txn_graph t) !! e = edges g0 !! e;
  ti_new_edges : forall e, e ∈ added_edges t -> edges g0 !! e = None;
  ti_rest : same_rest g0 (txn_graph t);
}.

Lemma remove_edges_spec (l : list nat) g :
  let g' := fold_left (fun g e => remove_edge e g) l g in
  nodes g' = nodes g /\ index g' = index g /\ same_rest g g' /\
  forall e, edges g' !! e = if decide (e ∈ l) then None else edges g !! e.
Proof.
  revert g. induction l as [|x l IH]; intros g; cbn.
  { split_and!; [done|done|done|]. intros e. by rewrite decide_False by set_solver. }
  destruct (IH (remove_edge x g)) as (-> & -> & [? ? ? ? ?] & He). split_and!; [done|done|done|].
  intros e. rewrite He. cbn. destruct (decide (e = x)) as [->|Hne].
  - rewrite lookup_delete_eq. rewrite (decide_True (P:=x ∈ x :: l)) by set_solver. by case_decide.
  - rewrite lookup_delete_ne by done. by rewrite (decide_ext (e ∈ x :: l) (e ∈ l)) by set_solver.
Qed.

Lemma remove_nodes_spec (l : list (nat * string)) g :
  let g' := fold_left (fun g n => remove_node n.1 (set_index (delete n.2 (index g)) g)) l g in
  same_rest g g' /\
  (forall idx, nodes g' !! idx = if decide (idx ∈ l.*1) then None else nodes g !! idx) /\
  (forall i, index g' !! i = if decide (i ∈ l.*2) then None else index g !! i) /\
  (forall e, edges g' !! e = x ← edges g !! e; if decide (x.1.1 ∈ l.*1 \/ x.1.2 ∈ l.*1) then None else Some x).
Proof.
  revert g. induction l as [|[j s] l IH]; intros g; cbn.
  { split; [done|]. repeat split; intros k; [by rewrite decide_False by set_solver..|].
    destruct (edges g !! k) as [x|]; [|done]. cbn. by rewrite decide_False by set_solver. }
  set (g1 := remove_node j _). destruct (IH g1) as ([? ? ? ? ?] & Hn & Hi & He). split; [done|]. split_and!.
  - intros idx. rewrite Hn. cbn. destruct (decide (idx = j)) as [->|Hne].
    + rewrite lookup_delete_eq. rewrite (decide_True (P:=j ∈ j :: l.*1)) by set_solver. by case_decide.
    + rewrite lookup_delete_ne by done. by rewrite (decide_ext (idx ∈ j :: l.*1) (idx ∈ l.*1)) by set_solver.
  - intros i. rewrite Hi. cbn. destruct (decide (i = s)) as [->|Hne].
    + rewrite lookup_delete_eq. rewrite (decide_True (P:=s ∈ s :: l.*2)) by set_solver. by case_decide.
    + rewrite lookup_delete_ne by done. by rewrite (decide_ext (i ∈ s :: l.*2) (i ∈ l.*2)) by set_solver.
  - intros e. rewrite He. cbn. rewrite map_lookup_filter. destruct (edges g !! e) as [x|]; cbn; [|done].
    destruct (decide (x.1.1 <> j /\ x.1.2 <> j)) as [Hx|Hx].
    + rewrite option_guard_True by done. cbn. by apply decide_ext; set_solver.
    + rewrite option_guard_False by done. cbn. rewrite decide_True; [done|]. destruct (decide (x.1.1 = j)); [set_solver|].
      destruct (decide (x.1.2 = j)); [set_solver|]. tauto.
Qed.

Lemma rollback_restores g0 t : graph_ok g0 -> txn_inv g0 t -> rollback t = g0.
Proof.
  intros Hg [h1 h2 h3 h4 h5 h6 [r1 r2 r3 r4 r5]]. unfold rollback.
  destruct (remove_edges_spec (rev (added_edges t)) (txn_graph t)) as (E1 & E2 & [s1 s2 s3 s4 s5] & E3).
  set (g1 := fold_left _ (rev (added_edges t)) _) in *.
  destruct (remove_nodes_spec (rev (added_nodes t)) g1) as ([u1 u2 u3 u4 u5] & N1 & N2 & N3).
  set (g2 := fold_left _ (rev (added_nodes t)) _) in *.
  assert (Hf1 : forall idx, idx ∈ (rev (added_nodes t)).*1 <-> idx ∈ (added_nodes t).*1).
  { intros idx. rewrite !list_elem_of_fmap. by setoid_rewrite elem_of_rev. }
  assert (Hf2 : forall i, i ∈ (rev (added_nodes t)).*2 <-> i ∈ (added_nodes t).*2).
  { intros i. rewrite !list_elem_of_fmap. by setoid_rewrite elem_of_rev. }
  apply graph_eq; [| | |by constructor; congruence].
  - apply map_eq. intros idx. rewrite N1, E1, (decide_ext _ _ _ _ (Hf1 idx)). case_decide; [by rewrite h2|by apply h1].
  - apply map_eq. intros e. rewrite N3, E3, (decide_ext _ _ _ _ (elem_of_rev e (added_edges t))).
    case_decide as He; [by rewrite h6|]. rewrite h5 by done.
    destruct (edges g0 !! e) as [[[a b] r]|] eqn:Hx; cbn; [|done].
    destruct (gk_ends g0 Hg a b r) as [[na Ha] [nb Hb]]; [by exists e|].
    rewrite decide_False; [done|]. rewrite !Hf1. intros [Hin|Hin]; apply h2 in Hin; congruence.
  - apply map_eq. intros i. rewrite N2, E2, (decide_ext _ _ _ _ (Hf2 i)). case_decide; [by rewrite h4|by apply h3].
Qed.

Definition txn_ok (g0 : Graph) (t : GraphTransaction (R:=R)) : Prop := txn_inv g0 t /\ graph_ok (txn_graph t).

Lemma txn_begin g : graph_ok g -> txn_ok g (begin g).
Proof. intros Hg. split; [|done]. constructor; cbn; try done; intros ? Hin; by apply elem_of_nil in Hin. Qed.

Lemma txn_add_component_keeps g0 t now n :
  txn_ok g0 t -> kind n <> Instance_ -> status n <> Removed ->
  let '(r, t') := txn_add_component now n t in r <> Panic /\ txn_ok g0 t'.
Proof.
  intros [Ht Hg] Hk Hst. unfold txn_add_component, in_transaction.
  destruct (index (txn_graph t) !! id n) as [idx|] eqn:Hi.
  - unfold add_component_internal, contains_component. rewrite Hi, bool_decide_true by done. by destruct t.
  - destruct (add_component_ok (txn_graph t) now n Hg Hk Hst Hi) as (idx & e1 & e2 & g' & -> & Hn & He1 & He2 & H12 & Hok & ->).
    cbv beta iota. cbn [txn_graph added_nodes added_edges pending_events]. split; [done|]. split; [|done].
    destruct Ht as [h1 h2 h3 h4 h5 h6 [r1 r2 r3 r4 r5]].
    constructor; cbn; rewrite ?fmap_app; cbn.
    + intros j Hj. rewrite lookup_insert_ne by set_solver. apply h1. set_solver.
    + intros j [Hj|Hj%list_elem_of_singleton]%elem_of_app; [by apply h2|]. subst j.
      destruct (decide (idx ∈ (added_nodes t).*1)) as [Hin|Hin]; [by apply h2|]. by rewrite <- h1.
    + intros j Hj. rewrite lookup_insert_ne by set_solver. apply h3. set_solver.
    + intros j [Hj|Hj%list_elem_of_singleton]%elem_of_app; [by apply h4|]. subst j.
      destruct (decide (id n ∈ (added_nodes t).*2)) as [Hin|Hin]; [by apply h4|]. by rewrite <- h3.
    + intros e He. rewrite !lookup_insert_ne by set_solver. apply h5. set_solver.
    + intros e [He|He]%elem_of_app; [by apply h6|].
      destruct (decide (e ∈ added_edges t)) as [Hin|Hin]; [by apply h6|]. rewrite <- h5 by done. set_solver.
    + done.
Qed.

Lemma txn_add_relationship_keeps g0 t a b r :
  txn_ok g0 t -> let '(o, t') := txn_add_relationship a b r t in o <> Panic /\ txn_ok g0 t'.
Proof.
  intros [Ht Hg]. unfold txn_add_relationship, in_transaction.
  pose proof (add_relationship_outcome _ a b r Hg) as Ho.
  destruct (add_relationship_internal a b r (txn_graph t)) as [o g']. cbn in Ho.
  destruct Ho as [e| |x y q e1 e2 g' He1 He2 H12 Hok ->].
  - by destruct t.
  - cbv beta iota. split; [done|]. destruct Ht. split; [|done]. by constructor; cbn; rewrite ?app_nil_r.
  - cbv beta iota. split; [done|]. split; [|done]. destruct Ht as [h1 h2 h3 h4 h5 h6 [r1 r2 r3 r4 r5]].
    constructor; cbn; try done.
    + intros e He. rewrite !lookup_insert_ne by set_solver. apply h5. set_solver.
    + intros e [He|He]%elem_of_app; [by apply h6|].
      destruct (decide (e ∈ added_edges t)) as [Hin|Hin]; [by apply h6|]. rewrite <- h5 by done. set_solver.
Qed.
End facts.

(** * Registration, lifecycle and order of components

    Registering is all or nothing; every operation keeps the graph well formed;
    the events that were sent tell the status of every component; the history of
    a component holds its last events; the order of starts and stops respects
    the feeds. *)

Section theorems.
Context {G : StableGraphOps} {R : Type}.
Notation Graph := (ComponentGraph R).
Notation T := (SM (GraphTransaction (R:=R)) GraphError).
Implicit Types g : Graph.

(** ** Registration *)

Inductive Registration :=
| RegSource
| RegQuery (source_ids : list string)
| RegReaction (query_ids : list string)
| RegBootstrapProvider (source_ids : list string)
| RegIdentityProvider (component_ids : list string).

Definition register (reg : Registration) (now : Z) (i : string) (metadata : gmap string string) : SM Graph GraphError unit :=
  match reg with
  | RegSource => register_source now i metadata
  | RegQuery l => register_query now i metadata l
  | RegReaction l => register_reaction now i metadata l
  | RegBootstrapProvider l => register_bootstrap_provider now i metadata l
  | RegIdentityProvider l => register_identity_provider now i metadata l
  end.

Definition reg_kind (reg : Registration) : ComponentKind :=
  match reg with
  | RegSource => Source | RegQuery _ => Query | RegReaction _ => Reaction
  | RegBootstrapProvider _ => BootstrapProvider | RegIdentityProvider _ => IdentityProvider
  end.
Definition reg_references (reg : Registration) : list string :=
  match reg with
  | RegSource => []
  | RegQuery l | RegReaction l | RegBootstrapProvider l | RegIdentityProvider l => l
  end.
(** The relationship with a reference: from, to, kind *)
Definition reg_link (reg : Registration) (i reference : string) : string * string * RelationshipKind :=
  match reg with
  | RegQuery _ | RegReaction _ | RegSource => (reference, i, Feeds)
  | RegBootstrapProvider _ => (i, reference, Bootstraps)
  | RegIdentityProvider _ => (i, reference, Authenticates)
  end.

Definition related g (l : string * string * RelationshipKind) : Prop :=
  exists ia ib, index g !! l.1.1 = Some ia /\ index g !! l.1.2 = Some ib /\ linked g ia ib l.2.

Definition valid_link g (l : string * string * RelationshipKind) : Prop :=
  exists na nb, get_component l.1.1 g = Some na /\ get_component l.1.2 g = Some nb /\
    is_valid_relationship (kind na) (kind nb) l.2 = true.

Definition same_components g g' : Prop := nodes g' = nodes g /\ index g' = index g.

Lemma add_relationship_links g a b r o g' :
  graph_ok g -> add_relationship_internal a b r g = (Ok o, g') -> related g' (a, b, r).
Proof.
  intros Hg. unfold add_relationship_internal. rewrite get_bind, index_bind.
  destruct (index g !! a) as [ia|] eqn:Ha; [|done]. rewrite index_bind.
  destruct (index g !! b) as [ib|] eqn:Hb; [|done].
  destruct (gk_index g Hg _ _ Ha) as (na & Hna & _), (gk_index g Hg _ _ Hb) as (nb & Hnb & _).
  rewrite (weight_bind _ _ _ _ _ Hna), (weight_bind _ _ _ _ _ Hnb).
  destruct (is_valid_relationship (kind na) (kind nb) r); cbn [negb]; [|done].
  destruct (find_edge ia ib r g) as [e|] eqn:Hf.
  - intros [= _ <-]. exists ia, ib. apply find_edge_some in Hf. split_and!; [done|done|by exists e].
  - destruct (add_edge ia ib r g) as [e1 g1] eqn:H1. destruct (add_edge ib ia (reverse r) g1) as [e2 g2] eqn:H2.
    intros [= _ <-]. exists ia, ib. cbn.
    assert (index g2 = index g) as -> by (by injection H1 as _ <-; injection H2 as _ <-).
    split_and!; [done|done|]. apply (linked_add_edge _ _ _ _ _ _ _ _ _ H2). left.
    apply (linked_add_edge _ _ _ _ _ _ _ _ _ H1). by right.
Qed.

Lemma add_relationship_valid g a b r :
  graph_ok g -> valid_link g (a, b, r) -> exists o, (add_relationship_internal a b r g).1 = Ok o.
Proof.
  intros Hg (na & nb & Ha & Hb & Hv). cbn in Ha, Hb. unfold get_component in Ha, Hb. unfold add_relationship_internal.
  rewrite get_bind, index_bind. destruct (index g !! a) as [ia|]; [|done]. rewrite index_bind.
  destruct (index g !! b) as [ib|]; [|done]. rewrite (weight_bind _ _ _ _ _ Ha), (weight_bind _ _ _ _ _ Hb).
  cbn in Hv. rewrite Hv. cbn [negb]. destruct (find_edge ia ib r g); [by eexists|].
  destruct (add_edge ia ib r g) as [e1 g1]. destruct (add_edge ib ia (reverse r) g1) as [e2 g2]. by eexists.
Qed.

Lemma link_outcome_monotone g o g' : link_outcome g o g' ->
  same_components g g' /\ forall x y q, linked g x y q -> linked g' x y q.
Proof.
  destruct 1 as [e| |a b r e1 e2 g' H1 H2 H12 _ ->]; [done|done|]. split; [done|]. intros x y q [e He].
  exists e. cbn. rewrite !lookup_insert_ne by congruence. done.
Qed.

Lemma related_monotone g g' l :
  same_components g g' -> (forall x y q, linked g x y q -> linked g' x y q) -> related g l -> related g' l.
Proof. intros [_ Hi] Hl (ia & ib & Ha & Hb & Hab). exists ia, ib. rewrite Hi. auto. Qed.

Lemma valid_link_same g g' l : same_components g g' -> valid_link g l -> valid_link g' l.
Proof. intros [Hn Hi]. unfold valid_link, get_component. by rewrite Hn, Hi. Qed.

(** The relationships are added one after the other. *)
Lemma link_each (link : string -> string * string * RelationshipKind) refs g0 t :
  txn_ok g0 t ->
  let '(o, t') := sm_foldl (fun _ r => txn_add_relationship (link r).1.1 (link r).1.2 (link r).2) tt refs t in
  o <> Panic /\ txn_ok g0 t' /\ pending_events t' = pending_events t /\ same_components (txn_graph t) (txn_graph t') /\
  (forall x y q, linked (txn_graph t) x y q -> linked (txn_graph t') x y q) /\
  (o = Ok tt -> forall r, r ∈ refs -> related (txn_graph t') (link r)) /\
  ((forall r, r ∈ refs -> valid_link (txn_graph t) (link r)) -> o = Ok tt).
Proof.
  revert t. induction refs as [|r refs IH]; intros t Ht; cbn [sm_foldl].
  { cbn. split_and!; [done|done|done|done|done|set_solver|done]. }
  pose proof (txn_add_relationship_keeps g0 t (link r).1.1 (link r).1.2 (link r).2 Ht) as Hk.
  pose proof (add_relationship_outcome _ (link r).1.1 (link r).1.2 (link r).2 (proj2 Ht)) as Ho.
  pose proof (add_relationship_valid (txn_graph t) (link r).1.1 (link r).1.2 (link r).2 (proj2 Ht)) as Hv.
  pose proof (add_relationship_links (txn_graph t) (link r).1.1 (link r).1.2 (link r).2) as Hl.
  unfold mbind, SM_bind. unfold txn_add_relationship, in_transaction in Hk |- *.
  destruct (add_relationship_internal _ _ _ (txn_graph t)) as [o g']. cbn [fst snd] in Ho, Hv. cbv beta iota in Hk |- *.
  apply link_outcome_monotone in Ho as [Hsame Hmono].
  destruct o as [o|e|]; cbv beta iota in Hk |- *; destruct Hk as [Hp Hk]; [| |done].
  - cbn [txn_graph added_nodes added_edges pending_events] in Hk |- *. set (t1 := {| txn_graph := _; added_nodes := added_nodes t; added_edges := _; pending_events := _ |}) in *.
    specialize (IH t1 Hk). destruct (sm_foldl _ tt refs t1) as [o' t'].
    destruct IH as (Hp' & Hk' & Hpe & Hsame' & Hmono' & Hrel & Hval). split_and!.
    + done.
    + done.
    + done.
    + destruct Hsame, Hsame'. split; etrans; eauto.
    + eauto.
    + intros Ho r' [->|Hr']%elem_of_cons; [|by apply Hrel].
      eapply related_monotone; [exact Hsame'|exact Hmono'|]. specialize (Hl o g' (proj2 Ht) eq_refl).
      by destruct (link r) as [[? ?] ?].
    + intros Hall. apply Hval. intros r' Hr'. eapply valid_link_same; [exact Hsame|]. apply Hall. set_solver.
  - split_and!; [done|done|done|done|done|done|]. intros Hall. destruct Hv as [? ?]; [|done].
    specialize (Hall r ltac:(set_solver)). by destruct (link r) as [[? ?] ?].
Qed.

(** The kinds a reference may have *)
Definition reg_fits (reg : Registration) (k : ComponentKind) : Prop :=
  match reg with
  | RegQuery _ | RegBootstrapProvider _ => k = Source
  | RegReaction _ => k = Query
  | RegSource | RegIdentityProvider _ => True
  end.

(** When a registration is possible: the name is new, the references exist and
    fit. *)
Definition registrable g (reg : Registration) (i : string) : Prop :=
  index g !! i = None /\
  forall r, r ∈ reg_references reg -> exists n, get_component r g = Some n /\ reg_fits reg (kind n).

Lemma register_linked_form reg now i md g :
  register reg now i md g =
  match List.find (fun r => negb (contains_component r g)) (reg_references reg) with
  | Some r => (Err (MissingReference (reg_kind reg) i r), g)
  | None =>
      with_transaction (_ ← txn_add_component now (added_node i (reg_kind reg) md);
        sm_foldl (fun _ r => txn_add_relationship (reg_link reg i r).1.1 (reg_link reg i r).1.2 (reg_link reg i r).2) tt
          (reg_references reg)) g
  end.
Proof. by destruct reg. Qed.

Lemma contains_component_spec i g : contains_component i g = true <-> exists idx, index g !! i = Some idx.
Proof. unfold contains_component. rewrite bool_decide_eq_true. split; [intros [x ?]; by exists x|intros [x ?]; by exists x]. Qed.

(** The transaction of a registration, when the name is new *)
Lemma registration_added g now reg i md :
  graph_ok g -> index g !! i = None ->
  exists idx t1, txn_add_component now (added_node i (reg_kind reg) md) (begin g) = (Ok idx, t1) /\
    txn_ok g t1 /\
    pending_events t1 = option_list (event_of now i (reg_kind reg) Added (Some (kind_display (reg_kind reg) ++ " added")%string)) /\
    nodes g !! idx = None /\
    nodes (txn_graph t1) = <[idx := added_node i (reg_kind reg) md]> (nodes g) /\ index (txn_graph t1) = <[i := idx]> (index g).
Proof.
  intros Hg Hi. set (n := added_node i (reg_kind reg) md).
  assert (Hk : kind n <> Instance_) by (by destruct reg).
  pose proof (txn_add_component_keeps g (begin g) now n (txn_begin g Hg) Hk) as Hkeep.
  destruct (add_component_ok g now n Hg Hk) as (idx & e1 & e2 & g' & Hadd & Hn & _ & _ & _ & _ & ->); [done|done|].
  unfold txn_add_component, in_transaction in Hkeep |- *. cbn [txn_graph begin] in Hkeep |- *. rewrite Hadd in Hkeep |- *.
  cbv beta iota in Hkeep |- *. eexists _, _. split; [reflexivity|]. split; [by apply Hkeep|]. done.
Qed.

Lemma commit_sent (t : GraphTransaction (R:=R)) : sent (txn_commit t) = sent (txn_graph t) ++ pending_events t.
Proof.
  unfold txn_commit. generalize (txn_graph t). induction (pending_events t) as [|e l IH]; intros g; cbn; [by rewrite app_nil_r|].
  rewrite IH. cbn. by rewrite <- app_assoc.
Qed.

Lemma commit_fields (t : GraphTransaction (R:=R)) :
  nodes (txn_commit t) = nodes (txn_graph t) /\ edges (txn_commit t) = edges (txn_graph t) /\
  index (txn_commit t) = index (txn_graph t) /\ instance_idx (txn_commit t) = instance_idx (txn_graph t) /\
  runtimes (txn_commit t) = runtimes (txn_graph t).
Proof.
  unfold txn_commit. generalize (txn_graph t). induction (pending_events t) as [|e l IH]; intros g; cbn; [done|].
  by destruct (IH (record_event e (send_event e g))) as (-> & -> & -> & -> & ->).
Qed.

Lemma commit_ok (t : GraphTransaction (R:=R)) : graph_ok (txn_graph t) -> graph_ok (txn_commit t).
Proof. destruct (commit_fields t) as (? & ? & ? & ? & ?). by apply graph_ok_same. Qed.

(** What a successful registration did *)
Record registered (now : Z) (reg : Registration) (i : string) (md : gmap string string) g g' : Prop := {
  rg_new : get_component i g = None;
  rg_node : get_component i g' = Some (added_node i (reg_kind reg) md);
  rg_others : forall j, j <> i -> get_component j g' = get_component j g;
  rg_links : forall r, r ∈ reg_references reg -> related g' (reg_link reg i r);
  rg_event : exists e, event_of now i (reg_kind reg) Added (Some (kind_display (reg_kind reg) ++ " added")%string) = Some e /\
    sent g' = sent g ++ [e] /\ event_history g' = history_record e (event_history g);
}.

Lemma registrable_links g reg i md idx (t1 : GraphTransaction (R:=R)) :
  graph_ok g -> registrable g reg i -> nodes g !! idx = None ->
  nodes (txn_graph t1) = <[idx := added_node i (reg_kind reg) md]> (nodes g) -> index (txn_graph t1) = <[i := idx]> (index g) ->
  forall r, r ∈ reg_references reg -> valid_link (txn_graph t1) (reg_link reg i r).
Proof.
  intros Hg [Hi Hrefs] Hn Hnodes Hindex r Hr. destruct (Hrefs r Hr) as (n & Hgn & Hv).
  unfold get_component in Hgn. destruct (index g !! r) as [ir|] eqn:Hir; [|done].
  assert (Hr1 : get_component r (txn_graph t1) = Some n).
  { unfold get_component. rewrite Hnodes, Hindex, lookup_insert_ne by congruence. rewrite Hir.
    rewrite lookup_insert_ne; [done|]. intros ->. congruence. }
  assert (Hi1 : get_component i (txn_graph t1) = Some (added_node i (reg_kind reg) md)).
  { unfold get_component. by rewrite Hnodes, Hindex, !lookup_insert_eq. }
  destruct reg; cbn in Hr; [set_solver|..]; cbn [reg_link reg_kind] in *.
  - exists n, (added_node i Query md). cbn in *. by rewrite Hv.
  - exists n, (added_node i Reaction md). cbn in *. by rewrite Hv.
  - exists (added_node i BootstrapProvider md), n. cbn in *. by rewrite Hv.
  - by exists (added_node i IdentityProvider md), n.
Qed.

Lemma registration_outcome reg now i md g :
  graph_ok g ->
  match register reg now i md g with
  | (Ok _, g') => registered now reg i md g g' /\ graph_ok g'
  | (Err _, g') => g' = g /\ ~ registrable g reg i
  | (Panic, _) => False
  end.
Proof.
  intros Hg. rewrite register_linked_form. destruct (List.find _ _) as [r|] eqn:Hf.
  { apply List.find_some in Hf as [Hr Hc]. split; [done|]. intros [_ Hreg].
    destruct (Hreg r) as (n & Hn & _); [by apply list_elem_of_In|]. apply negb_true_iff in Hc.
    unfold get_component in Hn. unfold contains_component in Hc. apply bool_decide_eq_false in Hc.
    destruct (index g !! r); [by destruct Hc; eexists|done]. }
  unfold with_transaction. destruct (index g !! i) as [idx|] eqn:Hi.
  { assert (exists e, txn_add_component now (added_node i (reg_kind reg) md) (begin g) = (Err e, begin g)) as [e Hadd].
    { eexists. unfold txn_add_component, in_transaction. cbn [txn_graph begin]. unfold add_component_internal, contains_component.
      cbn [id added_node]. by rewrite Hi, bool_decide_true by done. }
    rewrite (sm_bind_err _ _ _ _ _ Hadd). split; [apply rollback_restores; [done|apply txn_begin, Hg]|].
    intros [Hnone _]. congruence. }
  destruct (registration_added g now reg i md Hg Hi) as (idx & t1 & Hadd & Ht1 & Hpe & Hidx & Hnodes & Hindex).
  rewrite (sm_bind_ok _ _ _ _ _ Hadd).
  pose proof (link_each (reg_link reg i) (reg_references reg) g t1 Ht1) as Hlinks.
  destruct (sm_foldl _ tt (reg_references reg) t1) as [o t2].
  destruct Hlinks as (Hp & [Hinv Hok] & Hpe2 & [Hn2 Hi2] & _ & Hrel & Hval). destruct o as [[]|e|]; [| |done].
  - destruct (commit_fields t2) as (Cn & Ce & Ci & _). split; [|by apply commit_ok].
    assert (Hk : reg_kind reg <> Instance_) by (by destruct reg).
    destruct (event_of_some now i (reg_kind reg) Added (Some (kind_display (reg_kind reg) ++ " added")%string) Hk) as [ty He].
    constructor.
    + unfold get_component. by rewrite Hi.
    + unfold get_component. by rewrite Cn, Ci, Hn2, Hi2, Hnodes, Hindex, !lookup_insert_eq.
    + intros j Hj. unfold get_component. rewrite Cn, Ci, Hn2, Hi2, Hnodes, Hindex, lookup_insert_ne by done.
      destruct (index g !! j) as [k|] eqn:Hk'; [|done]. rewrite lookup_insert_ne; [done|]. intros <-.
      destruct (gk_index g Hg _ _ Hk') as (? & ? & _). congruence.
    + intros r Hr. destruct (Hrel eq_refl r Hr) as (ia & ib & Ha & Hb & [x Hx]). exists ia, ib. rewrite Ci.
      split_and!; [done|done|]. exists x. by rewrite Ce.
    + eexists. split; [exact He|]. rewrite commit_sent. unfold txn_commit. rewrite Hpe2, Hpe, He. destruct (ti_rest _ _ Hinv) as [_ Hs _ _ Hh].
      rewrite Hs. cbn. by rewrite Hh.
  - split; [by apply rollback_restores|]. intros Hreg.
    by pose proof (Hval (registrable_links g reg i md idx t1 Hg Hreg Hidx Hnodes Hindex)).
Qed.

(** [C24] Registering a source, a query, a reaction or a provider is all or
    nothing: if the name is new and the references exist and fit, the component
    is added with all its relationships and one event, and nothing else
    changes; otherwise the graph is what it was. It never panics, and the graph
    stays well formed. *)
Theorem registration_all_or_nothing reg now i md g :
  graph_ok g ->
  match register reg now i md g with
  | (Ok _, g') => registered now reg i md g g' /\ graph_ok g'
  | (Err _, g') => g' = g /\ ~ registrable g reg i
  | (Panic, _) => False
  end.
Proof. apply registration_outcome. Qed.

(** ** Operations, one after the other *)

Inductive GraphOp :=
| OpRegister (reg : Registration) (i : string) (metadata : gmap string string)
| OpAdd (node : ComponentNode)
| OpRemove (i : string)
| OpDeregister (i : string)
| OpUpdate (update : ComponentUpdate)
| OpTransition (i : string) (s : ComponentStatus) (message : option string)
| OpRelate (from to : string) (r : RelationshipKind)
| OpUnrelate (from to : string) (r : RelationshipKind)
| OpSetRuntime (i : string) (runtime : R)
| OpTakeRuntime (i : string) (fits : bool).

Definition run_op (now : Z) (op : GraphOp) (g : Graph) : Graph :=
  match op with
  | OpRegister reg i md => (register reg now i md g).2
  | OpAdd n => (add_component now n g).2
  | OpRemove i => (remove_component now i g).2
  | OpDeregister i => (deregister now i g).2
  | OpUpdate u => (apply_update now u g).2
  | OpTransition i s m => (validate_and_transition now i s m g).2
  | OpRelate a b r => (add_relationship a b r g).2
  | OpUnrelate a b r => (remove_relationship a b r g).2
  | OpSetRuntime i rt => (set_runtime i rt g).2
  | OpTakeRuntime i fits => (take_runtime (fun r => if fits then Some r else None) i g).2
  end.

(** A node added by hand is a component, and not a removed one. *)
Definition admissible (op : GraphOp) : Prop :=
  match op with OpAdd n => kind n <> Instance_ /\ status n <> Removed | _ => True end.

(** *** The events tell the statuses *)

Definition kind_of_type (t : ComponentType) : ComponentKind :=
  match t with
  | TypeSource => Source | TypeQuery => Query | TypeReaction => Reaction
  | TypeBootstrapProvider => BootstrapProvider | TypeIdentityProvider => IdentityProvider
  end.

(** What a subscriber makes of an event of a component: it appears, it changes
    its status by a valid transition, or it is removed. *)
Definition replay_event (known : option (ComponentType * ComponentStatus)) (e : ComponentEvent) :
    option (option (ComponentType * ComponentStatus)) :=
  match known with
  | None => if decide (ev_status e = Removed) then None else Some (Some (component_type e, ev_status e))
  | Some (t, s) =>
      if decide (component_type e <> t) then None
      else if decide (ev_status e = Removed) then Some None
      else if is_valid_transition (kind_of_type t) s (ev_status e) then Some (Some (t, ev_status e)) else None
  end.

Definition replay (i : string) (events : list ComponentEvent) : option (option (ComponentType * ComponentStatus)) :=
  fold_left (fun known e => k ← known; if decide (component_id e = i) then replay_event k e else Some k) events (Some None).

Definition status_of (i : string) g : option (ComponentType * ComponentStatus) :=
  n ← get_component i g; t ← to_component_type (kind n); Some (t, status n).

(** The events since a component was last added *)
Definition recent (i : string) (events : list ComponentEvent) : list ComponentEvent :=
  fold_left (fun l e => if decide (component_id e = i) then if decide (ev_status e = Removed) then [] else l ++ [e] else l)
    events [].

Record events_ok g : Prop := {
  ek_replay : forall i, replay i (sent g) = Some (status_of i g);
  ek_capacity : max_events_per_component (event_history g) = DEFAULT_MAX_EVENTS_PER_COMPONENT;
  ek_channel : forall i c, channels (event_history g) !! i = Some c -> max_history c = DEFAULT_MAX_EVENTS_PER_COMPONENT;
  ek_recent : forall i, get_events i g = last_n DEFAULT_MAX_EVENTS_PER_COMPONENT (recent i (sent g));
}.

Lemma replay_snoc i events e k :
  replay i events = Some k -> replay i (events ++ [e]) = if decide (component_id e = i) then replay_event k e else Some k.
Proof. intros Hk. unfold replay. rewrite fold_left_app. cbn. by unfold replay in Hk; rewrite Hk. Qed.

Lemma recent_snoc i events e :
  recent i (events ++ [e]) =
  if decide (component_id e = i) then if decide (ev_status e = Removed) then [] else recent i events ++ [e] else recent i events.
Proof. unfold recent. by rewrite fold_left_app. Qed.

(** What recording, or forgetting, an event of a component does to its history *)
Definition remember (e : ComponentEvent) (h : ComponentEventHistory) : ComponentEventHistory :=
  if decide (ev_status e = Removed) then history_remove (component_id e) h else history_record e h.

(** One event was sent, and it tells what became of its component. *)
Lemma events_step g g' e :
  events_ok g -> sent g' = sent g ++ [e] -> event_history g' = remember e (event_history g) ->
  (forall j, j <> component_id e -> status_of j g' = status_of j g) ->
  replay_event (status_of (component_id e) g) e = Some (status_of (component_id e) g') -> events_ok g'.
Proof.
  intros [Hr Hm Hc Hh] Hsent Hhist Hothers Hthis. constructor.
  - intros i. rewrite Hsent, (replay_snoc _ _ _ _ (Hr i)). case_decide as He; [by subst|]. by rewrite Hothers.
  - rewrite Hhist. unfold remember. by case_decide.
  - intros i c. rewrite Hhist. unfold remember. case_decide.
    + cbn. rewrite lookup_delete_Some. intros [_ Hi]. by eapply Hc.
    + cbn. rewrite lookup_insert_Some. intros [[<- <-]|[_ Hi]]; [|by eapply Hc]. cbn. unfold channel_of.
      destruct (channels (event_history g) !! component_id e) as [c|] eqn:Hi; cbn; [by eapply Hc|done].
  - intros i. specialize (Hh i). unfold get_events, history_events in *. rewrite Hsent, recent_snoc, Hhist. unfold remember.
    destruct (decide (ev_status e = Removed)) as [Hrem|Hrem]; cbn; destruct (decide (component_id e = i)) as [<-|Hne].
    + by rewrite lookup_delete_eq.
    + by rewrite lookup_delete_ne.
    + rewrite lookup_insert_eq. cbn. rewrite last_n_snoc by (unfold DEFAULT_MAX_EVENTS_PER_COMPONENT; lia). rewrite <- Hh.
      unfold channel_of. destruct (channels (event_history g) !! component_id e) as [c|] eqn:Hi; cbn.
      * by rewrite (Hc _ _ Hi).
      * by rewrite Hm.
    + by rewrite lookup_insert_ne.
Qed.

(** Nothing was sent, and no component changed its status. *)
Lemma events_quiet g g' :
  events_ok g -> sent g' = sent g -> event_history g' = event_history g -> (forall j, status_of j g' = status_of j g) ->
  events_ok g'.
Proof.
  intros [Hr Hm Hc Hh] Hs He Hst. constructor; unfold get_events in *; rewrite ?Hs, ?He; try done.
  intros i. by rewrite Hst.
Qed.

Lemma status_of_same g g' i : same_components g g' -> status_of i g' = status_of i g.
Proof. intros [Hn Hi]. unfold status_of, get_component. by rewrite Hn, Hi. Qed.

Lemma to_component_type_kind k t : to_component_type k = Some t -> kind_of_type t = k.
Proof. destruct k; intros [= <-]; done. Qed.

Lemma event_of_type now i k st msg e :
  event_of now i k st msg = Some e ->
  to_component_type k = Some (component_type e) /\ component_id e = i /\ ev_status e = st.
Proof. unfold event_of. destruct (to_component_type k); [|done]. by intros [= <-]. Qed.

Definition sound g : Prop := graph_ok g /\ events_ok g.

Lemma status_of_at g i idx n : graph_ok g -> index g !! i = Some idx -> nodes g !! idx = Some n ->
  status_of i g = t ← to_component_type (kind n); Some (t, status n).
Proof. intros Hg Hi Hn. unfold status_of. by destruct (get_component_index g i idx n Hg Hi Hn) as [-> _]. Qed.

(** A component appears, with its event. *)
Lemma appeared now i n g g' e :
  sound g -> graph_ok g' -> get_component i g = None -> get_component i g' = Some n ->
  (forall j, j <> i -> get_component j g' = get_component j g) -> status n <> Removed ->
  event_of now i (kind n) (status n) (Some (kind_display (kind n) ++ " added")%string) = Some e ->
  sent g' = sent g ++ [e] -> event_history g' = history_record e (event_history g) -> sound g'.
Proof.
  intros [Hg Hev] Hg' Hnone Hn Hothers Hst He Hsent Hh. split; [done|].
  destruct (event_of_type _ _ _ _ _ _ He) as (Ht & Hi & Hs).
  eapply events_step; [exact Hev|exact Hsent| | |].
  - unfold remember. by rewrite decide_False by congruence.
  - intros j Hj. unfold status_of. rewrite Hothers; [done|congruence].
  - rewrite Hi. unfold status_of. rewrite Hnone, Hn. cbn. rewrite Ht, decide_False by congruence. cbn. by rewrite Hs.
Qed.

Lemma register_sound reg now i md g : sound g -> sound (register reg now i md g).2.
Proof.
  intros Hs. pose proof (registration_outcome reg now i md g (proj1 Hs)) as Ho.
  destruct (register reg now i md g) as [[[]|e|] g']; cbn; [|by destruct Ho as [-> _]|done].
  destruct Ho as [[H1 H2 H3 _ (e & He & Hse & Hh)] Hok].
  exact (appeared now i _ g g' e Hs Hok H1 H2 H3 (ltac:(done)) He Hse Hh).
Qed.

Lemma add_component_sound now n g : kind n <> Instance_ -> status n <> Removed -> sound g -> sound (add_component now n g).2.
Proof.
  intros Hk Hst Hs. destruct (index g !! id n) as [idx|] eqn:Hi.
  - unfold add_component, add_component_internal, contains_component, mbind, SM_bind. by rewrite Hi, bool_decide_true by done.
  - destruct (add_component_ok g now n (proj1 Hs) Hk Hst Hi) as (idx & e1 & e2 & g' & Hadd & Hidx & _ & _ & _ & Hok & Hg').
    unfold add_component. rewrite (sm_bind_ok _ _ _ _ _ Hadd).
    destruct (event_of_some now (id n) (kind n) (status n) (Some (kind_display (kind n) ++ " added")%string) Hk) as [t He].
    rewrite He. cbv beta iota. rewrite modify_bind. cbn [snd].
    eapply (appeared now (id n) n g); [done|by eapply graph_ok_same; [..|exact Hok]| | | |done|exact He| |].
    + unfold get_component. by rewrite Hi.
    + subst g'. unfold get_component. cbn. by rewrite !lookup_insert_eq.
    + intros j Hj. subst g'. unfold get_component. cbn. rewrite lookup_insert_ne by done.
      destruct (index g !! j) as [k|] eqn:Hk'; [|done]. rewrite lookup_insert_ne; [done|]. intros <-.
      destruct (gk_index g (proj1 Hs) _ _ Hk') as (? & ? & _). congruence.
    + by subst g'.
    + by subst g'.
Qed.

Lemma remove_component_sound now i g : sound g -> sound (remove_component now i g).2.
Proof.
  intros [Hg Hev]. destruct (index g !! i) as [idx|] eqn:Hi.
  2: { unfold remove_component. by rewrite get_bind, Hi. }
  destruct (gk_index g Hg _ _ Hi) as (n & Hn & Hid). destruct (decide (idx = instance_idx g)) as [Hroot|Hroot].
  { unfold remove_component. by rewrite get_bind, Hi, or_error_some, decide_True. }
  destruct (remove_component_runs g now i idx n Hg Hi Hn Hroot) as (e & He & ->). cbn [snd].
  pose proof (without_component_ok g i idx n Hg Hi Hn Hroot) as Hok.
  destruct (event_of_type _ _ _ _ _ _ He) as (Ht & Hie & Hs).
  split; [by eapply graph_ok_same; [..|exact Hok]|]. eapply events_step; [exact Hev|reflexivity| | |].
  - unfold remember. by rewrite decide_True, Hie by done.
  - intros j Hj. unfold status_of, get_component. cbn. rewrite lookup_delete_ne by congruence.
    destruct (index g !! j) as [k|] eqn:Hk; [|done]. rewrite lookup_delete_ne; [done|]. intros <-.
    destruct (gk_index g Hg _ _ Hk) as (n' & Hn' & Hid'). congruence.
  - rewrite Hie, (status_of_at g i idx n Hg Hi Hn), Ht. cbn. rewrite decide_False by tauto. rewrite decide_True by done.
    unfold status_of, get_component. cbn. by rewrite lookup_delete_eq.
Qed.

Lemma deregister_sound now i g : sound g -> sound (deregister now i g).2.
Proof.
  intros Hs. unfold deregister. rewrite get_bind. destruct (can_remove i g); [|done|]; by apply remove_component_sound.
Qed.

Lemma update_status_sound now i s msg g : sound g -> sound (update_status_with_message now i s msg g).2.
Proof.
  intros [Hg Hev]. pose proof (update_status_ok g now i s msg Hg) as Hok. split; [done|].
  destruct (index g !! i) as [idx|] eqn:Hi; [|by rewrite update_status_missing].
  destruct (gk_index g Hg _ _ Hi) as (n & Hn & Hid). rewrite (update_status_runs g now i s msg idx n) in Hok |- * by done.
  case_decide as Hsame; [done|]. destruct (is_valid_transition _ _ _) eqn:Hv; [|done]. cbn [snd] in *.
  assert (Hothers : forall j, j <> i -> status_of j (status_updated now i s msg idx n g).2 = status_of j g).
  { intros j Hj. unfold status_of, get_component, status_updated.
    destruct (event_of _ _ _ _ _); cbn; (destruct (index g !! j) as [k|] eqn:Hk; [|done]);
      (rewrite lookup_insert_ne; [done|]); intros <-; destruct (gk_index g Hg _ _ Hk) as (n' & Hn' & Hid'); congruence. }
  assert (Hthis : status_of i (status_updated now i s msg idx n g).2 = t ← to_component_type (kind n); Some (t, s)).
  { unfold status_of, get_component, status_updated.
    destruct (event_of _ _ _ _ _); cbn; by rewrite Hi, lookup_insert_eq. }
  pose proof (status_of_at g i idx n Hg Hi Hn) as Hwas.
  unfold status_updated in Hothers, Hthis |- *. destruct (event_of now i (kind n) s msg) as [e|] eqn:He; cbn [snd] in *.
  - destruct (event_of_type _ _ _ _ _ _ He) as (Ht & Hie & Hs).
    assert (Hnr : s <> Removed) by by eapply transition_not_removed.
    eapply events_step; [exact Hev|reflexivity| | |].
    + unfold remember. by rewrite decide_False by congruence.
    + intros j Hj. apply Hothers. congruence.
    + rewrite Hie, Hwas, Hthis, Ht. cbn. rewrite decide_False by tauto. rewrite decide_False by congruence.
      rewrite (to_component_type_kind _ _ Ht), Hs. by rewrite Hv.
  - eapply events_quiet; [exact Hev|done|done|]. intros j. destruct (decide (j = i)) as [->|Hj]; [|by apply Hothers].
    rewrite Hthis, Hwas. unfold event_of in He. by destruct (to_component_type (kind n)).
Qed.

(** Only the edges, or only the runtimes, are touched. *)
Lemma sound_quiet g g' :
  graph_ok g' -> events_ok g -> sent g' = sent g -> event_history g' = event_history g -> same_components g g' -> sound g'.
Proof. intros Hg Hev Hs Hh Hc. split; [done|]. eapply events_quiet; [done..|]. intros j. by apply status_of_same. Qed.

Lemma add_relationship_sound a b r g : sound g -> sound (add_relationship a b r g).2.
Proof.
  intros [Hg Hev]. pose proof (add_relationship_ok g a b r Hg) as Hok.
  pose proof (add_relationship_outcome g a b r Hg) as Ho. unfold add_relationship, mbind, SM_bind in Hok |- *.
  destruct (add_relationship_internal a b r g) as [o g']. cbn [fst snd] in Ho.
  destruct Ho as [e| |x y q e1 e2 g' _ _ _ _ ->]; [done|done|]. cbn [snd] in *.
  eapply sound_quiet; [exact Hok|exact Hev|done|done|done].
Qed.

Lemma remove_relationship_fields a b r g :
  let g' := (remove_relationship a b r g).2 in
  sent g' = sent g /\ event_history g' = event_history g /\ same_components g g'.
Proof.
  unfold remove_relationship. rewrite get_bind, index_bind. destruct (index g !! a) as [ia|]; [|done].
  rewrite index_bind. destruct (index g !! b) as [ib|]; [|done].
  destruct (find_edge ia ib r g) as [e1|]; cbn [remove_found];
    [rewrite modify_bind, get_bind|rewrite sm_bind_ret_l, get_bind];
    by destruct (find_edge ib ia (reverse r) _).
Qed.

Lemma remove_relationship_sound a b r g : sound g -> sound (remove_relationship a b r g).2.
Proof.
  intros [Hg Hev]. destruct (remove_relationship_fields a b r g) as (Hs & Hh & Hc).
  eapply sound_quiet; [by apply remove_relationship_ok|exact Hev|done..].
Qed.

Lemma with_runtimes_sound m g :
  sound g -> (forall i, is_Some (m !! i) -> is_Some (index g !! i)) -> sound (with_runtimes m g).
Proof.
  intros [Hg Hev] Hm. eapply sound_quiet; [|exact Hev|done..].
  destruct Hg as [h1 h2 h3 h4 h5 h6 h7 h8 h9 h10]. by constructor.
Qed.

Lemma run_op_sound now op g : admissible op -> sound g -> sound (run_op now op g).
Proof.
  intros Hop Hs. destruct op as [reg i md|n|i|i|[i s m]|i s m|a b r|a b r|i rt|i fits]; cbn [run_op].
  - by apply register_sound.
  - by apply add_component_sound; [apply Hop..|].
  - by apply remove_component_sound.
  - by apply deregister_sound.
  - pose proof (update_status_sound now i s m g Hs) as Hu. unfold apply_update.
    by destruct (update_status_with_message now i s m g) as [[e|e|] g'].
  - destruct (validate_and_transition_runs g now i s m) as [-> | ->]; [done|by apply update_status_sound].
  - by apply add_relationship_sound.
  - by apply remove_relationship_sound.
  - unfold set_runtime, contains_component. case_bool_decide as Hi; [|done]. apply with_runtimes_sound; [done|].
    intros j Hj. destruct (decide (j = i)) as [->|Hne]; [done|]. rewrite lookup_insert_ne in Hj by done.
    by apply (gk_runtimes g (proj1 Hs)).
  - unfold take_runtime. destruct (runtimes g !! i) as [rt|] eqn:Hrt; [|done].
    destruct fits; apply with_runtimes_sound; [done| |done|]; intros j Hj; apply (gk_runtimes g (proj1 Hs)).
    + by destruct Hj as [x [_ Hx]%lookup_delete_Some].
    + destruct (decide (j = i)) as [->|Hne]; [by rewrite Hrt|]. by rewrite lookup_insert_ne, lookup_delete_ne in Hj by done.
Qed.

Lemma new_graph_sound i : sound (new_graph i).
Proof.
  split.
  - constructor; cbn.
    + intros j idx Hj%lookup_singleton_Some. destruct Hj as [<- <-]. eexists. split; [apply lookup_singleton_eq|done].
    + intros idx n [<- <-]%lookup_singleton_Some. apply lookup_singleton_eq.
    + intros a b r [e He]. by destruct (lookup_empty_Some _ _ He).
    + intros a b r [e He]. by destruct (lookup_empty_Some _ _ He).
    + intros e e' x He. by rewrite lookup_empty in He.
    + intros a b r na nb [e He]. by destruct (lookup_empty_Some _ _ He).
    + eexists. split; [apply lookup_singleton_eq|done].
    + by intros idx n [<- <-]%lookup_singleton_Some.
    + intros j [x Hx]. by rewrite lookup_empty in Hx.
    + by intros idx n [<- <-]%lookup_singleton_Some.
  - constructor; cbn; try done.
    + intros j. unfold replay, status_of, get_component. cbn. destruct (decide (j = i)) as [->|Hne].
      * by rewrite !lookup_singleton_eq.
      * by rewrite lookup_singleton_ne by done.
Qed.

(** The graph of an instance after operations, each at its time *)
Definition run_ops (ops : list (Z * GraphOp)) (g : Graph) : Graph := fold_left (fun g op => run_op op.1 op.2 g) ops g.

Lemma run_ops_sound ops i : Forall (fun op => admissible op.2) ops -> sound (run_ops ops (new_graph i)).
Proof.
  intros Hops. unfold run_ops. generalize (new_graph_sound i). generalize (new_graph (R:=R) i).
  induction Hops as [|[now op] ops Hop _ IH]; intros g Hg; cbn; [done|]. by apply IH, run_op_sound.
Qed.

(** [C25] However components are registered, added, removed, related, started and
    stopped, the graph stays well formed: the index names every node once, every
    relationship has its reverse, once, between kinds it is valid for, removed
    components leave no edges and no runtime behind, and there is one instance. *)
Theorem graph_stays_well_formed ops i :
  Forall (fun op => admissible op.2) ops -> graph_ok (run_ops ops (new_graph i)).
Proof. intros Hops. by apply run_ops_sound. Qed.

(** [C26] The events sent so far tell the state of every component: replayed from
    nothing, each is valid where it comes (an addition, a transition of the life
    cycle, a removal), and the last status is the one in the graph. *)
Theorem events_tell_statuses ops i j :
  Forall (fun op => admissible op.2) ops ->
  let g := run_ops ops (new_graph i) in replay j (sent g) = Some (status_of j g).
Proof. intros Hops. by apply run_ops_sound. Qed.

(** The history of a component holds the last hundred of the events sent
    about it since it was last added, oldest first. *)
Theorem history_holds_recent ops i j :
  Forall (fun op => admissible op.2) ops ->
  let g := run_ops ops (new_graph i) in
  get_events j g = last_n DEFAULT_MAX_EVENTS_PER_COMPONENT (recent j (sent g)) /\
  (length (get_events j g) <= DEFAULT_MAX_EVENTS_PER_COMPONENT)%nat.
Proof.
  intros Hops g. assert (He : get_events j g = last_n DEFAULT_MAX_EVENTS_PER_COMPONENT (recent j (sent g))) by by apply run_ops_sound.
  split; [done|]. rewrite He. unfold last_n. rewrite length_drop. lia.
Qed.
End theorems.
