(* ===== verification/ComponentGraphOrder.v ===== *)
(** * The order in which components are started and stopped

    The feeds of a well-formed graph cannot form a cycle, since they go from
    sources to queries and from queries to reactions; so there always is an
    order, and it puts every component before those it feeds. *)

From S2P Require Import Prelude ComponentGraph ComponentGraphFacts.

(** ** Lists *)

Lemma before_omap {A B} (f : A -> option B) a b x y l :
  before a b l -> f a = Some x -> f b = Some y -> before x y (omap f l).
Proof.
  intros (l1 & l2 & l3 & ->) Ha Hb. exists (omap f l1), (omap f l2), (omap f l3).
  rewrite omap_app. cbn. rewrite Ha, omap_app. cbn. by rewrite Hb.
Qed.

Lemma filter_omap {A} (p : A -> bool) l : List.filter p l = omap (fun a => if p a then Some a else None) l.
Proof. induction l as [|a l IH]; cbn; [done|]. rewrite IH. by destruct (p a). Qed.

Lemma before_rev {A} (a b : A) l : before a b l -> before b a (rev l).
Proof.
  intros (l1 & l2 & l3 & ->). exists (rev l3), (rev l2), (rev l1).
  by rewrite rev_app_distr; cbn; rewrite rev_app_distr; cbn; rewrite <- !app_assoc.
Qed.

Lemma before_map {A B} (f : A -> B) a b l : before a b l -> before (f a) (f b) (map f l).
Proof. intros (l1 & l2 & l3 & ->). exists (map f l1), (map f l2), (map f l3). by rewrite map_app; cbn; rewrite map_app. Qed.

Lemma omap_perm {A B} (f : A -> option B) l l' : l ≡ₚ l' -> omap f l ≡ₚ omap f l'.
Proof.
  induction 1 as [|a l l' _ IH|a b l|l1 l2 l3 _ IH1 _ IH2]; cbn; [done| | |by etrans].
  - destruct (f a); [by constructor|done].
  - destruct (f a), (f b); try done. apply perm_swap.
Qed.

Lemma NoDup_omap_inj {A B} (f : A -> option B) l :
  (forall a a' b, f a = Some b -> f a' = Some b -> a = a') -> NoDup l -> NoDup (omap f l).
Proof.
  intros Hf. induction 1 as [|a l Ha Hl IH]; cbn; [constructor|]. destruct (f a) as [b|] eqn:Hb; [|done].
  constructor; [|done]. rewrite list_elem_of_omap. intros (a' & Hin & Ha'). by rewrite (Hf _ _ _ Hb Ha') in Ha.
Qed.

Section order.
Context {G : StableGraphOps} {R : Type}.
Notation Graph := (ComponentGraph R).
Implicit Types g : Graph.

(** ** The new indices *)

Record numbering (ks : list nat) (ns : gset nat) (m : gmap nat nat) : Prop := {
  nb_dom : forall a, a ∈ ks <-> is_Some (m !! a);
  nb_inj : forall a a' k, m !! a = Some k -> m !! a' = Some k -> a = a';
  nb_range : forall k, k ∈ ns <-> exists a, m !! a = Some k;
}.

Lemma order_nodes_numbering g :
  numbering (map fst (indices (nodes g))) (order_nodes g).1 (order_nodes g).2.
Proof.
  unfold order_nodes. assert (Hnd : NoDup (map fst (indices (nodes g)))).
  { rewrite (indices_perm (nodes g)). apply NoDup_fst_map_to_list. }
  assert (H0 : numbering [] ∅ ∅).
  { constructor; [|done|].
    - intros a. rewrite lookup_empty. split; [by intros ?%elem_of_nil|by intros [? ?]].
    - intros k. split; [set_solver|]. intros [a Ha]. by rewrite lookup_empty in Ha. }
  change (map fst (indices (nodes g))) with ([] ++ map fst (indices (nodes g))) in Hnd |- *.
  revert H0 Hnd. generalize (@nil nat). generalize (∅ : gset nat). generalize (∅ : gmap nat nat).
  induction (indices (nodes g)) as [|[a n] l IH]; intros m ns ks Hnb Hnd; cbn [fold_left map]; [by rewrite app_nil_r|].
  cbn [map fst] in Hnd |- *. assert (Hks : ks ++ a :: map fst l = (ks ++ [a]) ++ map fst l) by by rewrite <- app_assoc.
  rewrite Hks in Hnd |- *. apply IH; [|done].
  pose proof (free_index_fresh ns) as Hf. cbn [fst]. set (k := free_index ns) in *.
  assert (Ha : m !! a = None).
  { apply eq_None_not_Some. intros Hs. apply (nb_dom _ _ _ Hnb) in Hs.
    apply NoDup_app in Hnd as (Hnd & _). apply NoDup_app in Hnd as (_ & Hnd & _). by apply (Hnd a Hs), list_elem_of_singleton. }
  assert (Hk : forall b, m !! b <> Some k) by (intros b Hb; apply Hf, (nb_range _ _ _ Hnb); by exists b).
  destruct Hnb as [h1 h2 h3]. constructor.
  - intros b. rewrite elem_of_app, list_elem_of_singleton, lookup_insert_is_Some, h1. destruct (decide (a = b)); naive_solver.
  - intros b b' x. rewrite !lookup_insert_Some. intros [[<- <-]|[? Hb]] [[<- Hx]|[? Hb']]; [done| | |by eapply h2].
    + by destruct (Hk b').
    + subst x. by destruct (Hk b).
  - intros x. rewrite elem_of_union, elem_of_singleton, h3. split.
    + intros [->|[b Hb]]; [exists a; apply lookup_insert_eq|]. exists b. rewrite lookup_insert_ne; [done|]. intros <-. congruence.
    + intros [b Hb]. apply lookup_insert_Some in Hb as [[<- <-]|[_ Hb]]; [by left|]. right. by exists b.
Qed.

Lemma reverse_map_spec (m : gmap nat nat) k a :
  (forall a a' k, m !! a = Some k -> m !! a' = Some k -> a = a') ->
  (list_to_map (map (fun e => (e.2, e.1)) (map_to_list m)) : gmap nat nat) !! k = Some a <-> m !! a = Some k.
Proof.
  intros Hinj. rewrite <- elem_of_list_to_map.
  - rewrite list_elem_of_fmap. split.
    + intros ([a' k'] & [= -> ->] & Hin). by apply elem_of_map_to_list in Hin.
    + intros Ha. exists (a, k). split; [done|]. by apply elem_of_map_to_list.
  - rewrite <- list_fmap_compose. apply NoDup_fmap_2_strong; [|apply NoDup_map_to_list].
    intros [a1 k1] [a2 k2] H1%elem_of_map_to_list H2%elem_of_map_to_list. cbn. intros <-. f_equal. by eapply Hinj.
Qed.

Lemma elem_order_edges g m x y :
  (x, y) ∈ order_edges m g <-> exists a b, linked g a b Feeds /\ m !! a = Some x /\ m !! b = Some y.
Proof.
  unfold order_edges. rewrite list_elem_of_omap. split.
  - intros ([e [[a b] r]] & Hin & Hx). cbn in Hx. destruct r; try done.
    destruct (m !! a) as [ka|] eqn:Ha; [|done]. destruct (m !! b) as [kb|] eqn:Hb; [|done]. injection Hx as -> ->.
    rewrite (indices_perm (edges g)) in Hin. apply elem_of_map_to_list in Hin. exists a, b. split; [by exists e|done].
  - intros (a & b & [e He] & Ha & Hb). exists (e, (a, b, Feeds)). cbn. rewrite Ha, Hb. split; [|done].
    rewrite (indices_perm (edges g)). by apply elem_of_map_to_list.
Qed.

(** ** The order *)

Definition kind_rank (k : ComponentKind) : nat := match k with Query => 1 | Reaction => 2 | _ => 0 end.

Lemma feeds_kinds g a b na nb :
  graph_ok g -> linked g a b Feeds -> nodes g !! a = Some na -> nodes g !! b = Some nb ->
  (kind_rank (kind na) < kind_rank (kind nb))%nat /\ kind na <> Instance_ /\ kind nb <> Instance_.
Proof.
  intros Hg Hl Ha Hb. pose proof (gk_kinds g Hg _ _ _ _ _ Hl Ha Hb) as Hk. unfold kinds_fit in Hk.
  destruct (kind na), (kind nb); try done; (split; [cbn; lia|done]).
Qed.

(** The components: every node but the instance *)
Definition components g : list ComponentNode :=
  map snd (List.filter (fun n => negb (bool_decide (n.1 = instance_idx g))) (map_to_list (nodes g))).

Lemma omap_lookup_keys (m : gmap nat ComponentNode) (p : nat -> bool) (l : list (nat * ComponentNode)) :
  (forall x, x ∈ l -> m !! x.1 = Some x.2) ->
  omap (fun i => m !! i) (List.filter p (map fst l)) = map snd (List.filter (fun x => p x.1) l).
Proof.
  induction l as [|x l IH]; intros Hl; cbn; [done|]. destruct (p x.1); cbn; rewrite IH by (intros; apply Hl; by right); [|done].
  by rewrite Hl by by left.
Qed.

Lemma topological_order_spec g :
  graph_ok g ->
  exists l, topological_order g = Ok l /\ l ≡ₚ components g /\
    forall a b na nb, linked g a b Feeds -> nodes g !! a = Some na -> nodes g !! b = Some nb -> before na nb l.
Proof.
  intros Hg. unfold topological_order. pose proof (order_nodes_numbering g) as [Hdom Hinj Hrange].
  destruct (order_nodes g) as [ns m]. cbn [fst snd] in *.
  set (rm := list_to_map _ : gmap nat nat).
  assert (Hrm : forall k a, rm !! k = Some a <-> m !! a = Some k) by (intros; by apply reverse_map_spec).
  assert (Hnodes : forall a, is_Some (m !! a) <-> is_Some (nodes g !! a)).
  { intros a. rewrite <- Hdom, (indices_perm (nodes g)), list_elem_of_fmap. split.
    - intros ([a' n] & -> & Hin). apply elem_of_map_to_list in Hin. cbn. by rewrite Hin.
    - intros [n Hn]. exists (a, n). split; [done|]. by apply elem_of_map_to_list. }
  set (rank k := match rm !! k with
                 | Some a => match nodes g !! a with Some n => kind_rank (kind n) | None => 0%nat end
                 | None => 0%nat end).
  destruct (toposort_complete ns (order_edges m g) rank) as [sorted Hs].
  { intros x y (a & b & Hl & Ha & Hb)%elem_order_edges. unfold rank.
    apply Hrm in Ha as Hax. apply Hrm in Hb as Hby. rewrite Hax, Hby.
    destruct (gk_ends g Hg _ _ _ Hl) as [[na Hna] [nb Hnb]]. rewrite Hna, Hnb. by apply (feeds_kinds g a b). }
  rewrite Hs. destruct (toposort_sound _ _ _ Hs) as [Hperm Hbefore]. eexists. split; [reflexivity|].
  assert (Hback : omap (fun k => rm !! k) sorted ≡ₚ map fst (map_to_list (nodes g))).
  { rewrite (omap_perm _ _ _ Hperm). apply NoDup_Permutation; [|apply NoDup_fst_map_to_list|].
    - apply NoDup_omap_inj; [|apply NoDup_elements]. intros x y z H1%Hrm H2%Hrm. congruence.
    - intros a. rewrite list_elem_of_omap, list_elem_of_fmap. split.
      + intros (k & _ & Hk%Hrm). destruct (proj1 (Hnodes a)) as [n Hn]; [by rewrite Hk|].
        exists (a, n). split; [done|]. by apply elem_of_map_to_list.
      + intros ([a' n] & -> & Hin%elem_of_map_to_list). cbn [fst]. destruct (proj2 (Hnodes a')) as [k Hk]; [by rewrite Hin|].
        exists k. split; [|by apply Hrm]. apply elem_of_elements, Hrange. by exists a'. }
  split.
  - unfold components. rewrite filter_omap.
    rewrite (omap_perm _ _ _ (omap_perm _ _ _ Hback)), <- filter_omap.
    rewrite (omap_lookup_keys (nodes g) (fun i => negb (bool_decide (i = instance_idx g)))); [done|].
    intros [i n] Hin. by apply elem_of_map_to_list in Hin.
  - intros a b na nb Hl Ha Hb. destruct (feeds_kinds g a b na nb Hg Hl Ha Hb) as (_ & Hka & Hkb).
    destruct (proj2 (Hnodes a)) as [x Hx]; [by rewrite Ha|]. destruct (proj2 (Hnodes b)) as [y Hy]; [by rewrite Hb|].
    assert (Hroot : forall c n, nodes g !! c = Some n -> kind n <> Instance_ -> negb (bool_decide (c = instance_idx g)) = true).
    { intros c n Hc Hkc. apply negb_true_iff, bool_decide_eq_false. intros ->. destruct (gk_root g Hg) as (r & Hr & Hkr). congruence. }
    rewrite filter_omap. apply (before_omap _ a b); [|done|done]. apply (before_omap _ a b).
    + apply (before_omap _ x y); [|by apply Hrm|by apply Hrm]. apply Hbefore.
      * apply elem_order_edges. by exists a, b.
      * apply Hrange. by exists a.
      * apply Hrange. by exists b.
    + by rewrite (Hroot a na).
    + by rewrite (Hroot b nb).
Qed.
End order.
