(* ===== verification/Lifecycle.v ===== *)
(** * Starting, stopping, reconfiguring and removing components
      (lib/src/managers/lifecycle_helpers.rs, lib/src/lifecycle.rs)

    A command claims its component by a transition of the graph, calls the
    runtime and brings the status back when that fails. While it awaits a call
    the lock of the graph is free: the [turns] of the world say, for each await
    in turn, what others do to the graph, what the runtime answers and which
    status it reports. *)

From S2P Require Import Prelude ComponentGraph ComponentGraphFacts ComponentGraphOrder.

Inductive RuntimeKind := SourceRuntime | QueryRuntime | ReactionRuntime.

Inductive RuntimeCall :=
| CallStart (id : string)
| CallStop (id : string)
| CallStatus (id : string)
| CallDeprovision (id : string)
| CallPreStop (id : string)
| CallInit (id : string)
| CallRestart (id : string)
| CallWait (id : string).

Inductive LifecycleError :=
| ComponentNotFound (component_type id : string)
| OnGraph (e : GraphError)
| CallFailed (message : string)
| SourceNotStopped (id : string) (status : ComponentStatus)
| CannotDelete (component_type id : string) (status : ComponentStatus)
| StopTimedOut (component_type id : string) (e : WaitError)
| SomeFailed (failures : list (string * LifecycleError)).

Section lifecycle.
Context {G : StableGraphOps} {R : Type}.
Notation Graph := (ComponentGraph R).

Record Turn := {
  others : list (list (Z * GraphOp (R:=R)));
  call_error : option string;
  reported : ComponentStatus;
  time : Z;
}.

Record World := {
  graph : Graph;
  now : Z;
  turns : list Turn;
  calls : list RuntimeCall;
  updates : list ComponentUpdate;
}.

Notation W := (SM World LifecycleError).

Definition with_lock {A} (m : Z -> SM Graph GraphError A) : W A := fun w =>
  let '(r, g) := m (now w) (graph w) in
  (map_err OnGraph r,
   {| graph := g; now := now w; turns := turns w; calls := calls w; updates := updates w |}).
(** [let _ = g.validate_and_transition(..)] *)
Definition ignoring {A} (m : Z -> SM Graph GraphError A) : W unit := fun w =>
  let '(_, w) := with_lock m w in (Ok tt, w).
Definition reading {A} (f : Graph -> A) : W A := fun w => (Ok (f (graph w)), w).

(** The next turn; without one nothing happens and the call succeeds. *)
Definition next_turn (w : World) : Turn * list Turn :=
  match turns w with
  | t :: rest => (t, rest)
  | [] => ({| others := []; call_error := None; reported := Stopped; time := now w |}, [])
  end.

Definition await (c : RuntimeCall) : W Turn := fun w =>
  let '(t, rest) := next_turn w in
  (Ok t, {| graph := run_ops (concat (others t)) (graph w); now := time t; turns := rest; calls := calls w ++ [c];
            updates := updates w |}).

Definition await_call (c : RuntimeCall) : W Turn :=
  t ← await c;
  match call_error t with Some e => sm_err (CallFailed e) | None => mret t end.

(** [wait_for_status]: a look before each of the batches of the turn; when they
    are used up the time is over. *)
Fixpoint wait_looks (i : string) (targets : list ComponentStatus) (batches : list (list (Z * GraphOp (R:=R)))) (g : Graph) :
    outcome WaitError ComponentStatus * Graph :=
  match get_component i g with
  | Some node =>
      if decide (status node ∈ targets) then (Ok (status node), g)
      else match batches with
           | [] => (Err (TimedOut i), g)
           | b :: batches => wait_looks i targets batches (run_ops b g)
           end
  | None => (Err (WaitNotFound i), g)
  end.

Definition wait_status (i : string) (targets : list ComponentStatus) : W (outcome WaitError ComponentStatus) := fun w =>
  let '(t, rest) := next_turn w in
  let '(r, g) := wait_looks i targets (others t) (graph w) in
  (Ok r, {| graph := g; now := time t; turns := rest; calls := calls w ++ [CallWait i]; updates := updates w |}).

Definition send_update (u : ComponentUpdate) : W unit := fun w =>
  (Ok tt, {| graph := graph w; now := now w; turns := turns w; calls := calls w; updates := updates w ++ [u] |}).

(** ** Runtimes *)

Definition runtime_start (i : string) : W unit := _ ← await_call (CallStart i); mret tt.

(** A source that returns from its stop has to report that it stopped. *)
Definition runtime_stop (rk : RuntimeKind) (i : string) : W unit :=
  _ ← await_call (CallStop i);
  match rk with
  | SourceRuntime =>
      t ← await (CallStatus i);
      if decide (reported t = Stopped) then mret tt else sm_err (SourceNotStopped i (reported t))
  | _ => mret tt
  end.

Definition runtime_deprovision (rk : RuntimeKind) (i : string) : W unit :=
  match rk with QueryRuntime => mret tt | _ => _ ← await_call (CallDeprovision i); mret tt end.

(** [m.await] whose error the caller handles *)
Definition attempt {A} (m : W A) : W (outcome LifecycleError A) := fun w =>
  match m w with (Panic, w) => (Panic, w) | (r, w) => (Ok r, w) end.

Definition error_message (e : LifecycleError) : string := match e with CallFailed m => m | _ => "error" end.

(** ** Status and lists *)

Definition get_component_status (component_type i : string) : W ComponentStatus :=
  n ← reading (get_component i);
  match (n : option ComponentNode) with Some n => mret (status n) | None => sm_err (ComponentNotFound component_type i) end.

(** ** Start and stop *)

Definition start_component (i component_type : string) : W unit :=
  _ ← with_lock (fun now => validate_and_transition now i Starting (Some ("Starting " ++ component_type)%string));
  r ← attempt (runtime_start i);
  match r with
  | Err e =>
      _ ← ignoring (fun now => validate_and_transition now i Error (Some ("Start failed: " ++ error_message e)%string));
      sm_err e
  | _ => mret tt
  end.

(** The runtime of a source, by the type of what is stored *)
Context (source_runtime : R -> option R).

Definition stop_runtime (rk : RuntimeKind) (i : string) : W unit :=
  source ← reading (get_runtime source_runtime i);
  match (source : option R) with
  | Some _ =>
      t ← await (CallStatus i);
      if decide (reported t = Stopped)
      then send_update (StatusUpdate i Stopped (Some "Source already stopped"))
      else runtime_stop rk i
  | None => runtime_stop rk i
  end.

Definition stop_component (rk : RuntimeKind) (i component_type : string) : W unit :=
  _ ← with_lock (fun now => validate_and_transition now i Stopping (Some ("Stopping " ++ component_type)%string));
  r ← attempt (stop_runtime rk i);
  match r with
  | Err e =>
      _ ← ignoring (fun now => validate_and_transition now i Error (Some ("Stop failed: " ++ error_message e)%string));
      sm_err e
  | _ => mret tt
  end.

(** ** Teardown *)

Definition teardown_component (rk : RuntimeKind) (downcast : R -> option R) (i component_type : string) (cleanup : bool) :
    W unit :=
  runtime ← reading (get_runtime downcast i);
  match (runtime : option R) with
  | None => sm_err (ComponentNotFound component_type i)
  | Some _ =>
      node ← reading (get_component i);
      match (node : option ComponentNode) with
      | None => sm_err (ComponentNotFound component_type i)
      | Some node =>
          if decide (status node = Stopping \/ status node = Reconfiguring)
          then sm_err (CannotDelete component_type i (status node))
          else
            needs_stop ←
              if is_valid_transition (kind node) (status node) Stopping then
                _ ← with_lock (fun now => validate_and_transition now i Stopping (Some "Stopping for teardown"%string));
                mret true
              else mret false;
            _ ← (if (needs_stop : bool) then
                   _ ← await (CallPreStop i);
                   r ← attempt (stop_runtime rk i);
                   _ ← match r with
                       | Err e => ignoring (fun now => validate_and_transition now i Error
                                    (Some ("Stop failed during teardown: " ++ error_message e)%string))
                       | _ => mret tt
                       end;
                   _ ← wait_status i [Stopped; Error];
                   mret tt
                 else mret tt);
            _ ← (if cleanup then _ ← attempt (runtime_deprovision rk i); mret tt else mret tt);
            with_lock (fun _ g => let '(_, g) := take_runtime downcast i g in (Ok tt, g))
      end
  end.

(** ** Reconfiguration *)

Definition reconfigure_component (rk : RuntimeKind) (i component_type : string) (restart : W unit) : W unit :=
  node ← reading (get_component i);
  match (node : option ComponentNode) with
  | None => sm_err (ComponentNotFound component_type i)
  | Some node =>
      let was_running := bool_decide (status node = Running \/ status node = Starting) in
      let needs_stop := is_valid_transition (kind node) (status node) Stopping in
      _ ← with_lock (fun now =>
            validate_and_transition now i Reconfiguring (Some ("Reconfiguring " ++ component_type)%string));
      stopped ← (if needs_stop then
                   _ ← await (CallPreStop i);
                   attempt (_ ← stop_runtime rk i;
                            r ← wait_status i [Stopped; Error];
                            match (r : outcome WaitError ComponentStatus) with
                            | Err e => sm_err (StopTimedOut component_type i e)
                            | _ => mret tt
                            end)
                 else mret (Ok tt));
      match (stopped : outcome LifecycleError unit) with
      | Err e =>
          _ ← ignoring (fun now => validate_and_transition now i Error
                (Some ("Reconfiguration failed during stop: " ++ error_message e)%string));
          sm_err e
      | _ =>
          initialized ← attempt (await_call (CallInit i));
          match initialized with
          | Err e =>
              _ ← ignoring (fun now => validate_and_transition now i Error
                    (Some ("Reconfiguration failed: " ++ error_message e)%string));
              sm_err e
          | _ =>
              if was_running then restart
              else
                _ ← with_lock (fun now => validate_and_transition now i Stopped (Some "Reconfiguration complete"%string));
                mret tt
          end
      end
  end.

(** ** All components of a kind *)

(** Each is attempted; the failures are collected. *)
Fixpoint attempt_each {A} (f : A -> W unit) (name : A -> string) (l : list A) : W (list (string * LifecycleError)) :=
  match l with
  | [] => mret []
  | a :: l =>
      r ← attempt (f a);
      failures ← attempt_each f name l;
      mret match r with Err e => (name a, e) :: failures | _ => failures end
  end.

Definition failing_any (failures : list (string * LifecycleError)) : W unit :=
  match failures with [] => mret tt | _ => sm_err (SomeFailed failures) end.

Definition start_all_components (k : ComponentKind) (downcast : R -> option R) (auto_start : R -> bool)
    (start_fn : string -> R -> W unit) : W unit :=
  entries ← reading (fun g => omap (fun e => (fun r => (e.1, r)) <$> get_runtime downcast e.1 g) (list_by_kind k g));
  failures ← attempt_each (fun e => if auto_start e.2 then start_fn e.1 e.2 else mret tt) fst entries;
  failing_any failures.

Definition is_active (i : string) (g : Graph) : bool :=
  match get_component i g with Some n => is_valid_transition (kind n) (status n) Stopping | None => false end.

Definition stop_all_components (k : ComponentKind) (stop_fn : string -> W unit) : W unit :=
  ids ← reading (fun g => map fst (list_by_kind k g));
  _ ← attempt_each (fun i => active ← reading (is_active i); if (active : bool) then stop_fn i else mret tt) (fun i => i) ids;
  mret tt.

(** ** The lifecycle manager *)

(** Reverse dependency order; by kind if there is none *)
Definition shutdown_order (g : Graph) : list (string * ComponentKind) :=
  match topological_order g with
  | Ok order => map (fun n => (id n, kind n)) (rev order)
  | _ => map (fun e => (e.1, Reaction)) (list_by_kind Reaction g) ++ map (fun e => (e.1, Query)) (list_by_kind Query g) ++
         map (fun e => (e.1, Source)) (list_by_kind Source g)
  end.

(** Whether a component is asked to stop, by its status when its turn comes *)
Definition asked_to_stop (permanent : bool) (k : ComponentKind) (live : ComponentStatus) : bool :=
  match k with
  | Reaction | Query | Source =>
      (permanent && bool_decide (k = Reaction) && bool_decide (live = Error)) || is_valid_transition k live Stopping
  | _ => false
  end.

Definition stop_components (stop : ComponentKind -> bool -> string -> W unit) (permanent : bool) : W unit :=
  order ← reading shutdown_order;
  failures ← attempt_each (fun e =>
    n ← reading (get_component e.1);
    match (n : option ComponentNode) with
    | Some n => if asked_to_stop permanent e.2 (status n) then stop e.2 permanent e.1 else mret tt
    | None => mret tt
    end) fst order;
  failing_any failures.

(** Sources, then queries, whose failures are only logged, then reactions *)
Definition start_components (start_all : ComponentKind -> W unit) (subscriptions_complete : W unit) : W unit :=
  _ ← start_all Source;
  _ ← attempt (start_all Query);
  _ ← subscriptions_complete;
  start_all Reaction.

(** A query of the configuration: registered, provisioned, and deregistered
    again when that fails *)
Definition load_query (provision : string -> W unit) (q : string * gmap string string * list string) : W unit :=
  let '(i, metadata, source_ids) := q in
  _ ← with_lock (fun now => register_query now i metadata source_ids);
  r ← attempt (provision i);
  match r with
  | Err e => _ ← ignoring (fun now => deregister now i); sm_err e
  | _ => mret tt
  end.

Definition load_configuration (provision : string -> W unit) (queries : list (string * gmap string string * list string)) :
    W unit :=
  sm_foldl (fun _ q => load_query provision q) tt queries.
End lifecycle.

(** * Failed commands do not stick

    Whatever others do meanwhile, a command that failed does not leave its
    component in the status it claimed it with; and components are asked to
    stop only after all that they feed. *)

Section facts.
Context {G : StableGraphOps} {R : Type}.
Notation Graph := (ComponentGraph R).
Notation W := (SM (World (R:=R)) LifecycleError).
Implicit Types g : Graph.

(** ** Statuses under operations *)

Definition status_is (i : string) (s : ComponentStatus) g : Prop :=
  exists n, get_component i g = Some n /\ status n = s.

(** The operations that put a component into a status *)
Definition sets (i : string) (s : ComponentStatus) (op : GraphOp (R:=R)) : Prop :=
  match op with
  | OpTransition j s' _ | OpUpdate (StatusUpdate j s' _) => j = i /\ s' = s
  | OpAdd n => id n = i /\ status n = s
  | OpRegister _ j _ => j = i /\ s = Added
  | _ => False
  end.

Lemma same_status i s g g' : get_component i g' = get_component i g -> status_is i s g' -> status_is i s g.
Proof. unfold status_is. by intros ->. Qed.

Lemma get_component_same g g' i : same_components g g' -> get_component i g' = get_component i g.
Proof. intros [Hn Hi]. unfold get_component. by rewrite Hn, Hi. Qed.

Lemma status_updated_component now i s msg idx n g j :
  graph_ok g -> index g !! i = Some idx -> nodes g !! idx = Some n ->
  get_component j (status_updated now i s msg idx n g).2 =
    if decide (j = i) then Some (with_node_status s n) else get_component j g.
Proof.
  intros Hg Hi Hn. destruct (gk_index g Hg _ _ Hi) as (n0 & Hn0 & Hid). unfold get_component, status_updated.
  destruct (event_of _ _ _ _ _); cbn; (case_decide as Hj; [subst j; by rewrite Hi, lookup_insert_eq|]);
    (destruct (index g !! j) as [k|] eqn:Hk; [|done]); (rewrite lookup_insert_ne; [done|]); intros <-;
    destruct (gk_index g Hg _ _ Hk) as (n1 & Hn1 & Hid1); congruence.
Qed.

Lemma update_status_sets now i s msg g j t :
  graph_ok g -> status_is j t (update_status_with_message now i s msg g).2 -> status_is j t g \/ (i = j /\ s = t).
Proof.
  intros Hg. destruct (index g !! i) as [idx|] eqn:Hi; [|rewrite update_status_missing by done; by left].
  destruct (gk_index g Hg _ _ Hi) as (n & Hn & _). rewrite (update_status_runs g now i s msg idx n) by done.
  case_decide; [by left|]. destruct (is_valid_transition _ _ _); [|by left]. cbn [snd]. intros (m & Hm & Ht).
  rewrite status_updated_component in Hm by done. case_decide as Hj; [|left; by exists m].
  injection Hm as <-. right. by subst.
Qed.

Lemma remove_component_sets now i g j t :
  graph_ok g -> status_is j t (remove_component now i g).2 -> status_is j t g.
Proof.
  intros Hg. destruct (index g !! i) as [idx|] eqn:Hi.
  2: { unfold remove_component. by rewrite get_bind, Hi. }
  destruct (gk_index g Hg _ _ Hi) as (n & Hn & Hid). destruct (decide (idx = instance_idx g)) as [Hroot|Hroot].
  { unfold remove_component. by rewrite get_bind, Hi, or_error_some, decide_True. }
  destruct (remove_component_runs g now i idx n Hg Hi Hn Hroot) as (e & _ & ->). cbn [snd].
  intros (m & Hm & Ht). exists m. split; [|done]. unfold get_component in Hm |- *. cbn in Hm.
  destruct (delete i (index g) !! j) as [k|] eqn:Hk; [|done]. apply lookup_delete_Some in Hk as [_ Hk]. rewrite Hk.
  by apply lookup_delete_Some in Hm as [_ Hm].
Qed.

Lemma add_component_sets now n g j t :
  graph_ok g -> kind n <> Instance_ -> status n <> Removed ->
  status_is j t (add_component now n g).2 -> status_is j t g \/ (id n = j /\ status n = t).
Proof.
  intros Hg Hk Hst. destruct (index g !! id n) as [idx|] eqn:Hi.
  - unfold add_component, add_component_internal, contains_component, mbind, SM_bind. rewrite Hi, bool_decide_true by done. by left.
  - destruct (add_component_ok g now n Hg Hk Hst Hi) as (idx & e1 & e2 & g' & Hadd & Hidx & _ & _ & _ & _ & Hg').
    unfold add_component. rewrite (sm_bind_ok _ _ _ _ _ Hadd).
    destruct (event_of_some now (id n) (kind n) (status n) (Some (kind_display (kind n) ++ " added")%string) Hk) as [ty He].
    rewrite He. cbv beta iota. rewrite modify_bind. intros (m & Hm & Ht). subst g'. unfold get_component in Hm. cbn in Hm.
    destruct (decide (id n = j)) as [<-|Hj].
    + rewrite !lookup_insert_eq in Hm. injection Hm as ->. by right.
    + rewrite lookup_insert_ne in Hm by done. destruct (index g !! j) as [k|] eqn:Hkj; [|done].
      rewrite lookup_insert_ne in Hm.
      * left. exists m. unfold get_component. by rewrite Hkj.
      * intros <-. destruct (gk_index g Hg _ _ Hkj) as (? & ? & _). congruence.
Qed.

(** Nothing but an operation that sets it puts a component into a status. *)
Lemma run_op_sets now op g i s :
  graph_ok g -> admissible op -> status_is i s (run_op now op g) -> status_is i s g \/ sets i s op.
Proof.
  intros Hg Hop. destruct op as [reg j md|n|j|j|[j t m]|j t m|a b r|a b r|j rt|j fits]; cbn [run_op sets].
  - pose proof (registration_outcome reg now j md g Hg) as Ho. destruct (register reg now j md g) as [[[]|e|] g']; cbn [snd];
      [|destruct Ho as [-> _]; by left|done].
    destruct Ho as [Hreg _]. intros (n & Hn & Hs). destruct (decide (i = j)) as [->|Hne].
    + rewrite (rg_node _ _ _ _ _ _ Hreg) in Hn. injection Hn as <-. by right.
    + rewrite (rg_others _ _ _ _ _ _ Hreg) in Hn by done. left. by exists n.
  - by apply add_component_sets; [|apply Hop..].
  - intros Hs. left. by eapply remove_component_sets.
  - unfold deregister. rewrite get_bind. destruct (can_remove j g); intros Hs; left; [|done|]; by eapply remove_component_sets.
  - pose proof (update_status_sets now j t m g i s Hg) as Hu. unfold apply_update.
    by destruct (update_status_with_message now j t m g) as [[e|e|] g'].
  - destruct (validate_and_transition_runs g now j t m) as [-> | ->]; [by left|by apply update_status_sets].
  - pose proof (add_relationship_outcome g a b r Hg) as Ho. unfold add_relationship, mbind, SM_bind.
    destruct (add_relationship_internal a b r g) as [o g']. cbn [fst snd] in Ho. apply link_outcome_monotone in Ho as [Hc _].
    intros Hs. left. destruct o; (eapply same_status; [by apply get_component_same|done]).
  - destruct (remove_relationship_fields a b r g) as (_ & _ & Hc). intros Hs. left.
    eapply same_status; [by apply get_component_same|done].
  - unfold set_runtime. intros Hs. left. by destruct (contains_component j g).
  - unfold take_runtime. intros Hs. left. destruct (runtimes g !! j); [|done]. by destruct fits.
Qed.

(** ** Commands *)

Section command.
Context (source_runtime : R -> option R) (i : string) (s : ComponentStatus).

Definition calm_ops (ops : list (Z * GraphOp (R:=R))) : Prop := Forall (fun op => admissible op.2 /\ ~ sets i s op.2) ops.

(** The graph is sound, and what others do never puts the component into [s]. *)
Definition good (w : World (R:=R)) : Prop :=
  sound (graph w) /\ Forall (fun t => Forall calm_ops (others t)) (turns w).
Definition free (w : World (R:=R)) : Prop := ~ status_is i s (graph w).

Definition preserves {A} (m : W A) : Prop :=
  forall w, good w -> good (m w).2 /\ (free w -> free (m w).2).

Lemma unstuck_ret {A} (a : A) : preserves (mret a).
Proof. by intros w Hw. Qed.
Lemma unstuck_err {A} e : preserves (A:=A) (sm_err e).
Proof. by intros w Hw. Qed.
Lemma unstuck_reading {A} (f : Graph -> A) : preserves (reading f).
Proof. by intros w Hw. Qed.

Lemma unstuck_bind {A B} (m : W A) (f : A -> W B) : preserves m -> (forall a, preserves (f a)) -> preserves (m ≫= f).
Proof.
  intros Hm Hf w Hw. unfold mbind, SM_bind. destruct (Hm w Hw) as [Hg Hfree].
  destruct (m w) as [[a|e|] w']; cbn [snd] in *; [|done..]. destruct (Hf a w' Hg) as [Hg' Hfree']. split; [done|]. auto.
Qed.

Lemma reading_bind {A B} (f : Graph -> A) (k : A -> W B) w : (reading f ≫= k) w = k (f (graph w)) w.
Proof. reflexivity. Qed.

Lemma unstuck_attempt {A} (m : W A) : preserves m -> preserves (attempt m).
Proof. intros Hm w Hw. destruct (Hm w Hw) as [Hg Hf]. unfold attempt. by destruct (m w) as [[a|e|] w']. Qed.

Lemma run_ops_calm ops g : calm_ops ops -> sound g ->
  sound (run_ops ops g) /\ (~ status_is i s g -> ~ status_is i s (run_ops ops g)).
Proof.
  intros Hops. revert g. induction Hops as [|[now op] ops [Hadm Hsets] _ IH]; intros g Hg; cbn; [done|].
  destruct (IH (run_op now op g)) as [Hs Hf]; [by apply run_op_sound|]. split; [done|]. intros Hfree. apply Hf.
  intros Hst. by destruct (run_op_sets now op g i s (proj1 Hg) Hadm Hst).
Qed.

Lemma calm_concat batches : Forall calm_ops batches -> calm_ops (concat batches).
Proof. induction 1 as [|b l Hb _ IH]; cbn; [constructor|]. by apply Forall_app. Qed.

Lemma next_turn_calm (w : World (R:=R)) : good w ->
  Forall calm_ops (others (next_turn w).1) /\ Forall (fun t => Forall calm_ops (others t)) (next_turn w).2.
Proof.
  intros [_ Ht]. unfold next_turn. destruct (turns w) as [|t rest]; [done|]. by inversion Ht.
Qed.

Lemma unstuck_await c : preserves (await c).
Proof.
  intros w Hw. unfold await. destruct (next_turn_calm w Hw) as [Hb Hrest]. destruct (next_turn w) as [t rest]. cbn [fst snd] in *.
  destruct (run_ops_calm (concat (others t)) (graph w) (calm_concat _ Hb) (proj1 Hw)) as [Hg Hf]. done.
Qed.

Lemma unstuck_await_call c : preserves (await_call c).
Proof.
  apply unstuck_bind; [apply unstuck_await|]. intros t. destruct (call_error t); [apply unstuck_err|apply unstuck_ret].
Qed.

Lemma wait_looks_calm targets batches g : Forall calm_ops batches -> sound g ->
  let '(r, g') := wait_looks i targets batches g in
  sound g' /\ (~ status_is i s g -> ~ status_is i s g') /\ (s ∉ targets -> forall t, r = Ok t -> ~ status_is i s g').
Proof.
  intros Hb. revert g. induction Hb as [|b batches Hb _ IH]; intros g Hg; cbn.
  - destruct (get_component i g) as [n|] eqn:Hn; [|done]. case_decide as Ht; [|done]. split_and!; [done|done|].
    intros Hs t _ (m & Hm & <-). by simplify_eq.
  - destruct (get_component i g) as [n|] eqn:Hn; [|done]. case_decide as Ht.
    + split_and!; [done|done|]. intros Hs t _ (m & Hm & <-). by simplify_eq.
    + destruct (run_ops_calm b g Hb Hg) as [Hg1 Hf1]. specialize (IH _ Hg1).
      destruct (wait_looks i targets batches (run_ops b g)) as [r g']. destruct IH as (? & ? & ?). split_and!; [done|auto|done].
Qed.

Lemma wait_looks_answers targets batches g : (wait_looks i targets batches g).1 <> Panic.
Proof.
  revert g. induction batches as [|b batches IH]; intros g; cbn; (destruct (get_component i g) as [n|]; [|done]);
    (case_decide; [done|]); [done|apply IH].
Qed.

Lemma unstuck_wait targets : preserves (wait_status i targets).
Proof.
  intros w Hw. unfold wait_status. destruct (next_turn_calm w Hw) as [Hb Hrest]. destruct (next_turn w) as [t rest]. cbn [fst snd] in *.
  pose proof (wait_looks_calm targets (others t) (graph w) Hb (proj1 Hw)) as Hl.
  destruct (wait_looks i targets (others t) (graph w)) as [r g]. destruct Hl as (Hg & Hf & _). done.
Qed.

Lemma unstuck_runtime_stop rk : preserves (runtime_stop rk i).
Proof.
  apply unstuck_bind; [apply unstuck_await_call|]. intros _. destruct rk; [|apply unstuck_ret..].
  apply unstuck_bind; [apply unstuck_await|]. intros t. case_decide; [apply unstuck_ret|apply unstuck_err].
Qed.

Lemma unstuck_stop_runtime rk : preserves (stop_runtime source_runtime rk i).
Proof.
  apply unstuck_bind; [apply unstuck_reading|]. intros [r|]; [|apply unstuck_runtime_stop].
  apply unstuck_bind; [apply unstuck_await|]. intros t. case_decide; [|apply unstuck_runtime_stop]. by intros w Hw.
Qed.

(** A transition to another status keeps the component free, and frees it when
    it is one that leads out of [s]. *)
Lemma transition_sound now t msg g : sound g -> sound (validate_and_transition now i t msg g).2.
Proof. intros Hg. by apply (run_op_sound now (OpTransition i t msg)). Qed.

Lemma transition_free now t msg g : sound g -> t <> s -> ~ status_is i s g ->
  ~ status_is i s (validate_and_transition now i t msg g).2.
Proof.
  intros Hg Ht Hf Hs. by destruct (run_op_sets now (OpTransition i t msg) g i s (proj1 Hg) I Hs) as [?|[_ ?]].
Qed.

Lemma transition_frees now t msg g : sound g -> t <> s -> (forall k, is_valid_transition k s t = true) ->
  ~ status_is i s (validate_and_transition now i t msg g).2.
Proof.
  intros Hg Ht Hv. destruct (get_component i g) as [n|] eqn:Hn.
  2: { apply transition_free; [done|done|]. intros (m & Hm & _). congruence. }
  destruct (decide (status n = s)) as [Hs|Hs].
  2: { apply transition_free; [done|done|]. intros (m & Hm & ?). by simplify_eq. }
  unfold validate_and_transition. rewrite get_bind, Hn, or_error_some, decide_False, Hs, Hv by congruence. cbn [negb].
  unfold get_component in Hn. destruct (index g !! i) as [idx|] eqn:Hi; [|done].
  rewrite (update_status_runs g now i t msg idx n Hi Hn), decide_False, Hs, Hv by congruence. cbn [snd].
  intros (m & Hm & Hms). rewrite status_updated_component in Hm by (done || apply Hg). rewrite decide_True in Hm by done.
  injection Hm as <-. done.
Qed.

Lemma unstuck_lock {A} (m : Z -> SM Graph GraphError A) :
  (forall now g, sound g -> sound (m now g).2 /\ (~ status_is i s g -> ~ status_is i s (m now g).2)) -> preserves (with_lock m).
Proof.
  intros Hm w [Hg Ht]. unfold with_lock. destruct (Hm (now w) (graph w) Hg) as [Hg' Hf].
  by destruct (m (now w) (graph w)) as [r g].
Qed.

Lemma unstuck_ignoring {A} (m : Z -> SM Graph GraphError A) : preserves (with_lock m) -> preserves (ignoring m).
Proof. intros Hm w Hw. unfold ignoring. destruct (Hm w Hw) as [Hg Hf]. by destruct (with_lock m w). Qed.

Lemma ignoring_frees t msg w : good w -> t <> s -> (forall k, is_valid_transition k s t = true) ->
  free (ignoring (fun now => validate_and_transition now i t msg) w).2.
Proof.
  intros [Hg _] Ht Hv. pose proof (transition_frees (now w) t msg (graph w) Hg Ht Hv) as Hf. unfold ignoring, with_lock, free.
  by destruct (validate_and_transition (now w) i t msg (graph w)) as [r g].
Qed.

(** A claim: it is refused and the graph is as before, or it goes on. *)
Lemma claim_cases {A} (m : Z -> SM Graph GraphError A) (f : A -> W unit) w :
  (forall now g, match m now g with (Err _, g') => g' = g | (Panic, _) => False | _ => True end) ->
  ((exists e, (with_lock m ≫= f) w = (Err (OnGraph e), {| graph := graph w; now := now w; turns := turns w; calls := calls w; updates := updates w |})) \/
   exists a, (with_lock m ≫= f) w = f a (with_lock m w).2).
Proof.
  intros Hm. specialize (Hm (now w) (graph w)). unfold mbind, SM_bind, with_lock.
  destruct (m (now w) (graph w)) as [[a|e|] g]; cbn; [right; by exists a|left; exists e; by subst|done].
Qed.
End command.

Lemma update_status_errors now i t msg g :
  match update_status_with_message now i t msg g with (Err _, g') => g' = g | (Panic, _) => False | _ => True end.
Proof.
  unfold update_status_with_message. rewrite get_bind. destruct (index g !! i) as [idx|]; [|done]. rewrite or_error_some.
  destruct (nodes g !! idx) as [n|]; [|done]. rewrite or_error_some. case_decide; [done|].
  destruct (is_valid_transition _ _ _); cbn [negb]; [|done]. rewrite !modify_bind. unfold emit_event.
  by destruct (event_of now i (kind n) t msg).
Qed.

Lemma transition_errors now i t msg g :
  match validate_and_transition now i t msg g with (Err _, g') => g' = g | (Panic, _) => False | _ => True end.
Proof.
  unfold validate_and_transition. rewrite get_bind. destruct (get_component i g) as [n|]; [|done]. rewrite or_error_some.
  case_decide; [done|]. destruct (is_valid_transition _ _ _); cbn [negb]; [|done]. apply update_status_errors.
Qed.

Lemma error_from k s : s = Starting \/ s = Stopping \/ s = Reconfiguring -> is_valid_transition k s Error = true.
Proof. by intros [-> |[-> | ->]]. Qed.

Section theorems.
Context (source_runtime : R -> option R) (i component_type : string).

(** Starting another status than the one watched for *)
Lemma unstuck_transition s t msg : t <> s -> preserves i s (with_lock (fun now => validate_and_transition now i t (msg now))).
Proof.
  intros Hts. apply unstuck_lock. intros now g Hg. split; [by apply transition_sound|]. by apply transition_free.
Qed.

Lemma unstuck_start s : s <> Starting -> s <> Error -> preserves i s (start_component (R:=R) i component_type).
Proof.
  intros H1 H2. apply unstuck_bind; [by apply (unstuck_transition s Starting (fun _ => _))|]. intros _.
  apply unstuck_bind.
  - apply unstuck_attempt, unstuck_bind; [apply unstuck_await_call|intros; apply unstuck_ret].
  - intros [[]|e|]; [apply unstuck_ret| |apply unstuck_ret]. apply unstuck_bind; [|intros; apply unstuck_err].
    by apply unstuck_ignoring, (unstuck_transition s Error (fun _ => _)).
Qed.

Inductive LifecycleCommand :=
| CmdStart
| CmdStop (rk : RuntimeKind)
| CmdReconfigure (rk : RuntimeKind) (restart : W unit).

Definition run_command (c : LifecycleCommand) : W unit :=
  match c with
  | CmdStart => start_component i component_type
  | CmdStop rk => stop_component source_runtime rk i component_type
  | CmdReconfigure rk restart => reconfigure_component source_runtime rk i component_type restart
  end.

Definition claimed (c : LifecycleCommand) : ComponentStatus :=
  match c with CmdStart => Starting | CmdStop _ => Stopping | CmdReconfigure _ _ => Reconfiguring end.

(** The command is over: a start or a stop that succeeded leaves it to the
    component to report. *)
Definition over (c : LifecycleCommand) (r : outcome LifecycleError unit) : Prop :=
  match c with CmdReconfigure _ _ => r <> Panic | _ => exists e, r = Err e end.

(** A call that follows a claim, and fails into [Error] *)
Lemma failing_call s (m : W unit) (msg : LifecycleError -> option string) w :
  s = Starting \/ s = Stopping \/ s = Reconfiguring -> preserves i s m -> good i s w ->
  let '(o, w') := (r ← attempt m;
                   match (r : outcome LifecycleError unit) with
                   | Err e => _ ← ignoring (fun now => validate_and_transition now i Error (msg e)); sm_err e
                   | _ => mret tt
                   end) w in
  forall e, o = Err e -> free i s w'.
Proof.
  intros Hs Hm Hw. destruct (Hm w Hw) as [Hg _].
  unfold mbind at 1, SM_bind at 1, attempt at 1. destruct (m w) as [[[]|e'|] w1]; cbn [snd] in *; [done| |done].
  pose proof (ignoring_frees i s Error (msg e') w1 Hg) as Hf. unfold mbind, SM_bind.
  assert (Hfree : free i s (ignoring (fun now => validate_and_transition now i Error (msg e')) w1).2).
  { apply Hf; [by intros <-; destruct Hs as [?|[?|?]]|]. intros k. by apply error_from. }
  destruct (ignoring _ w1) as [[[]|e''|] w2]; cbn [snd] in Hfree; unfold sm_err; cbv beta iota; intros ? _; exact Hfree.
Qed.

(** What follows the stop of a reconfiguration *)
Definition after_stop (was_running : bool) (restart : W unit) : W unit :=
  initialized ← attempt (await_call (CallInit i));
  match (initialized : outcome LifecycleError Turn) with
  | Err e =>
      _ ← ignoring (fun now => validate_and_transition now i Error
            (Some ("Reconfiguration failed: " ++ error_message e)%string));
      sm_err e
  | _ =>
      if was_running then restart
      else
        _ ← with_lock (fun now => validate_and_transition now i Stopped (Some "Reconfiguration complete"%string));
        mret tt
  end.

Lemma after_stop_free was_running restart w :
  preserves i Reconfiguring restart -> good i Reconfiguring w -> (was_running = true -> free i Reconfiguring w) ->
  free i Reconfiguring (after_stop was_running restart w).2.
Proof.
  intros Hrestart Hw Hrun. unfold after_stop.
  destruct (unstuck_await_call i Reconfiguring (CallInit i) w Hw) as [Hg Hf].
  unfold mbind at 1, SM_bind at 1, attempt at 1.
  destruct (await_call (CallInit i) w) as [[t|e|] w1] eqn:Hcall; cbn [snd] in *.
  - destruct was_running.
    + apply (Hrestart w1 Hg). auto.
    + pose proof (transition_frees i Reconfiguring (now w1) Stopped (Some "Reconfiguration complete"%string) (graph w1) (proj1 Hg)) as Hfr.
      unfold mbind, SM_bind, with_lock. destruct (validate_and_transition _ _ _ _ _) as [[a|e|] g]; cbn [snd map_err] in *; by apply Hfr.
  - pose proof (ignoring_frees i Reconfiguring Error (Some ("Reconfiguration failed: " ++ error_message e)%string) w1 Hg) as Hfr.
    unfold mbind, SM_bind. destruct (ignoring _ w1) as [[[]|e''|] w2]; cbn [snd] in Hfr |- *; by apply Hfr.
  - exfalso. unfold await_call, mbind, SM_bind, await in Hcall. destruct (next_turn w) as [t rest].
    by destruct (call_error t).
Qed.

Lemma running_stops k st : st = Running \/ st = Starting -> is_valid_transition k st Stopping = true.
Proof. by intros [-> | ->]. Qed.

Lemma claim_world s t msg w :
  t = s -> good i s w -> good i s (with_lock (fun now => validate_and_transition now i t (msg now)) w).2.
Proof.
  intros _ [Hg Ht]. unfold with_lock. pose proof (transition_sound i (now w) t (msg (now w)) (graph w) Hg) as Hs.
  by destruct (validate_and_transition _ _ _ _ _) as [r g].
Qed.

Definition stop_first (rk : RuntimeKind) : W (outcome LifecycleError unit) :=
  _ ← await (CallPreStop i);
  attempt (_ ← stop_runtime source_runtime rk i;
           r ← wait_status i [Stopped; Error];
           match (r : outcome WaitError ComponentStatus) with
           | Err e => sm_err (StopTimedOut component_type i e)
           | _ => mret tt
           end).

Lemma stop_first_frees rk w :
  good i Reconfiguring w ->
  let '(o, w') := stop_first rk w in
  good i Reconfiguring w' /\
  match o with Ok (Ok _) => free i Reconfiguring w' | Ok (Err _) | Panic => True | _ => False end.
Proof.
  intros Hw. unfold stop_first. destruct (unstuck_await i Reconfiguring (CallPreStop i) w Hw) as [Hg _].
  unfold mbind at 1, SM_bind at 1. destruct (await (CallPreStop i) w) as [[t|e|] w1] eqn:Haw; cbn [snd] in Hg; [| |by split].
  2: { unfold await in Haw. by destruct (next_turn w). }
  unfold attempt. destruct (unstuck_stop_runtime source_runtime i Reconfiguring rk w1 Hg) as [Hg2 _].
  unfold mbind at 1, SM_bind at 1. destruct (stop_runtime source_runtime rk i w1) as [[[]|e|] w2]; cbn [snd] in Hg2; [|by split..].
  unfold wait_status, mbind, SM_bind. destruct (next_turn_calm i Reconfiguring w2 Hg2) as [Hb Hrest].
  destruct (next_turn w2) as [t2 rest]. cbn [fst snd] in Hb, Hrest.
  pose proof (wait_looks_calm i Reconfiguring [Stopped; Error] (others t2) (graph w2) Hb (proj1 Hg2)) as Hl.
  pose proof (wait_looks_answers i [Stopped; Error] (others t2) (graph w2)) as Hans.
  destruct (wait_looks i [Stopped; Error] (others t2) (graph w2)) as [r g]. destruct Hl as (Hs & _ & Hfree).
  destruct r as [st|e|]; cbn; [|by split|done]. split; [done|]. by apply (Hfree ltac:(set_solver) st).
Qed.

Lemma command_after_claim (c : LifecycleCommand) w :
  match c with CmdReconfigure _ restart => preserves i Reconfiguring restart | _ => True end ->
  good i (claimed c) w ->
  let '(r, w') := run_command c w in over c r -> graph w' = graph w \/ free i (claimed c) w'.
Proof.
  intros Hc Hw. destruct c as [|rk|rk restart]; cbn [run_command claimed over] in *.
  - unfold start_component.
    match goal with |- context [(with_lock ?m ≫= ?f) w] =>
      destruct (claim_cases m f w) as [[e ->]|[a ->]] end; [intros now g; apply transition_errors|by left|].
    pose proof (claim_world Starting Starting (fun _ => Some ("Starting " ++ component_type)%string) w eq_refl Hw) as Hw1.
    pose proof (failing_call Starting (runtime_start i) (fun e => Some ("Start failed: " ++ error_message e)%string) _
      (or_introl eq_refl) (unstuck_bind _ _ _ _ (unstuck_await_call _ _ _) (fun _ => unstuck_ret _ _ _)) Hw1) as Hf.
    lazymatch type of Hf with match ?X with _ => _ end => change X with X in Hf; destruct X as [o w'] end.
    intros [e ->]. right. by apply (Hf e).
  - unfold stop_component.
    match goal with |- context [(with_lock ?m ≫= ?f) w] =>
      destruct (claim_cases m f w) as [[e ->]|[a ->]] end; [intros now g; apply transition_errors|by left|].
    pose proof (claim_world Stopping Stopping (fun _ => Some ("Stopping " ++ component_type)%string) w eq_refl Hw) as Hw1.
    pose proof (failing_call Stopping (stop_runtime source_runtime rk i) (fun e => Some ("Stop failed: " ++ error_message e)%string) _
      (or_intror (or_introl eq_refl)) (unstuck_stop_runtime _ _ _ rk) Hw1) as Hf.
    lazymatch type of Hf with match ?X with _ => _ end => change X with X in Hf; destruct X as [o w'] end.
    intros [e ->]. right. by apply (Hf e).
  - unfold reconfigure_component. rewrite reading_bind.
    destruct (get_component i (graph w)) as [node|] eqn:Hnode; [|by left].
    match goal with |- context [(with_lock ?m ≫= ?f) w] =>
      destruct (claim_cases m f w) as [[e ->]|[a ->]] end; [intros now g; apply transition_errors|by left|].
    pose proof (claim_world Reconfiguring Reconfiguring (fun _ => Some ("Reconfiguring " ++ component_type)%string) w eq_refl Hw) as Hw1.
    set (w1 := (with_lock _ w).2) in *. clearbody w1.
    set (was_running := bool_decide _).
    assert (Hstop : is_valid_transition (kind node) (status node) Stopping = false -> was_running = false).
    { intros Hns. apply bool_decide_eq_false. intros Hr. by rewrite running_stops in Hns. }
    destruct (is_valid_transition (kind node) (status node) Stopping).
    + pose proof (stop_first_frees rk w1 Hw1) as Hsf. unfold mbind at 1, SM_bind at 1. change (_ ← await (CallPreStop i); _) with (stop_first rk).
      destruct (stop_first rk w1) as [[[[]|e|]|e|] w2]; destruct Hsf as [Hg Hfree].
      * pose proof (after_stop_free was_running restart w2 Hc Hg (fun _ => Hfree)) as Hf.
        change (let '(r, w') := after_stop was_running restart w2 in
                r <> Panic -> graph w' = graph w \/ free i Reconfiguring w').
        destruct (after_stop was_running restart w2) as [r w3]. intros _. by right.
      * pose proof (ignoring_frees i Reconfiguring Error
          (Some ("Reconfiguration failed during stop: " ++ error_message e)%string) w2 Hg) as Hfr.
        unfold mbind, SM_bind. destruct (ignoring _ w2) as [[[]|e''|] w3]; intros _; right; by apply Hfr.
      * done.
      * done.
      * done.
    + pose proof (after_stop_free was_running restart w1 Hc Hw1) as Hf. rewrite Hstop in Hf by done.
      change (let '(r, w') := after_stop was_running restart w1 in
              r <> Panic -> graph w' = graph w \/ free i Reconfiguring w').
      rewrite Hstop by done. destruct (after_stop false restart w1) as [r w3]. intros _. right. by apply Hf.
Qed.

(** [C23] A start or a stop that fails, and a reconfiguration however it ends,
    does not leave the component in the status it was claimed with, unless the
    claim itself was refused, which changes nothing; whatever others do to the
    graph meanwhile, short of commanding that status themselves. *)
Theorem failed_command_does_not_stick (c : LifecycleCommand) w :
  match c with CmdReconfigure _ restart => preserves i Reconfiguring restart | _ => True end ->
  good i (claimed c) w ->
  let '(r, w') := run_command c w in
  over c r -> graph w' = graph w \/ ~ status_is i (claimed c) (graph w').
Proof. apply command_after_claim. Qed.

(** The transition into the status a component already has is allowed, so a
    second start while the first one is under way calls the runtime again. *)
Lemma second_start_calls_again w :
  status_is i Starting (graph w) -> calls (start_component i component_type w).2 = calls w ++ [CallStart i].
Proof.
  intros (n & Hn & Hs). unfold start_component.
  assert (Hclaim : forall m, with_lock (fun now => validate_and_transition now i Starting m) w =
            (Ok None, {| graph := graph w; now := now w; turns := turns w; calls := calls w; updates := updates w |})).
  { intros m. unfold with_lock, validate_and_transition. by rewrite get_bind, Hn, or_error_some, decide_True. }
  rewrite (sm_bind_ok _ _ _ _ _ (Hclaim _)). unfold runtime_start, await_call, attempt, mbind, SM_bind, await.
  destruct (next_turn _) as [t rest] eqn:Ht. destruct (call_error t); [|done].
  cbn. unfold ignoring, with_lock. by destruct (validate_and_transition _ _ _ _ _).
Qed.
End theorems.

(** [C27] A shutdown visits every component but the instance once, and each of
    them after all the components it feeds: reactions before the queries they
    listen to, queries before their sources. *)
Theorem shutdown_order_follows_feeds g :
  graph_ok g ->
  shutdown_order g ≡ₚ map (fun n => (id n, kind n)) (components g) /\
  forall a b na nb, linked g a b Feeds -> nodes g !! a = Some na -> nodes g !! b = Some nb ->
    before (id nb, kind nb) (id na, kind na) (shutdown_order g).
Proof.
  intros Hg. destruct (topological_order_spec g Hg) as (l & Hl & Hperm & Hfeeds). unfold shutdown_order. rewrite Hl. split.
  - assert (Hrev : rev l ≡ₚ l) by (symmetry; apply Permutation_rev). by rewrite Hrev, Hperm.
  - intros a b na nb Hab Ha Hb. apply (before_map (fun n => (id n, kind n))), before_rev. by eapply Hfeeds.
Qed.
End facts.
