(* ===== verification/GraphSamples.v ===== *)
(** * The component graph, run

    A stable graph whose iterators follow the indices and whose topological sort
    takes one node after the other that nothing left points to; an instance
    with a source, a query and a reaction. *)

From S2P Require Import Prelude ComponentGraph ComponentGraphFacts ComponentGraphOrder Lifecycle.

(** ** A topological sort *)

Section kahn.
Context (es : list (nat * nat)).

(** Nothing of [l] points to [a]. *)
Definition ready (l : list nat) (a : nat) : bool :=
  forallb (fun e => negb (bool_decide (e.2 = a)) || negb (bool_decide (e.1 ∈ l))) es.

Fixpoint kahn (fuel : nat) (l : list nat) : option (list nat) :=
  match l, fuel with
  | [], _ => Some []
  | _, 0%nat => None
  | _, S fuel =>
      match List.find (ready l) l with
      | Some a => cons a <$> kahn fuel (List.filter (fun b => negb (bool_decide (b = a))) l)
      | None => None
      end
  end.

Lemma ready_spec l a : ready l a = true <-> forall b, (b, a) ∈ es -> b ∉ l.
Proof.
  unfold ready. rewrite forallb_forall. split.
  - intros Hr b Hb Hin. apply list_elem_of_In, Hr in Hb. cbn in Hb.
    rewrite !bool_decide_true in Hb by done. done.
  - intros Hr [b c] Hin%list_elem_of_In. cbn. case_bool_decide as Hc; [|done]. subst c.
    by rewrite bool_decide_false by by apply Hr.
Qed.

Lemma elem_others (a b : nat) l : b ∈ List.filter (fun b => negb (bool_decide (b = a))) l <-> b ∈ l /\ b <> a.
Proof. rewrite !list_elem_of_In, filter_In, negb_true_iff, bool_decide_eq_false. done. Qed.

Lemma others_shorter (a : nat) l : a ∈ l -> (length (List.filter (fun b => negb (bool_decide (b = a))) l) < length l)%nat.
Proof.
  assert (Hle : forall l : list nat, (length (List.filter (fun b => negb (bool_decide (b = a))) l) <= length l)%nat).
  { clear l. intros l. induction l as [|b l IH]; cbn; [done|]. case_bool_decide; cbn; lia. }
  induction l as [|b l IH]; intros Ha; [by apply elem_of_nil in Ha|]. cbn. case_bool_decide; cbn.
  - specialize (Hle l). lia.
  - apply elem_of_cons in Ha as [->|Ha]; [done|]. specialize (IH Ha). lia.
Qed.

Lemma NoDup_others (a : nat) l : NoDup l -> NoDup (List.filter (fun b => negb (bool_decide (b = a))) l).
Proof. rewrite !NoDup_ListNoDup. apply List.NoDup_filter. Qed.

Lemma kahn_sound fuel l r : NoDup l -> kahn fuel l = Some r ->
  l ≡ₚ r /\ forall a b, (a, b) ∈ es -> a ∈ l -> b ∈ l -> before a b r.
Proof.
  revert l r. induction fuel as [|fuel IH]; intros [|x l] r Hnd Hk; cbn [kahn] in Hk; try done.
  1,2: by injection Hk as <-; split; [done|]; intros ? ? _ ?%elem_of_nil.
  set (xs := x :: l) in *. destruct (List.find (ready xs) xs) as [a|] eqn:Hf; [|done].
  apply List.find_some in Hf as [Hin%list_elem_of_In Hready]. rewrite ready_spec in Hready.
  destruct (kahn fuel _) as [r'|] eqn:Hr; [|done]. injection Hk as <-.
  destruct (IH _ _ (NoDup_others a xs Hnd) Hr) as [Hperm Hbefore].
  assert (Hmem : forall c, c ∈ r' <-> c ∈ xs /\ c <> a) by (intros c; by rewrite <- Hperm, elem_others).
  split.
  - apply NoDup_Permutation; [done| |].
    + constructor; [by rewrite Hmem; intros [_ ?]|]. rewrite <- Hperm. by apply NoDup_others.
    + intros c. rewrite elem_of_cons, Hmem. destruct (decide (c = a)) as [->|]; naive_solver.
  - intros c d Hcd Hc Hd. destruct (decide (d = a)) as [->|Hda]; [by destruct (Hready c)|].
    destruct (decide (c = a)) as [->|Hca].
    + assert (Hdr : d ∈ r') by by apply Hmem. apply list_elem_of_split in Hdr as (l1 & l2 & ->). by exists [], l1, l2.
    + destruct (Hbefore c d Hcd) as (l1 & l2 & l3 & ->); [by apply elem_others..|]. by exists (a :: l1), l2, l3.
Qed.

Lemma least_rank (rank : nat -> nat) (l : list nat) : l <> [] -> exists a, a ∈ l /\ forall b, b ∈ l -> (rank a <= rank b)%nat.
Proof.
  induction l as [|x l IH]; [done|]. intros _. destruct l as [|y l].
  - exists x. split; [by left|]. by intros b ->%list_elem_of_singleton.
  - destruct IH as (a & Ha & Hmin); [done|]. destruct (Nat.le_gt_cases (rank x) (rank a)).
    + exists x. split; [by left|]. intros b [->|Hb]%elem_of_cons; [done|]. specialize (Hmin b Hb). lia.
    + exists a. split; [by right|]. intros b [->|Hb]%elem_of_cons; [lia|auto].
Qed.

Lemma kahn_complete rank fuel l :
  (forall a b, (a, b) ∈ es -> (rank a < rank b)%nat) -> (length l <= fuel)%nat -> is_Some (kahn fuel l).
Proof.
  intros Hrank. revert l. induction fuel as [|fuel IH]; intros [|x l] Hl; cbn [kahn]; try done; [cbn in Hl; lia|].
  set (xs := x :: l) in *. destruct (List.find (ready xs) xs) as [a|] eqn:Hf.
  - apply List.find_some in Hf as [Hin%list_elem_of_In _]. destruct (IH (List.filter (fun b => negb (bool_decide (b = a))) xs)) as [r ->]; [|done].
    pose proof (others_shorter a xs Hin). lia.
  - destruct (least_rank rank xs) as (a & Ha & Hmin); [done|]. exfalso.
    apply list_elem_of_In, (List.find_none _ _ Hf) in Ha as Hr. assert (Hok : ready xs a = true); [|congruence].
    apply ready_spec. intros b Hb Hin. specialize (Hrank b a Hb). specialize (Hmin b Hin). lia.
Qed.
End kahn.

#[export] Instance sample_graph : StableGraphOps.
Proof.
  refine {| free_index := fresh; indices A m := map_to_list m; adjacency A m := map_to_list m;
            toposort ns es := kahn es (size ns) (elements ns) |}.
  - intros used. apply is_fresh.
  - done.
  - done.
  - intros ns es l Hk. destruct (kahn_sound es _ _ _ (NoDup_elements ns) Hk) as [Hp Hb]. split; [done|].
    intros a b Hab Ha Hb'. apply Hb; [done|by apply elem_of_elements..].
  - intros ns es rank Hr. apply (kahn_complete es rank); [done|]. done.
Defined.

(** ** An instance *)

Module GraphExample.
Notation Graph := (ComponentGraph unit).

Definition start : Graph := new_graph "instance".

(** A source, a query on it, a reaction to the query; the source is started. *)
Definition setup : list (Z * GraphOp (R:=unit)) :=
  [(1, OpRegister RegSource "s" ∅); (2, OpRegister (RegQuery ["s"%string]) "q" ∅);
   (3, OpRegister (RegReaction ["q"%string]) "r" ∅); (4, OpTransition "s" Starting None);
   (5, OpUpdate (StatusUpdate "s" Running None))].

Lemma setup_admissible : Forall (fun op => admissible op.2) setup.
Proof. unfold setup. repeat constructor. Qed.

Definition deployed : Graph := run_ops setup start.

Lemma deployed_sound : sound deployed.
Proof. apply run_ops_sound, setup_admissible. Qed.

Lemma graph_stays_well_formed_witness :
  Forall (fun op => admissible op.2) (setup ++ [(6, OpRemove "q")]) /\
  graph_ok (run_ops (setup ++ [(6, OpRemove "q")]) (new_graph "instance")).
Proof.
  assert (Hops : Forall (fun op => admissible op.2) (setup ++ [(6, OpRemove "q")])) by (unfold setup; repeat constructor).
  split; [exact Hops|]. apply (graph_stays_well_formed _ "instance" Hops).
Defined.

(** After the removal of the query nothing is related to it. *)
Example removed_query_leaves_nothing :
  map (fun e => e.2.2) (outgoing_edges 1 (run_ops (setup ++ [(6, OpRemove "q")]) start)) = [OwnedBy].
Proof. by_vm. Qed.

Lemma events_tell_statuses_witness :
  Forall (fun op => admissible op.2) setup /\
  replay "s" (sent deployed) = Some (Some (TypeSource, Running)).
Proof.
  split; [exact setup_admissible|].
  etrans; [exact (events_tell_statuses setup "instance" "s" setup_admissible)|]. by_vm.
Defined.

Lemma history_holds_recent_witness :
  Forall (fun op => admissible op.2) setup /\
  get_events "s" deployed = last_n DEFAULT_MAX_EVENTS_PER_COMPONENT (recent "s" (sent deployed)) /\
  (length (get_events "s" deployed) <= DEFAULT_MAX_EVENTS_PER_COMPONENT)%nat.
Proof. split; [exact setup_admissible|]. apply (history_holds_recent setup "instance" "s" setup_admissible). Defined.

Example source_history : map ev_status (get_events "s" deployed) = [Added; Starting; Running].
Proof. by_vm. Qed.

(** A reaction cannot listen to a source: the registration fails after the
    relationship with the query was added, and it is taken back. *)
Definition half_good : Registration := RegReaction ["q"; "s"]%string.

Lemma registration_all_or_nothing_witness :
  graph_ok deployed /\ (register half_good 7 "r2" ∅ deployed).2 = deployed.
Proof.
  split; [apply deployed_sound|].
  pose proof (registration_all_or_nothing half_good 7 "r2" ∅ deployed (proj1 deployed_sound)) as Ho.
  assert (He : is_ok (register half_good 7 "r2" ∅ deployed).1 = false) by by_vm.
  destruct (register half_good 7 "r2" ∅ deployed) as [[[]|e|] g]; [discriminate He|exact (proj1 Ho)|contradiction].
Defined.

Example shutdown_of_deployed : shutdown_order deployed = [("r", Reaction); ("q", Query); ("s", Source)]%string.
Proof. by_vm. Qed.

Lemma shutdown_order_follows_feeds_witness :
  graph_ok deployed /\
  shutdown_order deployed ≡ₚ map (fun n => (id n, kind n)) (components deployed) /\
  forall a b na nb, linked deployed a b Feeds -> nodes deployed !! a = Some na -> nodes deployed !! b = Some nb ->
    before (id nb, kind nb) (id na, kind na) (shutdown_order deployed).
Proof. split; [apply deployed_sound|]. apply (shutdown_order_follows_feeds deployed (proj1 deployed_sound)). Defined.

(** *** A reconfiguration that fails *)

Definition no_source (r : unit) : option unit := None.

(** The runtime stops, its update arrives during the wait, and the new runtime
    cannot be initialized. *)
Definition world : World (R:=unit) :=
  {| graph := deployed; now := 10;
     turns := [{| others := []; call_error := None; reported := Running; time := 11 |};
               {| others := []; call_error := None; reported := Stopped; time := 12 |};
               {| others := []; call_error := None; reported := Stopped; time := 13 |};
               {| others := [[(13, OpUpdate (StatusUpdate "s" Stopped None))]]; call_error := None; reported := Stopped;
                  time := 14 |};
               {| others := []; call_error := Some "no configuration"%string; reported := Stopped; time := 15 |}];
     calls := []; updates := [] |}.

Definition reconfigure : LifecycleCommand (R:=unit) := CmdReconfigure SourceRuntime (start_component "s" "source").

Example reconfiguration_failed :
  (run_command no_source "s" "source" reconfigure world).1 = Err (CallFailed "no configuration") /\
  (status <$> get_component "s" (graph (run_command no_source "s" "source" reconfigure world).2)) = Some Stopped.
Proof. split; by_vm. Qed.

Lemma failed_command_does_not_stick_witness :
  good "s" Reconfiguring world /\
  let w' := (run_command no_source "s" "source" reconfigure world).2 in
  graph w' = graph world \/ ~ status_is "s" Reconfiguring (graph w').
Proof.
  assert (Hgood : good "s" Reconfiguring world).
  { split; [exact deployed_sound|]. unfold world. cbn. repeat constructor. by intros [_ ?]. }
  split; [exact Hgood|].
  pose proof (failed_command_does_not_stick no_source "s" "source" reconfigure world
    (unstuck_start "s" "source" Reconfiguring ltac:(done) ltac:(done)) Hgood) as Hc.
  assert (He : (run_command no_source "s" "source" reconfigure world).1 = Err (CallFailed "no configuration")) by by_vm.
  destruct (run_command no_source "s" "source" reconfigure world) as [r w'].
  apply Hc. cbn in He. rewrite He. discriminate.
Defined.
End GraphExample.
