(* ===== verification/Json.v ===== *)
(** * Elements as JSON (core/src/models/element_value.rs, element.rs)

    The middleware looks at an element through crate serde_json's [Value]: the
    conversions between the two, and what they keep. Numbers and the text of
    dates belong to crates outside the repository. *)

From stdpp Require Import pretty.
From S2P Require Import Prelude BTree Floats Hashing Ast Models Errors Values ChronoOps ResultIndex StateCodec.

(** ** What the conversions use of serde_json and chrono *)

(** [serde_json::Number] *)
Class JsonNumber := {
  Number : Type;
  number_from_i64 : Z -> Number;
  number_from_f64 : f64 -> option Number;
  number_as_i64 : Number -> option Z;
  number_as_f64 : Number -> option f64;
}.

(** Integers and finite floats are kept apart; other floats are no numbers. *)
Class JsonNumberLaws `{JsonNumber} := {
  as_i64_from_i64 : forall i, i64_ok i -> number_as_i64 (number_from_i64 i) = Some i;
  from_f64_finite : forall x, f64_is_finite x = true ->
    exists n, number_from_f64 x = Some n /\ number_as_i64 n = None /\ number_as_f64 n = Some x;
  from_f64_not_finite : forall x, f64_is_finite x = false -> number_from_f64 x = None;
}.

Class ChronoText `{Chrono} := {
  naive_to_string : NaiveDateTime -> string;               (* Display *)
  naive_parse_from_str : string -> option NaiveDateTime;   (* with the format of Display *)
  to_rfc3339 : FixedDateTime -> string;
  parse_from_rfc3339 : string -> option FixedDateTime;
}.

Section json.
Context {JN : JsonNumber}.

(** [serde_json::Value]; its [Map] is a [BTreeMap]. *)
Inductive Value :=
| JNull
| JBool (b : bool)
| JNumber (n : Number)
| JString (s : string)
| JArray (l : list Value)
| JObject (o : list (string * Value)).

Definition JsonMap : Type := btree string Value.

Definition as_str (v : Value) : option string := match v with JString s => Some s | _ => None end.
Definition as_object (v : Value) : option JsonMap := match v with JObject o => Some o | _ => None end.

Lemma Value_ind' (P : Value -> Prop) :
  P JNull -> (forall b, P (JBool b)) -> (forall n, P (JNumber n)) -> (forall s, P (JString s)) ->
  (forall l, Forall P l -> P (JArray l)) -> (forall o, Forall (fun e => P e.2) o -> P (JObject o)) ->
  forall v, P v.
Proof.
  intros Hn Hb Hm Hs Hl Ho. fix IH 1. intros [|b|n|s|l|o]; [exact Hn|apply Hb|apply Hm|apply Hs| |].
  - apply Hl. induction l as [|v l IHl]; constructor; [apply IH | exact IHl].
  - apply Ho. induction o as [|[k v] o IHo]; constructor; [apply IH | exact IHo].
Qed.

(** ** The conversions *)

Definition DRASI_TYPE_TAG : string := "__drasi_v1_type__".
Definition DRASI_ENVELOPE_MARKER_TAG : string := "__drasi_v1_envelope__".
Definition DRASI_ENVELOPE_MARKER_VALUE : string := "drasi.element_value.datetime".

Context {C : Chrono} {T : ChronoText}.

Definition datetime_envelope (type_tag text : string) : Value :=
  JObject (collect [(DRASI_ENVELOPE_MARKER_TAG, JString DRASI_ENVELOPE_MARKER_VALUE);
                    (DRASI_TYPE_TAG, JString type_tag); ("value", JString text)]).

(** The [unwrap] of a float that is no JSON number panics. *)
Fixpoint element_value_to_json {E} (val : ElementValue) : outcome E Value :=
  match val with
  | EV_Null => Ok JNull
  | EV_Bool b => Ok (JBool b)
  | EV_Float f => match number_from_f64 (of_f64 f) with Some n => Ok (JNumber n) | None => Panic end
  | EV_Integer i => Ok (JNumber (number_from_i64 i))
  | EV_String s => Ok (JString s)
  | EV_List l => l' ← out_mapM element_value_to_json l; Ok (JArray l')
  | EV_Object o => o' ← out_mapM (fun e => v ← element_value_to_json e.2; Ok (e.1, v)) o; Ok (JObject (collect o'))
  | EV_LocalDateTime dt => Ok (datetime_envelope "drasi.LocalDateTime" (naive_to_string dt))
  | EV_ZonedDateTime dt => Ok (datetime_envelope "drasi.ZonedDateTime" (to_rfc3339 dt))
  end.

Definition property_map_to_json {E} (m : ElementPropertyMap) : outcome E JsonMap :=
  o ← out_mapM (fun e => v ← element_value_to_json e.2; Ok (e.1, v)) m; Ok (collect o).

(** The date that a tagged envelope holds, if the object is one. *)
Definition open_envelope (o : JsonMap) : option ElementValue :=
  if decide (bt_get DRASI_ENVELOPE_MARKER_TAG o ≫= as_str = Some DRASI_ENVELOPE_MARKER_VALUE) then
    type_tag ← bt_get DRASI_TYPE_TAG o ≫= as_str;
    val_str ← bt_get "value" o ≫= as_str;
    if (type_tag =? "drasi.LocalDateTime")%string then EV_LocalDateTime <$> naive_parse_from_str val_str
    else if (type_tag =? "drasi.ZonedDateTime")%string then EV_ZonedDateTime <$> parse_from_rfc3339 val_str
    else None
  else None.

Fixpoint json_to_element_value (value : Value) : ElementValue :=
  match value with
  | JNull => EV_Null
  | JBool b => EV_Bool b
  | JNumber n =>
      match number_as_i64 n with
      | Some i => EV_Integer i
      | None => match number_as_f64 n with Some f => EV_Float {| of_f64 := f |} | None => EV_Null end
      end
  | JString s => EV_String s
  | JArray a => EV_List (map json_to_element_value a)
  | JObject o =>
      match open_envelope o with
      | Some dt => dt
      | None => EV_Object (collect (map (fun e => (e.1, json_to_element_value e.2)) o))
      end
  end.

Definition json_to_property_map (m : JsonMap) : ElementPropertyMap :=
  collect (map (fun e => (e.1, json_to_element_value e.2)) m).

(** [From<Value> for ElementPropertyMap]: what is no object has no properties. *)
Definition value_to_property_map (value : Value) : ElementPropertyMap :=
  match value with JObject o => json_to_property_map o | _ => [] end.

Definition reference_to_string (r : ElementReference) : string := source_id r +:+ ":" +:+ element_id r.
Definition metadata_to_string (m : ElementMetadata) : string :=
  "(" +:+ reference_to_string (reference m) +:+ ", [" +:+ String.concat "," (labels m) +:+ "], " +:+
  pretty (effective_from m) +:+ ")".

Definition element_to_json {E} (val : Element) : outcome E Value :=
  match val with
  | Node metadata properties =>
      properties ← property_map_to_json properties;
      Ok (JObject (bt_insert "$metadata" (JString (metadata_to_string metadata)) properties))
  | Relation metadata in_node out_node properties =>
      properties ← property_map_to_json properties;
      let properties := bt_insert "$metadata" (JString (metadata_to_string metadata)) properties in
      let properties := bt_insert "$in_node" (JString (reference_to_string in_node)) properties in
      Ok (JObject (bt_insert "$out_node" (JString (reference_to_string out_node)) properties))
  end.

(** ** Values that JSON can hold *)

(** Every float is finite. *)
Fixpoint json_finite (v : ElementValue) : bool :=
  match v with
  | EV_Float x => f64_is_finite (of_f64 x)
  | EV_List l => forallb json_finite l
  | EV_Object o => forallb (fun e => json_finite e.2) o
  | _ => true
  end.

(** Integers of 64 bits, maps with sorted keys and no object that passes for an
    envelope; dates that their text denotes. *)
Inductive json_faithful : ElementValue -> Prop :=
| faithful_null : json_faithful EV_Null
| faithful_bool b : json_faithful (EV_Bool b)
| faithful_float x : json_faithful (EV_Float x)
| faithful_integer i : i64_ok i -> json_faithful (EV_Integer i)
| faithful_string s : json_faithful (EV_String s)
| faithful_list l : Forall json_faithful l -> json_faithful (EV_List l)
| faithful_object o :
    bt_sorted o -> bt_get DRASI_ENVELOPE_MARKER_TAG o <> Some (EV_String DRASI_ENVELOPE_MARKER_VALUE) ->
    Forall (fun e => json_faithful e.2) o -> json_faithful (EV_Object o)
| faithful_local dt : naive_parse_from_str (naive_to_string dt) = Some dt -> json_faithful (EV_LocalDateTime dt)
| faithful_zoned dt : parse_from_rfc3339 (to_rfc3339 dt) = Some dt -> json_faithful (EV_ZonedDateTime dt).

(** Levels of lists and objects, a scalar counting as one. *)
Fixpoint value_depth (v : ElementValue) : nat :=
  match v with
  | EV_List l => S (list_max (map value_depth l))
  | EV_Object o => S (list_max (map (fun e => value_depth e.2) o))
  | _ => 1
  end.

(** [ParseJson::calculate_nesting_depth] (middleware/src/parse_json/mod.rs) *)
Fixpoint calculate_nesting_depth (value : Value) : nat :=
  match value with
  | JObject m => S (list_max (map (fun e => calculate_nesting_depth e.2) m))
  | JArray arr => S (list_max (map calculate_nesting_depth arr))
  | _ => 1
  end.
End json.

(** * What the conversion of values to JSON and back keeps *)

Lemma out_mapM_ok {E A B} (f : A -> outcome E B) (P : A -> B -> Prop) l :
  Forall (fun a => exists b, f a = Ok b /\ P a b) l -> exists l', out_mapM f l = Ok l' /\ Forall2 P l l'.
Proof.
  induction 1 as [|a l (b & Hb & HP) _ (l' & Hl & H2)]; cbn; [by exists []|].
  exists (b :: l'). rewrite Hb, Hl. by split; [|constructor].
Qed.

(** Mapping the values of a map keeps its keys. *)
Section values.
Context {V W : Type}.
Implicit Types (P : V -> W -> Prop).

Lemma Forall2_keys P (m : btree string V) (m' : btree string W) :
  Forall2 (fun e e' => e'.1 = e.1 /\ P e.2 e'.2) m m' -> map fst m = map fst m'.
Proof. induction 1 as [|e e' m m' [Hk _] _ IH]; cbn; [done|]. by rewrite Hk, IH. Qed.

Lemma bt_get_Forall2 P (m : btree string V) (m' : btree string W) k :
  Forall2 (fun e e' => e'.1 = e.1 /\ P e.2 e'.2) m m' -> option_Forall2 P (bt_get k m) (bt_get k m').
Proof.
  induction 1 as [|[j v] [j' w] m m' [Hk HP] _ IH]; cbn in *; [constructor|]. subst j'.
  destruct (cmp k j); [by constructor|constructor|done].
Qed.
End values.

Lemma list_max_le_map {A} (f : A -> nat) l n : Forall (fun a => (f a <= n)%nat) l -> (list_max (map f l) <= n)%nat.
Proof. intros Hl. apply list_max_le. by apply Forall_map. Qed.

Lemma list_max_map_mono {A B} (f : A -> nat) (g : B -> nat) l l' :
  Forall2 (fun a b => (f a <= g b)%nat) l l' -> (list_max (map f l) <= list_max (map g l'))%nat.
Proof. unfold list_max. induction 1; cbn; lia. Qed.

Lemma in_map_list_max {A} (f : A -> nat) l a : a ∈ l -> (f a <= list_max (map f l))%nat.
Proof. unfold list_max. induction 1 as [|? ? ? _ IH]; cbn in *; lia. Qed.

Lemma bt_collect_elem {V} (l : list (string * V)) e : e ∈ collect l -> e ∈ l.
Proof.
  unfold collect. cut (forall acc, e ∈ fold_left (fun m e => bt_insert e.1 e.2 m) l acc -> e ∈ acc \/ e ∈ l).
  { intros H He. by destruct (H [] He) as [?%elem_of_nil|]. }
  induction l as [|[k v] l IH]; cbn; intros acc He; [by left|].
  destruct (IH _ He) as [[->|?]%bt_insert_elem|?]; [right; constructor|by left|right; by constructor].
Qed.

Lemma list_max_collect {V} (f : V -> nat) (l : list (string * V)) :
  (list_max (map (fun e => f e.2) (collect l)) <= list_max (map (fun e => f e.2) l))%nat.
Proof.
  apply list_max_le_map, Forall_forall. intros e He%bt_collect_elem. exact (in_map_list_max (fun e => f e.2) l e He).
Qed.

Lemma forallb_elem {A} (f : A -> bool) l a : forallb f l = true -> a ∈ l -> f a = true.
Proof. intros H Ha. apply (proj1 (forallb_forall f l) H). by apply list_elem_of_In. Qed.

Section facts.
Context {JN : JsonNumber} {JL : JsonNumberLaws} {C : Chrono} {T : ChronoText}.

Lemma bt_get_marker text tag : open_envelope (JN:=JN) (collect
  [(DRASI_ENVELOPE_MARKER_TAG, JString DRASI_ENVELOPE_MARKER_VALUE);
   (DRASI_TYPE_TAG, JString tag); ("value"%string, JString text)]) =
  (if (tag =? "drasi.LocalDateTime")%string then EV_LocalDateTime <$> naive_parse_from_str text
   else if (tag =? "drasi.ZonedDateTime")%string then EV_ZonedDateTime <$> parse_from_rfc3339 text
   else None).
Proof. reflexivity. Qed.

Lemma json_string_value {E} v s : element_value_to_json (E:=E) v = Ok (JString s) -> v = EV_String s.
Proof.
  destruct v; cbn; intros H; simplify_eq; try done.
  - by destruct (number_from_f64 _).
  - by destruct (out_mapM _ _).
  - by destruct (out_mapM _ _).
Qed.

(** A user object that is no envelope does not become one. *)
Lemma no_envelope {E} (o : ElementPropertyMap) (o' : JsonMap) :
  Forall2 (fun e e' => e'.1 = e.1 /\ element_value_to_json (E:=E) e.2 = Ok e'.2) o o' ->
  bt_get DRASI_ENVELOPE_MARKER_TAG o <> Some (EV_String DRASI_ENVELOPE_MARKER_VALUE) ->
  open_envelope o' = None.
Proof.
  intros H2 Hm. unfold open_envelope. rewrite decide_False; [done|]. intros Hj. apply Hm.
  pose proof (bt_get_Forall2 (fun v w => element_value_to_json (E:=E) v = Ok w) o o' DRASI_ENVELOPE_MARKER_TAG H2) as Hg.
  destruct Hg as [v w Hv|]; [|done]. destruct w as [| | |s| |]; cbn in Hj; simplify_eq.
  by apply json_string_value in Hv as ->.
Qed.

Lemma json_round_trip_core {E} v : json_faithful v -> json_finite v = true ->
  exists j, element_value_to_json (E:=E) v = Ok j /\ json_to_element_value j = v.
Proof.
  intros Hv. induction v as [| |x| | |l IH|o IH| |] using ElementValue_ind'; inversion Hv as [| | | | |? Hl|? Ho Hm Hall|? Hp|? Hp]; subst; cbn; intros Hf.
  - by exists JNull.
  - by eexists.
  - destruct (from_f64_finite (of_f64 x) Hf) as (n & -> & Hi & Hd). eexists. split; [done|]. cbn. rewrite Hi, Hd.
    by destruct x.
  - eexists. split; [done|]. cbn. by rewrite as_i64_from_i64.
  - by eexists.
  - destruct (out_mapM_ok (E:=E) element_value_to_json (fun v j => json_to_element_value j = v) l) as (l' & -> & H2).
    { rewrite Forall_forall in IH, Hl |- *. intros v Hin. apply IH; [done|by apply Hl|].
      by eapply forallb_elem. }
    eexists. split; [done|]. cbn. f_equal. clear -H2. induction H2 as [|? ? ? ? <- _ IH2]; cbn; [done|]. by f_equal.
  - destruct (out_mapM_ok (E:=E) (fun e => v ← element_value_to_json e.2; Ok (e.1, v))
      (fun e e' => e'.1 = e.1 /\ element_value_to_json (E:=E) e.2 = Ok e'.2 /\ json_to_element_value e'.2 = e.2) o)
      as (o' & -> & H2).
    { rewrite Forall_forall in IH, Hall |- *. intros [k v] Hin. destruct (IH (k, v) Hin) as (j & Hj & Hb);
        [by apply (Hall (k, v))| |].
      - exact (forallb_elem _ _ (k, v) Hf Hin).
      - exists (k, j). cbn in *. by rewrite Hj. }
    assert (Hk : map fst o = map fst o').
    { eapply (Forall2_keys (fun v w => element_value_to_json (E:=E) v = Ok w /\ json_to_element_value w = v)), H2. }
    eexists. split; [done|]. cbn. rewrite (collect_sorted o') by by eapply sorted_same_keys.
    rewrite (no_envelope (E:=E) o o'), collect_sorted; [|..|done].
    + f_equal. clear -H2. induction H2 as [|[] [] ? ? (Hk & _ & Hv) _ IH]; cbn in *; [done|]. by rewrite IH, Hk, Hv.
    + eapply sorted_same_keys; [|exact Ho]. by rewrite map_map, Hk.
    + eapply Forall2_impl; [exact H2|]. by intros ? ? (? & ? & _).
  - eexists. split; [done|]. unfold datetime_envelope. cbn [json_to_element_value]. rewrite bt_get_marker. cbn. by rewrite Hp.
  - eexists. split; [done|]. unfold datetime_envelope. cbn [json_to_element_value]. rewrite bt_get_marker. cbn. by rewrite Hp.
Qed.

(** The conversion gives no error: it succeeds or panics. *)
Lemma out_mapM_never_err {E A B} (f : A -> outcome E B) l : Forall (fun a => forall e, f a <> Err e) l ->
  forall e, out_mapM f l <> Err e.
Proof.
  intros Hl. induction Hl as [|a l Ha Hl IH]; intros e; cbn; [done|].
  destruct (f a) as [|e'|] eqn:Hfa; [|by destruct (Ha e')|done].
  destruct (out_mapM f l) as [|e'|]; [done|by destruct (IH e')|done].
Qed.

Lemma json_never_err {E} v (e : E) : element_value_to_json v <> Err e.
Proof.
  revert e. induction v as [| |x| | |l IH|o IH| |] using ElementValue_ind'; intros e; cbn; try done.
  - by destruct (number_from_f64 _).
  - destruct (out_mapM _ _) eqn:Ho; cbn; [done| |done]. by apply (out_mapM_never_err _ _ IH) in Ho.
  - destruct (out_mapM _ _) eqn:Ho; cbn; [done| |done]. apply out_mapM_never_err in Ho; [done|].
    eapply Forall_impl; [exact IH|]. intros [k w] Hw e'. cbn in *.
    destruct (element_value_to_json w) as [|e2|]; cbn; [done|by destruct (Hw e2)|done].
Qed.

Lemma property_map_never_err {E} m (e : E) : property_map_to_json m <> Err e.
Proof.
  unfold property_map_to_json. destruct (out_mapM _ m) eqn:Ho; cbn; [done| |done].
  apply out_mapM_never_err in Ho; [done|]. apply Forall_forall. intros [k w] _ e'. cbn.
  destruct (element_value_to_json w) eqn:Hj; cbn; [done| |done]. by apply json_never_err in Hj.
Qed.

(** What is not finite makes the [unwrap] panic, wherever it is nested. *)
Lemma json_not_finite {E} v : json_finite v = false -> element_value_to_json (E:=E) v = Panic.
Proof.
  assert (Hpanic : forall {A B} (f : A -> outcome E B) (ok : A -> bool) l,
    Forall (fun a => ok a = false -> f a = Panic) l -> (forall a e, f a <> Err e) -> forallb ok l = false ->
    out_mapM f l = Panic).
  { intros A B f ok l Hl Herr. induction Hl as [|a l Ha Hl IH]; cbn; [done|].
    destruct (ok a) eqn:Hok; cbn; [|by rewrite Ha]. intros Hf. rewrite IH by done.
    destruct (f a) eqn:Hfa; [done| |done]. by destruct (Herr a e). }
  induction v as [| |x| | |l IH|o IH| |] using ElementValue_ind'; cbn; try done; intros Hf.
  - by rewrite from_f64_not_finite.
  - rewrite (Hpanic _ _ _ json_finite); [done|done| |done]. intros. apply json_never_err.
  - rewrite (Hpanic _ _ _ (fun e => json_finite e.2)); [done|..|done].
    + eapply Forall_impl; [exact IH|]. intros [k w] Hw Hok. cbn in *. by rewrite Hw.
    + intros [k w] e. cbn. destruct (element_value_to_json w) eqn:Hj; cbn; [done| |done]. by apply json_never_err in Hj.
Qed.

(** The conversion adds no level: what JSON holds with [n] levels becomes a value with at most [n]. *)
Lemma value_depth_of_json j : (value_depth (json_to_element_value j) <= calculate_nesting_depth j)%nat.
Proof.
  induction j as [| |n| |l IH|o IH] using Value_ind'; cbn; try lia.
  - destruct (number_as_i64 n); cbn; [lia|]. destruct (number_as_f64 n); cbn; lia.
  - apply le_n_S. rewrite map_map. apply list_max_map_mono.
    induction IH as [|? ? ? _ IH]; constructor; [done|exact IH].
  - destruct (open_envelope o) as [v|] eqn:Ho.
    + unfold open_envelope in Ho. case_decide; [|done].
      apply bind_Some in Ho as (tag & _ & (text & _ & Ho)%bind_Some).
      repeat case_match; [apply fmap_Some in Ho as (? & _ & ->)..|done]; cbn; lia.
    + cbn. apply le_n_S. etrans; [apply (list_max_collect value_depth)|]. rewrite map_map. apply list_max_map_mono. clear Ho.
      induction IH as [|? ? ? _ IH]; constructor; [done|exact IH].
Qed.
End facts.

(** [C30] Converting a property value to JSON panics exactly when a float in it
    is not finite; otherwise reading the JSON back gives the value, dates that
    their text denotes included, provided its integers fit and none of its
    objects passes for the envelope of a date. *)
Theorem json_round_trip {JN : JsonNumber} {JL : JsonNumberLaws} {C : Chrono} {T : ChronoText} {E} (v : ElementValue) :
  json_faithful v ->
  if json_finite v
  then exists j, element_value_to_json (E:=E) v = Ok j /\ json_to_element_value j = v
  else element_value_to_json (E:=E) v = Panic.
Proof.
  intros Hv. destruct (json_finite v) eqn:Hf; [by apply json_round_trip_core|by apply json_not_finite].
Qed.
