(* ===== verification/ScalarFunctions.v ===== *)
(** * Scalar functions (core/src/evaluation/functions/text, numeric,
      trigonometric, cypher_scalar, list, drasi, metadata.rs;
      functions-cypher/src/lib.rs)

    A scalar function takes the values of its arguments and answers a value or
    an error that carries the name of the call. The functions are written on
    the arguments alone; [scalar] makes a function of the registry of one.
    Arithmetic wraps around as in a release build. *)

From Stdlib Require Import SpecFloat.
From stdpp Require Import pretty.
From S2P Require Import Prelude Text BTree Floats Hashing Ast Models Errors Values ChronoOps Temporal Operators.
From S2P Require Import ResultIndex LazySortedSet Aggregation Contexts Expressions Json.

(** ** Rounding to an integer, still an [f64]: a zero keeps the sign *)

Definition f64_integral (s : bool) (z : Z) : f64 := if z =? 0 then S754_zero s else f64_of_Z z.

Definition f64_map_integral (f : Z -> Z -> Z) (x : f64) : f64 :=
  match x with
  | S754_finite s m e =>
      let m := if s then Z.neg m else Z.pos m in
      f64_integral s (if 0 <=? e then m * 2 ^ e else f m (2 ^ (- e)))
  | _ => x
  end.

Definition f64_floor : f64 -> f64 := f64_map_integral Z.div.
Definition f64_ceil : f64 -> f64 := f64_map_integral (fun m d => - (- m / d)).
Definition f64_truncate : f64 -> f64 := f64_map_integral Z.quot.
(** halves away from zero *)
Definition f64_round : f64 -> f64 := f64_map_integral (fun m d => Z.quot (2 * m + Z.sgn m * d) (2 * d)).
Definition f64_fract (x : f64) : f64 := f64_sub x (f64_truncate x).
Definition f64_abs : f64 -> f64 := SFabs.
Definition f64_is_sign_negative (x : f64) : bool :=
  match x with S754_zero s | S754_infinity s | S754_finite s _ _ => s | S754_nan => false end.

Definition f64_max : f64 := S754_finite false (2 ^ 53 - 1) 971.
Definition f64_half : f64 := f64_div (f64_of_Z 1) (f64_of_Z 2).
(** [std::f64::consts::PI] *)
Definition f64_pi : f64 := S754_finite false 7074237752028440 (-51).

Definition as_i32 (z : Z) : Z := (z + 2 ^ 31) mod 2 ^ 32 - 2 ^ 31.

(** What the functions call in [std] and other crates; [None] is a panic. The
    draws and the time come from outside. *)
Class ScalarLibs `{Chrono} (S : Type) := {
  parse_f64 : string -> option f64;
  powi : f64 -> Z -> f64;
  f64_sin : f64 -> f64;
  f64_cos : f64 -> f64;
  f64_tan : f64 -> f64;
  round_up : f64 -> Z -> f64;                             (* crate round *)
  round_down : f64 -> Z -> f64;
  mean : list f64 -> option f64;                          (* crate statistical *)
  population_standard_deviation : list f64 -> f64 -> option f64;
  display_value : VariableValue -> string;                (* Display of times, durations, elements, expressions *)
  thread_rng_gen : S -> f64;                              (* crate rand *)
  uuid_new_v4 : S -> string;                              (* crate uuid *)
  system_time_millis : S -> option Z;                     (* None before 1970 *)
  (* whether a hash set meets two values with these hashes *)
  same_bucket : list hwrite -> list hwrite -> bool;
  same_bucket_refl : forall h, same_bucket h h = true;
}.

Section scalar.
Context {C : Chrono} {O : ChronoOps} {H : Hashers} {U : UnicodeCase}.
Context {S : Type} {SL : ScalarLibs S}.

Notation result A := (outcome FunctionEvaluationError A).
Notation Args := (list VariableValue).

Definition or_fail {A} (e : FunctionEvaluationError) (o : option A) : result A :=
  match o with Some a => Ok a | None => Err e end.
Definition or_panics {A} (o : option A) : result A :=
  match o with Some a => Ok a | None => Panic end.

Definition scalar (f : Args -> result VariableValue) (_ : ExpressionEvaluationContext) (call : FunctionCall)
    (args : Args) : SM S FunctionError VariableValue :=
  sm_lift (map_err (fun e => {| function_name := call_name call; error := e |}) (f args)).

Definition unary (f : VariableValue -> result VariableValue) (args : Args) : result VariableValue :=
  match args with [v] => f v | _ => Err InvalidArgumentCount end.
Definition nullary (f : result VariableValue) (args : Args) : result VariableValue :=
  match args with [] => f | _ => Err InvalidArgumentCount end.

Definition int_of (n : Integer) : result Z := or_fail OverflowError (integer_as_i64 n).
Definition float_of (x : Float) : result f64 := or_fail OverflowError (float_as_f64 x).
Definition finite (x : f64) : result VariableValue := x ← or_fail OverflowError (float_from_f64 x); Ok (VFloat x).
Definition integer (z : Z) : VariableValue := VInteger (integer_from_i64 z).

(** ** Text (text/text.rs) *)

Definition on_text (f : string -> string) (v : VariableValue) : result VariableValue :=
  match v with
  | VString s => Ok (VString (f s))
  | VNull => Ok VNull
  | _ => Err (InvalidArgument 0)
  end.

Definition ToUpper : Args -> result VariableValue := unary (on_text to_uppercase).
Definition ToLower : Args -> result VariableValue := unary (on_text to_lowercase).
Definition Trim : Args -> result VariableValue := unary (on_text trim).
Definition LTrim : Args -> result VariableValue := unary (on_text trim_start).
Definition RTrim : Args -> result VariableValue := unary (on_text trim_end).

Definition reverse_text (s : string) : string := concat_text (rev (chars s)).

Definition Reverse : Args -> result VariableValue := unary (fun v =>
  match v with
  | VString s => Ok (VString (reverse_text s))
  | VList l => Ok (VList (rev l))
  | VNull => Ok VNull
  | _ => Err (InvalidArgument 0)
  end).

(** The length asked for: positive, an [i64]. *)
Definition length_argument (length : Integer) : result Z :=
  match integer_as_i64 length with
  | Some l => if l <=? 0 then Err OverflowError else Ok l
  | None => Err (InvalidArgument 1)
  end.

Definition text_length (s : string) : Z := Z.of_nat (String.length s).

Definition Left (args : Args) : result VariableValue :=
  match args with
  | [VNull; VInteger _] | [VNull; VNull] => Ok VNull
  | [VString original; VInteger length] =>
      len ← length_argument length;
      if text_length original <? len then Ok (VString original)
      else Ok (VString (concat_text (take (Z.to_nat len) (chars original))))
  | [VString _; _] => Err (InvalidArgument 1)
  | [_; _] => Err (InvalidArgument 0)
  | _ => Err InvalidArgumentCount
  end.

(** The start of the slice is a byte. *)
Definition Right (args : Args) : result VariableValue :=
  match args with
  | [VNull; VInteger _] | [VNull; VNull] => Ok VNull
  | [VString original; VInteger length] =>
      len ← length_argument length;
      if text_length original <? len then Ok (VString original)
      else
        r ← or_panics (slice_from original (Z.to_nat (text_length original - len)));
        Ok (VString r)
  | [VString _; _] => Err (InvalidArgument 1)
  | [_; _] => Err (InvalidArgument 0)
  | _ => Err InvalidArgumentCount
  end.

Definition Replace (args : Args) : result VariableValue :=
  match args with
  | [VString original; VString search; VString replace] =>
      if String.eqb search EmptyString then Ok (VString original)
      else Ok (VString (replace_text search replace original))
  | [VNull; _; _] | [_; VNull; _] | [_; _; VNull] => Ok VNull
  | [VString _; VString _; _] => Err (InvalidArgument 2)
  | [_; _; _] => Err (InvalidArgument 0)
  | _ => Err InvalidArgumentCount
  end.

Fixpoint delimiter_texts (l : Args) : result (list string) :=
  match l with
  | [] => Ok []
  | VString s :: l => r ← delimiter_texts l; Ok (s :: r)
  | _ :: _ => Err (InvalidArgument 1)
  end.

(** One character of the text split at any of the delimiters' characters:
    the words so far and the one being read *)
Definition split_char (delimiters : list string) (st : Args * string) (c : string) : Args * string :=
  let '(words, current_word) := st in
  if existsb (fun d => contains c (chars d)) delimiters
  then if String.eqb current_word EmptyString then st else (words ++ [VString current_word], EmptyString)
  else (words, current_word +:+ c).

Definition split_words (delimiters : list string) (s : string) : Args :=
  let '(words, current_word) := fold_left (split_char delimiters) (chars s) ([], EmptyString) in
  if String.eqb current_word EmptyString then words else words ++ [VString current_word].

Definition Split (args : Args) : result VariableValue :=
  match args with
  | [VNull; _] | [_; VNull] => Ok VNull
  | [VString original; VString separator] =>
      if String.eqb separator EmptyString then Err (InvalidArgument 1)
      else Ok (VList (map VString (split_text separator original)))
  | [VString original; VList delimiters] =>
      d ← delimiter_texts delimiters; Ok (VList (split_words d original))
  | [_; _] => Err (InvalidArgument 0)
  | _ => Err InvalidArgumentCount
  end.

(** An index or a length: not negative, an [i64]. *)
Definition index_argument (n : nat) (i : Integer) : result Z :=
  match integer_as_i64 i with
  | Some s => if s <? 0 then Err (InvalidType "positive integer") else Ok s
  | None => Err (InvalidArgument n)
  end.

Definition substring_to_end (original : string) (start : Integer) : result VariableValue :=
  start_index ← index_argument 1 start;
  if text_length original <? (start_index : Z) then Err (InvalidArgument 1)
  else r ← or_panics (slice_from original (Z.to_nat start_index)); Ok (VString r).

(** The check bounds the length of the slice, not its end. *)
Definition substring_of_length (original : string) (start length : Integer) : result VariableValue :=
  start_index ← index_argument 1 start;
  len ← index_argument 2 length;
  let n := text_length original in
  if (n <? start_index) || (n <? as_u64 (as_u64 (start_index + len) - start_index))
  then Err (InvalidType "Valid index or length")
  else
    r ← or_panics (slice_text original (Z.to_nat start_index) (Z.to_nat (start_index + len)));
    Ok (VString r).

Definition substring (a0 a1 : VariableValue) (a2 : option VariableValue) : result VariableValue :=
  match a0, a1, a2 with
  | VNull, _, _ => Ok VNull
  | _, VNull, _ => Err (InvalidArgument 1)
  | _, _, Some VNull => Err (InvalidArgument 2)
  | VString original, VInteger start, None => substring_to_end original start
  | VString _, _, None => Err (InvalidArgument 1)
  | VString original, VInteger start, Some (VInteger length) => substring_of_length original start length
  | VString _, VInteger _, _ => Err (InvalidArgument 2)
  | _, _, _ => Err (InvalidArgument 0)
  end.

Definition Substring (args : Args) : result VariableValue :=
  match args with
  | [a0; a1] => substring a0 a1 None
  | [a0; a1; a2] => substring a0 a1 (Some a2)
  | _ => Err InvalidArgumentCount
  end.

(** *** The text of a value (variable_value/mod.rs, Display) *)

Definition range_bound_to_string (b : RangeBound) : string :=
  match b with BIndex i => pretty i | Unbounded => "..." end.

Fixpoint value_to_text (v : VariableValue) : string :=
  match v with
  | VNull => "null"
  | VBool b => bool_to_string b
  | VInteger i => integer_to_string i
  | VFloat x => float_to_string x
  | VString s => s
  | VList l => "[" +:+ join_text ", " (map value_to_text l) +:+ "]"
  | VObject o => "{" +:+ join_text ", " (map (fun e => e.1 +:+ ": " +:+ value_to_text e.2) o) +:+ "}"
  | VListRange r => range_bound_to_string (lr_start r) +:+ ".." +:+ range_bound_to_string (lr_end r)
  | VElementMetadata m => metadata_to_string m
  | VElementReference r => reference_to_string r
  | VAwaiting => "Awaiting"
  | _ => display_value v
  end.

(** [result.truncate(new_len)]: no effect beyond the end, a panic inside a
    character. *)
Definition truncate_text (s : string) (new_len : Z) : option string :=
  if text_length s <? new_len then Some s
  else if is_char_boundary s (Z.to_nat new_len) then Some (first_bytes (Z.to_nat new_len) s) else None.

Definition list_to_text (l : Args) : result VariableValue :=
  let result := fold_left (fun r v => (r +:+ value_to_text v) +:+ ", ") l "["%string in
  r ← or_panics (truncate_text result (as_u64 (text_length result - 2)));
  Ok (VString (r +:+ "]")).

Definition ToString : Args -> result VariableValue := unary (fun v =>
  match v with
  | VInteger n => Ok (VString (integer_to_string n))
  | VFloat n => Ok (VString (float_to_string n))
  | VString s => Ok (VString s)
  | VBool b => Ok (VString (bool_to_string b))
  | VList a => list_to_text a
  | VNull => Ok VNull
  | _ => Err (InvalidArgument 0)
  end).

Definition ToStringOrNull : Args -> result VariableValue := unary (fun v =>
  match v with
  | VNull => Ok VNull
  | VInteger n => Ok (VString (integer_to_string n))
  | VFloat n => Ok (VString (float_to_string n))
  | VString s => Ok (VString s)
  | VList a => list_to_text a
  | VObject _ => Ok VNull
  | _ => Err (InvalidArgument 0)
  end).

(** ** Conversions (cypher_scalar/to_boolean.rs, to_float.rs, to_integer.rs) *)

Definition boolean_text (s : string) : VariableValue :=
  if String.eqb s "true" then VBool true else if String.eqb s "false" then VBool false else VNull.

Definition ToBoolean : Args -> result VariableValue := unary (fun v =>
  match v with
  | VNull => Ok VNull
  | VInteger i => i ← int_of i; Ok (VBool (negb (i =? 0)))
  | VString s => Ok (boolean_text (to_lowercase s))
  | VBool b => Ok (VBool b)
  | _ => Err (InvalidArgument 0)
  end).

Definition ToBooleanOrNull : Args -> result VariableValue := unary (fun v =>
  match v with
  | VNull => Ok VNull
  | VInteger i => i ← int_of i; Ok (VBool (negb (i =? 0)))
  | VString s => Ok (boolean_text s)
  | VBool b => Ok (VBool b)
  | _ => Ok VNull
  end).

(** What the two conversions to a float share; [other] is the answer for the
    remaining types. *)
Definition to_float (other : result VariableValue) (v : VariableValue) : result VariableValue :=
  match v with
  | VNull => Ok VNull
  | VInteger i => i ← int_of i; Ok (VFloat (f64_of_Z i))
  | VFloat f => Ok (VFloat f)
  | VString s =>
      match parse_i64 s, parse_f64 s with
      | Some i, _ => Ok (VFloat (f64_of_Z i))
      | None, Some f => Ok (VFloat f)
      | None, None => Ok VNull
      end
  | _ => other
  end.
Definition ToFloat : Args -> result VariableValue := unary (to_float (Err (InvalidArgument 0))).
Definition ToFloatOrNull : Args -> result VariableValue := unary (to_float (Ok VNull)).

Definition to_integer (other : result VariableValue) (v : VariableValue) : result VariableValue :=
  match v with
  | VNull => Ok VNull
  | VInteger i => Ok (VInteger i)
  | VFloat f => f ← float_of f; Ok (integer (f64_as_i64 (f64_floor f)))
  | VBool b => Ok (integer (if b then 1 else 0))
  | VString s =>
      match parse_i64 s, parse_f64 s with
      | Some i, _ => Ok (integer i)
      | None, Some f => Ok (integer (f64_as_i64 (f64_floor f)))
      | None, None => Ok VNull
      end
  | _ => other
  end.
Definition ToInteger : Args -> result VariableValue := unary (to_integer (Err (InvalidArgument 0))).
Definition ToIntegerOrNull : Args -> result VariableValue := unary (to_integer (Ok VNull)).

(** ** Cypher's scalar functions (cypher_scalar) *)

Definition CharLength : Args -> result VariableValue := unary (fun v =>
  match v with
  | VString s => Ok (integer (text_length s))
  | VNull => Ok VNull
  | _ => Err (InvalidArgument 0)
  end).

Definition Size : Args -> result VariableValue := unary (fun v =>
  match v with
  | VList l => Ok (integer (Z.of_nat (length l)))
  | VString s => Ok (integer (text_length s))
  | VNull => Ok VNull
  | _ => Err (InvalidArgument 0)
  end).

Definition IsEmpty : Args -> result VariableValue := unary (fun v =>
  match v with
  | VString s => Ok (VBool (String.eqb s EmptyString))
  | VList l => Ok (VBool match l with [] => true | _ => false end)
  | VObject o => Ok (VBool match o with [] => true | _ => false end)
  | VNull => Ok VNull
  | _ => Err (InvalidArgument 0)
  end).

Definition Head : Args -> result VariableValue := unary (fun v =>
  match v with
  | VList l => Ok match l with [] => VNull | x :: _ => x end
  | VNull => Ok VNull
  | _ => Err (InvalidArgument 0)
  end).

Definition CypherLast : Args -> result VariableValue := unary (fun v =>
  match v with
  | VList l => match l with [] => Ok VNull | _ => or_panics (l !! (length l - 1)%nat) end
  | VNull => Ok VNull
  | _ => Err (InvalidArgument 0)
  end).

(** No value equals null but null. *)
Definition Coalesce (args : Args) : result VariableValue :=
  Ok match List.find (fun v => match v with VNull => false | _ => true end) args with Some v => v | None => VNull end.

Definition NullIf (args : Args) : result VariableValue :=
  match args with
  | [a; b] => eq ← or_panics (value_eq a b); Ok (if (eq : bool) then VNull else a)
  | _ => Err InvalidArgumentCount
  end.

Definition Timestamp (now : option Z) : Args -> result VariableValue := nullary
  match now with
  | Some millis => if i64_max <? millis then Err OverflowError else Ok (integer millis)
  | None => Ok (integer 0)
  end.

(** ** Numbers (numeric, trigonometric) *)

(** The rule of the functions that answer a float. *)
Definition on_float (f : f64 -> f64) (v : VariableValue) : result VariableValue :=
  match v with
  | VNull => Ok VNull
  | VInteger n => n ← int_of n; finite (f (f64_of_Z n))
  | VFloat x => x ← float_of x; finite (f x)
  | _ => Err (InvalidArgument 0)
  end.

Definition Abs : Args -> result VariableValue := unary (fun v =>
  match v with
  | VNull => Ok VNull
  | VInteger n => i ← int_of n; Ok (integer (as_i64 (Z.abs i)))
  | VFloat x => x ← float_of x; finite (f64_abs x)
  | _ => Err (InvalidArgument 0)
  end).

(** An integer is not rounded. *)
Definition rounding (f : f64 -> f64) (v : VariableValue) : result VariableValue :=
  match v with
  | VNull => Ok VNull
  | VInteger n => n ← int_of n; finite (f64_of_Z n)
  | VFloat x => x ← float_of x; finite (f x)
  | _ => Err (InvalidArgument 0)
  end.
Definition Ceil : Args -> result VariableValue := unary (rounding f64_ceil).
Definition Floor : Args -> result VariableValue := unary (rounding f64_floor).

Definition Sign : Args -> result VariableValue := unary (fun v =>
  match v with
  | VNull => Ok VNull
  | VInteger n => i ← int_of n; Ok (integer (match i ?= 0 with Gt => 1 | Lt => -1 | Eq => 0 end))
  | VFloat x =>
      x ← float_of x;
      Ok (integer (if f64_ltb f64_zero x then 1 else if f64_ltb x f64_zero then -1 else 0))
  | _ => Err (InvalidArgument 0)
  end).

Definition Rand (draw : f64) : Args -> result VariableValue := nullary (finite draw).
Definition RandomUUID (uuid : string) : Args -> result VariableValue := nullary (Ok (VString uuid)).

Definition Cos : Args -> result VariableValue := unary (on_float f64_cos).
Definition Sin : Args -> result VariableValue := unary (on_float f64_sin).
Definition Tan : Args -> result VariableValue := unary (on_float f64_tan).
Definition Degrees : Args -> result VariableValue :=
  unary (on_float (fun x => f64_mul x (f64_div (f64_of_Z 180) f64_pi))).
Definition Radians : Args -> result VariableValue :=
  unary (on_float (fun x => f64_mul x (f64_div f64_pi (f64_of_Z 180)))).
Definition Pi : Args -> result VariableValue := nullary (Ok (VFloat f64_pi)).

(** *** round (numeric/numeric_round.rs) *)

Definition is_half (x : f64) : bool := f64_eqb (f64_fract x) f64_half.
Definition is_minus_half (x : f64) : bool := f64_eqb (f64_fract x) (f64_neg f64_half).

(** To a whole number; halves below zero towards zero. *)
Definition round_whole (x : f64) : f64 := if is_minus_half x then f64_truncate x else f64_round x.

(** [10^p], the number scaled by it, and back; a number the scaling would
    take beyond the greatest float is answered as it is. *)
Definition scaled (x : f64) (p : Z) (rounded : f64 -> f64) : result VariableValue :=
  let multiplier := powi (f64_of_Z 10) (as_i32 p) in
  if f64_ltb (f64_div f64_max multiplier) x then Ok (VFloat x)
  else finite (f64_div (rounded (f64_mul x multiplier)) multiplier).

Definition round_tie_up_negative (x : f64) : f64 :=
  if f64_is_sign_negative x && is_minus_half x then f64_truncate x else f64_round x.

Definition half_up (x : f64) : f64 :=
  if is_half x then f64_add (f64_truncate x) (f64_of_Z 1)
  else if is_minus_half x then f64_sub (f64_truncate x) (f64_of_Z 1) else f64_round x.
Definition half_down (x : f64) : f64 :=
  if is_half x || is_minus_half x then f64_truncate x else f64_round x.
Definition is_even (x : f64) : bool := f64_eqb (f64_rem x (f64_of_Z 2)) f64_zero.
Definition half_even (x : f64) : f64 :=
  let t := f64_truncate x in
  if is_half x then if is_even t then t else f64_add t (f64_of_Z 1)
  else if is_minus_half x then if is_even t then t else f64_sub t (f64_of_Z 1) else f64_round x.

Definition round_mode (mode : string) (x : f64) (p : Z) : result VariableValue :=
  let positive := negb (f64_is_sign_negative x) in
  let p32 := as_i32 p in
  if String.eqb mode "UP" then finite (if positive then round_up x p32 else round_down x p32)
  else if String.eqb mode "DOWN" then finite (if positive then round_down x p32 else round_up x p32)
  else if String.eqb mode "CEILING" then finite (round_up x p32)
  else if String.eqb mode "FLOOR" then finite (round_down x p32)
  else if String.eqb mode "HALF_UP" then scaled x p half_up
  else if String.eqb mode "HALF_DOWN" then scaled x p half_down
  else if String.eqb mode "HALF_EVEN" then scaled x p half_even
  else Err (InvalidArgument 2).

Definition is_null (v : VariableValue) : bool := match v with VNull => true | _ => false end.

Definition Round (args : Args) : result VariableValue :=
  if (length args =? 0)%nat || (3 <? length args)%nat then Err InvalidArgumentCount
  else if existsb is_null args then Ok VNull
  else
    match args with
    | [VInteger n] => n ← int_of n; finite (f64_of_Z n)
    | [VFloat x] => x ← float_of x; finite (round_whole x)
    | [_] => Err (InvalidArgument 0)
    | [VFloat x; VInteger p] => p ← int_of p; x ← float_of x; scaled x p round_tie_up_negative
    | [VInteger n; VInteger _] => n ← int_of n; Ok (integer n)
    | [VFloat _; _] | [VInteger _; _] => Err (InvalidArgument 1)
    | [_; _] => Err (InvalidArgument 0)
    | [VFloat x; VInteger p; VString m] =>
        let mode := to_uppercase m in
        if contains mode ["UP"; "DOWN"; "CEILING"; "FLOOR"; "HALF_UP"; "HALF_DOWN"; "HALF_EVEN"]%string
        then x ← float_of x; p ← int_of p; round_mode mode x p
        else Err (InvalidArgument 2)
    | [VInteger n; VInteger _; VInteger _] => n ← int_of n; Ok (integer n)
    | _ => Err (InvalidArgument 2)
    end.

(** ** Lists (list, drasi) *)

(** [(start..end_).step_by(step)] for a step that is not zero; every step
    leaves fewer numbers before the end. *)
Fixpoint step_by (fuel : nat) (start end_ step : Z) : list Z :=
  match fuel with
  | 0%nat => []
  | Datatypes.S fuel => if start <? end_ then start :: step_by fuel (start + step) end_ step else []
  end.

(** [step as usize]; a step of zero panics. *)
Definition range_list (start end_ step : Z) : result VariableValue :=
  let stop := as_i64 (end_ + 1) in
  if as_u64 step =? 0 then Panic
  else Ok (VList (map integer (step_by (Z.to_nat (stop - start)) start stop (as_u64 step)))).

Definition Range (args : Args) : result VariableValue :=
  match args with
  | [VInteger start; VInteger end_] => s ← int_of start; e ← int_of end_; range_list s e 1
  | [VInteger _; _] => Err (InvalidArgument 1)
  | [_; _] => Err (InvalidArgument 0)
  | [VInteger start; VInteger end_; VInteger step] =>
      s ← int_of start; e ← int_of end_; k ← int_of step; range_list s e k
  | [VInteger _; VInteger _; _] => Err (InvalidArgument 2)
  | [_; VInteger _; VInteger _] => Err (InvalidArgument 0)
  | [VInteger _; _; VInteger _] => Err (InvalidArgument 1)
  | [_; _; _] => Err (InvalidArgument 0)
  | _ => Err InvalidArgumentCount
  end.

Definition Tail : Args -> result VariableValue := unary (fun v =>
  match v with
  | VList l => Ok match l with [] => VNull | _ :: l => VList l end
  | VNull => Ok VNull
  | _ => Err (InvalidArgument 0)
  end).

(** [seen.contains(&value)] of a [HashSet]: values are compared only where
    their hashes meet. *)
Fixpoint seen_contains (seen : Args) (value : VariableValue) : result bool :=
  match seen with
  | [] => Ok false
  | x :: seen =>
      if same_bucket (value_hash value) (value_hash x)
      then eq ← or_panics (value_eq value x); if (eq : bool) then Ok true else seen_contains seen value
      else seen_contains seen value
  end.

(** The values kept so far are those seen. *)
Definition distinct_step (kept : Args) (value : VariableValue) : result Args :=
  known ← seen_contains kept value; Ok (if (known : bool) then kept else kept ++ [value]).

Definition Distinct : Args -> result VariableValue := unary (fun v =>
  match v with
  | VList l => r ← out_foldl distinct_step [] l; Ok (VList r)
  | VNull => Ok VNull
  | _ => Err (InvalidArgument 0)
  end).

Fixpoint index_of (i : Z) (l : Args) (value : VariableValue) : result Z :=
  match l with
  | [] => Ok (-1)
  | item :: l => eq ← or_panics (value_eq item value); if (eq : bool) then Ok i else index_of (i + 1) l value
  end.

Definition IndexOf (args : Args) : result VariableValue :=
  match args with
  | [VNull; _] | [_; VNull] => Ok VNull
  | [VList l; value] => i ← index_of 0 l value; Ok (integer i)
  | [_; _] => Err (InvalidArgument 0)
  | _ => Err InvalidArgumentCount
  end.

Definition Insert (args : Args) : result VariableValue :=
  match args with
  | [VNull; _; _] | [_; VNull; _] => Ok VNull
  | [VList l; VInteger idx; value] =>
      index ← or_fail (InvalidArgument 1) (integer_as_i64 idx);
      if (index <? 0) || (Z.of_nat (length l) <? index) then Err (InvalidArgument 1)
      else Ok (VList (take (Z.to_nat index) l ++ value :: drop (Z.to_nat index) l))
  | [VList _; _; _] => Err (InvalidArgument 1)
  | [_; _; _] => Err (InvalidArgument 0)
  | _ => Err InvalidArgumentCount
  end.

(** *** The partial order of values (variable_value/partial_eq.rs) *)

(** [partial_cmp] of floats, and of optional numbers: none is the least. *)
Definition f64_partial_cmp (x y : f64) : option comparison := SFcompare x y.
Definition option_partial_cmp {A} (cmp : A -> A -> option comparison) (x y : option A) : option comparison :=
  match x, y with
  | Some x, Some y => cmp x y
  | Some _, None => Some Gt
  | None, Some _ => Some Lt
  | None, None => Some Eq
  end.

Definition bool_cmp (a b : bool) : comparison :=
  match a, b with true, false => Gt | false, true => Lt | _, _ => Eq end.

Definition is_temporal (v : VariableValue) : bool :=
  match v with
  | VDate _ | VLocalTime _ | VLocalDateTime _ | VZonedTime _ | VZonedDateTime _ | VDuration _ => true
  | _ => false
  end.
Definition is_number (v : VariableValue) : bool := match v with VInteger _ | VFloat _ => true | _ => false end.

(** A value of a temporal type is below those of the later ones, of text and
    of numbers. *)
Definition temporal_rank (v : VariableValue) : option Z :=
  match v with
  | VDate _ => Some 0 | VLocalTime _ => Some 1 | VLocalDateTime _ => Some 2
  | VZonedTime _ => Some 3 | VZonedDateTime _ => Some 4 | VDuration _ => Some 5
  | _ => None
  end.

Definition partial_cmp (a b : VariableValue) : option comparison :=
  match a, b with
  | VInteger x, VInteger y =>
      option_partial_cmp (fun x y => Some (x ?= y)) (integer_as_i64 x) (integer_as_i64 y)
  | VFloat x, VFloat y => option_partial_cmp f64_partial_cmp (float_as_f64 x) (float_as_f64 y)
  | VInteger x, VFloat y => option_partial_cmp f64_partial_cmp (f64_of_Z <$> integer_as_i64 x) (float_as_f64 y)
  | VFloat x, VInteger y => option_partial_cmp f64_partial_cmp (float_as_f64 x) (f64_of_Z <$> integer_as_i64 y)
  | (VInteger _ | VFloat _), (VString _ | VNull | VBool _) => Some Gt
  | (VInteger _ | VFloat _), _ => if is_temporal b then Some Gt else None
  | VString s1, VString s2 => Some (String.compare s1 s2)
  | VString _, (VNull | VBool _) => Some Gt
  | VString _, (VInteger _ | VFloat _) => Some Lt
  | VString _, _ => if is_temporal b then Some Gt else None
  | VNull, VNull => Some Eq
  | VNull, (VBool _ | VFloat _ | VInteger _) => Some Lt
  | VNull, _ => if is_temporal b then Some Lt else None
  | VBool b1, VBool b2 => Some (bool_cmp b1 b2)
  | VBool _, (VString _ | VFloat _ | VInteger _) => Some Lt
  | VBool _, _ => if is_temporal b then Some Lt else None
  | VDate d1, VDate d2 => Some (date_cmp d1 d2)
  | VLocalTime t1, VLocalTime t2 => Some (time_cmp t1 t2)
  | VLocalDateTime t1, VLocalDateTime t2 => Some (datetime_cmp t1 t2)
  | VZonedTime t1, VZonedTime t2 => Some (time_cmp (zt_time t1) (zt_time t2))
  | VZonedDateTime t1, VZonedDateTime t2 => Some (fixed_cmp (zdt_datetime t1) (zdt_datetime t2))
  | VDuration d1, VDuration d2 => Some (delta_cmp (d_duration d1) (d_duration d2))
  | _, (VString _ | VFloat _ | VInteger _) => if is_temporal a then Some Lt else None
  | _, _ =>
      match temporal_rank a, temporal_rank b with
      | Some r1, Some r2 => if r1 <? r2 then Some Lt else None
      | _, _ => None
      end
  end.

(** [a > b] and [a < b] *)
Definition value_gt (a b : VariableValue) : bool := match partial_cmp a b with Some Gt => true | _ => false end.
Definition value_lt (a b : VariableValue) : bool := match partial_cmp a b with Some Lt => true | _ => false end.

(** The element the loop ends with, from the first one on; nulls are skipped. *)
Definition extreme_of (better : VariableValue -> VariableValue -> bool) (l : Args) : result VariableValue :=
  first ← or_panics (head l);
  Ok (fold_left (fun best v => if is_null v then best else if better v best then v else best) l first).

Definition list_extreme (better : VariableValue -> VariableValue -> bool) (v : VariableValue) : result VariableValue :=
  match v with
  | VList l => extreme_of better l
  | VElement _ | VElementMetadata _ | VElementReference _ | VExpression _ | VListRange _ | VAwaiting =>
      Err (InvalidArgument 0)
  | _ => Ok v
  end.

Definition DrasiMax (args : Args) : result VariableValue :=
  match args with
  | [v] | [v; _] => list_extreme value_gt v
  | _ => Err InvalidArgumentCount
  end.
Definition DrasiMin : Args -> result VariableValue := unary (list_extreme value_lt).

(** What is no number does not count. *)
Fixpoint clean_numbers (l : Args) : result (list f64) :=
  match l with
  | [] => Ok []
  | VInteger i :: l => i ← int_of i; r ← clean_numbers l; Ok (f64_of_Z i :: r)
  | VFloat x :: l => x ← float_of x; r ← clean_numbers l; Ok (x :: r)
  | _ :: l => clean_numbers l
  end.

Definition DrasiStdevP : Args -> result VariableValue := unary (fun v =>
  match v with
  | VNull => Ok VNull
  | VList l =>
      cleaned_list ← clean_numbers l;
      m ← or_panics (mean cleaned_list);
      stdevp ← or_panics (population_standard_deviation cleaned_list m);
      Ok (VFloat stdevp)
  | _ => Err (InvalidArgument 0)
  end).

(** *** reduce (list/reduce.rs; expressions/mod.rs): an evaluator of its own,
    with no functions *)

Section reduce.
Context (ev : ExpressionEvaluationContext -> Expression -> SM S EvaluationError VariableValue).

Definition evaluate_assignment (ctx : ExpressionEvaluationContext) (e : Expression) :
    SM S FunctionEvaluationError (string * VariableValue) :=
  match e with
  | Binary Eq_ (Unary (Identifier ident)) val =>
      v ← sm_map_err (fun _ => InvalidType "valid identifier expression") (ev ctx val); mret (ident, v)
  | Binary Eq_ (Unary _) _ => sm_err (InvalidType "Identifier expression")
  | Binary Eq_ _ _ => sm_err (InvalidType "Unary expression")
  | Binary _ _ _ => sm_err (InvalidType "Eq expression")
  | _ => sm_err (InvalidType "Binary expression")
  end.

Definition reduce_item (ctx : ExpressionEvaluationContext) (item_identifier accumulator : string)
    (filter map_expression : option Expression) (acc : QueryVariables * VariableValue) (item : VariableValue) :
    SM S EvaluationError (QueryVariables * VariableValue) :=
  let with_item vars := bt_insert item_identifier item vars in
  let '(vars, result) := acc in
  let vars := match filter with Some _ => with_item vars | None => vars end in
  keep ← (match filter with
          | Some f => v ← ev (new_context vars (clock ctx)) f; mret (predicate_value v)
          | None => mret true
          end);
  match map_expression with
  | Some m =>
      if (keep : bool) then
        let vars := with_item vars in
        v ← ev (new_context vars (clock ctx)) m;
        mret (bt_insert accumulator v vars, v)
      else mret (vars, result)
  | None => mret (vars, result)
  end.

Definition reduce_iterator_expression (ctx : ExpressionEvaluationContext) (item_identifier : string)
    (list_expression : Expression) (filter map_expression : option Expression) (accumulator : string) :
    SM S EvaluationError VariableValue :=
  items ← ev ctx list_expression;
  match items with
  | VList items =>
      r ← sm_foldl (reduce_item ctx item_identifier accumulator filter map_expression)
            (variables ctx, default VNull (bt_get accumulator (variables ctx))) items;
      mret r.2
  | _ => sm_err (EvalInvalidType "List")
  end.

Definition reduce (ctx : ExpressionEvaluationContext) (call : FunctionCall) : SM S FunctionError VariableValue :=
  sm_map_err (fun e => {| function_name := call_name call; error := e |})
    match call_args call with
    | [initializer; IteratorExpression item list_expression filter map_expression] =>
        a ← evaluate_assignment ctx initializer;
        let ctx := new_context (bt_insert a.1 a.2 (variables ctx)) (clock ctx) in
        sm_map_err (fun _ => InvalidType "Valid reduce expression")
          (reduce_iterator_expression ctx item list_expression filter map_expression a.1)
    | [_; _] => sm_err (InvalidArgument 1)
    | _ => sm_err InvalidArgumentCount
    end.
End reduce.

(** ** Elements (metadata.rs) *)

Definition ElementId : Args -> result VariableValue := unary (fun v =>
  match v with
  | VElement e => Ok (VString (element_id (get_reference e)))
  | _ => Err (InvalidArgument 0)
  end).

Definition from_epoch_millis (epoch_millis : Z) : result ZonedDateTime :=
  datetime ← or_panics (timestamp_millis_opt epoch_millis);
  Ok {| zdt_datetime := datetime; zdt_timezone_name := None |}.

Definition ChangeDateTime : Args -> result VariableValue := unary (fun v =>
  match v with
  | VElement e => z ← from_epoch_millis (as_i64 (effective_from (get_metadata e))); Ok (VZonedDateTime z)
  | _ => Err (InvalidArgument 0)
  end).
End scalar.

(** ** The registry (functions-cypher/src/lib.rs) *)

Section registry.
Context {C : Chrono} {O : ChronoOps} {H : Hashers} {U : UnicodeCase}.
Context {S : Type} `{!AccumulatorIndex S} `{!LazySortedSetStore S} {SL : ScalarLibs S}.

Notation Args := (list VariableValue).
Notation pure f := (Scalar (scalar f)).

(** A function that reads the world of its call *)
Definition drawing {A} (draw : S -> A) (f : A -> Args -> outcome FunctionEvaluationError VariableValue) : Function (S:=S) :=
  Scalar (fun ctx call args s => scalar (f (draw s)) ctx call args s).

Definition register_all (l : list (string * Function)) (registry : gmap string (Function (S:=S))) :
    gmap string (Function (S:=S)) :=
  fold_left (fun r p => register_function p.1 p.2 r) l registry.

Definition register_text_functions : gmap string (Function (S:=S)) -> gmap string (Function (S:=S)) := register_all [
  ("toUpper", pure ToUpper); ("toLower", pure ToLower); ("trim", pure Trim); ("ltrim", pure LTrim);
  ("rtrim", pure RTrim); ("reverse", pure Reverse); ("left", pure Left); ("right", pure Right);
  ("replace", pure Replace); ("split", pure Split); ("substring", pure Substring);
  ("toString", pure ToString); ("toStringOrNull", pure ToStringOrNull);
  ("randomUUID", drawing uuid_new_v4 RandomUUID) ]%string.

Definition register_numeric_functions : gmap string (Function (S:=S)) -> gmap string (Function (S:=S)) := register_all [
  ("abs", pure Abs); ("ceil", pure Ceil); ("floor", pure Floor); ("rand", drawing thread_rng_gen Rand);
  ("round", pure Round); ("sign", pure Sign) ]%string.

Definition register_trigonometric_functions : gmap string (Function (S:=S)) -> gmap string (Function (S:=S)) := register_all [
  ("cos", pure Cos); ("degrees", pure Degrees); ("pi", pure Pi); ("radians", pure Radians);
  ("sin", pure Sin); ("tan", pure Tan) ]%string.

Definition register_cypher_scalar_functions : gmap string (Function (S:=S)) -> gmap string (Function (S:=S)) := register_all [
  ("char_length", pure CharLength); ("character_length", pure CharLength); ("size", pure Size);
  ("toInteger", pure ToInteger); ("toIntegerOrNull", pure ToIntegerOrNull);
  ("toFloat", pure ToFloat); ("toFloatOrNull", pure ToFloatOrNull);
  ("toBoolean", pure ToBoolean); ("toBooleanOrNull", pure ToBooleanOrNull);
  ("coalesce", pure Coalesce); ("nullIf", pure NullIf); ("isEmpty", pure IsEmpty);
  ("head", pure Head); ("last", pure CypherLast); ("timestamp", drawing system_time_millis Timestamp) ]%string.

(** [reduce] evaluates with functions of its own: none. *)
Definition reduce_function (fuel : nat) : Function (S:=S) :=
  LazyScalar (fun _ => reduce (evaluate_expression ∅ fuel)).

Definition register_list_functions (fuel : nat) : gmap string (Function (S:=S)) -> gmap string (Function (S:=S)) :=
  register_all [
  ("reduce", reduce_function fuel); ("tail", pure Tail); ("range", pure Range);
  ("coll.distinct", pure Distinct); ("coll.indexOf", pure IndexOf); ("coll.insert", pure Insert) ]%string.

Definition register_metadata_functions : gmap string (Function (S:=S)) -> gmap string (Function (S:=S)) := register_all [
  ("elementId", pure ElementId); ("drasi.changeDateTime", pure ChangeDateTime) ]%string.

Definition register_drasi_functions : gmap string (Function (S:=S)) -> gmap string (Function (S:=S)) := register_all [
  ("drasi.listMax", pure DrasiMax); ("drasi.listMin", pure DrasiMin); ("drasi.stdevp", pure DrasiStdevP) ]%string.

(** The scalar part of [register_default_cypher_functions] *)
Definition register_scalar_functions (fuel : nat) (registry : gmap string (Function (S:=S))) :
    gmap string (Function (S:=S)) :=
  register_drasi_functions (register_metadata_functions (register_list_functions fuel
    (register_cypher_scalar_functions (register_trigonometric_functions (register_numeric_functions
      (register_text_functions registry)))))).
End registry.
