(* ===== verification/ScalarFacts.v ===== *)
(** * Correctness of the scalar functions

    What the functions on lists and texts answer, told without their loops,
    and where they panic. *)

From Stdlib Require Import SpecFloat Sorted.
From stdpp Require Import pretty.
From S2P Require Import Prelude Text BTree Floats Hashing Ast Models Errors Values ChronoOps Temporal Operators.
From S2P Require Import ResultIndex LazySortedSet Aggregation Contexts Expressions Json ScalarFunctions.

Lemma integer_as_from i : i64_ok i -> integer_as_i64 (integer_from_i64 i) = Some i.
Proof.
  unfold i64_ok, integer_from_i64, integer_as_i64. intros Hi. destruct (Z.ltb_spec i 0); [done|].
  by replace (i <=? i64_max) with true by lia.
Qed.

(** ** range *)

Lemma step_by_spec fuel start end_ step x :
  0 < step -> (Z.to_nat (end_ - start) <= fuel)%nat ->
  x ∈ step_by fuel start end_ step <-> exists n, 0 <= n /\ x = start + n * step /\ x < end_.
Proof.
  intros Hstep. revert start. induction fuel as [|fuel IH]; intros start Hf; cbn.
  - split; [by intros ?%elem_of_nil|]. intros (n & Hn & -> & Hx). nia.
  - destruct (Z.ltb_spec start end_) as [Hs|Hs].
    + rewrite elem_of_cons, IH by lia. split.
      * intros [->|(n & Hn & -> & Hx)]; [exists 0; lia|]. exists (n + 1). lia.
      * intros (n & Hn & -> & Hx). destruct (decide (n = 0)) as [->|]; [left; lia|].
        right. exists (n - 1). lia.
    + split; [by intros ?%elem_of_nil|]. intros (n & Hn & -> & Hx). nia.
Qed.

Lemma step_by_sorted fuel start end_ step :
  0 < step -> Sorted Z.lt (step_by fuel start end_ step).
Proof.
  intros Hstep. revert start. induction fuel as [|fuel IH]; intros start; cbn; [constructor|].
  destruct (start <? end_); [|constructor]. constructor; [apply IH|].
  destruct fuel as [|fuel]; cbn; [constructor|]. destruct (start + step <? end_); constructor. lia.
Qed.

Section scalar_facts.
Context {C : Chrono} {O : ChronoOps} {H : Hashers} {U : UnicodeCase}.
Context {S : Type} {SL : ScalarLibs S}.

Notation Args := (list VariableValue).

Lemma int_of_integer i : i64_ok i -> int_of (integer_from_i64 i) = Ok i.
Proof. intros Hi. unfold int_of. by rewrite integer_as_from. Qed.

(** [range(start, end, step)] with a positive step lists, in ascending
    order, the numbers that lie a whole number of steps above the start and
    not above the end. Below the greatest [i64] the exclusive end the code
    counts to does not wrap around. *)
Theorem range_lists_progression start end_ step :
  i64_ok start -> i64_ok end_ -> i64_ok step -> 0 < step -> end_ < i64_max ->
  exists l, Range [integer start; integer end_; integer step] = Ok (VList (map integer l)) /\
            (step = 1 -> Range [integer start; integer end_] = Ok (VList (map integer l))) /\
            Sorted Z.lt l /\
            forall x, x ∈ l <-> exists n, 0 <= n /\ x = start + n * step /\ x <= end_.
Proof.
  intros Hs He Hk Hpos Hend. unfold i64_ok in *.
  exists (step_by (Z.to_nat (end_ + 1 - start)) start (end_ + 1) step).
  assert (range_list start end_ step = Ok (VList (map integer (step_by (Z.to_nat (end_ + 1 - start)) start (end_ + 1) step)))) as Hr.
  { unfold range_list. rewrite as_i64_small by (unfold i64_ok; lia).
    rewrite as_u64_small by (unfold u64_ok, u64_max, i64_max in *; lia). by destruct (Z.eqb_spec step 0); [lia|]. }
  split_and!.
  - unfold Range, integer. rewrite !int_of_integer by (unfold i64_ok; lia). exact Hr.
  - intros ->. unfold Range, integer. rewrite !int_of_integer by (unfold i64_ok; lia). exact Hr.
  - by apply step_by_sorted.
  - intros x. rewrite step_by_spec by lia. split; intros (n & ? & ? & ?); exists n; lia.
Qed.

(** ** distinct *)

(** Two values the hash set takes for the same. *)
Definition taken_for (a b : VariableValue) : Prop :=
  same_bucket (value_hash a) (value_hash b) = true /\ value_eq a b = Some true.

(** The comparison of the values that meet does not panic. *)
Definition comparable (l : Args) : Prop :=
  forall a b, a ∈ l -> b ∈ l -> same_bucket (value_hash a) (value_hash b) = true -> value_eq a b <> None.

Lemma seen_contains_spec seen v :
  (forall x, x ∈ seen -> same_bucket (value_hash v) (value_hash x) = true -> value_eq v x <> None) ->
  exists b, seen_contains seen v = Ok b /\ (b = true <-> exists x, x ∈ seen /\ taken_for v x).
Proof.
  induction seen as [|x seen IH]; intros Hc; cbn.
  - exists false. split; [done|]. split; [done|]. intros (x & ?%elem_of_nil & _). done.
  - destruct IH as (b & Hb & Hiff); [intros; apply Hc; [set_solver|done]|].
    destruct (same_bucket (value_hash v) (value_hash x)) eqn:Hs.
    + destruct (value_eq v x) as [[]|] eqn:He; cbn.
      * exists true. split; [done|]. split; [|done]. intros _. exists x. split; [set_solver|]. by split.
      * exists b. split; [done|]. rewrite Hiff. unfold taken_for. split; intros (y & Hy & Ht); exists y.
        -- split; [set_solver|done].
        -- apply elem_of_cons in Hy as [->|Hy]; [|done]. destruct Ht. congruence.
      * by destruct (Hc x); [set_solver|..].
    + exists b. split; [done|]. rewrite Hiff. unfold taken_for. split; intros (y & Hy & Ht); exists y.
      * split; [set_solver|done].
      * apply elem_of_cons in Hy as [->|Hy]; [|done]. destruct Ht. congruence.
Qed.

(** No value of the list is taken for an earlier one. *)
Inductive apart : Args -> Prop :=
| apart_nil : apart []
| apart_snoc l v : apart l -> (forall x, x ∈ l -> ~ taken_for v x) -> apart (l ++ [v]).

Lemma distinct_steps l kept :
  comparable (kept ++ l) -> apart kept ->
  exists r, out_foldl distinct_step kept l = Ok (kept ++ r) /\ r `sublist_of` l /\ apart (kept ++ r) /\
            forall v, v ∈ l -> v ∈ kept ++ r \/ exists x, x ∈ kept ++ r /\ taken_for v x.
Proof.
  revert kept. induction l as [|v l IH]; intros kept Hc Ha; cbn [out_foldl].
  { exists []. rewrite app_nil_r. split; [done|]. split; [constructor|]. split; [done|]. intros v ?%elem_of_nil. done. }
  destruct (seen_contains_spec kept v) as (b & Hb & Hiff); [intros; apply Hc; [set_solver..|done]|].
  assert (distinct_step kept v = Ok (if b then kept else kept ++ [v])) as -> by (unfold distinct_step; by rewrite Hb).
  rewrite out_bind_ok. destruct b.
  - destruct (IH kept) as (r & Hr & Hsub & Har & Hall); [|done|].
    { intros x y Hx Hy. apply Hc; set_solver. }
    exists r. split; [done|]. split; [by constructor|]. split; [done|]. intros w [->|Hw]%elem_of_cons; [|by apply Hall].
    right. destruct (proj1 Hiff eq_refl) as (x & Hx & Ht). exists x. split; [set_solver|done].
  - destruct (IH (kept ++ [v])) as (r & Hr & Hsub & Har & Hall).
    { intros x y Hx Hy. apply Hc; set_solver. }
    { constructor; [done|]. intros x Hx Ht. assert (false = true) by (apply Hiff; eauto). done. }
    exists (v :: r). rewrite <- app_assoc in *. split; [done|]. split; [by constructor|]. split; [done|].
    intros w [->|Hw]%elem_of_cons; [left; set_solver|by apply Hall].
Qed.

(** [coll.distinct] keeps of a list a sublist in which no value is taken
    for an earlier one, and every value of the list is in it or taken for one
    in it; a longer list only adds to the end of the answer, so that first
    occurrences are kept. *)
Theorem distinct_keeps_first l more :
  comparable (l ++ more) ->
  exists r r', Distinct [VList l] = Ok (VList r) /\ Distinct [VList (l ++ more)] = Ok (VList (r ++ r')) /\
            r `sublist_of` l /\ r' `sublist_of` more /\ apart (r ++ r') /\
            forall v, v ∈ l -> v ∈ r \/ exists x, x ∈ r /\ taken_for v x.
Proof.
  intros Hc. destruct (distinct_steps l []) as (r & Hr & Hsub & Ha & Hall); [|constructor|].
  { intros x y Hx Hy. apply Hc; set_solver. }
  destruct (distinct_steps more r) as (r' & Hr' & Hsub' & Ha' & _); [|done|].
  { assert (r ⊆ l) as Hin by (intros x; by intros ?; eapply elem_of_sublist). intros x y Hx Hy. apply Hc; set_solver. }
  exists r, r'. unfold Distinct, unary. cbn in Hr. rewrite Hr. split; [done|]. split; [|by split_and!].
  by rewrite out_foldl_app, Hr, out_bind_ok, Hr'.
Qed.

(** ** split and replace *)

(** [C33] [split] by a separator that is not empty cuts a text into parts that
    hold no separator and give the text when they are put together with it;
    [replace] puts the same parts together with the other text. *)
Theorem split_round_trip original separator replacement :
  separator <> EmptyString ->
  exists parts, Split [VString original; VString separator] = Ok (VList (map VString parts)) /\
    join_text separator parts = original /\
    (forall part, part ∈ parts -> ~ occurs separator part) /\
    Replace [VString original; VString separator; VString replacement] = Ok (VString (join_text replacement parts)).
Proof.
  intros Hne. destruct (split_text_parts separator original Hne) as [Hj Hp].
  exists (split_text separator original). unfold Split, Replace. apply String.eqb_neq in Hne as Hb.
  by rewrite Hb, replace_is_join.
Qed.

Definition delimits (delimiters : list string) (c : string) : bool := existsb (fun d => contains c (chars d)) delimiters.

Lemma split_chars_spec delimiters l words current :
  let '(words', current') := fold_left (split_char delimiters) l (words, current) in
  exists texts, words' = words ++ map VString texts /\
    concat_text texts +:+ current' = current +:+ concat_text (List.filter (fun c => negb (delimits delimiters c)) l) /\
    Forall (fun w => w <> EmptyString) texts.
Proof.
  revert words current. induction l as [|c l IH]; intros words current.
  { cbn. exists []. rewrite app_nil_r, append_nil_r. by split_and!. }
  cbn [fold_left List.filter]. unfold split_char at 2. fold (delimits delimiters c).
  destruct (delimits delimiters c); cbn [negb].
  - destruct (String.eqb_spec current EmptyString) as [->|Hne]; [apply IH|].
    specialize (IH (words ++ [VString current]) EmptyString).
    destruct (fold_left (split_char delimiters) l _) as [words' current']. destruct IH as (texts & -> & Heq & Hall).
    exists (current :: texts). rewrite <- app_assoc. split; [done|]. split; [|by constructor].
    cbn. fold (concat_text texts). by rewrite append_assoc, Heq.
  - specialize (IH words (current +:+ c)).
    destruct (fold_left (split_char delimiters) l _) as [words' current']. destruct IH as (texts & -> & Heq & Hall).
    exists texts. split; [done|]. split; [|done]. rewrite Heq. cbn. by rewrite append_assoc.
Qed.

(** Splitting at characters loses them and nothing else, and leaves no empty
    word. *)
Lemma split_words_spec delimiters original :
  starts_char original = true ->
  exists texts, split_words delimiters original = map VString texts /\ Forall (fun w => w <> EmptyString) texts /\
    chars (concat_text texts) = List.filter (fun c => negb (delimits delimiters c)) (chars original).
Proof.
  intros Hs. pose proof (split_chars_spec delimiters (chars original) [] EmptyString) as Hf.
  rewrite append_nil in Hf. set (rest := List.filter _ _) in *.
  assert (chars (concat_text rest) = rest) as Hrest.
  { apply chars_unique, List.Forall_forall. intros c [Hin _]%List.filter_In.
    by eapply List.Forall_forall in Hin; [|apply chars_groups]. }
  unfold split_words. destruct (fold_left _ _ _) as [words current]. destruct Hf as (texts & -> & Heq & Hall).
  destruct (String.eqb_spec current EmptyString) as [->|Hne].
  - exists texts. rewrite append_nil_r in Heq. by rewrite Heq, Hrest.
  - exists (texts ++ [current]). rewrite map_app. split; [done|]. split; [by apply Forall_app; repeat constructor|].
    rewrite concat_text_app. cbn. by rewrite append_nil_r, Heq, Hrest.
Qed.

(** ** Texts of numbers and lists *)

(** The text of an integer within [i64] is read back as that integer. *)
Theorem integer_text_round_trip n i :
  integer_ok n -> integer_as_i64 n = Some i ->
  exists text, ToString [VInteger n] = Ok (VString text) /\ ToInteger [VString text] = Ok (VInteger n) /\
    ToIntegerOrNull [VString text] = Ok (VInteger n) /\ ToFloat [VString text] = Ok (VFloat (f64_of_Z i)).
Proof.
  intros Hok Hi. exists (integer_to_string n). split; [done|].
  assert (integer_to_string n = pretty i /\ i64_ok i /\ integer_from_i64 i = n) as (-> & Hr & Hn).
  { unfold integer_ok, u64_ok, i64_ok, integer_from_i64 in *. destruct n as [u|j]; cbn in *.
    - destruct (Z.leb_spec u i64_max); [|done]. injection Hi as <-.
      destruct (Z.ltb_spec u 0); [lia|]. unfold i64_min. split_and!; [done|lia|lia|done].
    - injection Hi as <-. destruct (Z.ltb_spec j 0); [|lia]. unfold i64_max. by split_and!; [|lia..|]. }
  unfold ToInteger, ToIntegerOrNull, ToFloat, unary, to_integer, to_float, integer.
  by rewrite (parse_i64_pretty i Hr), Hn.
Qed.

(** The function that puts the elements together with a separator after each
    and cuts the last one off writes what [Display] writes, the empty list
    included: there the length to keep wraps around and nothing is cut. *)
Lemma list_to_text_displays l :
  text_length (value_to_text (VList l)) < 2 ^ 63 -> list_to_text l = Ok (VString (value_to_text (VList l))).
Proof.
  intros Hlen. cbn [value_to_text] in *. unfold list_to_text.
  assert (forall l r, fold_left (fun r v => (r +:+ value_to_text v) +:+ ", ") l r =
                      r +:+ match l with [] => EmptyString | _ => join_text ", " (map value_to_text l) +:+ ", " end) as Hfold.
  { clear. induction l as [|v l IH]; intros r; cbn [fold_left]; [by rewrite append_nil_r|]. rewrite IH.
    destruct l as [|v' l]; cbn [map]; [cbn [join_text]; by rewrite append_nil_r, append_assoc|].
    rewrite (join_cons ", " (value_to_text v)) by done. by rewrite !append_assoc. }
  rewrite Hfold. destruct l as [|v l]; [done|].
  set (body := join_text ", " (map value_to_text (v :: l))) in *.
  rewrite <- append_assoc. set (text := "[" +:+ body) in *. unfold text_length in Hlen |- *.
  rewrite <- append_assoc in Hlen. fold text in Hlen. rewrite append_length in Hlen |- *. cbn [String.length] in *.
  replace (Z.of_nat (String.length text + 2) - 2) with (Z.of_nat (String.length text)) by lia.
  rewrite as_u64_small by (unfold u64_ok, u64_max; lia). unfold truncate_text, text_length.
  rewrite append_length. cbn [String.length]. destruct (Z.ltb_spec (Z.of_nat (String.length text + 2)) (Z.of_nat (String.length text))); [lia|].
  rewrite Nat2Z.id, boundary_split by done.
  assert (first_bytes (String.length text) (text +:+ ", ") = text) as ->.
  { clear. induction text as [|c text IH]; [done|]. rewrite append_cons. cbn. by rewrite IH. }
  cbn [or_panics]. rewrite out_bind_ok. unfold text. by rewrite append_assoc.
Qed.

(** ** left and right *)

Lemma chars_count s : (length (chars s) <= String.length s)%nat.
Proof.
  induction s as [|c s IH]; [done|]. rewrite chars_cons. destruct (chars s) as [|[|d w] l]; cbn in *; [lia..|].
  destruct (continuation d); cbn; lia.
Qed.

Lemma chars_take s n : starts_char s = true -> chars (concat_text (take n (chars s))) = take n (chars s).
Proof. intros Hs. by apply chars_unique, Forall_take, chars_groups. Qed.

Lemma length_argument_integer n : 0 < n <= i64_max -> length_argument (integer_from_i64 n) = Ok n.
Proof.
  intros Hn. unfold length_argument. rewrite integer_as_from by (unfold i64_ok, i64_min; lia).
  by destruct (Z.leb_spec n 0); [lia|].
Qed.

(** [C34] [left] answers the first characters of a text, as many as asked for.
    [right] counts bytes: it answers the last whole characters, of so many
    bytes, or panics, exactly when the cut falls inside a character. *)
Theorem left_right_cut original n :
  starts_char original = true -> 0 < n <= i64_max ->
  (exists r, Left [VString original; integer n] = Ok (VString r) /\ chars r = take (Z.to_nat n) (chars original)) /\
  match Right [VString original; integer n] with
  | Ok (VString r) =>
      (exists before, chars original = before ++ chars r) /\ text_length r = Z.min n (text_length original)
  | Panic => n <= text_length original /\ is_char_boundary original (Z.to_nat (text_length original - n)) = false
  | _ => False
  end.
Proof.
  intros Hs Hn. unfold Left, Right, integer. rewrite length_argument_integer by done. rewrite !out_bind_ok.
  destruct (Z.ltb_spec (text_length original) n) as [Hlt|Hge].
  - split; [|by split; [exists []|lia]]. exists original. split; [done|]. rewrite take_ge; [done|].
    pose proof (chars_count original). unfold text_length in Hlt. lia.
  - split; [eexists; split; [done|by apply chars_take]|].
    destruct (slice_from original _) as [r|] eqn:Hr; cbn.
    + apply slice_from_chars in Hr as (Hc & Hl & _). split; [by eexists|]. unfold text_length in *. lia.
    + split; [done|]. unfold slice_from in Hr. by destruct (is_char_boundary _ _).
Qed.

(** ** drasi.listMax, drasi.listMin *)

Definition optional_integer (o : option Z) : VariableValue := match o with Some z => integer z | None => VNull end.

Lemma integer_cmp x y : i64_ok x -> i64_ok y -> partial_cmp (integer x) (integer y) = Some (x ?= y).
Proof. intros Hx Hy. unfold integer. cbn. by rewrite !integer_as_from. Qed.

Lemma extreme_integers (better : VariableValue -> VariableValue -> bool) (le : Z -> Z -> Prop) l first :
  Transitive le -> (forall x, le x x) ->
  (forall x y, i64_ok x -> i64_ok y -> if better (integer x) (integer y) then le y x else le x y) ->
  i64_ok first -> (forall z, Some z ∈ l -> i64_ok z) ->
  exists m, fold_left (fun best v => if is_null v then best else if better v best then v else best)
              (map optional_integer l) (integer first) = integer m /\
            (m = first \/ Some m ∈ l) /\ le first m /\ forall z, Some z ∈ l -> le z m.
Proof.
  intros Ht Hr Hb. revert first. induction l as [|[z|] l IH]; intros first Hf Hl; cbn [map fold_left optional_integer].
  - exists first. split_and!; [done|by left|done|]. intros z ?%elem_of_nil. done.
  - cbn [is_null integer]. pose proof (Hb z first ltac:(set_solver) Hf) as Hz.
    assert (forall b, exists m, (b = true -> le first z) -> (b = false -> le z first) ->
      fold_left (fun best v => if is_null v then best else if better v best then v else best)
        (map optional_integer l) (if b then integer z else integer first) = integer m /\
      (m = first \/ Some m ∈ Some z :: l) /\ le first m /\ forall w, Some w ∈ Some z :: l -> le w m) as Hcase.
    { intros b. destruct (IH (if b then z else first)) as (m & Hm & Hin & Hle & Hall); [destruct b; set_solver|set_solver|].
      exists m. intros H1 H2. destruct b; (split; [done|]).
      - split; [destruct Hin as [->|]; set_solver|]. split; [etrans; eauto|]. intros w [[= ->]|Hw]%elem_of_cons; auto.
      - split; [destruct Hin as [->|]; set_solver|]. split; [done|]. intros w [[= ->]|Hw]%elem_of_cons; [etrans; eauto|auto]. }
    destruct (Hcase (better (integer z) (integer first))) as (m & Hm). exists m.
    destruct (better (integer z) (integer first)); by apply Hm.
  - destruct (IH first Hf) as (m & Hm & Hin & Hle & Hall); [set_solver|]. exists m. cbn [is_null].
    split_and!; [done|set_solver|done|]. intros z [|Hz]%elem_of_cons; [done|auto].
Qed.

(** The greatest and the least number of a list that starts with one; nulls
    after it do not count. *)
Lemma list_extremes_of_integers first l :
  i64_ok first -> (forall z, Some z ∈ l -> i64_ok z) ->
  (exists m, DrasiMax [VList (integer first :: map optional_integer l)] = Ok (integer m) /\
     (m = first \/ Some m ∈ l) /\ first <= m /\ forall z, Some z ∈ l -> z <= m) /\
  (exists m, DrasiMin [VList (integer first :: map optional_integer l)] = Ok (integer m) /\
     (m = first \/ Some m ∈ l) /\ m <= first /\ forall z, Some z ∈ l -> m <= z).
Proof.
  intros Hf Hl. split.
  - destruct (extreme_integers value_gt Z.le l first) as (m & Hm & Hrest); [intros ???; lia|lia| |done|done|].
    { intros x y Hx Hy. unfold value_gt. rewrite integer_cmp by done. destruct (Z.compare_spec x y); lia. }
    exists m. split; [|done]. unfold DrasiMax, list_extreme, extreme_of. cbn [head or_panics]. rewrite out_bind_ok.
    f_equal. rewrite <- Hm. cbn [fold_left is_null integer]. by destruct (value_gt (integer first) (integer first)).
  - destruct (extreme_integers value_lt (fun x y => y <= x) l first) as (m & Hm & Hrest); [intros ???; lia|lia| |done|done|].
    { intros x y Hx Hy. unfold value_lt. rewrite integer_cmp by done. destruct (Z.compare_spec x y); lia. }
    exists m. split; [|done]. unfold DrasiMin, unary, list_extreme, extreme_of. cbn [head or_panics]. rewrite out_bind_ok.
    f_equal. rewrite <- Hm. cbn [fold_left is_null integer]. by destruct (value_lt (integer first) (integer first)).
Qed.

(** ** reduce *)

Section reduce_facts.
Context (ev : ExpressionEvaluationContext -> Expression -> SM S EvaluationError VariableValue).
Context (ctx : ExpressionEvaluationContext) (item accumulator : string) (map_expression : Expression).
Context (g : VariableValue -> VariableValue -> VariableValue).
Hypothesis names_differ : item <> accumulator.
Hypothesis map_depends_on : forall vars s, bt_sorted vars ->
  ev (new_context vars (clock ctx)) map_expression s =
  (Ok (g (default VNull (bt_get accumulator vars)) (default VNull (bt_get item vars))), s).

Lemma reduce_item_step vars v s :
  bt_sorted vars ->
  reduce_item ev ctx item accumulator None (Some map_expression) (vars, default VNull (bt_get accumulator vars)) v s =
  let r := g (default VNull (bt_get accumulator vars)) v in (Ok (bt_insert accumulator r (bt_insert item v vars), r), s).
Proof.
  intros Hs. unfold reduce_item. rewrite sm_bind_ret_l. unfold mbind, SM_bind.
  rewrite map_depends_on by by apply bt_insert_sorted. rewrite bt_get_insert_eq by done.
  rewrite bt_get_insert_ne; [done|done|]. intros Heq. apply cmp_eq in Heq. by apply names_differ.
Qed.

(** Without a filter [reduce] folds its map expression over the list, where
    that depends on the accumulator and the item only. *)
Lemma reduce_folds list_expression items s :
  ev ctx list_expression s = (Ok (VList items), s) -> bt_sorted (variables ctx) ->
  reduce_iterator_expression ev ctx item list_expression None (Some map_expression) accumulator s =
  (Ok (fold_left g items (default VNull (bt_get accumulator (variables ctx)))), s).
Proof.
  intros Hlist Hsorted. unfold reduce_iterator_expression.
  rewrite (sm_bind_ok _ _ _ _ _ Hlist).
  assert (forall vars, bt_sorted vars -> exists vars',
    sm_foldl (reduce_item ev ctx item accumulator None (Some map_expression))
      (vars, default VNull (bt_get accumulator vars)) items s =
    (Ok (vars', fold_left g items (default VNull (bt_get accumulator vars))), s)) as Hfold.
  { clear Hlist Hsorted. induction items as [|v l IH]; intros vars Hs; [by exists vars|]. cbn [sm_foldl fold_left].
    rewrite (sm_bind_ok _ _ _ _ _ (reduce_item_step vars v s Hs)).
    set (r := g _ v). destruct (IH (bt_insert accumulator r (bt_insert item v vars))) as (vars' & Hv); [by do 2 apply bt_insert_sorted|].
    rewrite bt_get_insert_eq in Hv by by apply bt_insert_sorted. by exists vars'. }
  destruct (Hfold _ Hsorted) as (vars' & Hv). by rewrite (sm_bind_ok _ _ _ _ _ Hv).
Qed.
End reduce_facts.
End scalar_facts.

(** ** Instances *)

Module ScalarExample.
#[local] Existing Instance Sample.hashers.
#[local] Existing Instance Sample.chrono.
#[local] Existing Instance SampleOps.ops.

Notation Store := InMemoryResultIndex.

(** The library functions a sample does not reach answer anything. *)
#[local] Instance libs : ScalarLibs Store := {|
  parse_f64 _ := None; powi _ _ := f64_of_Z 1; f64_sin x := x; f64_cos x := x; f64_tan x := x;
  round_up x _ := f64_ceil x; round_down x _ := f64_floor x;
  mean _ := Some f64_zero; population_standard_deviation _ _ := Some f64_zero;
  display_value _ := EmptyString; thread_rng_gen _ := f64_zero; uuid_new_v4 _ := EmptyString;
  system_time_millis _ := Some 0;
  same_bucket h1 h2 := bool_decide (h1 = h2);
  same_bucket_refl h := bool_decide_eq_true_2 _ eq_refl |}.
#[local] Instance cases : UnicodeCase := {| unicode_uppercase s := s; unicode_lowercase s := s |}.

Definition num (i : Z) : VariableValue := integer i.
Definition text (s : string) : VariableValue := VString s.

Lemma range_lists_progression_witness :
  exists l, Range [integer 2; integer 11; integer 3] = Ok (VList (map integer l)) /\
            (3 = 1 -> Range [integer 2; integer 11] = Ok (VList (map integer l))) /\
            Sorted Z.lt l /\ forall x, x ∈ l <-> exists n, 0 <= n /\ x = 2 + n * 3 /\ x <= 11.
Proof. apply (range_lists_progression 2 11 3); by vm_compute. Defined.

Definition mixed : list VariableValue := [num 1; text "a"; num 1; VNull].

Lemma mixed_comparable : comparable (mixed ++ [text "a"; num 2]).
Proof.
  intros a b Ha Hb _. unfold mixed in *. cbn in Ha, Hb.
  repeat (apply elem_of_cons in Ha as [->|Ha]; [|try by apply elem_of_nil in Ha]);
    repeat (apply elem_of_cons in Hb as [->|Hb]; [discriminate|try by apply elem_of_nil in Hb]).
Qed.

Lemma distinct_keeps_first_witness :
  exists r r', Distinct [VList mixed] = Ok (VList r) /\ Distinct [VList (mixed ++ [text "a"; num 2])] = Ok (VList (r ++ r')) /\
    r `sublist_of` mixed /\ r' `sublist_of` [text "a"; num 2] /\ apart (r ++ r') /\
    forall v, v ∈ mixed -> v ∈ r \/ exists x, x ∈ r /\ taken_for v x.
Proof. apply (distinct_keeps_first mixed [text "a"; num 2]). apply mixed_comparable. Defined.

Lemma split_round_trip_witness :
  exists parts, Split [text "a, b,, c"; text ", "] = Ok (VList (map VString parts)) /\
    join_text ", " parts = "a, b,, c"%string /\ (forall part, part ∈ parts -> ~ occurs ", " part) /\
    Replace [text "a, b,, c"; text ", "; text "-"] = Ok (VString (join_text "-" parts)).
Proof. apply (split_round_trip "a, b,, c" ", " "-"). discriminate. Defined.

Lemma integer_text_round_trip_witness :
  exists t, ToString [VInteger (NegInt (-42))] = Ok (VString t) /\ ToInteger [VString t] = Ok (VInteger (NegInt (-42))) /\
    ToIntegerOrNull [VString t] = Ok (VInteger (NegInt (-42))) /\ ToFloat [VString t] = Ok (VFloat (f64_of_Z (-42))).
Proof. apply (integer_text_round_trip (NegInt (-42)) (-42)); [by vm_compute|reflexivity]. Defined.

(** The last byte of the text is the second one of its last character. *)
Lemma left_right_cut_witness :
  (exists r, Left [text "aé"; integer 1] = Ok (VString r) /\ chars r = take (Z.to_nat 1) (chars "aé")) /\
  match Right [text "aé"; integer 1] with
  | Ok (VString r) => (exists before, chars "aé" = before ++ chars r) /\ text_length r = Z.min 1 (text_length "aé")
  | Panic => 1 <= text_length "aé" /\ is_char_boundary "aé" (Z.to_nat (text_length "aé" - 1)) = false
  | _ => False
  end.
Proof. apply (left_right_cut "aé" 1); [reflexivity|by vm_compute]. Defined.

Example distinct_of_mixed : Distinct [VList (mixed ++ [text "a"; num 2])] = Ok (VList [num 1; text "a"; VNull; num 2]).
Proof. by_vm. Qed.

(** *** Where the functions do not do what they are for *)

(** A step below zero is taken for a number of the size of the word. *)
Lemma range_does_not_descend :
  Range [num 5; num 1; num (-1)] = Ok (VList []) /\ Range [num 1; num 5; num (-1)] = Ok (VList [num 1]) /\
  Range [num 1; num 5; num 0] = Panic.
Proof. split_and!; by_vm. Qed.

(** The exclusive end wraps around. *)
Lemma range_misses_greatest : Range [num i64_max; num i64_max] = Ok (VList []).
Proof. by_vm. Qed.

(** The check admits a slice that ends beyond the text. *)
Lemma substring_beyond_end_panics : Substring [text "hello"; num 3; num 4] = Panic.
Proof. by_vm. Qed.

Lemma right_inside_character_panics : Right [text "aé"; num 1] = Panic /\ Substring [text "é"; num 1] = Panic.
Proof. split; by_vm. Qed.

(** Lengths are in bytes. *)
Lemma char_length_counts_bytes : CharLength [text "é"] = Ok (num 2) /\ Reverse [text "é"] = Ok (text "é").
Proof. split; by_vm. Qed.

(** Nulls are skipped, but for the first. *)
Lemma list_min_of_leading_null :
  DrasiMin [VList [VNull; num 5]] = Ok VNull /\ DrasiMax [VList [VNull; num 5]] = Ok (num 5) /\
  DrasiMax [VList [VNull; VBool true]] = Ok VNull /\ DrasiMax [VList []] = Panic.
Proof. split_and!; by_vm. Qed.

(** A value is above another that is not below it. *)
Lemma partial_cmp_not_dual :
  partial_cmp (text "a") VNull = Some Gt /\ partial_cmp VNull (text "a") = None /\
  partial_cmp VNull (VBool true) = Some Lt /\ partial_cmp (VBool true) VNull = None.
Proof. by split_and!. Qed.

(** The rule for integers asks for a number where the mode is. *)
Lemma round_integer_refuses_mode :
  Round [num 3; num 1; text "UP"] = Err (InvalidArgument 2) /\ Round [num 3; num 1; num 0] = Ok (num 3).
Proof. split; by_vm. Qed.

Lemma to_boolean_or_null_minds_case :
  ToBoolean [text "TRUE"] = Ok (VBool true) /\ ToBooleanOrNull [text "TRUE"] = Ok VNull.
Proof. split; by_vm. Qed.

Lemma to_string_or_null_fails :
  ToString [VBool true] = Ok (text "true") /\ ToStringOrNull [VBool true] = Err (InvalidArgument 0).
Proof. split; by_vm. Qed.

Lemma abs_of_least : Abs [num i64_min] = Ok (num i64_min).
Proof. by_vm. Qed.

(** *** The functions in the evaluator *)

Definition call (name : string) (args : list Expression) : Expression := FunctionExpression name args 1.
Definition lit (i : Z) : Expression := Unary (Lit (LInteger i)).
Definition no_context : ExpressionEvaluationContext := new_context [] {| transaction_time := 0; realtime := 0 |}.
Definition registry : gmap string (Function (S:=Store)) := register_scalar_functions 10 ∅.
Definition evaluate_sample (e : Expression) : outcome EvaluationError VariableValue :=
  (evaluate_expression (S:=Store) registry 10 no_context e new_result_index).1.

Lemma evaluates_nested_calls :
  evaluate_sample (call "size" [call "range" [lit 1; lit 4]]) = Ok (num 4) /\
  evaluate_sample (call "size" [lit 1]) = Err (EvalFunctionError "size" (InvalidArgument 0)).
Proof. split; by_vm. Qed.

(** [reduce(acc = 0, x IN list | acc + x)]; a call in it is unknown. *)
Definition reduction (list_expression addend : Expression) : Expression :=
  call "reduce"
    [Binary Eq_ (Unary (Identifier "acc")) (lit 0);
     IteratorExpression "x" list_expression None
       (Some (Binary Add (Unary (Identifier "acc")) addend))].

Lemma reduce_knows_no_functions :
  evaluate_sample (reduction (ListExpression [lit 1; lit (-2)]) (Unary (Identifier "x"))) = Ok (num (-1)) /\
  evaluate_sample (reduction (ListExpression [lit 1; lit (-2)]) (call "abs" [Unary (Identifier "x")])) =
    Err (EvalFunctionError "reduce" (InvalidType "Valid reduce expression")) /\
  evaluate_sample (reduction (call "range" [lit 1; lit 3]) (Unary (Identifier "x"))) =
    Err (EvalFunctionError "reduce" (InvalidType "Valid reduce expression")).
Proof. split_and!; by_vm. Qed.
End ScalarExample.
