(* ===== verification/Middleware.v ===== *)
(** * Source middleware: its registry, and the middleware that changes the
      properties or labels of an element (core/src/middleware/mod.rs,
      middleware/src/relabel, promote, decoder, parse_json)

    A factory makes a middleware from its configuration; a container keeps the
    configured ones by name and a pipeline chains them. A text is the sequence
    of its UTF-8 bytes. *)

From stdpp Require Import pretty.
From S2P Require Import Prelude BTree Floats Hashing Ast Models Errors Values ChronoOps ResultIndex StateCodec Json.
From S2P Require Import Contexts Parts Session ContinuousQuery.

(** ** Setting up (interface/source_middleware.rs, middleware/mod.rs) *)

Inductive MiddlewareSetupError :=
| InvalidConfiguration (msg : string)
| NoRegistry.

Record SourceMiddlewareConfig `{JsonNumber} := { mw_kind : string; mw_name : string; mw_config : JsonMap }.

(** [serde_json::from_value] at the type of a configuration; the error is its text. *)
Class FromValue `{JsonNumber} (A : Type) := from_value : JsonMap -> outcome string A.

Section registry.
Context {JN : JsonNumber} {C : Chrono} {S : Type}.

Record SourceMiddlewareFactory := {
  factory_name : string;
  factory_create : SourceMiddlewareConfig -> outcome MiddlewareSetupError (SourceMiddleware (S:=S));
}.

Definition MiddlewareTypeRegistry : Type := gmap string SourceMiddlewareFactory.
Definition MiddlewareContainer : Type := gmap string (SourceMiddleware (S:=S)).

Definition registry_register (factory : SourceMiddlewareFactory) (registry : MiddlewareTypeRegistry) :
    MiddlewareTypeRegistry := <[factory_name factory := factory]> registry.

Definition container_new (registry : MiddlewareTypeRegistry) (source_configs : list SourceMiddlewareConfig) :
    outcome MiddlewareSetupError MiddlewareContainer :=
  out_foldl (fun source_instances config =>
    match registry !! mw_kind config with
    | None => Err (InvalidConfiguration ("Unknown middleware kind: " +:+ mw_kind config))
    | Some factory =>
        instance ← factory_create factory config;
        Ok (<[mw_name config := instance]> source_instances)
    end) ∅ source_configs.

Definition pipeline_new (container : MiddlewareContainer) (pipeline_keys : list string) :
    outcome MiddlewareSetupError (SourceMiddlewarePipeline (S:=S)) :=
  out_mapM (fun name =>
    match container !! name with
    | Some middleware => Ok middleware
    | None => Err (InvalidConfiguration ("Unknown middleware: " +:+ name))
    end) pipeline_keys.

(** [SourceMiddlewarePipelineCollection]: the pipelines of a query by source *)
Definition collection_insert (source : string) (pipeline : SourceMiddlewarePipeline (S:=S))
    (items : gmap string (SourceMiddlewarePipeline (S:=S))) : gmap string (SourceMiddlewarePipeline (S:=S)) :=
  <[source := pipeline]> items.
Definition collection_get (source : string) (items : gmap string (SourceMiddlewarePipeline (S:=S))) :
    option (SourceMiddlewarePipeline (S:=S)) := items !! source.
End registry.
Arguments SourceMiddlewareFactory {_ _} S.

(** ** Text (std) *)

Definition bytes_of (s : string) : list Z := map (fun c => Z.of_N (Ascii.N_of_ascii c)) (String.list_ascii_of_string s).
Definition str_len (s : string) : Z := Z.of_nat (String.length s).

(** [trim_matches] with the double quote *)
Definition quote : Ascii.ascii := Ascii.ascii_of_nat 34.
Fixpoint drop_quotes (l : list Ascii.ascii) : list Ascii.ascii :=
  match l with
  | c :: l' => if Ascii.eqb c quote then drop_quotes l' else l
  | [] => []
  end.
Definition trim_quotes (s : string) : string :=
  String.string_of_list_ascii (rev (drop_quotes (rev (drop_quotes (String.list_ascii_of_string s))))).

(** [String::from_utf8]: the bytes are well-formed UTF-8. *)
Definition within (lo hi b : Z) : bool := (lo <=? b) && (b <=? hi).
Fixpoint utf8_valid (l : list Z) : bool :=
  match l with
  | [] => true
  | a :: l1 =>
      if within 0 127 a then utf8_valid l1 else
      match l1 with
      | [] => false
      | b :: l2 =>
          if within 194 223 a then within 128 191 b && utf8_valid l2 else
          match l2 with
          | [] => false
          | c :: l3 =>
              if within 224 239 a then
                within (if a =? 224 then 160 else 128) (if a =? 237 then 159 else 191) b &&
                within 128 191 c && utf8_valid l3
              else
              match l3 with
              | [] => false
              | d :: l4 =>
                  within 240 244 a && within (if a =? 240 then 144 else 128) (if a =? 244 then 143 else 191) b &&
                  within 128 191 c && within 128 191 d && utf8_valid l4
              end
          end
      end
  end.

(** [chars().any(|c| c.is_control() && c != '\n' && c != '\r' && c != '\t')]:
    the characters below U+0020, U+007F, and U+0080 to U+009F in two bytes. *)
Fixpoint has_control (l : list Z) : bool :=
  match l with
  | [] => false
  | b :: l' =>
      ((b <? 32) && negb (b =? 10) && negb (b =? 13) && negb (b =? 9)) || (b =? 127) ||
      ((b =? 194) && match l' with c :: _ => within 128 159 c | [] => false end) || has_control l'
  end.

(** [str::contains] *)
Fixpoint str_contains (pattern s : string) : bool :=
  String.prefix pattern s || match s with String _ s' => str_contains pattern s' | EmptyString => false end.

(** ** Handling errors (middleware/src/common.rs) *)

Inductive ErrorHandling := EH_Fail | EH_Skip.

Definition set_property {C : Chrono} (element : Element) (key : string) (value : ElementValue) : Element :=
  match element with
  | Node m p => Node m (bt_insert key value p)
  | Relation m i o p => Relation m i o (bt_insert key value p)
  end.

(** ** Relabel *)

Section relabel.
Context {JN : JsonNumber} {C : Chrono} {S : Type} {F : FromValue (gmap string string)}.

Record RelabelMiddleware := { label_mappings : gmap string string }.

Definition relabel_metadata (self : RelabelMiddleware) (metadata : ElementMetadata) : ElementMetadata :=
  {| reference := reference metadata;
     labels := map (fun label => default label (label_mappings self !! label)) (labels metadata);
     effective_from := effective_from metadata |}.

Definition relabel_element (self : RelabelMiddleware) (element : Element) : Element :=
  let new_metadata := relabel_metadata self (get_metadata element) in
  match element with
  | Node _ properties => Node new_metadata properties
  | Relation _ in_node out_node properties => Relation new_metadata in_node out_node properties
  end.

Definition relabel_process (self : RelabelMiddleware) (source_change : SourceChange) :
    outcome MiddlewareError (list SourceChange) :=
  match source_change with
  | Insert element => Ok [Insert (relabel_element self element)]
  | Update element => Ok [Update (relabel_element self element)]
  | Delete metadata => Ok [Delete (relabel_metadata self metadata)]
  | Future _ => Ok [source_change]
  end.

Definition relabel_create (config : SourceMiddlewareConfig) :
    outcome MiddlewareSetupError (SourceMiddleware (S:=S)) :=
  match from_value (A:=gmap string string) (mw_config config) with
  | Err e => Err (InvalidConfiguration ("[" +:+ mw_name config +:+ "] Invalid configuration: " +:+ e))
  | Panic => Panic
  | Ok mappings =>
      if decide (mappings = ∅)
      then Err (InvalidConfiguration ("[" +:+ mw_name config +:+ "] At least one label mapping must be specified"))
      else Ok (fun change => sm_lift (relabel_process {| label_mappings := mappings |} change))
  end.

Definition relabel_factory : SourceMiddlewareFactory S :=
  {| factory_name := "relabel"; factory_create := relabel_create |}.
End relabel.

(** ** Paths (crate jsonpath_rust) *)

Class JsonPath `{JsonNumber} := {
  JsonPathInst : Type;
  find_slice : JsonPathInst -> Value -> list Value;
  path_from_str : string -> outcome string JsonPathInst;
}.

Section paths.
Context {JN : JsonNumber} {JP : JsonPath}.

Record JsonPathExpression := { expression : string; path : JsonPathInst }.

Definition execute (e : JsonPathExpression) (value : Value) : list Value := find_slice (path e) value.
Definition execute_one (e : JsonPathExpression) (value : Value) : option Value := head (find_slice (path e) value).

(** [FromStr] and [deserialize_jsonpath] *)
Definition jsonpath_from_str (s : string) : outcome string JsonPathExpression :=
  match path_from_str s with
  | Ok p => Ok {| expression := s; path := p |}
  | Err e => Err ("Failed to parse rule: " +:+ e)
  | Panic => Panic
  end.

Definition deserialize_jsonpath (s : string) : outcome string JsonPathExpression :=
  if (s =? EmptyString)%string then Err "Empty JSONPath"%string else jsonpath_from_str s.
End paths.

(** ** Promote *)

Section promote.
Context {JN : JsonNumber} {JP : JsonPath} {C : Chrono} {T : ChronoText} {S : Type}.

Inductive ConflictStrategy := CS_Overwrite | CS_Skip | CS_Fail.

Record PromoteMapping := { pm_path : JsonPathExpression; target_name : string }.

Record PromoteMiddlewareConfig := {
  pc_mappings : list PromoteMapping;
  pc_on_conflict : ConflictStrategy;
  pc_on_error : ErrorHandling;
}.

Record PromoteMiddleware := {
  promote_name : string;
  promote_mappings : list PromoteMapping;
  on_conflict : ConflictStrategy;
  promote_on_error : ErrorHandling;
}.

Definition promote_new (name : string) (config : PromoteMiddlewareConfig) : PromoteMiddleware :=
  {| promote_name := name; promote_mappings := pc_mappings config;
     on_conflict := pc_on_conflict config; promote_on_error := pc_on_error config |}.

Definition extract_value (self : PromoteMiddleware) (json_obj : Value) (p : JsonPathExpression) :
    outcome MiddlewareError (option Value) :=
  let refuse msg := match promote_on_error self with
                    | EH_Skip => Ok None
                    | EH_Fail => Err (SourceChangeError msg)
                    end in
  match execute p json_obj with
  | [] => refuse ("[" +:+ promote_name self +:+ "] JSONPath '" +:+ expression p +:+ "' selected no values")
  | [v] => Ok (Some v)
  | results => refuse ("[" +:+ promote_name self +:+ "] JSONPath '" +:+ expression p +:+
                       "' selected multiple values (" +:+ pretty (length results) +:+ ")")
  end.

Definition promote_mapping (self : PromoteMiddleware) (json_props : Value) (properties : ElementPropertyMap)
    (mapping : PromoteMapping) : outcome MiddlewareError ElementPropertyMap :=
  value ← extract_value self json_props (pm_path mapping);
  match value with
  | None => Ok properties
  | Some value =>
      let insert := Ok (bt_insert (target_name mapping) (json_to_element_value value) properties) in
      match bt_get (target_name mapping) properties with
      | Some existing =>
          if element_value_eqb existing EV_Null then insert
          else match on_conflict self with
               | CS_Overwrite => insert
               | CS_Skip => Ok properties
               | CS_Fail => Err (SourceChangeError ("[" +:+ promote_name self +:+ "] Property '" +:+
                              target_name mapping +:+ "' already exists and conflict strategy is 'fail'"))
               end
      | None => insert
      end
  end.

Definition promote_element (self : PromoteMiddleware) (element : Element) : outcome MiddlewareError Element :=
  json_props ← property_map_to_json (get_properties element);
  properties ← out_foldl (promote_mapping self (JObject json_props)) (get_properties element) (promote_mappings self);
  Ok match element with
     | Node m _ => Node m properties
     | Relation m i o _ => Relation m i o properties
     end.

Definition promote_process (self : PromoteMiddleware) (source_change : SourceChange) :
    outcome MiddlewareError (list SourceChange) :=
  match source_change with
  | Insert element => element ← promote_element self element; Ok [Insert element]
  | Update element => element ← promote_element self element; Ok [Update element]
  | Delete _ | Future _ => Ok [source_change]
  end.

Context {F : FromValue PromoteMiddlewareConfig}.

Definition promote_create (config : SourceMiddlewareConfig) :
    outcome MiddlewareSetupError (SourceMiddleware (S:=S)) :=
  match from_value (A:=PromoteMiddlewareConfig) (mw_config config) with
  | Err e =>
      if str_contains "Empty JSONPath" e then Err (InvalidConfiguration ("[" +:+ mw_name config +:+ "] " +:+ e))
      else Err (InvalidConfiguration ("[" +:+ mw_name config +:+ "] Invalid configuration: " +:+ e))
  | Panic => Panic
  | Ok promote_config =>
      match pc_mappings promote_config with
      | [] => Err (InvalidConfiguration ("[" +:+ mw_name config +:+ "] At least one mapping must be specified"))
      | mappings =>
          match find (fun e => (target_name e.2 =? EmptyString)%string) (enumerate mappings) with
          | Some (i, _) => Err (InvalidConfiguration ("[" +:+ mw_name config +:+ "] Empty target_name in mapping at index " +:+ pretty i))
          | None => Ok (fun change => sm_lift (promote_process (promote_new (mw_name config) promote_config) change))
          end
      end
  end.

Definition promote_factory : SourceMiddlewareFactory S :=
  {| factory_name := "promote"; factory_create := promote_create |}.
End promote.

(** * Middleware that decodes a text property (middleware/src/decoder,
      middleware/src/parse_json)

    Both read one property of the element and write the result to the same or
    another property; what goes wrong is an error or leaves the element alone,
    as configured. *)

(** Crates base64, hex, urlencoding and serde_json: bytes or text, or the text of the error. *)
Class Decoders `{JsonNumber} := {
  base64_decode : string -> outcome string string;
  base64_url_decode : string -> outcome string string;
  hex_decode : string -> outcome string string;
  url_decode : string -> outcome string string;
  json_string_from_str : string -> outcome string string;   (* from_str::<String> *)
  json_value_from_str : string -> outcome string Value;     (* from_str::<Value> *)
  utf8_error : string -> string;                            (* Display of std's FromUtf8Error *)
}.

(** The types a property can have, for messages *)
Definition get_element_value_type_name {C : Chrono} (value : ElementValue) : string :=
  match value with
  | EV_Null => "Null"
  | EV_Bool _ => "Bool"
  | EV_Float _ => "Float"
  | EV_Integer _ => "Integer"
  | EV_String _ => "String"
  | EV_List _ => "List"
  | EV_Object _ => "Object"
  | EV_LocalDateTime _ => "LocalDateTime"
  | EV_ZonedDateTime _ => "ZonedDateTime"
  end.

(** ** Decoder *)

Section decoder.
Context {JN : JsonNumber} {D : Decoders} {C : Chrono} {S : Type}.

Inductive EncodingType := Base64 | Base64url | Hex | Url | JsonEscape.

#[global] Instance EncodingType_eq_dec : EqDecision EncodingType.
Proof. solve_decision. Defined.

Definition ENCODING_TYPE_NAMES : list (string * EncodingType) :=
  [("base64", Base64); ("base64url", Base64url); ("hex", Hex); ("url", Url); ("json_escape", JsonEscape)]%string.

Record DecoderConfig := {
  encoding_type : EncodingType;
  dc_target_property : string;
  dc_output_property : option string;
  strip_quotes : bool;
  dc_on_error : ErrorHandling;
  max_size_bytes : Z;
}.

Definition default_max_size : Z := 1024 * 1024.

Record Decoder := { decoder_name : string; decoder_config : DecoderConfig }.

Definition get_encoding_type_name (self : Decoder) : string :=
  match find (fun e => bool_decide (e.2 = encoding_type (decoder_config self))) ENCODING_TYPE_NAMES with
  | Some (name, _) => name
  | None => "unknown"
  end.

Definition utf8 (decoded : outcome string string) : outcome string string :=
  bytes ← decoded;
  if utf8_valid (bytes_of bytes) then Ok bytes
  else Err ("Decoded bytes are not valid UTF-8: " +:+ utf8_error bytes).

Definition decode_base64 (encoded : string) : outcome string string :=
  utf8 (map_err (fun e => "Invalid base64 encoding: " +:+ e) (base64_decode encoded)).
Definition decode_base64url (encoded : string) : outcome string string :=
  utf8 (map_err (fun e => "Invalid base64url encoding: " +:+ e) (base64_url_decode encoded)).
Definition decode_hex (encoded : string) : outcome string string :=
  utf8 (map_err (fun e => "Invalid hex encoding: " +:+ e) (hex_decode encoded)).
Definition decode_url (encoded : string) : outcome string string :=
  map_err (fun e => "Invalid URL encoding: " +:+ e) (url_decode encoded).
Definition decode_json_escape (encoded : string) : outcome string string :=
  map_err (fun e => "Invalid JSON escape sequence: " +:+ e)
    (json_string_from_str (String quote (encoded +:+ String quote EmptyString))).

Definition decode (self : Decoder) (processed_str : string) : outcome string string :=
  match encoding_type (decoder_config self) with
  | Base64 => decode_base64 processed_str
  | Base64url => decode_base64url processed_str
  | Hex => decode_hex processed_str
  | Url => decode_url processed_str
  | JsonEscape => decode_json_escape processed_str
  end.

Definition decode_property (self : Decoder) (element : Element) : outcome MiddlewareError Element :=
  let cfg := decoder_config self in
  let target_prop_name := dc_target_property cfg in
  let output_prop_name := default target_prop_name (dc_output_property cfg) in
  let refuse msg := match dc_on_error cfg with
                    | EH_Fail => Err (SourceChangeError msg)
                    | EH_Skip => Ok element
                    end in
  match bt_get target_prop_name (get_properties element) with
  | Some (EV_String encoded_str) =>
      if max_size_bytes cfg <? str_len encoded_str then
        refuse ("[" +:+ decoder_name self +:+ "] Encoded string in property '" +:+ target_prop_name +:+
                "' exceeds size limit (" +:+ pretty (str_len encoded_str) +:+ " > " +:+ pretty (max_size_bytes cfg) +:+ ")")
      else
        let processed_str := if strip_quotes cfg then trim_quotes encoded_str else encoded_str in
        match decode self processed_str with
        | Ok decoded_string => Ok (set_property element output_prop_name (EV_String decoded_string))
        | Err e => refuse ("[" +:+ decoder_name self +:+ "] Failed to decode property '" +:+ target_prop_name +:+
                           "' using " +:+ get_encoding_type_name self +:+ " encoding: " +:+ e)
        | Panic => Panic
        end
  | Some value =>
      refuse ("[" +:+ decoder_name self +:+ "] Target property '" +:+ target_prop_name +:+
              "' is not a string value (Type: " +:+ get_element_value_type_name value +:+ ").")
  | None => refuse ("[" +:+ decoder_name self +:+ "] Target property '" +:+ target_prop_name +:+ "' not found in element.")
  end.

Definition decoder_process (self : Decoder) (source_change : SourceChange) : outcome MiddlewareError (list SourceChange) :=
  match source_change with
  | Insert element => element ← decode_property self element; Ok [Insert element]
  | Update element => element ← decode_property self element; Ok [Update element]
  | Delete _ | Future _ => Ok [source_change]
  end.

Context {F : FromValue DecoderConfig}.

Definition decoder_create (config : SourceMiddlewareConfig) : outcome MiddlewareSetupError (SourceMiddleware (S:=S)) :=
  let invalid msg := Err (InvalidConfiguration ("[" +:+ mw_name config +:+ "] " +:+ msg)) in
  match from_value (A:=DecoderConfig) (mw_config config) with
  | Err e => invalid ("Invalid decoder configuration: " +:+ e)
  | Panic => Panic
  | Ok cfg =>
      if (dc_target_property cfg =? EmptyString)%string
      then invalid "Missing or empty 'target_property' field in decoder configuration"%string
      else if bool_decide (dc_output_property cfg = Some EmptyString)
      then invalid "'output_property' cannot be empty if provided"%string
      else if max_size_bytes cfg =? 0
      then invalid "'max_size_bytes' must be greater than zero"%string
      else Ok (fun change => sm_lift (decoder_process {| decoder_name := mw_name config; decoder_config := cfg |} change))
  end.

Definition decoder_factory : SourceMiddlewareFactory S :=
  {| factory_name := "decoder"; factory_create := decoder_create |}.
End decoder.

(** ** Parsing JSON *)

Section parse_json.
Context {JN : JsonNumber} {D : Decoders} {C : Chrono} {T : ChronoText} {S : Type}.

Inductive ParseJsonErrorType :=
| MissingProperty | PropertyInvalidType | SizeExceeded | InvalidInput | DeepNesting | JsonParseError | JsonConversionError.

(** The derived [Debug] *)
Definition error_type_name (t : ParseJsonErrorType) : string :=
  match t with
  | MissingProperty => "MissingProperty"
  | PropertyInvalidType => "InvalidType"
  | SizeExceeded => "SizeExceeded"
  | InvalidInput => "InvalidInput"
  | DeepNesting => "DeepNesting"
  | JsonParseError => "ParseError"
  | JsonConversionError => "ConversionError"
  end.

Record ParseJsonConfig := {
  pj_target_property : string;
  pj_output_property : option string;
  pj_on_error : ErrorHandling;
  max_json_size : Z;
  max_nesting_depth : Z;
}.

Definition default_max_json_size : Z := 1024 * 1024.
Definition default_max_nesting_depth : Z := 20.

Record ParseJson := { pj_name : string; pj_config : ParseJsonConfig }.

(** [Ok] leaves the element as it is. *)
Definition handle_error (self : ParseJson) (error_type : ParseJsonErrorType) (message : string) (element : Element) :
    outcome MiddlewareError Element :=
  match pj_on_error (pj_config self) with
  | EH_Fail => Err (SourceChangeError ("[" +:+ pj_name self +:+ "] [Error: " +:+ error_type_name error_type +:+ "] " +:+ message))
  | EH_Skip => Ok element
  end.

Definition check_for_invalid_characters (json_string : string) : outcome (ParseJsonErrorType * string) unit :=
  if has_control (bytes_of json_string)
  then Err (InvalidInput, "JSON string contains invalid control characters"%string)
  else Ok tt.

Definition parse_property (self : ParseJson) (element : Element) : outcome MiddlewareError Element :=
  let cfg := pj_config self in
  let target_prop_name := pj_target_property cfg in
  let output_prop_name := default target_prop_name (pj_output_property cfg) in
  match bt_get target_prop_name (get_properties element) with
  | Some (EV_String json_string) =>
      if max_json_size cfg <? str_len json_string then
        handle_error self SizeExceeded ("JSON string in property '" +:+ target_prop_name +:+
          "' exceeds maximum allowed size (" +:+ pretty (str_len json_string) +:+ " > " +:+
          pretty (max_json_size cfg) +:+ " bytes)") element
      else
        match check_for_invalid_characters json_string with
        | Err (error_type, message) => handle_error self error_type message element
        | Panic => Panic
        | Ok _ =>
            match json_value_from_str json_string with
            | Ok parsed_value =>
                let depth := Z.of_nat (calculate_nesting_depth parsed_value) in
                if max_nesting_depth cfg <? depth then
                  handle_error self DeepNesting ("JSON nesting depth (" +:+ pretty depth +:+
                    ") exceeds maximum allowed depth (" +:+ pretty (max_nesting_depth cfg) +:+ ")") element
                else Ok (set_property element output_prop_name (json_to_element_value parsed_value))
            | Err e => handle_error self JsonParseError ("Failed to parse JSON string in property '" +:+
                         target_prop_name +:+ "': " +:+ e) element
            | Panic => Panic
            end
        end
  | Some other_value =>
      handle_error self PropertyInvalidType ("Target property '" +:+ target_prop_name +:+ "' is not a String (Type: " +:+
        get_element_value_type_name other_value +:+ "). Cannot parse JSON.") element
  | None =>
      handle_error self MissingProperty ("Target property '" +:+ target_prop_name +:+
        "' not found in element. Cannot parse JSON.") element
  end.

Definition parse_json_process (self : ParseJson) (source_change : SourceChange) : outcome MiddlewareError (list SourceChange) :=
  match source_change with
  | Insert element => element ← parse_property self element; Ok [Insert element]
  | Update element => element ← parse_property self element; Ok [Update element]
  | Delete _ | Future _ => Ok [source_change]
  end.

Context {F : FromValue ParseJsonConfig}.

Definition parse_json_create (config : SourceMiddlewareConfig) : outcome MiddlewareSetupError (SourceMiddleware (S:=S)) :=
  let invalid msg := Err (InvalidConfiguration ("[" +:+ mw_name config +:+ "] " +:+ msg)) in
  match from_value (A:=ParseJsonConfig) (mw_config config) with
  | Err e => invalid ("Invalid parse_json configuration: " +:+ e)
  | Panic => Panic
  | Ok cfg =>
      if (pj_target_property cfg =? EmptyString)%string
      then invalid "Missing or empty 'target_property' field in parse_json configuration"%string
      else if bool_decide (pj_output_property cfg = Some EmptyString)
      then invalid "'output_property' cannot be empty if provided in parse_json configuration"%string
      else if max_json_size cfg =? 0
      then invalid "'max_json_size' must be greater than 0"%string
      else Ok (fun change => sm_lift (parse_json_process {| pj_name := mw_name config; pj_config := cfg |} change))
  end.

Definition parse_json_factory : SourceMiddlewareFactory S :=
  {| factory_name := "parse_json"; factory_create := parse_json_create |}.
End parse_json.

(** * What the middleware of single properties does: bounds of the parsed JSON,
      and which value a promotion leaves *)

(** ** Parsing JSON *)

Section parse_json.
Context {JN : JsonNumber} {D : Decoders} {C : Chrono} {T : ChronoText}.

(** The target is a text within the limits, without control characters, of a
    JSON value within the limit of nesting. *)
Definition parses (self : ParseJson) (element : Element) (j : Value) : Prop :=
  exists s, bt_get (pj_target_property (pj_config self)) (get_properties element) = Some (EV_String s) /\
    str_len s <= max_json_size (pj_config self) /\ has_control (bytes_of s) = false /\
    json_value_from_str s = Ok j /\ Z.of_nat (calculate_nesting_depth j) <= max_nesting_depth (pj_config self).

Definition refused (on_error : ErrorHandling) (element : Element) (r : outcome MiddlewareError Element) : Prop :=
  match on_error with
  | EH_Skip => r = Ok element
  | EH_Fail => exists msg, r = Err (SourceChangeError msg)
  end.

Lemma handle_error_refused self t msg element :
  refused (pj_on_error (pj_config self)) element (handle_error self t msg element).
Proof. unfold handle_error, refused. destruct (pj_on_error (pj_config self)); eauto. Qed.

(** [C29] The parser of JSON properties replaces the output property by the
    parsed value exactly when the text is within the limits, holds no control
    characters and denotes a JSON value that is not nested too deep; the value
    it stores then has no more levels than the limit. In every other case the
    element stays as it is or the change is refused, as configured. *)
Theorem parse_json_stores_bounded (self : ParseJson) (element : Element) :
  (forall s, json_value_from_str s <> Panic) ->
  (exists j, parses self element j /\
     parse_property self element = Ok (set_property element
       (default (pj_target_property (pj_config self)) (pj_output_property (pj_config self))) (json_to_element_value j)) /\
     Z.of_nat (value_depth (json_to_element_value j)) <= max_nesting_depth (pj_config self)) \/
  ((forall j, ~ parses self element j) /\
   refused (pj_on_error (pj_config self)) element (parse_property self element)).
Proof.
  intros Hpanic. unfold parse_property, parses, check_for_invalid_characters.
  destruct (bt_get _ (get_properties element)) as [v|] eqn:Hget;
    [|right; split; [by intros j (s & ? & _)|apply handle_error_refused]].
  destruct v as [| | | |s| | | |];
    try (right; split; [by intros j (s' & ? & _)|apply handle_error_refused]).
  destruct (Z.ltb_spec (max_json_size (pj_config self)) (str_len s)).
  { right. split; [|apply handle_error_refused]. intros j (s' & Hs & ? & _). simplify_eq. lia. }
  destruct (has_control (bytes_of s)) eqn:Hc.
  { right. split; [|apply handle_error_refused]. intros j (s' & Hs & _ & ? & _). simplify_eq. congruence. }
  destruct (json_value_from_str s) as [j|e|] eqn:Hj; [| |by destruct (Hpanic s)].
  - destruct (Z.ltb_spec (max_nesting_depth (pj_config self)) (Z.of_nat (calculate_nesting_depth j))).
    + right. split; [|apply handle_error_refused]. intros j' (s' & Hs & _ & _ & Hj' & ?). simplify_eq.
      rewrite Hj in Hj'. simplify_eq. lia.
    + left. exists j. split; [by exists s|]. split; [done|]. pose proof (value_depth_of_json j). lia.
  - right. split; [|apply handle_error_refused]. intros j (s' & Hs & _ & _ & Hj' & _). simplify_eq. congruence.
Qed.
End parse_json.

(** ** Promote *)

Section promote.
Context {JN : JsonNumber} {JP : JsonPath} {C : Chrono} {T : ChronoText}.

(** What the mappings to a target select of the properties as they were:
    each mapping that selects exactly one value, in order. *)
Definition promoted (self : PromoteMiddleware) (json_props : Value) (target : string) : list ElementValue :=
  omap (fun mapping =>
    if (target_name mapping =? target)%string
    then match execute (pm_path mapping) json_props with [v] => Some (json_to_element_value v) | _ => None end
    else None) (promote_mappings self).

(** The value a target has after the values promoted to it: overwriting, the
    last; skipping, the first that finds no value, null counting as none. *)
Definition settle (on_conflict : ConflictStrategy) (current : option ElementValue) (values : list ElementValue) :
    option ElementValue :=
  match on_conflict with
  | CS_Overwrite => match last values with Some v => Some v | None => current end
  | _ => fold_left (fun current v =>
           match current with
           | Some w => if element_value_eqb w EV_Null then Some v else current
           | None => Some v
           end) values current
  end.

Lemma extract_value_ok self json p r :
  extract_value self json p = Ok r -> r = match execute p json with [v] => Some v | _ => None end.
Proof. unfold extract_value. destruct (execute p json) as [|v [|]], (promote_on_error self); cbn; intros; simplify_eq; done. Qed.

(** One mapping changes its own target only, and settles it there. *)
Lemma promote_mapping_get self json props mapping props' target :
  bt_sorted props -> promote_mapping self json props mapping = Ok props' ->
  bt_sorted props' /\
  bt_get target props' =
    match (if (target_name mapping =? target)%string
           then match execute (pm_path mapping) json with [v] => Some (json_to_element_value v) | _ => None end
           else None) with
    | Some v => settle (on_conflict self) (bt_get target props) [v]
    | None => bt_get target props
    end.
Proof.
  intros Hs. unfold promote_mapping.
  destruct (extract_value self json (pm_path mapping)) as [r| |] eqn:He; cbn; [|done|done].
  apply extract_value_ok in He. destruct r as [v|].
  2:{ intros; simplify_eq. split; [done|]. destruct (_ =? target)%string; [|done].
      by destruct (execute (pm_path mapping) json) as [|? []]. }
  assert (Hx : match execute (pm_path mapping) json with [v] => Some (json_to_element_value v) | _ => None end =
    Some (json_to_element_value v)) by (destruct (execute (pm_path mapping) json) as [|? []]; by simplify_eq).
  rewrite Hx. clear He Hx. set (w := json_to_element_value v).
  assert (Hins : forall k, bt_sorted (bt_insert k w props) /\ bt_get target (bt_insert k w props) =
    if (k =? target)%string then Some w else bt_get target props).
  { intros k. split; [by apply bt_insert_sorted|].
    destruct (String.eqb_spec k target) as [->|Hne]; [by apply bt_get_insert_eq|].
    apply bt_get_insert_ne; [done|]. intros Hc. apply Hne. symmetry. by apply cmp_eq. }
  destruct (Hins (target_name mapping)) as [Hsorted Hget]. clearbody w.
  destruct (String.eqb_spec (target_name mapping) target) as [<-|Hne].
  - destruct (bt_get (target_name mapping) props) as [old|] eqn:Hold; cbn.
    + unfold settle. cbn [fold_left last]. destruct (element_value_eqb old EV_Null), (on_conflict self);
        intros [= <-]; by rewrite ?Hget, ?Hold.
    + intros; simplify_eq. rewrite Hget. by destruct (on_conflict self).
  - destruct (bt_get (target_name mapping) props) as [old|];
      [destruct (element_value_eqb old EV_Null), (on_conflict self)|]; cbn; intros; simplify_eq; done.
Qed.

Lemma settle_cons cs current v values : settle cs (settle cs current [v]) values = settle cs current (v :: values).
Proof.
  destruct cs; cbn; [|done|done]. destruct values as [|w values]; cbn; [done|].
  destruct (last (w :: values)) eqn:Hl; [done|]. by apply last_None in Hl.
Qed.

Lemma promote_loop self json target : forall mappings props props', bt_sorted props ->
  out_foldl (promote_mapping self json) props mappings = Ok props' ->
  bt_get target props' = settle (on_conflict self) (bt_get target props)
    (omap (fun mapping => if (target_name mapping =? target)%string
       then match execute (pm_path mapping) json with [v] => Some (json_to_element_value v) | _ => None end
       else None) mappings).
Proof.
  induction mappings as [|m mappings IH]; intros props props' Hs; cbn.
  { intros; simplify_eq. by destruct (on_conflict self). }
  destruct (promote_mapping self json props m) as [props1| |] eqn:Hm; cbn; [|done|done].
  intros Hrest. destruct (promote_mapping_get _ _ _ _ _ target Hs Hm) as [Hs1 Hg].
  rewrite (IH _ _ Hs1 Hrest), Hg.
  destruct (if (target_name m =? target)%string then _ else None) as [v|]; cbn; [|done].
  by rewrite settle_cons.
Qed.

(** After a promotion that succeeds, every property has the value its
    mappings settle, all of them read from the properties as they were: the
    last promoted value when overwriting, otherwise the first one promoted
    where there was no value. The identity, labels, time and endpoints of the
    element stay. *)
Theorem promote_settles_properties (self : PromoteMiddleware) (element element' : Element) (target : string) :
  bt_sorted (get_properties element) -> promote_element self element = Ok element' ->
  exists json_props, property_map_to_json (E:=MiddlewareError) (get_properties element) = Ok json_props /\
    bt_get target (get_properties element') =
      settle (on_conflict self) (bt_get target (get_properties element)) (promoted self (JObject json_props) target) /\
    match element, element' with
    | Node m _, Node m' _ => m' = m
    | Relation m i o _, Relation m' i' o' _ => m' = m /\ i' = i /\ o' = o
    | _, _ => False
    end.
Proof.
  intros Hs. unfold promote_element. destruct (property_map_to_json _) as [json| |]; cbn; [|done|done].
  destruct (out_foldl _ _ _) as [props| |] eqn:Hl; cbn; [|done|done]. intros [= <-]. exists json.
  split; [done|]. pose proof (promote_loop _ _ target _ _ _ Hs Hl) as Hg. by destruct element.
Qed.

(** Told to pass over errors and conflicts, it never refuses a change. *)
Lemma lenient_promotion_never_fails self element e :
  promote_on_error self = EH_Skip -> on_conflict self <> CS_Fail -> promote_element self element <> Err e.
Proof.
  intros He Hc. unfold promote_element.
  destruct (property_map_to_json _) as [json|e'|] eqn:Hj; cbn; [| |done].
  - assert (Hl : forall l props, out_foldl (promote_mapping self (JObject json)) props l <> Err e).
    { induction l as [|m l IH]; intros props; cbn; [done|].
      assert (Hm : forall e', promote_mapping self (JObject json) props m <> Err e').
      { intros e'. unfold promote_mapping, extract_value. rewrite He.
        destruct (execute (pm_path m) (JObject json)) as [|v []]; cbn; [done| |done].
        destruct (bt_get (target_name m) props) as [w|]; [|done]. destruct (element_value_eqb w EV_Null); [done|].
        by destruct (on_conflict self). }
      destruct (promote_mapping self (JObject json) props m) as [|e'|] eqn:Hm'; cbn; [apply IH|by destruct (Hm e')|done]. }
    destruct (out_foldl _ _ _) as [|e'|] eqn:Ho; cbn; [done| |done]. intros [= ->]. by apply (Hl _ _ Ho).
  - exfalso. revert Hj. apply (property_map_never_err (get_properties element)).
Qed.
End promote.
