(* ===== verification/MappingMiddleware.v ===== *)
(** * Middleware that makes other elements of an element (middleware/src/unwind,
      middleware/src/map)

    [Unwind] gives every selected item of an element a child node, and with it a
    relation, and deletes the children whose items are gone. [Map] turns an
    element into new elements, one for each selected value. *)

From stdpp Require Import pretty.
From S2P Require Import Prelude Text BTree Floats Hashing Ast Models Errors Values ChronoOps ResultIndex StateCodec Json.
From S2P Require Import Contexts Parts Session ContinuousQuery Middleware.

(** The order in which a hash map keyed by text is iterated. *)
Class StringMapOrder := {
  smap_entries : forall {A}, gmap string A -> list (string * A);
  smap_entries_perm : forall {A} (m : gmap string A), smap_entries m ≡ₚ map_to_list m;
}.

(** The text of a JSON value: [Display] and [to_string] of serde_json *)
Class JsonText `{JsonNumber} := {
  value_to_string : Value -> string;
  to_json_string : Value -> outcome string string;
}.

(** ** Unwind *)

Section unwind.
Context {JN : JsonNumber} {JP : JsonPath} {C : Chrono} {T : ChronoText} {MO : StringMapOrder}.

Record UnwindMapping := {
  um_selector : JsonPathExpression;
  um_label : string;
  um_key : option JsonPathExpression;
  um_relation : option string;
  um_condition : option JsonPathExpression;
}.

Record Unwind := { unwind_mappings : gmap string (list UnwindMapping) }.

Definition format_item_id (expr parent_id item_id : string) : string :=
  "$unwind-" +:+ expr +:+ "-" +:+ parent_id +:+ "-" +:+ item_id.
Definition format_relation_id (child_id : string) : string := child_id +:+ "$rel".

Definition condition_met (condition : option JsonPathExpression) (obj : Value) : bool :=
  match condition with
  | Some condition => match execute_one condition obj with Some _ => true | None => false end
  | None => true
  end.

(** The key of an item if it is a text, else its position *)
Definition item_id (mapping : UnwindMapping) (index : nat) (obj : Value) : string :=
  match um_key mapping with
  | Some key =>
      match execute_one key obj with
      | Some id => match as_str id with Some id => id | None => pretty index end
      | None => pretty index
      end
  | None => pretty index
  end.

Definition child_metadata (metadata : ElementMetadata) (mapping : UnwindMapping) (id : string) : ElementMetadata :=
  {| reference := {| source_id := source_id (reference metadata);
                     element_id := format_item_id (expression (um_selector mapping)) (element_id (reference metadata)) id |};
     labels := [um_label mapping]; effective_from := effective_from metadata |}.

Definition relation_metadata (child : ElementMetadata) (rel_label : string) : ElementMetadata :=
  {| reference := {| source_id := source_id (reference child);
                     element_id := format_relation_id (element_id (reference child)) |};
     labels := [rel_label]; effective_from := effective_from child |}.

(** A change of the kind of the given one *)
Definition same_change (source_change : SourceChange) (element : Element) : list SourceChange :=
  match source_change with
  | Insert _ => [Insert element]
  | Update _ => [Update element]
  | Delete _ => [Delete (get_metadata element)]
  | Future _ => []
  end.

Definition current_item (source_change : SourceChange) (metadata : ElementMetadata) (mapping : UnwindMapping)
    (id : string) (obj : Value) : list SourceChange :=
  let new_metadata := child_metadata metadata mapping id in
  let properties := match as_object obj with Some obj => json_to_property_map obj | None => [] end in
  let relation := (fun rel_label =>
    Relation (relation_metadata new_metadata rel_label) (reference metadata) (reference new_metadata) []) <$> um_relation mapping in
  same_change source_change (Node new_metadata properties) ++
  match relation with Some rel => same_change source_change rel | None => [] end.

Definition vanished_item (metadata : ElementMetadata) (mapping : UnwindMapping) (id : string) : list SourceChange :=
  let child := child_metadata metadata mapping id in
  Delete child :: match um_relation mapping with
                  | Some rel_label => [Delete (relation_metadata child rel_label)]
                  | None => []
                  end.

Notation ChangeMap := (gmap string (list SourceChange)).

Definition unwind_new (source_change : SourceChange) (metadata : ElementMetadata) (mapping : UnwindMapping)
    (new_obj : Value) : ChangeMap :=
  fold_left (fun change_map e =>
    let id := item_id mapping e.1 e.2 in <[id := current_item source_change metadata mapping id e.2]> change_map)
    (enumerate (execute (um_selector mapping) new_obj)) ∅.

Definition unwind_old (metadata : ElementMetadata) (mapping : UnwindMapping) (old_obj : Value) (change_map : ChangeMap) : ChangeMap :=
  fold_left (fun change_map e =>
    let id := item_id mapping e.1 e.2 in
    match change_map !! id with
    | Some _ => change_map
    | None => <[id := vanished_item metadata mapping id]> change_map
    end)
    (enumerate (execute (um_selector mapping) old_obj)) change_map.

(** [None] is the [continue] of a condition that does not hold. *)
Definition unwind_mapping (source_change : SourceChange) (metadata : ElementMetadata) (new_obj old_obj : option Value)
    (mapping : UnwindMapping) : list SourceChange :=
  let change_map :=
    match new_obj with
    | Some new_obj =>
        if condition_met (um_condition mapping) new_obj then Some (unwind_new source_change metadata mapping new_obj) else None
    | None => Some ∅
    end in
  let change_map :=
    change_map ← change_map;
    match old_obj with
    | Some old_obj =>
        if condition_met (um_condition mapping) old_obj then Some (unwind_old metadata mapping old_obj change_map) else None
    | None => Some change_map
    end in
  match change_map with
  | Some change_map => concat (map snd (smap_entries change_map))
  | None => []
  end.

Context {S : Type} `{!ElementIndexOps S}.

(** The new and the old element; [None] is the [continue] of a deleted element that is not known. *)
Definition unwind_elements (source_change : SourceChange) : SM S MiddlewareError (option (option Element * option Element)) :=
  match source_change with
  | Insert element => mret (Some (Some element, None))
  | Update element =>
      old ← sm_map_err MiddlewareIndexError (ei_get_element (get_reference element));
      mret (Some (Some element, old))
  | Delete metadata =>
      old ← sm_map_err MiddlewareIndexError (ei_get_element (reference metadata));
      mret match old with Some element => Some (None, Some element) | None => None end
  | Future _ => mret None
  end.

Definition optional_json (element : option Element) : outcome MiddlewareError (option Value) :=
  match element with Some e => v ← element_to_json e; Ok (Some v) | None => Ok None end.

Definition unwind_label (self : Unwind) (source_change : SourceChange) (metadata : ElementMetadata)
    (results : list SourceChange) (label : string) : SM S MiddlewareError (list SourceChange) :=
  match unwind_mappings self !! label with
  | None => mret results
  | Some mappings =>
      elements ← unwind_elements source_change;
      match elements with
      | None => mret results
      | Some (new_element, old_element) =>
          new_obj ← sm_lift (optional_json new_element);
          old_obj ← sm_lift (optional_json old_element);
          mret (results ++ concat (map (unwind_mapping source_change metadata new_obj old_obj) mappings))
      end
  end.

Definition change_metadata (source_change : SourceChange) : option ElementMetadata :=
  match source_change with
  | Insert element | Update element => Some (get_metadata element)
  | Delete metadata => Some metadata
  | Future _ => None
  end.

Definition unwind_process (self : Unwind) (source_change : SourceChange) : SM S MiddlewareError (list SourceChange) :=
  match change_metadata source_change with
  | None => mret [source_change]
  | Some metadata =>
      results ← sm_foldl (unwind_label self source_change metadata) [] (labels metadata);
      mret (results ++ [source_change])
  end.

Context {F : FromValue (gmap string (list UnwindMapping))}.

Definition unwind_create (config : SourceMiddlewareConfig) : outcome MiddlewareSetupError (SourceMiddleware (S:=S)) :=
  match from_value (A:=gmap string (list UnwindMapping)) (mw_config config) with
  | Err e => Err (InvalidConfiguration ("Invalid configuration: " +:+ e))
  | Panic => Panic
  | Ok mappings => Ok (unwind_process {| unwind_mappings := mappings |})
  end.

Definition unwind_factory : SourceMiddlewareFactory S :=
  {| factory_name := "unwind"; factory_create := unwind_create |}.
End unwind.

(** ** Map *)

Section map.
Context {JN : JsonNumber} {JP : JsonPath} {JT : JsonText} {C : Chrono} {T : ChronoText} {S : Type}.

Inductive MapOperation := MapInsert | MapUpdate | MapDelete.

Inductive MapElementType :=
| MapNode
| MapRelation (in_node_id out_node_id : JsonPathExpression).

Record SourceMappedOutput := {
  mo_op : option MapOperation;
  mo_selector : option JsonPathExpression;
  mo_label : option string;
  mo_id : option JsonPathExpression;
  mo_element_type : option MapElementType;
  mo_condition : option JsonPathExpression;
  mo_properties : btree string JsonPathExpression;
}.

Record SourceMappedOperations := {
  mops_insert : list SourceMappedOutput;
  mops_update : list SourceMappedOutput;
  mops_delete : list SourceMappedOutput;
}.

Record Map := { map_mappings : gmap string SourceMappedOperations }.

(** The operations of the kind of a change, and the default operation *)
Definition mappings_for (source_change : SourceChange) (mappings : SourceMappedOperations) : list SourceMappedOutput :=
  match source_change with
  | Insert _ => mops_insert mappings
  | Update _ => mops_update mappings
  | Delete _ => mops_delete mappings
  | Future _ => []
  end.

Definition default_op (source_change : SourceChange) : option MapOperation :=
  match source_change with
  | Insert _ => Some MapInsert
  | Update _ => Some MapUpdate
  | Delete _ => Some MapDelete
  | Future _ => None
  end.

(** A deleted element is seen as a node without properties. *)
Definition mapped_element (source_change : SourceChange) : option Element :=
  match source_change with
  | Insert element | Update element => Some element
  | Delete metadata => Some (Node metadata [])
  | Future _ => None
  end.

(** The id that an expression selects; a value that is no text is printed. *)
Definition select_id (e : JsonPathExpression) (source_obj : Value) : option string :=
  id ← execute_one e source_obj;
  Some match as_str id with Some id => id | None => value_to_string id end.

Definition with_element_id (id : string) (m : ElementMetadata) : ElementMetadata :=
  {| reference := {| source_id := source_id (reference m); element_id := id |}; labels := labels m; effective_from := effective_from m |}.
Definition with_labels (l : list string) (m : ElementMetadata) : ElementMetadata :=
  {| reference := reference m; labels := l; effective_from := effective_from m |}.

(** A property whose expression selects nothing is left out. *)
Definition mapped_properties (mapping : SourceMappedOutput) (source_obj : Value) : ElementPropertyMap :=
  fold_left (fun properties e =>
    match execute_one e.2 source_obj with
    | Some p => bt_insert e.1 (json_to_element_value p) properties
    | None => properties
    end) (mo_properties mapping) [].

Definition emit (op : MapOperation) (new_element : Element) : SourceChange :=
  match op with
  | MapInsert => Insert new_element
  | MapUpdate => Update new_element
  | MapDelete => Delete (get_metadata new_element)
  end.

(** [None] where the code goes on with the next selected value *)
Definition map_selected (op : MapOperation) (metadata : ElementMetadata) (element : Element) (mapping : SourceMappedOutput)
    (source_obj : Value) : option SourceChange :=
  if condition_met (mo_condition mapping) source_obj then
    new_metadata ← match mo_id mapping with
                   | Some id => id ← select_id id source_obj; Some (with_element_id id metadata)
                   | None => Some metadata
                   end;
    let new_metadata := match mo_label mapping with Some label => with_labels [label] new_metadata | None => new_metadata end in
    let properties := mapped_properties mapping source_obj in
    new_element ← match mo_element_type mapping with
                  | Some MapNode => Some (Node new_metadata properties)
                  | Some (MapRelation in_node_id out_node_id) =>
                      in_node_id ← select_id in_node_id source_obj;
                      out_node_id ← select_id out_node_id source_obj;
                      Some (Relation new_metadata
                              {| source_id := source_id (reference metadata); element_id := in_node_id |}
                              {| source_id := source_id (reference metadata); element_id := out_node_id |} properties)
                  | None =>
                      Some match element with
                           | Node _ _ => Node new_metadata properties
                           | Relation _ in_node out_node _ => Relation new_metadata in_node out_node properties
                           end
                  end;
    Some (emit op new_element)
  else None.

Definition select (source_obj s : Value) : Value :=
  match source_obj with JObject obj => JObject (bt_insert "$selected" s obj) | v => v end.

(** One mapping: the object keeps the value selected last. *)
Definition map_mapping (source_change : SourceChange) (metadata : ElementMetadata) (element : Element)
    (results : list SourceChange) (mapping : SourceMappedOutput) : outcome MiddlewareError (list SourceChange) :=
  match (match mo_op mapping with Some op => Some op | None => default_op source_change end) with
  | None => Ok results
  | Some op =>
      source_obj ← element_to_json element;
      let selected := match mo_selector mapping with Some selector => execute selector source_obj | None => [source_obj] end in
      Ok (fold_left (fun acc s =>
            let source_obj := select acc.2 s in
            (acc.1 ++ option_list (map_selected op metadata element mapping source_obj), source_obj))
          selected (results, source_obj)).1
  end.

Definition map_label (self : Map) (source_change : SourceChange) (metadata : ElementMetadata)
    (results : list SourceChange) (label : string) : outcome MiddlewareError (list SourceChange) :=
  match map_mappings self !! label, mapped_element source_change with
  | Some mappings, Some element =>
      out_foldl (map_mapping source_change metadata element) results (mappings_for source_change mappings)
  | _, _ => Ok results
  end.

Definition map_process (self : Map) (source_change : SourceChange) : outcome MiddlewareError (list SourceChange) :=
  match change_metadata source_change with
  | None => Ok [source_change]
  | Some metadata => out_foldl (map_label self source_change metadata) [] (labels metadata)
  end.

Context {F : FromValue (gmap string SourceMappedOperations)}.

Definition map_create (config : SourceMiddlewareConfig) : outcome MiddlewareSetupError (SourceMiddleware (S:=S)) :=
  match from_value (A:=gmap string SourceMappedOperations) (mw_config config) with
  | Err e => Err (InvalidConfiguration ("Invalid configuration: " +:+ e))
  | Panic => Panic
  | Ok mappings => Ok (fun change => sm_lift (map_process {| map_mappings := mappings |} change))
  end.

Definition map_factory : SourceMiddlewareFactory S :=
  {| factory_name := "map"; factory_create := map_create |}.
End map.

(** * Unwinding keeps the children of an element in step with its items

    The emitted changes are read as what they make of the set of live elements:
    an insert or update makes its element live, a delete ends it. *)

(** ** Live elements *)

Section live.
Context {C : Chrono}.
Implicit Types (live : gset ElementReference) (r : ElementReference).

Definition live_step live (c : SourceChange) : gset ElementReference :=
  match c with
  | Insert e | Update e => {[ get_reference e ]} ∪ live
  | Delete m => live ∖ {[ reference m ]}
  | Future _ => live
  end.

Definition live_after (cs : list SourceChange) live : gset ElementReference := fold_left live_step cs live.

(** The changes make the elements of [P] live, or end them, and touch no other. *)
Definition effect (cs : list SourceChange) (P : ElementReference -> Prop) (b : Prop) : Prop :=
  forall live r, (P r -> (r ∈ live_after cs live <-> b)) /\ (~ P r -> (r ∈ live_after cs live <-> r ∈ live)).

Lemma live_after_app cs cs' live : live_after (cs ++ cs') live = live_after cs' (live_after cs live).
Proof. apply fold_left_app. Qed.

(** Groups of changes that touch different elements *)
Lemma effect_concat {A} (l : list (A * list SourceChange)) (P : A -> ElementReference -> Prop) (b : A -> Prop) live r :
  NoDup (map fst l) -> (forall e, e ∈ l -> effect e.2 (P e.1) (b e.1)) ->
  (forall e e', e ∈ l -> e' ∈ l -> e.1 <> e'.1 -> P e.1 r -> ~ P e'.1 r) ->
  (forall a, a ∈ map fst l -> P a r -> (r ∈ live_after (concat (map snd l)) live <-> b a)) /\
  ((forall a, a ∈ map fst l -> ~ P a r) -> (r ∈ live_after (concat (map snd l)) live <-> r ∈ live)).
Proof.
  revert live. induction l as [|[a cs] l IH]; intros live Hnd He Hd; cbn.
  { split; [by intros a ?%elem_of_nil|done]. }
  cbn in Hnd. apply NoDup_cons in Hnd as [Ha Hnd]. rewrite live_after_app.
  assert (Hhead : effect cs (P a) (b a)) by (apply (He (a, cs)); constructor).
  destruct (IH (live_after cs live)) as [IHin IHout]; [done|intros; apply He; by constructor|intros; eapply Hd; eauto; by constructor|].
  split.
  - intros a' [->|Ha']%elem_of_cons Hp; [|by apply IHin].
    rewrite IHout; [by apply Hhead|]. intros a' Ha' Hp'.
    apply list_elem_of_fmap in Ha' as ([a'' cs'] & -> & Hin). cbn in Hp'.
    apply (Hd (a, cs) (a'', cs')); [constructor|by constructor| |done|done].
    cbn. intros <-. apply Ha. by apply (list_elem_of_fmap_2 fst _ (a, cs')).
  - intros Hno. rewrite IHout; [apply Hhead, Hno; constructor|]. intros a' Ha'. apply Hno. by constructor.
Qed.
End live.

(** ** The children of one mapping *)

Section unwind.
Context {JN : JsonNumber} {JP : JsonPath} {C : Chrono} {T : ChronoText} {MO : StringMapOrder}.
Implicit Types (mapping : UnwindMapping) (metadata : ElementMetadata) (id : string).

Definition child_refs metadata mapping id : list ElementReference :=
  let child := child_metadata metadata mapping id in
  reference child :: match um_relation mapping with
                     | Some rel_label => [reference (relation_metadata child rel_label)]
                     | None => []
                     end.

Definition item_ids mapping (obj : Value) : list string :=
  map (fun e => item_id mapping e.1 e.2) (enumerate (execute (um_selector mapping) obj)).

(** No key of an item is another key followed by the suffix of relations. *)
Definition clash_free (keys : string -> Prop) : Prop := forall i j, keys i -> keys j -> i +:+ "$rel" <> j.

Lemma child_id_inj metadata mapping i j :
  reference (child_metadata metadata mapping i) = reference (child_metadata metadata mapping j) -> i = j.
Proof.
  intros Heq%(f_equal element_id). cbn in Heq. unfold format_item_id in Heq. by do 5 apply append_inj_l in Heq.
Qed.

Lemma child_refs_disjoint metadata mapping keys i j r :
  clash_free keys -> keys i -> keys j -> i <> j ->
  r ∈ child_refs metadata mapping i -> ~ r ∈ child_refs metadata mapping j.
Proof.
  intros Hk Hi Hj Hne. unfold child_refs.
  assert (Hrel : forall i j rel, keys i -> keys j ->
    reference (relation_metadata (child_metadata metadata mapping i) rel) <> reference (child_metadata metadata mapping j)).
  { intros i' j' rel Hi' Hj' Heq%(f_equal element_id). apply (Hk i' j' Hi' Hj'). cbn in Heq. unfold format_relation_id, format_item_id in Heq.
    rewrite !append_assoc in Heq. by do 5 apply append_inj_l in Heq. }
  assert (Hch : reference (child_metadata metadata mapping i) <> reference (child_metadata metadata mapping j)).
  { intros Heq. by apply child_id_inj in Heq. }
  assert (Hrr : forall rel, reference (relation_metadata (child_metadata metadata mapping i) rel) <>
    reference (relation_metadata (child_metadata metadata mapping j) rel)).
  { intros rel Heq%(f_equal element_id). apply Hch. cbn in *. unfold format_relation_id in Heq. apply append_inj_r in Heq. by rewrite Heq. }
  destruct (um_relation mapping) as [rel|]; rewrite !elem_of_cons, ?elem_of_nil.
  - intros [->|[->|[]]] [Heq|[Heq|[]]]; [by apply Hch|by apply (Hrel j i rel)|by apply (Hrel i j rel)|by apply (Hrr rel)].
  - intros [->|[]] [Heq|[]]. by apply Hch.
Qed.

Lemma current_item_effect source_change metadata mapping id obj :
  (match source_change with Insert _ | Update _ => True | _ => False end) ->
  effect (current_item source_change metadata mapping id obj) (fun r => r ∈ child_refs metadata mapping id) True.
Proof.
  intros Hc live r. unfold current_item, child_refs, live_after.
  destruct source_change, (um_relation mapping); try done; cbn; set_solver.
Qed.

Lemma vanished_item_effect metadata mapping id :
  effect (vanished_item metadata mapping id) (fun r => r ∈ child_refs metadata mapping id) False.
Proof. intros live r. unfold vanished_item, child_refs, live_after. destruct (um_relation mapping); cbn; set_solver. Qed.

(** ** The changes collected for one mapping *)

Lemma unwind_new_spec source_change metadata mapping obj id :
  match unwind_new source_change metadata mapping obj !! id with
  | Some cs => id ∈ item_ids mapping obj /\ exists v, cs = current_item source_change metadata mapping id v
  | None => id ∉ item_ids mapping obj
  end.
Proof.
  unfold unwind_new, item_ids. generalize (enumerate (execute (um_selector mapping) obj)). intros l.
  cut (forall cm : gmap string (list SourceChange), match fold_left (fun change_map e =>
        <[item_id mapping e.1 e.2 := current_item source_change metadata mapping (item_id mapping e.1 e.2) e.2]> change_map) l cm !! id with
     | Some cs => (id ∈ map (fun e => item_id mapping e.1 e.2) l /\ exists v, cs = current_item source_change metadata mapping id v) \/
                  (id ∉ map (fun e => item_id mapping e.1 e.2) l /\ cm !! id = Some cs)
     | None => id ∉ map (fun e => item_id mapping e.1 e.2) l /\ cm !! id = None
     end).
  { intros Hl. specialize (Hl ∅). destruct (fold_left _ l ∅ !! id); [|by destruct Hl].
    destruct Hl as [|[_ Hl]]; [done|]. by rewrite lookup_empty in Hl. }
  induction l as [|e l IH]; intros cm; cbn [fold_left map].
  { destruct (cm !! id) eqn:Hid; [right|]; split; [apply not_elem_of_nil|done|apply not_elem_of_nil|done]. }
  specialize (IH (<[item_id mapping e.1 e.2 := current_item source_change metadata mapping (item_id mapping e.1 e.2) e.2]> cm)).
  destruct (fold_left _ l _ !! id) as [cs|].
  - destruct IH as [[Hin Hv]|[Hout Hcm]]; [left; split; [by constructor|done]|].
    destruct (decide (item_id mapping e.1 e.2 = id)) as [Heq|Hne].
    + rewrite Heq, lookup_insert_eq in Hcm. injection Hcm as <-. left. split; [rewrite Heq; constructor|by eexists].
    + rewrite lookup_insert_ne in Hcm by done. right. split; [|done]. by rewrite not_elem_of_cons.
  - destruct IH as [Hout Hcm]. apply lookup_insert_None in Hcm as [Hcm Hne]. split; [|done]. by rewrite not_elem_of_cons.
Qed.

Lemma unwind_old_spec metadata mapping obj cm id :
  unwind_old metadata mapping obj cm !! id =
  match cm !! id with
  | Some cs => Some cs
  | None => if decide (id ∈ item_ids mapping obj) then Some (vanished_item metadata mapping id) else None
  end.
Proof.
  unfold unwind_old, item_ids. generalize (enumerate (execute (um_selector mapping) obj)). intros l.
  revert cm. induction l as [|e l IH]; intros cm; cbn [fold_left map].
  { destruct (cm !! id); [done|]. rewrite decide_False; [done|]. apply not_elem_of_nil. }
  rewrite IH. clear IH. destruct (cm !! item_id mapping e.1 e.2) as [cs|] eqn:Hitem.
  - destruct (cm !! id) eqn:Hid; [done|]. assert (id <> item_id mapping e.1 e.2) by congruence.
    repeat case_decide; try done; set_solver.
  - destruct (decide (item_id mapping e.1 e.2 = id)) as [<-|Hne].
    + rewrite lookup_insert_eq, Hitem. rewrite decide_True; [done|constructor].
    + rewrite lookup_insert_ne by done. destruct (cm !! id); [done|]. repeat case_decide; try done; set_solver.
Qed.

(** ** The effect of a mapping *)

Definition shown mapping (obj : option Value) : list string :=
  match obj with Some obj => item_ids mapping obj | None => [] end.

(** The condition, if any, holds of the element before and after. *)
Definition steady mapping (new_obj old_obj : option Value) : Prop :=
  forall o, new_obj = Some o \/ old_obj = Some o -> condition_met (um_condition mapping) o = true.

Lemma smap_entries_elem {A} (m : gmap string A) e : e ∈ smap_entries m <-> m !! e.1 = Some e.2.
Proof. rewrite (smap_entries_perm m). destruct e. apply elem_of_map_to_list. Qed.

Lemma smap_entries_nodup {A} (m : gmap string A) : NoDup (map fst (smap_entries m)).
Proof. rewrite (Permutation_map fst (smap_entries_perm m)). apply NoDup_fst_map_to_list. Qed.

(** What is collected, when the conditions hold *)
Definition collected source_change metadata mapping new_obj old_obj (cm : gmap string (list SourceChange)) : Prop :=
  forall id, match cm !! id with
    | Some cs => (id ∈ shown mapping new_obj /\ exists v, cs = current_item source_change metadata mapping id v) \/
                 (id ∉ shown mapping new_obj /\ id ∈ shown mapping old_obj /\ cs = vanished_item metadata mapping id)
    | None => id ∉ shown mapping new_obj /\ id ∉ shown mapping old_obj
    end.

Lemma unwind_mapping_collects source_change metadata mapping new_obj old_obj :
  (unwind_mapping source_change metadata new_obj old_obj mapping = [] /\ ~ steady mapping new_obj old_obj) \/
  exists cm, unwind_mapping source_change metadata new_obj old_obj mapping = concat (map snd (smap_entries cm)) /\
    collected source_change metadata mapping new_obj old_obj cm.
Proof.
  unfold unwind_mapping, steady.
  assert (Hnew : forall cm, (forall id, match cm !! id with
      | Some cs => id ∈ shown mapping new_obj /\ exists v, cs = current_item source_change metadata mapping id v
      | None => id ∉ shown mapping new_obj end) ->
    (match old_obj with
     | Some old_obj => if condition_met (um_condition mapping) old_obj then Some (unwind_old metadata mapping old_obj cm) else None
     | None => Some cm
     end = None /\ exists o, old_obj = Some o /\ condition_met (um_condition mapping) o = false) \/
    exists cm', match old_obj with
     | Some old_obj => if condition_met (um_condition mapping) old_obj then Some (unwind_old metadata mapping old_obj cm) else None
     | None => Some cm
     end = Some cm' /\ collected source_change metadata mapping new_obj old_obj cm').
  { intros cm Hcm. destruct old_obj as [o|]; [destruct (condition_met _ o) eqn:Ho|].
    - right. eexists. split; [done|]. intros id. rewrite unwind_old_spec. specialize (Hcm id).
      destruct (cm !! id); [by left|]. cbn. case_decide; [right|]; auto.
    - left. split; [done|]. by exists o.
    - right. exists cm. split; [done|]. intros id. specialize (Hcm id).
      destruct (cm !! id); [by left|]. split; [done|apply not_elem_of_nil]. }
  destruct new_obj as [o|]; [destruct (condition_met _ o) eqn:Ho|]; cbn [mbind option_bind].
  - destruct (Hnew (unwind_new source_change metadata mapping o)) as [(-> & o' & Ho' & Hf)|(cm & -> & Hcm)];
      [intros id; apply unwind_new_spec|left|right].
    + split; [done|]. intros Hst. rewrite (Hst o') in Hf by by right. done.
    + by exists cm.
  - left. split; [done|]. intros Hst. rewrite (Hst o) in Ho by by left. done.
  - destruct (Hnew ∅) as [(-> & o' & Ho' & Hf)|(cm & -> & Hcm)];
      [intros id; rewrite lookup_empty; apply not_elem_of_nil|left|right].
    + split; [done|]. intros Hst. rewrite (Hst o') in Hf by by right. done.
    + by exists cm.
Qed.

(** The changes of a mapping end the children of vanished items, make those of
    the current items live and touch nothing but the children of both. *)
Lemma unwind_mapping_effect source_change metadata mapping new_obj old_obj keys live r :
  (match source_change, new_obj with Insert _, _ | Update _, _ | _, None => True | _, _ => False end) ->
  clash_free keys ->
  (forall id, id ∈ shown mapping new_obj \/ id ∈ shown mapping old_obj -> keys id) ->
  let after := live_after (unwind_mapping source_change metadata new_obj old_obj mapping) live in
  (steady mapping new_obj old_obj -> forall id, keys id -> r ∈ child_refs metadata mapping id ->
     (r ∈ live -> id ∈ shown mapping old_obj) -> (r ∈ after <-> id ∈ shown mapping new_obj)) /\
  ((forall id, keys id -> r ∉ child_refs metadata mapping id) -> (r ∈ after <-> r ∈ live)).
Proof.
  intros Hsc Hclash Hkeys after. subst after.
  destruct (unwind_mapping_collects source_change metadata mapping new_obj old_obj) as [[-> Hst]|(cm & -> & Hcm)]; [done|].
  assert (Hin : forall id, id ∈ map fst (smap_entries cm) -> keys id).
  { intros id ([? cs] & -> & He)%list_elem_of_fmap. apply smap_entries_elem in He. cbn in *. specialize (Hcm s).
    rewrite He in Hcm. apply Hkeys. destruct Hcm as [[? _]|(_ & ? & _)]; auto. }
  destruct (effect_concat (smap_entries cm) (fun id r => r ∈ child_refs metadata mapping id)
    (fun id => id ∈ shown mapping new_obj) live r) as [Htouched Hrest].
  - apply smap_entries_nodup.
  - intros [id cs] He live' r'. apply smap_entries_elem in He. cbn in *. specialize (Hcm id). rewrite He in Hcm.
    destruct Hcm as [[Hn (v & ->)]|(Hn & _ & ->)].
    + destruct (current_item_effect source_change metadata mapping id v) with (live := live') (r := r') as [H1 H2].
      { destruct source_change, new_obj; try done; cbn in Hn; by apply elem_of_nil in Hn. }
      split; [|done]. intros Hr. by rewrite H1.
    + destruct (vanished_item_effect metadata mapping id live' r') as [H1 H2]. split; [|done]. intros Hr. by rewrite H1.
  - intros e e' He He' Hne. eapply child_refs_disjoint; [exact Hclash| | |exact Hne];
      apply Hin; by apply (list_elem_of_fmap_2 fst).
  - split.
    + intros _ id Hk Hr Hlive. destruct (decide (id ∈ map fst (smap_entries cm))) as [Hid|Hid]; [by apply Htouched|].
      rewrite Hrest.
      * assert (Hnone : cm !! id = None).
        { destruct (cm !! id) as [cs|] eqn:Hl; [|done]. destruct Hid.
          apply (list_elem_of_fmap_2 fst _ (id, cs)). by apply smap_entries_elem. }
        specialize (Hcm id). rewrite Hnone in Hcm. destruct Hcm as [Hn Ho]. split; [intros Hl; by destruct Ho; auto|done].
      * intros id' Hid'. eapply child_refs_disjoint; [exact Hclash|exact Hk|by apply Hin| |exact Hr]. congruence.
    + intros Hno. apply Hrest. intros id Hid. apply Hno. by apply Hin.
Qed.
End unwind.

(** ** The whole change *)

Section process.
Context {JN : JsonNumber} {JP : JsonPath} {C : Chrono} {T : ChronoText} {MO : StringMapOrder}.
Context {S : Type} `{!ElementIndexOps S}.
Implicit Types (self : Unwind) (metadata : ElementMetadata).

(** The mappings of the labels of an element, one after the other *)
Definition jobs self metadata : list UnwindMapping :=
  concat (map (fun label => default [] (unwind_mappings self !! label)) (labels metadata)).

(** The element after and before a change; [stored] is the one the index holds. *)
Definition new_element (c : SourceChange) : option Element :=
  match c with Insert e | Update e => Some e | _ => None end.
Definition old_element (c : SourceChange) (stored : option Element) : option Element :=
  match c with Insert _ => None | _ => stored end.

Lemma unwind_mapping_nothing c metadata mapping : unwind_mapping c metadata None None mapping = [].
Proof.
  unfold unwind_mapping. cbn. pose proof (smap_entries_perm (∅ : gmap string (list SourceChange))) as Hp.
  rewrite map_to_list_empty in Hp. by apply Permutation_nil_r in Hp as ->.
Qed.

Lemma unwind_process_run self c metadata st stored new_obj old_obj :
  change_metadata c = Some metadata -> ei_get_element (reference metadata) st = (Ok stored, st) ->
  optional_json (new_element c) = Ok new_obj -> optional_json (old_element c stored) = Ok old_obj ->
  unwind_process self c st =
    (Ok (concat (map (unwind_mapping c metadata new_obj old_obj) (jobs self metadata)) ++ [c]), st).
Proof.
  intros Hm Hget Hnew Hold. unfold unwind_process. rewrite Hm.
  assert (Hlabel : forall results label, unwind_label self c metadata results label st =
    (Ok (results ++ concat (map (unwind_mapping c metadata new_obj old_obj) (default [] (unwind_mappings self !! label)))), st)).
  { intros results label. unfold unwind_label. destruct (unwind_mappings self !! label) as [ms|]; [|by rewrite app_nil_r].
    destruct c as [e|e|m|f]; cbn in Hm; simplify_eq; cbn in Hnew, Hold |- *; unfold mbind, SM_bind, sm_map_err; cbn.
    - injection Hold as <-. destruct (element_to_json e) as [j| |]; [|done|done]. cbn in Hnew. by injection Hnew as <-.
    - change (get_reference e) with (reference (get_metadata e)). rewrite Hget. cbn. unfold sm_lift. cbn. rewrite Hold.
      destruct (element_to_json e) as [j| |]; [|done|done]. cbn in Hnew. by injection Hnew as <-.
    - injection Hnew as <-. rewrite Hget. cbn. destruct stored as [e|]; cbn in Hold |- *.
      + destruct (element_to_json e) as [j| |]; [|done|done]. cbn in Hold |- *. by injection Hold as <-.
      + injection Hold as <-. f_equal. f_equal.
        replace (concat _) with (@nil SourceChange); [by rewrite app_nil_r|].
        induction ms as [|mp ms IH]; [done|]. cbn [map concat default from_option id] in *. by rewrite unwind_mapping_nothing. }
  erewrite sm_bind_ok by (apply (sm_foldl_pure _ (fun results label =>
    results ++ concat (map (unwind_mapping c metadata new_obj old_obj) (default [] (unwind_mappings self !! label))))); auto).
  assert (Hfold : forall ls acc, fold_left (fun results label =>
      results ++ concat (map (unwind_mapping c metadata new_obj old_obj) (default [] (unwind_mappings self !! label)))) ls acc =
    acc ++ concat (map (unwind_mapping c metadata new_obj old_obj)
      (concat (map (fun label => default [] (unwind_mappings self !! label)) ls)))).
  { induction ls as [|l ls IH]; intros acc; cbn; [by rewrite app_nil_r|].
    by rewrite IH, <- app_assoc, map_app, concat_app. }
  by rewrite Hfold.
Qed.

(** The id of a child is longer than that of its parent. *)
Lemma child_ref_not_parent metadata mapping id r : r ∈ child_refs metadata mapping id -> r <> reference metadata.
Proof.
  assert (Hlong : forall x, x = format_item_id (expression (um_selector mapping)) (element_id (reference metadata)) id \/
    x = format_relation_id (format_item_id (expression (um_selector mapping)) (element_id (reference metadata)) id) ->
    x <> element_id (reference metadata)).
  { intros x Hx Heq. apply (f_equal String.length) in Heq. unfold format_relation_id, format_item_id in Hx.
    destruct Hx as [-> | ->]; rewrite ?append_length in Heq; cbn in Heq; lia. }
  unfold child_refs. rewrite elem_of_cons. intros Hr Heq. apply (Hlong (element_id r)); [|by rewrite Heq].
  destruct Hr as [->|Hr]; [by left|]. destruct (um_relation mapping); [|by apply elem_of_nil in Hr].
  apply list_elem_of_singleton in Hr as ->. by right.
Qed.

(** Children of different mappings are different elements. *)
Definition separate metadata (keys : string -> Prop) (ms : list UnwindMapping) : Prop :=
  ForallOrdPairs (fun m m' => forall i j r, keys i -> keys j -> r ∈ child_refs metadata m i -> r ∉ child_refs metadata m' j) ms.

Lemma unwind_jobs_effect c metadata new_obj old_obj keys ms live m id r :
  (match c, new_obj with Insert _, _ | Update _, _ | _, None => True | _, _ => False end) ->
  clash_free keys -> separate metadata keys ms ->
  (forall m id, m ∈ ms -> id ∈ shown m new_obj \/ id ∈ shown m old_obj -> keys id) ->
  m ∈ ms -> steady m new_obj old_obj -> keys id -> r ∈ child_refs metadata m id ->
  (r ∈ live -> id ∈ shown m old_obj) ->
  r ∈ live_after (concat (map (unwind_mapping c metadata new_obj old_obj) ms)) live <-> id ∈ shown m new_obj.
Proof.
  intros Hc Hclash Hsep Hkeys Hm Hst Hid Hr. revert live.
  assert (Hframe : forall ms' live, (forall m' id', m' ∈ ms' -> keys id' -> r ∉ child_refs metadata m' id') ->
    (forall m', m' ∈ ms' -> m' ∈ ms) ->
    (r ∈ live_after (concat (map (unwind_mapping c metadata new_obj old_obj) ms')) live <-> r ∈ live)).
  { induction ms' as [|m' ms' IH]; intros live Hno Hsub; [done|]. cbn [map concat]. rewrite live_after_app.
    rewrite IH; [|intros; apply Hno; [by constructor|done]|intros; apply Hsub; by constructor].
    apply (unwind_mapping_effect c metadata m' new_obj old_obj keys); [done|done| |].
    - intros id'. apply Hkeys, Hsub. constructor.
    - intros id'. apply Hno. constructor. }
  clear -Hc Hclash Hsep Hkeys Hm Hst Hid Hr Hframe.
  apply list_elem_of_split in Hm as (l1 & l2 & ->). intros live Hlive.
  rewrite map_app, concat_app, live_after_app. cbn [map concat]. rewrite live_after_app.
  rewrite Hframe; [|..|intros; rewrite elem_of_app, elem_of_cons; auto].
  - apply (unwind_mapping_effect c metadata m new_obj old_obj keys); [done|done| |done|done|done|].
    + intros id'. apply Hkeys. rewrite elem_of_app. right. constructor.
    + rewrite Hframe; [done|..|intros; rewrite elem_of_app; auto].
      intros m' id' Hm' Hid'. clear -Hsep Hm' Hid Hid' Hr. induction l1 as [|m1 l1 IH]; [by apply elem_of_nil in Hm'|].
      inversion Hsep as [|? ? Hall Hrest]; subst. apply elem_of_cons in Hm' as [->|Hm']; [|by apply IH].
      rewrite Forall_forall in Hall. intros Hr'. eapply (Hall m); [|exact Hid'|exact Hid|exact Hr'|exact Hr].
      rewrite elem_of_app. right. constructor.
  - intros m' id' Hm' Hid'. clear -Hsep Hm' Hid Hid' Hr. induction l1 as [|m1 l1 IH].
    + cbn in Hsep. inversion Hsep as [|? ? Hall Hrest]; subst. rewrite Forall_forall in Hall.
      exact (Hall m' Hm' id id' r Hid Hid' Hr).
    + cbn in Hsep. inversion Hsep; subst. by apply IH.
Qed.

End process.
