(* ===== verification/JqMiddleware.v ===== *)
(** * The middleware of jq programs (middleware/src/jq)

    Each mapping runs a jq program on the JSON of the element; the programs are
    compiled once and kept in a cache of the thread. Whatever fails is an error
    when the mapping halts on errors and is passed over otherwise. *)

From S2P Require Import Prelude BTree Floats Hashing Ast Models Errors Values ChronoOps ResultIndex StateCodec Json.
From S2P Require Import Contexts Parts Session ContinuousQuery Middleware MappingMiddleware.

(** Crate jq_rs: the error is its text, and a program keeps nothing between runs. *)
Class JqLib := {
  JqProgram : Type;
  jq_compile : string -> outcome string JqProgram;
  jq_run : JqProgram -> string -> outcome string string;
}.

(** The cache is a thread-local variable. *)
Class JqCacheOps `{JqLib} (S : Type) := {
  jq_cache : S -> gmap string JqProgram;
  set_jq_cache : gmap string JqProgram -> S -> S;
}.

Section jq.
Context {JN : JsonNumber} {D : Decoders} {JT : JsonText} {JQL : JqLib} {C : Chrono} {T : ChronoText}.
Context {S : Type} `{!JqCacheOps S}.

Inductive JqElementType :=
| JqNode
| JqRelation (in_node_id out_node_id : string).

Record JqMappedOutput := {
  jo_op : option MapOperation;
  jo_label : option string;
  jo_id : option string;
  jo_element_type : option JqElementType;
  jo_query : string;
  halt_on_error : bool;
}.

Record JqMappedOperations := {
  jops_insert : list JqMappedOutput;
  jops_update : list JqMappedOutput;
  jops_delete : list JqMappedOutput;
}.

Record JQ := { jq_mappings : gmap string JqMappedOperations }.

(** Every error of [run_jq] and [jq_get_string] is a [SourceChangeError]: they give its message. *)
Definition run_jq (query input : string) : SM S string string := fun s =>
  let run program s := (map_err (fun e => "JQ execution error: " +:+ e) (jq_run program input), s) in
  match jq_cache s !! query with
  | Some program => run program s
  | None =>
      match jq_compile query with
      | Ok program => run program (set_jq_cache (<[query := program]> (jq_cache s)) s)
      | Err e => (Err ("JQ compilation error: " +:+ e), s)
      | Panic => (Panic, s)
      end
  end.

(** The rest is written over the function that runs a program. *)
Section runner.
Variable run : string -> string -> SM S string string.

Definition jq_get_string (query input : string) : SM S string string :=
  output ← run query input;
  v ← sm_lift (map_err (fun e => "Failed to parse JQ output as JSON: " +:+ e) (json_value_from_str output));
  mret match as_str v with Some s => s | None => value_to_string v end.

(** [None] where the code goes on with the next mapping or item *)
Definition attempt {A} (halt : bool) (describe : string -> string) (m : SM S string A) : SM S MiddlewareError (option A) :=
  fun s => match m s with
           | (Ok a, s) => (Ok (Some a), s)
           | (Err e, s) => if halt then (Err (SourceChangeError (describe e)), s) else (Ok None, s)
           | (Panic, s) => (Panic, s)
           end.

(** The message of a failed part holds the text of the inner error. *)
Definition failed_part (part : string) (e : string) : string :=
  "Failed to get " +:+ part +:+ " from JQ expression: Error processing source change: " +:+ e.

Definition attempt_string (halt : bool) (part query input : string) : SM S MiddlewareError (option string) :=
  attempt halt (failed_part part) (jq_get_string query input).

(** An optional expression: without one the given value stays. *)
Definition attempt_optional {A} (halt : bool) (part : string) (query : option string) (input : string)
    (update : string -> A -> A) (a : A) : SM S MiddlewareError (option A) :=
  match query with
  | None => mret (Some a)
  | Some query => r ← attempt_string halt part query input; mret ((fun t => update t a) <$> r)
  end.

(** Goes on with [k] unless [m] passed over the item. *)
Definition or_skip {A B} (m : SM S MiddlewareError (option A)) (k : A -> SM S MiddlewareError (option B)) :
    SM S MiddlewareError (option B) :=
  r ← m; match r with Some a => k a | None => mret None end.

Definition jq_item (op : MapOperation) (metadata : ElementMetadata) (element : Element) (mapping : JqMappedOutput)
    (item : Value) : SM S MiddlewareError (option SourceChange) :=
  let item_str := value_to_string item in
  let halt := halt_on_error mapping in
  or_skip (attempt_optional halt "id" (jo_id mapping) item_str with_element_id metadata) (fun new_metadata =>
  or_skip (attempt_optional halt "label" (jo_label mapping) item_str (fun l => with_labels [l]) new_metadata) (fun new_metadata =>
  match jo_element_type mapping with
  | Some JqNode => mret (Some (emit op (Node new_metadata (value_to_property_map item))))
  | Some (JqRelation in_node_id out_node_id) =>
      or_skip (attempt_string halt "in_node_id" in_node_id item_str) (fun in_node_id =>
      or_skip (attempt_string halt "out_node_id" out_node_id item_str) (fun out_node_id =>
      mret (Some (emit op (Relation new_metadata
        {| source_id := source_id (reference metadata); element_id := in_node_id |}
        {| source_id := source_id (reference metadata); element_id := out_node_id |} (value_to_property_map item))))))
  | None =>
      mret (Some (emit op
        match element with
        | Node _ _ => Node new_metadata (value_to_property_map item)
        | Relation _ in_node out_node _ => Relation new_metadata in_node out_node (value_to_property_map item)
        end))
  end)).

(** The items a program gives: none for an empty output, the elements of an array, or one value *)
Definition jq_output (mapping : JqMappedOutput) (source_obj : Value) : SM S MiddlewareError (option (list Value)) :=
  let halt := halt_on_error mapping in
  or_skip (attempt halt (fun e => "Failed to serialize source object to string: " +:+ e) (sm_lift (to_json_string source_obj)))
    (fun source_obj_str =>
  or_skip (attempt halt (fun e => e) (run (jo_query mapping) source_obj_str)) (fun output =>
  if (output =? EmptyString)%string then mret None
  else or_skip (attempt halt (fun e => "Failed to parse JQ output as JSON: " +:+ e) (sm_lift (json_value_from_str output)))
    (fun v => mret (Some match v with JArray l => l | v => [v] end)))).

Definition jq_mapping (source_change : SourceChange) (metadata : ElementMetadata) (element : Element)
    (results : list SourceChange) (mapping : JqMappedOutput) : SM S MiddlewareError (list SourceChange) :=
  match (match jo_op mapping with Some op => Some op | None => default_op source_change end) with
  | None => mret results
  | Some op =>
      source_obj ← sm_lift (element_to_json element);
      items ← jq_output mapping source_obj;
      sm_foldl (fun results item =>
        change ← jq_item op metadata element mapping item;
        mret (results ++ option_list change)) results (default [] items)
  end.

Definition jq_mappings_for (source_change : SourceChange) (mappings : JqMappedOperations) : list JqMappedOutput :=
  match source_change with
  | Insert _ => jops_insert mappings
  | Update _ => jops_update mappings
  | Delete _ => jops_delete mappings
  | Future _ => []
  end.

Definition jq_label (self : JQ) (source_change : SourceChange) (metadata : ElementMetadata)
    (results : list SourceChange) (label : string) : SM S MiddlewareError (list SourceChange) :=
  match jq_mappings self !! label, mapped_element source_change with
  | Some mappings, Some element =>
      sm_foldl (jq_mapping source_change metadata element) results (jq_mappings_for source_change mappings)
  | _, _ => mret results
  end.

Definition jq_process_with (self : JQ) (source_change : SourceChange) : SM S MiddlewareError (list SourceChange) :=
  match change_metadata source_change with
  | None => mret [source_change]
  | Some metadata => sm_foldl (jq_label self source_change metadata) [] (labels metadata)
  end.
End runner.

Definition jq_process : JQ -> SourceChange -> SM S MiddlewareError (list SourceChange) := jq_process_with run_jq.

Context {F : FromValue (gmap string JqMappedOperations)}.

Definition jq_create (config : SourceMiddlewareConfig) : outcome MiddlewareSetupError (SourceMiddleware (S:=S)) :=
  match from_value (A:=gmap string JqMappedOperations) (mw_config config) with
  | Err e => Err (InvalidConfiguration ("Invalid configuration: " +:+ e))
  | Panic => Panic
  | Ok mappings => Ok (jq_process {| jq_mappings := mappings |})
  end.

Definition jq_factory : SourceMiddlewareFactory S :=
  {| factory_name := "jq"; factory_create := jq_create |}.
End jq.

(** * The cache of compiled jq programs changes no result *)

(** Reading a cache gives what was written. *)
Class JqCacheLaws `{JqLib} (S : Type) `{!JqCacheOps S} :=
  jq_cache_set : forall cache (s : S), jq_cache (set_jq_cache cache s) = cache.

Section cache.
Context {JN : JsonNumber} {D : Decoders} {JT : JsonText} {JQL : JqLib} {C : Chrono} {T : ChronoText}.
Context {S : Type} `{!JqCacheOps S} `{!JqCacheLaws S}.

(** Every cached program is the compiled query it is kept under. *)
Definition cache_ok (s : S) : Prop := forall query program, jq_cache s !! query = Some program -> jq_compile query = Ok program.

(** Compiling every time *)
Definition run_direct (query input : string) : SM S string string := fun s =>
  match jq_compile query with
  | Ok program => (map_err (fun e => "JQ execution error: " +:+ e) (jq_run program input), s)
  | Err e => (Err ("JQ compilation error: " +:+ e), s)
  | Panic => (Panic, s)
  end.

(** The same result from any state, leaving a correct cache *)
Definition agrees {E A} (m m' : SM S E A) : Prop :=
  forall s s', cache_ok s -> (m s).1 = (m' s').1 /\ cache_ok (m s).2.

Lemma agrees_ret {E A} (a : A) : agrees (E:=E) (mret a) (mret a).
Proof. by intros s s' Hs. Qed.

Lemma agrees_lift {E A} (o : outcome E A) : agrees (sm_lift o) (sm_lift o).
Proof. by intros s s' Hs. Qed.

Lemma agrees_bind {E A B} (m m' : SM S E A) (f f' : A -> SM S E B) :
  agrees m m' -> (forall a, agrees (f a) (f' a)) -> agrees (m ≫= f) (m' ≫= f').
Proof.
  intros Hm Hf s s' Hs. destruct (Hm s s' Hs) as [Heq Hok]. unfold mbind, SM_bind.
  destruct (m s) as [o s1], (m' s') as [o' s1']; cbn in *. subst o'. destruct o; [by apply Hf|done|done].
Qed.

Lemma agrees_foldl {E A B} (f f' : A -> B -> SM S E A) l a :
  (forall a b, agrees (f a b) (f' a b)) -> agrees (sm_foldl f a l) (sm_foldl f' a l).
Proof. intros Hf. revert a. induction l as [|b l IH]; intros a; [apply agrees_ret|]. apply agrees_bind; auto. Qed.

Lemma agrees_run query input : agrees (run_jq query input) (run_direct query input).
Proof.
  intros s s' Hs. unfold run_jq, run_direct. destruct (jq_cache s !! query) as [program|] eqn:Hq.
  - by rewrite (Hs _ _ Hq).
  - destruct (jq_compile query) as [program|e|] eqn:Hc; [|done|done]. split; [done|].
    intros q p. cbn. rewrite jq_cache_set, lookup_insert_Some. intros [[<- <-]|[_ Hp]]; [done|by apply Hs].
Qed.

Lemma agrees_attempt {A} halt describe (m m' : SM S string A) :
  agrees m m' -> agrees (attempt halt describe m) (attempt halt describe m').
Proof.
  intros Hm s s' Hs. destruct (Hm s s' Hs) as [Heq Hok]. unfold attempt.
  destruct (m s) as [o s1], (m' s') as [o' s1']; cbn in *. subst o'. destruct o; [done|by destruct halt|done].
Qed.

Lemma agrees_or_skip {A B} (m m' : SM S MiddlewareError (option A)) (k k' : A -> SM S MiddlewareError (option B)) :
  agrees m m' -> (forall a, agrees (k a) (k' a)) -> agrees (or_skip m k) (or_skip m' k').
Proof. intros Hm Hk. apply agrees_bind; [done|]. intros [a|]; [apply Hk|apply agrees_ret]. Qed.

Create HintDb agree.
#[local] Hint Resolve agrees_ret agrees_lift agrees_bind agrees_foldl agrees_run agrees_attempt agrees_or_skip : agree.

Ltac agree := repeat (split_match || intros || (progress eauto with agree) || apply agrees_or_skip || apply agrees_bind ||
  apply agrees_attempt || apply agrees_foldl).

Lemma agrees_string query input : agrees (jq_get_string run_jq query input) (jq_get_string run_direct query input).
Proof. unfold jq_get_string. agree. Qed.
#[local] Hint Resolve agrees_string : agree.

Lemma agrees_item op metadata element mapping item :
  agrees (jq_item run_jq op metadata element mapping item) (jq_item run_direct op metadata element mapping item).
Proof. unfold jq_item, attempt_optional, attempt_string. agree. Qed.
#[local] Hint Resolve agrees_item : agree.

Lemma agrees_mapping c metadata element results mapping :
  agrees (jq_mapping run_jq c metadata element results mapping) (jq_mapping run_direct c metadata element results mapping).
Proof. unfold jq_mapping, jq_output. agree. Qed.
#[local] Hint Resolve agrees_mapping : agree.

Lemma agrees_process (self : JQ) (c : SourceChange) : agrees (jq_process self c) (jq_process_with run_direct self c).
Proof. unfold jq_process, jq_process_with, jq_label. agree. Qed.

(** The cache of compiled programs is transparent: whatever programs it
    holds already, the changes and errors are those of compiling each program
    anew, and every program it holds afterwards is the compiled query. *)
Theorem jq_cache_transparent (self : JQ) (c : SourceChange) (s : S) :
  cache_ok s ->
  (jq_process self c s).1 = (jq_process_with run_direct self c s).1 /\ cache_ok (jq_process self c s).2.
Proof.
  intros Hs. apply (agrees_process self c s s Hs).
Qed.
End cache.
