(* ===== verification/PipelineFacts.v ===== *)
(** * Whatever pipeline is configured, a change keeps its source and its time

    The middleware the server registers (lib/src/lib_core.rs) may change labels,
    properties and identities and may make new elements, but every change it
    gives belongs to the source of the one it was given and carries its time;
    requests of the future queue pass unchanged. *)

From S2P Require Import Prelude BTree Floats Hashing Ast Models Errors Values ChronoOps ResultIndex StateCodec Json.
From S2P Require Import Contexts Parts Session ContinuousQuery Middleware MappingMiddleware JqMiddleware.

(** ** What an operation may return *)

Section returns.
Context {S E : Type}.

Definition returns {A} (P : A -> Prop) (m : SM S E A) : Prop := forall s a s', m s = (Ok a, s') -> P a.

Lemma returns_ret {A} (P : A -> Prop) a : P a -> returns P (mret a).
Proof. intros Ha s a' s' [= <- _]. done. Qed.

Lemma returns_lift {A} (P : A -> Prop) o : (forall a, o = Ok a -> P a) -> returns P (sm_lift o).
Proof. intros Ho s a s' [= -> _]. auto. Qed.

Lemma returns_bind {A B} (Q : A -> Prop) (P : B -> Prop) (m : SM S E A) (f : A -> SM S E B) :
  returns Q m -> (forall a, Q a -> returns P (f a)) -> returns P (m ≫= f).
Proof.
  intros Hm Hf s b s'. unfold mbind, SM_bind. destruct (m s) as [[a|e|] s1] eqn:Hms; [|done|done].
  intros Hfs. eapply Hf; [|exact Hfs]. eapply Hm, Hms.
Qed.

Lemma returns_any {A} (m : SM S E A) : returns (fun _ => True) m.
Proof. done. Qed.

Lemma returns_foldl {A B} (P : A -> Prop) (f : A -> B -> SM S E A) l a :
  P a -> (forall a b, b ∈ l -> P a -> returns P (f a b)) -> returns P (sm_foldl f a l).
Proof.
  revert a. induction l as [|b l IH]; intros a Ha Hf; [by apply returns_ret|].
  apply (returns_bind P); [apply Hf; [constructor|done]|]. intros a' Ha'. apply IH; [done|].
  intros a2 b2 Hb2. apply Hf. by constructor.
Qed.
End returns.

Lemma out_foldl_returns {E A B} (P : A -> Prop) (f : A -> B -> outcome E A) l a a' :
  P a -> (forall a b a', P a -> f a b = Ok a' -> P a') -> out_foldl f a l = Ok a' -> P a'.
Proof.
  intros Ha Hf. revert a Ha. induction l as [|b l IH]; intros a Ha; cbn; [by intros [= <-]|].
  destruct (f a b) eqn:Hab; cbn; [|done|done]. apply IH. by eapply Hf.
Qed.

(** ** Source and time *)

Section origin.
Context {JN : JsonNumber} {JP : JsonPath} {D : Decoders} {JT : JsonText} {JQL : JqLib}.
Context {C : Chrono} {T : ChronoText} {MO : StringMapOrder}.
Context {S : Type} `{!ElementIndexOps S} `{!JqCacheOps S}.
Implicit Types (c d : SourceChange) (m : ElementMetadata).

Definition same_origin_metadata m m' : Prop :=
  source_id (reference m') = source_id (reference m) /\ effective_from m' = effective_from m.

Definition same_origin c d : Prop :=
  match change_metadata c with
  | Some m => exists m', change_metadata d = Some m' /\ same_origin_metadata m m'
  | None => d = c
  end.

Lemma same_origin_refl c : same_origin c c.
Proof. unfold same_origin. destruct (change_metadata c); [by eexists|done]. Qed.

Lemma same_origin_trans c d e : same_origin c d -> same_origin d e -> same_origin c e.
Proof.
  unfold same_origin. destruct (change_metadata c) as [m|] eqn:Hc.
  - intros (m' & Hd & H1 & H2). rewrite Hd. intros (m'' & He & H3 & H4). exists m''. split; [done|]. split; congruence.
  - intros ->. by rewrite Hc.
Qed.

Definition all_same_origin c (cs : list SourceChange) : Prop := forall d, d ∈ cs -> same_origin c d.

Lemma all_same_origin_app c cs cs' : all_same_origin c cs -> all_same_origin c cs' -> all_same_origin c (cs ++ cs').
Proof. intros H1 H2 d [Hd|Hd]%elem_of_app; auto. Qed.

Lemma all_same_origin_nil c : all_same_origin c [].
Proof. by intros d ?%elem_of_nil. Qed.

Lemma all_same_origin_one c d : same_origin c d -> all_same_origin c [d].
Proof. by intros Hd d' ->%list_elem_of_singleton. Qed.

Lemma same_origin_element c m e d :
  change_metadata c = Some m -> same_origin_metadata m (get_metadata e) ->
  d = Insert e \/ d = Update e \/ d = Delete (get_metadata e) -> same_origin c d.
Proof.
  intros Hc He Hd. unfold same_origin. rewrite Hc. exists (get_metadata e). by destruct Hd as [->|[->| ->]].
Qed.

Lemma emit_same_origin c m op e : change_metadata c = Some m -> same_origin_metadata m (get_metadata e) ->
  same_origin c (emit op e).
Proof. intros Hc He. eapply same_origin_element; [done..|]. destruct op; auto. Qed.

Definition keeps_origin (mw : SourceMiddleware (S:=S)) : Prop := forall c, returns (all_same_origin c) (mw c).

(** Middleware that works on one element *)
Lemma keeps_origin_single (f : SourceChange -> outcome MiddlewareError (list SourceChange)) :
  (forall c cs, f c = Ok cs -> exists d, cs = [d] /\ same_origin c d) -> keeps_origin (fun c => sm_lift (f c)).
Proof. intros Hf c. apply returns_lift. intros cs (d & -> & Hd)%Hf. by apply all_same_origin_one. Qed.

Lemma relabel_keeps_origin self : keeps_origin (fun c => sm_lift (relabel_process self c)).
Proof.
  apply keeps_origin_single. intros [e|e|m|f] cs [= <-]; eexists; (split; [done|]).
  - eapply same_origin_element; [done| |by left]. by destruct e.
  - eapply same_origin_element; [done| |by right; left]. by destruct e.
  - unfold same_origin. cbn. by eexists.
  - apply same_origin_refl.
Qed.

(** A function of the element that keeps its metadata *)
Lemma keeps_origin_element (f : Element -> outcome MiddlewareError Element) :
  (forall e e', f e = Ok e' -> get_metadata e' = get_metadata e) ->
  keeps_origin (fun c => sm_lift match c with
    | Insert element => element ← f element; Ok [Insert element]
    | Update element => element ← f element; Ok [Update element]
    | Delete _ | Future _ => Ok [c]
    end).
Proof.
  intros Hf. apply keeps_origin_single. intros [e|e|m|r] cs.
  1, 2: destruct (f e) as [e'| |] eqn:He; [|done|done]; intros [= <-]; eexists; split; [reflexivity|];
    exists (get_metadata e'); split; [done|]; by rewrite (Hf _ _ He).
  all: intros [= <-]; eexists; (split; [done|]); apply same_origin_refl.
Qed.

Lemma set_property_metadata e k v : get_metadata (set_property e k v) = get_metadata e.
Proof. by destruct e. Qed.

Lemma promote_keeps_origin self : keeps_origin (fun c => sm_lift (promote_process self c)).
Proof.
  apply (keeps_origin_element (promote_element self)). intros e e'. unfold promote_element.
  destruct (property_map_to_json _); cbn; [|done|done]. destruct (out_foldl _ _ _); cbn; [|done|done].
  intros [= <-]. by destruct e.
Qed.

Lemma decoder_keeps_origin self : keeps_origin (fun c => sm_lift (decoder_process self c)).
Proof.
  apply (keeps_origin_element (decode_property self)). intros e e'. unfold decode_property.
  repeat case_match; intros; simplify_eq; rewrite ?set_property_metadata; done.
Qed.

Lemma parse_json_keeps_origin self : keeps_origin (fun c => sm_lift (parse_json_process self c)).
Proof.
  apply (keeps_origin_element (parse_property self)). intros e e'. unfold parse_property, handle_error.
  repeat case_match; intros; simplify_eq; rewrite ?set_property_metadata; done.
Qed.

(** *** Unwind *)

Lemma same_change_origin c d m e : change_metadata c = Some m -> same_origin_metadata m (get_metadata e) ->
  d ∈ same_change c e -> same_origin c d.
Proof.
  intros Hc He Hd. eapply same_origin_element; [done..|].
  destruct c; cbn in Hd; [..|by apply elem_of_nil in Hd]; apply list_elem_of_singleton in Hd as ->; auto.
Qed.

Lemma unwind_new_origin c m mapping obj id cs :
  change_metadata c = Some m -> unwind_new c m mapping obj !! id = Some cs -> all_same_origin c cs.
Proof.
  intros Hc. unfold unwind_new. revert id cs.
  apply (fold_left_inv (fun cm : gmap string (list SourceChange) => forall id cs, cm !! id = Some cs -> all_same_origin c cs)).
  { intros id cs. by rewrite lookup_empty. }
  intros cm e _ Hcm id cs. rewrite lookup_insert_Some. intros [[_ <-]|[_ Hl]]; [|by eapply Hcm].
  unfold current_item. apply all_same_origin_app; [intros d; by eapply same_change_origin|].
  destruct (um_relation mapping); [intros d; by eapply same_change_origin|apply all_same_origin_nil].
Qed.

Lemma unwind_old_origin c m mapping obj cm id cs :
  change_metadata c = Some m -> (forall id cs, cm !! id = Some cs -> all_same_origin c cs) ->
  unwind_old m mapping obj cm !! id = Some cs -> all_same_origin c cs.
Proof.
  intros Hc Hcm. unfold unwind_old. revert id cs.
  apply (fold_left_inv (fun cm : gmap string (list SourceChange) => forall id cs, cm !! id = Some cs -> all_same_origin c cs)); [done|].
  clear cm Hcm. intros cm e _ Hcm id cs. destruct (cm !! item_id mapping e.1 e.2); [apply Hcm|].
  rewrite lookup_insert_Some. intros [[_ <-]|[_ Hl]]; [|by eapply Hcm].
  intros d. unfold vanished_item. rewrite elem_of_cons. intros [->|Hd]; [unfold same_origin; rewrite Hc; by eexists|].
  destruct (um_relation mapping); [|by apply elem_of_nil in Hd]. apply list_elem_of_singleton in Hd as ->.
  unfold same_origin. rewrite Hc. by eexists.
Qed.

Lemma unwind_mapping_origin c m new_obj old_obj mapping :
  change_metadata c = Some m -> all_same_origin c (unwind_mapping c m new_obj old_obj mapping).
Proof.
  intros Hc. unfold unwind_mapping. destruct (_ ≫= _) as [cm|] eqn:Hcm; [|apply all_same_origin_nil].
  assert (Hall : forall id cs, cm !! id = Some cs -> all_same_origin c cs).
  { apply bind_Some in Hcm as (cm0 & Hnew & Hold).
    assert (H0 : forall id cs, cm0 !! id = Some cs -> all_same_origin c cs).
    { intros id cs. destruct new_obj as [o|]; [destruct (condition_met _ o)|]; simplify_eq;
        [by apply unwind_new_origin|by rewrite lookup_empty]. }
    intros id cs. destruct old_obj as [o|]; [destruct (condition_met _ o)|]; simplify_eq; [|by apply H0].
    by apply unwind_old_origin. }
  intros d (l & Hl & Hd)%list_elem_of_In%in_concat. apply list_elem_of_In, list_elem_of_fmap in Hl as ([id cs] & -> & He).
  rewrite (smap_entries_perm cm), elem_of_map_to_list in He. apply (Hall id cs He). by apply list_elem_of_In.
Qed.

Lemma unwind_keeps_origin self : keeps_origin (unwind_process self).
Proof.
  intros c. unfold unwind_process. destruct (change_metadata c) as [m|] eqn:Hc.
  2:{ apply returns_ret, all_same_origin_one, same_origin_refl. }
  apply (returns_bind (all_same_origin c)).
  2:{ intros cs Hcs. apply returns_ret, all_same_origin_app; [done|]. apply all_same_origin_one, same_origin_refl. }
  apply returns_foldl; [apply all_same_origin_nil|]. intros cs label _ Hcs. unfold unwind_label.
  destruct (unwind_mappings self !! label) as [ms|]; [|by apply returns_ret].
  eapply returns_bind; [apply returns_any|]. intros [[new old]|] _; [|by apply returns_ret].
  eapply returns_bind; [apply returns_any|]. intros new_obj _.
  eapply returns_bind; [apply returns_any|]. intros old_obj _.
  apply returns_ret, all_same_origin_app; [done|]. induction ms as [|mapping ms IH]; [apply all_same_origin_nil|].
  apply all_same_origin_app; [by apply unwind_mapping_origin|exact IH].
Qed.

(** *** Map *)

Lemma map_selected_origin c op m element mapping obj d :
  change_metadata c = Some m -> map_selected op m element mapping obj = Some d -> same_origin c d.
Proof.
  intros Hc. unfold map_selected. destruct (condition_met _ _); [|done].
  intros (m1 & Hm1 & (e & He & [= <-])%bind_Some)%bind_Some.
  assert (H1 : same_origin_metadata m m1).
  { destruct (mo_id mapping); [apply bind_Some in Hm1 as (id & _ & Hm1)|]; by simplify_eq. }
  assert (H2 : same_origin_metadata m match mo_label mapping with Some label => with_labels [label] m1 | None => m1 end)
    by by destruct (mo_label mapping).
  eapply emit_same_origin; [done|]. destruct (mo_element_type mapping) as [[|i o]|].
  - by simplify_eq.
  - apply bind_Some in He as (i' & _ & (o' & _ & He)%bind_Some). by simplify_eq.
  - destruct element; by simplify_eq.
Qed.

Lemma map_keeps_origin self : keeps_origin (fun c => sm_lift (map_process self c)).
Proof.
  intros c. apply returns_lift. intros cs. unfold map_process. destruct (change_metadata c) as [m|] eqn:Hc.
  2:{ intros [= <-]. apply all_same_origin_one, same_origin_refl. }
  apply out_foldl_returns; [apply all_same_origin_nil|]. clear cs. intros cs label cs' Hcs. unfold map_label.
  destruct (map_mappings self !! label) as [ms|], (mapped_element c) as [e|]; try by intros [= <-].
  apply out_foldl_returns; [done|]. clear cs cs' Hcs. intros cs mapping cs' Hcs. unfold map_mapping.
  destruct (match mo_op mapping with Some op => Some op | None => default_op c end) as [op|]; [|by intros [= <-]].
  destruct (element_to_json e) as [obj| |]; cbn; [|done|done]. intros [= <-].
  apply (fold_left_inv (fun acc : list SourceChange * Value => all_same_origin c acc.1)); [done|].
  intros acc s _ Hacc. cbn. apply all_same_origin_app; [done|].
  destruct (map_selected _ _ _ _ _) as [d|] eqn:Hd; cbn; [|apply all_same_origin_nil].
  apply all_same_origin_one. by eapply map_selected_origin.
Qed.

(** *** Jq *)

Section jq.
Variable run : string -> string -> SM S string string.

Lemma returns_or_skip {A B} (Q : A -> Prop) (P : option B -> Prop) (m : SM S MiddlewareError (option A)) k :
  P None -> returns (fun o => forall a, o = Some a -> Q a) m -> (forall a, Q a -> returns P (k a)) -> returns P (or_skip m k).
Proof.
  intros Hn Hm Hk. apply (returns_bind _ _ _ _ Hm). intros [a|] Ha; [by apply Hk, Ha|by apply returns_ret].
Qed.

Lemma returns_optional {A} (Q : A -> Prop) halt part query input update a :
  Q a -> (forall t a, Q a -> Q (update t a)) ->
  returns (fun o => forall a, o = Some a -> Q a) (attempt_optional run halt part query input update a).
Proof.
  intros Ha Hu. unfold attempt_optional. destruct query as [q|]; [|by apply returns_ret; intros ? [= <-]].
  eapply returns_bind; [apply returns_any|]. intros o _. apply returns_ret. destruct o; [|done]. intros ? [= <-]. auto.
Qed.

Lemma jq_item_origin c op m element mapping item :
  change_metadata c = Some m ->
  returns (fun o => forall d, o = Some d -> same_origin c d) (jq_item run op m element mapping item).
Proof.
  intros Hc. unfold jq_item.
  apply (returns_or_skip (same_origin_metadata m)); [done|by apply returns_optional|]. intros m1 H1.
  apply (returns_or_skip (same_origin_metadata m)); [done|by apply returns_optional|]. intros m2 H2.
  assert (Hemit : forall e, get_metadata e = m2 ->
    returns (E:=MiddlewareError) (S:=S) (fun o => forall d, o = Some d -> same_origin c d) (mret (Some (emit op e)))).
  { intros e He. apply returns_ret. intros d [= <-]. eapply emit_same_origin; [done|by rewrite He]. }
  destruct (jo_element_type mapping) as [[|i o]|]; [by apply Hemit| |by apply Hemit; destruct element].
  apply (returns_or_skip (fun _ => True)); [done|done|]. intros i' _.
  apply (returns_or_skip (fun _ => True)); [done|done|]. intros o' _. by apply Hemit.
Qed.

Lemma jq_keeps_origin_with self : keeps_origin (jq_process_with run self).
Proof.
  intros c. unfold jq_process_with. destruct (change_metadata c) as [m|] eqn:Hc.
  2:{ apply returns_ret, all_same_origin_one, same_origin_refl. }
  apply returns_foldl; [apply all_same_origin_nil|]. intros cs label _ Hcs. unfold jq_label.
  destruct (jq_mappings self !! label) as [ms|], (mapped_element c) as [e|]; try by apply returns_ret.
  apply returns_foldl; [done|]. clear cs Hcs. intros cs mapping _ Hcs. unfold jq_mapping.
  destruct (match jo_op mapping with Some op => Some op | None => default_op c end) as [op|]; [|by apply returns_ret].
  eapply returns_bind; [apply returns_any|]. intros obj _. eapply returns_bind; [apply returns_any|]. intros items _.
  apply returns_foldl; [done|]. clear cs Hcs. intros cs item _ Hcs.
  eapply returns_bind; [by apply jq_item_origin|]. intros o Ho. apply returns_ret, all_same_origin_app; [done|].
  destruct o as [d|]; [by apply all_same_origin_one, Ho|apply all_same_origin_nil].
Qed.
End jq.

(** ** The registered middleware *)

Context {F1 : FromValue (gmap string JqMappedOperations)} {F2 : FromValue (gmap string SourceMappedOperations)}.
Context {F3 : FromValue (gmap string (list UnwindMapping))} {F4 : FromValue (gmap string string)}.
Context {F5 : FromValue DecoderConfig} {F6 : FromValue ParseJsonConfig} {F7 : FromValue PromoteMiddlewareConfig}.

(** The factories of a server built with every middleware feature, in the order of registration *)
Definition middleware_factories : list (SourceMiddlewareFactory S) :=
  [jq_factory; map_factory; unwind_factory; relabel_factory; decoder_factory; parse_json_factory; promote_factory].

Definition middleware_registry : MiddlewareTypeRegistry (S:=S) :=
  fold_left (fun registry factory => registry_register factory registry) middleware_factories ∅.

Lemma factory_keeps_origin f config mw :
  f ∈ middleware_factories -> factory_create f config = Ok mw -> keeps_origin mw.
Proof.
  unfold middleware_factories. rewrite !elem_of_cons, elem_of_nil.
  intros [->|[->|[->|[->|[->|[->|[->|[]]]]]]]]; cbn [factory_create jq_factory map_factory unwind_factory relabel_factory
    decoder_factory parse_json_factory promote_factory].
  - unfold jq_create. destruct (from_value _); intros [= <-]. apply jq_keeps_origin_with.
  - unfold map_create. destruct (from_value _); intros [= <-]. apply map_keeps_origin.
  - unfold unwind_create. destruct (from_value _); intros [= <-]. apply unwind_keeps_origin.
  - unfold relabel_create. destruct (from_value _); [|done|done]. case_decide; [done|]. intros [= <-]. apply relabel_keeps_origin.
  - unfold decoder_create. destruct (from_value _); [|done|done]. repeat case_match; try done. intros [= <-]. apply decoder_keeps_origin.
  - unfold parse_json_create. destruct (from_value _); [|done|done]. repeat case_match; try done. intros [= <-]. apply parse_json_keeps_origin.
  - unfold promote_create. destruct (from_value _); [|by case_match|done]. repeat case_match; try done. intros [= <-]. apply promote_keeps_origin.
Qed.

Lemma registry_lookup kind f : middleware_registry !! kind = Some f -> f ∈ middleware_factories.
Proof.
  unfold middleware_registry. revert kind f.
  cut (forall fs (r : gmap string (SourceMiddlewareFactory S)), (forall kind f, r !! kind = Some f -> f ∈ middleware_factories) ->
    (forall f, f ∈ fs -> f ∈ middleware_factories) -> forall kind f,
    fold_left (fun registry factory => registry_register factory registry) fs r !! kind = Some f -> f ∈ middleware_factories).
  { intros H. apply H; [|done]. intros kind f Hl. destruct (lookup_empty_Some (M:=gmap string) kind f Hl). }
  induction fs as [|g fs IH]; intros r Hr Hfs; [done|]. cbn [fold_left]. apply IH.
  - intros kind f. unfold registry_register. intros [[_ <-]|[_ Hl]]%(lookup_insert_Some (M:=gmap string)); [apply Hfs; constructor|by eapply Hr].
  - intros f Hf. apply Hfs. by constructor.
Qed.

Lemma container_keeps_origin configs container name mw :
  container_new middleware_registry configs = Ok container -> container !! name = Some mw -> keeps_origin mw.
Proof.
  unfold container_new. intros Hc. revert name mw.
  revert Hc. apply (out_foldl_returns (fun m : gmap string (SourceMiddleware (S:=S)) => forall name mw, m !! name = Some mw -> keeps_origin mw)).
  { intros name mw Hl. destruct (lookup_empty_Some (M:=gmap string) name mw Hl). }
  intros m config m' Hm. destruct (middleware_registry !! mw_kind config) as [f|] eqn:Hf; [|done].
  destruct (factory_create f config) as [inst| |] eqn:Hi; [|done|done]. intros [= <-] name mw.
  intros [[_ <-]|[_ Hl]]%(lookup_insert_Some (M:=gmap string)); [|by eapply Hm].
  eapply factory_keeps_origin; [|exact Hi]. by eapply registry_lookup.
Qed.

Lemma out_mapM_elem {E A B} (f : A -> outcome E B) l l' b : out_mapM f l = Ok l' -> b ∈ l' -> exists a, a ∈ l /\ f a = Ok b.
Proof.
  revert l'. induction l as [|a l IH]; intros l'; cbn; [intros [= <-] Hb; by apply elem_of_nil in Hb|].
  destruct (f a) as [b'| |] eqn:Ha; [|done|done]. destruct (out_mapM f l) as [bs| |]; [|done|done].
  intros [= <-] [->|Hb]%elem_of_cons; [exists a; split; [constructor|done]|].
  destruct (IH bs eq_refl Hb) as (a' & ? & ?). exists a'. split; [by constructor|done].
Qed.

(** In any pipeline built from any configuration of the registered
    middleware, every change that comes out belongs to the source of the change
    that went in and carries its time, and a request of the future queue passes
    unchanged. *)
Theorem pipelines_keep_origin configs container keys pipeline c s cs s' :
  container_new middleware_registry configs = Ok container ->
  pipeline_new container keys = Ok pipeline ->
  process_pipeline pipeline c s = (Ok cs, s') ->
  forall d, d ∈ cs -> same_origin c d.
Proof.
  intros Hc Hp. assert (Hmws : forall mw, mw ∈ pipeline -> keeps_origin mw).
  { intros mw Hmw. destruct (out_mapM_elem _ _ _ _ Hp Hmw) as (name & _ & Hname).
    destruct (container !! name) as [mw'|] eqn:Hl; [|done]. injection Hname as <-. by eapply container_keeps_origin. }
  clear Hc Hp. revert s cs s'. change (returns (all_same_origin c) (process_pipeline pipeline c)).
  unfold process_pipeline. apply returns_foldl; [apply all_same_origin_one, same_origin_refl|].
  intros ds mw Hmw Hds. unfold run_middleware.
  cut (forall l acc, all_same_origin c acc -> (forall d, d ∈ l -> same_origin c d) ->
    returns (all_same_origin c) (sm_foldl (fun acc change => out ← mw change; mret (acc ++ out)) acc l)).
  { intros H. apply H; [apply all_same_origin_nil|done]. }
  intros l acc Hacc Hl. apply returns_foldl; [done|]. intros acc' d Hd Hacc'.
  eapply returns_bind; [by apply Hmws|]. intros out Hout. apply returns_ret, all_same_origin_app; [done|].
  intros e He. eapply same_origin_trans; [by apply Hl|by apply Hout].
Qed.
End origin.
