(* ===== verification/MiddlewareSamples.v ===== *)
(** * The middleware on concrete changes

    Numbers, paths, decoders and programs are small stand-ins for the crates: a
    path is a list of fields and wildcards, a JSON text is one of two, and the
    only jq program is the identity. *)

From stdpp Require Import pretty.
From S2P Require Import Prelude BTree Floats Hashing Ast Models Errors Values ChronoOps ElementIndex ResultIndex.
From S2P Require Import StateCodec Json Contexts Parts Session ContinuousQuery Middleware MappingMiddleware.
From S2P Require Import JqMiddleware PipelineFacts.

#[local] Existing Instance Sample.chrono.
#[local] Existing Instance SampleOps.ops.
#[local] Existing Instance Sample.hashers.

Module MiddlewareExample.
Import Sample.

(** ** The crates *)

#[local] Instance numbers : JsonNumber := {|
  Number := Z + f64;
  number_from_i64 := inl;
  number_from_f64 x := if f64_is_finite x then Some (inr x) else None;
  number_as_i64 n := match n with inl i => Some i | inr _ => None end;
  number_as_f64 n := match n with inl i => Some (f64_of_Z i) | inr x => Some x end |}.

#[local] Instance numbers_laws : JsonNumberLaws.
Proof.
  split; cbn; [done| |by intros x ->]. intros x Hx. exists (inr x). by rewrite Hx.
Qed.

#[local] Instance text : ChronoText := {|
  naive_to_string := u64_to_string; naive_parse_from_str := parse_u64;
  to_rfc3339 := u64_to_string; parse_from_rfc3339 := parse_u64 |}.

Inductive PathStep := Field (name : string) | Each.

Definition step_values (s : PathStep) (v : Value) : list Value :=
  match s, v with
  | Field name, JObject o => option_list (bt_get name o)
  | Each, JArray l => l
  | _, _ => []
  end.

#[local] Instance paths : JsonPath := {|
  JsonPathInst := list PathStep;
  find_slice p v := fold_left (fun vs s => concat (map (step_values s) vs)) p [v];
  path_from_str s := Ok [Field s] |}.

#[local] Instance decoders : Decoders := {|
  base64_decode := Ok; base64_url_decode := Ok; hex_decode := Ok; url_decode := Ok; json_string_from_str := Ok;
  json_value_from_str s :=
    if (s =? "[1]")%string then Ok (JArray [JNumber (inl 1)]) else if (s =? "{}")%string then Ok (JObject [])
    else Err "expected value"%string;
  utf8_error _ := "invalid utf-8"%string |}.

#[local] Instance json_text : JsonText := {|
  value_to_string v := match v with JString s => s | JNumber (inl i) => pretty i | _ => "{}"%string end;
  to_json_string _ := Ok "{}"%string |}.

#[local] Instance jq_lib : JqLib := {|
  JqProgram := unit;
  jq_compile q := if (q =? ".")%string then Ok tt else Err "unknown program"%string;
  jq_run _ input := Ok input |}.

#[local] Instance map_order : StringMapOrder := {| smap_entries A m := map_to_list m; smap_entries_perm _ _ := reflexivity _ |}.

(** ** The state: the cache of programs and the stored elements *)

Definition State : Type := gmap string unit * gmap ElementReference Element.

#[local] Instance caches : JqCacheOps State := {| jq_cache s := s.1; set_jq_cache c s := (c, s.2) |}.
#[local] Instance caches_laws : JqCacheLaws State.
Proof. done. Qed.

#[local] Instance elements : ElementIndexOps State := {|
  ei_get_element r s := (Ok (s.2 !! r), s);
  ei_set_element e _ s := (Ok tt, (s.1, <[get_reference e := e]> s.2));
  ei_delete_element r s := (Ok tt, (s.1, delete r s.2));
  ei_slots _ := slot_index new_index |}.

Definition ref (id : string) : ElementReference := {| source_id := "k8s"; element_id := id |}.
Definition meta (id : string) : ElementMetadata := {| reference := ref id; labels := ["Pod"%string]; effective_from := 5 |}.
Definition object (l : list (string * ElementValue)) : ElementValue := EV_Object (collect l).
Definition at_path (steps : list PathStep) : JsonPathExpression := {| expression := "$"; path := steps |}.

(** ** Values as JSON *)

Definition reading : ElementValue :=
  EV_Object [("at"%string, EV_LocalDateTime 1700000000000); ("level"%string, EV_Float {| of_f64 := f64_of_Z 21 |});
          ("tags"%string, EV_List [EV_String "a"; EV_Integer (-3); EV_Null])].

Lemma reading_faithful : json_faithful reading.
Proof.
  constructor; [repeat first [constructor | reflexivity]|discriminate|].
  repeat apply Forall_cons_2; [| | |apply Forall_nil_2]; cbn [snd]; constructor; [reflexivity|].
  repeat apply Forall_cons_2; [constructor|constructor; by split|constructor|apply Forall_nil_2].
Qed.

Lemma reading_round_trip :
  json_finite reading = true /\
  exists j, element_value_to_json (E:=unit) reading = Ok j /\ json_to_element_value j = reading.
Proof. split; [by_vm|]. exact (json_round_trip (E:=unit) reading reading_faithful). Defined.

(** ** Single properties *)

Definition pod (properties : list (string * ElementValue)) : Element := Node (meta "p1") (collect properties).

Definition parser : ParseJson :=
  {| pj_name := "json"; pj_config := {| pj_target_property := "raw"; pj_output_property := Some "value"%string;
     pj_on_error := EH_Skip; max_json_size := 10; max_nesting_depth := 3 |} |}.

Lemma parser_never_panics (s : string) : json_value_from_str s <> Panic.
Proof. cbn. by destruct (s =? "[1]")%string, (s =? "{}")%string. Qed.

Lemma parses_list :
  (exists j, parses parser (pod [("raw"%string, EV_String "[1]")]) j /\
     parse_property parser (pod [("raw"%string, EV_String "[1]")]) =
       Ok (set_property (pod [("raw"%string, EV_String "[1]")]) "value" (json_to_element_value j)) /\
     Z.of_nat (value_depth (json_to_element_value j)) <= 3) \/
  ((forall j, ~ parses parser (pod [("raw"%string, EV_String "[1]")]) j) /\
   refused EH_Skip (pod [("raw"%string, EV_String "[1]")]) (parse_property parser (pod [("raw"%string, EV_String "[1]")]))).
Proof. exact (parse_json_stores_bounded parser (pod [("raw"%string, EV_String "[1]")]) parser_never_panics). Defined.

Definition promoter (strategy : ConflictStrategy) : PromoteMiddleware :=
  {| promote_name := "promote";
     promote_mappings := [{| pm_path := at_path [Field "spec"; Field "node"]; target_name := "node" |};
                          {| pm_path := at_path [Field "node"]; target_name := "spec" |}];
     on_conflict := strategy; promote_on_error := EH_Fail |}.

Definition deployed : Element :=
  pod [("node"%string, EV_String "old"); ("spec"%string, object [("node"%string, EV_String "n7")])].
Definition promoted_pod : Element := pod [("node"%string, EV_String "n7"); ("spec"%string, EV_String "old")].

Lemma deployed_sorted : bt_sorted (get_properties deployed).
Proof. unfold deployed. cbn. repeat first [constructor | reflexivity]. Qed.

(** Both mappings read the properties as they were. *)
Lemma promotes_node :
  promote_element (promoter CS_Overwrite) deployed = Ok promoted_pod /\
  exists json_props, property_map_to_json (E:=MiddlewareError) (get_properties deployed) = Ok json_props /\
    bt_get "node"%string (get_properties promoted_pod) =
      settle CS_Overwrite (Some (EV_String "old")) (promoted (promoter CS_Overwrite) (JObject json_props) "node") /\
    meta "p1" = meta "p1".
Proof.
  assert (Hp : promote_element (promoter CS_Overwrite) deployed = Ok promoted_pod) by by_vm. split; [exact Hp|].
  exact (promote_settles_properties (promoter CS_Overwrite) deployed promoted_pod "node" deployed_sorted Hp).
Defined.

(** A float that is no number panics, whatever the strategies. *)
Lemma promoting_beside_nan_panics strategy :
  promote_process (promoter strategy) (Insert (pod [("load"%string, EV_Float {| of_f64 := SpecFloat.S754_nan |})])) = Panic.
Proof. reflexivity. Qed.

(** ** Unwinding *)

Definition containers_mapping (condition : option JsonPathExpression) : UnwindMapping :=
  {| um_selector := at_path [Field "containers"; Each]; um_label := "Container"; um_key := Some (at_path [Field "id"]);
     um_relation := Some "OWNS"%string; um_condition := condition |}.

Definition unwinding (condition : option JsonPathExpression) : Unwind :=
  {| unwind_mappings := {[ "Pod"%string := [containers_mapping condition] ]} |}.

Definition container (id : string) : ElementValue := object [("id"%string, EV_String id)].
Definition pod_with (ids : list string) : Element := pod [("containers"%string, EV_List (map container ids))].
Definition stored (e : Element) : State := (∅, {[ get_reference e := e ]}).

Definition keys (k : string) : Prop := k ∈ ["c1"; "c2"; "c3"]%string.

Lemma keys_clash_free : clash_free keys.
Proof.
  intros i j Hi Hj. unfold keys in *. rewrite !elem_of_cons, elem_of_nil in Hi, Hj.
  by destruct Hi as [->|[->|[->|[]]]], Hj as [->|[->|[->|[]]]].
Qed.

Notation pod_json e := (match element_to_json (E:=MiddlewareError) e with Ok j => Some j | _ => None end).


(** When a pod stops meeting the condition of the mapping, its containers stay
    behind; when it begins to meet it, they are not made. *)
Definition conditional : Unwind := unwinding (Some (at_path [Field "active"])).
Definition active_pod : Element :=
  pod [("active"%string, EV_Bool true); ("containers"%string, EV_List [container "c1"])].

Lemma condition_ending_keeps_children :
  unwind_process conditional (Insert active_pod) (∅, ∅) =
    (Ok (current_item (Insert active_pod) (meta "p1") (containers_mapping None) "c1" (JObject [("id"%string, JString "c1")]) ++ [Insert active_pod]), (∅, ∅)) /\
  unwind_process conditional (Update (pod_with ["c1"]%string)) (stored active_pod) =
    (Ok [Update (pod_with ["c1"]%string)], stored active_pod).
Proof. split; by_vm. Qed.

Lemma condition_beginning_adds_no_child :
  unwind_process conditional (Update active_pod) (stored (pod_with ["c1"]%string)) =
    (Ok [Update active_pod], stored (pod_with ["c1"]%string)).
Proof. by_vm. Qed.

(** Children of different parents can have one id. *)
Lemma child_ids_collide mapping m1 m2 :
  source_id (reference m1) = source_id (reference m2) -> element_id (reference m1) = "pod"%string ->
  element_id (reference m2) = "pod-1"%string ->
  reference (child_metadata m1 mapping "1-c") = reference (child_metadata m2 mapping "c").
Proof. intros Hs H1 H2. cbn. by rewrite Hs, H1, H2. Qed.

(** ** Pipelines *)

Definition relabeling : gmap string string := {[ "Pod"%string := "Workload"%string ]}.

#[local] Instance jq_config : FromValue (gmap string JqMappedOperations) := fun _ => Ok ∅.
#[local] Instance map_config : FromValue (gmap string SourceMappedOperations) := fun _ => Ok ∅.
#[local] Instance unwind_config : FromValue (gmap string (list UnwindMapping)) := fun _ => Ok (unwind_mappings (unwinding None)).
#[local] Instance relabel_config : FromValue (gmap string string) := fun _ => Ok relabeling.
#[local] Instance decoder_config : FromValue DecoderConfig := fun _ => Err "missing field"%string.
#[local] Instance parse_config : FromValue ParseJsonConfig := fun _ => Ok (pj_config parser).
#[local] Instance promote_config : FromValue PromoteMiddlewareConfig := fun _ => Err "Empty JSONPath"%string.

Definition configs : list SourceMiddlewareConfig :=
  [{| mw_kind := "unwind"; mw_name := "containers"; mw_config := [] |};
   {| mw_kind := "relabel"; mw_name := "workloads"; mw_config := [] |}].

Definition built : MiddlewareContainer (S:=State) := ok_or ∅ (container_new middleware_registry configs).
Definition chain : SourceMiddlewarePipeline (S:=State) := ok_or [] (pipeline_new built ["containers"; "workloads"]%string).
Definition emitted : list SourceChange :=
  ok_or [] (process_pipeline chain (Update (pod_with ["c2"]%string)) (stored (pod_with ["c1"]%string))).1.

Lemma pipeline_runs :
  length emitted = 5%nat /\
  forall d, d ∈ emitted -> same_origin (Update (pod_with ["c2"]%string)) d.
Proof.
  split; [by_vm|].
  apply (pipelines_keep_origin configs built ["containers"; "workloads"]%string chain (Update (pod_with ["c2"]%string))
    (stored (pod_with ["c1"]%string)) emitted
    (process_pipeline chain (Update (pod_with ["c2"]%string)) (stored (pod_with ["c1"]%string))).2).
  - by apply is_ok_eq.
  - by apply is_ok_eq.
  - rewrite (surjective_pairing (process_pipeline _ _ _)) at 1. f_equal.
Defined.

(** ** Programs *)

Definition identity : JQ :=
  {| jq_mappings := {[ "Pod"%string := {| jops_insert := [{| jo_op := None; jo_label := None; jo_id := None;
       jo_element_type := None; jo_query := "."; halt_on_error := true |}]; jops_update := []; jops_delete := [] |} ]} |}.

Definition cached : State := ({[ "."%string := tt ]}, ∅).

Lemma cached_program_agrees :
  (jq_process identity (Insert (pod [])) cached).1 = Ok [Insert (pod [])] /\
  (jq_process identity (Insert (pod [])) cached).1 = (jq_process_with run_direct identity (Insert (pod [])) cached).1 /\
  cache_ok (jq_process identity (Insert (pod [])) cached).2.
Proof.
  split; [by_vm|]. apply (jq_cache_transparent identity (Insert (pod [])) cached).
  intros q p. cbn. rewrite lookup_singleton_Some. by intros [<- <-].
Defined.
End MiddlewareExample.
