(* ===== verification/ReactionRecovery.v ===== *)
(** * Subscribing, bootstrapping and recovering a reaction
      (lib/src/reactions/manager.rs, lib/src/reactions/bootstrap_context.rs,
      lib/src/recovery.rs, lib/src/queries/manager.rs)

    A reaction receives the results of its queries through one forwarder per
    query. It starts from a snapshot, from its checkpoint and the outbox, or
    from the head of the query; while it runs the forwarder looks for gaps in
    the sequence and recovers by the reaction's policy. The queries move on by
    themselves: a [schedule] says what happens to them before each of the
    awaits in which the reaction's code asks a query something. *)

From S2P Require Import Prelude QueryOutput OutputStores StateStore ComponentGraph.

Inductive ReactionRecoveryPolicy := Strict | AutoReset | AutoSkipGap.

#[global] Instance ReactionRecoveryPolicy_eq_dec : EqDecision ReactionRecoveryPolicy.
Proof. solve_decision. Defined.

Inductive FetchError :=
| NotRunning (status : ComponentStatus)
| TimedOut
| FetchOutboxGap (gap : OutboxGap).

Inductive StartupRejectionReason :=
| DurableNoStore | DurableOnVolatile | DurableOnVolatileQuery | SnapshotSkipGap | NoSnapshotAutoReset.

Inductive ReactionError :=
| Rejected (reason : StartupRejectionReason)
| QueryNotFound (query_id : string)
| NotReady (e : FetchError)
| CheckpointFailed (e : CheckpointError)
| FetchFailed (e : FetchError)
| HeadUnknown
| StrictRecovery
| HookFailed (msg : string).

(** Mix of the configuration hash and the generation of the output. *)
Definition output_epoch_hash (config_hash generation : Z) : Z :=
  as_u64 (config_hash + as_u64 (generation * 11400714819323198485)).

(** ** Queries *)

Section recovery.
Context {P : Payload}.

(** What a subscriber's receiver answers: a result, or the text of an error. *)
Notation Received := (outcome string QueryResult).

Record QueryHandle := {
  qh_output : QueryOutputState;
  qh_config_hash : Z;
  qh_status : ComponentStatus;
  qh_volatile : bool;
  qh_dispatching : list QueryResult; (** committed, not yet sent to receivers *)
  qh_receiver : option (list Received);
}.

Definition with_output (o : QueryOutputState) (q : QueryHandle) : QueryHandle :=
  {| qh_output := o; qh_config_hash := qh_config_hash q; qh_status := qh_status q; qh_volatile := qh_volatile q;
     qh_dispatching := qh_dispatching q; qh_receiver := qh_receiver q |}.
Definition with_dispatching (d : list QueryResult) (q : QueryHandle) : QueryHandle :=
  {| qh_output := qh_output q; qh_config_hash := qh_config_hash q; qh_status := qh_status q; qh_volatile := qh_volatile q;
     qh_dispatching := d; qh_receiver := qh_receiver q |}.
Definition with_receiver (r : option (list Received)) (q : QueryHandle) : QueryHandle :=
  {| qh_output := qh_output q; qh_config_hash := qh_config_hash q; qh_status := qh_status q; qh_volatile := qh_volatile q;
     qh_dispatching := qh_dispatching q; qh_receiver := r |}.
Definition with_status (s : ComponentStatus) (q : QueryHandle) : QueryHandle :=
  {| qh_output := qh_output q; qh_config_hash := qh_config_hash q; qh_status := s; qh_volatile := qh_volatile q;
     qh_dispatching := qh_dispatching q; qh_receiver := qh_receiver q |}.

(** What a query does on its own: [dispatch_query_results] numbers and commits
    a result under the lock of the output, and sends it after releasing it; a
    bounded broadcast drops its oldest results on a slow receiver; a restart
    may rebuild the output. *)
Inductive QueryEvent :=
| Emitted (r : QueryResult)
| Dispatched
| Dropped (n : nat)
| StatusChanged (s : ComponentStatus)
| Rebuilt
| ReceiverFailed (msg : string).

Definition query_step (ev : QueryEvent) (q : QueryHandle) : QueryHandle :=
  match ev with
  | Emitted r =>
      let sequence := saturating_add (as_of_sequence (qh_output q)) 1 in
      let '(r, o) := apply_committed_sequence sequence (qr_results r) r (qh_output q) in
      with_dispatching (qh_dispatching q ++ [r]) (with_output o q)
  | Dispatched =>
      match qh_dispatching q with
      | r :: rest => with_receiver ((fun l => l ++ [Ok r]) <$> qh_receiver q) (with_dispatching rest q)
      | [] => q
      end
  | Dropped n => with_receiver (drop n <$> qh_receiver q) q
  | StatusChanged s => with_status s q
  | Rebuilt => with_output (reset (qh_output q)) q
  | ReceiverFailed msg => with_receiver ((fun l => l ++ [Err msg]) <$> qh_receiver q) q
  end.

(** ** The world of a reaction *)

Context {R St : Type}.

Record World := {
  queries : gmap string QueryHandle;
  schedule : list (list (string * QueryEvent));
  reaction : R;
  state_store : option St;
  shared_checkpoints : gmap string ReactionCheckpoint;
}.

Definition with_queries (q : gmap string QueryHandle) (w : World) : World :=
  {| queries := q; schedule := schedule w; reaction := reaction w; state_store := state_store w;
     shared_checkpoints := shared_checkpoints w |}.
Definition with_reaction (r : R) (w : World) : World :=
  {| queries := queries w; schedule := schedule w; reaction := r; state_store := state_store w;
     shared_checkpoints := shared_checkpoints w |}.
Definition with_store (s : St) (w : World) : World :=
  {| queries := queries w; schedule := schedule w; reaction := reaction w; state_store := Some s;
     shared_checkpoints := shared_checkpoints w |}.
Definition with_checkpoints (c : gmap string ReactionCheckpoint) (w : World) : World :=
  {| queries := queries w; schedule := schedule w; reaction := reaction w; state_store := state_store w;
     shared_checkpoints := c |}.

Notation M := (SM World ReactionError).

Definition world_step (ev : string * QueryEvent) (qs : gmap string QueryHandle) : gmap string QueryHandle :=
  alter (query_step ev.2) ev.1 qs.

Definition await : M unit := fun w =>
  match schedule w with
  | [] => (Ok tt, w)
  | evs :: rest =>
      (Ok tt, {| queries := fold_left (fun qs ev => world_step ev qs) evs (queries w); schedule := rest;
                 reaction := reaction w; state_store := state_store w; shared_checkpoints := shared_checkpoints w |})
  end.

Definition get_query_instance (query_id : string) : M QueryHandle := fun w =>
  (match queries w !! query_id with Some q => Ok q | None => Err (QueryNotFound query_id) end, w).

(** A fetch can fail without failing its caller. *)
Definition Fetch (A : Type) : Type := M (outcome FetchError A).

Definition wait_until_running (query_id : string) : Fetch unit :=
  q ← get_query_instance query_id;
  match qh_status q with
  | Running => mret (Ok tt)
  | Starting =>
      _ ← await;
      q ← get_query_instance query_id;
      mret match qh_status q with Running => Ok tt | Starting => Err TimedOut | s => Err (NotRunning s) end
  | s => mret (Err (NotRunning s))
  end.

Definition when_running {A} (query_id : string) (f : QueryHandle -> outcome FetchError A) : Fetch A :=
  _ ← await;
  running ← wait_until_running query_id;
  match (running : outcome FetchError unit) with
  | Ok _ => q ← get_query_instance query_id; mret (f q)
  | Err e => mret (Err e)
  | Panic => mret Panic
  end.

Record SnapshotResponse := {
  snapshot_rows : gmap Z Json;
  snapshot_sequence : Z;
  snapshot_config_hash : Z;
  snapshot_generation : Z;
}.

Definition fetch_snapshot (query_id : string) : Fetch SnapshotResponse :=
  when_running query_id (fun q =>
    Ok {| snapshot_rows := results (qh_output q); snapshot_sequence := as_of_sequence (qh_output q);
          snapshot_config_hash := qh_config_hash q; snapshot_generation := generation (qh_output q) |}).

Record OutboxResponse := {
  outbox_results : list QueryResult;
  outbox_latest_sequence : Z;
  outbox_config_hash : Z;
  outbox_generation : Z;
}.

Definition fetch_outbox (query_id : string) (after_sequence : Z) : Fetch OutboxResponse :=
  when_running query_id (fun q =>
    match fetch_outbox_after after_sequence (qh_output q) with
    | Ok rs => Ok {| outbox_results := rs; outbox_latest_sequence := as_of_sequence (qh_output q);
                     outbox_config_hash := qh_config_hash q; outbox_generation := generation (qh_output q) |}
    | Err gap => Err (FetchOutboxGap {| requested := requested gap; earliest_available := earliest_available gap;
                                        latest_sequence := latest_sequence gap; config_hash := qh_config_hash q |})
    | Panic => Panic
    end).

(** [subscribe]: the head is sampled and the receiver attached under the lock
    of the output. *)
Definition subscribe (query_id : string) : M Z :=
  _ ← await;
  running ← wait_until_running query_id;
  match (running : outcome FetchError unit) with
  | Ok _ =>
      q ← get_query_instance query_id;
      w ← sm_get;
      _ ← sm_put (with_queries (<[query_id := with_receiver (Some []) q]> (queries w)) w);
      mret (as_of_sequence (qh_output q))
  | Err e => sm_err (NotReady e)
  | Panic => fun w => (Panic, w)
  end.

Definition query_epoch_hash (query_id : string) : M Z :=
  _ ← await;
  q ← get_query_instance query_id;
  mret (output_epoch_hash (qh_config_hash q) (generation (qh_output q))).
(** ** The reaction *)

Record BootstrapContext := { bc_query_id : string; bc_is_reset : bool }.

Class Reaction := {
  reaction_id : string;
  query_ids : list string;
  is_durable : bool;
  needs_snapshot_on_fresh_start : bool;
  default_recovery_policy : ReactionRecoveryPolicy;
  enqueue_query_result : QueryResult -> SM R string unit;
  bootstrap : BootstrapContext -> M unit;
}.

Context {Codec : CheckpointCodec} {SP : StateStoreProvider St} {Re : Reaction}.

Definition enqueue (r : QueryResult) : SM World string unit := fun w =>
  let '(res, reaction') := enqueue_query_result r (reaction w) in (res, with_reaction reaction' w).

(** [Result] values that are looked at instead of propagated *)
Definition attempt {S E F A} (m : SM S E A) : SM S F (outcome E A) := fun s =>
  match m s with
  | (Panic, s) => (Panic, s)
  | (r, s) => (Ok r, s)
  end.

(** The helpers of the context: a read without a store finds nothing, a write
    without one is an error. *)
Definition on_store {A} (m : SM St CheckpointError A) (absent : outcome ReactionError A) : M A := fun w =>
  match state_store w with
  | Some s => let '(r, s) := m s in (map_err CheckpointFailed r, with_store s w)
  | None => (absent, w)
  end.

Definition ctx_fetch_snapshot (ctx : BootstrapContext) : Fetch SnapshotResponse := fetch_snapshot (bc_query_id ctx).
Definition ctx_fetch_outbox (ctx : BootstrapContext) (after_sequence : Z) : Fetch OutboxResponse :=
  fetch_outbox (bc_query_id ctx) after_sequence.
Definition ctx_read_checkpoint (ctx : BootstrapContext) : M (option ReactionCheckpoint) :=
  on_store (read_checkpoint reaction_id (bc_query_id ctx)) (Ok None).
Definition ctx_write_checkpoint (ctx : BootstrapContext) (cp : ReactionCheckpoint) : M unit :=
  on_store (write_checkpoint reaction_id (bc_query_id ctx) cp) (Err (HookFailed "no state store")).

(** [if let Some(store)]: a checkpoint is written when there is a store. *)
Definition persist_checkpoint (query_id : string) (cp : ReactionCheckpoint) : M unit :=
  on_store (write_checkpoint reaction_id query_id cp) (Ok tt).

Definition expect_fetch {A} (m : Fetch A) : M A :=
  r ← m;
  match (r : outcome FetchError A) with
  | Ok a => mret a
  | Err e => sm_err (FetchFailed e)
  | Panic => fun w => (Panic, w)
  end.

(** ** Start *)

Definition validate_query (query_id : string) : M unit :=
  q ← get_query_instance query_id;
  if qh_volatile q then sm_err (Rejected DurableOnVolatileQuery) else mret tt.

Definition validate_startup_config : M unit :=
  _ ← (if is_durable then
         store ← (fun w => (Ok (state_store w), w));
         match store with
         | None => sm_err (Rejected DurableNoStore)
         | Some s =>
             if negb (store_is_durable s) then sm_err (Rejected DurableOnVolatile)
             else sm_foldl (fun _ query_id => validate_query query_id) tt query_ids
         end
       else mret tt);
  if needs_snapshot_on_fresh_start && bool_decide (default_recovery_policy = AutoSkipGap)
  then sm_err (Rejected SnapshotSkipGap)
  else if negb needs_snapshot_on_fresh_start && bool_decide (default_recovery_policy = AutoReset)
  then sm_err (Rejected NoSnapshotAutoReset)
  else mret tt.

(** The checkpoint to start from, and whether the bootstrap hook has to run. *)
Notation Plan := (ReactionCheckpoint * bool)%type.

Definition checkpoint_at (sequence config_hash : Z) : ReactionCheckpoint :=
  {| cp_sequence := sequence; cp_config_hash := config_hash |}.

Definition handle_fresh_start (query_id : string) (subscribe_as_of : option Z) : M Plan :=
  config_hash ← query_epoch_hash query_id;
  if needs_snapshot_on_fresh_start then
    snapshot ← expect_fetch (fetch_snapshot query_id);
    mret (checkpoint_at (snapshot_sequence snapshot) config_hash, true)
  else
    match subscribe_as_of with
    | None => sm_err HeadUnknown
    | Some seq =>
        let cp := checkpoint_at seq config_hash in
        _ ← persist_checkpoint query_id cp;
        mret (cp, false)
    end.

Definition apply_recovery_policy (query_id : string) (policy : ReactionRecoveryPolicy) : M Plan :=
  config_hash ← query_epoch_hash query_id;
  match policy with
  | Strict => sm_err StrictRecovery
  | AutoReset =>
      snapshot ← expect_fetch (fetch_snapshot query_id);
      mret (checkpoint_at (snapshot_sequence snapshot) config_hash, true)
  | AutoSkipGap =>
      fetched ← fetch_outbox query_id 0;
      match (fetched : outcome FetchError OutboxResponse) with
      | Ok resp =>
          let cp := checkpoint_at (outbox_latest_sequence resp) config_hash in
          _ ← persist_checkpoint query_id cp; mret (cp, false)
      | Err (FetchOutboxGap gap) =>
          let cp := checkpoint_at (latest_sequence gap) config_hash in
          _ ← persist_checkpoint query_id cp; mret (cp, false)
      | Err e => sm_err (FetchFailed e)
      | Panic => fun w => (Panic, w)
      end
  end.

(** Enqueue in order, up to the first failure; the sequence reached. *)
Fixpoint replay_outbox (last : Z) (entries : list QueryResult) : M Z :=
  match entries with
  | [] => mret last
  | entry :: entries =>
      r ← attempt (enqueue entry);
      match (r : outcome string unit) with
      | Ok _ => replay_outbox (qr_sequence entry) entries
      | _ => mret last
      end
  end.

Definition handle_outbox_catchup (query_id : string) (checkpoint : ReactionCheckpoint)
    (policy : ReactionRecoveryPolicy) : M Plan :=
  fetched ← fetch_outbox query_id (cp_sequence checkpoint);
  match (fetched : outcome FetchError OutboxResponse) with
  | Ok resp =>
      last_ok_seq ← replay_outbox (cp_sequence checkpoint) (outbox_results resp);
      mret (checkpoint_at last_ok_seq (cp_config_hash checkpoint), false)
  | Err (FetchOutboxGap _) => apply_recovery_policy query_id policy
  | Err _ => mret (checkpoint, false)
  | Panic => fun w => (Panic, w)
  end.

(** The loop body of [subscribe_and_bootstrap] for one query *)
Definition plan_query (existing : gmap string ReactionCheckpoint) (heads : gmap string Z) (query_id : string) : M Plan :=
  _ ← get_query_instance query_id;
  match existing !! query_id with
  | None => handle_fresh_start query_id (heads !! query_id)
  | Some cp =>
      current_config_hash ← query_epoch_hash query_id;
      if negb (cp_config_hash cp =? current_config_hash)
      then apply_recovery_policy query_id default_recovery_policy
      else handle_outbox_catchup query_id cp default_recovery_policy
  end.

(** The receivers are attached first. *)
Definition wire_subscriptions : M (gmap string Z) :=
  sm_foldl (fun heads query_id =>
      _ ← get_query_instance query_id;
      head ← subscribe query_id;
      mret (<[query_id := head]> heads)) ∅ query_ids.

Definition read_existing : M (gmap string ReactionCheckpoint) :=
  on_store (read_checkpoints_batch reaction_id query_ids) (Ok ∅).

Definition plan_queries (existing : gmap string ReactionCheckpoint) (heads : gmap string Z) :
    M (gmap string ReactionCheckpoint * list string) :=
  sm_foldl (fun acc query_id =>
      plan ← plan_query existing heads query_id;
      mret (<[query_id := plan.1]> acc.1, if plan.2 : bool then acc.2 ++ [query_id] else acc.2)) (∅, []) query_ids.

Definition run_hooks (existing : gmap string ReactionCheckpoint) (bootstrap_queries : list string) : M unit :=
  sm_foldl (fun _ query_id =>
      bootstrap {| bc_query_id := query_id; bc_is_reset := bool_decide (is_Some (existing !! query_id)) |})
    tt bootstrap_queries.

(** Only bootstrapped checkpoints are written, and a failed write is logged. *)
Definition persist_bootstrapped (initial : gmap string ReactionCheckpoint) (bootstrap_queries : list string) : M unit :=
  sm_foldl (fun _ (e : string * ReactionCheckpoint) =>
      if bool_decide (e.1 ∈ bootstrap_queries)
      then r ← attempt (persist_checkpoint e.1 e.2); mret tt
      else mret tt) tt (map_to_list initial).

Definition subscribe_and_bootstrap : M unit :=
  if bool_decide (query_ids = []) then mret tt
  else
    heads ← wire_subscriptions;
    existing ← read_existing;
    planned ← plan_queries existing heads;
    _ ← run_hooks existing planned.2;
    _ ← persist_bootstrapped planned.1 planned.2;
    w ← sm_get;
    sm_put (with_checkpoints planned.1 w).

(** A failed start aborts the forwarders, which drops their receivers. *)
Definition abort_subscription_tasks (w : World) : World :=
  with_queries (fold_left (fun qs query_id => alter (with_receiver None) query_id qs) query_ids (queries w)) w.

Definition subscribe_or_abort : M unit := fun w =>
  match subscribe_and_bootstrap w with
  | (Err e, w) => (Err e, abort_subscription_tasks w)
  | r => r
  end.

Definition start_reaction : M unit := _ ← validate_startup_config; subscribe_or_abort.

(** ** The forwarder *)

Definition set_checkpoint (query_id : string) (cp : ReactionCheckpoint) : M unit := fun w =>
  (Ok tt, with_checkpoints (<[query_id := cp]> (shared_checkpoints w)) w).

Definition checkpoint_sequence (query_id : string) (absent : Z) : M Z := fun w =>
  (Ok match shared_checkpoints w !! query_id with Some cp => cp_sequence cp | None => absent end, w).

Definition handle_broadcast_gap (query_id : string) : M unit :=
  config_hash ← query_epoch_hash query_id;
  match default_recovery_policy with
  | Strict => sm_err StrictRecovery
  | AutoReset =>
      snapshot ← expect_fetch (fetch_snapshot query_id);
      let cp := checkpoint_at (snapshot_sequence snapshot) config_hash in
      _ ← bootstrap {| bc_query_id := query_id; bc_is_reset := true |};
      _ ← persist_checkpoint query_id cp;
      set_checkpoint query_id cp
  | AutoSkipGap =>
      fetched ← fetch_outbox query_id 0;
      current_seq ← match (fetched : outcome FetchError OutboxResponse) with
                    | Ok resp => mret (outbox_latest_sequence resp)
                    | Err (FetchOutboxGap gap) => mret (latest_sequence gap)
                    | Err _ => checkpoint_sequence query_id 0
                    | Panic => fun w => (Panic, w)
                    end;
      let cp := checkpoint_at current_seq config_hash in
      _ ← persist_checkpoint query_id cp;
      set_checkpoint query_id cp
  end.

(** [recv] of the receiver: nothing while the channel is empty *)
Definition receive (query_id : string) : M (option Received) :=
  _ ← await;
  q ← get_query_instance query_id;
  match qh_receiver q with
  | Some (x :: rest) =>
      w ← sm_get;
      _ ← sm_put (with_queries (<[query_id := with_receiver (Some rest) q]> (queries w)) w);
      mret (Some x)
  | _ => mret None
  end.

Inductive ForwarderTurn := Waiting (last : Z) | Forwarding (last : Z) | Exited.

Definition forward_result (query_id : string) (result : QueryResult) : M ForwarderTurn :=
  let seq := qr_sequence result in
  r ← attempt (enqueue result);
  match (r : outcome string unit) with
  | Ok _ =>
      config_hash ← (fun w => (Ok match shared_checkpoints w !! query_id with
                                  | Some cp => cp_config_hash cp | None => 0 end, w));
      _ ← set_checkpoint query_id (checkpoint_at seq config_hash);
      mret (Forwarding seq)
  | _ => mret (Forwarding seq)
  end.

(** A hole before the result received: first the outbox, then the policy. *)
Definition catch_up (query_id : string) (last : Z) : M Z :=
  fetched ← fetch_outbox query_id last;
  match (fetched : outcome FetchError OutboxResponse) with
  | Ok outbox => replay_outbox last (outbox_results outbox)
  | Err _ => mret last
  | Panic => fun w => (Panic, w)
  end.

Definition recover_gap (query_id : string) (last : Z) (result : QueryResult) : M ForwarderTurn :=
  recovered ← attempt (handle_broadcast_gap query_id);
  match (recovered : outcome ReactionError unit) with
  | Ok _ =>
      last ← checkpoint_sequence query_id last;
      if qr_sequence result <=? last then mret (Forwarding last) else forward_result query_id result
  | _ => mret Exited
  end.

Fixpoint text_contains (needle hay : string) : bool :=
  String.prefix needle hay || match hay with EmptyString => false | String _ hay => text_contains needle hay end.

Definition forward_turn (query_id : string) (last : Z) : M ForwarderTurn :=
  received ← receive query_id;
  match (received : option Received) with
  | None => mret (Waiting last)
  | Some (Ok result) =>
      let seq := qr_sequence result in
      if seq <=? last then mret (Forwarding last)
      else if (0 <? last) && (saturating_add last 1 <? seq) then
        last ← catch_up query_id last;
        if seq <=? last then mret (Forwarding last) else recover_gap query_id last result
      else forward_result query_id result
  | Some (Err error) =>
      if text_contains "lagged" error then
        recovered ← attempt (handle_broadcast_gap query_id);
        match (recovered : outcome ReactionError unit) with
        | Ok _ => mret (Forwarding last)
        | _ => mret Exited
        end
      else mret Exited
  | Some Panic => fun w => (Panic, w)
  end.

(** The forwarder of a query from the opening of the gate, for a number of
    turns; it ends early when it exits. *)
Fixpoint forward (turns : nat) (query_id : string) (last : Z) : M ForwarderTurn :=
  match turns with
  | O => mret (Forwarding last)
  | S turns =>
      turn ← forward_turn query_id last;
      match turn with
      | Waiting last | Forwarding last => forward turns query_id last
      | Exited => mret Exited
      end
  end.

Definition run_forwarder (turns : nat) (query_id : string) : M ForwarderTurn :=
  initial_seq ← checkpoint_sequence query_id 0;
  forward turns query_id initial_seq.
End recovery.
Arguments World {P} R St.
