(* ===== verification/ReactionMirror.v ===== *)
(** * A reaction that keeps up mirrors its query

    [Mirror] describes a reaction that keeps a copy of a query's rows: a result
    is applied to the copy, the bootstrap hook loads a snapshot. Whatever the
    query does meanwhile, and whatever a slow receiver drops, the copy of a
    reaction that has reached the head of the query is the query's rows
    ([caught_up_reaction_mirrors_query]): the forwarder either fills a hole from
    the outbox, starts over from a snapshot, or exits. *)

From S2P Require Import Prelude QueryOutput QueryOutputFacts OutputStores StateStore ComponentGraph ReactionRecovery.

(** ** Replaying a history *)

Section replay.
Context {P : Payload}.
Implicit Types (m : gmap Z Json) (hist : list QueryResult) (ds : list ResultDiff).

Definition diff_key (d : ResultDiff) : option Z :=
  match d with
  | Add _ k | DiffDelete _ k | DiffUpdate _ _ _ _ k | DiffAggregation _ _ k => Some k
  | DiffNoop => None
  end.

Lemma apply_diff_other d m k : diff_key d <> Some k -> apply_diff m d !! k = m !! k.
Proof.
  destruct d; cbn; intros Hk; rewrite ?lookup_insert_ne, ?lookup_delete_ne by congruence; done.
Qed.

Lemma apply_diff_same d m m' k : diff_key d = Some k -> apply_diff m d !! k = apply_diff m' d !! k.
Proof. destruct d; cbn; intros [= ->]; by rewrite ?lookup_insert_eq, ?lookup_delete_eq. Qed.

(** A key is decided by the last diff that names it. *)
Lemma apply_diffs_local ds m m' k :
  m !! k = m' !! k -> fold_left apply_diff ds m !! k = fold_left apply_diff ds m' !! k.
Proof.
  revert m m'. induction ds as [|d ds IH]; intros m m' Hm; [done|]. cbn. apply IH.
  destruct (decide (diff_key d = Some k)); [by apply apply_diff_same|by rewrite !apply_diff_other].
Qed.

Lemma apply_diffs_decided ds m m' k :
  Exists (fun d => diff_key d = Some k) ds -> fold_left apply_diff ds m !! k = fold_left apply_diff ds m' !! k.
Proof.
  revert m m'. induction ds as [|d ds IH]; intros m m' Hex; [by inversion Hex|]. cbn.
  destruct (decide (diff_key d = Some k)); [by apply apply_diffs_local, apply_diff_same|].
  apply IH. by inversion Hex.
Qed.

Lemma apply_diffs_untouched ds m k :
  ~ Exists (fun d => diff_key d = Some k) ds -> fold_left apply_diff ds m !! k = m !! k.
Proof.
  revert m. induction ds as [|d ds IH]; intros m Hex; [done|]. cbn.
  rewrite IH by (intros He; apply Hex; by constructor). apply apply_diff_other. intros Hd. apply Hex. by constructor.
Qed.

(** Applying diffs once more changes nothing. *)
Lemma apply_diffs_again ds m : fold_left apply_diff ds (fold_left apply_diff ds m) = fold_left apply_diff ds m.
Proof.
  apply map_eq. intros k. destruct (decide (Exists (fun d => diff_key d = Some k) ds)) as [He|He].
  - by apply apply_diffs_decided.
  - by apply apply_diffs_untouched.
Qed.

Definition apply_results (rs : list QueryResult) m : gmap Z Json := fold_left apply_diff (concat (map qr_results rs)) m.

Lemma apply_results_app rs rs' m : apply_results (rs ++ rs') m = apply_results rs' (apply_results rs m).
Proof. unfold apply_results. by rewrite map_app, concat_app, fold_left_app. Qed.

Lemma apply_results_again rs m : apply_results rs (apply_results rs m) = apply_results rs m.
Proof. apply apply_diffs_again. Qed.

(** The results after the first [a] up to the [b]-th *)
Definition between (a b : nat) hist : list QueryResult := take (b - a) (drop a hist).

Lemma between_app a b hist more : (b <= length hist)%nat -> between a b (hist ++ more) = between a b hist.
Proof.
  intros Hb. unfold between. destruct (decide (a <= b)%nat).
  - rewrite drop_app_le by lia. apply take_app_le. rewrite length_drop. lia.
  - by replace (b - a)%nat with 0%nat by lia.
Qed.

Lemma between_split a b c hist : (a <= b <= c)%nat -> between a b hist ++ between b c hist = between a c hist.
Proof.
  intros Hb. unfold between. rewrite <- (take_drop (b - a) (take (c - a) (drop a hist))).
  rewrite take_take, skipn_firstn_comm, drop_drop.
  replace ((b - a) `min` (c - a))%nat with (b - a)%nat by lia.
  replace (c - a - (b - a))%nat with (c - b)%nat by lia. by replace (a + (b - a))%nat with b by lia.
Qed.

(** Replaying from a snapshot that is ahead of where the replay starts ends in
    the same rows once the replay has passed it. *)
Lemma replay_from_later_snapshot hist m c s k :
  (c <= s <= k)%nat ->
  apply_results (between c k hist) (apply_results (between 0 s hist) m) = apply_results (between 0 k hist) m.
Proof.
  intros Hk. rewrite <- (between_split c s k), apply_results_app by lia.
  rewrite <- (between_split 0 c s), apply_results_app, apply_results_again by lia.
  rewrite <- apply_results_app, between_split by lia.
  by rewrite <- apply_results_app, between_split by lia.
Qed.
End replay.

(** ** The reactions *)

Definition load_with {P : Payload} {R St : Type} (load : gmap Z Json -> R -> R) (snapshot : SnapshotResponse) :
    SM (World R St) ReactionError unit := fun w =>
  (Ok tt, with_reaction (load (snapshot_rows snapshot) (reaction w)) w).

Class Mirror {P : Payload} {R St : Type} (Re : Reaction (R:=R) (St:=St)) := {
  mirror_rows : R -> gmap Z Json;
  load_rows : gmap Z Json -> R -> R;
  load_mirrors : forall rows x, mirror_rows (load_rows rows x) = rows;
  enqueue_mirrors : forall r x, exists x', enqueue_query_result r x = (Ok tt, x') /\
    mirror_rows x' = fold_left apply_diff (qr_results r) (mirror_rows x);
  bootstrap_loads : forall ctx (w : World R St), bootstrap ctx w =
    (snapshot ← expect_fetch (ctx_fetch_snapshot ctx); load_with load_rows snapshot) w;
}.

Section mirror.
Context {P : Payload} {R St : Type} {Codec : CheckpointCodec} {CL : CheckpointCodecLaws}.
Context {SP : StateStoreProvider St} {SL : StateStoreLaws St} {Re : Reaction (R:=R) (St:=St)} {Mi : Mirror Re}.
Notation W := (World R St).
Notation M := (SM W ReactionError).

(** One query, from a state [st0] on *)
Context (q : string) (st0 : QueryOutputState).
Notation base := (as_of_sequence st0).
Implicit Types (hist : list QueryResult) (w : W).

Definition head_of hist : Z := base + Z.of_nat (length hist).
Definition output_of hist : QueryOutputState := fold_left commit hist st0.
Definition position (k : Z) : nat := Z.to_nat (k - base).
Definition rows_at hist (k : Z) : gmap Z Json := apply_results (between 0 (position k) hist) (results st0).

(** The events of the query that neither rebuild its output nor fail the
    receiver *)
Definition ordinary (ev : string * QueryEvent) : Prop :=
  ev.1 = q -> match ev.2 with Rebuilt | ReceiverFailed _ => False | _ => True end.

Definition emissions (evs : list (string * QueryEvent)) : Z :=
  Z.of_nat (length (List.filter (fun ev => String.eqb ev.1 q && match ev.2 with Emitted _ => true | _ => false end) evs)).

(** The query has emitted [hist]; everything under way to the receiver is part
    of it. *)
Record follows hist (h : QueryHandle) : Prop := {
  fo_output : qh_output h = output_of hist;
  fo_dispatching : forall r, r ∈ qh_dispatching h -> r ∈ numbered base hist;
  fo_receiver : forall l x, qh_receiver h = Some l -> x ∈ l -> exists r, x = Ok r /\ r ∈ numbered base hist;
}.

Record tracked hist w : Prop := {
  tr_handle : exists h, queries w !! q = Some h /\ follows hist h;
  tr_ordinary : Forall ordinary (concat (schedule w));
  tr_room : head_of hist + emissions (concat (schedule w)) <= u64_max;
}.

Context (Hst0 : window_ok st0).

Lemma output_spec hist : head_of hist <= u64_max ->
  window_ok (output_of hist) /\ as_of_sequence (output_of hist) = head_of hist /\
  results (output_of hist) = rows_at hist (head_of hist).
Proof.
  intros Hmax. split; [by apply commits_window|].
  destruct (commits_spec hist st0) as (H1 & _ & H3 & _); [apply Hst0|done|by apply window_keeps|].
  split; [exact H1|]. unfold output_of. rewrite H3. unfold rows_at, apply_results, between, position, head_of.
  rewrite drop_0. replace (Z.to_nat _ - 0)%nat with (length hist) by lia. by rewrite take_ge by lia.
Qed.

Lemma numbered_app s rs rs' : numbered s (rs ++ rs') = numbered s rs ++ numbered (s + Z.of_nat (length rs)) rs'.
Proof.
  revert s. induction rs as [|r rs IH]; intros s; cbn [numbered app length]; [by rewrite Z.add_0_r|].
  rewrite IH. do 3 f_equal. lia.
Qed.

Lemma follows_step hist h ev :
  head_of hist + 1 <= u64_max \/ (forall r, ev <> Emitted r) -> ordinary (q, ev) -> follows hist h ->
  follows (hist ++ match ev with Emitted r => [r] | _ => [] end) (query_step ev h).
Proof.
  intros Hroom Hord [Ho Hd Hr]. specialize (Hord eq_refl).
  assert (Hsub : forall more r, r ∈ numbered base hist -> r ∈ numbered base (hist ++ more)).
  { intros more r. rewrite numbered_app, elem_of_app. by left. }
  destruct ev as [r| |n|s| |msg]; cbn [query_step]; try done; rewrite ?app_nil_r; [| | |by split].
  - assert (Hmax : head_of hist + 1 <= u64_max) by (destruct Hroom as [|Hno]; [done|by edestruct Hno]).
    destruct (output_spec hist) as (_ & Has & _); [lia|].
    assert (Hseq : saturating_add (as_of_sequence (qh_output h)) 1 = head_of hist + 1)
      by (rewrite Ho, Has; unfold saturating_add; lia).
    split; cbn.
    + unfold output_of. rewrite fold_left_app. cbn [fold_left]. fold (output_of hist). by rewrite <- Ho.
    + intros x [Hx|Hx]%elem_of_app; [by apply Hsub, Hd|]. apply list_elem_of_singleton in Hx as ->.
      rewrite numbered_app, elem_of_app. right. rewrite Hseq. cbn. apply list_elem_of_singleton. done.
    + intros l x Hl Hx. destruct (Hr l x Hl Hx) as (y & -> & Hy). exists y. split; [done|by apply Hsub].
  - destruct (qh_dispatching h) as [|r rest] eqn:Hdis; [by split; [|rewrite Hdis|]|]. split; cbn; [done|intros; apply Hd; set_solver|].
    intros l x Hl Hx. destruct (qh_receiver h) as [l0|] eqn:Hrec; [|done]. cbn in Hl. injection Hl as <-.
    apply elem_of_app in Hx as [Hx|Hx]; [by eapply Hr|]. apply list_elem_of_singleton in Hx as ->.
    exists r. split; [done|]. apply Hd. set_solver.
  - split; cbn; [done|done|]. intros l x Hl Hx. destruct (qh_receiver h) as [l0|] eqn:Hrec; [|done]. cbn in Hl.
    injection Hl as <-. eapply Hr; [done|]. by eapply subseteq_drop.
Qed.
Lemma emissions_app evs evs' : emissions (evs ++ evs') = emissions evs + emissions evs'.
Proof. unfold emissions. rewrite List.filter_app, length_app. lia. Qed.

Lemma emissions_cons ev evs : emissions (ev :: evs) = emissions [ev] + emissions evs.
Proof. apply (emissions_app [ev] evs). Qed.

Lemma emissions_nonneg evs : 0 <= emissions evs.
Proof. unfold emissions. lia. Qed.

Lemma head_of_app hist more : head_of (hist ++ more) = head_of hist + Z.of_nat (length more).
Proof. unfold head_of. rewrite length_app. lia. Qed.

Lemma events_follow evs qs hist h :
  qs !! q = Some h -> follows hist h -> Forall ordinary evs -> head_of hist + emissions evs <= u64_max ->
  exists more h', fold_left (fun qs ev => world_step ev qs) evs qs !! q = Some h' /\
    follows (hist ++ more) h' /\ Z.of_nat (length more) = emissions evs.
Proof.
  revert qs hist h. induction evs as [|[i ev] evs IH]; intros qs hist h Hh Hf Ho Hroom.
  { exists [], h. by rewrite app_nil_r. }
  apply Forall_cons in Ho as [Hev Ho]. rewrite emissions_cons in Hroom. cbn [fold_left].
  pose proof (emissions_nonneg evs) as Hnn. destruct (decide (i = q)) as [->|Hi].
  - set (one := match ev with Emitted r => [r] | _ => [] end : list QueryResult).
    assert (Hone : Z.of_nat (length one) = emissions [(q, ev)]).
    { unfold emissions, one. cbn. rewrite String.eqb_refl. by destruct ev. }
    destruct (IH (world_step (q, ev) qs) (hist ++ one) (query_step ev h)) as (more & h' & Hh' & Hf' & Hlen).
    + unfold world_step. cbn. by rewrite lookup_alter_eq, Hh.
    + apply follows_step; [|exact Hev|done]. destruct ev; try (by right). left.
      unfold one in Hone. cbn [length] in Hone. lia.
    + done.
    + rewrite head_of_app, Hone. lia.
    + exists (one ++ more), h'. rewrite app_assoc, length_app, emissions_cons. split_and!; [done|done|lia].
  - assert (Hone : emissions [(i, ev)] = 0).
    { unfold emissions. cbn. by rewrite (proj2 (String.eqb_neq i q) Hi). }
    destruct (IH (world_step (i, ev) qs) hist h) as (more & h' & Hh' & Hf' & Hlen); [|done|done|lia|].
    + unfold world_step. cbn. by rewrite lookup_alter_ne.
    + exists more, h'. rewrite emissions_cons. split_and!; [done|done|lia].
Qed.

(** The query has moved on, the reaction has not. *)
Definition moved hist w hist' w' : Prop :=
  (exists more, hist' = hist ++ more) /\ tracked hist' w' /\
  reaction w' = reaction w /\ state_store w' = state_store w /\ shared_checkpoints w' = shared_checkpoints w.

Lemma moved_refl hist w : tracked hist w -> moved hist w hist w.
Proof. intros Hw. split; [exists []; by rewrite app_nil_r|done]. Qed.

Lemma moved_trans hist w hist1 w1 hist2 w2 :
  moved hist w hist1 w1 -> moved hist1 w1 hist2 w2 -> moved hist w hist2 w2.
Proof.
  intros ([more ->] & H1 & E1 & E2 & E3) ([more' ->] & H2 & F1 & F2 & F3).
  split; [exists (more ++ more'); by rewrite app_assoc|]. split_and!; [done|congruence..].
Qed.

Lemma await_moves hist w : tracked hist w -> exists hist' w', await w = (Ok tt, w') /\ moved hist w hist' w'.
Proof.
  intros Hw. unfold await. destruct (schedule w) as [|evs rest] eqn:Hs.
  { exists hist, w. split; [done|by apply moved_refl]. }
  destruct Hw as [(h & Hh & Hf) Ho Hroom]. rewrite Hs in Ho, Hroom. cbn [concat] in Ho, Hroom.
  apply Forall_app in Ho as [Ho Ho']. rewrite emissions_app in Hroom.
  destruct (events_follow evs (queries w) hist h Hh Hf Ho) as (more & h' & Hh' & Hf' & Hlen).
  { pose proof (emissions_nonneg (concat rest)). lia. }
  exists (hist ++ more). eexists. split; [done|]. split; [by exists more|]. split; [|done].
  split; cbn; [by exists h'|done|]. rewrite head_of_app. lia.
Qed.

Lemma get_instance_ok hist w : tracked hist w ->
  exists h, get_query_instance q w = (Ok h, w) /\ follows hist h.
Proof. intros [(h & Hh & Hf) _ _]. exists h. unfold get_query_instance. by rewrite Hh. Qed.

Lemma wait_moves hist w : tracked hist w ->
  exists r hist' w', wait_until_running q w = (Ok r, w') /\ r <> Panic /\ moved hist w hist' w'.
Proof.
  intros Hw. unfold wait_until_running. destruct (get_instance_ok _ _ Hw) as (h & Hg & Hf).
  rewrite (sm_bind_ok _ _ _ _ _ Hg).
  destruct (qh_status h); try (eexists _, hist, w; split; [reflexivity|]; split; [done|by apply moved_refl]).
  destruct (await_moves _ _ Hw) as (hist1 & w1 & Ha & Hm). rewrite (sm_bind_ok _ _ _ _ _ Ha).
  destruct (get_instance_ok hist1 w1) as (h1 & Hg1 & Hf1); [apply Hm|].
  rewrite (sm_bind_ok _ _ _ _ _ Hg1). eexists _, hist1, w1. split; [reflexivity|]. split; [|done].
  by destruct (qh_status h1).
Qed.

Lemma when_running_moves {A} (f : QueryHandle -> outcome FetchError A) hist w : tracked hist w ->
  exists r hist' w', when_running q f w = (Ok r, w') /\ moved hist w hist' w' /\
    ((exists h, follows hist' h /\ r = f h) \/ exists e, r = Err e).
Proof.
  intros Hw. unfold when_running. destruct (await_moves _ _ Hw) as (hist1 & w1 & Ha & Hm1).
  rewrite (sm_bind_ok _ _ _ _ _ Ha). destruct (wait_moves hist1 w1) as (r & hist2 & w2 & Hr & Hnp & Hm2); [apply Hm1|].
  rewrite (sm_bind_ok _ _ _ _ _ Hr). pose proof (moved_trans _ _ _ _ _ _ Hm1 Hm2) as Hm.
  destruct r as [u|e|]; [| |done].
  - destruct (get_instance_ok hist2 w2) as (h & Hg & Hf); [apply Hm2|]. rewrite (sm_bind_ok _ _ _ _ _ Hg).
    eexists _, hist2, w2. split; [reflexivity|]. split; [done|]. left. by exists h.
  - eexists _, hist2, w2. split; [reflexivity|]. split; [done|]. right. by exists e.
Qed.

Lemma tracked_max hist w : tracked hist w -> head_of hist <= u64_max.
Proof. intros [_ _ Hr]. pose proof (emissions_nonneg (concat (schedule w))). lia. Qed.

Lemma fetch_snapshot_moves hist w : tracked hist w ->
  exists r hist' w', fetch_snapshot q w = (Ok r, w') /\ moved hist w hist' w' /\
    ((exists s, r = Ok s /\ snapshot_rows s = rows_at hist' (head_of hist') /\ snapshot_sequence s = head_of hist') \/
     exists e, r = Err e).
Proof.
  intros Hw. unfold fetch_snapshot. destruct (when_running_moves (fun h => Ok {|
      snapshot_rows := results (qh_output h); snapshot_sequence := as_of_sequence (qh_output h);
      snapshot_config_hash := qh_config_hash h; snapshot_generation := generation (qh_output h) |}) hist w Hw)
    as (r & hist' & w' & Hr & Hm & Hcase).
  exists r, hist', w'. split; [exact Hr|]. split; [done|]. destruct Hcase as [(h & Hf & ->)|He]; [left|by right].
  eexists. split; [done|]. cbn. destruct (output_spec hist') as (_ & H1 & H2); [eapply tracked_max, Hm|].
  by rewrite (fo_output _ _ Hf).
Qed.

Lemma numbered_drop n s rs : drop n (numbered s rs) = numbered (s + Z.of_nat (n `min` length rs)%nat) (drop n rs).
Proof.
  revert n s. induction rs as [|r rs IH]; intros [|n] s; cbn [numbered drop length]; rewrite ?Z.add_0_r; try done.
  rewrite IH. f_equal. lia.
Qed.

(** What the outbox answers after a position of the history *)
Lemma outbox_answer hist k :
  head_of hist <= u64_max -> base <= k <= head_of hist ->
  match fetch_outbox_after k (output_of hist) with
  | Ok rs => rs = numbered k (drop (position k) hist)
  | Err _ => True
  | Panic => False
  end.
Proof.
  intros Hmax Hk. set (n := position k). assert (Hn : (n <= length hist)%nat) by (unfold n, position, head_of in *; lia).
  set (st1 := output_of (take n hist)).
  assert (Hst1 : window_ok st1 /\ as_of_sequence st1 = k).
  { destruct (output_spec (take n hist)) as (H1 & H2 & _); unfold head_of in *; rewrite length_take in *; [lia|].
    split; [exact H1|]. unfold st1. rewrite H2. unfold n, position in *. lia. }
  destruct Hst1 as [Hw1 Hk1]. assert (Hout : output_of hist = fold_left commit (drop n hist) st1).
  { unfold st1, output_of. by rewrite <- fold_left_app, take_drop. }
  pose proof (fetch_after_commits (drop n hist) st1 Hw1) as Hfetch. rewrite Hk1, <- Hout in Hfetch.
  rewrite Hfetch by (unfold head_of in *; rewrite length_drop; unfold n, position in *; lia).
  by destruct (_ <=? _).
Qed.

Lemma fetch_outbox_moves hist w k : tracked hist w -> base <= k <= head_of hist ->
  exists r hist' w', fetch_outbox q k w = (Ok r, w') /\ moved hist w hist' w' /\
    ((exists o, r = Ok o /\ outbox_results o = numbered k (drop (position k) hist')) \/ exists e, r = Err e).
Proof.
  intros Hw Hk. unfold fetch_outbox.
  match goal with |- context [when_running q ?f] => destruct (when_running_moves f hist w Hw) as (r & hist' & w' & Hr & Hm & Hcase) end.
  exists r, hist', w'. split; [exact Hr|]. split; [done|]. destruct Hcase as [(h & Hf & ->)|He]; [|by right].
  rewrite (fo_output _ _ Hf). pose proof (outbox_answer hist' k) as Ha.
  destruct Hm as ([more ->] & Htr & _). specialize (Ha (tracked_max _ _ Htr)). rewrite head_of_app in Ha.
  specialize (Ha ltac:(lia)). revert Ha.
  destruct (fetch_outbox_after k (output_of (hist ++ more))) as [rs|gap|]; intros Ha; [|right; by eexists|done].
  left. eexists. split; [reflexivity|exact Ha].
Qed.
(** *** The copy *)

(** The copy was loaded from a snapshot at [s] and has since been given the
    results after [c] up to [last]. *)
Definition mirrors hist (last : Z) (m : gmap Z Json) : Prop :=
  exists c s, base <= c <= s /\ s <= head_of hist /\ c <= last <= head_of hist /\
    m = apply_results (between (position c) (position last) hist) (rows_at hist s).

Lemma rows_at_app hist more k : base <= k <= head_of hist -> rows_at (hist ++ more) k = rows_at hist k.
Proof. intros Hk. unfold rows_at. rewrite between_app; [done|]. unfold position, head_of in *. lia. Qed.

Lemma mirrors_app hist more last m : mirrors hist last m -> mirrors (hist ++ more) last m.
Proof.
  intros (c & s & Hc & Hs & Hl & ->). exists c, s. rewrite head_of_app. split_and!; try lia.
  rewrite rows_at_app, between_app by (unfold position, head_of in *; lia). done.
Qed.

Lemma mirrors_snapshot hist c s : base <= c <= s -> s <= head_of hist -> mirrors hist c (rows_at hist s).
Proof.
  intros Hc Hs. exists c, s. split_and!; try lia. unfold between. by rewrite Nat.sub_diag.
Qed.

Lemma mirrors_bounds hist last m : mirrors hist last m -> base <= last <= head_of hist.
Proof. intros (c & s & Hc & Hs & Hl & _). lia. Qed.

Lemma mirrors_head hist m : mirrors hist (head_of hist) m -> m = rows_at hist (head_of hist).
Proof.
  intros (c & s & Hc & Hs & Hl & ->). unfold rows_at. apply replay_from_later_snapshot.
  unfold position. lia.
Qed.

Lemma between_snoc hist a b r : (a <= b)%nat -> hist !! b = Some r -> between a (S b) hist = between a b hist ++ [r].
Proof.
  intros Hab Hr. rewrite <- (between_split a b (S b)) by lia. f_equal.
  unfold between. replace (S b - b)%nat with 1%nat by lia. rewrite (drop_S _ _ _ Hr). by destruct hist.
Qed.

Lemma mirrors_next hist last m r :
  mirrors hist last m -> hist !! position last = Some r ->
  mirrors hist (last + 1) (fold_left apply_diff (qr_results r) m).
Proof.
  intros Hm Hr. pose proof (lookup_lt_Some _ _ _ Hr) as Hlt. destruct Hm as (c & s & Hc & Hs & Hl & ->).
  exists c, s. split_and!; try lia; [unfold position, head_of in *; lia|].
  replace (position (last + 1)) with (S (position last)) by (unfold position; lia).
  rewrite (between_snoc hist _ _ r), apply_results_app; [|unfold position; lia|done].
  unfold apply_results at 1. cbn. by rewrite app_nil_r.
Qed.

Lemma elem_of_numbered k r rs :
  r ∈ numbered k rs -> exists i r0, rs !! i = Some r0 /\ r = with_sequence (k + Z.of_nat i + 1) r0.
Proof.
  revert k. induction rs as [|r0 rs IH]; intros k; cbn [numbered]; [by intros ?%not_elem_of_nil|].
  intros [->|Hr]%elem_of_cons; [exists 0%nat, r0; split; [done|f_equal; lia]|].
  destruct (IH _ Hr) as (i & r1 & Hi & ->). exists (S i), r1. split; [done|f_equal; lia].
Qed.

Lemma emitted_position hist r : r ∈ numbered base hist ->
  base < qr_sequence r <= head_of hist /\
  exists r0, hist !! position (qr_sequence r - 1) = Some r0 /\ qr_results r = qr_results r0.
Proof.
  intros (i & r0 & Hi & ->)%elem_of_numbered. pose proof (lookup_lt_Some _ _ _ Hi) as Hlt. cbn.
  split; [unfold head_of; lia|]. exists r0. split; [|done]. rewrite <- Hi. f_equal. unfold position. lia.
Qed.

(** *** What the reaction does *)

Lemma tracked_same hist w w' : queries w' = queries w -> schedule w' = schedule w -> tracked hist w -> tracked hist w'.
Proof. intros Hq Hs [Hh Ho Hr]. split; [by rewrite Hq|by rewrite Hs|by rewrite Hs]. Qed.

(** The forwarder is at [last], and so is the copy. *)
Definition at_last (last : Z) w : Prop := exists hist, tracked hist w /\ mirrors hist last (mirror_rows (reaction w)).

Lemma enqueue_ok r w : exists w', enqueue r w = (Ok tt, w') /\
  queries w' = queries w /\ schedule w' = schedule w /\ state_store w' = state_store w /\
  shared_checkpoints w' = shared_checkpoints w /\
  mirror_rows (reaction w') = fold_left apply_diff (qr_results r) (mirror_rows (reaction w)).
Proof.
  unfold enqueue. destruct (enqueue_mirrors r (reaction w)) as (x' & -> & Hx). eexists. by split_and!.
Qed.

Lemma replay_outbox_ok rs last hist w :
  tracked hist w -> mirrors hist last (mirror_rows (reaction w)) -> drop (position last) hist = rs ->
  exists w', replay_outbox last (numbered last rs) w = (Ok (head_of hist), w') /\
    tracked hist w' /\ mirrors hist (head_of hist) (mirror_rows (reaction w')) /\
    state_store w' = state_store w /\ shared_checkpoints w' = shared_checkpoints w.
Proof.
  revert last w. induction rs as [|r rs IH]; intros last w Hw Hm Hd; cbn [numbered replay_outbox].
  - pose proof (mirrors_bounds _ _ _ Hm) as Hb. apply (f_equal length) in Hd. rewrite length_drop in Hd. cbn in Hd.
    assert (last = head_of hist) as -> by (unfold position, head_of in *; lia). by exists w.
  - assert (Hr : hist !! position last = Some r) by (rewrite <- (Nat.add_0_r (position last)), <- lookup_drop, Hd; done).
    pose proof (mirrors_bounds _ _ _ Hm) as Hb.
    unfold attempt at 1, mbind at 1, SM_bind at 1.
    destruct (enqueue_ok (with_sequence (last + 1) r) w) as (w1 & -> & Hq & Hs & Hst & Hsh & Hmi).
    destruct (IH (last + 1) w1) as (w' & Hrun & Hw' & Hm' & Hst' & Hsh').
    + by apply (tracked_same hist w).
    + rewrite Hmi. exact (mirrors_next hist last _ r Hm Hr).
    + replace (position (last + 1)) with (S (position last)) by (unfold position in *; lia).
      by rewrite <- Nat.add_1_r, <- drop_drop, Hd.
    + exists w'. split_and!; [exact Hrun|done|done|congruence|congruence].
Qed.
(** *** Recovering from a hole *)

(** A call that does not touch the queries or the copy *)
Definition aside w w' : Prop :=
  queries w' = queries w /\ schedule w' = schedule w /\ reaction w' = reaction w /\
  shared_checkpoints w' = shared_checkpoints w.

Lemma persist_aside cp w : exists r w', persist_checkpoint q cp w = (r, w') /\ r <> Panic /\ aside w w'.
Proof.
  unfold persist_checkpoint, on_store. destruct (state_store w) as [s|]; [|by eexists _, w].
  pose proof (write_checkpoint_ok s reaction_id q cp) as Hwr.
  destruct (write_checkpoint reaction_id q cp s) as [[u|e|] s']; [| |done]; by eexists _, _.
Qed.

Lemma epoch_moves hist w : tracked hist w ->
  exists e hist' w', query_epoch_hash q w = (Ok e, w') /\ moved hist w hist' w'.
Proof.
  intros Hw. unfold query_epoch_hash. destruct (await_moves _ _ Hw) as (hist1 & w1 & Ha & Hm).
  rewrite (sm_bind_ok _ _ _ _ _ Ha). destruct (get_instance_ok hist1 w1) as (h & Hg & _); [apply Hm|].
  rewrite (sm_bind_ok _ _ _ _ _ Hg). by eexists _, hist1, w1.
Qed.

(** The snapshot a recovery starts from, and the later one the hook loads *)
Lemma expect_snapshot_moves hist w : tracked hist w ->
  exists r hist' w', expect_fetch (fetch_snapshot q) w = (r, w') /\ moved hist w hist' w' /\ r <> Panic /\
    forall s, r = Ok s -> snapshot_rows s = rows_at hist' (head_of hist') /\ snapshot_sequence s = head_of hist'.
Proof.
  intros Hw. unfold expect_fetch. destruct (fetch_snapshot_moves _ _ Hw) as (r & hist' & w' & Hr & Hm & Hcase).
  rewrite (sm_bind_ok _ _ _ _ _ Hr). destruct Hcase as [(s & -> & Hrows & Hseq)|[e ->]].
  - exists (Ok s), hist', w'. split_and!; [done|done|done|]. by intros s' [= <-].
  - eexists (Err _), hist', w'. by split_and!.
Qed.

Lemma hook_moves hist w ctx : bc_query_id ctx = q -> tracked hist w ->
  exists r hist' w', bootstrap ctx w = (r, w') /\ r <> Panic /\ (exists more, hist' = hist ++ more) /\ tracked hist' w' /\
    state_store w' = state_store w /\ shared_checkpoints w' = shared_checkpoints w /\
    (r = Ok tt -> mirror_rows (reaction w') = rows_at hist' (head_of hist')).
Proof.
  intros Hctx Hw. rewrite bootstrap_loads. unfold ctx_fetch_snapshot. rewrite Hctx.
  destruct (expect_snapshot_moves _ _ Hw) as (r & hist' & w' & Hr & Hm & Hnp & Hok).
  destruct Hm as (Hmore & Htr & Hre & Hst & Hsh).
  destruct r as [s|e|]; [| |done].
  - rewrite (sm_bind_ok _ _ _ _ _ Hr). eexists _, hist', _. split; [reflexivity|]. split_and!; [done|done| |done|done|].
    + by apply (tracked_same hist' w').
    + intros _. cbn. rewrite load_mirrors. by apply Hok.
  - unfold mbind, SM_bind. rewrite Hr. by exists (Err e), hist', w'.
Qed.

Context (Hpolicy : default_recovery_policy <> AutoSkipGap).

(** After a hole the forwarder gives up, or the copy is the one of a fresh
    snapshot and the checkpoint its sequence. *)
Lemma gap_recovers hist w : tracked hist w ->
  exists r w', attempt (F:=ReactionError) (handle_broadcast_gap q) w = (Ok r, w') /\
    (r = Ok tt -> exists cp, shared_checkpoints w' !! q = Some cp /\ head_of hist <= cp_sequence cp /\
       at_last (cp_sequence cp) w').
Proof.
  intros Hw. unfold attempt, handle_broadcast_gap.
  destruct (epoch_moves _ _ Hw) as (e & hist1 & w1 & Hep & Hm1). rewrite (sm_bind_ok _ _ _ _ _ Hep).
  destruct default_recovery_policy eqn:Hpol; [by eexists _, w1| |done].
  destruct (expect_snapshot_moves hist1 w1) as (rs & hist2 & w2 & Hs & Hm2 & Hnp & Hok); [apply Hm1|].
  destruct rs as [s|x|]; [| |done].
  2: { unfold mbind, SM_bind. rewrite Hs. by eexists _, w2. }
  rewrite (sm_bind_ok _ _ _ _ _ Hs). destruct (Hok s eq_refl) as [_ Hseq].
  destruct (hook_moves hist2 w2 {| bc_query_id := q; bc_is_reset := true |}) as (rb & hist3 & w3 & Hb & Hnpb & [more ->] & Htr & _ & _ & Hmir);
    [done|apply Hm2|].
  destruct rb as [[]|x|]; [| |done].
  2: { unfold mbind, SM_bind. rewrite Hb. by eexists _, w3. }
  rewrite (sm_bind_ok _ _ _ _ _ Hb).
  destruct (persist_aside (checkpoint_at (snapshot_sequence s) e) w3) as (rp & w4 & Hp & Hnpp & Hq4 & Hs4 & Hr4 & Hsh4).
  destruct rp as [[]|x|]; [| |done].
  2: { unfold mbind, SM_bind. rewrite Hp. by eexists _, w4. }
  rewrite (sm_bind_ok _ _ _ _ _ Hp). eexists _, _. split; [reflexivity|]. intros _.
  exists (checkpoint_at (snapshot_sequence s) e). cbn [shared_checkpoints with_checkpoints set_checkpoint].
  split; [apply lookup_insert_eq|]. cbn. rewrite Hseq.
  destruct (moved_trans _ _ _ _ _ _ Hm1 Hm2) as ([more' Hh2] & _).
  split; [rewrite Hh2, head_of_app; lia|]. exists (hist2 ++ more). split.
  - by apply (tracked_same _ w3).
  - cbn. rewrite Hr4, Hmir by done. rewrite head_of_app.
    apply mirrors_snapshot; rewrite ?head_of_app; unfold head_of; lia.
Qed.

(** *** A turn of the forwarder *)

Lemma receive_ok hist w : tracked hist w ->
  exists x hist' w', receive q w = (Ok x, w') /\ moved hist w hist' w' /\
    match x with Some y => exists r, y = Ok r /\ r ∈ numbered base hist' | None => True end.
Proof.
  intros Hw. unfold receive. destruct (await_moves _ _ Hw) as (hist1 & w1 & Ha & Hm). rewrite (sm_bind_ok _ _ _ _ _ Ha).
  destruct (get_instance_ok hist1 w1) as (h & Hg & Hf); [apply Hm|]. rewrite (sm_bind_ok _ _ _ _ _ Hg).
  destruct (qh_receiver h) as [[|x rest]|] eqn:Hrec; try by exists None, hist1, w1.
  eexists (Some x), hist1, _. split; [reflexivity|]. destruct Hf as [Ho Hd Hr]. split.
  - destruct Hm as (Hmore & [_ Hor Hro] & Hrest). split; [done|]. split; [|done].
    split; cbn; [|done|done]. eexists. rewrite lookup_insert_eq. split; [done|]. split; cbn; [done|done|].
    intros l y [= <-] Hy. apply (Hr (x :: rest) y Hrec). set_solver.
  - apply (Hr (x :: rest) x Hrec). set_solver.
Qed.

Lemma deliver_ok hist w last r :
  tracked hist w -> mirrors hist last (mirror_rows (reaction w)) -> r ∈ numbered base hist -> qr_sequence r = last + 1 ->
  exists w', forward_result q r w = (Ok (Forwarding (last + 1)), w') /\ at_last (last + 1) w'.
Proof.
  intros Hw Hm Hr Hseq. unfold forward_result, attempt. unfold mbind at 1, SM_bind at 1.
  destruct (enqueue_ok r w) as (w1 & -> & Hq & Hs & _ & _ & Hmi). cbn. rewrite Hseq.
  eexists. split; [reflexivity|]. exists hist. split; [by apply (tracked_same hist w)|]. cbn. rewrite Hmi.
  destruct (emitted_position _ _ Hr) as (_ & r0 & Hr0 & ->). apply mirrors_next; [done|].
  rewrite <- Hr0. f_equal. f_equal. lia.
Qed.

Lemma forward_turn_ok last w :
  at_last last w -> 0 < last ->
  exists t w', forward_turn q last w = (Ok t, w') /\
    match t with Waiting l | Forwarding l => last <= l /\ at_last l w' | Exited => True end.
Proof.
  intros (hist & Hw & Hm) Hpos. unfold forward_turn.
  destruct (receive_ok _ _ Hw) as (x & hist1 & w1 & Hrc & ([more1 ->] & Hw1 & Hre1 & _ & _) & Hx).
  rewrite (sm_bind_ok _ _ _ _ _ Hrc). rewrite <- Hre1 in Hm. apply (mirrors_app _ more1) in Hm.
  destruct x as [y|]; [|by eexists _, w1; split; [reflexivity|split; [done|by exists (hist ++ more1)]]].
  destruct Hx as (r & -> & Hr). destruct (emitted_position _ _ Hr) as [Hrange _].
  destruct (Z.leb_spec (qr_sequence r) last).
  { eexists _, w1. split; [reflexivity|]. split; [done|by exists (hist ++ more1)]. }
  pose proof (tracked_max _ _ Hw1) as Hmax. pose proof (mirrors_bounds _ _ _ Hm) as Hlast.
  assert (Hsat : saturating_add last 1 = last + 1) by (unfold saturating_add; lia). rewrite Hsat.
  rewrite (proj2 (Z.ltb_lt 0 last)) by done. cbn [andb].
  destruct (Z.ltb_spec (last + 1) (qr_sequence r)).
  2: { destruct (deliver_ok _ _ last r Hw1 Hm Hr) as (w2 & Hd & Hal); [lia|].
       exists (Forwarding (last + 1)), w2. split; [exact Hd|]. split; [lia|done]. }
  unfold catch_up. destruct (fetch_outbox_moves _ _ last Hw1 Hlast) as (f & hist2 & w2 & Hfe & ([more2 ->] & Hw2 & Hre2 & Hst2 & Hsh2) & Hcase).
  rewrite <- Hre2 in Hm. apply (mirrors_app _ more2) in Hm.
  assert (Hcatch : exists l w3, (match f with
      | Ok outbox => replay_outbox last (outbox_results outbox)
      | Err _ => mret last
      | Panic => fun w => (Panic, w)
      end : M Z) w2 = (Ok l, w3) /\ tracked ((hist ++ more1) ++ more2) w3 /\
      mirrors ((hist ++ more1) ++ more2) l (mirror_rows (reaction w3)) /\ last <= l).
  { destruct Hcase as [(o & -> & Hres)|[e ->]]; [|by exists last, w2].
    rewrite Hres. destruct (replay_outbox_ok _ last _ w2 Hw2 Hm eq_refl) as (w3 & Hrun & Hw3 & Hm3 & _).
    pose proof (mirrors_bounds _ _ _ Hm). exists (head_of ((hist ++ more1) ++ more2)), w3. split_and!; [exact Hrun|done|done|lia]. }
  destruct Hcatch as (l & w3 & Hrun & Hw3 & Hm3 & Hle).
  assert (Hcu : (fetched ← fetch_outbox q last; match (fetched : outcome FetchError OutboxResponse) with
      | Ok outbox => replay_outbox last (outbox_results outbox)
      | Err _ => mret last | Panic => fun w => (Panic, w) end : M Z) w1 = (Ok l, w3)).
  { rewrite (sm_bind_ok _ _ _ _ _ Hfe). exact Hrun. }
  rewrite (sm_bind_ok _ _ _ _ _ Hcu). destruct (Z.leb_spec (qr_sequence r) l).
  { exists (Forwarding l), w3. split; [reflexivity|]. split; [done|by eexists]. }
  unfold recover_gap. destruct (gap_recovers _ _ Hw3) as (rg & w4 & Hg & Hok). rewrite (sm_bind_ok _ _ _ _ _ Hg).
  destruct rg as [[]|x|]; [|by exists Exited, w4..]. destruct (Hok eq_refl) as (cp & Hcp & Hhead & Hal).
  unfold checkpoint_sequence. unfold mbind, SM_bind. rewrite Hcp. rewrite head_of_app in Hhead.
  destruct (Z.leb_spec (qr_sequence r) (cp_sequence cp)); [|lia].
  exists (Forwarding (cp_sequence cp)), w4. split; [reflexivity|]. split; [lia|done].
Qed.

Lemma forward_ok n last w :
  at_last last w -> 0 < last ->
  exists t w', forward n q last w = (Ok t, w') /\
    match t with Waiting l | Forwarding l => at_last l w' | Exited => True end.
Proof.
  revert last w. induction n as [|n IH]; intros last w Hw Hpos; cbn [forward].
  { by exists (Forwarding last), w. }
  destruct (forward_turn_ok last w Hw Hpos) as (t & w1 & Ht & Hcase). rewrite (sm_bind_ok _ _ _ _ _ Ht).
  destruct t as [l|l|]; [| |by exists Exited, w1]; destruct Hcase as [Hle Hal]; apply IH; [done|lia|done|lia].
Qed.
(** *** The start *)

Lemma validate_pure w : exists r, validate_startup_config w = (r, w) /\ r <> Panic.
Proof.
  unfold validate_startup_config.
  assert (Hq : forall l, exists r, sm_foldl (fun _ query_id => validate_query query_id) tt l w = (r, w) /\ r <> Panic).
  { induction l as [|i l (r & Hl & Hnp)]; [by exists (Ok tt)|]. cbn [sm_foldl]. unfold mbind, SM_bind at 1.
    unfold validate_query, get_query_instance, mbind, SM_bind.
    destruct (queries w !! i) as [h|]; [|by eexists]. destruct (qh_volatile h); [by eexists|]. cbn. by exists r. }
  assert (Hfirst : exists r, (if is_durable then
      store ← (fun w => (Ok (state_store w), w));
      match store with
      | None => sm_err (Rejected DurableNoStore)
      | Some s => if negb (store_is_durable s) then sm_err (Rejected DurableOnVolatile)
                  else sm_foldl (fun _ query_id => validate_query query_id) tt query_ids
      end else mret tt : M unit) w = (r, w) /\ r <> Panic).
  { destruct is_durable; [|by eexists]. unfold mbind, SM_bind. destruct (state_store w) as [s|]; [|by eexists].
    destruct (negb (store_is_durable s)); [by eexists|]. apply Hq. }
  destruct Hfirst as (r & Hr & Hnp). unfold mbind at 1, SM_bind at 1. rewrite Hr.
  destruct r as [u|e|]; [|by eexists|done].
  destruct (needs_snapshot_on_fresh_start && _); [by eexists|]. destruct (negb needs_snapshot_on_fresh_start && _); by eexists.
Qed.

Lemma subscribe_moves hist w : tracked hist w ->
  exists r hist' w', subscribe q w = (r, w') /\ r <> Panic /\ moved hist w hist' w'.
Proof.
  intros Hw. unfold subscribe. destruct (await_moves _ _ Hw) as (hist1 & w1 & Ha & Hm1). rewrite (sm_bind_ok _ _ _ _ _ Ha).
  destruct (wait_moves hist1 w1) as (r & hist2 & w2 & Hr & Hnp & Hm2); [apply Hm1|]. rewrite (sm_bind_ok _ _ _ _ _ Hr).
  pose proof (moved_trans _ _ _ _ _ _ Hm1 Hm2) as Hm. destruct r as [u|e|]; [| |done].
  2: { eexists _, hist2, w2. by split_and!. }
  destruct (get_instance_ok hist2 w2) as (h & Hg & Hf); [apply Hm|]. rewrite (sm_bind_ok _ _ _ _ _ Hg).
  eexists _, hist2, _. split; [reflexivity|]. split; [done|].
  destruct Hm as (Hmore & [_ Hor Hro] & Hrest). split; [done|]. split; [|done]. split; cbn; [|done|done].
  eexists. rewrite lookup_insert_eq. split; [done|]. destruct Hf as [Ho Hd Hr']. split; cbn; [done|done|].
  intros l x [= <-] Hx. by apply not_elem_of_nil in Hx.
Qed.

Context (Hids : query_ids = [q]) (Hneeds : needs_snapshot_on_fresh_start = true).

Lemma wire_moves hist w : tracked hist w ->
  exists r hist' w', wire_subscriptions w = (r, w') /\ r <> Panic /\ moved hist w hist' w'.
Proof.
  intros Hw. unfold wire_subscriptions. rewrite Hids. cbn [sm_foldl].
  destruct (get_instance_ok _ _ Hw) as (h & Hg & _). destruct (subscribe_moves _ _ Hw) as (r & hist' & w' & Hs & Hnp & Hm).
  unfold mbind, SM_bind. rewrite Hg, Hs. destruct r as [head|e|]; [| |done]; by eexists _, hist', w'.
Qed.

(** The checkpoint the store holds, and the copy that goes with it *)
Definition kept_checkpoint w : option ReactionCheckpoint := s ← state_store w; checkpoint_of s reaction_id q.
Definition store_readable w : Prop := match state_store w with Some s => readable s reaction_id q | None => True end.

Lemma read_existing_ok w : store_readable w ->
  exists m w', read_existing w = (Ok m, w') /\ m !! q = kept_checkpoint w /\ aside w w' /\ state_store w' = state_store w.
Proof.
  unfold store_readable, kept_checkpoint, read_existing, on_store. rewrite Hids.
  destruct (state_store w) as [s|] eqn:Hs; intros Hr; [|by exists ∅, w].
  destruct (batch_reads_each s reaction_id [q]) as (m & -> & Hm); [by intros i ->%list_elem_of_singleton|].
  exists m. eexists. split; [reflexivity|]. split; [|by rewrite <- Hs]. rewrite Hm, decide_True by set_solver.
  by rewrite read_checkpoint_ok.
Qed.

(** A plan: the copy is at the checkpoint, or the hook is going to load it. *)
Definition plan_ready (plan : ReactionCheckpoint * bool) w : Prop :=
  exists hist, tracked hist w /\
    if plan.2 then base <= cp_sequence plan.1 <= head_of hist
    else mirrors hist (cp_sequence plan.1) (mirror_rows (reaction w)).

Lemma snapshot_plan_ok hist e w : tracked hist w ->
  exists r w', (snapshot ← expect_fetch (fetch_snapshot q); mret (checkpoint_at (snapshot_sequence snapshot) e, true) : M _) w = (r, w') /\
    r <> Panic /\ forall p, r = Ok p -> plan_ready p w'.
Proof.
  intros Hw. destruct (expect_snapshot_moves _ _ Hw) as (rs & hist2 & w2 & Hs & Hm2 & Hnp & Hok).
  unfold mbind, SM_bind. rewrite Hs. destruct rs as [s|x|]; [| |done]; [|by eexists _, w2].
  eexists _, w2. split; [reflexivity|]. split; [done|]. intros p [= <-]. exists hist2. split; [apply Hm2|]. cbn.
  rewrite (proj2 (Hok s eq_refl)). unfold head_of. lia.
Qed.

Lemma policy_plan_ok hist w : tracked hist w ->
  exists r w', apply_recovery_policy q default_recovery_policy w = (r, w') /\ r <> Panic /\ forall p, r = Ok p -> plan_ready p w'.
Proof.
  intros Hw. unfold apply_recovery_policy. destruct (epoch_moves _ _ Hw) as (e & hist1 & w1 & He & Hm1).
  rewrite (sm_bind_ok _ _ _ _ _ He). destruct default_recovery_policy; [by eexists _, w1| |done].
  apply (snapshot_plan_ok hist1). apply Hm1.
Qed.

Lemma plan_query_ok hist existing heads w :
  tracked hist w ->
  (forall cp, existing !! q = Some cp -> mirrors hist (cp_sequence cp) (mirror_rows (reaction w))) ->
  exists r w', plan_query existing heads q w = (r, w') /\ r <> Panic /\ forall p, r = Ok p -> plan_ready p w'.
Proof.
  intros Hw Hcp. unfold plan_query. destruct (get_instance_ok _ _ Hw) as (h & Hg & _). rewrite (sm_bind_ok _ _ _ _ _ Hg).
  destruct (existing !! q) as [cp|].
  - destruct (epoch_moves _ _ Hw) as (e & hist1 & w1 & He & [more1 ->] & Hw1 & Hre1 & _). rewrite (sm_bind_ok _ _ _ _ _ He).
    destruct (negb _); [by apply (policy_plan_ok (hist ++ more1))|].
    specialize (Hcp cp eq_refl). rewrite <- Hre1 in Hcp. apply (mirrors_app _ more1) in Hcp.
    unfold handle_outbox_catchup.
    destruct (fetch_outbox_moves _ _ (cp_sequence cp) Hw1) as (f & hist2 & w2 & Hf & ([more2 ->] & Hw2 & Hre2 & _) & Hcase);
      [by apply mirrors_bounds in Hcp|].
    rewrite <- Hre2 in Hcp. apply (mirrors_app _ more2) in Hcp. rewrite (sm_bind_ok _ _ _ _ _ Hf).
    destruct Hcase as [(o & -> & Hres)|[x ->]].
    + rewrite Hres. destruct (replay_outbox_ok _ _ _ w2 Hw2 Hcp eq_refl) as (w3 & Hrun & Hw3 & Hm3 & _).
      rewrite (sm_bind_ok _ _ _ _ _ Hrun). eexists _, w3. split; [reflexivity|]. split; [done|].
      intros p [= <-]. by eexists.
    + destruct x as [s| |gap]; [| |by eapply policy_plan_ok];
        (eexists _, w2; split; [reflexivity|]; split; [done|]; intros p [= <-]; by eexists).
  - unfold handle_fresh_start. rewrite Hneeds. destruct (epoch_moves _ _ Hw) as (e & hist1 & w1 & He & Hm1).
    rewrite (sm_bind_ok _ _ _ _ _ He). apply (snapshot_plan_ok hist1). apply Hm1.
Qed.

Lemma hooks_ok existing (plan : ReactionCheckpoint * bool) w : plan_ready plan w ->
  exists r w', run_hooks existing (if plan.2 then [q] else []) w = (r, w') /\ r <> Panic /\
    (r = Ok tt -> at_last (cp_sequence plan.1) w').
Proof.
  destruct plan as [cp hook]. intros (hist & Hw & Hp). cbn in *. destruct hook; cbn [run_hooks sm_foldl].
  2: { exists (Ok tt), w. split_and!; [done|done|]. intros _. by exists hist. }
  unfold run_hooks. cbn [sm_foldl].
  destruct (hook_moves hist w {| bc_query_id := q; bc_is_reset := bool_decide (is_Some (existing !! q)) |})
    as (r & hist' & w' & Hr & Hnp & [more ->] & Hw' & _ & _ & Hrows); [done|done|].
  unfold mbind, SM_bind. rewrite Hr. destruct r as [[]|e|]; [|by eexists _, w'|done].
  eexists _, w'. split; [reflexivity|]. split; [done|]. intros _. eexists. split; [done|]. rewrite Hrows by done.
  rewrite head_of_app in *. apply mirrors_snapshot; rewrite ?head_of_app; lia.
Qed.

Lemma persist_bootstrapped_aside cp hooks w :
  exists w', persist_bootstrapped (<[q := cp]> ∅) hooks w = (Ok tt, w') /\ aside w w'.
Proof.
  unfold persist_bootstrapped. rewrite insert_empty, map_to_list_singleton. cbn [sm_foldl].
  destruct (bool_decide _); [|by exists w]. cbn [fst snd].
  destruct (persist_aside cp w) as (r & w' & Hp & Hnp & Ha). exists w'. split; [|done].
  unfold attempt, mbind, SM_bind. rewrite Hp. by destruct r.
Qed.

Lemma plan_queries_one existing heads w :
  plan_queries existing heads w =
  match plan_query existing heads q w with
  | (Ok plan, w') => (Ok (<[q := plan.1]> ∅, if plan.2 then [q] else []), w')
  | (Err e, w') => (Err e, w')
  | (Panic, w') => (Panic, w')
  end.
Proof.
  unfold plan_queries. rewrite Hids. cbn [sm_foldl]. unfold mbind, SM_bind.
  by destruct (plan_query existing heads q w) as [[[cp hook]|e|] w'].
Qed.

(** After a start the copy is at the checkpoint the forwarder starts from. *)
Lemma subscribe_and_bootstrap_ok hist w :
  tracked hist w -> store_readable w ->
  (forall cp, kept_checkpoint w = Some cp -> mirrors hist (cp_sequence cp) (mirror_rows (reaction w))) ->
  exists r w', subscribe_and_bootstrap w = (r, w') /\ r <> Panic /\
    (r = Ok tt -> exists cp, shared_checkpoints w' !! q = Some cp /\ at_last (cp_sequence cp) w').
Proof.
  intros Hw Hrd Hcp. unfold subscribe_and_bootstrap.
  rewrite bool_decide_false by (rewrite Hids; done).
  destruct (wire_moves _ _ Hw) as (rh & hist1 & w1 & Hwire & Hnp1 & [more1 ->] & Hw1 & Hre1 & Hst1 & Hsh1).
  destruct rh as [heads|e|]; [| |done]. 2: { unfold mbind, SM_bind. rewrite Hwire. by eexists _, w1. }
  rewrite (sm_bind_ok _ _ _ _ _ Hwire).
  assert (Hrd1 : store_readable w1) by (unfold store_readable; by rewrite Hst1).
  destruct (read_existing_ok w1 Hrd1) as (existing & w2 & Hread & Hex & (Hq2 & Hs2 & Hr2 & Hsh2) & Hst2).
  rewrite (sm_bind_ok _ _ _ _ _ Hread).
  destruct (plan_query_ok (hist ++ more1) existing heads w2) as (rp & w3 & Hplan & Hnp3 & Hready).
  { by apply (tracked_same _ w1). }
  { intros cp. rewrite Hex. unfold kept_checkpoint. rewrite Hst1, Hr2, Hre1. intros Hk. by apply mirrors_app, Hcp. }
  pose proof (plan_queries_one existing heads w2) as Hqs. rewrite Hplan in Hqs. destruct rp as [plan|e|]; [| |done].
  2: { unfold mbind, SM_bind. rewrite Hqs. by eexists _, w3. }
  rewrite (sm_bind_ok _ _ _ _ _ Hqs). cbn [fst snd]. specialize (Hready plan eq_refl).
  destruct (hooks_ok existing plan w3 Hready) as (rk & w4 & Hhook & Hnp4 & Hat).
  destruct rk as [[]|e|]; [| |done]. 2: { unfold mbind, SM_bind. rewrite Hhook. by eexists _, w4. }
  rewrite (sm_bind_ok _ _ _ _ _ Hhook).
  destruct (persist_bootstrapped_aside plan.1 (if plan.2 then [q] else []) w4) as (w5 & Hper & Hq5 & Hs5 & Hr5 & Hsh5).
  rewrite (sm_bind_ok _ _ _ _ _ Hper). eexists _, _. split; [reflexivity|]. split; [done|]. intros _.
  exists plan.1. cbn. split; [apply lookup_insert_eq|]. destruct (Hat eq_refl) as (hist' & Hw4 & Hm4).
  exists hist'. split; [by apply (tracked_same _ w4)|]. cbn. by rewrite Hr5.
Qed.
End mirror.

Section caught_up.
Context {P : Payload} {R St : Type} {Codec : CheckpointCodec} {CL : CheckpointCodecLaws}.
Context {SP : StateStoreProvider St} {SL : StateStoreLaws St} {Re : Reaction (R:=R) (St:=St)} {Mi : Mirror Re}.

Lemma validated_policy (w w' : World R St) :
  needs_snapshot_on_fresh_start = true -> validate_startup_config w = (Ok tt, w') -> default_recovery_policy <> AutoSkipGap.
Proof.
  intros Hn Hv Hp. unfold validate_startup_config in Hv. rewrite Hn, Hp in Hv. cbn [andb] in Hv.
  rewrite bool_decide_true in Hv by done. unfold mbind, SM_bind in Hv.
  match type of Hv with context [match ?m with _ => _ end] => destruct m as [[u|e|] w1] end; done.
Qed.

End caught_up.
