(* ===== verification/PriorityQueue.v ===== *)
(** * The event queue (lib/src/channels/priority_queue.rs,
      lib/src/queries/priority_queue.rs)

    A bounded queue of events, the one with the smallest key first. A full
    queue refuses an event ([enqueue]) or makes its producer wait
    ([enqueue_wait]). Which of several smallest events the binary heap of the
    standard library gives first is not specified: it is a parameter. *)

From Stdlib Require Import Sorted.
From S2P Require Import Prelude BTree.

#[export] Hint Mode Ord ! : typeclass_instances.

Class QueueOrder (T K : Type) `{Ord K} := { order_key : T -> K }.

(** [a] is not after [b] *)
Definition key_le `{Ord K} (a b : K) : Prop := cmp a b <> Gt.

(** Source events in the queue of a query, ranked by the place of their source
    in the query's list *)
Record RankedSourceEvent (W : Type) := { inner : W; source_rank : Z }.
Arguments inner {W}.
Arguments source_rank {W}.

(** The timestamp and the sequence of a source event *)
Class SourceEventKey (W : Type) := { event_timestamp : W -> Z; event_sequence : W -> Z }.

#[global] Instance ranked_order `{SourceEventKey W} : QueueOrder (RankedSourceEvent W) (Z * (Z * Z)) :=
  {| order_key e := (event_timestamp (inner e), (source_rank e, event_sequence (inner e))) |}.

(** [BinaryHeap::pop] on the reversed order *)
Class BinaryHeap (T K : Type) `{QueueOrder T K} := {
  heap_pop : list T -> option (T * list T);
  heap_pop_none : forall l, heap_pop l = None -> l = [];
  heap_pop_least : forall l x rest, heap_pop l = Some (x, rest) ->
    l ≡ₚ x :: rest /\ forall y, y ∈ rest -> key_le (order_key x) (order_key y);
}.

Record PriorityQueueMetrics := {
  total_enqueued : Z;
  total_dequeued : Z;
  current_depth : Z;
  max_depth_seen : Z;
  drops_due_to_capacity : Z;
  blocked_enqueue_count : Z;
}.

Definition zero_metrics : PriorityQueueMetrics :=
  {| total_enqueued := 0; total_dequeued := 0; current_depth := 0; max_depth_seen := 0;
     drops_due_to_capacity := 0; blocked_enqueue_count := 0 |}.

Section queue.
Context {T K : Type} `{BinaryHeap T K}.

Record PriorityQueue := { heap : list T; max_capacity : nat; metrics : PriorityQueueMetrics }.

Definition new_queue (max_capacity : nat) : PriorityQueue :=
  {| heap := []; max_capacity := max_capacity; metrics := zero_metrics |}.

Definition depth (q : PriorityQueue) : nat := length (heap q).
Definition queue_is_empty (q : PriorityQueue) : bool := match heap q with [] => true | _ => false end.

(** The counters are atomic 64-bit integers, which wrap. *)
Definition count_enqueued (depth : Z) (m : PriorityQueueMetrics) : PriorityQueueMetrics :=
  {| total_enqueued := as_u64 (total_enqueued m + 1); total_dequeued := total_dequeued m; current_depth := depth;
     max_depth_seen := Z.max (max_depth_seen m) depth; drops_due_to_capacity := drops_due_to_capacity m;
     blocked_enqueue_count := blocked_enqueue_count m |}.
Definition count_dropped (m : PriorityQueueMetrics) : PriorityQueueMetrics :=
  {| total_enqueued := total_enqueued m; total_dequeued := total_dequeued m; current_depth := current_depth m;
     max_depth_seen := max_depth_seen m; drops_due_to_capacity := as_u64 (drops_due_to_capacity m + 1);
     blocked_enqueue_count := blocked_enqueue_count m |}.
Definition count_blocked (m : PriorityQueueMetrics) : PriorityQueueMetrics :=
  {| total_enqueued := total_enqueued m; total_dequeued := total_dequeued m; current_depth := current_depth m;
     max_depth_seen := max_depth_seen m; drops_due_to_capacity := drops_due_to_capacity m;
     blocked_enqueue_count := as_u64 (blocked_enqueue_count m + 1) |}.
Definition count_dequeued (depth : Z) (m : PriorityQueueMetrics) : PriorityQueueMetrics :=
  {| total_enqueued := total_enqueued m; total_dequeued := as_u64 (total_dequeued m + 1); current_depth := depth;
     max_depth_seen := max_depth_seen m; drops_due_to_capacity := drops_due_to_capacity m;
     blocked_enqueue_count := blocked_enqueue_count m |}.

Definition with_heap (l : list T) (f : PriorityQueueMetrics -> PriorityQueueMetrics) (q : PriorityQueue) : PriorityQueue :=
  {| heap := l; max_capacity := max_capacity q; metrics := f (metrics q) |}.

Definition has_room (q : PriorityQueue) : bool := Nat.ltb (depth q) (max_capacity q).

Definition push (event : T) (q : PriorityQueue) : PriorityQueue :=
  with_heap (event :: heap q) (count_enqueued (Z.of_nat (S (depth q)))) q.

Definition queue_enqueue (event : T) (q : PriorityQueue) : bool * PriorityQueue :=
  if has_room q then (true, push event q) else (false, with_heap (heap q) count_dropped q).

(** One turn of the loop of [enqueue_wait]: [false] when the producer waits. *)
Definition enqueue_wait_turn (event : T) (q : PriorityQueue) : bool * PriorityQueue :=
  if has_room q then (true, push event q) else (false, with_heap (heap q) count_blocked q).

(** [try_dequeue], and a turn of the loop of [dequeue] *)
Definition try_dequeue (q : PriorityQueue) : option T * PriorityQueue :=
  match heap_pop (heap q) with
  | Some (event, rest) => (Some event, with_heap rest (count_dequeued (Z.of_nat (length rest))) q)
  | None => (None, q)
  end.

Definition reset_metrics (q : PriorityQueue) : PriorityQueue := with_heap (heap q) (fun _ => zero_metrics) q.

(** The events in the order of the heap, which is not that of their keys. *)
Definition drain (q : PriorityQueue) : list T * PriorityQueue :=
  (heap q, with_heap [] (fun m => {| total_enqueued := total_enqueued m; total_dequeued := total_dequeued m;
     current_depth := 0; max_depth_seen := max_depth_seen m; drops_due_to_capacity := drops_due_to_capacity m;
     blocked_enqueue_count := blocked_enqueue_count m |}) q).

(** Dequeue until the queue is empty. *)
Fixpoint dequeue_all (n : nat) (q : PriorityQueue) : list T * PriorityQueue :=
  match n with
  | O => ([], q)
  | S n =>
      match try_dequeue q with
      | (Some e, q) => let '(l, q) := dequeue_all n q in (e :: l, q)
      | (None, q) => ([], q)
      end
  end.
End queue.
Arguments PriorityQueue : clear implicits.

(** ** Facts *)

Section facts.
Context {T K : Type} `{BinaryHeap T K}.
Implicit Types q : PriorityQueue T.

Lemma key_le_cases (a b : K) : key_le a b -> cmp a b = Lt \/ cmp a b = Eq.
Proof. unfold key_le. destruct (cmp a b); [by right|by left|done]. Qed.

Lemma key_le_trans (a b c : K) : key_le a b -> key_le b c -> key_le a c.
Proof.
  intros [Hab|Hab]%key_le_cases [Hbc|Hbc]%key_le_cases; unfold key_le.
  - by rewrite (cmp_lt_trans _ _ _ Hab Hbc).
  - rewrite <- (cmp_eq_r b c a Hbc). by rewrite Hab.
  - rewrite (cmp_eq_l a b c Hab). by rewrite Hbc.
  - rewrite (cmp_eq_l a b c Hab). by rewrite Hbc.
Qed.

(** What the operations keep: the depth is within the capacity, the depth the
    metrics tell is that of the heap, and the peak is between the two. *)
Record queue_ok q : Prop := {
  q_bounded : (depth q <= max_capacity q)%nat;
  q_depth : current_depth (metrics q) = Z.of_nat (depth q);
  q_peak : current_depth (metrics q) <= max_depth_seen (metrics q) <= Z.of_nat (max_capacity q);
}.

Lemma push_queue_ok e q : has_room q = true -> queue_ok q -> queue_ok (push e q).
Proof. unfold has_room, depth. intros Hr%Nat.ltb_lt [Hb Hd Hp]. unfold depth in *. split; cbn -[Z.of_nat Z.max]; unfold depth; lia. Qed.

Lemma try_dequeue_spec q :
  match try_dequeue q with
  | (Some e, q') => heap q ≡ₚ e :: heap q' /\ (forall y, y ∈ heap q' -> key_le (order_key e) (order_key y)) /\
      max_capacity q' = max_capacity q
  | (None, q') => heap q = [] /\ q' = q
  end.
Proof.
  unfold try_dequeue. destruct (heap_pop (heap q)) as [[e rest]|] eqn:Hp.
  - by destruct (heap_pop_least _ _ _ Hp).
  - split; [by apply heap_pop_none|done].
Qed.

Lemma try_dequeue_queue_ok q : queue_ok q -> queue_ok (try_dequeue q).2.
Proof.
  intros Hq. pose proof (try_dequeue_spec q) as Hs. unfold try_dequeue in *.
  destruct (heap_pop (heap q)) as [[e rest]|]; [|done]. destruct Hs as (Hl%Permutation_length & _ & _).
  destruct Hq as [Hb Hd Hp]. unfold depth in *. cbn in Hl. split; unfold depth; cbn -[Z.of_nat]; lia.
Qed.

Inductive QueueOp := Enqueue (e : T) | EnqueueWaitTurn (e : T) | TryDequeue | Drain.

Definition queue_op (o : QueueOp) q : PriorityQueue T :=
  match o with
  | Enqueue e => (queue_enqueue e q).2
  | EnqueueWaitTurn e => (enqueue_wait_turn e q).2
  | TryDequeue => (try_dequeue q).2
  | Drain => (drain q).2
  end.

(** However producers and consumers take their turns, the queue never holds
    more events than its capacity, the depth its metrics report is the depth it
    has, and the peak they report is at least that depth and at most the
    capacity. *)
Theorem queue_stays_within_capacity n (ops : list QueueOp) :
  let q := fold_left (fun q o => queue_op o q) ops (new_queue n) in
  (depth q <= n)%nat /\ current_depth (metrics q) = Z.of_nat (depth q) /\
  current_depth (metrics q) <= max_depth_seen (metrics q) <= Z.of_nat n.
Proof.
  cbv zeta. assert (Hk : forall ops q, queue_ok q ->
    let q' := fold_left (fun q o => queue_op o q) ops q in queue_ok q' /\ max_capacity q' = max_capacity q).
  { clear. induction ops as [|o ops IH]; intros q Hq; cbn; [done|].
    assert (Ho : queue_ok (queue_op o q) /\ max_capacity (queue_op o q) = max_capacity q).
    { destruct o as [e|e| |]; cbn.
      - unfold queue_enqueue. destruct (has_room q) eqn:Hr; [by split; [apply push_queue_ok|]|].
        split; [by destruct Hq; split|done].
      - unfold enqueue_wait_turn. destruct (has_room q) eqn:Hr; [by split; [apply push_queue_ok|]|].
        split; [by destruct Hq; split|done].
      - split; [by apply try_dequeue_queue_ok|]. unfold try_dequeue. by destruct (heap_pop (heap q)) as [[]|].
      - split; [|done]. destruct Hq. split; cbn; lia. }
    destruct Ho as [Ho <-]. by apply IH. }
  destruct (Hk ops (new_queue n)) as [[Hb Hd Hp] Hc]; [by split; cbn; lia|].
  cbn in Hc. rewrite Hc in Hb, Hp. done.
Qed.

(** A queue that is emptied gives its events exactly once each, in the order of
    their keys, whichever of several least ones the heap picks. *)
Theorem drained_in_order q n :
  (depth q <= n)%nat ->
  let '(l, q') := dequeue_all n q in
  l ≡ₚ heap q /\ heap q' = [] /\ StronglySorted (fun a b => key_le (order_key a) (order_key b)) l.
Proof.
  revert q. induction n as [|n IH]; intros q Hn.
  { unfold depth in Hn. assert (He : heap q = []) by (destruct (heap q); [done|cbn in Hn; lia]).
    cbn. rewrite He. split; [done|]. split; [done|]. constructor. }
  cbn [dequeue_all]. pose proof (try_dequeue_spec q) as Hs. destruct (try_dequeue q) as [[e|] q1].
  - destruct Hs as (Hp & Hle & _). specialize (IH q1).
    destruct (dequeue_all n q1) as [l q2]. destruct IH as (Hl & He & Hsorted).
    { unfold depth in *. apply Permutation_length in Hp. cbn in Hp. lia. }
    split; [by rewrite Hl, Hp|]. split; [done|]. constructor; [done|].
    apply List.Forall_forall. intros y Hy. apply list_elem_of_In in Hy. apply Hle. by apply (elem_of_Permutation_proper y l (heap q1) Hl).
  - destruct Hs as [Hs ->]. rewrite Hs. split; [done|]. split; [done|]. constructor.
Qed.
End facts.

(** * Who wakes whom at a full queue (lib/src/channels/priority_queue.rs)

    The consumer of a queue and its producers wait on one and the same
    [Notify]: a producer that finds the queue full, the consumer when it is
    empty. Each that changes the queue notifies one waiter, whoever it is. The
    tasks run in any order, one step at a time; a step is a turn under the
    lock, or the notification after it. [tokio::sync::Notify] is a parameter
    with its documented behaviour: one stored permit, waiters in order. *)

(** Tasks are numbered: zero is the consumer. *)
Class Notify (N : Type) := {
  notify_new : N;
  notify_one : N -> option nat * N;
  enable : nat -> N -> bool * N;
}.

Class NotifyLaws (N : Type) `{!Notify N} := {
  waiting : N -> list nat;
  permit : N -> bool;
  new_waits : waiting notify_new = [] /\ permit notify_new = false;
  notify_one_waits : forall n, match waiting n with
    | [] => (notify_one n).1 = None /\ waiting (notify_one n).2 = [] /\ permit (notify_one n).2 = true
    | t :: ts => (notify_one n).1 = Some t /\ waiting (notify_one n).2 = ts /\ permit (notify_one n).2 = permit n
    end;
  enable_waits : forall t n,
    permit (enable t n).2 = false /\ (enable t n).1 = permit n /\
    waiting (enable t n).2 = if permit n then waiting n else waiting n ++ [t];
}.

(** Where a task is: about to take the lock, about to notify, or waiting *)
Inductive Pc := Ready | Notifying | Parked.

#[global] Instance Pc_eq_dec : EqDecision Pc.
Proof. solve_decision. Defined.

Section wakeups.
Context {N : Type} `{!Notify N}.

Record SharedQueue := { sq_depth : nat; sq_capacity : nat; sq_notify : N; sq_pcs : gmap nat Pc }.

Definition at_pc (t : nat) (pc : Pc) (q : SharedQueue) : SharedQueue :=
  {| sq_depth := sq_depth q; sq_capacity := sq_capacity q; sq_notify := sq_notify q; sq_pcs := <[t := pc]> (sq_pcs q) |}.
Definition with_depth (d : nat) (q : SharedQueue) : SharedQueue :=
  {| sq_depth := d; sq_capacity := sq_capacity q; sq_notify := sq_notify q; sq_pcs := sq_pcs q |}.
Definition with_notify (n : N) (q : SharedQueue) : SharedQueue :=
  {| sq_depth := sq_depth q; sq_capacity := sq_capacity q; sq_notify := n; sq_pcs := sq_pcs q |}.

(** [notified.enable()] under the lock, then [await]: over at once with a
    stored permit. *)
Definition wait_notified (t : nat) (q : SharedQueue) : SharedQueue :=
  let '(ready, n) := enable t (sq_notify q) in
  let q := with_notify n q in
  if ready then q else at_pc t Parked q.

(** A turn of the loop of [enqueue_wait] for a producer, and of [dequeue] for
    the consumer *)
Definition lock_turn (t : nat) (q : SharedQueue) : SharedQueue :=
  if decide (t = 0%nat) then
    match sq_depth q with
    | O => wait_notified t q
    | S d => at_pc t Notifying (with_depth d q)
    end
  else
    if decide (sq_depth q < sq_capacity q)%nat then at_pc t Notifying (with_depth (S (sq_depth q)) q)
    else wait_notified t q.

(** [notify_one] after the lock is released; then the next event *)
Definition notify_turn (t : nat) (q : SharedQueue) : SharedQueue :=
  let '(woken, n) := notify_one (sq_notify q) in
  let q := at_pc t Ready (with_notify n q) in
  match woken with Some w => at_pc w Ready q | None => q end.

(** A step of a task; a waiting one has none. *)
Definition task_step (t : nat) (q : SharedQueue) : SharedQueue :=
  match sq_pcs q !! t with
  | Some Ready => lock_turn t q
  | Some Notifying => notify_turn t q
  | _ => q
  end.

Definition run_tasks (schedule : list nat) (q : SharedQueue) : SharedQueue := fold_left (fun q t => task_step t q) schedule q.

(** The consumer and [producers] producers on an empty queue *)
Definition shared_queue (capacity producers : nat) : SharedQueue :=
  {| sq_depth := 0; sq_capacity := capacity; sq_notify := notify_new;
     sq_pcs := list_to_map ((fun t => (t, Ready)) <$> seq 0 (S producers)) |}.

Definition all_parked (q : SharedQueue) : Prop := map_Forall (fun _ pc => pc = Parked) (sq_pcs q).
End wakeups.

(** ** One producer *)

Section one_producer.
Context {N : Type} `{!Notify N} {NL : NotifyLaws N}.

(** A waiting task waits for what it needs, or is about to be woken. *)
Record lively (q : SharedQueue (N:=N)) (c p : Pc) : Prop := {
  l_pcs : sq_pcs q = <[0%nat := c]> {[ 1%nat := p ]};
  l_depth : (sq_depth q <= sq_capacity q)%nat;
  l_waiting : forall t, t ∈ waiting (sq_notify q) <-> (t = 0%nat /\ c = Parked) \/ (t = 1%nat /\ p = Parked);
  l_nodup : NoDup (waiting (sq_notify q));
  l_consumer : c = Parked -> sq_depth q = 0%nat \/ p = Notifying;
  l_producer : p = Parked -> sq_depth q = sq_capacity q \/ c = Notifying;
}.

Notation pcs c p := (<[0%nat := c]> {[ 1%nat := p ]} : gmap nat Pc).

Lemma pcs_lookup c p t :
  pcs c p !! t = if decide (t = 0%nat) then Some c else if decide (t = 1%nat) then Some p else None.
Proof.
  destruct (decide (t = 0%nat)) as [->|H0]; [by rewrite lookup_insert_eq|]. rewrite lookup_insert_ne by done.
  destruct (decide (t = 1%nat)) as [->|H1]; [by rewrite lookup_singleton_eq|by rewrite lookup_singleton_ne].
Qed.

Lemma pcs_insert_0 c c' p : <[0%nat := c']> (pcs c p) = pcs c' p.
Proof. by rewrite insert_insert_eq. Qed.
Lemma pcs_insert_1 c p p' : <[1%nat := p']> (pcs c p) = pcs c p'.
Proof. rewrite insert_insert_ne by done. by rewrite insert_singleton_eq. Qed.

(** The one that may be waiting while [t] runs *)
Lemma waiting_one (l : list nat) (P : Prop) t : NoDup l -> (forall x, x ∈ l <-> x = t /\ P) -> l = [] \/ (l = [t] /\ P).
Proof.
  intros Hn Hl. destruct l as [|x [|y l]]; [by left| |].
  - right. destruct (proj1 (Hl x)) as [-> HP]; [set_solver|done].
  - exfalso. destruct (proj1 (Hl x)) as [Hx _]; [set_solver|]. destruct (proj1 (Hl y)) as [Hy _]; [set_solver|].
    subst. apply NoDup_cons in Hn as [Hn _]. set_solver.
Qed.

Lemma wait_notified_spec t (q : SharedQueue) :
  let q' := wait_notified t q in
  sq_capacity q' = sq_capacity q /\ sq_depth q' = sq_depth q /\
  ((sq_pcs q' = sq_pcs q /\ waiting (sq_notify q') = waiting (sq_notify q)) \/
   (sq_pcs q' = <[t := Parked]> (sq_pcs q) /\ waiting (sq_notify q') = waiting (sq_notify q) ++ [t])).
Proof.
  unfold wait_notified. pose proof (enable_waits t (sq_notify q)) as (_ & He2 & He3).
  destruct (enable t (sq_notify q)) as [ready n]. cbn in *. rewrite <- He2 in He3. destruct ready; cbn; auto.
Qed.

Lemma notify_turn_spec t (q : SharedQueue) :
  let q' := notify_turn t q in
  sq_capacity q' = sq_capacity q /\ sq_depth q' = sq_depth q /\
  match waiting (sq_notify q) with
  | [] => sq_pcs q' = <[t := Ready]> (sq_pcs q) /\ waiting (sq_notify q') = []
  | w :: ws => sq_pcs q' = <[w := Ready]> (<[t := Ready]> (sq_pcs q)) /\ waiting (sq_notify q') = ws
  end.
Proof.
  unfold notify_turn. pose proof (notify_one_waits (sq_notify q)) as Hn.
  destruct (notify_one (sq_notify q)) as [woken n]. cbn in *.
  destruct (waiting (sq_notify q)) as [|w ws]; destruct Hn as (-> & Hw & _); auto.
Qed.

Lemma consumer_turn q p : (0 < sq_capacity q)%nat -> lively q Ready p -> exists c', lively (lock_turn 0 q) c' p.
Proof.
  intros Hcap [Hpcs Hd Hw Hn _ Hp]. unfold lock_turn. rewrite decide_True by done. destruct (sq_depth q) as [|d] eqn:Hdepth.
  - destruct (wait_notified_spec 0 q) as (H1 & H2 & [[H3 H4]|[H3 H4]]).
    + exists Ready. split; rewrite ?H1, ?H2, ?H3, ?H4; try done; rewrite ?Hdepth; try done.
    + assert (Hnp : p <> Parked) by (intros ->; destruct Hp; [done|lia|done]).
      assert (Hnone : waiting (sq_notify q) = []).
      { destruct (waiting (sq_notify q)) as [|x l]; [done|]. destruct (proj1 (Hw x)) as [[_ ?]|[_ ?]]; [set_solver|done..]. }
      exists Parked. split; rewrite ?H1, ?H2, ?H3, ?H4, ?Hnone, ?Hpcs, ?pcs_insert_0; try done.
      * rewrite Hdepth. lia.
      * intros t. set_solver.
      * apply NoDup_singleton.
      * by left.
  - exists Notifying. split; cbn; rewrite ?Hpcs, ?pcs_insert_0; try done; try lia.
    + intros x. rewrite Hw. split; intros [[? ?]|[? ?]]; auto; done.
    + by right.
Qed.

Lemma producer_turn q c : (0 < sq_capacity q)%nat -> lively q c Ready -> exists p', lively (lock_turn 1 q) c p'.
Proof.
  intros Hcap [Hpcs Hd Hw Hn Hc _]. unfold lock_turn. rewrite decide_False by done.
  destruct (decide (sq_depth q < sq_capacity q)%nat) as [Hroom|Hfull].
  - exists Notifying. split; cbn; rewrite ?Hpcs, ?pcs_insert_1; try done; try lia.
    + intros x. rewrite Hw. split; intros [[? ?]|[? ?]]; auto; done.
    + by right.
  - assert (Heq : sq_depth q = sq_capacity q) by lia.
    destruct (wait_notified_spec 1 q) as (H1 & H2 & [[H3 H4]|[H3 H4]]).
    + exists Ready. split; rewrite ?H1, ?H2, ?H3, ?H4; done.
    + assert (Hnc : c <> Parked) by (intros ->; destruct Hc; [done|lia|done]).
      assert (Hnone : waiting (sq_notify q) = []).
      { destruct (waiting (sq_notify q)) as [|x l]; [done|]. destruct (proj1 (Hw x)) as [[_ ?]|[_ ?]]; [set_solver|done..]. }
      exists Parked. split; rewrite ?H1, ?H2, ?H3, ?H4, ?Hnone, ?Hpcs, ?pcs_insert_1; try done.
      * intros t. set_solver.
      * apply NoDup_singleton.
      * by left.
Qed.

Lemma no_waiters (t : nat) : t ∈ [] <-> (t = 0%nat /\ Ready = Parked) \/ (t = 1%nat /\ Ready = Parked).
Proof. split; [by intros ?%not_elem_of_nil|by intros [[_ ?]|[_ ?]]]. Qed.

Lemma consumer_notify q p : lively q Notifying p -> exists p', lively (notify_turn 0 q) Ready p'.
Proof.
  intros [Hpcs Hd Hw Hn _ Hp]. destruct (notify_turn_spec 0 q) as (H1 & H2 & H3).
  destruct (waiting_one (waiting (sq_notify q)) (p = Parked) 1) as [Hl|[Hl ->]]; [done| |rewrite Hl in *..].
  { intros x. rewrite Hw. split; [intros [[_ ?]|?]; [done|done]|by right]. }
  - destruct H3 as [H3 H4]. exists p.
    assert (p <> Parked) by (intros ->; specialize (Hw 1%nat); set_solver).
    split; rewrite ?H1, ?H2, ?H3, ?H4, ?Hpcs, ?pcs_insert_0; try done; set_solver.
  - destruct H3 as [H3 H4]. exists Ready.
    split; rewrite ?H1, ?H2, ?H3, ?H4, ?Hpcs, ?pcs_insert_0, ?pcs_insert_1; try done; [exact no_waiters|constructor].
Qed.

Lemma producer_notify q c : lively q c Notifying -> exists c', lively (notify_turn 1 q) c' Ready.
Proof.
  intros [Hpcs Hd Hw Hn Hc _]. destruct (notify_turn_spec 1 q) as (H1 & H2 & H3).
  destruct (waiting_one (waiting (sq_notify q)) (c = Parked) 0) as [Hl|[Hl ->]]; [done| |rewrite Hl in *..].
  { intros x. rewrite Hw. split; [intros [?|[_ ?]]; [done|done]|by left]. }
  - destruct H3 as [H3 H4]. exists c.
    assert (c <> Parked) by (intros ->; specialize (Hw 0%nat); set_solver).
    split; rewrite ?H1, ?H2, ?H3, ?H4, ?Hpcs, ?pcs_insert_1; try done; set_solver.
  - destruct H3 as [H3 H4]. exists Ready.
    split; rewrite ?H1, ?H2, ?H3, ?H4, ?Hpcs, ?pcs_insert_1, ?pcs_insert_0; try done; [exact no_waiters|constructor].
Qed.

Lemma lively_step q c p t :
  (0 < sq_capacity q)%nat -> lively q c p -> exists c' p', lively (task_step t q) c' p'.
Proof.
  intros Hcap Hl. unfold task_step. rewrite (l_pcs _ _ _ Hl), pcs_lookup.
  destruct (decide (t = 0%nat)) as [->|H0]; [|destruct (decide (t = 1%nat)) as [->|H1]].
  - destruct c; [|destruct (consumer_notify q p Hl); eauto|eauto]. destruct (consumer_turn q p); eauto.
  - destruct p; [|destruct (producer_notify q c Hl); eauto|eauto]. destruct (producer_turn q c); eauto.
  - eauto.
Qed.

Lemma task_step_capacity t (q : SharedQueue) : sq_capacity (task_step t q) = sq_capacity q.
Proof.
  unfold task_step. destruct (sq_pcs q !! t) as [[]|]; [|apply notify_turn_spec|done..].
  unfold lock_turn. destruct (decide (t = 0%nat)); [destruct (sq_depth q)|destruct (decide _)]; try done; apply wait_notified_spec.
Qed.

(** A queue with one producer never gets stuck: in whatever order the two tasks
    run, they never both wait, a waiting consumer faces an empty queue or a
    producer about to wake it, and a waiting producer a full queue or a
    consumer about to wake it. *)
Theorem one_producer_never_stuck capacity schedule :
  (0 < capacity)%nat ->
  let q := run_tasks schedule (shared_queue (N:=N) capacity 1) in
  ~ all_parked q /\
  (sq_pcs q !! 0%nat = Some Parked -> sq_depth q = 0%nat \/ sq_pcs q !! 1%nat = Some Notifying) /\
  (sq_pcs q !! 1%nat = Some Parked -> sq_depth q = capacity \/ sq_pcs q !! 0%nat = Some Notifying).
Proof.
  intros Hcap. cbv zeta.
  assert (Hrun : forall schedule q c p, sq_capacity q = capacity -> lively q c p ->
    sq_capacity (run_tasks schedule q) = capacity /\ exists c p, lively (run_tasks schedule q) c p).
  { clear schedule. induction schedule as [|t schedule IH]; intros q c p Hq Hl; cbn; [eauto|].
    destruct (lively_step q c p t) as (c' & p' & Hl'); [by rewrite Hq|done|].
    eapply IH; [by rewrite task_step_capacity|exact Hl']. }
  destruct (Hrun schedule (shared_queue capacity 1) Ready Ready eq_refl) as (Hq & c & p & [Hpcs Hd Hw Hn Hc Hp]).
  { destruct (new_waits (N:=N)) as [Hw _]. split; cbn; try done; [lia| |].
    - rewrite Hw. set_solver.
    - rewrite Hw. constructor. }
  split_and!; [|rewrite Hpcs, !pcs_lookup; cbn..].
  - unfold all_parked. rewrite Hpcs. intros Ha.
    pose proof (Ha 0%nat c) as Hcp. pose proof (Ha 1%nat p) as Hpp. cbn beta in *. rewrite pcs_lookup in Hcp, Hpp.
    specialize (Hcp eq_refl) as ->. specialize (Hpp eq_refl) as ->.
    destruct Hc as [Hc|Hc]; [done| |done]. destruct Hp as [Hp|Hp]; [done| |done]. lia.
  - intros [= ->]. destruct Hc as [Hc|Hc]; [done|by left|right; by f_equal].
  - intros [= ->]. destruct Hp as [Hp|Hp]; [done|left; congruence|right; by f_equal].
Qed.
End one_producer.

(** ** Two producers *)

Lemma parked_forever {N} `{!Notify N} schedule (q : SharedQueue (N:=N)) : all_parked q -> run_tasks schedule q = q.
Proof.
  intros Ha. induction schedule as [|t schedule IH]; [done|]. cbn. rewrite <- IH at 2. f_equal. unfold task_step.
  destruct (sq_pcs q !! t) as [pc|] eqn:Hpc; [|done]. by rewrite (Ha t pc Hpc).
Qed.

Module WakeupExample.

#[local] Instance waiters : Notify (list nat * bool) := {|
  notify_new := ([], false);
  notify_one n := match n with ([], _) => (None, ([], true)) | (t :: ts, b) => (Some t, (ts, b)) end;
  enable t n := match n with (ts, true) => (true, (ts, false)) | (ts, false) => (false, (ts ++ [t], false)) end |}.

#[local] Instance waiters_laws : NotifyLaws (list nat * bool).
Proof.
  refine {| waiting := fst; permit := snd |}; [done|by intros [[|t ts] b]|by intros t [ts []]].
Defined.

Lemma one_producer_never_stuck_witness :
  let q := run_tasks [1; 1; 1; 1; 0; 0; 0; 0; 1]%nat (shared_queue 1 1) in
  sq_depth q = 1%nat /\ ~ all_parked q /\
  (sq_pcs q !! 0%nat = Some Parked -> sq_depth q = 0%nat \/ sq_pcs q !! 1%nat = Some Notifying) /\
  (sq_pcs q !! 1%nat = Some Parked -> sq_depth q = 1%nat \/ sq_pcs q !! 0%nat = Some Notifying).
Proof. split; [by_vm|]. apply (one_producer_never_stuck 1 [1; 1; 1; 1; 0; 0; 0; 0; 1]%nat). lia. Defined.

(** Both producers wait when the consumer takes the only event and, having
    woken the first of them, waits behind the second: the first then wakes the
    second instead of the consumer. *)
Definition crossed : list nat := [1; 1; 1; 1; 2; 0; 0; 0; 1; 1; 2; 1]%nat.

(** With two producers and room for one event all three tasks can end up
    waiting for good, with an event in the queue. *)
Theorem two_producers_get_stuck :
  let q := run_tasks crossed (shared_queue 1 2) in
  sq_depth q = 1%nat /\ forall schedule, run_tasks schedule q = q.
Proof.
  split; [by_vm|]. intros schedule. apply parked_forever.
  assert (Hp : bool_decide (map_Forall (fun _ pc => pc = Parked) (sq_pcs (run_tasks crossed (shared_queue 1 2)))) = true)
    by by_vm.
  exact (proj1 (bool_decide_eq_true _) Hp).
Qed.
End WakeupExample.
