(* ===== verification/ReactionLoop.v ===== *)
(** * The processing loop of a reaction (lib/src/reactions/common/base.rs,
      lib/src/reactions/common/checkpoint_state.rs)

    A reaction takes the results of its queries from its queue one by one, calls
    its handler, and then writes how far it came to the state store: a result at
    or before the checkpoint is skipped. The policy of the reaction says what
    happens when the handler or the write fails. The handler is a parameter;
    [arrived], [delivered] and [given_up] log what was enqueued and what became
    of it, and belong to no field of the code. *)

From stdpp Require Import sorting.
From S2P Require Import Prelude BTree QueryOutput StateStore ComponentGraph ReactionRecovery PriorityQueue.

(** The metadata of a result holds the time at which it was emitted. *)
Class ResultTime `{Payload} := { meta_timestamp : ResultMeta -> Z }.

#[global] Instance result_order `{ResultTime} : QueueOrder QueryResult (Z * Z) :=
  {| order_key r := (meta_timestamp (qr_meta r), qr_sequence r) |}.

Inductive LoopError :=
| LoopCheckpointFailed (e : CheckpointError)
| NoStateStore
| RetriesExhausted
| HandlerFailed (msg : string).

Inductive FailureAction := StopReaction | SkipAndContinue.

Definition failure_action (policy : ReactionRecoveryPolicy) : FailureAction :=
  match policy with AutoSkipGap => SkipAndContinue | _ => StopReaction end.

(** ** Writing with a policy *)

Definition AUTO_RESET_CHECKPOINT_ATTEMPTS : nat := 4.

Fixpoint retry_write {S E} (exhausted : E) (attempts : nat) (last_error : option E) (write : SM S E unit) : SM S E unit :=
  match attempts with
  | O => sm_err (default exhausted last_error)
  | Datatypes.S attempts =>
      r ← attempt write;
      match (r : outcome E unit) with
      | Ok _ => mret tt
      | Err error => retry_write exhausted attempts (Some error) write
      | Panic => fun s => (Panic, s)
      end
  end.

Definition persist_with_recovery_policy {S E} (exhausted : E) (policy : ReactionRecoveryPolicy) (write : SM S E unit) :
    SM S E unit :=
  match policy with
  | Strict => write
  | AutoSkipGap => r ← attempt write; mret tt
  | AutoReset => retry_write exhausted AUTO_RESET_CHECKPOINT_ATTEMPTS None write
  end.

(** The sequence to checkpoint after a batch: [completed] counts the last items
    of results only, [seen] all of them. *)
Definition raise_to (query_id : string) (sequence : Z) (m : gmap string Z) : gmap string Z :=
  <[query_id := Z.max (default 0 (m !! query_id)) sequence]> m.

Definition batch_checkpoint_candidates (items : list (string * Z * bool)) : gmap string Z * gmap string Z :=
  fold_left (fun acc item =>
      let '(query_id, sequence, is_terminal) := item in
      (if is_terminal : bool then raise_to query_id sequence acc.1 else acc.1, raise_to query_id sequence acc.2))
    items (∅, ∅).

(** ** The reaction *)

Section loop.
Context {P : Payload} {RT : ResultTime} {BH : BinaryHeap QueryResult (Z * Z)}.
Context {Codec : CheckpointCodec} {St : Type} {SP : StateStoreProvider St}.
Context {Env : Type} (handler : QueryResult -> SM Env string unit) (reaction_id : string).

Record ReactionBase := {
  priority_queue : PriorityQueue QueryResult;
  rb_store : option St;
  rb_status : ComponentStatus;
  env : Env; (** what the handler acts on *)
  checkpoints : gmap string ReactionCheckpoint; (** [CheckpointState] *)
  has_store : bool;
  delivered : list QueryResult;
  given_up : list QueryResult;
  arrived : list QueryResult;
}.

Notation M := (SM ReactionBase LoopError).

Definition set_queue (x : PriorityQueue QueryResult) (b : ReactionBase) : ReactionBase :=
  {| priority_queue := x; rb_store := rb_store b; rb_status := rb_status b; env := env b; checkpoints := checkpoints b;
     has_store := has_store b; delivered := delivered b; given_up := given_up b; arrived := arrived b |}.
Definition set_store (x : St) (b : ReactionBase) : ReactionBase :=
  {| priority_queue := priority_queue b; rb_store := Some x; rb_status := rb_status b; env := env b;
     checkpoints := checkpoints b; has_store := has_store b; delivered := delivered b; given_up := given_up b; arrived := arrived b |}.
Definition set_status (x : ComponentStatus) (b : ReactionBase) : ReactionBase :=
  {| priority_queue := priority_queue b; rb_store := rb_store b; rb_status := x; env := env b;
     checkpoints := checkpoints b; has_store := has_store b; delivered := delivered b; given_up := given_up b; arrived := arrived b |}.
Definition set_env (x : Env) (b : ReactionBase) : ReactionBase :=
  {| priority_queue := priority_queue b; rb_store := rb_store b; rb_status := rb_status b; env := x;
     checkpoints := checkpoints b; has_store := has_store b; delivered := delivered b; given_up := given_up b; arrived := arrived b |}.
Definition set_checkpoints (x : gmap string ReactionCheckpoint) (b : ReactionBase) : ReactionBase :=
  {| priority_queue := priority_queue b; rb_store := rb_store b; rb_status := rb_status b; env := env b;
     checkpoints := x; has_store := has_store b; delivered := delivered b; given_up := given_up b; arrived := arrived b |}.
Definition log_delivered (r : QueryResult) (b : ReactionBase) : ReactionBase :=
  {| priority_queue := priority_queue b; rb_store := rb_store b; rb_status := rb_status b; env := env b;
     checkpoints := checkpoints b; has_store := has_store b; delivered := delivered b ++ [r]; given_up := given_up b; arrived := arrived b |}.
Definition log_arrived (r : QueryResult) (b : ReactionBase) : ReactionBase :=
  {| priority_queue := priority_queue b; rb_store := rb_store b; rb_status := rb_status b; env := env b;
     checkpoints := checkpoints b; has_store := has_store b; delivered := delivered b; given_up := given_up b;
     arrived := arrived b ++ [r] |}.
Definition log_given_up (r : QueryResult) (b : ReactionBase) : ReactionBase :=
  {| priority_queue := priority_queue b; rb_store := rb_store b; rb_status := rb_status b; env := env b;
     checkpoints := checkpoints b; has_store := has_store b; delivered := delivered b; given_up := given_up b ++ [r];
     arrived := arrived b |}.

Definition modify (f : ReactionBase -> ReactionBase) : M unit := fun b => (Ok tt, f b).

Definition base_read_checkpoint (query_id : string) : M (option ReactionCheckpoint) := fun b =>
  match rb_store b with
  | Some s => let '(r, s) := read_checkpoint reaction_id query_id s in (map_err LoopCheckpointFailed r, set_store s b)
  | None => (Ok None, b)
  end.

Definition base_write_checkpoint (query_id : string) (cp : ReactionCheckpoint) : M unit := fun b =>
  match rb_store b with
  | Some s =>
      let '(r, s) := write_checkpoint reaction_id query_id cp s in (map_err LoopCheckpointFailed r, set_store s b)
  | None => (Err NoStateStore, b)
  end.

(** ** [CheckpointState] *)

Definition load : M unit := fun b =>
  (Ok tt, {| priority_queue := priority_queue b; rb_store := rb_store b; rb_status := rb_status b; env := env b;
             checkpoints := ∅; has_store := match rb_store b with Some _ => true | None => false end;
             delivered := delivered b; given_up := given_up b; arrived := arrived b |}).

(** A persisted checkpoint wins when it is ahead, or of another epoch. *)
Definition refreshed (persisted : option ReactionCheckpoint) (current : ReactionCheckpoint) : ReactionCheckpoint :=
  match persisted with
  | Some p =>
      if negb (cp_config_hash p =? cp_config_hash current) || (cp_sequence current <? cp_sequence p) then p else current
  | None => current
  end.

(** Leaves an entry for the query, which is returned. *)
Definition refresh (query_id : string) : M ReactionCheckpoint :=
  b ← sm_get;
  persisted ← (if has_store b then base_read_checkpoint query_id else mret None);
  b ← sm_get;
  let current := refreshed persisted (default (checkpoint_at 0 0) (checkpoints b !! query_id)) in
  _ ← modify (set_checkpoints (<[query_id := current]> (checkpoints b)));
  mret current.

Definition seed (initial : gmap string ReactionCheckpoint) : M unit := fun b =>
  (Ok tt, set_checkpoints (checkpoints b ∪ initial) b).

(** [advance] with [persist] for the durable write *)
Definition advance_by (persist : M unit -> M unit) (query_id : string) (sequence : Z) : M unit :=
  current ← refresh query_id;
  if sequence <=? cp_sequence current then mret tt
  else
    let cp := checkpoint_at sequence (cp_config_hash current) in
    b ← sm_get;
    _ ← (if has_store b then persist (base_write_checkpoint query_id cp) else mret tt);
    modify (fun b => set_checkpoints (<[query_id := cp]> (checkpoints b)) b).

Definition advance_checkpoint : string -> Z -> M unit := advance_by (fun write => write).
Definition advance_with_policy (policy : ReactionRecoveryPolicy) : string -> Z -> M unit :=
  advance_by (persist_with_recovery_policy RetriesExhausted policy).

(** In the order of the query ids. *)
Definition entry_le (a b : string * Z) : Prop := cmp a.1 b.1 <> Gt.
#[global] Instance entry_le_dec : RelDecision entry_le.
Proof. intros a b. unfold entry_le. solve_decision. Defined.

Definition advance_completed_after_ack (policy : ReactionRecoveryPolicy) (completed : gmap string Z) : M unit :=
  sm_foldl (fun _ e => advance_with_policy policy e.1 e.2) tt (merge_sort entry_le (map_to_list completed)).

(** ** The loop *)

Definition persist_after_side_effect (policy : ReactionRecoveryPolicy) (query_id : string) (sequence : Z) : M unit :=
  r ← attempt (advance_with_policy policy query_id sequence);
  match (r : outcome LoopError unit) with
  | Err e => _ ← modify (set_status Error); sm_err e
  | _ => mret tt
  end.

Definition call_handler (event : QueryResult) : M (outcome string unit) := fun b =>
  match handler event (env b) with
  | (Panic, e) => (Panic, set_env e b)
  | (Ok u, e) => (Ok (Ok u), log_delivered event (set_env e b))
  | (r, e) => (Ok r, set_env e b)
  end.

(** One turn of [run_standard_loop]; without an event it waits. *)
Definition loop_turn (policy : ReactionRecoveryPolicy) : M unit :=
  b ← sm_get;
  match try_dequeue (priority_queue b) with
  | (None, _) => mret tt
  | (Some event, q) =>
      _ ← modify (set_queue q);
      let query_id := qr_query_id event in
      let seq := qr_sequence event in
      cp ← refresh query_id;
      if seq <=? cp_sequence cp then mret tt
      else
        handled ← call_handler event;
        match (handled : outcome string unit) with
        | Err e =>
            match failure_action policy with
            | StopReaction => _ ← modify (set_status Error); sm_err (HandlerFailed e)
            | SkipAndContinue =>
                _ ← modify (log_given_up event);
                persist_after_side_effect policy query_id seq
            end
        | _ => persist_after_side_effect policy query_id seq
        end
  end.

(** What happens to the reaction: a forwarder enqueues (it waits while the
    queue is full), the host moves a checkpoint, the loop takes a turn. *)
Inductive LoopEvent :=
| Arrives (r : QueryResult)
| HostWrites (query_id : string) (cp : ReactionCheckpoint)
| Turn.

Definition enqueue_result (r : QueryResult) (b : ReactionBase) : ReactionBase :=
  let '(room, q) := enqueue_wait_turn r (priority_queue b) in
  if room : bool then log_arrived r (set_queue q b) else set_queue q b.

Definition host_writes (query_id : string) (cp : ReactionCheckpoint) : M unit := fun b =>
  let '(_, b) := base_write_checkpoint query_id cp b in (Ok tt, b).

Definition loop_event (policy : ReactionRecoveryPolicy) (ev : LoopEvent) : M unit :=
  match ev with
  | Arrives r => modify (enqueue_result r)
  | HostWrites query_id cp => host_writes query_id cp
  | Turn => loop_turn policy
  end.

Definition run_standard_loop (policy : ReactionRecoveryPolicy) (initial_checkpoints : gmap string ReactionCheckpoint)
    (script : list LoopEvent) : M unit :=
  _ ← load;
  _ ← seed initial_checkpoints;
  sm_foldl (fun _ ev => loop_event policy ev) tt script.

(** [stop_common]: what is still in the queue is dropped. *)
Definition stop_common : M unit := fun b =>
  (Ok tt, set_status Stopped (set_queue (drain (priority_queue b)).2 b)).

Definition deprovision_common : M unit := fun b =>
  match rb_store b with
  | Some s => let '(r, s) := store_clear reaction_id s in
      (map_err (fun e => LoopCheckpointFailed (CheckpointStoreError e)) (match r with Ok _ => Ok tt | Err e => Err e | Panic => Panic end),
       set_store s b)
  | None => (Ok tt, b)
  end.
End loop.
Arguments ReactionBase {P} St Env.
