(* ===== verification/ReactionLoopFacts.v ===== *)
(** * At least once

    Whatever arrives, however the store fails, wherever the loop stops: a result
    at or before the checkpoint in the store was handled, or given up under
    [AutoSkipGap], or covered by a checkpoint that was there before or that the
    host wrote. So a restart, which replays what follows the checkpoint, loses
    nothing. This needs the results of a query to come in the order of their
    timestamps: the queue is ordered by timestamp before sequence. *)

From Stdlib Require Import Sorted.
From S2P Require Import Prelude BTree QueryOutput StateStore ComponentGraph ReactionRecovery PriorityQueue.
From S2P Require Import ReactionLoop.

Section facts.
Context {P : Payload} {RT : ResultTime} {BH : BinaryHeap QueryResult (Z * Z)}.
Context {Codec : CheckpointCodec} {CL : CheckpointCodecLaws}.
Context {St : Type} {SP : StateStoreProvider St} {SL : StateStoreLaws St}.
Context {Env : Type} (handler : QueryResult -> SM Env string unit) (rid : string).
Notation Base := (ReactionBase St Env).
Implicit Types b : Base.

(** A later result of the same query has a larger sequence and no earlier
    timestamp. *)
Definition in_order (r r' : QueryResult) : Prop :=
  qr_query_id r = qr_query_id r' ->
  qr_sequence r < qr_sequence r' /\ meta_timestamp (qr_meta r) <= meta_timestamp (qr_meta r').

(** The checkpoint in the store *)
Definition saved b (q : string) : option ReactionCheckpoint := s ← rb_store b; checkpoint_of s rid q.
Definition all_readable b : Prop := forall s q, rb_store b = Some s -> readable s rid q.

Definition known b (q : string) (cp : ReactionCheckpoint) : Prop := checkpoints b !! q = Some cp \/ saved b q = Some cp.

(** [b'] is [b] after moving checkpoints, none to a new sequence other than
    [n] of [q]. *)
Record moves (q : string) (n : Z) b b' : Prop := {
  mv_queue : priority_queue b' = priority_queue b;
  mv_arrived : arrived b' = arrived b;
  mv_delivered : delivered b' = delivered b;
  mv_given_up : given_up b' = given_up b;
  mv_readable : all_readable b -> all_readable b';
  mv_known : forall q' cp, known b' q' cp -> known b q' cp \/ cp_sequence cp <= 0 \/ (q' = q /\ cp_sequence cp = n);
}.

Lemma moves_refl q n b : moves q n b b.
Proof. by split; eauto. Qed.

Lemma moves_trans q n b1 b2 b3 : moves q n b1 b2 -> moves q n b2 b3 -> moves q n b1 b3.
Proof.
  intros [H1 H2 H3 H4 H5 H6] [G1 G2 G3 G4 G5 G6]. split; try congruence; [auto|].
  intros q' cp [Hk|]%G6; auto.
Qed.

(** Operations that only move a checkpoint to [n] of [q] *)
Definition only_moves {E A} (q : string) (n : Z) (m : SM Base E A) : Prop :=
  forall b, all_readable b -> moves q n b (m b).2 /\ (m b).1 <> Panic.

Lemma only_moves_bind {E A B} q n (m : SM Base E A) (f : A -> SM Base E B) :
  only_moves q n m -> (forall a, only_moves q n (f a)) -> only_moves q n (m ≫= f).
Proof.
  intros Hm Hf b Hb. unfold mbind, SM_bind. destruct (Hm b Hb) as [H1 H2]. destruct (m b) as [[a|e|] b1]; cbn in *; try done.
  destruct (Hf a b1) as [H3 H4]; [by apply (mv_readable _ _ _ _ H1)|]. split; [|done]. by eapply moves_trans.
Qed.

Lemma only_moves_ret {E A} q n (a : A) : only_moves (E:=E) q n (mret a).
Proof. intros b _. split; [apply moves_refl|done]. Qed.

Lemma only_moves_err {E A} q n (e : E) : only_moves (A:=A) q n (sm_err e).
Proof. intros b _. split; [apply moves_refl|done]. Qed.

Lemma only_moves_get {E} q n : only_moves (E:=E) q n sm_get.
Proof. intros b _. split; [apply moves_refl|done]. Qed.

Lemma only_moves_attempt {E F A} q n (m : SM Base E A) : only_moves q n m -> only_moves q n (attempt (F:=F) m).
Proof. intros Hm b Hb. destruct (Hm b Hb) as [H1 H2]. unfold attempt. by destruct (m b) as [[a|e|] b1]. Qed.

Lemma only_moves_status q n x : only_moves q n (modify (set_status x)).
Proof. intros b Hb. by split; [split|]; eauto. Qed.

Lemma only_moves_write q cp : only_moves q (cp_sequence cp) (base_write_checkpoint rid q cp).
Proof.
  intros b Hb. unfold base_write_checkpoint. destruct (rb_store b) as [s|] eqn:Hs; [|split; [apply moves_refl|done]].
  pose proof (write_checkpoint_ok s rid q cp) as Hw. specialize (Hb s).
  destruct (write_checkpoint rid q cp s) as [[u|e|] s']; cbn; [| |done].
  - split; [split; try done|done].
    + intros _ s1 q' [= <-]. by apply Hw; left; apply Hb.
    + intros q' cp' [Hk|Hk]; [left; by left|]. cbn in Hk. unfold saved in Hk. cbn in Hk.
      destruct (Hw rid q') as [_ Hc]; [left; by apply Hb|]. rewrite Hc in Hk.
      destruct (decide _) as [[= ->]|]; [right; right; by simplify_eq|left; right; unfold saved; by rewrite Hs].
  - split; [split; try done|done].
    + intros _ s1 q' [= <-]. by apply Hw, Hb.
    + intros q' cp' [Hk|Hk]; [left; by left|]. left. right. unfold saved in *. rewrite Hs. cbn in *.
      destruct (Hw rid q') as [_ Hc]. by rewrite <- Hc.
Qed.

Lemma only_moves_retry {E} q n (x : E) k last (write : SM Base E unit) :
  only_moves q n write -> only_moves q n (retry_write x k last write).
Proof.
  intros Hw. revert last. induction k as [|k IH]; intros last; cbn; [apply only_moves_err|].
  intros b Hb. destruct (Hw b Hb) as [H1 H2]. unfold mbind, SM_bind, attempt.
  destruct (write b) as [[u|e|] b1]; cbn in *; [done| |done].
  destruct (IH (Some e) b1) as [H3 H4]; [by apply (mv_readable _ _ _ _ H1)|]. split; [|done]. by eapply moves_trans.
Qed.

Lemma only_moves_persist {E} q n (x : E) policy (write : SM Base E unit) :
  only_moves q n write -> only_moves q n (persist_with_recovery_policy x policy write).
Proof.
  intros Hw. unfold persist_with_recovery_policy. destruct policy; [done|by apply only_moves_retry|].
  apply only_moves_bind; [by apply only_moves_attempt|]. intros r. apply only_moves_ret.
Qed.

(** Reading changes nothing. *)
Lemma read_saved b q : all_readable b -> base_read_checkpoint rid q b = (Ok (saved b q), b).
Proof.
  intros Hb. unfold base_read_checkpoint, saved. destruct (rb_store b) as [s|] eqn:Hs; [|done].
  rewrite read_checkpoint_ok by by apply Hb. cbn. destruct b. cbn in *. by subst.
Qed.

Lemma refresh_spec b q :
  all_readable b ->
  exists cp, refresh rid q b = (Ok cp, set_checkpoints (<[q := cp]> (checkpoints b)) b) /\
    (known b q cp \/ cp_sequence cp = 0).
Proof.
  intros Hb. unfold refresh. rewrite (sm_bind_ok sm_get _ b b b eq_refl).
  set (persisted := if has_store b then saved b q else None).
  rewrite (sm_bind_ok _ _ b persisted b).
  2:{ subst persisted. destruct (has_store b); [by apply read_saved|done]. }
  rewrite (sm_bind_ok sm_get _ b b b eq_refl). eexists. split; [reflexivity|].
  assert (Hcur : forall c, default (checkpoint_at 0 0) (checkpoints b !! q) = c -> known b q c \/ cp_sequence c = 0).
  { unfold known. destruct (checkpoints b !! q) as [c'|]; cbn; intros c <-; auto. }
  unfold refreshed. destruct persisted as [p|] eqn:Hp; [|by apply Hcur].
  destruct (negb _ || _); [|by apply Hcur]. subst persisted. destruct (has_store b); [|done]. left. by right.
Qed.

Lemma set_known_moves b q n cp :
  known b q cp \/ cp_sequence cp <= 0 \/ cp_sequence cp = n ->
  moves q n b (set_checkpoints (<[q := cp]> (checkpoints b)) b).
Proof.
  intros Hcp. split; try done. intros q' cp' [Hk|Hk]; [|left; by right]. cbn in Hk.
  apply lookup_insert_Some in Hk as [[-> ->]|[Hne Hk]]; [|left; by left]. intuition.
Qed.

Lemma only_moves_advance policy q n : only_moves q n (advance_with_policy rid policy q n).
Proof.
  unfold advance_with_policy, advance_by. intros b Hb.
  destruct (refresh_spec b q Hb) as (cp & Hr & Hcp). rewrite (sm_bind_ok _ _ _ _ _ Hr). clear Hr.
  assert (H0 : moves q n b (set_checkpoints (<[q := cp]> (checkpoints b)) b)).
  { apply set_known_moves. destruct Hcp as [Hk|Hz]; [by left|]. right. left. lia. }
  set (b1 := set_checkpoints _ b) in *. assert (H1 : all_readable b1) by by apply (mv_readable _ _ _ _ H0).
  destruct (n <=? cp_sequence cp); [by split|].
  assert (Hrest : only_moves q n (b ← sm_get;
    _ ← (if has_store b then persist_with_recovery_policy RetriesExhausted policy
           (base_write_checkpoint rid q (checkpoint_at n (cp_config_hash cp))) else mret tt);
    modify (fun b => set_checkpoints (<[q := checkpoint_at n (cp_config_hash cp)]> (checkpoints b)) b))).
  { apply only_moves_bind; [apply only_moves_get|]. intros b2. apply only_moves_bind.
    - destruct (has_store b2); [|apply only_moves_ret]. apply only_moves_persist.
      apply (only_moves_write q (checkpoint_at n (cp_config_hash cp))).
    - intros _ b3 Hb3. split; [|done]. apply set_known_moves. auto. }
  destruct (Hrest b1 H1) as [H2 H3]. split; [|done]. by eapply moves_trans.
Qed.

Lemma only_moves_persist_after policy q n : only_moves q n (persist_after_side_effect rid policy q n).
Proof.
  unfold persist_after_side_effect. apply only_moves_bind; [apply only_moves_attempt, only_moves_advance|].
  intros [u|e|]; [apply only_moves_ret| |apply only_moves_ret].
  apply only_moves_bind; [apply only_moves_status|]. intros _. apply only_moves_err.
Qed.

(** ** The invariant *)

Section invariant.
Context (policy : ReactionRecoveryPolicy).

(** The checkpoints the reaction was told of: those there at the start, and
    those the host wrote *)
Context (told : string -> ReactionCheckpoint -> Prop).

(** Sequences start at one. *)
Definition covered (r : QueryResult) : Prop :=
  qr_sequence r <= 0 \/ exists cp, told (qr_query_id r) cp /\ qr_sequence r <= cp_sequence cp.

Definition accounted b (r : QueryResult) : Prop :=
  r ∈ delivered b \/ (policy = AutoSkipGap /\ r ∈ given_up b) \/ covered r.

(** Why a checkpoint of [q] may be at [n] *)
Definition backed b (q : string) (n : Z) : Prop :=
  n <= 0 \/ (exists cp, told q cp /\ n <= cp_sequence cp) \/
  exists e, e ∈ arrived b /\ qr_query_id e = q /\ qr_sequence e = n /\
    forall r, r ∈ arrived b -> qr_query_id r = q -> qr_sequence r <= n -> accounted b r.

Record sound b : Prop := {
  s_readable : all_readable b;
  s_known : forall q cp, known b q cp -> backed b q (cp_sequence cp);
}.

(** While the loop runs: what is not in the queue any more is accounted for. *)
Record running b : Prop := {
  r_queued : forall r, r ∈ heap (priority_queue b) -> r ∈ arrived b;
  r_rest : forall r, r ∈ arrived b -> r ∈ heap (priority_queue b) \/ accounted b r;
}.

Lemma backed_accounted b q n r :
  backed b q n -> r ∈ arrived b -> qr_query_id r = q -> qr_sequence r <= n -> accounted b r.
Proof.
  intros [Hn|[(cp & Ht & Hn)|(e & _ & _ & _ & Hr)]] Ha Hq Hle; [right; right; left; lia| |by apply Hr].
  right; right; right. exists cp. rewrite Hq. split; [done|lia].
Qed.

(** The logs only grow. *)
Record grows b b' : Prop := {
  g_arrived : arrived b' = arrived b;
  g_delivered : forall r, r ∈ delivered b -> r ∈ delivered b';
  g_given_up : forall r, r ∈ given_up b -> r ∈ given_up b';
}.

Lemma grows_accounted b b' r : grows b b' -> accounted b r -> accounted b' r.
Proof. intros [Ha Hd Hg]. unfold accounted. naive_solver. Qed.

Lemma grows_backed b b' q n : grows b b' -> backed b q n -> backed b' q n.
Proof.
  intros Hg. unfold backed. intros [?|[?|(e & ? & ? & ? & Hr)]]; [by left|by right; left|]. right; right. exists e.
  rewrite (g_arrived _ _ Hg). split_and!; [done..|]. intros r Hr1 Hr2 Hr3. eapply grows_accounted; [exact Hg|]. by apply Hr.
Qed.

Lemma moves_grows q n b b' : moves q n b b' -> grows b b'.
Proof. intros [H1 H2 H3 H4 _ _]. split; [done|by rewrite H3|by rewrite H4]. Qed.

Lemma moves_sound q n b b' : moves q n b b' -> backed b q n -> sound b -> sound b'.
Proof.
  intros Hm Hn [Hr Hk]. pose proof (moves_grows _ _ _ _ Hm) as Hg. split; [by apply (mv_readable _ _ _ _ Hm)|].
  intros q' cp Hcp. apply (grows_backed b); [done|].
  destruct (mv_known _ _ _ _ Hm q' cp Hcp) as [?|[?|[-> ->]]]; [by apply Hk|by left|done].
Qed.

Lemma moves_running q n b b' : moves q n b b' -> running b -> running b'.
Proof.
  intros Hm [Hq Hr]. pose proof (moves_grows _ _ _ _ Hm) as Hg. split.
  - rewrite (mv_queue _ _ _ _ Hm), (mv_arrived _ _ _ _ Hm). done.
  - rewrite (mv_queue _ _ _ _ Hm), (mv_arrived _ _ _ _ Hm). intros r Ha. destruct (Hr r Ha) as [?|?]; [by left|right].
    by apply (grows_accounted b).
Qed.

(** ** The steps keep it *)

(** The handler's answer decides the turn. *)
Lemma call_handler_bind e b (f : outcome string unit -> SM Base LoopError unit) :
  (call_handler handler e ≫= f) b =
  match handler e (env b) with
  | (Panic, e') => (Panic, set_env e' b)
  | (Ok u, e') => f (Ok u) (log_delivered e (set_env e' b))
  | (Err err, e') => f (Err err) (set_env e' b)
  end.
Proof. unfold call_handler, mbind, SM_bind. by destruct (handler e (env b)) as [[u|err|] e']. Qed.


(** When the least event is dequeued, the earlier results of its query are not
    in the queue any more. *)
Lemma earlier_not_queued (l : list QueryResult) e r (rest : list QueryResult) :
  StronglySorted in_order l -> e ∈ l -> r ∈ l -> qr_query_id r = qr_query_id e -> qr_sequence r < qr_sequence e ->
  (forall y, y ∈ rest -> key_le (order_key e) (order_key y)) -> r ∉ rest.
Proof.
  intros Hs He Hr Hq Hlt Hleast Hin. assert (Ho : in_order r e).
  { clear Hleast Hin. induction Hs as [|x l Hs IH Hx]; [set_solver|]. rewrite Forall_forall in Hx.
    apply elem_of_cons in He as [->|He], Hr as [->|Hr].
    - lia.
    - pose proof (Hx r Hr (eq_sym Hq)) as [? _]. lia.
    - by apply Hx.
    - by apply IH. }
  destruct (Ho Hq) as [_ Ht]. apply (Hleast r Hin). unfold order_key, result_order, cmp, pair_ord, cmp_then, cmp, Z_ord. cbn.
  destruct (Z.compare_spec (meta_timestamp (qr_meta e)) (meta_timestamp (qr_meta r))); [|lia|done].
  by apply Z.compare_gt_iff.
Qed.

Lemma dequeued_accounted b b' e (rest : list QueryResult) :
  StronglySorted in_order (arrived b) -> running b -> grows b b' ->
  heap (priority_queue b) ≡ₚ e :: rest -> (forall y, y ∈ rest -> key_le (order_key e) (order_key y)) ->
  accounted b' e ->
  forall r, r ∈ arrived b -> qr_query_id r = qr_query_id e -> qr_sequence r <= qr_sequence e -> accounted b' r.
Proof.
  intros Hs [Hq Hrest] Hg Hheap Hleast He r Ha Hqr Hle.
  assert (Hea : e ∈ arrived b) by (apply Hq; rewrite Hheap; set_solver).
  destruct (Hrest r Ha) as [Hin|Hacc]; [|by apply (grows_accounted b)]. rewrite Hheap in Hin.
  apply elem_of_cons in Hin as [->|Hin]; [done|].
  destruct (decide (qr_sequence r = qr_sequence e)) as [Heq|Hne].
  - assert (r = e) as ->; [|done]. clear -Hs Ha Hea Hqr Heq. induction Hs as [|x l Hs IH Hx]; [set_solver|].
    rewrite Forall_forall in Hx. apply elem_of_cons in Ha as [->|Ha], Hea as [->|Hea]; [done| | |by apply IH].
    + destruct (Hx e Hea Hqr). lia.
    + destruct (Hx r Ha (eq_sym Hqr)). lia.
  - exfalso. by eapply (earlier_not_queued (arrived b) e r rest); try done; lia.
Qed.

(** The state in which the checkpoint is moved to the event handled. *)
Lemma handled_ok b b1 e (rest : list QueryResult) :
  StronglySorted in_order (arrived b) -> running b -> sound b ->
  heap (priority_queue b) ≡ₚ e :: rest -> (forall y, y ∈ rest -> key_le (order_key e) (order_key y)) ->
  grows b b1 -> heap (priority_queue b1) = rest -> accounted b1 e ->
  (all_readable b1 /\ forall q cp, known b1 q cp -> known b q cp \/ cp_sequence cp <= 0) ->
  sound b1 /\ running b1 /\ backed b1 (qr_query_id e) (qr_sequence e).
Proof.
  intros Hs Hrun Hsound Hheap Hleast Hg Hrest He [Hrd Hkn].
  assert (Hea : e ∈ arrived b) by (apply (r_queued _ Hrun); rewrite Hheap; set_solver).
  split; [|split].
  - split; [done|]. intros q cp [Hk|Hk]%Hkn; [|by left]. apply (grows_backed b); [done|]. by apply (s_known _ Hsound).
  - split; rewrite Hrest, (g_arrived _ _ Hg).
    + intros r Hr. apply (r_queued _ Hrun). rewrite Hheap. set_solver.
    + intros r Hr. destruct (r_rest _ Hrun r Hr) as [Hin|Hacc]; [|right; by apply (grows_accounted b)].
      rewrite Hheap in Hin. apply elem_of_cons in Hin as [->|Hin]; [by right|by left].
  - right. right. exists e. rewrite (g_arrived _ _ Hg). split_and!; [done..|].
    by eapply (dequeued_accounted b).
Qed.

Definition step_ok (m : SM Base LoopError unit) b : Prop :=
  sound (m b).2 /\ ((m b).1 = Ok tt -> running (m b).2).

Lemma persist_step_ok q n b : sound b -> running b -> backed b q n -> step_ok (persist_after_side_effect rid policy q n) b.
Proof.
  intros Hs Hr Hb. destruct (only_moves_persist_after policy q n b (s_readable _ Hs)) as [Hm _]. split.
  - by eapply moves_sound.
  - intros _. by eapply moves_running.
Qed.

Lemma turn_ok b :
  StronglySorted in_order (arrived b) -> sound b -> running b -> step_ok (loop_turn handler rid policy) b.
Proof.
  intros Hs Hsound Hrun. unfold step_ok, loop_turn. rewrite (sm_bind_ok sm_get _ b b b eq_refl).
  pose proof (try_dequeue_spec (priority_queue b)) as Hd. destruct (try_dequeue (priority_queue b)) as [[e|] q1]; [|done].
  destruct Hd as (Hheap & Hleast & _). rewrite (sm_bind_ok (modify _) _ b tt (set_queue q1 b) eq_refl).
  destruct (refresh_spec (set_queue q1 b) (qr_query_id e)) as (cp & Hr & Hcp).
  { exact (s_readable _ Hsound). }
  rewrite (sm_bind_ok _ _ _ _ _ Hr). clear Hr.
  assert (H2 : moves (qr_query_id e) 0 (set_queue q1 b)
    (set_checkpoints (<[qr_query_id e := cp]> (checkpoints (set_queue q1 b))) (set_queue q1 b))).
  { apply set_known_moves. destruct Hcp as [?|?]; auto. }
  set (b2 := set_checkpoints _ (set_queue q1 b)) in *.
  assert (Hg : grows b b2) by by split.
  assert (Hk : all_readable b2 /\ forall q cp, known b2 q cp -> known b q cp \/ cp_sequence cp <= 0).
  { split; [apply (mv_readable _ _ _ _ H2), (s_readable _ Hsound)|].
    intros q c [Hk|[Hk|[_ ->]]]%(mv_known _ _ _ _ H2); [by left|by right|by right]. }
  assert (Hea : e ∈ arrived b) by (apply (r_queued _ Hrun); rewrite Hheap; set_solver).
  destruct (Z.leb_spec (qr_sequence e) (cp_sequence cp)) as [Hle|Hlt].
  { assert (Hacc : accounted b2 e).
    { apply (grows_accounted b); [done|]. apply (backed_accounted b (qr_query_id e) (cp_sequence cp)); [|done..].
      destruct Hcp as [Hc|Hc]; [|left; lia]. by apply (s_known _ Hsound). }
    destruct (handled_ok b b2 e (heap q1)) as (H3 & H4 & _); try done. }
  rewrite call_handler_bind.
  assert (Hstop : forall e', sound (set_env e' b2)).
  { intros e'. split; [apply Hk|]. intros q c [Hc|Hc]%(proj2 Hk); [|by left].
    apply (grows_backed b); [by split|by apply (s_known _ Hsound)]. }
  destruct (handler e (env b2)) as [[[]|err|] e']; cbn -[persist_after_side_effect].
  - destruct (handled_ok b (log_delivered e (set_env e' b2)) e (heap q1)) as (H3 & H4 & H5); try done.
    { split; [done| |done]. intros r Hr. cbn. set_solver. }
    { left. cbn. set_solver. }
    exact (persist_step_ok _ _ _ H3 H4 H5).
  - destruct (failure_action policy) eqn:Hp; cbn -[persist_after_side_effect].
    + split; [|done]. eapply (moves_sound (qr_query_id e) 0 (set_env e' b2)); [|by left|apply Hstop].
      apply (only_moves_status (qr_query_id e) 0 Error). apply (s_readable _ (Hstop e')).
    + destruct (handled_ok b (log_given_up e (set_env e' b2)) e (heap q1)) as (H3 & H4 & H5); try done.
      { split; [done|done|]. intros r Hr. cbn. set_solver. }
      { right. left. split; [by destruct policy|]. cbn. set_solver. }
      exact (persist_step_ok _ _ _ H3 H4 H5).
  - split; [apply Hstop|done].
Qed.

(** An event appends to what arrived. *)
Lemma arrive_ok r b :
  StronglySorted in_order (arrived b ++ [r]) -> sound b -> running b -> step_ok (modify (enqueue_result r)) b.
Proof.
  intros Hs Hsound Hrun. unfold step_ok, modify. cbn. unfold enqueue_result, enqueue_wait_turn.
  destruct (has_room (priority_queue b)) eqn:Hroom; cbn.
  2:{ split; [|intros _]; [destruct Hsound; split|destruct Hrun; split]; done. }
  assert (Hacc : forall x b', delivered b' = delivered b -> given_up b' = given_up b -> accounted b x -> accounted b' x).
  { intros x b' Hd Hg. unfold accounted. by rewrite Hd, Hg. }
  split; [|intros _].
  - destruct Hsound as [Hrd Hk]. split; [done|]. intros q cp Hc. destruct (Hk q cp Hc) as [?|[?|(e & He & Hq & Hn & Hr)]];
      [by left|by right; left|]. right; right. exists e. cbn. split_and!; [set_solver|done..|].
    intros r' [Hr'|Hr']%elem_of_app Hq' Hle; [by apply (Hacc r'); [..|apply Hr]|].
    apply list_elem_of_singleton in Hr' as ->. exfalso.
    assert (Ho : in_order e r).
    { clear -Hs He. induction (arrived b) as [|x l IH]; [set_solver|]. cbn in Hs. apply StronglySorted_inv in Hs as [Hs Hx].
      apply elem_of_cons in He as [->|He]; [|by apply IH]. rewrite Forall_forall in Hx. apply Hx. set_solver. }
    destruct Ho; [congruence|lia].
  - destruct Hrun as [Hq Hr]. split; cbn.
    + intros x [->|Hx]%elem_of_cons; [set_solver|]. apply elem_of_app. left. by apply Hq.
    + intros x [Hx|Hx]%elem_of_app; [|left; set_solver]. destruct (Hr x Hx) as [Hin|Ha]; [left; set_solver|right].
      by apply (Hacc x).
Qed.

Lemma host_ok q cp b : told q cp -> sound b -> running b -> step_ok (host_writes rid q cp) b.
Proof.
  intros Ht Hs Hr. unfold step_ok, host_writes. destruct (only_moves_write q cp b (s_readable _ Hs)) as [Hm _].
  destruct (base_write_checkpoint rid q cp b) as [r b']. cbn in *. split.
  - eapply moves_sound; [done| |done]. right. left. by exists cp.
  - intros _. by eapply moves_running.
Qed.

Definition extends b b' : Prop := all_readable b' /\ exists l, arrived b' = arrived b ++ l.

Lemma moves_extends q n b b' : all_readable b -> moves q n b b' -> extends b b'.
Proof.
  intros Hb Hm. split; [by apply (mv_readable _ _ _ _ Hm)|]. exists []. by rewrite app_nil_r, (mv_arrived _ _ _ _ Hm).
Qed.

Lemma event_extends ev b : all_readable b -> extends b (loop_event handler rid policy ev b).2.
Proof.
  intros Hb. assert (Hsame : extends b b) by by apply (moves_extends "" 0), moves_refl.
  destruct ev as [r|q cp|]; cbn [loop_event].
  - unfold modify. cbn. unfold enqueue_result. destruct (enqueue_wait_turn r (priority_queue b)) as [[] q]; cbn; [|done].
    split; [done|by exists [r]].
  - unfold host_writes. destruct (only_moves_write q cp b Hb) as [Hm _].
    destruct (base_write_checkpoint rid q cp b). by apply (moves_extends q (cp_sequence cp)).
  - unfold loop_turn. rewrite (sm_bind_ok sm_get _ b b b eq_refl).
    destruct (try_dequeue (priority_queue b)) as [[e|] q1]; [|done].
    rewrite (sm_bind_ok (modify _) _ b tt (set_queue q1 b) eq_refl).
    destruct (refresh_spec (set_queue q1 b) (qr_query_id e)) as (cp & Hr & Hcp); [done|].
    rewrite (sm_bind_ok _ _ _ _ _ Hr). clear Hr. destruct (_ <=? _); [done|].
    set (b2 := set_checkpoints _ (set_queue q1 b)). rewrite call_handler_bind.
    destruct (handler e (env b2)) as [[[]|err|] e']; cbn -[persist_after_side_effect]; [| |done].
    + exact (moves_extends _ _ (log_delivered e (set_env e' b2)) _ Hb (proj1
        (only_moves_persist_after policy (qr_query_id e) (qr_sequence e) (log_delivered e (set_env e' b2)) Hb))).
    + destruct (failure_action policy); [done|].
      exact (moves_extends _ _ (log_given_up e (set_env e' b2)) _ Hb (proj1
        (only_moves_persist_after policy (qr_query_id e) (qr_sequence e) (log_given_up e (set_env e' b2)) Hb))).
Qed.

Definition run_events (script : list LoopEvent) : SM Base LoopError unit :=
  sm_foldl (fun _ ev => loop_event handler rid policy ev) tt script.

Lemma run_events_snoc script ev b :
  run_events (script ++ [ev]) b = match run_events script b with
                                  | (Ok _, b1) => loop_event handler rid policy ev b1
                                  | r => r
                                  end.
Proof.
  unfold run_events. rewrite sm_foldl_app. unfold mbind, SM_bind.
  destruct (sm_foldl _ tt script b) as [[u|e|] b1]; [|done|done]. cbn. unfold mbind, SM_bind.
  by destruct (loop_event handler rid policy ev b1) as [[[]|e|] b2].
Qed.

Lemma run_extends script b : all_readable b -> extends b (run_events script b).2.
Proof.
  intros Hb. induction script as [|ev script IH] using rev_ind; [split; [done|exists []; by rewrite app_nil_r]|].
  rewrite run_events_snoc. destruct (run_events script b) as [[u|e|] b1]; [|done|done].
  destruct IH as [H1 [l Hl]]. destruct (event_extends ev b1 H1) as [H2 [l' Hl']]. split; [done|].
  exists (l ++ l'). cbn in *. by rewrite Hl', Hl, app_assoc.
Qed.

Lemma sorted_prefix (l l' : list QueryResult) : StronglySorted in_order (l ++ l') -> StronglySorted in_order l.
Proof.
  induction l as [|x l IH]; cbn; [constructor|]. intros [Hs Hx]%StronglySorted_inv. constructor; [by apply IH|].
  rewrite Forall_app in Hx. by destruct Hx.
Qed.

Lemma event_ok ev b :
  (forall q cp, ev = HostWrites q cp -> told q cp) ->
  StronglySorted in_order (arrived (loop_event handler rid policy ev b).2) -> sound b -> running b ->
  step_ok (loop_event handler rid policy ev) b.
Proof.
  intros Ht Hs Hsound Hrun. destruct ev as [r|q cp|]; cbn [loop_event] in *.
  - destruct (has_room (priority_queue b)) eqn:Hroom.
    + apply arrive_ok; [|done..]. unfold modify, enqueue_result, enqueue_wait_turn in Hs. by rewrite Hroom in Hs.
    + unfold step_ok, modify, enqueue_result, enqueue_wait_turn. rewrite Hroom. cbn.
      split; [|intros _]; [destruct Hsound; split|destruct Hrun; split]; done.
  - by apply host_ok; [apply Ht|..].
  - apply turn_ok; [|done..]. destruct (event_extends Turn b (s_readable _ Hsound)) as [_ [l Hl]].
    cbn [loop_event] in Hl. rewrite Hl in Hs. by apply sorted_prefix in Hs.
Qed.

Lemma script_run_ok script b :
  (forall q cp, HostWrites q cp ∈ script -> told q cp) ->
  StronglySorted in_order (arrived (run_events script b).2) -> sound b -> running b -> step_ok (run_events script) b.
Proof.
  intros Ht Hs Hsound Hrun. unfold step_ok. induction script as [|ev script IH] using rev_ind; [done|].
  rewrite run_events_snoc in *. pose proof (run_extends script b (s_readable _ Hsound)) as Hext.
  destruct (run_events script b) as [[[]|e|] b1]; cbn in *; [|by apply IH; [set_solver|]..].
  destruct IH as [H1 H2]; [set_solver| |].
  - destruct (event_extends ev b1 (proj1 Hext)) as [_ [l Hl]]. rewrite Hl in Hs. by apply sorted_prefix in Hs.
  - apply event_ok; [|done|done|by apply H2]. intros q cp ->. apply Ht. set_solver.
Qed.
End invariant.

(** The checkpoints the loop is told of by [script] when it starts in [b] *)
Definition told_by (initial : gmap string ReactionCheckpoint) (script : list LoopEvent) b (q : string)
    (cp : ReactionCheckpoint) : Prop :=
  initial !! q = Some cp \/ saved b q = Some cp \/ HostWrites q cp ∈ script.

(** [C9] At least once: whatever results arrive, whatever the host writes, whichever
    handler calls and store writes fail and wherever the loop stops, a result at or
    before the checkpoint in the store was handled successfully, or given up (which only
    [AutoSkipGap] does), or covered by a checkpoint from before or by the host's.
    While the loop runs, so is every result that is not in the queue any more.
    The results of a query have to arrive with growing sequences and with timestamps
    that do not go back. *)
Theorem checkpoint_never_passes_unhandled policy initial script b0 :
  arrived b0 = [] -> heap (priority_queue b0) = [] -> all_readable b0 ->
  let '(res, b) := run_standard_loop handler rid policy initial script b0 in
  StronglySorted in_order (arrived b) ->
  let told := told_by initial script b0 in
  (forall r cp, r ∈ arrived b -> saved b (qr_query_id r) = Some cp -> qr_sequence r <= cp_sequence cp ->
     accounted policy told b r) /\
  (res = Ok tt -> forall r, r ∈ arrived b -> r ∈ heap (priority_queue b) \/ accounted policy told b r).
Proof.
  intros Ha Hh Hr. unfold run_standard_loop. rewrite (sm_bind_ok load _ b0 tt _ eq_refl).
  set (b1 := {| priority_queue := _ |}). rewrite (sm_bind_ok (seed initial) _ b1 tt _ eq_refl).
  set (b2 := set_checkpoints _ b1). set (told := told_by initial script b0).
  change (sm_foldl _ tt script b2) with (run_events policy script b2).
  pose proof (script_run_ok policy told script b2) as Hrun. unfold step_ok in Hrun.
  destruct (run_events policy script b2) as [res b]; cbn in Hrun. intros Hs.
  destruct Hrun as [Hsound Hq]; [intros q cp ?; by right; right|done| | |].
  - split; [done|]. intros q cp Hk. right. left. exists cp. split; [|lia]. destruct Hk as [Hk|Hk].
    + left. cbn in Hk. by rewrite (left_id_L ∅ (∪)) in Hk.
    + by right; left.
  - split; cbn; rewrite Ha, ?Hh; set_solver.
  - split.
    + intros r cp Hin Hsv Hle. eapply backed_accounted; [|done|done|exact Hle]. apply (s_known _ _ _ Hsound). by right.
    + intros Hres. by apply (r_rest _ _ _ (Hq Hres)).
Qed.
End facts.
