(* ===== verification/ReactionSamples.v ===== *)
(** * A mirroring reaction on concrete runs

    A reaction whose state is its copy of the rows, subscribed to a query with
    an outbox of two entries: it follows a hole too large for the outbox, and
    loses results when the hole opens before its first one. The second part
    runs the queue and the standard loop. *)

From Stdlib Require Import Sorted.
From S2P Require Import Prelude QueryOutput QueryOutputFacts OutputStores StateStore ComponentGraph ReactionRecovery.
From S2P Require Import ReactionMirror BTree PriorityQueue ReactionLoop ReactionLoopFacts.

Import OutputExample.

#[local] Existing Instance payload.

(** ** An encoding of checkpoints *)

Fixpoint bits_of (p : positive) : Bytes :=
  match p with xH => [] | xO p => Byte.x00 :: bits_of p | xI p => Byte.x01 :: bits_of p end.
Fixpoint of_bits (l : Bytes) : positive :=
  match l with [] => xH | Byte.x00 :: l => xO (of_bits l) | _ :: l => xI (of_bits l) end.

Lemma decode_bits_of p : of_bits (bits_of p) = p.
Proof. induction p; cbn; congruence. Qed.

#[local] Instance codec : CheckpointCodec := {|
  bincode_serialize cp := Ok (bits_of (encode (cp_sequence cp, cp_config_hash cp)));
  bincode_deserialize b := match decode (of_bits b) with
                           | Some (s, h) => Ok {| cp_sequence := s; cp_config_hash := h |}
                           | None => Err "truncated"%string
                           end |}.

#[local] Instance codec_laws : CheckpointCodecLaws.
Proof. constructor. intros [s h]. eexists. split; [reflexivity|]. cbn. by rewrite decode_bits_of, decode_encode. Qed.

(** ** The reaction *)

Notation Copy := (gmap Z Z).
Notation MirrorWorld := (World (P:=payload) Copy MemoryStateStoreProvider).

Definition apply_to_copy (r : QueryResult) : SM Copy string unit := fun rows =>
  (Ok tt, fold_left (apply_diff (P:=payload)) (qr_results r) rows).

Definition load_copy (rows : gmap Z Z) (_ : Copy) : Copy := rows.

Definition mirroring (policy : ReactionRecoveryPolicy) : Reaction (P:=payload) (R:=Copy) (St:=MemoryStateStoreProvider) := {|
  reaction_id := "mirror"; query_ids := ["q"%string]; is_durable := false; needs_snapshot_on_fresh_start := true;
  default_recovery_policy := policy; enqueue_query_result := apply_to_copy;
  bootstrap := fun ctx => snapshot ← expect_fetch (ctx_fetch_snapshot ctx); load_with (P:=payload) load_copy snapshot |}.

#[local] Instance mirroring_copies policy : Mirror (mirroring policy).
Proof.
  refine (Build_Mirror payload _ _ (mirroring policy) (fun rows => rows) load_copy _ _ _).
  - done.
  - intros r x. by eexists.
  - done.
Defined.

(** ** Runs *)

Definition handle (o : QueryOutputState) : QueryHandle :=
  {| qh_output := o; qh_config_hash := 7; qh_status := Running; qh_volatile := false; qh_dispatching := []; qh_receiver := None |}.

Definition world (o : QueryOutputState) (sched : list (list QueryEvent)) : MirrorWorld :=
  {| queries := {[ "q"%string := handle o ]}; schedule := map (map (fun ev => ("q"%string, ev))) sched;
     reaction := ∅; state_store := Some new_state_store; shared_checkpoints := ∅ |}.

Definition row (k v : Z) : QueryEvent := Emitted (emission [@Add payload v k]).

(** Calls to the query in order: subscription, epoch hash, snapshot of the
    plan, snapshot of the hook, then what the forwarder asks. A row is emitted
    between the two snapshots; four more are emitted and the receiver keeps
    the last. *)
Definition slow_receiver : list (list QueryEvent) :=
  [[]; []; []; [row 2 20; Dispatched];
   [row 3 30; Dispatched; row 1 11; Dispatched; row 4 40; Dispatched; row 5 50; Dispatched; Dropped 4]].

Definition outcome_of (policy : ReactionRecoveryPolicy) (o : QueryOutputState) (sched : list (list QueryEvent)) (turns : nat) :
    outcome ReactionError ForwarderTurn * Copy * option (gmap Z Z * Z) :=
  let '(r, w) := (let re := mirroring policy in _ ← start_reaction; run_forwarder turns "q") (world o sched) in
  (r, reaction w, (fun h => (results (qh_output h) : gmap Z Z, as_of_sequence (qh_output h))) <$> queries w !! "q"%string).

(** AutoReset: the hole is larger than the outbox, and the copy is loaded
    again; Strict: the forwarder exits. *)
Example slow_receiver_recovers :
  let rows := list_to_map [(1, 11); (2, 20); (3, 30); (4, 40); (5, 50)] in
  outcome_of AutoReset opened slow_receiver 3 = (Ok (Forwarding 6), rows, Some (rows, 6)) /\
  (outcome_of Strict opened slow_receiver 3).1.1 = Ok Exited.
Proof. split; by_vm. Qed.

Lemma world_tracked sched :
  Forall (ordinary "q") (concat (schedule (world opened sched))) ->
  1 + emissions "q" (concat (schedule (world opened sched))) <= u64_max ->
  tracked "q" opened [] (world opened sched).
Proof.
  intros Ho Hr. split; [|done|].
  - exists (handle opened). split; [done|]. split; [done|by intros r ?%not_elem_of_nil|done].
  - exact Hr.
Qed.


(** Before its first result a forwarder notices no hole: a Strict reaction
    of a query that has emitted nothing yet goes on after two of three results
    were dropped on the way, reaches the head of the query, and its copy lacks
    their rows. *)
Theorem first_hole_goes_unseen :
  outcome_of Strict (new_output_state 2)
    [[]; []; []; []; [row 1 10; Dispatched; row 2 20; Dispatched; row 3 30; Dispatched; Dropped 2]] 2 =
  (Ok (Forwarding 3), list_to_map [(3, 30)], Some (list_to_map [(1, 10); (2, 20); (3, 30)], 3)).
Proof. by_vm. Qed.

(** ** Checkpoints in the store *)

Definition two_checkpoints : MemoryStateStoreProvider :=
  (write_checkpoint "mirror" "q" (checkpoint_at 4 7) new_state_store).2.

Lemma two_readable q : readable two_checkpoints "mirror" q.
Proof.
  pose proof (write_checkpoint_ok new_state_store "mirror" "q" (checkpoint_at 4 7)) as Hw. unfold two_checkpoints.
  destruct (write_checkpoint _ _ _ _) as [[u|e|] s'] eqn:Hr; [|by vm_compute in Hr..].
  apply Hw. left. unfold readable. cbn [stored memory_store_laws]. unfold ms_get, new_state_store. cbn [stores].
  by rewrite lookup_empty.
Qed.

Lemma batch_reads_each_witness :
  checkpoint_of two_checkpoints "mirror" "q" = Some (checkpoint_at 4 7) /\
  exists m, read_checkpoints_batch "mirror" ["p"; "q"]%string two_checkpoints = (Ok m, two_checkpoints) /\
    forall q, m !! q = if decide (q ∈ ["p"; "q"]%string) then ok_or None (read_checkpoint "mirror" q two_checkpoints).1 else None.
Proof. split; [by_vm|]. apply (batch_reads_each two_checkpoints "mirror"). intros q _. apply two_readable. Defined.

(** * The queue and the loop on concrete runs

    A heap that gives the first of the least events, a handler that cannot fail
    and a store in memory: a run in which every result is handled, and one in
    which the clock goes back between two results and the first is lost. *)

#[local] Existing Instance codec.
#[local] Existing Instance codec_laws.

(** ** A heap *)

Section select.
Context {T K : Type} `{QueueOrder T K}.

Fixpoint select_least (x : T) (l : list T) : T * list T :=
  match l with
  | [] => (x, [])
  | y :: l =>
      match cmp (order_key y) (order_key x) with
      | Lt => let '(m, r) := select_least y l in (m, x :: r)
      | _ => let '(m, r) := select_least x l in (m, y :: r)
      end
  end.

Lemma select_least_spec x l :
  let '(m, r) := select_least x l in
  x :: l ≡ₚ m :: r /\ key_le (order_key m) (order_key x) /\ forall y, y ∈ r -> key_le (order_key m) (order_key y).
Proof.
  revert x. induction l as [|y l IH]; intros x; cbn.
  { split; [done|]. split; [unfold key_le; by rewrite cmp_refl|set_solver]. }
  destruct (cmp (order_key y) (order_key x)) eqn:Hc.
  2:{ specialize (IH y). destruct (select_least y l) as [m r]. destruct IH as (Hp & Hm & Hr).
      assert (Hx : key_le (order_key m) (order_key x)).
      { eapply key_le_trans; [exact Hm|]. unfold key_le. by rewrite Hc. }
      split; [by rewrite Hp, perm_swap|]. split; [done|]. intros z [->|Hz]%elem_of_cons; [done|by apply Hr]. }
  all: specialize (IH x); destruct (select_least x l) as [m r]; destruct IH as (Hp & Hm & Hr);
    (assert (Hy : key_le (order_key m) (order_key y));
       [eapply key_le_trans; [exact Hm|]; unfold key_le; rewrite (cmp_sym (order_key y)), Hc; done|]);
    (split; [rewrite perm_swap, Hp; apply perm_swap|]); (split; [done|]);
    intros z [->|Hz]%elem_of_cons; [done|by apply Hr].
Qed.

Definition pop_least (l : list T) : option (T * list T) :=
  match l with [] => None | x :: l => Some (select_least x l) end.

#[global] Instance least_heap : BinaryHeap T K.
Proof.
  refine {| heap_pop := pop_least |}.
  - by intros [].
  - intros [|x l] m r; cbn; [done|]. intros [= Hs]. pose proof (select_least_spec x l) as Hl. rewrite Hs in Hl.
    destruct Hl as (? & _ & ?). done.
Defined.
End select.

(** ** Results *)

#[local] Instance timed : Payload := {| Json := Z; ResultMeta := Z |}.
#[local] Instance timed_results : ResultTime := {| meta_timestamp t := t |}.

Definition result (sequence time : Z) : QueryResult (P:=timed) :=
  {| qr_query_id := "q"; qr_sequence := sequence; qr_results := []; qr_meta := time |}.

Lemma drained_in_order_witness :
  let q := push (result 7 5) (push (result 6 9) (push (result 5 5) (new_queue 3))) in
  (depth q <= 3)%nat /\ fst <$> Some (dequeue_all 3 q) = Some [result 5 5; result 7 5; result 6 9] /\
  let '(l, q') := dequeue_all 3 q in
  l ≡ₚ heap q /\ heap q' = [] /\ StronglySorted (fun a b => key_le (order_key a) (order_key b)) l.
Proof.
  split; [by vm_compute; lia|]. split; [by_vm|].
  apply (drained_in_order (push (result 7 5) (push (result 6 9) (push (result 5 5) (new_queue 3)))) 3).
  vm_compute. lia.
Defined.

(** ** The loop *)

Definition base (capacity : nat) : ReactionBase (P:=timed) MemoryStateStoreProvider (list Z) :=
  {| priority_queue := new_queue capacity; rb_store := Some new_state_store; rb_status := Running; env := [];
     checkpoints := ∅; has_store := false; delivered := []; given_up := []; arrived := [] |}.

Definition write_down (r : QueryResult (P:=timed)) : SM (list Z) string unit := fun l => (Ok tt, l ++ [qr_sequence r]).

Definition steady : list LoopEvent :=
  [Arrives (result 1 100); Arrives (result 2 100); Turn; HostWrites "q" (checkpoint_at 3 9);
   Arrives (result 3 101); Arrives (result 4 105); Turn; Turn; Turn; Turn].

Definition run_on (policy : ReactionRecoveryPolicy) (script : list LoopEvent) :=
  run_standard_loop write_down "r" policy ∅ script (base 10).

(** Result 2 is still in the queue when the host writes that 3 are covered. *)
Example steady_run :
  (fun r => (r.1, env r.2, map qr_sequence (arrived r.2), saved "r" r.2 "q")) (run_on Strict steady) =
  (Ok tt, [1; 4], [1; 2; 3; 4], Some (checkpoint_at 4 9)).
Proof. by_vm. Qed.

Definition in_order_b (r r' : QueryResult (P:=timed)) : bool :=
  (qr_sequence r <? qr_sequence r') && ((qr_meta r : Z) <=? qr_meta r').

Fixpoint sorted_b (l : list (QueryResult (P:=timed))) : bool :=
  match l with [] => true | r :: l => forallb (in_order_b r) l && sorted_b l end.

Lemma sorted_b_ok l : sorted_b l = true -> StronglySorted in_order l.
Proof.
  induction l as [|r l IH]; cbn; [constructor|]. intros [Hr Hl]%andb_true_iff. constructor; [by apply IH|].
  rewrite forallb_forall in Hr. apply List.Forall_forall. intros r' Hr' _. specialize (Hr r' Hr').
  unfold in_order_b in Hr. cbn. lia.
Qed.

Lemma new_store_readable capacity : all_readable "r" (base capacity).
Proof.
  intros s q. intros Hs. apply (inj Some) in Hs as <-. unfold readable. cbn [stored memory_store_laws].
  unfold ms_get, new_state_store. cbn [stores]. by rewrite lookup_empty.
Qed.

Lemma checkpoint_never_passes_unhandled_witness :
  let '(res, b) := run_on Strict steady in
  StronglySorted in_order (arrived b) /\
  let told := told_by "r" ∅ steady (base 10) in
  (forall r cp, r ∈ arrived b -> saved "r" b (qr_query_id r) = Some cp -> qr_sequence r <= cp_sequence cp ->
     accounted Strict told b r) /\
  (res = Ok tt -> forall r, r ∈ arrived b -> r ∈ heap (priority_queue b) \/ accounted Strict told b r).
Proof.
  assert (Hs : sorted_b (arrived (run_on Strict steady).2) = true) by by_vm.
  pose proof (checkpoint_never_passes_unhandled write_down "r" Strict ∅ steady (base 10) eq_refl eq_refl (new_store_readable 10)) as H.
  unfold run_on in *. destruct (run_standard_loop write_down "r" Strict ∅ steady (base 10)) as [res b].
  apply sorted_b_ok in Hs. split; [exact Hs|exact (H Hs)].
Defined.

(** The second result was emitted after the first, at an earlier time of the
    wall clock. *)
Definition clock_stepped_back : list LoopEvent :=
  [Arrives (result 1 100); Arrives (result 2 90); Turn; Turn].

(** The queue is ordered by timestamp before sequence, and timestamps are
    those of the wall clock: when the clock steps back between two results of
    a query, both in the queue, the later one is handled first, its checkpoint
    is written, and the earlier one is skipped as already processed. Nothing
    fails, and under no policy is the handler ever called with it. *)
Theorem clock_step_back_loses_result policy :
  (let '(res, b) := run_on policy clock_stepped_back in
   (res, heap (priority_queue b), map qr_sequence (arrived b), env b, given_up b, saved "r" b "q")) =
  (Ok tt, [], [1; 2], [2], [], Some (checkpoint_at 2 0)).
Proof. destruct policy; by_vm. Qed.
