(* ===== verification/SourceBase.v ===== *)
(** * The base of a source (lib/src/sources/base.rs, sources/traits.rs,
      channels/dispatcher.rs)

    A source hands its events to its subscribers through dispatchers, one per
    subscriber or one for all. It numbers the events, keeps their timestamps
    from going back, remembers for each subscriber how far it has come so that
    a rewound stream is not delivered again, and translates the progress the
    subscribers confirm into a position of its own. The tasks of a source, its
    status and its logs are left out; a full channel makes the dispatch wait,
    which is not a step of its own. *)

From S2P Require Import Prelude BTree Floats Hashing Ast Models Errors Values ResultIndex Contexts.
From S2P Require Import FutureQueue Session ContinuousQuery QueryOutput OutputStores OutputPipeline PriorityQueue.

(** [ByteLexPositionComparator]: bytes are compared as numbers, and a proper
    prefix is less. *)
Fixpoint bytes_after (event_pos resume_pos : Bytes) : bool :=
  match event_pos, resume_pos with
  | [], _ => false
  | _ :: _, [] => true
  | a :: l, b :: m =>
      let a := Byte.to_N a in
      let b := Byte.to_N b in
      if (a =? b)%N then bytes_after l m else (b <? a)%N
  end.

Inductive DispatchMode := Broadcast | Channel.

#[global] Instance DispatchMode_eq_dec : EqDecision DispatchMode.
Proof. solve_decision. Defined.

Record SourceSubscriptionSettings := {
  sub_query_id : string;
  enable_bootstrap : bool;
  resume_from : option Bytes;
  resume_sequence : option Z;
  request_position_handle : bool;
}.

(** An [Arc<AtomicU64>] with the number of its holders besides the source *)
Record PositionHandle := { confirmed : Z; holders : nat }.

Section base.
Context {C : Chrono}.

Record SourceEventWrapper := {
  w_source_id : string;
  w_event : SourceEvent;
  w_timestamp : Z;
  w_source_position : option Bytes;
  w_sequence : Z;
}.

#[global] Instance wrapper_key : SourceEventKey SourceEventWrapper :=
  {| event_timestamp := w_timestamp; event_sequence := w_sequence |}.

(** A dispatcher: of which kind, what it has been given, and whether the
    receiver of a channel is still there *)
Record ChangeDispatcher := {
  d_mode : DispatchMode;
  d_sent : list SourceEventWrapper;
  d_open : bool;
}.

Definition new_dispatcher (mode : DispatchMode) : ChangeDispatcher := {| d_mode := mode; d_sent := []; d_open := true |}.

(** [dispatch_change]: a broadcast without receivers succeeds, a channel
    without its receiver fails. *)
Definition dispatch_change (w : SourceEventWrapper) (d : ChangeDispatcher) : option ChangeDispatcher :=
  match d_mode d, d_open d with
  | Channel, false => None
  | _, _ => Some {| d_mode := d_mode d; d_sent := d_sent d ++ [w]; d_open := d_open d |}
  end.

Record SourceBase := {
  id : string;
  dispatch_mode : DispatchMode;
  dispatchers : list ChangeDispatcher;
  has_bootstrap_provider : bool;
  (* the handle of each query, and the handles that exist *)
  handle_of : gmap string nat;
  handles : gmap nat PositionHandle;
  next_sequence : Z;
  (* the last timestamp; None is the least one, MIN_UTC *)
  dispatch_order : option Z;
  subscriber_resume_positions : gmap nat Bytes;
  position_comparator : option (Bytes -> Bytes -> bool);
  sequence_position_map : btree Z Bytes;
  bootstrap_boundary : option Bytes;
  pending_initial_bootstrap : bool;
}.

Definition with_dispatchers (l : list ChangeDispatcher) (sb : SourceBase) : SourceBase :=
  {| id := id sb; dispatch_mode := dispatch_mode sb; dispatchers := l;
     has_bootstrap_provider := has_bootstrap_provider sb; handle_of := handle_of sb; handles := handles sb;
     next_sequence := next_sequence sb; dispatch_order := dispatch_order sb;
     subscriber_resume_positions := subscriber_resume_positions sb; position_comparator := position_comparator sb;
     sequence_position_map := sequence_position_map sb; bootstrap_boundary := bootstrap_boundary sb;
     pending_initial_bootstrap := pending_initial_bootstrap sb |}.

Definition with_handles (by_query : gmap string nat) (cells : gmap nat PositionHandle) (sb : SourceBase) : SourceBase :=
  {| id := id sb; dispatch_mode := dispatch_mode sb; dispatchers := dispatchers sb;
     has_bootstrap_provider := has_bootstrap_provider sb; handle_of := by_query; handles := cells;
     next_sequence := next_sequence sb; dispatch_order := dispatch_order sb;
     subscriber_resume_positions := subscriber_resume_positions sb; position_comparator := position_comparator sb;
     sequence_position_map := sequence_position_map sb; bootstrap_boundary := bootstrap_boundary sb;
     pending_initial_bootstrap := pending_initial_bootstrap sb |}.

Definition with_ordering (sequence : Z) (last : option Z) (positions : btree Z Bytes) (sb : SourceBase) : SourceBase :=
  {| id := id sb; dispatch_mode := dispatch_mode sb; dispatchers := dispatchers sb;
     has_bootstrap_provider := has_bootstrap_provider sb; handle_of := handle_of sb; handles := handles sb;
     next_sequence := sequence; dispatch_order := last;
     subscriber_resume_positions := subscriber_resume_positions sb; position_comparator := position_comparator sb;
     sequence_position_map := positions; bootstrap_boundary := bootstrap_boundary sb;
     pending_initial_bootstrap := pending_initial_bootstrap sb |}.

Definition with_marks (marks : gmap nat Bytes) (sb : SourceBase) : SourceBase :=
  {| id := id sb; dispatch_mode := dispatch_mode sb; dispatchers := dispatchers sb;
     has_bootstrap_provider := has_bootstrap_provider sb; handle_of := handle_of sb; handles := handles sb;
     next_sequence := next_sequence sb; dispatch_order := dispatch_order sb;
     subscriber_resume_positions := marks; position_comparator := position_comparator sb;
     sequence_position_map := sequence_position_map sb; bootstrap_boundary := bootstrap_boundary sb;
     pending_initial_bootstrap := pending_initial_bootstrap sb |}.

Definition with_boundary (boundary : option Bytes) (pending : bool) (sb : SourceBase) : SourceBase :=
  {| id := id sb; dispatch_mode := dispatch_mode sb; dispatchers := dispatchers sb;
     has_bootstrap_provider := has_bootstrap_provider sb; handle_of := handle_of sb; handles := handles sb;
     next_sequence := next_sequence sb; dispatch_order := dispatch_order sb;
     subscriber_resume_positions := subscriber_resume_positions sb; position_comparator := position_comparator sb;
     sequence_position_map := sequence_position_map sb; bootstrap_boundary := boundary;
     pending_initial_bootstrap := pending |}.

(** [SourceBase::new] with the comparator a source sets when it is built; only
    broadcasting has a dispatcher from the start. *)
Definition source_base_new (source_id : string) (mode : option DispatchMode) (provider : bool)
    (comparator : option (Bytes -> Bytes -> bool)) : SourceBase :=
  let mode := default Channel mode in
  {| id := source_id; dispatch_mode := mode;
     dispatchers := match mode with Broadcast => [new_dispatcher Broadcast] | Channel => [] end;
     has_bootstrap_provider := provider; handle_of := ∅; handles := ∅; next_sequence := 1; dispatch_order := None;
     subscriber_resume_positions := ∅; position_comparator := comparator; sequence_position_map := [];
     bootstrap_boundary := None; pending_initial_bootstrap := false |}.

(** ** Sequences *)

(** [fetch_max]: never lowers the counter. *)
Definition raise_next_sequence (floor : Z) (sb : SourceBase) : SourceBase :=
  with_ordering (Z.max (next_sequence sb) floor) (dispatch_order sb) (sequence_position_map sb) sb.
Definition set_next_sequence (sequence : Z) : SourceBase -> SourceBase := raise_next_sequence (saturating_add sequence 1).
Definition raise_sequence_floor (settings : SourceSubscriptionSettings) (sb : SourceBase) : SourceBase :=
  match resume_sequence settings with Some n => set_next_sequence n sb | None => sb end.

(** [fetch_add(1)] *)
Definition take_sequence (sb : SourceBase) : Z * SourceBase :=
  (next_sequence sb, with_ordering (as_u64 (next_sequence sb + 1)) (dispatch_order sb) (sequence_position_map sb) sb).

(** ** Dispatching *)

Definition next_monotonic_timestamp (last : option Z) (candidate : Z) : Z :=
  match last with Some l => Z.max candidate l | None => candidate end.

Definition with_timestamp (t : Z) (w : SourceEventWrapper) : SourceEventWrapper :=
  {| w_source_id := w_source_id w; w_event := w_event w; w_timestamp := t;
     w_source_position := w_source_position w; w_sequence := w_sequence w |}.

(** Whether the mark of a subscriber holds an event back *)
Definition suppressed (comparator : option (Bytes -> Bytes -> bool)) (mark pos : option Bytes) : bool :=
  match comparator, mark, pos with
  | Some after, Some mark, Some pos => negb (after pos mark)
  | _, _, _ => false
  end.

(** One dispatcher: as it is afterwards, with its new mark *)
Definition deliver_to (comparator : option (Bytes -> Bytes -> bool)) (marks : gmap nat Bytes) (w : SourceEventWrapper)
    (idx : nat) (d : ChangeDispatcher) : ChangeDispatcher * option Bytes :=
  if suppressed comparator (marks !! idx) (w_source_position w) then (d, None)
  else match dispatch_change w d with
       | Some d => (d, w_source_position w)
       | None => (d, None)
       end.

(** All the dispatchers, from [idx] on *)
Fixpoint deliver_all (comparator : option (Bytes -> Bytes -> bool)) (marks : gmap nat Bytes) (w : SourceEventWrapper)
    (idx : nat) (l : list ChangeDispatcher) : list ChangeDispatcher * list (nat * Bytes) :=
  match l with
  | [] => ([], [])
  | d :: l =>
      let '(d, mark) := deliver_to comparator marks w idx d in
      let '(l, updates) := deliver_all comparator marks w (Datatypes.S idx) l in
      (d :: l, match mark with Some p => (idx, p) :: updates | None => updates end)
  end.

Definition advance_marks (updates : list (nat * Bytes)) (marks : gmap nat Bytes) : gmap nat Bytes :=
  fold_left (fun marks u => <[u.1 := u.2]> marks) updates marks.

Definition dispatch_event_ordered (w : SourceEventWrapper) (sb : SourceBase) : SourceBase :=
  let sb := set_next_sequence (w_sequence w) sb in
  let t := next_monotonic_timestamp (dispatch_order sb) (w_timestamp w) in
  let w := with_timestamp t w in
  let positions := match w_source_position w with
                   | Some pos => bt_insert (w_sequence w) pos (sequence_position_map sb)
                   | None => sequence_position_map sb
                   end in
  let sb := with_ordering (next_sequence sb) (Some t) positions sb in
  let '(l, updates) := deliver_all (position_comparator sb) (subscriber_resume_positions sb) w 0 (dispatchers sb) in
  with_marks (advance_marks updates (subscriber_resume_positions sb)) (with_dispatchers l sb).

Definition dispatch_event : SourceEventWrapper -> SourceBase -> SourceBase := dispatch_event_ordered.

Definition dispatch_events_batch (events : list SourceEventWrapper) (sb : SourceBase) : SourceBase :=
  fold_left (fun sb w => dispatch_event_ordered w sb) events sb.

(** An event of the framework: its number is taken under the same lock. *)
Definition dispatch_allocated (event : SourceEvent) (now : Z) (sb : SourceBase) : SourceBase :=
  let '(n, sb) := take_sequence sb in
  dispatch_event_ordered
    {| w_source_id := id sb; w_event := event; w_timestamp := now; w_source_position := None; w_sequence := n |} sb.

Definition dispatch_source_change (change : SourceChange) : Z -> SourceBase -> SourceBase := dispatch_allocated (Change change).
Definition broadcast_control (control : SourceControl) : Z -> SourceBase -> SourceBase := dispatch_allocated (Control control).

(** ** Positions the subscribers confirm *)

(** A handle a query has already is given out again. *)
Definition create_position_handle (query_id : string) (sb : SourceBase) : nat * SourceBase :=
  match handle_of sb !! query_id with
  | Some h =>
      (h, with_handles (handle_of sb)
            (alter (fun c => {| confirmed := confirmed c; holders := Datatypes.S (holders c) |}) h (handles sb)) sb)
  | None =>
      let h := fresh (dom (handles sb)) in
      (h, with_handles (<[query_id := h]> (handle_of sb)) (<[h := {| confirmed := u64_max; holders := 1 |}]> (handles sb)) sb)
  end.

Definition remove_position_handle (query_id : string) (sb : SourceBase) : SourceBase :=
  with_handles (delete query_id (handle_of sb)) (handles sb) sb.

(** [handle.store(value)], by whoever holds it *)
Definition store_handle (h : nat) (value : Z) (sb : SourceBase) : SourceBase :=
  with_handles (handle_of sb) (alter (fun c => {| confirmed := value; holders := holders c |}) h (handles sb)) sb.

(** A subscriber lets go of its handle. *)
Definition drop_handle (h : nat) (sb : SourceBase) : SourceBase :=
  with_handles (handle_of sb)
    (alter (fun c => {| confirmed := confirmed c; holders := Nat.pred (holders c) |}) h (handles sb)) sb.

Definition held (sb : SourceBase) (h : nat) : bool :=
  match handles sb !! h with Some c => negb (Nat.eqb (holders c) 0) | None => false end.

Definition cleanup_stale_handles (sb : SourceBase) : SourceBase :=
  with_handles (base.filter (fun e => held sb e.2 = true) (handle_of sb)) (handles sb) sb.

(** The least of the values that say something *)
Definition least_confirmed (values : list Z) : option Z :=
  fold_left (fun least v =>
    if v =? u64_max then least else Some match least with Some m => Z.min m v | None => v end) values None.

Definition handle_values (sb : SourceBase) : list Z :=
  omap (fun e => confirmed <$> handles sb !! e.2) (map_to_list (handle_of sb)).

Definition compute_confirmed_position (sb : SourceBase) : option Z * SourceBase :=
  let sb := cleanup_stale_handles sb in (least_confirmed (handle_values sb), sb).

(** The last entry at or before a sequence *)
Definition position_at (sequence : Z) (positions : btree Z Bytes) : option Bytes :=
  fold_left (fun found e => if e.1 <=? sequence then Some e.2 else found) positions None.

Definition compute_confirmed_source_position (sb : SourceBase) : option Bytes * SourceBase :=
  let '(n, sb) := compute_confirmed_position sb in
  (match n with Some n => position_at n (sequence_position_map sb) | None => None end, sb).

(** [split_off]: the entries from the next sequence on are kept. *)
Definition prune_position_map (up_to_seq : Z) (sb : SourceBase) : SourceBase :=
  with_ordering (next_sequence sb) (dispatch_order sb)
    (List.filter (fun e => saturating_add up_to_seq 1 <=? e.1) (sequence_position_map sb)) sb.
Definition clear_sequence_position_map (sb : SourceBase) : SourceBase :=
  with_ordering (next_sequence sb) (dispatch_order sb) [] sb.

(** ** The boundary between the first snapshot and the changes after it *)

(** [publish_boundary_token]: the first one stays. *)
Definition publish_bootstrap_boundary (position : Bytes) (sb : SourceBase) : bool * SourceBase :=
  match bootstrap_boundary sb with
  | Some _ => (false, sb)
  | None => (true, with_boundary (Some position) (pending_initial_bootstrap sb) sb)
  end.
Definition reset_bootstrap_boundary (sb : SourceBase) : SourceBase := with_boundary None false sb.
Definition take_pending_initial_bootstrap (sb : SourceBase) : bool * SourceBase :=
  (pending_initial_bootstrap sb, with_boundary (bootstrap_boundary sb) false sb).

(** The end of a bootstrap task, with the position of its snapshot *)
Definition bootstrap_done (initial : bool) (outcome : option (option Bytes)) (sb : SourceBase) : SourceBase :=
  match outcome with
  | Some (Some position) => if initial then (publish_bootstrap_boundary position sb).2 else sb
  | _ => sb
  end.

(** ** Subscribing *)

Record SubscriptionResponse := {
  (* the dispatcher of the receiver, and what the receiver yields before it *)
  r_dispatcher : nat;
  r_replay : list SourceEventWrapper;
  (* whether a bootstrap was started *)
  r_bootstrap : bool;
  r_handle : option nat;
}.

Definition create_streaming_receiver (sb : SourceBase) : outcome string (nat * SourceBase) :=
  match dispatch_mode sb with
  | Broadcast => match dispatchers sb with [] => Err "No broadcast dispatcher available"%string | _ => Ok (0%nat, sb) end
  | Channel => Ok (length (dispatchers sb), with_dispatchers (dispatchers sb ++ [new_dispatcher Channel]) sb)
  end.

(** Before the receiver is made *)
Definition subscribe_begin (settings : SourceSubscriptionSettings) (sb : SourceBase) : SourceBase :=
  let sb := raise_sequence_floor settings sb in
  if enable_bootstrap settings && bool_decide (resume_from settings = None)
  then with_boundary (bootstrap_boundary sb) true sb else sb.

(** The mark goes to the dispatcher that is the last one now. *)
Definition register_resume_position (settings : SourceSubscriptionSettings) (sb : SourceBase) : SourceBase :=
  match dispatch_mode sb, resume_from settings with
  | Channel, Some pos =>
      with_marks (<[(length (dispatchers sb) - 1)%nat := pos]> (subscriber_resume_positions sb)) sb
  | _, _ => sb
  end.

Definition request_handle (settings : SourceSubscriptionSettings) (sb : SourceBase) : option nat * SourceBase :=
  if request_position_handle settings
  then let '(h, sb) := create_position_handle (sub_query_id settings) sb in (Some h, sb) else (None, sb).

Definition starts_bootstrap (settings : SourceSubscriptionSettings) (sb : SourceBase) : bool :=
  bool_decide (resume_from settings = None) && enable_bootstrap settings && has_bootstrap_provider sb.

Definition subscribe_with_bootstrap_context (settings : SourceSubscriptionSettings) (sb : SourceBase) :
    outcome string (SubscriptionResponse * SourceBase) :=
  let sb := subscribe_begin settings sb in
  r ← create_streaming_receiver sb;
  let '(receiver, sb) := (r : nat * SourceBase) in
  let sb := register_resume_position settings sb in
  let bootstrap := starts_bootstrap settings sb in
  let '(handle, sb) := request_handle settings sb in
  Ok ({| r_dispatcher := receiver; r_replay := []; r_bootstrap := bootstrap; r_handle := handle |}, sb).

(** *** With a write-ahead log: its head, and its events from a sequence on *)

Record Wal := {
  head_sequence : outcome string Z;
  read_from : Z -> outcome string (list (Z * SourceChange));
}.

(** [seq.to_be_bytes()] *)
Definition be_bytes (n : Z) : Bytes :=
  map (fun i => default Byte.x00 (Byte.of_N (Z.to_N ((n / 2 ^ (8 * i)) mod 256)))) [7; 6; 5; 4; 3; 2; 1; 0].

Definition replay_wrapper (source_id : string) (now : Z) (e : Z * SourceChange) : SourceEventWrapper :=
  {| w_source_id := source_id; w_event := Change e.2; w_timestamp := now;
     w_source_position := Some (be_bytes e.1); w_sequence := e.1 |}.

(** Under the lock of the dispatchers: the head of the log is read and the
    dispatcher is added. *)
Definition replay_register (settings : SourceSubscriptionSettings) (wal : Wal) (sb : SourceBase) :
    outcome string Z * SourceBase :=
  let sb := raise_sequence_floor settings sb in
  match head_sequence wal with
  | Ok head => (Ok head, with_dispatchers (dispatchers sb ++ [new_dispatcher Channel]) sb)
  | Err e => (Err e, sb)
  | Panic => (Panic, sb)
  end.

(** After it: the events up to that head, stamped with the time they are read *)
Definition replay_events (wal : Wal) (head resume_seq : Z) : outcome string (list (Z * SourceChange)) :=
  if resume_seq <? head
  then List.filter (fun e => e.1 <=? head) <$> read_from wal (saturating_add resume_seq 1)
  else Ok [].

Definition replay_response (settings : SourceSubscriptionSettings) (resume_seq now : Z) (receiver : nat)
    (events : list (Z * SourceChange)) (sb : SourceBase) : SubscriptionResponse * SourceBase :=
  let '(handle, sb) := request_handle settings sb in
  let sb := match handle with Some h => store_handle h resume_seq sb | None => sb end in
  ({| r_dispatcher := receiver; r_replay := map (replay_wrapper (id sb) now) events; r_bootstrap := false;
      r_handle := handle |}, sb).

(** [ReplayThenLiveReceiver::recv]: [None] when the live receiver has nothing
    yet. *)
Definition recv (replay live : list SourceEventWrapper) :
    option (SourceEventWrapper * (list SourceEventWrapper * list SourceEventWrapper)) :=
  match replay with
  | w :: replay => Some (w, (replay, live))
  | [] => match live with w :: live => Some (w, ([], live)) | [] => None end
  end.

(** ** Stopping *)

(** What [stop_common] does to the subscriptions. *)
Definition stop_subscriptions (sb : SourceBase) : SourceBase :=
  match dispatch_mode sb with Channel => with_dispatchers [] sb | Broadcast => sb end.

Definition clear_dispatchers (sb : SourceBase) : SourceBase :=
  match dispatch_mode sb with Channel => with_marks ∅ (with_dispatchers [] sb) | Broadcast => sb end.

(** A subscriber lets go of the receiver of its channel. *)
Definition drop_receiver (idx : nat) (sb : SourceBase) : SourceBase :=
  with_dispatchers (alter (fun d => {| d_mode := d_mode d; d_sent := d_sent d; d_open := false |}) idx (dispatchers sb)) sb.
End base.

(** ** What happens to a source *)

Section run.
Context {C : Chrono}.

Inductive Op :=
| ODispatch (w : SourceEventWrapper)
| OBatch (l : list SourceEventWrapper)
| OAllocated (event : SourceEvent) (now : Z)
| OSubscribe (settings : SourceSubscriptionSettings)
| OReplay (settings : SourceSubscriptionSettings) (wal : Wal)
| OReplayed (settings : SourceSubscriptionSettings) (resume_seq : Z)
| OStoreHandle (h : nat) (value : Z)
| ODropHandle (h : nat)
| ORemoveHandle (query_id : string)
| OCleanup
| OPrune (up_to_seq : Z)
| OClearPositions
| OPublish (position : Bytes)
| OResetBoundary
| OTakePending
| ODropReceiver (idx : nat)
| OStop
| OClear.

(** The events an operation dispatches *)
Definition dispatched_by (sb : SourceBase) (op : Op) : list SourceEventWrapper :=
  match op with
  | ODispatch w => [w]
  | OBatch l => l
  | OAllocated event now =>
      [{| w_source_id := id sb; w_event := event; w_timestamp := now; w_source_position := None;
          w_sequence := next_sequence sb |}]
  | _ => []
  end.

(** A subscription that fails changes only what it did before it failed. One
    with replay takes the lock twice, and others run in between. *)
Definition step (sb : SourceBase) (op : Op) : SourceBase :=
  match op with
  | ODispatch w => dispatch_event w sb
  | OBatch l => dispatch_events_batch l sb
  | OAllocated event now => dispatch_allocated event now sb
  | OSubscribe settings =>
      match subscribe_with_bootstrap_context settings sb with Ok (_, sb) => sb | _ => subscribe_begin settings sb end
  | OReplay settings wal => (replay_register settings wal sb).2
  | OReplayed settings resume_seq => (replay_response settings resume_seq 0 0%nat [] sb).2
  | OStoreHandle h value => store_handle h value sb
  | ODropHandle h => drop_handle h sb
  | ORemoveHandle query_id => remove_position_handle query_id sb
  | OCleanup => cleanup_stale_handles sb
  | OPrune n => prune_position_map n sb
  | OClearPositions => clear_sequence_position_map sb
  | OPublish position => (publish_bootstrap_boundary position sb).2
  | OResetBoundary => reset_bootstrap_boundary sb
  | OTakePending => (take_pending_initial_bootstrap sb).2
  | ODropReceiver idx => drop_receiver idx sb
  | OStop => stop_subscriptions sb
  | OClear => clear_dispatchers sb
  end.

Fixpoint dispatched (ops : list Op) (sb : SourceBase) : list SourceEventWrapper :=
  match ops with [] => [] | op :: ops => dispatched_by sb op ++ dispatched ops (step sb op) end.

Definition run (ops : list Op) (sb : SourceBase) : SourceBase := fold_left step ops sb.
End run.
