(* ===== verification/SourceBaseFacts.v ===== *)
(** * What subscribers receive from a source

    A subscriber that resumes gets every position after its own once, however
    the source rewinds its stream for others; the numbers the framework gives
    stay above those the subscribers know; what the source confirms upstream no
    live subscriber is still waiting for. *)

From Stdlib Require Import Sorted.
From stdpp Require Import sorting.
From S2P Require Import Prelude BTree Floats Hashing Ast Models Errors Values QueryOutput OutputStores OutputPipeline PriorityQueue SourceBase.

Section facts.
Context {C : Chrono}.

(** ** Dispatching to one subscriber *)

Lemma deliver_all_lookup after marks w base l idx d :
  l !! idx = Some d ->
  (deliver_all after marks w base l).1 !! idx = Some (deliver_to after marks w (base + idx) d).1.
Proof.
  revert base idx. induction l as [|x l IH]; intros base idx Hl; [done|]. cbn [deliver_all].
  destruct (deliver_to after marks w base x) as [x' m] eqn:Hx.
  destruct (deliver_all after marks w (S base) l) as [l' u] eqn:Hd. destruct idx as [|idx].
  - cbn in Hl |- *. injection Hl as ->. by rewrite Nat.add_0_r, Hx.
  - cbn in Hl |- *. specialize (IH (S base) idx Hl). rewrite Hd in IH. rewrite Nat.add_succ_r. exact IH.
Qed.

Lemma deliver_all_length after marks w base l : length (deliver_all after marks w base l).1 = length l.
Proof.
  revert base. induction l as [|x l IH]; intros base; [done|]. cbn [deliver_all].
  destruct (deliver_to after marks w base x) as [x' m]. specialize (IH (S base)).
  destruct (deliver_all after marks w (S base) l) as [l' u]. cbn in *. by rewrite IH.
Qed.

Lemma deliver_all_updates after marks w base l idx m :
  advance_marks (deliver_all after marks w base l).2 m !! idx =
  match (if (base <=? idx)%nat then l !! (idx - base)%nat else None) with
  | Some d => match (deliver_to after marks w idx d).2 with Some p => Some p | None => m !! idx end
  | None => m !! idx
  end.
Proof.
  revert base m. induction l as [|x l IH]; intros base m; cbn [deliver_all].
  { cbn. by destruct (base <=? idx)%nat. }
  destruct (deliver_to after marks w base x) as [x' mk] eqn:Hx. specialize (IH (S base)).
  destruct (deliver_all after marks w (S base) l) as [l' u] eqn:Hd. cbn [snd] in IH |- *.
  assert (advance_marks (match mk with Some p => (base, p) :: u | None => u end) m =
          advance_marks u (match mk with Some p => <[base := p]> m | None => m end)) as -> by by destruct mk.
  rewrite IH. destruct (Nat.leb_spec base idx).
  - destruct (decide (idx = base)) as [->|Hne].
    + rewrite Nat.sub_diag. replace (S base <=? base)%nat with false by (symmetry; apply Nat.leb_gt; lia).
      change ((x :: l) !! 0%nat) with (Some x). cbv beta iota. rewrite Hx.
      destruct mk; [by rewrite lookup_insert_eq|done].
    + replace (S base <=? idx)%nat with true by (symmetry; apply Nat.leb_le; lia).
      replace (idx - base)%nat with (S (idx - S base)) by lia.
      change ((x :: l) !! S (idx - S base)) with (l !! (idx - S base)%nat).
      destruct mk; [by rewrite lookup_insert_ne by lia|done].
  - replace (S base <=? idx)%nat with false by (symmetry; apply Nat.leb_gt; lia).
    destruct mk; [by rewrite lookup_insert_ne by lia|done].
Qed.

(** The stamp an event gets. *)
Definition stamped (sb : SourceBase) (w : SourceEventWrapper) : SourceEventWrapper :=
  with_timestamp (next_monotonic_timestamp (dispatch_order sb) (w_timestamp w)) w.

Lemma dispatch_fields w sb :
  let sb' := dispatch_event_ordered w sb in
  dispatch_mode sb' = dispatch_mode sb /\ position_comparator sb' = position_comparator sb /\
  length (dispatchers sb') = length (dispatchers sb) /\
  next_sequence sb' = Z.max (next_sequence sb) (saturating_add (w_sequence w) 1) /\
  dispatch_order sb' = Some (w_timestamp (stamped sb w)) /\
  dispatchers sb' = (deliver_all (position_comparator sb) (subscriber_resume_positions sb) (stamped sb w) 0 (dispatchers sb)).1 /\
  subscriber_resume_positions sb' =
    advance_marks (deliver_all (position_comparator sb) (subscriber_resume_positions sb) (stamped sb w) 0 (dispatchers sb)).2
      (subscriber_resume_positions sb).
Proof.
  pose proof (deliver_all_length (position_comparator sb) (subscriber_resume_positions sb) (stamped sb w) 0 (dispatchers sb)) as Hlen.
  unfold dispatch_event_ordered, set_next_sequence, raise_next_sequence. cbn.
  change (with_timestamp (next_monotonic_timestamp (dispatch_order sb) (w_timestamp w)) w) with (stamped sb w).
  destruct (deliver_all _ _ _ _ _) as [l u]. cbn in *. by split_and!.
Qed.

(** ** The view of a subscriber

    What it has been given and the mark that is kept for it. *)
Definition View : Type := list SourceEventWrapper * option Bytes.

(** An event without its timestamp *)
Definition untimed (w : SourceEventWrapper) : SourceEventWrapper := with_timestamp 0 w.

Definition take_in (after : option (Bytes -> Bytes -> bool)) (v : View) (w : SourceEventWrapper) : View :=
  if suppressed after v.2 (w_source_position w) then v
  else (v.1 ++ [untimed w], match w_source_position w with Some p => Some p | None => v.2 end).

Definition reachable (d : ChangeDispatcher) : Prop := d_mode d = Channel -> d_open d = true.

Definition sees (sb : SourceBase) (j : nat) (v : View) : Prop :=
  exists d, dispatchers sb !! j = Some d /\ reachable d /\ map untimed (d_sent d) = v.1 /\
            subscriber_resume_positions sb !! j = v.2.

(** The operations that leave the subscriber [j] its dispatcher *)
Definition keeps (j : nat) (op : Op) : Prop :=
  match op with ODropReceiver i => i <> j | OStop | OClear => False | _ => True end.

Lemma dispatch_reachable w d : reachable d ->
  dispatch_change w d = Some {| d_mode := d_mode d; d_sent := d_sent d ++ [w]; d_open := d_open d |}.
Proof. unfold dispatch_change, reachable. destruct (d_mode d), (d_open d); try done. by intros Hd%(fun f => f eq_refl). Qed.

Lemma sees_dispatch w sb j v : sees sb j v ->
  sees (dispatch_event_ordered w sb) j (take_in (position_comparator sb) v w).
Proof.
  intros (d & Hd & Hr & Hs & Hm). unfold sees.
  destruct (dispatch_fields w sb) as (_ & _ & _ & _ & _ & -> & ->).
  rewrite (deliver_all_lookup _ _ _ _ _ _ _ Hd), deliver_all_updates. cbn [Nat.leb].
  rewrite Nat.sub_0_r, Hd. change (0 + j)%nat with j. unfold deliver_to. rewrite Hm, (dispatch_reachable _ _ Hr).
  change (w_source_position (stamped sb w)) with (w_source_position w). unfold take_in.
  destruct (suppressed _ _ _); [by exists d|].
  eexists. split; [done|]. split; [done|]. cbn. by rewrite map_app, Hs.
Qed.
Lemma sees_same sb sb' j v :
  (forall d, dispatchers sb !! j = Some d -> dispatchers sb' !! j = Some d) ->
  subscriber_resume_positions sb' !! j = subscriber_resume_positions sb !! j -> sees sb j v -> sees sb' j v.
Proof. intros Hd Hm (d & Hl & Hr & Hs & Hv). exists d. split; [by apply Hd|]. by rewrite Hm. Qed.

Lemma request_handle_fields settings sb :
  let sb' := (request_handle settings sb).2 in
  dispatchers sb' = dispatchers sb /\ subscriber_resume_positions sb' = subscriber_resume_positions sb /\
  position_comparator sb' = position_comparator sb /\ dispatch_mode sb' = dispatch_mode sb /\
  next_sequence sb' = next_sequence sb /\ dispatch_order sb' = dispatch_order sb /\
  sequence_position_map sb' = sequence_position_map sb.
Proof.
  unfold request_handle, create_position_handle. destruct (request_position_handle settings); [|by split_and!].
  by destruct (handle_of sb !! sub_query_id settings).
Qed.

Lemma subscribe_begin_fields settings sb :
  let sb' := subscribe_begin settings sb in
  dispatchers sb' = dispatchers sb /\ subscriber_resume_positions sb' = subscriber_resume_positions sb /\
  position_comparator sb' = position_comparator sb /\ dispatch_mode sb' = dispatch_mode sb /\
  next_sequence sb' = next_sequence (raise_sequence_floor settings sb) /\ dispatch_order sb' = dispatch_order sb /\
  sequence_position_map sb' = sequence_position_map sb.
Proof.
  unfold subscribe_begin, raise_sequence_floor. destruct (resume_sequence settings), (_ && _); by split_and!.
Qed.

(** What a subscription leaves behind *)
Lemma subscribe_fields settings sb r sb' : subscribe_with_bootstrap_context settings sb = Ok (r, sb') ->
  position_comparator sb' = position_comparator sb /\
  next_sequence sb' = next_sequence (raise_sequence_floor settings sb) /\ dispatch_order sb' = dispatch_order sb /\
  sequence_position_map sb' = sequence_position_map sb /\
  match dispatch_mode sb with
  | Broadcast => dispatchers sb' = dispatchers sb /\ subscriber_resume_positions sb' = subscriber_resume_positions sb
  | Channel =>
      r_dispatcher r = length (dispatchers sb) /\ dispatchers sb' = dispatchers sb ++ [new_dispatcher Channel] /\
      subscriber_resume_positions sb' =
        match resume_from settings with
        | Some pos => <[length (dispatchers sb) := pos]> (subscriber_resume_positions sb)
        | None => subscriber_resume_positions sb
        end
  end.
Proof.
  unfold subscribe_with_bootstrap_context.
  pose proof (subscribe_begin_fields settings sb) as (Hd & Hm & Hc & Hmode & Hn & Ho & Hp).
  set (sb0 := subscribe_begin settings sb) in *. rewrite <- Hmode, <- Hn, <- Hc, <- Ho, <- Hp, <- Hd, <- Hm.
  unfold create_streaming_receiver. destruct (dispatch_mode sb0) eqn:Hmode0.
  - destruct (dispatchers sb0) as [|d l] eqn:Hl; [done|]. cbn [outcome_bind mbind].
    unfold register_resume_position. rewrite Hmode0.
    destruct (request_handle_fields settings sb0) as (H1 & H2 & H3 & H4 & H5 & H6 & H7).
    destruct (request_handle settings sb0) as [h sb2] eqn:Hreq. cbn in *. intros [= <- <-].
    rewrite H1, H2, H3, H5, H6, H7, Hl. by split_and!.
  - cbn [outcome_bind mbind]. unfold register_resume_position. cbn [dispatch_mode with_dispatchers]. rewrite Hmode0.
    match goal with |- context [request_handle settings ?x] => set (sb1 := x) end.
    destruct (request_handle_fields settings sb1) as (H1 & H2 & H3 & H4 & H5 & H6 & H7).
    destruct (request_handle settings sb1) as [h sb2] eqn:Hreq. cbn in *. intros [= <- <-].
    rewrite H1, H2, H3, H5, H6, H7. subst sb1. destruct (resume_from settings); cbn; rewrite ?length_app; cbn.
    + rewrite Nat.add_sub. by split_and!.
    + by split_and!.
Qed.
Lemma batch_inv (P : SourceBase -> Prop) l sb :
  (forall w sb, P sb -> P (dispatch_event_ordered w sb)) -> P sb -> P (dispatch_events_batch l sb).
Proof. intros Hw. unfold dispatch_events_batch. revert sb. induction l as [|w l IH]; intros sb Hp; cbn; eauto. Qed.

Lemma dispatch_comparator w sb : position_comparator (dispatch_event_ordered w sb) = position_comparator sb.
Proof. by destruct (dispatch_fields w sb) as (_ & -> & _). Qed.

Lemma step_comparator op sb : position_comparator (step sb op) = position_comparator sb.
Proof.
  destruct op as [w|l|e t|settings|settings wal|settings n| | | | | | | | | | | |]; cbn -[dispatch_event_ordered];
    try done.
  - apply dispatch_comparator.
  - apply (batch_inv (fun x => position_comparator x = position_comparator sb)); [|done].
    intros w x <-. apply dispatch_comparator.
  - unfold dispatch_allocated, take_sequence. by rewrite dispatch_comparator.
  - destruct (subscribe_with_bootstrap_context settings sb) as [[r sb']| |] eqn:Hsub.
    + by destruct (subscribe_fields _ _ _ _ Hsub) as (-> & _).
    + by destruct (subscribe_begin_fields settings sb) as (_ & _ & -> & _).
    + by destruct (subscribe_begin_fields settings sb) as (_ & _ & -> & _).
  - unfold replay_register, raise_sequence_floor. by destruct (resume_sequence settings), (head_sequence wal).
  - unfold replay_response. destruct (request_handle_fields settings sb) as (_ & _ & H3 & _).
    by destruct (request_handle settings sb) as [[h|] sb'].
  - unfold publish_bootstrap_boundary. by destruct (bootstrap_boundary sb).
  - unfold stop_subscriptions. by destruct (dispatch_mode sb).
  - unfold clear_dispatchers. by destruct (dispatch_mode sb).
Qed.

Lemma sees_batch l sb j v : sees sb j v ->
  sees (dispatch_events_batch l sb) j (fold_left (take_in (position_comparator sb)) l v).
Proof.
  unfold dispatch_events_batch. revert sb v. induction l as [|w l IH]; intros sb v Hv; [done|]. cbn.
  rewrite <- (dispatch_comparator w sb). apply IH. rewrite dispatch_comparator. by apply sees_dispatch.
Qed.

Lemma sees_step op sb j v : keeps j op -> sees sb j v ->
  sees (step sb op) j (fold_left (take_in (position_comparator sb)) (dispatched_by sb op) v).
Proof.
  intros Hk Hv. assert (Hlt : (j < length (dispatchers sb))%nat) by (destruct Hv as (d & Hd%lookup_lt_Some & _); done).
  destruct op as [w|l|e t|settings|settings wal|settings n| | | | | | | | | |i| |];
    cbn -[dispatch_event_ordered] in *; try done.
  - by apply sees_dispatch.
  - by apply sees_batch.
  - unfold dispatch_allocated, take_sequence. 
    match goal with |- sees (dispatch_event_ordered ?w ?sb') _ _ => exact (sees_dispatch w sb' j v Hv) end.
  - destruct (subscribe_with_bootstrap_context settings sb) as [[r sb']| |] eqn:Hsub.
    + destruct (subscribe_fields _ _ _ _ Hsub) as (_ & _ & _ & _ & Hf). revert Hv.
      destruct (dispatch_mode sb); [destruct Hf as [Hd Hm]|destruct Hf as (_ & Hd & Hm)]; apply sees_same; rewrite ?Hd, ?Hm.
      * done.
      * done.
      * intros d. by apply lookup_app_l_Some.
      * destruct (resume_from settings); [|done]. by rewrite lookup_insert_ne by lia.
    + destruct (subscribe_begin_fields settings sb) as (Hd & Hm & _). revert Hv. apply sees_same; by rewrite ?Hd, ?Hm.
    + destruct (subscribe_begin_fields settings sb) as (Hd & Hm & _). revert Hv. apply sees_same; by rewrite ?Hd, ?Hm.
  - revert Hv. unfold replay_register, raise_sequence_floor.
    destruct (resume_sequence settings), (head_sequence wal); apply sees_same; try done; intros d; by apply lookup_app_l_Some.
  - unfold replay_response. destruct (request_handle_fields settings sb) as (H1 & H2 & _). revert Hv.
    destruct (request_handle settings sb) as [[h|] sb']; cbn in *; apply sees_same; cbn; by rewrite ?H1, ?H2.
  - unfold publish_bootstrap_boundary. by destruct (bootstrap_boundary sb).
  - revert Hv. apply sees_same; [|done]. intros d Hd. cbn. by rewrite list_lookup_alter_ne.
Qed.

(** What a subscriber has been given, and its mark, depend only on the stream
    of positions and on what they were before. *)
Lemma sees_run ops sb j v : Forall (keeps j) ops -> sees sb j v ->
  sees (run ops sb) j (fold_left (take_in (position_comparator sb)) (dispatched ops sb) v).
Proof.
  unfold run. intros Hk. revert sb v. induction Hk as [|op ops Hop _ IH]; intros sb v Hv; [done|]. cbn [fold_left dispatched].
  rewrite fold_left_app, <- (step_comparator op sb). apply IH. rewrite step_comparator. by apply sees_step.
Qed.
(** The same for positions alone *)
Definition take_position (after : option (Bytes -> Bytes -> bool)) (v : list Bytes * option Bytes) (p : Bytes) :
    list Bytes * option Bytes :=
  if suppressed after v.2 (Some p) then v else (v.1 ++ [p], Some p).

Definition positions_of (v : View) : list Bytes * option Bytes := (omap w_source_position v.1, v.2).

Lemma take_positions after l v :
  positions_of (fold_left (take_in after) l v) = fold_left (take_position after) (omap w_source_position l) (positions_of v).
Proof.
  revert v. induction l as [|w l IH]; intros v; [done|]. cbn [fold_left]. rewrite IH. cbn [omap list_omap].
  unfold take_in, take_position. destruct (w_source_position w) as [p|] eqn:Hp.
  - cbn [fold_left]. f_equal. cbn [positions_of snd]. destruct (suppressed _ _ _); [done|].
    unfold positions_of. cbn [fst snd]. rewrite omap_app. cbn. by rewrite Hp.
  - f_equal. destruct (suppressed _ _ _); [done|]. unfold positions_of. cbn [fst snd]. rewrite omap_app. cbn.
    by rewrite Hp, app_nil_r.
Qed.

Lemma take_all l v : (fold_left (take_in None) l v).1 = v.1 ++ map untimed l.
Proof.
  revert v. induction l as [|w l IH]; intros v; [by rewrite app_nil_r|]. cbn [fold_left map]. rewrite IH. unfold take_in. cbn [suppressed fst].
  by rewrite <- app_assoc.
Qed.

(** A stream that goes on from the position [k], and may go back at any time *)
Fixpoint follows (k : nat) (ks : list nat) : Prop :=
  match ks with [] => True | k' :: ks => (k' <= S k)%nat /\ follows k' ks end.

Lemma take_progress (after : Bytes -> Bytes -> bool) (ps : nat -> Bytes) (seen : list Bytes) k m ks :
  (forall a b, a ∈ m :: ks -> b ∈ m :: ks -> after (ps a) (ps b) = (b <? a)%nat) ->
  (k <= m)%nat -> follows k ks ->
  fold_left (take_position (Some after)) (map ps ks) (seen, Some (ps m)) =
  (seen ++ map ps (seq (S m) (max_list (m :: ks) - m)), Some (ps (max_list (m :: ks)))).
Proof.
  revert seen k m. induction ks as [|x ks IH]; intros seen k m Hafter Hkm Hf.
  { cbn. by rewrite Nat.max_0_r, Nat.sub_diag, app_nil_r. }
  destruct Hf as [Hx Hf]. cbn [map fold_left]. unfold take_position at 2. cbn [suppressed snd fst].
  rewrite (Hafter x m) by set_solver. destruct (Nat.ltb_spec m x) as [Hlt|Hge]; cbn [negb].
  - assert (x = S m) as -> by lia. rewrite (IH _ (S m) (S m)); [|intros a b Ha Hb; apply Hafter; set_solver|done|done].
    replace (max_list (m :: S m :: ks)) with (max_list (S m :: ks)) by (cbn; lia).
    rewrite <- app_assoc. repeat f_equal.
    replace (max_list (S m :: ks) - m)%nat with (S (max_list (S m :: ks) - S m)) by (cbn; lia). done.
  - rewrite (IH _ x m); [|intros a b Ha Hb; apply Hafter; set_solver|lia|done].
    by replace (max_list (m :: x :: ks)) with (max_list (m :: ks)) by (cbn; lia).
Qed.

Lemma untimed_positions l : omap w_source_position l = omap w_source_position (map untimed l).
Proof. induction l as [|w l IH]; [done|]. cbn. by rewrite IH. Qed.

(** The positions a subscriber has been given *)
Definition given (sb : SourceBase) (j : nat) : list Bytes :=
  match dispatchers sb !! j with Some d => omap w_source_position (d_sent d) | None => [] end.


(** *** Big-endian numbers are in the order of their bytes. *)

Definition byte_at (i n : Z) : Byte.byte := default Byte.x00 (Byte.of_N (Z.to_N ((n / 2 ^ (8 * i)) mod 256))).

Lemma byte_at_value i n : Z.of_N (Byte.to_N (byte_at i n)) = (n / 2 ^ (8 * i)) mod 256.
Proof.
  unfold byte_at. pose proof (Z.mod_pos_bound (n / 2 ^ (8 * i)) 256 ltac:(lia)) as Hb.
  destruct (Byte.of_N _) as [b|] eqn:Hof.
  - change (default Byte.x00 (Some b)) with b. apply Byte.to_of_N in Hof. rewrite Hof. lia.
  - apply Byte.of_N_None_iff in Hof. lia.
Qed.

Definition low_bytes (k : nat) (n : Z) : Bytes := map (fun i => byte_at (Z.of_nat i) n) (rev (seq 0 k)).

Lemma low_bytes_S k n : low_bytes (S k) n = byte_at (Z.of_nat k) n :: low_bytes k n.
Proof. unfold low_bytes. by rewrite seq_S, rev_app_distr. Qed.

Lemma mod_split k n : n mod 2 ^ (8 * Z.of_nat (S k)) =
  2 ^ (8 * Z.of_nat k) * ((n / 2 ^ (8 * Z.of_nat k)) mod 256) + n mod 2 ^ (8 * Z.of_nat k).
Proof.
  replace (2 ^ (8 * Z.of_nat (S k))) with (2 ^ (8 * Z.of_nat k) * 256).
  - rewrite Z.rem_mul_r by lia. lia.
  - rewrite Nat2Z.inj_succ. replace (8 * Z.succ (Z.of_nat k)) with (8 * Z.of_nat k + 8) by lia. by rewrite Z.pow_add_r by lia.
Qed.

Lemma low_bytes_after k a b :
  bytes_after (low_bytes k a) (low_bytes k b) = (b mod 2 ^ (8 * Z.of_nat k) <? a mod 2 ^ (8 * Z.of_nat k)).
Proof.
  induction k as [|k IH]; [by rewrite !Z.mod_1_r|]. rewrite !low_bytes_S. cbn [bytes_after]. rewrite IH, !mod_split.
  pose proof (byte_at_value (Z.of_nat k) a) as Ha. pose proof (byte_at_value (Z.of_nat k) b) as Hb.
  assert (Hp : 0 < 2 ^ (8 * Z.of_nat k)) by lia. set (B := 2 ^ (8 * Z.of_nat k)) in *.
  pose proof (Z.mod_pos_bound a B Hp). pose proof (Z.mod_pos_bound b B Hp).
  rewrite <- Ha, <- Hb. generalize dependent (a mod B). generalize dependent (b mod B). intros y Hy x Hx.
  generalize (Byte.to_N (byte_at (Z.of_nat k) a)). generalize (Byte.to_N (byte_at (Z.of_nat k) b)). intros q p.
  destruct (N.eqb_spec p q) as [->|Hne].
  - destruct (Z.ltb_spec y x), (Z.ltb_spec (B * Z.of_N q + y) (B * Z.of_N q + x)); try done; lia.
  - destruct (N.ltb_spec q p), (Z.ltb_spec (B * Z.of_N q + y) (B * Z.of_N p + x)); try done; nia.
Qed.

(** The byte-wise comparator orders the positions of a log with sequences as
    positions as the sequences: big-endian encoding keeps the order. *)
Theorem sequence_positions_in_order a b : 0 <= a <= u64_max -> 0 <= b <= u64_max ->
  bytes_after (be_bytes a) (be_bytes b) = (b <? a).
Proof.
  intros Ha Hb. change (be_bytes a) with (low_bytes 8 a). change (be_bytes b) with (low_bytes 8 b).
  rewrite low_bytes_after. unfold u64_max in *. by rewrite !Z.mod_small by lia.
Qed.
End facts.

(** ** Numbers of the framework *)

Section sequences.
Context {C : Chrono}.

(** The sequences an operation tells the source: those of the events it is
    given, and that of a subscriber that resumes *)
Definition told (op : Op) : list Z :=
  match op with
  | ODispatch w => [w_sequence w]
  | OBatch l => map w_sequence l
  | OSubscribe settings | OReplay settings _ => match resume_sequence settings with Some n => [n] | None => [] end
  | _ => []
  end.

Definition within (bound : Z) (l : list Z) : Prop := Forall (fun n => 0 <= n <= bound) l.

Lemma saturating_next n bound : n <= bound -> bound < u64_max -> saturating_add n 1 = n + 1.
Proof. unfold saturating_add. lia. Qed.

Lemma batch_next l bound sb : within bound (map w_sequence l) -> bound < u64_max ->
  let sb' := dispatch_events_batch l sb in
  (forall n, n ∈ map w_sequence l -> n < next_sequence sb') /\
  next_sequence sb <= next_sequence sb' <= Z.max (next_sequence sb) (bound + 1).
Proof.
  intros Hl Hb. unfold dispatch_events_batch. revert sb.
  induction l as [|w l IH]; intros sb; cbn [fold_left map].
  { split; [|lia]. by intros n ?%not_elem_of_nil. }
  apply Forall_cons in Hl as [Hw Hl]. specialize (IH Hl (dispatch_event_ordered w sb)).
  destruct IH as [Hlt Hle]. destruct (dispatch_fields w sb) as (_ & _ & _ & Hn & _).
  rewrite (saturating_next _ bound) in Hn by lia. rewrite Hn in Hle. split; [|cbn; lia].
  intros n [->|Hin]%elem_of_cons; [lia|by apply Hlt].
Qed.

Lemma floor_next settings bound sb :
  within bound match resume_sequence settings with Some n => [n] | None => [] end -> bound < u64_max ->
  let sb' := raise_sequence_floor settings sb in
  (forall n, n ∈ match resume_sequence settings with Some n => [n] | None => [] end -> n < next_sequence sb') /\
  next_sequence sb <= next_sequence sb' <= Z.max (next_sequence sb) (bound + 1).
Proof.
  intros Hw Hb. unfold raise_sequence_floor. destruct (resume_sequence settings) as [n|].
  - unfold within in Hw. rewrite Forall_singleton in Hw. unfold set_next_sequence, raise_next_sequence. cbn [next_sequence with_ordering]. rewrite (saturating_next _ bound) by lia. split; [|lia].
    intros m ->%list_elem_of_singleton. lia.
  - split; [|lia]. by intros n ?%not_elem_of_nil.
Qed.

(** One operation: the counter passes all it is told and all it hands out. *)
Lemma step_next op sb bound : within bound (told op) -> bound < u64_max -> 1 <= next_sequence sb < u64_max - 1 ->
  let sb' := step sb op in
  (forall n, n ∈ told op ++ map w_sequence (dispatched_by sb op) -> n < next_sequence sb') /\
  next_sequence sb <= next_sequence sb' <= Z.max (next_sequence sb + 1) (bound + 1).
Proof.
  intros Hw Hb Hn.
  assert (Hquiet : forall n', n' = next_sequence sb ->
    (forall n, n ∈ ([] : list Z) -> n < n') /\ next_sequence sb <= n' <= Z.max (next_sequence sb + 1) (bound + 1)).
  { intros n' ->. split; [|lia]. by intros n ?%not_elem_of_nil. }
  assert (Hbatch : forall l, within bound (map w_sequence l) ->
    (forall n, n ∈ map w_sequence l ++ map w_sequence l -> n < next_sequence (dispatch_events_batch l sb)) /\
    next_sequence sb <= next_sequence (dispatch_events_batch l sb) <= Z.max (next_sequence sb + 1) (bound + 1)).
  { intros l Hl. destruct (batch_next l bound sb Hl Hb) as [Hlt Hle]. split; [|lia].
    intros n [Hin|Hin]%elem_of_app; by apply Hlt. }
  destruct op as [w|l|e t|settings|settings wal|settings n| | | | | | | | | | | |];
    cbn -[dispatch_event_ordered] in *; try (by apply Hquiet).
  - apply (Hbatch [w]), Hw.
  - by apply Hbatch.
  - unfold dispatch_allocated, take_sequence. destruct (dispatch_fields {| w_source_id := id sb; w_event := e; w_timestamp := t;
      w_source_position := None; w_sequence := next_sequence sb |} (with_ordering (as_u64 (next_sequence sb + 1)) (dispatch_order sb)
      (sequence_position_map sb) sb)) as (_ & _ & _ & -> & _). cbn.
    rewrite (saturating_next _ (u64_max - 1)) by lia. unfold as_u64, u64_max in *.
    rewrite Z.mod_small by lia. split; [|lia]. intros n ->%list_elem_of_singleton. lia.
  - rewrite app_nil_r. destruct (floor_next settings bound sb Hw Hb) as [Hlt Hle].
    destruct (subscribe_with_bootstrap_context settings sb) as [[r sb']| |] eqn:Hsub.
    + destruct (subscribe_fields _ _ _ _ Hsub) as (_ & -> & _). split; [exact Hlt|lia].
    + destruct (subscribe_begin_fields settings sb) as (_ & _ & _ & _ & -> & _). split; [exact Hlt|lia].
    + destruct (subscribe_begin_fields settings sb) as (_ & _ & _ & _ & -> & _). split; [exact Hlt|lia].
  - rewrite app_nil_r. destruct (floor_next settings bound sb Hw Hb) as [Hlt Hle]. unfold replay_register.
    destruct (head_sequence wal); cbn; (split; [exact Hlt|lia]).
  - apply Hquiet. unfold replay_response. destruct (request_handle_fields settings sb) as (_ & _ & _ & _ & H5 & _).
    by destruct (request_handle settings sb) as [[h|] sb'].
  - apply Hquiet. unfold publish_bootstrap_boundary. by destruct (bootstrap_boundary sb).
  - apply Hquiet. unfold stop_subscriptions. by destruct (dispatch_mode sb).
  - apply Hquiet. unfold clear_dispatchers. by destruct (dispatch_mode sb).
Qed.

(** [C14] The numbers of the framework are fresh: whatever happens to a source, its
    counter is above the sequence of every event dispatched so far, given by
    the source or taken from the counter itself, and above the sequence every
    subscriber has resumed from. So the next event it numbers, which gets the
    counter's value, is not taken for an old one by any of them. *)
Theorem framework_sequences_fresh ops sb bound :
  Forall (fun op => within bound (told op)) ops -> 1 <= next_sequence sb <= bound + 1 ->
  bound + Z.of_nat (length ops) < u64_max - 2 ->
  forall n, n ∈ concat (map told ops) ++ map w_sequence (dispatched ops sb) -> n < next_sequence (run ops sb).
Proof.
  intros Hops Hn Hlen. enough (Hall : (forall n, n ∈ concat (map told ops) ++ map w_sequence (dispatched ops sb) ->
    n < next_sequence (run ops sb)) /\ next_sequence sb <= next_sequence (run ops sb)) by apply Hall.
  revert sb bound Hops Hn Hlen. induction ops as [|op ops IH]; intros sb bound Hops Hn Hlen.
  { split; [|done]. by intros n ?%not_elem_of_nil. }
  apply Forall_cons in Hops as [Hop Hops]. cbn [length] in Hlen.
  destruct (step_next op sb bound Hop ltac:(lia) ltac:(lia)) as [Hlt Hle].
  assert (Hops' : Forall (fun op => within (bound + 1) (told op)) ops).
  { eapply Forall_impl; [exact Hops|]. intros o Ho. eapply Forall_impl; [exact Ho|]. cbn. lia. }
  destruct (IH (step sb op) (bound + 1) Hops' ltac:(lia) ltac:(lia)) as [Hlt' Hle'].
  change (run (op :: ops) sb) with (run ops (step sb op)). split; [|lia].
  cbn [map concat dispatched]. rewrite map_app. intros n.
  assert (Hold : n ∈ told op ++ map w_sequence (dispatched_by sb op) -> n < next_sequence (run ops (step sb op))).
  { intros Hin%Hlt. lia. }
  rewrite !elem_of_app in *. intros [[Hin|Hin]|[Hin|Hin]].
  - apply Hold. by left.
  - apply Hlt', elem_of_app. by left.
  - apply Hold. by right.
  - apply Hlt', elem_of_app. by right.
Qed.
End sequences.

(** ** The order of live events *)

Section order.
Context {C : Chrono}.

(** What a dispatcher has been given, after the sequences of [tr] and with the
    last timestamp [last] *)
Definition line_ok (last : option Z) (tr : list Z) (l : list SourceEventWrapper) : Prop :=
  map w_sequence l `sublist_of` tr /\ StronglySorted Z.le (map w_timestamp l) /\
  forall w, w ∈ l -> exists t, last = Some t /\ w_timestamp w <= t.

Definition in_order (sb : SourceBase) (tr : list Z) : Prop :=
  forall d, d ∈ dispatchers sb -> line_ok (dispatch_order sb) tr (d_sent d).

Lemma line_ok_nil last tr : line_ok last tr [].
Proof. split; [apply sublist_nil_l|]. split; [constructor|]. by intros w ?%not_elem_of_nil. Qed.

Lemma next_timestamp_le last candidate t : last = Some t -> t <= next_monotonic_timestamp last candidate.
Proof. intros ->. cbn. lia. Qed.

Lemma line_ok_more last tr l c n :
  line_ok last tr l -> line_ok (Some (next_monotonic_timestamp last c)) (tr ++ [n]) l.
Proof.
  intros (Hs & Ht & Hl). split; [by apply sublist_inserts_r|]. split; [done|]. intros w (t & -> & Hle)%Hl.
  eexists. split; [done|]. pose proof (next_timestamp_le (Some t) c t eq_refl). lia.
Qed.

Lemma line_ok_snoc last tr l w :
  line_ok last tr l ->
  let t := next_monotonic_timestamp last (w_timestamp w) in
  line_ok (Some t) (tr ++ [w_sequence w]) (l ++ [with_timestamp t w]).
Proof.
  intros Hl. pose proof (line_ok_more _ _ _ (w_timestamp w) (w_sequence w) Hl) as (_ & _ & Hb).
  destruct Hl as (Hs & Ht & _). cbv zeta. split; [rewrite map_app; by apply sublist_app|]. split.
  - rewrite map_app. apply StronglySorted_app_2; [|done|repeat constructor].
    intros a b (x & -> & Hx)%list_elem_of_fmap ->%list_elem_of_singleton.
    apply Hb in Hx as (t & [= <-] & Hle). done.
  - intros x [Hx| ->%list_elem_of_singleton]%elem_of_app; [by apply Hb|]. eexists. split; [done|]. cbn. lia.
Qed.

Lemma deliver_sent after marks w idx d :
  d_sent (deliver_to after marks w idx d).1 = d_sent d \/ d_sent (deliver_to after marks w idx d).1 = d_sent d ++ [w].
Proof.
  unfold deliver_to, dispatch_change. destruct (suppressed _ _ _); [by left|].
  destruct (d_mode d), (d_open d); cbn; auto.
Qed.

Lemma in_order_dispatch w sb tr : in_order sb tr -> in_order (dispatch_event_ordered w sb) (tr ++ [w_sequence w]).
Proof.
  intros Hin d' [j Hj]%list_elem_of_lookup. destruct (dispatch_fields w sb) as (_ & _ & Hlen & _ & -> & Hd & _).
  destruct (lookup_lt_is_Some_2 (dispatchers sb) j) as [d Hl]; [rewrite <- Hlen; by apply lookup_lt_Some in Hj|].
  rewrite Hd, (deliver_all_lookup _ _ _ _ _ _ _ Hl) in Hj. apply Some_inj in Hj. subst d'.
  assert (Hok : line_ok (dispatch_order sb) tr (d_sent d)) by (apply Hin; by apply list_elem_of_lookup_2 in Hl).
  destruct (deliver_sent (position_comparator sb) (subscriber_resume_positions sb) (stamped sb w) (0 + j) d) as [->| ->].
  - by apply line_ok_more.
  - by apply line_ok_snoc.
Qed.

Lemma in_order_batch l sb tr : in_order sb tr -> in_order (dispatch_events_batch l sb) (tr ++ map w_sequence l).
Proof.
  unfold dispatch_events_batch. revert sb tr. induction l as [|w l IH]; intros sb tr Hin; cbn [fold_left map].
  { by rewrite app_nil_r. }
  replace (tr ++ w_sequence w :: map w_sequence l) with ((tr ++ [w_sequence w]) ++ map w_sequence l) by by rewrite <- app_assoc.
  apply IH. by apply in_order_dispatch.
Qed.

Lemma in_order_quiet sb sb' tr :
  dispatch_order sb' = dispatch_order sb ->
  (forall d', d' ∈ dispatchers sb' -> d_sent d' = [] \/ exists d, d ∈ dispatchers sb /\ d_sent d' = d_sent d) ->
  in_order sb tr -> in_order sb' tr.
Proof.
  intros Ho Hd Hin d' Hd'. rewrite Ho. destruct (Hd d' Hd') as [->|(d & Hl & ->)]; [apply line_ok_nil|by apply Hin].
Qed.

Lemma in_order_add sb sb' tr :
  dispatch_order sb' = dispatch_order sb ->
  (dispatchers sb' = dispatchers sb \/ dispatchers sb' = dispatchers sb ++ [new_dispatcher Channel]) ->
  in_order sb tr -> in_order sb' tr.
Proof.
  intros Ho Hd. apply (in_order_quiet _ _ _ Ho). intros d' Hd'. destruct Hd as [Hd|Hd]; rewrite Hd in Hd'; [right; by exists d'|].
  apply elem_of_app in Hd' as [Hd'| ->%list_elem_of_singleton]; [right; by exists d'|by left].
Qed.

Lemma in_order_clear sb sb' tr :
  dispatch_order sb' = dispatch_order sb -> dispatchers sb' = dispatchers sb \/ dispatchers sb' = [] ->
  in_order sb tr -> in_order sb' tr.
Proof.
  intros Ho Hd. apply (in_order_quiet _ _ _ Ho). intros d' Hd'. destruct Hd as [Hd|Hd]; rewrite Hd in Hd'; [right; by exists d'|].
  by apply not_elem_of_nil in Hd'.
Qed.

Lemma in_order_step op sb tr : in_order sb tr -> in_order (step sb op) (tr ++ map w_sequence (dispatched_by sb op)).
Proof.
  intros Hin.
  destruct op as [w|l|e t|settings|settings wal|settings n| | | | | | | | | |i| |];
    cbn -[dispatch_event_ordered] in *; rewrite ?app_nil_r; try done.
  - by apply in_order_dispatch.
  - by apply in_order_batch.
  - unfold dispatch_allocated, take_sequence.
    match goal with |- in_order (dispatch_event_ordered ?w ?sb') _ => exact (in_order_dispatch w sb' tr Hin) end.
  - destruct (subscribe_with_bootstrap_context settings sb) as [[r sb']| |] eqn:Hsub.
    + destruct (subscribe_fields _ _ _ _ Hsub) as (_ & _ & Ho & _ & Hf). apply (in_order_add sb); [done| |done].
      destruct (dispatch_mode sb); [left; apply Hf|right; apply Hf].
    + destruct (subscribe_begin_fields settings sb) as (Hd & _ & _ & _ & _ & Ho & _). apply (in_order_add sb); auto.
    + destruct (subscribe_begin_fields settings sb) as (Hd & _ & _ & _ & _ & Ho & _). apply (in_order_add sb); auto.
  - revert Hin. unfold replay_register, raise_sequence_floor.
    destruct (resume_sequence settings), (head_sequence wal); apply in_order_add; auto.
  - unfold replay_response. destruct (request_handle_fields settings sb) as (H1 & _ & _ & _ & _ & H6 & _). revert Hin.
    destruct (request_handle settings sb) as [[h|] sb']; cbn in *; apply in_order_add; auto.
  - unfold publish_bootstrap_boundary. by destruct (bootstrap_boundary sb).
  - revert Hin. apply in_order_quiet; [done|]. cbn. intros d' [j Hj]%list_elem_of_lookup. right.
    rewrite list_lookup_alter in Hj. destruct (decide (i = j)) as [->|Hne].
    + apply fmap_Some in Hj as (d & Hd & ->). exists d. by split; [apply list_elem_of_lookup_2 in Hd|].
    + exists d'. by split; [apply list_elem_of_lookup_2 in Hj|].
  - revert Hin. unfold stop_subscriptions. destruct (dispatch_mode sb); apply in_order_clear; auto.
  - revert Hin. unfold clear_dispatchers. destruct (dispatch_mode sb); apply in_order_clear; auto.
Qed.

Lemma in_order_run ops sb tr : in_order sb tr -> in_order (run ops sb) (tr ++ map w_sequence (dispatched ops sb)).
Proof.
  unfold run. revert sb tr. induction ops as [|op ops IH]; intros sb tr Hin; [by rewrite app_nil_r|]. cbn [fold_left dispatched].
  rewrite map_app, app_assoc. apply IH. by apply in_order_step.
Qed.
End order.

Section queued.
Context {C : Chrono}.

Definition rank_event (rank : Z) (w : SourceEventWrapper) : RankedSourceEvent SourceEventWrapper :=
  {| inner := w; source_rank := rank |}.

(** The key of [a] is smaller. *)
Definition earlier (a b : RankedSourceEvent SourceEventWrapper) : Prop := cmp (order_key a) (order_key b) = Lt.

Lemma sorted_sublist {A} (R : A -> A -> Prop) l l' : l `sublist_of` l' -> StronglySorted R l' -> StronglySorted R l.
Proof.
  induction 1 as [|x l l' Hs IH|x l l' Hs IH]; [done|..]; intros [Hx Hl]%StronglySorted_cons; [|by apply IH].
  apply StronglySorted_cons. split; [|by apply IH]. apply Forall_forall. intros y Hy.
  rewrite Forall_forall in Hx. apply Hx. by apply (elem_of_sublist l).
Qed.

Lemma line_earlier rank l :
  StronglySorted Z.lt (map w_sequence l) -> StronglySorted Z.le (map w_timestamp l) ->
  StronglySorted earlier (map (rank_event rank) l).
Proof.
  induction l as [|w l IH]; cbn [map]; [constructor|].
  intros [Hs Hsl]%StronglySorted_cons [Ht Htl]%StronglySorted_cons. apply StronglySorted_cons. split; [|by apply IH].
  rewrite Forall_forall in Hs, Ht. apply Forall_forall. intros x (v & -> & Hv)%list_elem_of_fmap.
  specialize (Hs (w_sequence v) ltac:(by apply list_elem_of_fmap_2)).
  specialize (Ht (w_timestamp v) ltac:(by apply list_elem_of_fmap_2)).
  change (cmp_then (w_timestamp w ?= w_timestamp v) (cmp_then (rank ?= rank) (w_sequence w ?= w_sequence v)) = Lt).
  rewrite Z.compare_refl. destruct (Z.compare_spec (w_timestamp w) (w_timestamp v)); [|done|lia].
  by apply Z.compare_lt_iff.
Qed.

Lemma earlier_unique l a b : StronglySorted earlier l -> a ∈ l -> b ∈ l -> cmp (order_key a) (order_key b) = Eq -> a = b.
Proof.
  induction l as [|x l IH]; [by intros _ ?%not_elem_of_nil|]. intros [Hx Hl]%StronglySorted_cons. rewrite Forall_forall in Hx.
  intros [->|Ha]%elem_of_cons [->|Hb]%elem_of_cons He; [done|..|by apply IH].
  - apply Hx in Hb. unfold earlier in Hb. by rewrite He in Hb.
  - apply Hx in Ha. unfold earlier in Ha. apply cmp_eq_sym in He. by rewrite He in Ha.
Qed.

Lemma drained_sorted `{!BinaryHeap (RankedSourceEvent SourceEventWrapper) _} q n l :
  StronglySorted earlier l -> heap q ≡ₚ l -> (depth q <= n)%nat -> (dequeue_all n q).1 = l.
Proof.
  intros Hl Hp Hn. pose proof (drained_in_order q n Hn) as Hd. destruct (dequeue_all n q) as [l' q']. destruct Hd as (Hp' & _ & Hs).
  cbn. apply (StronglySorted_unique_strong (fun a b => key_le (order_key a) (order_key b))); [|done| |by rewrite Hp'].
  - intros a b Ha Hb Hab Hba. apply (earlier_unique l); [done| |done|].
    + by rewrite <- Hp, <- Hp'.
    + apply key_le_cases in Hab as [Hlt|He]; [|done]. unfold key_le in Hba. by rewrite cmp_sym, Hlt in Hba.
  - revert Hl. clear. induction l as [|x l IH]; [constructor|]. intros [Hx Hl]%StronglySorted_cons. apply StronglySorted_cons.
    split; [|by apply IH]. eapply Forall_impl; [exact Hx|]. unfold earlier, key_le. by intros y ->.
Qed.

(** [C13] A subscriber processes the events of a source in the order in which they
    were dispatched: when the sequences given to the source grow, what a
    dispatcher has been given, put into the queue of a query in any order, comes
    out of it in the order of dispatch - also when the clock has gone back, and
    through events with equal timestamps. *)
Theorem live_events_keep_their_order `{!BinaryHeap (RankedSourceEvent SourceEventWrapper) _}
    source_id mode provider comparator ops d rank q n :
  let sb := source_base_new source_id mode provider comparator in
  StronglySorted Z.lt (map w_sequence (dispatched ops sb)) -> d ∈ dispatchers (run ops sb) ->
  heap q ≡ₚ map (rank_event rank) (d_sent d) -> (depth q <= n)%nat ->
  (dequeue_all n q).1 = map (rank_event rank) (d_sent d).
Proof.
  intros sb Hs Hd Hp Hn. assert (Hin : in_order sb []).
  { intros x Hx. subst sb. destruct mode as [[]|]; cbn in Hx; [apply list_elem_of_singleton in Hx as ->; apply line_ok_nil|..];
      by apply not_elem_of_nil in Hx. }
  destruct (in_order_run ops sb [] Hin d Hd) as (Hsub & Ht & _).
  apply drained_sorted; [|done|done]. apply line_earlier; [|done]. by apply (sorted_sublist _ _ _ Hsub).
Qed.
End queued.

(** ** What a source confirms upstream *)

Section confirmed.
Context {C : Chrono}.

Lemma position_at_from n (m : btree Z Bytes) acc :
  bt_sorted m ->
  let found := fold_left (fun found e => if e.1 <=? n then Some e.2 else found) m acc in
  ((forall e, e ∈ m -> n < e.1) /\ found = acc) \/
  exists k p, (k, p) ∈ m /\ k <= n /\ (forall e, e ∈ m -> e.1 <= n -> e.1 <= k) /\ found = Some p.
Proof.
  intros Hm. revert acc. induction Hm as [|k p m Hk Hm IH]; intros acc; cbn [fold_left fst snd].
  { left. split; [by intros e ?%not_elem_of_nil|done]. }
  rewrite Forall_forall in Hk. assert (Hlt : forall e, e ∈ m -> k < e.1) by (intros e He%Hk; by apply Z.compare_lt_iff).
  destruct (Z.leb_spec k n) as [Hle|Hgt].
  - right. destruct (IH (Some p)) as [[Hno ->]|(k' & p' & Hin & Hle' & Hmax & ->)].
    + exists k, p. split; [by left|]. split; [done|]. split; [|done].
      intros e [->|He]%elem_of_cons Hen; [done|]. apply Hno in He. lia.
    + exists k', p'. split; [by right|]. split; [done|]. split; [|done].
      intros e [->|He]%elem_of_cons Hen; [|by apply Hmax]. apply Hlt in Hin. cbn in *. lia.
  - destruct (IH acc) as [[Hno ->]|(k' & p' & Hin & Hle' & Hmax & ->)].
    + left. split; [|done]. intros e [->|He]%elem_of_cons; [done|by apply Hno].
    + apply Hlt in Hin. cbn in Hin. lia.
Qed.

Lemma least_from l acc :
  (forall a, acc = Some a -> a <> u64_max) ->
  let least := fold_left (fun least v =>
    if v =? u64_max then least else Some match least with Some m => Z.min m v | None => v end) l acc in
  match least with
  | Some m => m <> u64_max /\ (m ∈ l \/ acc = Some m) /\ (forall v, v ∈ l -> v <> u64_max -> m <= v) /\ (forall a, acc = Some a -> m <= a)
  | None => acc = None /\ forall v, v ∈ l -> v = u64_max
  end.
Proof.
  revert acc. induction l as [|x l IH]; intros acc Hacc; cbn [fold_left].
  { destruct acc as [a|]; [|by split; [|intros v ?%not_elem_of_nil]]. split; [by apply Hacc|]. split; [by right|].
    split; [by intros v ?%not_elem_of_nil|]. by intros b [= ->]. }
  destruct (Z.eqb_spec x u64_max) as [->|Hne].
  - specialize (IH acc Hacc). cbv zeta in IH. destruct (fold_left _ l acc) as [m|].
    + destruct IH as (Hm & Hin & Hl & Ha). split; [done|]. split; [set_solver|]. split; [|done].
      intros v [->|Hv]%elem_of_cons Hvm; [done|by apply Hl].
    + destruct IH as [-> Hl]. split; [done|]. intros v [->|Hv]%elem_of_cons; [done|by apply Hl].
  - specialize (IH (Some match acc with Some m => Z.min m x | None => x end)). cbv zeta in IH.
    assert (Hne' : match acc with Some m => Z.min m x | None => x end <> u64_max).
    { destruct acc as [a|]; [|done]. specialize (Hacc a eq_refl). lia. }
    specialize (IH ltac:(by intros a [= <-])). destruct (fold_left _ l _) as [m|]; [|by destruct IH].
    destruct IH as (Hm & Hin & Hl & Ha). specialize (Ha _ eq_refl). split; [done|]. split; [|split].
    + destruct Hin as [Hin|[= <-]]; [left; by right|]. destruct acc as [a|]; [|left; by left].
      destruct (Z.min_spec a x) as [[_ ->]|[_ ->]]; [by right|left; by left].
    + intros v [->|Hv]%elem_of_cons Hvm; [destruct acc; lia|by apply Hl].
    + intros a ->. lia.
Qed.

(** What a subscriber that is still there has confirmed *)
Definition confirmed_by (sb : SourceBase) (v : Z) : Prop :=
  v <> u64_max /\ exists query_id h c, handle_of sb !! query_id = Some h /\ handles sb !! h = Some c /\
    holders c <> 0%nat /\ confirmed c = v.

Lemma handle_values_elem sb v : v ∈ handle_values sb <->
  exists query_id h c, handle_of sb !! query_id = Some h /\ handles sb !! h = Some c /\ confirmed c = v.
Proof.
  unfold handle_values. rewrite list_elem_of_omap. split.
  - intros ([q h] & Hin%elem_of_map_to_list & (c & Hc & ->)%fmap_Some). by exists q, h, c.
  - intros (q & h & c & Hq & Hc & <-). exists (q, h). split; [by apply elem_of_map_to_list|]. cbn. by rewrite Hc.
Qed.

Lemma cleaned_values sb v : v ∈ handle_values (cleanup_stale_handles sb) /\ v <> u64_max <-> confirmed_by sb v.
Proof.
  rewrite handle_values_elem. unfold confirmed_by, cleanup_stale_handles. cbn [handle_of handles with_handles]. split.
  - intros [(q & h & c & [Hq Hh]%map_lookup_filter_Some & Hc & Hv) Hne]. split; [done|]. exists q, h, c.
    unfold held in Hh. cbn [snd] in Hh. rewrite Hc in Hh. split; [done|]. split; [done|]. split; [|done].
    by destruct (holders c).
  - intros [Hne (q & h & c & Hq & Hc & Hh & Hv)]. split; [|done]. exists q, h, c. split; [|done].
    apply map_lookup_filter_Some. split; [done|]. unfold held. cbn [snd]. rewrite Hc. by destruct (holders c).
Qed.

Lemma dispatch_positions w sb :
  bt_sorted (sequence_position_map sb) -> bt_sorted (sequence_position_map (dispatch_event_ordered w sb)).
Proof.
  unfold dispatch_event_ordered. cbn -[deliver_all]. destruct (deliver_all _ _ _ _ _) as [l u]. cbn.
  destruct (w_source_position w); [apply bt_insert_sorted|done].
Qed.

Lemma step_positions op sb : bt_sorted (sequence_position_map sb) -> bt_sorted (sequence_position_map (step sb op)).
Proof.
  intros Hs. destruct op as [w|l|e t|settings|settings wal|settings n| | | | | | | | | |i| |];
    cbn -[dispatch_event_ordered] in *; try done.
  - by apply dispatch_positions.
  - apply (batch_inv (fun sb => bt_sorted (sequence_position_map sb))); [|done]. intros w x. apply dispatch_positions.
  - by apply dispatch_positions.
  - destruct (subscribe_with_bootstrap_context settings sb) as [[r sb']| |] eqn:Hsub.
    + by destruct (subscribe_fields _ _ _ _ Hsub) as (_ & _ & _ & -> & _).
    + by destruct (subscribe_begin_fields settings sb) as (_ & _ & _ & _ & _ & _ & ->).
    + by destruct (subscribe_begin_fields settings sb) as (_ & _ & _ & _ & _ & _ & ->).
  - unfold replay_register, raise_sequence_floor. by destruct (resume_sequence settings), (head_sequence wal).
  - unfold replay_response. destruct (request_handle_fields settings sb) as (_ & _ & _ & _ & _ & _ & H7).
    destruct (request_handle settings sb) as [[h|] sb']; cbn in *; by rewrite H7.
  - by apply bt_filter_sorted.
  - constructor.
  - unfold publish_bootstrap_boundary. by destruct (bootstrap_boundary sb).
  - unfold stop_subscriptions. by destruct (dispatch_mode sb).
  - unfold clear_dispatchers. by destruct (dispatch_mode sb).
Qed.

Lemma run_positions ops sb : bt_sorted (sequence_position_map sb) -> bt_sorted (sequence_position_map (run ops sb)).
Proof. unfold run. revert sb. induction ops as [|op ops IH]; intros sb Hs; [done|]. apply IH. by apply step_positions. Qed.

(** [C12] What a source confirms upstream, no subscriber that is still there is
    waiting for: it is the position of an event whose sequence is at most the
    least one any of them has confirmed, and of the last such event that is
    remembered. Without an answer none of them has confirmed anything, or
    nothing is remembered up to what they have. *)
Theorem confirmed_position_is_safe source_id mode provider comparator ops :
  let sb := run ops (source_base_new source_id mode provider comparator) in
  match (compute_confirmed_source_position sb).1 with
  | Some p => exists n v, (n, p) ∈ sequence_position_map sb /\ n <= v /\
      (forall e, e ∈ sequence_position_map sb -> e.1 <= v -> e.1 <= n) /\
      confirmed_by sb v /\ forall v', confirmed_by sb v' -> v <= v'
  | None => (forall v, ~ confirmed_by sb v) \/
      exists v, confirmed_by sb v /\ forall e, e ∈ sequence_position_map sb -> v < e.1
  end.
Proof.
  intros sb. assert (Hs : bt_sorted (sequence_position_map sb)) by (apply run_positions; constructor).
  clearbody sb. unfold compute_confirmed_source_position, compute_confirmed_position, least_confirmed.
  pose proof (least_from (handle_values (cleanup_stale_handles sb)) None ltac:(done)) as Hl. cbv zeta in Hl.
  destruct (fold_left _ _ None) as [v|]; cbn [fst].
  - destruct Hl as (Hne & [Hin|?] & Hmin & _); [|done].
    assert (Hv : confirmed_by sb v) by by apply cleaned_values.
    assert (Hleast : forall v', confirmed_by sb v' -> v <= v').
    { intros v' [Hv' Hne']%cleaned_values. by apply Hmin. }
    unfold position_at. change (sequence_position_map (cleanup_stale_handles sb)) with (sequence_position_map sb).
    destruct (position_at_from v _ None Hs) as [[Hno ->]|(n & p & Hn & Hle & Hmax & ->)].
    + right. by exists v.
    + exists n, v. by split_and!.
  - left. destruct Hl as [_ Hall]. intros v [Hv Hne]%cleaned_values. by apply Hne, Hall.
Qed.
End confirmed.

(** ** Replay, then live events *)

Section replay.
Context {C : Chrono}.

(** What the processor of a query makes of the events of its sources: it skips
    those whose sequence its deduplication knows, and advances it with the
    others. *)
Fixpoint accepted (l : list SourceEventWrapper) (d : SequenceDedup) : list SourceEventWrapper * SequenceDedup :=
  match l with
  | [] => ([], d)
  | w :: l =>
      if should_skip (w_source_id w) (w_sequence w) d then accepted l d
      else let '(l, d) := accepted l (advance (w_source_id w) (w_sequence w) d) in (w :: l, d)
  end.

Lemma accepted_app l1 l2 d :
  (accepted (l1 ++ l2) d).1 = (accepted l1 d).1 ++ (accepted l2 (accepted l1 d).2).1.
Proof.
  revert d. induction l1 as [|w l1 IH]; intros d; [done|]. cbn [app accepted]. destruct (should_skip _ _ _); [apply IH|].
  specialize (IH (advance (w_source_id w) (w_sequence w) d)).
  destruct (accepted (l1 ++ l2) _) as [x y], (accepted l1 _) as [x' y']. cbn in *. by rewrite IH.
Qed.

Lemma accepted_consecutive source_id l s n a d :
  Forall (fun w => w_source_id w = source_id) l -> map w_sequence l = seqZ s n -> 0 <= n ->
  d !! source_id = Some a -> s <= a + 1 ->
  map w_sequence (accepted l d).1 = seqZ (a + 1) (s + n - 1 - a) /\
  (accepted l d).2 !! source_id = Some (Z.max a (s + n - 1)).
Proof.
  intros Hid. revert s n a d. induction Hid as [|w l Hw _ IH]; intros s n a d Hs Hn Hd Hle.
  { assert (n = 0) as -> by (apply (f_equal length) in Hs; rewrite length_seqZ in Hs; cbn in Hs; lia).
    cbn [accepted fst snd map]. rewrite seqZ_nil by lia. split; [done|]. rewrite Hd. f_equal. lia. }
  destruct (Z.eq_dec n 0) as [->|Hnz]; [done|]. rewrite seqZ_cons in Hs by lia. cbn [map] in Hs.
  injection Hs as Hws Hs. cbn [accepted]. unfold should_skip. rewrite Hw, Hd, Hws. destruct (Z.leb_spec s a).
  - destruct (IH (Z.succ s) (Z.pred n) a d Hs ltac:(lia) Hd ltac:(lia)) as [-> ->].
    split; [f_equal; lia|]. f_equal. lia.
  - unfold advance. rewrite Hd. replace (a <? s) with true by (symmetry; apply Z.ltb_lt; lia).
    destruct (IH (Z.succ s) (Z.pred n) s (<[source_id := s]> d) Hs ltac:(lia) ltac:(by rewrite lookup_insert_eq) ltac:(lia)) as [H1 H2].
    destruct (accepted l _) as [x y]. cbn [fst snd map] in *. rewrite H1, H2, Hws. split; [|f_equal; lia].
    rewrite (seqZ_cons (a + 1)) by lia. f_equal; [lia|]. f_equal; lia.
Qed.

Lemma filter_upto {B} (m : list (Z * B)) a n h :
  map fst m = seqZ a n -> 0 <= n -> h + 1 <= a + n ->
  map fst (List.filter (fun e => e.1 <=? h) m) = seqZ a (h + 1 - a).
Proof.
  revert a n. induction m as [|[k v] m IH]; intros a n Hm Hn Hh.
  { assert (n = 0) as -> by (apply (f_equal length) in Hm; rewrite length_seqZ in Hm; cbn in Hm; lia).
    cbn. by rewrite seqZ_nil by lia. }
  destruct (Z.eq_dec n 0) as [->|Hnz]; [done|]. rewrite seqZ_cons in Hm by lia. injection Hm as -> Hm.
  specialize (IH (Z.succ a) (Z.pred n) Hm ltac:(lia) ltac:(lia)). cbn [List.filter fst]. destruct (Z.leb_spec a h).
  - cbn [map fst]. rewrite IH, (seqZ_cons a) by lia. f_equal. f_equal. lia.
  - rewrite IH. by rewrite !seqZ_nil by lia.
Qed.

(** What the log has after a sequence, in order and up to its head at least *)
Definition log_reads (wal : Wal) (head from : Z) : Prop :=
  exists m all, head <= m /\ read_from wal from = Ok all /\ map fst all = seqZ from (m + 1 - from).

Lemma replay_events_read wal head resume_seq : 0 <= resume_seq -> head < u64_max ->
  (resume_seq < head -> log_reads wal head (resume_seq + 1)) ->
  exists events, replay_events wal head resume_seq = Ok events /\ map fst events = seqZ (resume_seq + 1) (head - resume_seq).
Proof.
  intros H0 Hmax Hlog. unfold replay_events. destruct (Z.ltb_spec resume_seq head) as [Hlt|Hge].
  - destruct (Hlog Hlt) as (m & all & Hm & Hread & Hall). rewrite (saturating_next _ head) by lia. rewrite Hread.
    eexists. split; [reflexivity|]. rewrite (filter_upto _ _ _ _ Hall) by lia. f_equal. lia.
  - eexists. split; [done|]. by rewrite seqZ_nil by lia.
Qed.

Lemma replay_wrappers source_id now events :
  map w_sequence (map (replay_wrapper source_id now) events) = map fst events /\
  Forall (fun w => w_source_id w = source_id) (map (replay_wrapper source_id now) events).
Proof. induction events as [|e events [IH1 IH2]]; cbn; [done|]. rewrite IH1. split; [done|]. by constructor. Qed.

(** What a dispatcher has been given *)
Definition sent_to (sb : SourceBase) (j : nat) : list SourceEventWrapper :=
  match dispatchers sb !! j with Some d => d_sent d | None => [] end.

End replay.
