(* ===== verification/SourceSamples.v ===== *)
(** * A source on concrete runs

    A stream that is taken back for a second subscriber, a clock that goes
    back, subscriptions that resume, confirm and leave; and runs in which marks
    outlive or miss their subscribers, or replayed events are overtaken. *)

From Stdlib Require Import Sorted.
From S2P Require Import Prelude BTree Floats Hashing Ast Models Errors Values QueryOutput OutputStores OutputPipeline.
From S2P Require Import PriorityQueue ReactionSamples SourceBase SourceBaseFacts.

Module SourceExample.
#[local] Existing Instance Sample.chrono.

Definition event (sequence time : Z) (position : option Bytes) : SourceEventWrapper := {|
  w_source_id := "s"; w_event := Control FuturesDue; w_timestamp := time; w_source_position := position;
  w_sequence := sequence |}.

Definition at_position (k : nat) : Bytes := be_bytes (Z.of_nat k).
Definition row (sequence : Z) (k : nat) : SourceEventWrapper := event sequence 0 (Some (at_position k)).

Definition settings (query_id : string) (from : option Bytes) (sequence : option Z) : SourceSubscriptionSettings := {|
  sub_query_id := query_id; enable_bootstrap := false; resume_from := from; resume_sequence := sequence;
  request_position_handle := true |}.

Definition fresh_source : SourceBase := source_base_new "s" None false (Some bytes_after).

(** ** A stream taken back *)

Definition rewound : list Op :=
  [ODispatch (row 1 4); ODispatch (row 2 5); OSubscribe (settings "late" (Some (at_position 2)) None);
   OAllocated (Control FuturesDue) 7; OBatch [row 3 3; row 4 4; row 5 5]; ODispatch (row 6 6); ODispatch (row 7 7)].

Definition subscribed (query_id : string) (from : option Bytes) (sb : SourceBase) : SourceBase :=
  step sb (OSubscribe (settings query_id from None)).


(** ** Numbers and clocks *)

Lemma framework_sequences_fresh_witness :
  next_sequence (run rewound fresh_source) = 8 /\
  forall n, n ∈ concat (map told rewound) ++ map w_sequence (dispatched rewound fresh_source) ->
    n < next_sequence (run rewound fresh_source).
Proof.
  split; [by_vm|]. apply (framework_sequences_fresh rewound fresh_source 10).
  - repeat (apply Forall_cons; split; [unfold within; cbn; repeat (apply Forall_cons; split; [lia|]); apply Forall_nil; done|]).
    by apply Forall_nil.
  - cbn. lia.
  - unfold u64_max. cbn. lia.
Defined.

Lemma sequence_positions_in_order_witness : bytes_after (be_bytes 256) (be_bytes 255) = true.
Proof. apply (sequence_positions_in_order 256 255); unfold u64_max; lia. Defined.

(** The clock stands still, then goes back. *)
Definition clock_back : list Op :=
  [OSubscribe (settings "q" None (Some 3)); OAllocated (Control FuturesDue) 50; OBatch [event 9 50 None; event 10 20 None];
   OAllocated (Control FuturesDue) 30].

Definition given_all : ChangeDispatcher :=
  let dispatched_at '(time, sequence) :=
    with_timestamp time (event sequence 0 None) in
  {| d_mode := Channel; d_sent := map dispatched_at [(50, 4); (50, 9); (50, 10); (50, 11)]; d_open := true |}.

Lemma live_events_keep_their_order_witness :
  map (fun w => (w_timestamp w, w_sequence w)) (d_sent given_all) = [(50, 4); (50, 9); (50, 10); (50, 11)] /\
  (dequeue_all 4 {| heap := rev (map (rank_event 0) (d_sent given_all)); max_capacity := 4; metrics := zero_metrics |}).1 =
  map (rank_event 0) (d_sent given_all).
Proof.
  split; [by_vm|]. refine (live_events_keep_their_order "s" None false (Some bytes_after) clock_back given_all 0 _ 4 _ _ _ _).
  - assert (He : map w_sequence (dispatched clock_back (source_base_new "s" None false (Some bytes_after))) = [4; 9; 10; 11]) by by_vm.
    rewrite He. repeat constructor.
  - assert (He : dispatchers (run clock_back (source_base_new "s" None false (Some bytes_after))) = [given_all]) by by_vm.
    rewrite He. by left.
  - cbn [heap]. symmetry. apply Permutation_rev.
  - cbn [depth heap]. unfold depth. cbn [heap]. rewrite length_rev, length_map.
    assert (He : length (d_sent given_all) = 4%nat) by by_vm. rewrite He. lia.
Defined.

(** ** Confirmed positions *)

(** Two queries hold handles 0 and 1; a third is gone. *)
Definition confirming : list Op :=
  [OSubscribe (settings "a" None None); OSubscribe (settings "b" None None); OSubscribe (settings "gone" None None);
   OBatch [row 1 11; row 2 12; row 3 13; row 4 14]; OStoreHandle 0 4; OStoreHandle 1 3; OStoreHandle 2 1; ODropHandle 2].

Example confirms_slowest_live : (compute_confirmed_source_position (run confirming fresh_source)).1 = Some (at_position 13).
Proof. by_vm. Qed.

(** ** Replay *)

Definition change (k : Z) : SourceChange :=
  Delete {| reference := {| source_id := "s"; element_id := "e" |}; labels := []; effective_from := k |}.

(** A log with the events 1 to 6, read when its head was 5 *)
Definition log : Wal := {|
  head_sequence := Ok 5;
  read_from n := Ok (List.filter (fun e => n <=? e.1) (map (fun k => (k, change k)) [1; 2; 3; 4; 5; 6])) |}.

Definition without_positions : SourceBase := source_base_new "s" None false None.
Definition replaying : SourceBase := step without_positions (OReplay (settings "q" None (Some 2)) log).
Definition live (sequence time : Z) : SourceEventWrapper :=
  {| w_source_id := "s"; w_event := Change (change sequence); w_timestamp := time; w_source_position := None;
     w_sequence := sequence |}.
Definition live_ops : list Op := [ODispatch (live 5 90); OBatch [live 6 91; live 7 92]; ODispatch (live 8 120)].


(** Replayed events have the time at which they were made into events; a live
    event that is dispatched while the log is read has an earlier one. The queue
    of the query gives it first, and the replayed events are then skipped. *)
Example replayed_behind_live_are_skipped :
  let r := (replay_response (settings "q" None (Some 2)) 2 100 0 (map (fun k => (k, change k)) [3; 4; 5]) replaying).1 in
  let received := r_replay r ++ sent_to (run [ODispatch (live 6 90)] replaying) 0 in
  let queue := fold_left (fun q w => (queue_enqueue (rank_event 0 w) q).2) received (new_queue 10) in
  let processed := map inner (dequeue_all 10 queue).1 in
  (map w_sequence received, map w_sequence processed, map w_sequence (accepted processed {["s"%string := 2]}).1) =
  ([3; 4; 5; 6], [6; 3; 4; 5], [6]).
Proof. cbv zeta. by_vm. Qed.

(** ** Marks and their subscribers *)

(** A second life of the source: a new query, which resumes nowhere, after the
    source was stopped one way or the other *)
Definition second_life (stop : Op) : list Op :=
  [OSubscribe (settings "old" None None); ODispatch (row 1 9); stop; OSubscribe (settings "new" None None);
   OBatch [row 2 5; row 3 6; row 4 9; row 5 10]].

Example stop_leaves_marks :
  given (run (second_life OStop) fresh_source) 0 = [at_position 10] /\
  given (run (second_life OClear) fresh_source) 0 = map at_position [5; 6; 9; 10]%nat.
Proof. split; by_vm. Qed.

(** Broadcasting: the mark of the one dispatcher holds the replay of a query
    that resumes back. *)
Example broadcast_suppresses_replay :
  let sb := run [OSubscribe (settings "a" None None); ODispatch (row 1 9); OSubscribe (settings "b" (Some (at_position 5)) None)]
              (source_base_new "s" (Some Broadcast) false (Some bytes_after)) in
  given (run [OBatch [row 2 6; row 3 7; row 4 8; row 5 9; row 6 10]] sb) 0 = map at_position [9; 10]%nat.
Proof. cbv zeta. by_vm. Qed.

(** Two queries subscribe at once: both have made their receiver before either
    registers its mark, which both then put at the last dispatcher. *)
Example marks_of_concurrent_subscribers :
  let a := settings "a" (Some (at_position 3)) None in
  let b := settings "b" (Some (at_position 7)) None in
  let receivers := ok_or fresh_source
    (r ← create_streaming_receiver fresh_source; r ← create_streaming_receiver (snd r); Ok (snd r)) in
  map_to_list (subscriber_resume_positions (register_resume_position a (register_resume_position b receivers))) =
    [(1%nat, at_position 3)].
Proof. cbv zeta. by_vm. Qed.

(** The first snapshot that is taken sets the boundary; a resumed one does not. *)
Example first_boundary_stays :
  bootstrap_boundary (bootstrap_done true (Some (Some (at_position 8))) (bootstrap_done true (Some (Some (at_position 4)))
    (bootstrap_done false (Some (Some (at_position 2))) fresh_source))) = Some (at_position 4).
Proof. cbv zeta. by_vm. Qed.
End SourceExample.
